(* ===== verification/_CoqProject ===== *)
-Q . S2P
Prelude.v
RingLf.v
RingSpsc.v
RingConc.v
RingVyukov.v
Heap.v
WaitQ.v
Park.v
Abs.v
Chan.v
ChanSend.v
ChanRecv.v
ChanSpec.v
ChanSys.v
Select.v
SelectReady.v
Layout.v
Net.v
NetHeap.v
WorkerPool.v
NetDet.v
Pairs.v
FanIn.v
Spin.v
Fairness.v
Sieve.v
RequestReply.v
Snake.v
Dplane.v
DplaneMain.v
DplaneSys.v
DplaneInv.v
DplaneReport.v
DplaneStop.v
DplaneArgs.v
DplaneSpsc.v
DplaneMpsc.v
DplaneHang.v
DplaneInit.v
BenchMpmc.v
