(* ===== verification/Prelude.v ===== *)
(** * Verification of libchan

    libchan is a C library of Go-style channels (typed, bounded or unbuffered
    queues shared by threads, with blocking, non-blocking and timed operations and
    a select over several channels), together with example programs.  This library
    models the code under [src/src/], the types of [src/include/libchan.h], most of
    the examples under [src/examples/] and parts of two benchmarks, and proves what
    they promise.

    ** The program and the files that model it

    - The lock-free ring ([ring_lf.h], [ring_lf.c]) buffers the messages of a
      channel: a power-of-two array of slots and four wrapping 32-bit cursors.
      [RingLf] has its operations as one thread runs them ([ring_lf_init],
      [ring_lf_push], [ring_lf_pop], the burst operations), [RingConc] the same
      operations as an interleaving of atomic accesses, [RingSpsc] the
      cursor-cached variants of [libchan_internal.h].
    - [Heap] has the objects of a channel (the channel, waiters, parks, user memory)
      as typed stores and the state and error monad [M] of the functions above the
      ring: a program returns, is undefined ([Ub]) or never returns ([Hang]).
    - [WaitQ] has the intrusive waiter lists of [libchan_internal.h].
    - [Park] has [park.c], both back ends (futex and pthread), as interleavings of a
      waiter, a waker and the kernel, and [chan_spin_hint] of [util.c].
    - [Chan] has [chan_core.c] (creation, reference counts, closing, the queries)
      and the wake-up helpers of [libchan_internal.h]; [ChanSend] has [chan_send.c],
      [ChanRecv] has [chan_recv.c], [Select] has [select.c], and [SelectReady] the
      specification of the whole call.  A blocking operation is a program up to its
      park and one for what follows it.
    - [Abs] is the interface between the layers: an abstract memory without links,
      cursors and slots, the relation [repr] to the heap, and the judgement [awp] in
      which the ring, the queues, the mutex and the parks make their promises and
      the operations of a channel are specified.
    - [ChanSpec] is the contract of the public header as an executable system of
      channels and blocked threads; [ChanSys] is the system of threads calling the
      modelled C functions and its simulation by [ChanSpec].
    - [Net] is the language of the smaller examples: threads whose next call is an
      [action] on a channel, run over [ChanSpec] ([snet_step]) and over plain queues
      ([net_step]).  [NetHeap] runs such programs on the modelled C functions and
      their memory ([cnet_step]), with [Layout] for what no call changes (sizes and
      kinds); [NetDet] has the programs with one sender and one receiver a channel.
    - Programs of [Net]: [WorkerPool] has [worker_pool.c], [Pairs] has
      [producer_consumer.c], [ping_pong.c] and [ping_pong_buffered.c], [FanIn] has
      [multi_recv_fanin.c], [Spin] has [multi_recv_spin.c].
    - [Sieve] has [sieve_primes.c], whose chain of threads grows while it runs;
      [RequestReply] has an exchange of [request_reply.c] on the memory of the
      library; [Fairness] has [select_fairness.c], one thread that calls the modelled
      functions.
    - [BenchMpmc] has the threads and the measurement of [bench_mpmc.c].
    - [Snake] has [snake_chan.c]: the decoding of keys, the game and its drawing.
    - [RingVyukov] has the per-slot queue that [bench_ring_cmp.c] compares the ring
      with, as an interleaving of atomic accesses.
    - The examples [dplane_pipeline.c] and [dplane_pipeline_mpsc.c], two versions
      of a self-test of the library, send numbered packets along six paths through
      five node threads.  [Dplane] has their data and the programs threads are
      written in, [DplaneMain] the driver ([stat_on_recv], [inject_packet], the
      drain loops, the traffic patterns, the end of [main]), [DplaneArgs] the
      command line.  [DplaneSys] runs the six threads interleaved over bounded
      queues with a close flag.  What a version has of its own are the classes [Topology] (its nodes and routes)
      and [Driver] (its channels as the driver uses them) with their laws
      [TopologyOk], [InjectOk] and [DriverOk]; [DplaneInv], [DplaneReport] and
      [DplaneStop] prove against them, [DplaneSpsc] and [DplaneMpsc] have the nodes
      of the two versions, discharge the laws and state the theorems;
      [DplaneInit] has the memory [main] allocates and frees, channels, rings and
      latency arrays; [DplaneHang] leads the first version, with its own capacities,
      to a state where it hangs for ever.

    ** What the theorems show

    - Ring: sequentially the operations are the ends of a bounded FIFO queue for
      every cursor position ([ring_push_pop_fifo], [ring_burst_fifo]); under any
      interleaving of any number of producers and consumers every execution is one
      of the queue, slots in flight are never shared, and committing does not
      deadlock ([ring_mpmc_linearizable], [ring_mpmc_exclusive],
      [ring_mpmc_progress]); the cached variants agree ([spsc_equiv_mpmc]).
    - Queues and parks: the linked lists are lists ([waitq_refines_list]), no
      wake-up is lost in either park ([futex_park_correct],
      [pthread_park_correct]), deadlines denote the timeout ([deadlines_exact]).
    - Channel operations: [chan_create_spec], [chan_close_spec],
      [chan_destroy_spec], [chan_send_spec], [chan_recv_spec] and their companions
      for bursts and for the code after a park.
    - The system of threads: [chan_sys_refines] (the calls of any schedule, made of
      the contract in the same order, get the same answers there, and the next call
      blocks or answers as it does there, never undefined and never hanging),
      [no_lost_wakeup], [messages_conserved], [fifo_order].
    - Select: lock order ([select_lock_order]); threads whose lock and unlock calls
      interleave in any way never wait for one another in a cycle
      ([select_deadlock_free]); every outcome of the call is the non-blocking
      operation of one case that can proceed, or, when none can, nothing or a wait on
      all channels, sends on closed channels that the code overlooks excepted
      ([select_spec]); a waiting select is served by a send, woken by a close or
      times out, and leaves nothing behind ([select_rendezvous], [select_stopped],
      [select_timed_out]).
    - Programs: on the C functions they do what they do over queues
      ([net_on_code]), and with one sender and one receiver a channel they have one
      outcome ([one_outcome]).  So the pool, the pairs and the fan-in compute the
      right results under every schedule and end ([worker_pool_total],
      [pairs_outcome], [fan_in_complete]), and the polling loop receives everything
      with no more steps than its idle rounds account for ([spin_receives_all]).  The
      sieve prints the primes ([sieve_correct]); selects over ready channels win in
      turn ([select_takes_turns]); the game stays
      within its arrays and buffers ([snake_run_safe], [draw_frame_complete]) and
      decodes its keys ([input_decodes]); the per-slot queue is a FIFO queue
      ([vy_linearizable], [vy_exclusive], [vy_commits_alone]).
    - The data-plane examples: under every schedule the packets of a path are in
      order and are exactly those injected and not yet collected, none lost and none
      twice ([pipeline_in_order], [pipeline_report], [inbox_in_order],
      [inbox_report]); their memory accesses are in bounds
      ([pipeline_memory_safe]); after the stop flag they terminate
      ([shutdown_terminates], [inbox_shutdown]); whatever the allocator answers
      to each call, [main] frees every channel, ring and array, but for the arrays
      granted before one that is refused ([setup_memory], [setup_leaks_latency]); their parser
      yields counts, intervals, modes and paths in range, and a duration that is
      positive but not bounded ([parse_args_ok], [long_duration_overflows],
      [path_list_roundtrip]).
    - Behaviours that leave the contract are theorems too: [select_drops_message],
      [select_send_closed_parks], [unbuffered_timeout_loses_message],
      [push_spurious_full], [spsc_stale_pop], [ring_lf_init_truncates],
      [chan_len_exceeds_cap], [parallel_mode_wedges], [setup_leaks_latency],
      [long_duration_overflows], [reply_freed_in_use],
      [two_turns_crash], [food_on_new_head], [split_arrow_turns_right],
      [any_key_does_not_end], [vy_capacity_one_overwrites], [alternating_selects],
      [backoff_wraps], [warmup_counted] and the part of [spin_receives_all] that no
      channel is destroyed.

    ** Bounds and fuel

    Integers are [Z] with the wrap-around of their C type written out ([u32],
    [u64], [i32]).  Loops over a wait queue carry the number of live waiters plus
    one as fuel; running out is [Hang], and the specifications prove that it does
    not happen.  The bounded spin of the fast paths is the source's own 64 rounds.
    [next_pow2] and the doubling of the latency arrays ([grow_cap], 64 rounds)
    have fuel for every 32- and 64-bit value.  The parser's fuel is the length of
    its text plus one.  The timed loops of the example end when the clock says so:
    their fuel is a parameter, a loop that uses it up is [Unfinished], and the
    theorems hold for every fuel; counted runs need none for injecting.  An access
    outside an array is [Undefined] there, and a deadline that is not an [int64_t]
    is [Overflow]: three different ends, and none of them a driver that waits.  The loops
    of the game take the polls and key presses they are given as fuel; placing food
    tries the source's 1000 times; ten digits hold every [int].  Trial division of
    [x] has [x] rounds.  Programs of [Net] are runs of any length; the bounds on
    their length are theorems.  Runs of [RingVyukov] have fewer than 2^62 steps, so that
    its 64-bit cursors do not wrap.

    ** Not modelled

    Memory is sequentially consistent: the memory orders of the atomics are not
    modelled.  The functions of a channel run alone between their park points,
    except in [RingConc] and [Park]; the lock-free fast paths are not interleaved
    with the slow paths.  [ChanSys] covers multi-producer channels; SPSC channels
    have the ring of [RingSpsc] and the modelled fast paths but no system theorem.
    Of the data-plane examples, printing and the latency percentiles (floating
    point) are left out, and [getopt] and [strtod] are parameters.
    Their channels are bounded queues as the contract of the library has them; they
    are not run on the functions of the library.  Their counter of idle rounds
    ([poll_idle]) wraps around like that of [backoff] where C leaves the overflow
    undefined.  A channel's ring is a field of the channel; its block of slots is
    granted or refused per call, and one that is dropped without being freed is in
    the list [h_lost] of the heap.  [Net] is for any number of blocking
    threads that send, receive, poll, close and join, not for select: the examples
    that wait in a select with a deadline ([multi_recv_select.c], [select_cancel.c])
    have no program here, and [Fairness] runs alone.  The programs of [Net] leave out
    printing and the destruction of the channels after the last join.  Of the game, the
    terminal settings are left out, and the channel is given by what its polls
    answer.  [RequestReply] has one request.  In [BenchMpmc] the channel answers as its
    contract says, and the rate (floating point) is left out.  The burst example, the
    timing loops of the other benchmarks and the tests only call what is specified
    here and measure time.

    This file holds what all the others share: machine integers, the error
    monad, lists, executions of step functions and object memory. *)

From Stdlib Require Export ZArith Lia Strings.Byte.
From stdpp Require Export base tactics list gmap option numbers.

#[global] Open Scope Z_scope.

(** ** Machine integers

    A [uint32_t], [int32_t] or [size_t] is a [Z] together with the explicit
    wrap-around of the C conversion to its width. *)

Definition two32 : Z := 4294967296.
Definition two64 : Z := 18446744073709551616.

(** Conversion to [uint32_t]. *)
Definition u32 (x : Z) : Z := x mod two32.

(** Conversion to [size_t] / [uint64_t] on the LP64 targets of the build. *)
Definition u64 (x : Z) : Z := x mod two64.

(** Conversion to [int32_t] (two's complement, as every supported compiler
    defines it). *)
Definition i32 (x : Z) : Z :=
  if u32 x <? 2147483648 then u32 x else u32 x - two32.

Definition UINT32_MAX : Z := 4294967295.

(** ** Outcomes of C code

    [Undef] is undefined behaviour (an access outside an object or through a
    dangling pointer), [Hang] is a loop that the thread running alone can
    never leave. *)

Inductive res (A : Type) : Type :=
| Ret (a : A)
| Undef
| Hang.
Arguments Ret {A} a.
Arguments Undef {A}.
Arguments Hang {A}.

Definition res_bind {A B} (m : res A) (k : A -> res B) : res B :=
  match m with
  | Ret a => k a
  | Undef => Undef
  | Hang => Hang
  end.

(** Reading through a pointer whose target may not exist. *)
Definition deref {A} (o : option A) : res A :=
  match o with Some a => Ret a | None => Undef end.

Declare Scope chan_scope.
Delimit Scope chan_scope with chan.
Notation "'let!' x ':=' m 'in' k" := (res_bind m (fun x => k))
  (at level 10, x pattern, m at level 100, k at level 200) : chan_scope.
#[global] Open Scope chan_scope.

Lemma res_bind_Ret {A B} (m : res A) (k : A -> res B) b :
  res_bind m k = Ret b -> exists a, m = Ret a /\ k a = Ret b.
Proof. destruct m; simpl; intros; [eauto | discriminate..]. Qed.

Lemma deref_Ret {A} (o : option A) a : deref o = Ret a <-> o = Some a.
Proof. destruct o; simpl; split; intros; simplify_eq; done. Qed.

(** ** Tactics *)

(** Decide the first boolean test of the goal, turning it into an arithmetic
    fact. *)
Ltac case_test :=
  match goal with
  | |- context [Z.eqb ?a ?b] => destruct (Z.eqb_spec a b)
  | |- context [Z.ltb ?a ?b] => destruct (Z.ltb_spec a b)
  | |- context [Z.leb ?a ?b] => destruct (Z.leb_spec a b)
  | |- context [Z.geb ?a ?b] => rewrite (Z.geb_leb a b); destruct (Z.leb_spec b a)
  | |- context [Z.gtb ?a ?b] => rewrite (Z.gtb_ltb a b); destruct (Z.ltb_spec b a)
  end.

(** Linear arithmetic through the wrap-around of the fixed-width types. *)
Ltac wrap_lia :=
  unfold u32, u64, i32, two32, two64, UINT32_MAX in *;
  Z.to_euclidean_division_equations; lia.

(** Side conditions [2 ^ k <> 0] and [0 < 2 ^ k]. *)
Ltac pow2_side := first [apply Z.pow_nonzero; lia | apply Z.pow_pos_nonneg; lia].

(** Invert the computations recorded by equations [m = Ret a]. *)
Ltac inv_ret :=
  repeat match goal with
  | H : Ret _ = Ret _ |- _ => injection H as H; try subst
  | H : Undef = Ret _ |- _ => discriminate H
  | H : Hang = Ret _ |- _ => discriminate H
  | H : res_bind _ _ = Ret _ |- _ =>
      let a := fresh "a" in let E := fresh "E" in
      apply res_bind_Ret in H as (a & E & H)
  | H : deref _ = Ret _ |- _ => apply deref_Ret in H
  end.

(** ** Wrap-around lemmas *)

Lemma u32_range x : 0 <= u32 x < two32.
Proof. apply Z.mod_pos_bound. done. Qed.

Lemma u32_small x : 0 <= x < two32 -> u32 x = x.
Proof. apply Z.mod_small. Qed.
Lemma i32_small x : 0 <= x < 2147483648 -> i32 x = x.
Proof. intros. unfold i32. rewrite u32_small by (unfold two32; lia). case_test; lia. Qed.

Lemma u64_small x : 0 <= x < two64 -> u64 x = x.
Proof. apply Z.mod_small. Qed.

Lemma u32_u32 x : u32 (u32 x) = u32 x.
Proof. apply u32_small, u32_range. Qed.

Lemma u32_add_l x y : u32 (u32 x + y) = u32 (x + y).
Proof. apply Zplus_mod_idemp_l. Qed.

Lemma u32_add_r x y : u32 (x + u32 y) = u32 (x + y).
Proof. apply Zplus_mod_idemp_r. Qed.

Lemma u32_sub x y : u32 (u32 x - u32 y) = u32 (x - y).
Proof. unfold u32. rewrite Zminus_mod_idemp_l, Zminus_mod_idemp_r. done. Qed.

(** The distance between two cursors read back from their wrapped values: the
    identity behind every full/empty check of the ring. *)
Lemma u32_distance x y : 0 <= x - y < two32 -> u32 (u32 x - u32 y) = x - y.
Proof. intros. rewrite u32_sub. by apply u32_small. Qed.

Lemma u32_inj_window x y : - two32 < x - y < two32 -> u32 x = u32 y -> x = y.
Proof.
  intros Hr He.
  assert (u32 (x - y) = 0) as H0.
  { rewrite <- u32_sub, He, Z.sub_diag. done. }
  wrap_lia.
Qed.

Create HintDb libchan.
Create Rewrite HintDb libchan_rw.
#[export] Hint Rewrite u32_u32 u32_add_l u32_add_r u32_sub : libchan_rw.
#[export] Hint Resolve u32_range : libchan.

(** ** Masks of powers of two *)

Lemma land_mask x k : 0 <= k -> Z.land x (2 ^ k - 1) = x mod 2 ^ k.
Proof. intros. rewrite <- Z.land_ones by done. by rewrite Z.ones_equiv, <- Z.sub_1_r. Qed.

Lemma u32_mod_pow2 x k : 0 <= k <= 32 -> u32 x mod 2 ^ k = x mod 2 ^ k.
Proof.
  intros. unfold u32. replace two32 with (2 ^ (32 - k) * 2 ^ k).
  - rewrite Z.mul_comm. rewrite Z.rem_mul_r by pow2_side.
    rewrite Z.mul_comm, Z.mod_add by (apply Z.pow_nonzero; lia). apply Z.mod_mod.
    apply Z.pow_nonzero; lia.
  - rewrite <- Z.pow_add_r by lia. by replace (32 - k + k) with 32 by lia.
Qed.

Lemma mod_inj_window m x y : 0 < m -> - m < x - y < m -> x mod m = y mod m -> x = y.
Proof.
  intros Hm Hr He.
  assert ((x - y) mod m = 0) as H0.
  { rewrite Zminus_mod, He, Z.sub_diag. apply Z.mod_0_l. lia. }
  apply Z.mod_divide in H0 as [q Hq]; [|lia].
  assert (q = 0) by nia. lia.
Qed.

(** ** Lists *)

Definition zlen {A} (l : list A) : Z := Z.of_nat (length l).

Lemma zlen_app {A} (l k : list A) : zlen (l ++ k) = zlen l + zlen k.
Proof. unfold zlen. rewrite length_app. lia. Qed.

Lemma zlen_nonneg {A} (l : list A) : 0 <= zlen l.
Proof. unfold zlen. lia. Qed.

Lemma zlen_cons {A} (x : A) l : zlen (x :: l) = 1 + zlen l.
Proof. unfold zlen. simpl. lia. Qed.

Lemma NoDup_snoc (l : list Z) x : NoDup l -> x ∉ l -> NoDup (l ++ [x]).
Proof.
  intros. apply list.NoDup_app. split; [done|]. split; [set_solver|]. apply NoDup_singleton.
Qed.

Lemma filter_notin (l : list Z) x : x ∉ l -> filter (.≠ x) l = l.
Proof.
  induction l as [|y l IH]; intros Hx; [done|]. apply not_elem_of_cons in Hx as [Hy Hx].
  rewrite filter_cons_True by done. by rewrite IH.
Qed.

Lemma filter_middle (l1 l2 : list Z) x :
  x ∉ l1 -> x ∉ l2 -> filter (.≠ x) (l1 ++ x :: l2) = l1 ++ l2.
Proof.
  intros H1 H2. rewrite list.filter_app, filter_cons_False by tauto. by rewrite !filter_notin.
Qed.

Lemma NoDup_middle (l1 l2 : list Z) x :
  NoDup (l1 ++ x :: l2) -> NoDup (l1 ++ l2) /\ x ∉ l1 /\ x ∉ l2.
Proof.
  intros (H1 & H2 & [H3 H4]%list.NoDup_cons)%list.NoDup_app. split; [|split; [|done]].
  - apply list.NoDup_app. split; [done|]. split; [|done]. set_solver.
  - intros Hin. apply (H2 x Hin). left.
Qed.

Lemma zlen_pos {A} (l : list A) : l <> [] -> 0 < zlen l.
Proof. destruct l; [done|]. intros _. rewrite zlen_cons. pose proof (zlen_nonneg l). lia. Qed.

#[export] Hint Rewrite @zlen_app @zlen_cons @length_app @length_take @length_drop : libchan_rw.
#[export] Hint Resolve zlen_nonneg : libchan.

(** ** Reflexive transitive closure of an executable step *)

Section star.
Context {S L : Type} (step : L -> S -> option S).

(** [run ls s] applies the labelled steps of [ls] in order; [None] when one
    of them is not enabled. *)
Fixpoint run (ls : list L) (s : S) : option S :=
  match ls with
  | [] => Some s
  | l :: ls => match step l s with Some s' => run ls s' | None => None end
  end.

(** [P] holds in every state along the execution of [ls]. *)
Fixpoint holds_along (P : S -> bool) (ls : list L) (s : S) : bool :=
  P s && match ls with
         | [] => true
         | l :: ls => match step l s with Some s' => holds_along P ls s' | None => true end
         end.

Lemma run_app ls1 ls2 s s' :
  run ls1 s = Some s' -> run (ls1 ++ ls2) s = run ls2 s'.
Proof.
  revert s. induction ls1 as [|l ls1 IH]; simpl; intros s Hr; [by simplify_eq|].
  destruct (step l s); [by apply IH | done].
Qed.

(** The invariance rule: what holds initially and is kept by every enabled
    step holds after every execution. *)
Lemma run_invariant (P : S -> Prop) ls s s' :
  (forall l a b, P a -> step l a = Some b -> P b) ->
  P s -> run ls s = Some s' -> P s'.
Proof.
  intros Hstep. revert s. induction ls as [|l ls IH]; simpl; intros s HP Hr.
  - by simplify_eq.
  - destruct (step l s) eqn:E; [|done]. eauto.
Qed.
End star.

(** ** Object memory

    An object is its list of bytes. [memcpy dst doff src soff n] is the object
    [dst] after [memcpy(dst + doff, src + soff, n)]; an access outside either
    object is undefined. *)

Definition memcpy (dst : list byte) (doff : Z) (src : list byte) (soff n : Z) : res (list byte) :=
  if (0 <=? doff) && (0 <=? soff) && (0 <=? n)
     && (doff + n <=? zlen dst) && (soff + n <=? zlen src)
  then Ret (take (Z.to_nat doff) dst ++ take (Z.to_nat n) (drop (Z.to_nat soff) src)
              ++ drop (Z.to_nat (doff + n)) dst)
  else Undef.

(** The [i]-th element of an array of [es]-byte elements. *)
Definition chunk (es i : Z) (l : list byte) : list byte :=
  take (Z.to_nat es) (drop (Z.to_nat (i * es)) l).

Lemma memcpy_ok dst doff src soff n :
  0 <= doff -> 0 <= soff -> 0 <= n -> doff + n <= zlen dst -> soff + n <= zlen src ->
  memcpy dst doff src soff n =
    Ret (take (Z.to_nat doff) dst ++ take (Z.to_nat n) (drop (Z.to_nat soff) src)
           ++ drop (Z.to_nat (doff + n)) dst).
Proof.
  intros. unfold memcpy. repeat (case_test; [|lia]). done.
Qed.

Lemma memcpy_Ret dst doff src soff n l :
  memcpy dst doff src soff n = Ret l ->
  0 <= doff /\ 0 <= soff /\ 0 <= n /\ doff + n <= zlen dst /\ soff + n <= zlen src.
Proof. unfold memcpy. repeat (case_test; simpl); try done. all: lia. Qed.

Lemma memcpy_length dst doff src soff n l :
  memcpy dst doff src soff n = Ret l -> zlen l = zlen dst.
Proof.
  intros H. pose proof (memcpy_Ret _ _ _ _ _ _ H) as (?&?&?&?&?).
  rewrite memcpy_ok in H by done. injection H as <-.
  unfold zlen in *. autorewrite with libchan_rw. lia.
Qed.

Lemma chunk_length es i l :
  0 <= es -> 0 <= i -> (i + 1) * es <= zlen l -> zlen (chunk es i l) = es.
Proof.
  intros. unfold chunk, zlen in *. autorewrite with libchan_rw.
  assert (Z.to_nat (i * es) + Z.to_nat es <= length l)%nat by nia. lia.
Qed.

(** Reading one byte range of a copied object. *)
Lemma memcpy_lookup dst doff src soff n l (i : nat) :
  memcpy dst doff src soff n = Ret l ->
  l !! i = if (doff <=? Z.of_nat i) && (Z.of_nat i <? doff + n)
           then src !! Z.to_nat (soff + (Z.of_nat i - doff)) else dst !! i.
Proof.
  intros H. pose proof (memcpy_Ret _ _ _ _ _ _ H) as (?&?&?&?&?).
  rewrite memcpy_ok in H by done. injection H as <-. unfold zlen in *.
  destruct (Z.leb_spec doff (Z.of_nat i)); simpl.
  - rewrite lookup_app_r by (rewrite length_take; lia).
    rewrite length_take, Nat.min_l by lia.
    destruct (Z.ltb_spec (Z.of_nat i) (doff + n)).
    + rewrite lookup_app_l by (rewrite length_take, length_drop; lia).
      rewrite lookup_take by lia. rewrite decide_True by lia. rewrite lookup_drop. f_equal. lia.
    + rewrite lookup_app_r by (rewrite length_take, length_drop; lia).
      rewrite length_take, length_drop, Nat.min_l by lia.
      rewrite lookup_drop. f_equal. lia.
  - rewrite lookup_app_l by (rewrite length_take; lia).
    rewrite lookup_take. by rewrite decide_True by lia.
Qed.

Lemma chunk_lookup es i l (j : nat) :
  0 <= i -> 0 <= es ->
  chunk es i l !! j = if Z.of_nat j <? es then l !! Z.to_nat (i * es + Z.of_nat j) else None.
Proof.
  intros. unfold chunk. rewrite lookup_take, lookup_drop.
  destruct (Z.ltb_spec (Z.of_nat j) es).
  - rewrite decide_True by lia. f_equal. nia.
  - by rewrite decide_False by lia.
Qed.

(** The effect of copying a run of [k] whole elements: exactly the elements
    [idx .. idx+k-1] change, and they become the source's [si .. si+k-1]. *)
Lemma memcpy_chunk es dst idx src si k l j :
  memcpy dst (idx * es) src (si * es) (k * es) = Ret l ->
  0 < es -> 0 <= idx -> 0 <= si -> 0 <= k -> 0 <= j ->
  chunk es j l = if (idx <=? j) && (j <? idx + k) then chunk es (si + (j - idx)) src
                 else chunk es j dst.
Proof.
  intros H Hes Hidx Hsi Hk Hj. apply list_eq. intros b.
  rewrite chunk_lookup by lia.
  destruct (Z.leb_spec idx j); destruct (Z.ltb_spec j (idx + k)); simpl;
    rewrite chunk_lookup by lia; destruct (Z.ltb_spec (Z.of_nat b) es); try done;
    rewrite (memcpy_lookup _ _ _ _ _ _ _ H), Z2Nat.id by nia;
    repeat case_test; simpl; try nia; try done.
  f_equal. nia.
Qed.
