(* ===== verification/RingLf.v ===== *)
(** * The lock-free ring buffer of [src/ring_lf.h], [src/ring_lf.c]

    The data of [chan_ring_lf_t] and its operations as one thread runs them
    with nobody interfering: the weak compare-and-swap of Phase 1 succeeds, and
    a Phase-3 wait that does not hold at once can never hold ([Hang]).  The
    interleaved executions of the same operations are in [RingConc]; the
    cursor-cached single-producer single-consumer variants of
    [src/libchan_internal.h] are in [RingSpsc].

    [ring_repr r q] relates a ring at rest to the FIFO queue [q] it holds; the
    theorems show that every operation implements the queue operation it stands
    for, for any position of the wrapping 32-bit cursors. *)

From S2P Require Import Prelude.

(** ** Data *)

Record chan_ring_lf_t := mk_ring {
  prod_head : Z;              (* _Atomic uint32_t prod.head *)
  prod_tail : Z;              (* _Atomic uint32_t prod.tail *)
  prod_cached_cons_tail : Z;  (* uint32_t prod.cached_cons_tail *)
  cons_head : Z;              (* _Atomic uint32_t cons.head *)
  cons_tail : Z;              (* _Atomic uint32_t cons.tail *)
  cons_cached_prod_tail : Z;  (* uint32_t cons.cached_prod_tail *)
  mask : Z;                   (* uint32_t *)
  capacity : Z;               (* uint32_t *)
  elem_size : Z;              (* size_t *)
  slots : option (list byte)  (* char *, None is NULL *)
}.

Definition set_prod_head v r := mk_ring v (prod_tail r) (prod_cached_cons_tail r)
  (cons_head r) (cons_tail r) (cons_cached_prod_tail r) (mask r) (capacity r) (elem_size r) (slots r).
Definition set_prod_tail v r := mk_ring (prod_head r) v (prod_cached_cons_tail r)
  (cons_head r) (cons_tail r) (cons_cached_prod_tail r) (mask r) (capacity r) (elem_size r) (slots r).
Definition set_cached_cons_tail v r := mk_ring (prod_head r) (prod_tail r) v
  (cons_head r) (cons_tail r) (cons_cached_prod_tail r) (mask r) (capacity r) (elem_size r) (slots r).
Definition set_cons_head v r := mk_ring (prod_head r) (prod_tail r) (prod_cached_cons_tail r)
  v (cons_tail r) (cons_cached_prod_tail r) (mask r) (capacity r) (elem_size r) (slots r).
Definition set_cons_tail v r := mk_ring (prod_head r) (prod_tail r) (prod_cached_cons_tail r)
  (cons_head r) v (cons_cached_prod_tail r) (mask r) (capacity r) (elem_size r) (slots r).
Definition set_cached_prod_tail v r := mk_ring (prod_head r) (prod_tail r) (prod_cached_cons_tail r)
  (cons_head r) (cons_tail r) v (mask r) (capacity r) (elem_size r) (slots r).
Definition set_slots v r := mk_ring (prod_head r) (prod_tail r) (prod_cached_cons_tail r)
  (cons_head r) (cons_tail r) (cons_cached_prod_tail r) (mask r) (capacity r) (elem_size r) v.

(** ** Initialisation *)

Definition next_pow2 (n : Z) : Z :=
  if n =? 0 then 1
  else
    let n := u32 (n - 1) in
    let n := Z.lor n (Z.shiftr n 1) in
    let n := Z.lor n (Z.shiftr n 2) in
    let n := Z.lor n (Z.shiftr n 4) in
    let n := Z.lor n (Z.shiftr n 8) in
    let n := Z.lor n (Z.shiftr n 16) in
    u32 (n + 1).

(** The answer of one call of [malloc] and what the C library promises of it: a
    block of the size asked for, with arbitrary contents; [None] is NULL.  A program
    that calls [malloc] several times takes an answer for each call. *)
Class Malloc := {
  malloc : Z -> option (list byte);
  malloc_size : forall n b, malloc n = Some b -> zlen b = n
}.

Definition ring_lf_init `{Malloc} (r : chan_ring_lf_t) (cap es : Z) : bool * chan_ring_lf_t :=
  if (cap =? 0) || (es =? 0) then (false, r)
  else
    let actual := next_pow2 (u32 cap) in
    match malloc (u64 (actual * es)) with
    | None => (false, set_slots None r)
    | Some b => (true, mk_ring 0 0 0 0 0 0 (u32 (actual - 1)) actual es (Some b))
    end.

Definition ring_lf_destroy (r : chan_ring_lf_t) : chan_ring_lf_t := set_slots None r.

(** ** Phase 2: the slot copies *)

(** [memcpy(r->slots + (ph & r->mask) * r->elem_size, data, r->elem_size)] *)
Definition write_slot (r : chan_ring_lf_t) (ph : Z) (data : list byte) : res chan_ring_lf_t :=
  let! s := deref (slots r) in
  let! s' := memcpy s (u64 (Z.land ph (mask r) * elem_size r)) data 0 (elem_size r) in
  Ret (set_slots (Some s') r).

(** [memcpy(out, r->slots + (ch & r->mask) * r->elem_size, r->elem_size)] *)
Definition read_slot (r : chan_ring_lf_t) (ch : Z) (out : list byte) : res (list byte) :=
  let! s := deref (slots r) in
  memcpy out 0 s (u64 (Z.land ch (mask r) * elem_size r)) (elem_size r).

(** The reserved run of a burst enqueue, split at the power-of-two boundary. *)
Definition write_run (r : chan_ring_lf_t) (ph k : Z) (data : list byte) : res chan_ring_lf_t :=
  let idx := Z.land ph (mask r) in
  let first := u32 (capacity r - idx) in
  let! s := deref (slots r) in
  if first >=? k then
    let! s' := memcpy s (u64 (idx * elem_size r)) data 0 (u64 (k * elem_size r)) in
    Ret (set_slots (Some s') r)
  else
    let! s1 := memcpy s (u64 (idx * elem_size r)) data 0 (u64 (first * elem_size r)) in
    let! s2 := memcpy s1 0 data (u64 (first * elem_size r)) (u64 (u32 (k - first) * elem_size r)) in
    Ret (set_slots (Some s2) r).

Definition read_run (r : chan_ring_lf_t) (ch k : Z) (out : list byte) : res (list byte) :=
  let idx := Z.land ch (mask r) in
  let first := u32 (capacity r - idx) in
  let! s := deref (slots r) in
  if first >=? k then
    memcpy out 0 s (u64 (idx * elem_size r)) (u64 (k * elem_size r))
  else
    let! o1 := memcpy out 0 s (u64 (idx * elem_size r)) (u64 (first * elem_size r)) in
    memcpy o1 (u64 (first * elem_size r)) s 0 (u64 (u32 (k - first) * elem_size r)).

(** ** The operations *)

Definition ring_lf_push (r : chan_ring_lf_t) (data : list byte) : res (bool * chan_ring_lf_t) :=
  let ph := prod_head r in
  let ct := cons_tail r in
  if u32 (ph - ct) >=? capacity r then Ret (false, r)
  else
    let pnext := u32 (ph + 1) in
    let r := set_prod_head pnext r in
    let! r := write_slot r ph data in
    if prod_tail r =? ph then Ret (true, set_prod_tail pnext r) else Hang.

Definition ring_lf_pop (r : chan_ring_lf_t) (out : list byte)
  : res (bool * list byte * chan_ring_lf_t) :=
  let ch := cons_head r in
  let pt := prod_tail r in
  if pt =? ch then Ret (false, out, r)
  else
    let cnext := u32 (ch + 1) in
    let r := set_cons_head cnext r in
    let! out := read_slot r ch out in
    if cons_tail r =? ch then Ret (true, out, set_cons_tail cnext r) else Hang.

Definition ring_lf_enqueue_burst (r : chan_ring_lf_t) (data : list byte) (n : Z)
  : res (Z * chan_ring_lf_t) :=
  if n =? 0 then Ret (0, r)
  else
    let ph := prod_head r in
    let ct := cons_tail r in
    let free_entries := u32 (capacity r - u32 (ph - ct)) in
    if free_entries =? 0 then Ret (0, r)
    else
      let k := if n <? free_entries then n else free_entries in
      let pnext := u32 (ph + k) in
      let r := set_prod_head pnext r in
      let! r := write_run r ph k data in
      if prod_tail r =? ph then Ret (k, set_prod_tail pnext r) else Hang.

Definition ring_lf_dequeue_burst (r : chan_ring_lf_t) (out : list byte) (n : Z)
  : res (Z * list byte * chan_ring_lf_t) :=
  if n =? 0 then Ret (0, out, r)
  else
    let ch := cons_head r in
    let pt := prod_tail r in
    let avail := u32 (pt - ch) in
    if avail =? 0 then Ret (0, out, r)
    else
      let k := if n <? avail then n else avail in
      let cnext := u32 (ch + k) in
      let r := set_cons_head cnext r in
      let! out := read_run r ch k out in
      if cons_tail r =? ch then Ret (k, out, set_cons_tail cnext r) else Hang.

Definition ring_lf_count (r : chan_ring_lf_t) : Z := u32 (prod_tail r - cons_head r).

(** The unlocked probes of [src/libchan_internal.h]. *)
Definition ring_full (r : chan_ring_lf_t) : bool :=
  u32 (prod_head r - cons_tail r) >=? capacity r.

Definition ring_empty (r : chan_ring_lf_t) : bool := prod_tail r =? cons_head r.

(** ** Well-formed geometry *)

(** What [ring_lf_init] establishes of the fields no operation changes: the
    capacity is a power of two that the 32-bit cursors can tell apart, the mask
    goes with it, and the block of slots has the size the indices assume. *)
Record ring_geom (r : chan_ring_lf_t) (s : list byte) : Prop := {
  geom_pow2 : exists k, 0 <= k <= 31 /\ capacity r = 2 ^ k;
  geom_mask : mask r = capacity r - 1;
  geom_es : 0 < elem_size r;
  geom_slots : slots r = Some s;
  geom_len : zlen s = capacity r * elem_size r;
  geom_fits : capacity r * elem_size r < two64
}.

(** The element stored for the absolute position [p]. *)
Definition slot_at (r : chan_ring_lf_t) (s : list byte) (p : Z) : list byte :=
  chunk (elem_size r) (p mod capacity r) s.

(** The ring at rest holds the queue [q]: with [c] the absolute position of the
    oldest element, the cursors are [c] and [c + |q|] modulo 2^32, nothing is
    reserved and not yet committed, and the slots hold [q] in order. *)
Record ring_view (r : chan_ring_lf_t) (s : list byte) (c : Z) (q : list (list byte)) : Prop := {
  view_geom : ring_geom r s;
  view_ch : cons_head r = u32 c;
  view_ct : cons_tail r = u32 c;
  view_ph : prod_head r = u32 (c + zlen q);
  view_pt : prod_tail r = u32 (c + zlen q);
  view_bound : zlen q <= capacity r;
  view_elems : forall (i : nat) e, q !! i = Some e -> slot_at r s (c + Z.of_nat i) = e
}.

Definition ring_repr (r : chan_ring_lf_t) (q : list (list byte)) : Prop :=
  exists s c, ring_view r s c q.

(** The queue read off a ring, for the concrete states of the examples. *)
Definition ring_contents (r : chan_ring_lf_t) : list (list byte) :=
  match slots r with
  | None => []
  | Some s => (fun i : nat => slot_at r s (cons_head r + Z.of_nat i))
                <$> seq 0 (Z.to_nat (ring_lf_count r))
  end.

(** ** Lemmas on the geometry *)

Lemma geom_cap_range r s : ring_geom r s -> 0 < capacity r <= 2147483648.
Proof.
  intros [(k & Hk & ->) _ _ _ _ _].
  split; [pow2_side|]. change 2147483648 with (2 ^ 31). apply Z.pow_le_mono_r; lia.
Qed.

Lemma geom_index r s p : ring_geom r s -> Z.land (u32 p) (mask r) = p mod capacity r.
Proof.
  intros [(k & Hk & Hc) Hm _ _ _ _]. rewrite Hm, Hc, land_mask by lia.
  apply u32_mod_pow2. lia.
Qed.

(** A byte offset of a slot or of a run of slots never wraps. *)
Lemma geom_offset r s i :
  ring_geom r s -> 0 <= i <= capacity r -> u64 (i * elem_size r) = i * elem_size r.
Proof. intros G Hi. destruct G. apply u64_small. nia. Qed.

(** Residues of the positions of a window that starts at [p]. *)
Lemma window_mod c p i :
  0 < c -> 0 <= i < c ->
  (p + i) mod c = if p mod c + i <? c then p mod c + i else p mod c + i - c.
Proof.
  intros Hc Hi. pose proof (Z.mod_pos_bound p c Hc) as Hb.
  rewrite Zplus_mod, (Z.mod_small i) by lia.
  destruct (Z.ltb_spec (p mod c + i) c).
  - apply Z.mod_small. lia.
  - symmetry. apply Z.mod_unique_pos with (q := 1); lia.
Qed.

Lemma mod_sub_window c p i : 0 < c -> (p + i - c) mod c = (p + i) mod c.
Proof. intros. rewrite <- (Z.mod_add (p + i - c) 1 c) by lia. f_equal. lia. Qed.

(** Two copies that wrap at the end of the array move the same elements as a
    copy of the window. *)
Lemma slot_at_slots r s s' p : slot_at (set_slots (Some s') r) s p = slot_at r s p.
Proof. done. Qed.

Lemma geom_set_slots r s s' :
  ring_geom r s -> zlen s' = zlen s -> ring_geom (set_slots (Some s') r) s'.
Proof. intros [? ? ? ? ? ?] He. constructor; simpl; try done. lia. Qed.

Section copies.
Context (r : chan_ring_lf_t) (s : list byte) (G : ring_geom r s).

(** Phase 2 of an enqueue of [k] elements reserved at position [p]. *)
Definition written (p k : Z) (data s' : list byte) : Prop :=
  zlen s' = zlen s /\
  (forall i, 0 <= i < k -> slot_at r s' (p + i) = chunk (elem_size r) i data) /\
  (forall j, p + k - capacity r <= j < p + capacity r -> ~ p <= j < p + k ->
     slot_at r s' j = slot_at r s j).

Lemma written_residues p k data s' :
  zlen s' = zlen s -> 0 <= k ->
  (forall i, 0 <= i < capacity r ->
     chunk (elem_size r) ((p + i) mod capacity r) s' =
     if i <? k then chunk (elem_size r) i data
     else chunk (elem_size r) ((p + i) mod capacity r) s) ->
  k <= capacity r -> written p k data s'.
Proof using G.
  intros Hl Hk H Hkc. pose proof (geom_cap_range r s G). split; [done|]. split.
  - intros i Hi. unfold slot_at. rewrite H by lia. case_test; [done|lia].
  - intros j Hj Hn. unfold slot_at. destruct (Z.le_gt_cases p j).
    + replace j with (p + (j - p)) by lia. rewrite H by lia. case_test; [lia|done].
    + replace j with (p + (j + capacity r - p) - capacity r) by lia.
      rewrite mod_sub_window by lia. rewrite H by lia. case_test; [lia|done].
Qed.

Lemma write_slot_ok p data :
  elem_size r <= zlen data ->
  exists s', write_slot r (u32 p) data = Ret (set_slots (Some s') r) /\ written p 1 data s'.
Proof using G.
  intros Hd. pose proof (geom_cap_range r s G) as Hc. pose proof (geom_es r s G).
  pose proof (Z.mod_pos_bound p (capacity r) ltac:(lia)) as Hb.
  unfold write_slot. rewrite (geom_slots r s G); simpl.
  rewrite (geom_index r s p G), (geom_offset r s _ G) by lia.
  pose proof (geom_len r s G). rewrite memcpy_ok by nia. simpl.
  eexists. split; [done|].
  match goal with |- written _ _ _ ?l => set (s' := l) end.
  assert (memcpy s (p mod capacity r * elem_size r) data (0 * elem_size r) (1 * elem_size r) = Ret s') as E.
  { rewrite Z.mul_0_l, Z.mul_1_l. rewrite memcpy_ok by nia. done. }
  pose proof (memcpy_length _ _ _ _ _ _ E).
  apply written_residues; [done|lia| |lia].
  intros i Hi. rewrite window_mod by lia.
  case_test; rewrite (memcpy_chunk _ _ _ _ _ _ _ _ E) by lia;
    repeat (case_test; simpl); try lia; f_equal; lia.
Qed.

Lemma write_run_ok p k data :
  1 <= k <= capacity r -> k * elem_size r <= zlen data ->
  exists s', write_run r (u32 p) k data = Ret (set_slots (Some s') r) /\ written p k data s'.
Proof using G.
  intros Hk Hd. pose proof (geom_cap_range r s G) as Hc. pose proof (geom_es r s G).
  pose proof (Z.mod_pos_bound p (capacity r) ltac:(lia)) as Hb.
  pose proof (geom_len r s G) as Hl.
  unfold write_run. rewrite (geom_slots r s G), (geom_index r s p G). simpl.
  rewrite (u32_small (capacity r - _)) by (unfold two32; lia).
  set (idx := p mod capacity r) in *.
  rewrite (geom_offset r s idx G), (geom_offset r s k G), (geom_offset r s (capacity r - idx) G) by lia.
  case_test.
  - destruct (memcpy s (idx * elem_size r) data 0 (k * elem_size r)) as [s'| |] eqn:E;
      try (rewrite memcpy_ok in E by nia; discriminate).
    exists s'. split; [done|]. pose proof (memcpy_length _ _ _ _ _ _ E).
    apply written_residues; [done|lia| |lia].
    change 0 with (0 * elem_size r) in E at 1. intros i Hi. rewrite window_mod by lia. fold idx.
    case_test; rewrite (memcpy_chunk _ _ _ _ _ _ _ _ E) by lia;
      repeat (case_test; simpl); try lia; f_equal; lia.
  - rewrite (u32_small (k - _)) by (unfold two32; lia).
    rewrite (geom_offset r s _ G) by lia.
    destruct (memcpy s (idx * elem_size r) data 0 ((capacity r - idx) * elem_size r)) as [s1| |] eqn:E1;
      try (rewrite memcpy_ok in E1 by nia; discriminate). simpl.
    pose proof (memcpy_length _ _ _ _ _ _ E1).
    destruct (memcpy s1 0 data ((capacity r - idx) * elem_size r) ((k - (capacity r - idx)) * elem_size r))
      as [s2| |] eqn:E2; try (rewrite memcpy_ok in E2 by nia; discriminate).
    exists s2. split; [done|]. pose proof (memcpy_length _ _ _ _ _ _ E2).
    apply written_residues; [lia|lia| |lia].
    change 0 with (0 * elem_size r) in E1 at 1. change 0 with (0 * elem_size r) in E2 at 1.
    intros i Hi. rewrite window_mod by lia. fold idx.
    case_test; rewrite (memcpy_chunk _ _ _ _ _ _ _ _ E2) by lia;
      repeat (case_test; simpl); try lia;
      rewrite ?(memcpy_chunk _ _ _ _ _ _ _ _ E1) by lia;
      repeat (case_test; simpl); try lia; f_equal; lia.
Qed.

(** Phase 2 of a dequeue of [k] elements reserved at position [p]: the first
    [k] elements of the output buffer, and only they, are the slots'. *)
Definition copied_out (p k : Z) (out out' : list byte) : Prop :=
  zlen out' = zlen out /\
  (forall i, 0 <= i < k -> chunk (elem_size r) i out' = slot_at r s (p + i)) /\
  drop (Z.to_nat (k * elem_size r)) out' = drop (Z.to_nat (k * elem_size r)) out.

Lemma memcpy_rest dst doff src soff n l m :
  memcpy dst doff src soff n = Ret l -> doff + n <= m ->
  drop (Z.to_nat m) l = drop (Z.to_nat m) dst.
Proof using.
  intros E Hm. pose proof (memcpy_Ret _ _ _ _ _ _ E) as (?&?&?&?&?).
  apply list_eq. intros i. rewrite !lookup_drop, (memcpy_lookup _ _ _ _ _ _ _ E).
  repeat (case_test; simpl); try done; lia.
Qed.

Lemma read_slot_ok p out :
  elem_size r <= zlen out ->
  exists out', read_slot r (u32 p) out = Ret out' /\ copied_out p 1 out out'.
Proof using G.
  intros Ho. pose proof (geom_cap_range r s G) as Hc. pose proof (geom_es r s G).
  pose proof (Z.mod_pos_bound p (capacity r) ltac:(lia)) as Hb. pose proof (geom_len r s G).
  unfold read_slot. rewrite (geom_slots r s G); simpl.
  rewrite (geom_index r s p G), (geom_offset r s _ G) by lia.
  destruct (memcpy out 0 s (p mod capacity r * elem_size r) (elem_size r)) as [o| |] eqn:E;
    try (rewrite memcpy_ok in E by nia; discriminate).
  exists o. split; [done|]. split; [by eapply memcpy_length|]. split.
  - rewrite <- (Z.mul_1_l (elem_size r)) in E at 2. change 0 with (0 * elem_size r) in E.
    intros i Hi. rewrite (memcpy_chunk _ _ _ _ _ _ _ _ E) by lia. unfold slot_at.
    replace i with 0 by lia. repeat (case_test; simpl); try lia. f_equal. rewrite (Z.add_0_r p). lia.
  - eapply memcpy_rest; [done|lia].
Qed.

Lemma read_run_ok p k out :
  1 <= k <= capacity r -> k * elem_size r <= zlen out ->
  exists out', read_run r (u32 p) k out = Ret out' /\ copied_out p k out out'.
Proof using G.
  intros Hk Ho. pose proof (geom_cap_range r s G) as Hc. pose proof (geom_es r s G).
  pose proof (Z.mod_pos_bound p (capacity r) ltac:(lia)) as Hb.
  pose proof (geom_len r s G) as Hl.
  unfold read_run. rewrite (geom_slots r s G), (geom_index r s p G). simpl.
  rewrite (u32_small (capacity r - _)) by (unfold two32; lia).
  set (idx := p mod capacity r) in *.
  rewrite (geom_offset r s idx G), (geom_offset r s k G), (geom_offset r s (capacity r - idx) G) by lia.
  case_test.
  - destruct (memcpy out 0 s (idx * elem_size r) (k * elem_size r)) as [o| |] eqn:E;
      try (rewrite memcpy_ok in E by nia; discriminate).
    exists o. split; [done|]. split; [by eapply memcpy_length|].
    split; [|eapply memcpy_rest; [done|lia]].
    change 0 with (0 * elem_size r) in E. intros i Hi.
    rewrite (memcpy_chunk _ _ _ _ _ _ _ _ E) by lia. unfold slot_at.
    rewrite window_mod by lia. fold idx. repeat (case_test; simpl); try lia. f_equal. lia.
  - rewrite (u32_small (k - _)) by (unfold two32; lia).
    rewrite (geom_offset r s _ G) by lia.
    destruct (memcpy out 0 s (idx * elem_size r) ((capacity r - idx) * elem_size r)) as [o1| |] eqn:E1;
      try (rewrite memcpy_ok in E1 by nia; discriminate). simpl.
    pose proof (memcpy_length _ _ _ _ _ _ E1).
    destruct (memcpy o1 ((capacity r - idx) * elem_size r) s 0 ((k - (capacity r - idx)) * elem_size r))
      as [o2| |] eqn:E2; try (rewrite memcpy_ok in E2 by nia; discriminate).
    exists o2. split; [done|]. pose proof (memcpy_length _ _ _ _ _ _ E2).
    split; [lia|]. split.
    + change 0 with (0 * elem_size r) in E1. change 0 with (0 * elem_size r) in E2.
      intros i Hi. rewrite (memcpy_chunk _ _ _ _ _ _ _ _ E2) by lia. unfold slot_at.
      rewrite window_mod by lia. fold idx.
      repeat (case_test; simpl); try lia;
        rewrite ?(memcpy_chunk _ _ _ _ _ _ _ _ E1) by lia;
        repeat (case_test; simpl); try lia; f_equal; lia.
    + rewrite (memcpy_rest _ _ _ _ _ _ _ E2) by lia. eapply memcpy_rest; [done|nia].
Qed.
End copies.

(** ** The operations implement a bounded FIFO queue *)

(** The fields that no operation on the ring changes. *)
Definition same_shape (r r' : chan_ring_lf_t) : Prop :=
  capacity r' = capacity r /\ elem_size r' = elem_size r /\
  prod_cached_cons_tail r' = prod_cached_cons_tail r /\
  cons_cached_prod_tail r' = cons_cached_prod_tail r.

Definition set_prod v r := set_prod_tail v (set_prod_head v r).
Definition set_cons v r := set_cons_tail v (set_cons_head v r).

(** The elements of an array of [k] elements. *)
Definition elems (es : Z) (k : nat) (data : list byte) : list (list byte) :=
  (fun i : nat => chunk es (Z.of_nat i) data) <$> seq 0 k.

Lemma elems_length es k data : length (elems es k data) = k.
Proof. unfold elems. by rewrite length_fmap, length_seq. Qed.

Lemma elems_lookup es k data (i : nat) :
  (i < k)%nat -> elems es k data !! i = Some (chunk es (Z.of_nat i) data).
Proof.
  intros. unfold elems. rewrite list_lookup_fmap, lookup_seq_lt by done. done.
Qed.

Section view.
Context (r : chan_ring_lf_t) (s : list byte) (c : Z) (q : list (list byte)).
Context (V : ring_view r s c q).

Lemma view_used : u32 (prod_head r - cons_tail r) = zlen q.
Proof using V.
  pose proof (geom_cap_range _ _ (view_geom _ _ _ _ V)). pose proof (view_bound _ _ _ _ V).
  rewrite (view_ph _ _ _ _ V), (view_ct _ _ _ _ V), u32_sub, u32_small; unfold two32, zlen in *; lia.
Qed.

Lemma view_avail : u32 (prod_tail r - cons_head r) = zlen q.
Proof using V.
  pose proof (geom_cap_range _ _ (view_geom _ _ _ _ V)). pose proof (view_bound _ _ _ _ V).
  rewrite (view_pt _ _ _ _ V), (view_ch _ _ _ _ V), u32_sub, u32_small; unfold two32, zlen in *; lia.
Qed.

(** Publishing [k] elements that Phase 2 has written. *)
Lemma view_enqueue k data s' :
  0 <= k -> zlen q + k <= capacity r -> written r s (c + zlen q) k data s' ->
  ring_view (set_prod (u32 (c + zlen q + k)) (set_slots (Some s') r)) s' c
            (q ++ elems (elem_size r) (Z.to_nat k) data).
Proof using V.
  intros Hk Hb (Hl & Hnew & Hold). destruct V as [G ? ? ? ? ? He].
  assert (zlen (q ++ elems (elem_size r) (Z.to_nat k) data) = zlen q + k) as Hz.
  { unfold zlen. rewrite length_app, elems_length. lia. }
  constructor; simpl; rewrite ?Hz; try done.
  - by apply (geom_set_slots _ _ _ G) in Hl as [].
  - f_equal. lia.
  - f_equal. lia.
  - intros i e Hi. unfold zlen in *. change (slot_at r s' (c + Z.of_nat i) = e).
    apply lookup_app_Some in Hi as [Hi|[Hge Hi]].
    + pose proof (lookup_lt_Some _ _ _ Hi). rewrite Hold by lia. by apply He.
    + pose proof (lookup_lt_Some _ _ _ Hi) as Hlt. rewrite elems_length in Hlt.
      rewrite elems_lookup in Hi by done. injection Hi as <-.
      replace (c + Z.of_nat i) with (c + Z.of_nat (length q) + (Z.of_nat i - Z.of_nat (length q))) by lia.
      rewrite Hnew by lia. f_equal. lia.
Qed.

(** Releasing the [k] oldest slots. *)
Lemma view_dequeue k :
  0 <= k <= zlen q ->
  ring_view (set_cons (u32 (c + k)) r) s (c + k) (drop (Z.to_nat k) q).
Proof using V.
  intros Hk. destruct V as [[] ? ? ? ? ? He].
  assert (zlen (drop (Z.to_nat k) q) = zlen q - k) as Hz.
  { unfold zlen in *. rewrite length_drop. lia. }
  constructor; simpl; rewrite ?Hz; try done; try lia.
  - rewrite view_ph0. f_equal. lia.
  - rewrite view_pt0. f_equal. lia.
  - intros i e Hi. rewrite lookup_drop in Hi. rewrite <- (He _ _ Hi).
    change (slot_at r s (c + k + Z.of_nat i) = slot_at r s (c + Z.of_nat (Z.to_nat k + i))).
    f_equal. lia.
Qed.
End view.

Lemma chunk_0 es l : chunk es 0 l = take (Z.to_nat es) l.
Proof. done. Qed.

Lemma elems_1 es l : elems es 1 l = [take (Z.to_nat es) l].
Proof. done. Qed.

(** The operations on a viewed ring, with the position of the oldest element
    tracked. *)
Section view_ops.
Context (r : chan_ring_lf_t) (s : list byte) (c : Z) (q : list (list byte)).
Context (V : ring_view r s c q).
Let G := view_geom r s c q V.

Lemma push_view data :
  elem_size r <= zlen data ->
  if zlen q <? capacity r then
    exists r' s', ring_lf_push r data = Ret (true, r') /\ same_shape r r' /\
      ring_view r' s' c (q ++ [take (Z.to_nat (elem_size r)) data])
  else ring_lf_push r data = Ret (false, r).
Proof using V.
  intros Hd. unfold ring_lf_push. rewrite (view_used r s c q V), Z.geb_leb, Z.leb_antisym.
  destruct (Z.ltb_spec (zlen q) (capacity r)); simpl; [|done].
  rewrite (view_ph _ _ _ _ V), u32_add_l.
  destruct (write_slot_ok (set_prod_head (u32 (c + zlen q + 1)) r) s) with (p := c + zlen q) (data := data)
    as (s' & -> & W); [by destruct G | done|]. simpl.
  rewrite (view_pt _ _ _ _ V), Z.eqb_refl. do 2 eexists. split; [done|]. split; [done|].
  rewrite <- elems_1. apply (view_enqueue r s c q V 1); [lia|lia|done].
Qed.

Lemma pop_view out :
  elem_size r <= zlen out ->
  match q with
  | [] => ring_lf_pop r out = Ret (false, out, r)
  | e :: q' =>
      exists r', ring_lf_pop r out = Ret (true, e ++ drop (Z.to_nat (elem_size r)) out, r') /\
        same_shape r r' /\ ring_view r' s (c + 1) q'
  end.
Proof using V.
  intros Ho. pose proof (geom_cap_range r s G). pose proof (view_bound _ _ _ _ V).
  unfold ring_lf_pop. rewrite (view_ch _ _ _ _ V), (view_pt _ _ _ _ V).
  destruct q as [|e q'] eqn:Eq.
  - unfold zlen. simpl. by rewrite Z.add_0_r, Z.eqb_refl.
  - rewrite zlen_cons in *. pose proof (zlen_nonneg q').
    destruct (Z.eqb_spec (u32 (c + (1 + zlen q'))) (u32 c)) as [He|_].
    { apply u32_inj_window in He; unfold two32; lia. }
    rewrite u32_add_l.
    destruct (read_slot_ok (set_cons_head (u32 (c + 1)) r) s) with (p := c) (out := out)
      as (out' & -> & (Hl & Hc & Hd)); [by destruct G | done|]. simpl.
    assert (out' = e ++ drop (Z.to_nat (elem_size r)) out) as ->.
    { rewrite Z.mul_1_l in Hd. rewrite <- Hd, <- (take_drop (Z.to_nat (elem_size r)) out') at 1.
      f_equal. rewrite <- chunk_0. pose proof (Hc 0 ltac:(lia)) as Hc0.
      rewrite Z.add_0_r in Hc0. rewrite <- (view_elems _ _ _ _ V 0 e eq_refl), Z.add_0_r. done. }
    rewrite (view_ct _ _ _ _ V), Z.eqb_refl. eexists. split; [done|]. split; [done|].
    apply (view_dequeue r s c (e :: q') V 1). rewrite zlen_cons. lia.
Qed.

Lemma enqueue_burst_view data n :
  0 <= n < two32 -> n * elem_size r <= zlen data ->
  let k := Z.min n (capacity r - zlen q) in
  exists r' s', ring_lf_enqueue_burst r data n = Ret (k, r') /\ same_shape r r' /\
    ring_view r' s' c (q ++ elems (elem_size r) (Z.to_nat k) data).
Proof using V.
  intros Hn Hd k. assert (k = Z.min n (capacity r - zlen q)) as Ek by done. clearbody k.
  pose proof (geom_cap_range r s G). pose proof (geom_es r s G).
  pose proof (view_bound _ _ _ _ V). pose proof (zlen_nonneg q).
  assert (k = 0 -> ring_view r s c (q ++ elems (elem_size r) (Z.to_nat k) data)) as Hk0.
  { intros ->. unfold elems. simpl. by rewrite app_nil_r. }
  unfold ring_lf_enqueue_burst. destruct (Z.eqb_spec n 0).
  { exists r, s. assert (k = 0) as E0 by lia. split; [by rewrite E0|]. split; [done|]. auto. }
  rewrite (view_used r s c q V). rewrite (u32_small (capacity r - zlen q)) by (unfold two32; lia).
  destruct (Z.eqb_spec (capacity r - zlen q) 0).
  { exists r, s. assert (k = 0) as E0 by lia. split; [by rewrite E0|]. split; [done|]. auto. }
  replace (if n <? capacity r - zlen q then n else capacity r - zlen q) with k by (case_test; lia).
  rewrite (view_ph _ _ _ _ V), u32_add_l.
  destruct (write_run_ok (set_prod_head (u32 (c + zlen q + k)) r) s) with (p := c + zlen q) (k := k) (data := data)
    as (s' & -> & W); [by destruct G | simpl; lia | simpl; nia|]. simpl.
  rewrite (view_pt _ _ _ _ V), Z.eqb_refl. do 2 eexists. split; [done|]. split; [done|].
  apply (view_enqueue r s c q V); [lia|lia|done].
Qed.

Lemma dequeue_burst_view out n :
  0 <= n < two32 -> n * elem_size r <= zlen out ->
  let k := Z.min n (zlen q) in
  exists out' r', ring_lf_dequeue_burst r out n = Ret (k, out', r') /\ same_shape r r' /\
    ring_view r' s (c + k) (drop (Z.to_nat k) q) /\ zlen out' = zlen out /\
    elems (elem_size r) (Z.to_nat k) out' = take (Z.to_nat k) q /\
    drop (Z.to_nat (k * elem_size r)) out' = drop (Z.to_nat (k * elem_size r)) out.
Proof using V.
  intros Hn Ho k. assert (k = Z.min n (zlen q)) as Ek by done. clearbody k.
  pose proof (geom_cap_range r s G). pose proof (geom_es r s G).
  pose proof (view_bound _ _ _ _ V). pose proof (zlen_nonneg q).
  unfold ring_lf_dequeue_burst. destruct (Z.eqb_spec n 0).
  { exists out, r. assert (k = 0) as -> by lia. by rewrite Z.add_0_r. }
  rewrite (view_avail r s c q V). destruct (Z.eqb_spec (zlen q) 0).
  { exists out, r. assert (k = 0) as -> by lia. by rewrite Z.add_0_r. }
  replace (if n <? zlen q then n else zlen q) with k by (case_test; lia).
  rewrite (view_ch _ _ _ _ V), u32_add_l.
  destruct (read_run_ok (set_cons_head (u32 (c + k)) r) s) with (p := c) (k := k) (out := out)
    as (out' & -> & (Hl & Hc & Hd)); [by destruct G | simpl; lia | simpl; nia|]. simpl.
  rewrite (view_ct _ _ _ _ V), Z.eqb_refl. do 2 eexists. split; [done|]. split; [done|].
  split; [apply (view_dequeue r s c q V); lia|]. split; [done|]. split; [|done].
  apply list_eq. intros i. unfold zlen in *.
  destruct (decide (i < Z.to_nat k)%nat).
  - rewrite elems_lookup, lookup_take, decide_True by done.
    destruct (lookup_lt_is_Some_2 q i) as [e He]; [lia|]. rewrite He. f_equal.
    rewrite <- (view_elems _ _ _ _ V i e He). apply Hc. lia.
  - rewrite !lookup_ge_None_2; [done| rewrite length_take; lia | rewrite elems_length; lia].
Qed.

Lemma count_view : ring_lf_count r = zlen q.
Proof using V. apply (view_avail r s c q V). Qed.

Lemma full_view : ring_full r = (capacity r <=? zlen q).
Proof using V. unfold ring_full. by rewrite (view_used r s c q V), Z.geb_leb. Qed.

Lemma empty_view : ring_empty r = bool_decide (q = []).
Proof using V.
  pose proof (geom_cap_range r s G). pose proof (view_bound _ _ _ _ V).
  unfold ring_empty. rewrite (view_pt _ _ _ _ V), (view_ch _ _ _ _ V).
  destruct q as [|e q']; [unfold zlen; simpl; rewrite Z.add_0_r, Z.eqb_refl; done|].
  rewrite zlen_cons in *. pose proof (zlen_nonneg q').
  apply Z.eqb_neq. intros He. apply u32_inj_window in He; unfold two32; lia.
Qed.

Lemma contents_view : ring_contents r = q.
Proof using V.
  unfold ring_contents. rewrite (geom_slots r s G), count_view. apply list_eq. intros i.
  rewrite list_lookup_fmap. unfold zlen. rewrite Nat2Z.id.
  destruct (decide (i < length q)%nat) as [Hi|].
  - rewrite lookup_seq_lt by done. simpl.
    destruct (lookup_lt_is_Some_2 q i Hi) as [e He]. rewrite He. f_equal.
    rewrite <- (view_elems _ _ _ _ V i e He), (view_ch _ _ _ _ V). unfold slot_at.
    destruct (geom_pow2 _ _ G) as (k & Hk & ->). f_equal.
    rewrite <- (u32_mod_pow2 (c + Z.of_nat i) k), <- u32_add_l, u32_mod_pow2 by lia. done.
  - rewrite !lookup_ge_None_2; [done| lia | rewrite length_seq; lia].
Qed.
End view_ops.

(** ** Rounding the capacity up *)

(** [m] has bit [i] set exactly when [n] has a bit set in the [w] places from
    [i] up: what each [n |= n >> w] of [next_pow2] doubles. *)
Definition smeared (w n m : Z) : Prop :=
  forall i, 0 <= i ->
    Z.testbit m i = true <-> exists j, 0 <= j < w /\ Z.testbit n (i + j) = true.

Lemma smeared_1 n : smeared 1 n n.
Proof.
  intros i Hi. split.
  - intros H. exists 0. by rewrite Z.add_0_r.
  - intros (j & Hj & H). by replace (i + j) with i in H by lia.
Qed.

Lemma smeared_double w n m :
  0 < w -> smeared w n m -> smeared (2 * w) n (Z.lor m (Z.shiftr m w)).
Proof.
  unfold smeared. intros Hw H i Hi.
  rewrite Z.lor_spec, Z.shiftr_spec, orb_true_iff, !H by lia. split.
  - intros [(j & Hj & E)|(j & Hj & E)]; [exists j | exists (w + j)].
    + split; [lia|done].
    + split; [lia|]. by rewrite Z.add_assoc.
  - intros (j & Hj & E). destruct (Z.lt_ge_cases j w); [left; exists j | right; exists (j - w)].
    + split; [lia|done].
    + split; [lia|]. by replace (i + w + (j - w)) with (i + j) by lia.
Qed.

Lemma smear_nonneg m w : 0 <= m -> 0 <= Z.lor m (Z.shiftr m w).
Proof. intros. apply Z.lor_nonneg. rewrite Z.shiftr_nonneg. done. Qed.

Lemma smeared_ones n m : 0 < n < two32 -> smeared 32 n m -> 0 <= m -> m = Z.ones (Z.log2 n + 1).
Proof.
  unfold smeared. intros Hn H Hm. assert (Z.log2 n < 32) as Hl by (apply Z.log2_lt_pow2; unfold two32 in *; lia).
  pose proof (Z.log2_nonneg n). apply Z.bits_inj'. intros i Hi.
  destruct (Z.le_gt_cases (Z.log2 n + 1) i).
  - rewrite Z.ones_spec_high by lia. apply not_true_is_false. rewrite H by done.
    intros (j & Hj & E). by rewrite Z.bits_above_log2 in E by lia.
  - rewrite Z.ones_spec_low by lia. apply H; [done|]. exists (Z.log2 n - i).
    split; [lia|]. replace (i + (Z.log2 n - i)) with (Z.log2 n) by lia. apply Z.bit_log2. lia.
Qed.

Lemma next_pow2_log n : 1 < n < two32 -> next_pow2 n = u32 (2 ^ (Z.log2 (n - 1) + 1)).
Proof.
  intros Hn. unfold next_pow2. destruct (Z.eqb_spec n 0); [lia|].
  rewrite (u32_small (n - 1)) by lia.
  match goal with |- u32 (?m + 1) = _ => assert (m = Z.ones (Z.log2 (n - 1) + 1)) as -> end.
  - apply smeared_ones; [lia| |].
    + do 5 (match goal with |- smeared ?w _ _ => change w with (2 * (w / 2)) end;
            apply smeared_double; [done|]). apply smeared_1.
    + do 5 apply smear_nonneg. lia.
  - rewrite Z.ones_equiv. f_equal. lia.
Qed.

Lemma next_pow2_ok n :
  1 <= n <= 2147483648 ->
  exists k, 0 <= k <= 31 /\ next_pow2 n = 2 ^ k /\ n <= 2 ^ k < 2 * n.
Proof.
  intros Hn. destruct (Z.eq_dec n 1) as [->|]; [by exists 0|].
  pose proof (Z.log2_spec (n - 1) ltac:(lia)) as Hl. pose proof (Z.log2_nonneg (n - 1)).
  assert (Z.log2 (n - 1) < 31) by (apply Z.log2_lt_pow2; lia).
  rewrite <- Z.add_1_r in Hl.
  assert (2 ^ (Z.log2 (n - 1) + 1) = 2 * 2 ^ Z.log2 (n - 1)) by (rewrite Z.pow_add_r; lia).
  assert (2 ^ (Z.log2 (n - 1) + 1) <= 2 ^ 31) by (apply Z.pow_le_mono_r; lia).
  exists (Z.log2 (n - 1) + 1). rewrite next_pow2_log by (unfold two32; lia).
  rewrite u32_small by (unfold two32; lia). lia.
Qed.

Lemma next_pow2_wraps n : 2147483648 < n < two32 -> next_pow2 n = 0.
Proof.
  intros Hn. rewrite next_pow2_log by lia.
  assert (Z.log2 (n - 1) = 31) as ->; [|done].
  apply Z.log2_unique; unfold two32 in *; lia.
Qed.

(** ** The interface the channel relies on *)

(** What a pair of ring operations promises to its caller: on a ring that holds
    [q], [push] appends when there is room and reports full otherwise, [pop]
    removes the oldest element into the first [elem_size] bytes of the output
    buffer and reports empty otherwise; neither touches anything else. *)
Class FifoRing (push : chan_ring_lf_t -> list byte -> res (bool * chan_ring_lf_t))
    (pop : chan_ring_lf_t -> list byte -> res (bool * list byte * chan_ring_lf_t))
    (repr : chan_ring_lf_t -> list (list byte) -> Prop) : Prop := {
  fifo_push r q data :
    repr r q -> elem_size r <= zlen data ->
    exists b r', push r data = Ret (b, r') /\ b = (zlen q <? capacity r) /\
      capacity r' = capacity r /\ elem_size r' = elem_size r /\
      repr r' (if b then q ++ [take (Z.to_nat (elem_size r)) data] else q);
  fifo_pop r q out :
    repr r q -> elem_size r <= zlen out ->
    exists b out' r', pop r out = Ret (b, out', r') /\ b = negb (bool_decide (q = [])) /\
      capacity r' = capacity r /\ elem_size r' = elem_size r /\
      repr r' (tail q) /\
      out' = match q with [] => out | e :: _ => e ++ drop (Z.to_nat (elem_size r)) out end
}.

#[export] Instance ring_lf_fifo : FifoRing ring_lf_push ring_lf_pop ring_repr.
Proof.
  split.
  - intros r q data (s & c & V) Hd. pose proof (push_view r s c q V data Hd) as H.
    destruct (zlen q <? capacity r).
    + destruct H as (r' & s' & -> & (?&?&?&?) & V'). eexists true, r'. repeat split; try done. by exists s', c.
    + rewrite H. eexists false, r. repeat split; try done. by exists s, c.
  - intros r q out (s & c & V) Ho. pose proof (pop_view r s c q V out Ho) as H.
    destruct q as [|e q].
    + rewrite H. eexists false, out, r. repeat split; try done. by exists s, c.
    + destruct H as (r' & -> & (?&?&?&?) & V'). eexists true, _, r'. repeat split; try done. by exists s, (c + 1).
Qed.

Section clients.
Context (push : chan_ring_lf_t -> list byte -> res (bool * chan_ring_lf_t)).
Context (pop : chan_ring_lf_t -> list byte -> res (bool * list byte * chan_ring_lf_t)).
Context (repr : chan_ring_lf_t -> list (list byte) -> Prop) {F : FifoRing push pop repr}.

(** Push a list of elements until one is refused; count the accepted ones. *)
Fixpoint push_all (r : chan_ring_lf_t) (ds : list (list byte)) : res (nat * chan_ring_lf_t) :=
  match ds with
  | [] => Ret (0%nat, r)
  | d :: ds =>
      let! (b, r) := push r d in
      if b then let! (k, r) := push_all r ds in Ret (S k, r) else Ret (0%nat, r)
  end.

(** Pop until empty, [fuel] elements at most, into a fresh buffer each. *)
Fixpoint pop_all (fuel : nat) (buf : list byte) (r : chan_ring_lf_t) : res (list (list byte) * chan_ring_lf_t) :=
  match fuel with
  | O => Ret ([], r)
  | S fuel =>
      let! (b, out, r) := pop r buf in
      if b then let! (es, r) := pop_all fuel buf r in Ret (out :: es, r) else Ret ([], r)
  end.

Lemma push_all_fifo ds r q :
  repr r q -> Forall (fun d => zlen d = elem_size r) ds ->
  let n := Nat.min (length ds) (Z.to_nat (capacity r - zlen q)) in
  exists r', push_all r ds = Ret (n, r') /\ repr r' (q ++ take n ds) /\
    capacity r' = capacity r /\ elem_size r' = elem_size r.
Proof using F.
  revert r q. induction ds as [|d ds IH]; intros r q HR Hd.
  - exists r. simpl. by rewrite app_nil_r.
  - apply Forall_cons_1 in Hd as [Hd Hds]. cbn -[Z.to_nat].
    destruct (fifo_push r q d HR) as (b & r1 & -> & Hb & Hc & He & HR1); [lia|]. simpl.
    rewrite take_ge in HR1 by (unfold zlen in *; lia). subst b.
    destruct (Z.ltb_spec (zlen q) (capacity r)).
    + destruct (IH r1 _ HR1) as (r' & -> & HR' & ? & ?); [by rewrite He|]. simpl.
      assert (Z.to_nat (capacity r - zlen q) = S (Z.to_nat (capacity r1 - zlen (q ++ [d])))) as ->.
      { rewrite Hc, zlen_app. unfold zlen in *. simpl in *. lia. }
      exists r'. rewrite <- app_assoc in HR'. simpl in HR'. split; [done|]. split; [done|]. split; congruence.
    + replace (Z.to_nat (capacity r - zlen q)) with 0%nat by lia.
      exists r1. rewrite app_nil_r. done.
Qed.

Lemma pop_all_fifo fuel buf r q :
  repr r q -> zlen buf = elem_size r -> (length q <= fuel)%nat ->
  exists r', pop_all fuel buf r = Ret (q, r') /\ repr r' [].
Proof using F.
  revert r q. induction fuel as [|fuel IH]; intros r q HR Hb Hf; simpl.
  - destruct q; simpl in *; [|lia]. by exists r.
  - destruct (fifo_pop r q buf HR) as (b & out & r1 & -> & -> & Hc & He & HR1 & ->); [lia|]. simpl.
    destruct q as [|e q]; simpl in *; [by exists r1|].
    destruct (IH r1 q HR1) as (r' & -> & HR'); [lia|lia|]. simpl. exists r'. split; [|done].
    rewrite (drop_ge buf) by (unfold zlen in *; lia). by rewrite app_nil_r.
Qed.
End clients.

(** ** A concrete ring, with the cursors about to wrap *)

Definition ring_ex : chan_ring_lf_t :=
  mk_ring 1 1 4294967295 4294967295 4294967295 0 3 4 1 (Some [x42; x00; x00; x41]).

Lemma ring_ex_view : ring_view ring_ex [x42; x00; x00; x41] 4294967295 [[x41]; [x42]].
Proof.
  constructor; try done.
  - constructor; try done. by exists 2.
  - intros [|[|[|i]]] e Hi; simplify_eq/=; done.
Qed.

Lemma ring_ex_repr : ring_repr ring_ex [[x41]; [x42]].
Proof. do 2 eexists. apply ring_ex_view. Qed.

(** An allocator that always succeeds. *)
Definition malloc_ex : Malloc.
Proof.
  refine {| malloc n := if n <? 0 then None else Some (repeat x00 (Z.to_nat n)) |}.
  intros n b. case_test; [done|]. intros [= <-]. unfold zlen. rewrite repeat_length. lia.
Defined.

(** ** Theorems *)

(** [next_pow2] returns the least power of two that is not below its argument,
    for every argument up to 2^31. *)
Theorem next_pow2_least n (Hn : 1 <= n <= 2147483648) :
  exists k, 0 <= k <= 31 /\ next_pow2 n = 2 ^ k /\ n <= 2 ^ k < 2 * n.
Proof. by apply next_pow2_ok. Qed.

Lemma next_pow2_least_witness :
  exists k, 0 <= k <= 31 /\ next_pow2 1000 = 2 ^ k /\ 1000 <= 2 ^ k < 2 * 1000.
Proof. apply (next_pow2_least 1000). lia. Defined.

Lemma init_cases `{M : Malloc} r0 cap es
    (Hcap : 0 <= cap <= 2147483648) (Hes : 0 <= es)
    (Hfit : next_pow2 cap * es < two64) :
  let (ok, r) := ring_lf_init r0 cap es in
  if ok then ring_repr r [] /\ elem_size r = es /\ 0 < cap /\ cap <= capacity r < 2 * cap /\ capacity r = next_pow2 cap
  else cap = 0 \/ es = 0 \/ malloc (next_pow2 cap * es) = None.
Proof.
  unfold ring_lf_init. destruct (Z.eqb_spec cap 0); simpl; [by left|].
  destruct (Z.eqb_spec es 0); simpl; [by right; left|].
  rewrite (u32_small cap) by (unfold two32; lia).
  destruct (next_pow2_ok cap) as (k & Hk & E & Hr); [lia|]. rewrite E in *.
  rewrite u64_small by nia.
  destruct (malloc (2 ^ k * es)) as [b|] eqn:Em; [|by right; right].
  assert (2 ^ k <= 2 ^ 31) by (apply Z.pow_le_mono_r; lia).
  simpl. split; [|by auto with lia]. exists b, 0. constructor; simpl; try done; [|change (0 <= 2 ^ k); lia].
  constructor; simpl; try done; [by exists k | apply u32_small; unfold two32; lia | lia |].
  by apply malloc_size.
Qed.

(** A refused ring has no block. *)
Lemma init_refused `{M : Malloc} r0 cap es r : slots r0 = None -> ring_lf_init r0 cap es = (false, r) -> slots r = None.
Proof.
  unfold ring_lf_init. intros H0. destruct (_ || _); [by intros [= <-]|].
  destruct (malloc _); [done|]. by intros [= <-].
Qed.

(** [ring_lf_init] with a capacity the 32-bit arithmetic can round up, and a
    block that [malloc] grants, yields an empty ring of the least power of two
    of slots; a zero argument or a refused block is reported as [false]. *)
Theorem ring_lf_init_spec `{M : Malloc} r0 cap es
    (Hcap : 0 <= cap <= 2147483648) (Hes : 0 <= es)
    (Hfit : next_pow2 cap * es < two64) :
  let (ok, r) := ring_lf_init r0 cap es in
  if ok then ring_repr r [] /\ elem_size r = es /\ 0 < cap /\ cap <= capacity r < 2 * cap /\ capacity r = next_pow2 cap
  else cap = 0 \/ es = 0 \/ malloc (next_pow2 cap * es) = None.
Proof. by apply init_cases. Qed.

Lemma ring_lf_init_spec_witness :
  0 <= 3 <= 2147483648 /\
  let (ok, r) := @ring_lf_init malloc_ex ring_ex 3 8 in
  if ok then ring_repr r [] /\ elem_size r = 8 /\ 0 < 3 /\ 3 <= capacity r < 2 * 3 /\ capacity r = next_pow2 3
  else 3 = 0 \/ 8 = 0 \/ @malloc malloc_ex (next_pow2 3 * 8) = None.
Proof. split; [lia|]. apply (@ring_lf_init_spec malloc_ex ring_ex 3 8); [lia | lia | done]. Defined.

(** [ring_lf_push] and [ring_lf_pop] on a ring at rest are the two ends of a
    FIFO queue bounded by the ring's capacity, at any position of the cursors:
    a push appends the first [elem_size] bytes of its argument or reports that
    the queue is full, and a pop after it returns the oldest element. *)
Theorem ring_push_pop_fifo r q data out
    (R : ring_repr r q) (Hd : elem_size r <= zlen data) (Ho : elem_size r <= zlen out) :
  exists b r1, ring_lf_push r data = Ret (b, r1) /\ b = (zlen q <? capacity r) /\
    let q1 := if b then q ++ [take (Z.to_nat (elem_size r)) data] else q in
    ring_repr r1 q1 /\ ring_contents r1 = q1 /\
    exists b' out' r2, ring_lf_pop r1 out = Ret (b', out', r2) /\
      b' = negb (bool_decide (q1 = [])) /\ ring_repr r2 (tail q1) /\
      out' = match q1 with [] => out | e :: _ => e ++ drop (Z.to_nat (elem_size r)) out end.
Proof.
  destruct (fifo_push r q data R Hd) as (b & r1 & E & Hb & Hc & He & R1).
  exists b, r1. split; [done|]. split; [done|]. intros q1.
  split; [done|]. split; [destruct R1 as (? & ? & V); exact (contents_view _ _ _ _ V)|].
  destruct (fifo_pop r1 q1 out R1) as (b' & o & r2 & E2 & Hb' & _ & _ & R2 & Ho2); [lia|].
  exists b', o, r2. rewrite He in Ho2. done.
Qed.

Lemma ring_push_pop_fifo_witness :
  exists b r1, ring_lf_push ring_ex [x43] = Ret (b, r1) /\ b = (2 <? 4) /\
    let q1 := if b then [[x41]; [x42]] ++ [take 1 [x43]] else [[x41]; [x42]] in
    ring_repr r1 q1 /\ ring_contents r1 = q1 /\
    exists b' out' r2, ring_lf_pop r1 [x00] = Ret (b', out', r2) /\
      b' = negb (bool_decide (q1 = [])) /\ ring_repr r2 (tail q1) /\
      out' = match q1 with [] => [x00] | e :: _ => e ++ drop 1 [x00] end.
Proof. apply (ring_push_pop_fifo ring_ex _ [x43] [x00] ring_ex_repr); done. Defined.

(** A burst enqueue moves [min n free] elements, a burst dequeue
    [min n available], in order, wherever the run falls relative to the end of
    the buffer: the split of the copy is invisible, and the bytes of the output
    buffer past the elements moved are untouched. *)
Theorem ring_burst_fifo r q data n out m
    (R : ring_repr r q) (Hn : 0 <= n < two32) (Hd : n * elem_size r <= zlen data)
    (Hm : 0 <= m < two32) (Ho : m * elem_size r <= zlen out) :
  let k := Z.min n (capacity r - zlen q) in
  let q1 := q ++ elems (elem_size r) (Z.to_nat k) data in
  let j := Z.min m (zlen q1) in
  exists r1 out' r2,
    ring_lf_enqueue_burst r data n = Ret (k, r1) /\ ring_repr r1 q1 /\
    ring_lf_dequeue_burst r1 out m = Ret (j, out', r2) /\
    ring_repr r2 (drop (Z.to_nat j) q1) /\
    elems (elem_size r) (Z.to_nat j) out' = take (Z.to_nat j) q1 /\
    drop (Z.to_nat (j * elem_size r)) out' = drop (Z.to_nat (j * elem_size r)) out.
Proof.
  intros k q1 j. destruct R as (s & c & V).
  destruct (enqueue_burst_view r s c q V data n Hn Hd) as (r1 & s1 & E1 & (Hc & He & _) & V1).
  fold k q1 in V1. rewrite <- He in Ho.
  destruct (dequeue_burst_view r1 s1 c q1 V1 out m Hm Ho) as (o & r2 & E2 & _ & V2 & _ & Hel & Hr).
  rewrite He in *. exists r1, o, r2. repeat split; try done; by do 2 eexists.
Qed.

Lemma ring_burst_fifo_witness :
  let k := Z.min 3 (4 - 2) in
  let q1 := [[x41]; [x42]] ++ elems 1 (Z.to_nat k) [x43; x44; x45] in
  let j := Z.min 3 (zlen q1) in
  exists r1 out' r2,
    ring_lf_enqueue_burst ring_ex [x43; x44; x45] 3 = Ret (k, r1) /\ ring_repr r1 q1 /\
    ring_lf_dequeue_burst r1 [x00; x00; x00] 3 = Ret (j, out', r2) /\
    ring_repr r2 (drop (Z.to_nat j) q1) /\
    elems 1 (Z.to_nat j) out' = take (Z.to_nat j) q1 /\
    drop (Z.to_nat (j * 1)) out' = drop (Z.to_nat (j * 1)) [x00; x00; x00].
Proof. apply (ring_burst_fifo ring_ex _ [x43; x44; x45] 3 [x00; x00; x00] 3 ring_ex_repr); done. Defined.

(** Round trip through any pair of operations with the ring interface: what
    fits of a list of elements is what popping returns, in order. *)
Theorem fifo_roundtrip push pop repr (F : FifoRing push pop repr) r ds buf
    (R : repr r []) (Hd : Forall (fun d => zlen d = elem_size r) ds) (Hb : zlen buf = elem_size r) :
  exists n r1 r2, push_all push r ds = Ret (n, r1) /\
    n = Nat.min (length ds) (Z.to_nat (capacity r)) /\
    pop_all pop (length ds) buf r1 = Ret (take n ds, r2) /\ repr r2 [].
Proof.
  destruct (push_all_fifo push pop repr ds r [] R Hd) as (r1 & E1 & R1 & _ & He).
  change (zlen []) with 0 in *. rewrite Z.sub_0_r in *.
  destruct (pop_all_fifo push pop repr (length ds) buf r1 _ R1) as (r2 & E2 & R2); [lia | simpl; rewrite length_take; lia|].
  eauto 10.
Qed.

(** An empty ring of two one-byte slots. *)
Definition ring_ex2 : chan_ring_lf_t := mk_ring 0 0 0 0 0 0 1 2 1 (Some [x00; x00]).

Lemma ring_ex2_view : ring_view ring_ex2 [x00; x00] 0 [].
Proof. constructor; try done. constructor; try done. by exists 1. Qed.

Lemma ring_ex2_repr : ring_repr ring_ex2 [].
Proof. do 2 eexists. apply ring_ex2_view. Qed.

Lemma fifo_roundtrip_witness :
  exists n r1 r2, push_all ring_lf_push ring_ex2 [[x41]; [x42]; [x43]] = Ret (n, r1) /\
    n = Nat.min 3 (Z.to_nat 2) /\
    pop_all ring_lf_pop 3 [x00] r1 = Ret (take n [[x41]; [x42]; [x43]], r2) /\ ring_repr r2 [].
Proof.
  apply (fifo_roundtrip _ _ _ ring_lf_fifo ring_ex2 [[x41]; [x42]; [x43]] [x00] ring_ex2_repr);
    [by repeat constructor | done].
Defined.

(** Beyond 2^31 the rounding wraps to zero, and beyond 2^32 the conversion to
    [uint32_t] drops the high bits first: [ring_lf_init] then reports success
    for rings of zero slots and of one slot. *)
Theorem ring_lf_init_truncates `{M : Malloc} r0 b0 b1
    (H0 : malloc 0 = Some b0) (H1 : malloc 1 = Some b1) :
  (forall cap, 2147483648 < cap < two32 ->
     exists r, ring_lf_init r0 cap 1 = (true, r) /\ capacity r = 0 /\ mask r = UINT32_MAX) /\
  (exists r, ring_lf_init r0 two32 1 = (true, r) /\ capacity r = 1).
Proof.
  split.
  - intros cap Hc. unfold ring_lf_init. destruct (Z.eqb_spec cap 0); [lia|].
    rewrite u32_small, next_pow2_wraps by lia. change (malloc (u64 (0 * 1))) with (malloc 0).
    rewrite H0. eexists. split; [done|]. done.
  - unfold ring_lf_init. change (malloc (u64 (next_pow2 (u32 two32) * 1))) with (malloc 1).
    rewrite H1. eexists. split; done.
Qed.

Lemma ring_lf_init_truncates_witness :
  (forall cap, 2147483648 < cap < two32 ->
     exists r, @ring_lf_init malloc_ex ring_ex cap 1 = (true, r) /\ capacity r = 0 /\ mask r = UINT32_MAX) /\
  (exists r, @ring_lf_init malloc_ex ring_ex two32 1 = (true, r) /\ capacity r = 1).
Proof. apply (@ring_lf_init_truncates malloc_ex ring_ex [] [x00]); reflexivity. Defined.
