(* ===== verification/RingSpsc.v ===== *)
(** * The cursor-cached ring operations of [src/libchan_internal.h]

    [ring_spsc_push] and [ring_spsc_pop] test a private copy of the opposite
    cursor first and read the real one only when the copy says the ring might
    be full or empty.  Under the condition [cache_ok] on how stale the copies
    may be they implement the same FIFO interface as the MPMC operations; the
    condition is kept by the cached operations themselves but not by the plain
    ones, and [spsc_stale_pop] shows what happens beyond it. *)

From S2P Require Import Prelude RingLf.

(** Copy into the slot and publish it: the single producer owns both cursors. *)
Definition spsc_store (r : chan_ring_lf_t) (ph : Z) (data : list byte) : res (bool * chan_ring_lf_t) :=
  let! r := write_slot r ph data in
  let r := set_prod_tail (u32 (ph + 1)) r in
  Ret (true, set_prod_head (u32 (ph + 1)) r).

Definition ring_spsc_push (r : chan_ring_lf_t) (data : list byte) : res (bool * chan_ring_lf_t) :=
  let ph := prod_head r in
  if u32 (ph - prod_cached_cons_tail r) >=? capacity r then
    let r := set_cached_cons_tail (cons_tail r) r in
    if u32 (ph - prod_cached_cons_tail r) >=? capacity r then Ret (false, r)
    else spsc_store r ph data
  else spsc_store r ph data.

(** Copy out of the slot and release it. *)
Definition spsc_load (r : chan_ring_lf_t) (ch : Z) (out : list byte)
  : res (bool * list byte * chan_ring_lf_t) :=
  let! out := read_slot r ch out in
  let r := set_cons_tail (u32 (ch + 1)) r in
  Ret (true, out, set_cons_head (u32 (ch + 1)) r).

Definition ring_spsc_pop (r : chan_ring_lf_t) (out : list byte)
  : res (bool * list byte * chan_ring_lf_t) :=
  let ch := cons_head r in
  if i32 (ch - cons_cached_prod_tail r) >=? 0 then
    let r := set_cached_prod_tail (prod_tail r) r in
    if i32 (ch - cons_cached_prod_tail r) >=? 0 then Ret (false, out, r)
    else spsc_load r ch out
  else spsc_load r ch out.

(** [ch->spsc ? ring_spsc_push(...) : ring_lf_push(...)], and for pop. *)
Definition ring_lf_push_dispatch (spsc : bool) (r : chan_ring_lf_t) (data : list byte)
  : res (bool * chan_ring_lf_t) :=
  if spsc then ring_spsc_push r data else ring_lf_push r data.

Definition ring_lf_pop_dispatch (spsc : bool) (r : chan_ring_lf_t) (out : list byte)
  : res (bool * list byte * chan_ring_lf_t) :=
  if spsc then ring_spsc_pop r out else ring_lf_pop r out.

(** ** How stale the caches may be *)

(** With [c] the position of the oldest element and [n] the number of elements:
    the producer's copy is some past position of the consumer, less than 2^32
    behind the producer; the consumer's copy is some past position of the
    producer, less than 2^31 behind the consumer. *)
Definition cache_ok (r : chan_ring_lf_t) (c n : Z) : Prop :=
  (exists cc, prod_cached_cons_tail r = u32 cc /\ cc <= c /\ c + n - cc < two32) /\
  (exists cp, cons_cached_prod_tail r = u32 cp /\ cp <= c + n /\ c - cp < 2147483648).

Definition spsc_repr (r : chan_ring_lf_t) (q : list (list byte)) : Prop :=
  exists s c, ring_view r s c q /\ cache_ok r c (zlen q).

Lemma i32_range x : -2147483648 <= i32 x < 2147483648.
Proof. unfold i32. pose proof (u32_range x). case_test; unfold two32 in *; lia. Qed.

(** The signed distance of two cursors less than 2^31 apart. *)
Lemma i32_distance x y :
  -2147483648 <= x - y < 2147483648 -> i32 (u32 x - u32 y) = x - y.
Proof. intros. unfold i32. rewrite u32_sub. case_test; wrap_lia. Qed.

Lemma view_set_caches r s c q v w :
  ring_view r s c q -> ring_view (set_cached_cons_tail v (set_cached_prod_tail w r)) s c q.
Proof. intros [[] ? ? ? ? ? ?]. constructor; [constructor; done|done..]. Qed.

Lemma set_cached_cons_tail_id r :
  set_cached_cons_tail (prod_cached_cons_tail r) r = r.
Proof. by destruct r. Qed.

Lemma set_cached_prod_tail_id r :
  set_cached_prod_tail (cons_cached_prod_tail r) r = r.
Proof. by destruct r. Qed.

Lemma view_set_cached_cons_tail r s c q v :
  ring_view r s c q -> ring_view (set_cached_cons_tail v r) s c q.
Proof.
  intros V. rewrite <- (set_cached_prod_tail_id r) at 1.
  by apply view_set_caches.
Qed.

Lemma view_set_cached_prod_tail r s c q v :
  ring_view r s c q -> ring_view (set_cached_prod_tail v r) s c q.
Proof.
  intros V. rewrite <- (set_cached_cons_tail_id (set_cached_prod_tail v r)).
  by apply view_set_caches.
Qed.

(** Committing by two plain stores reaches the state of the MPMC commit. *)
Lemma spsc_store_ok r s c q data :
  ring_view r s c q -> cache_ok r c (zlen q) -> zlen q < capacity r -> elem_size r <= zlen data ->
  (exists cc, prod_cached_cons_tail r = u32 cc /\ cc <= c /\ c + zlen q - cc < capacity r) ->
  let q' := q ++ [take (Z.to_nat (elem_size r)) data] in
  exists r' s', spsc_store r (prod_head r) data = Ret (true, r') /\
    capacity r' = capacity r /\ elem_size r' = elem_size r /\
    ring_view r' s' c q' /\ cache_ok r' c (zlen q').
Proof.
  intros V (_ & cp & Ecp & Hcp) Hq Hd (cc & Ecc & Hcc) q'.
  pose proof (geom_cap_range _ _ (view_geom _ _ _ _ V)).
  unfold spsc_store. rewrite (view_ph _ _ _ _ V).
  destruct (write_slot_ok r s (view_geom _ _ _ _ V) (c + zlen q) data Hd) as (s' & -> & W). simpl.
  rewrite u32_add_l. do 2 eexists. split; [done|]. split; [done|]. split; [done|]. split.
  - unfold q'. rewrite <- elems_1. apply (view_enqueue r s c q V 1); [lia|lia|done].
  - unfold q'. rewrite zlen_app. change (zlen [take (Z.to_nat (elem_size r)) data]) with 1. split.
    + exists cc. split; [done|]. unfold two32. lia.
    + exists cp. split; [done|]. lia.
Qed.

Lemma spsc_load_ok r s c e q out :
  ring_view r s c (e :: q) -> cache_ok r c (zlen (e :: q)) -> elem_size r <= zlen out ->
  (exists cp, cons_cached_prod_tail r = u32 cp /\ c < cp <= c + zlen (e :: q)) ->
  exists r', spsc_load r (cons_head r) out = Ret (true, e ++ drop (Z.to_nat (elem_size r)) out, r') /\
    capacity r' = capacity r /\ elem_size r' = elem_size r /\
    ring_view r' s (c + 1) q /\ cache_ok r' (c + 1) (zlen q).
Proof.
  intros V ((cc & Ecc & Hcc & Hst) & _) Ho (cp & Ecp & Hcp).
  rewrite zlen_cons in *. pose proof (zlen_nonneg q).
  pose proof (pop_view r s c (e :: q) V out Ho) as (r' & E & (?&?&?&?) & V').
  unfold ring_lf_pop in E. unfold spsc_load. destruct (_ =? _) in E; [done|].
  change (read_slot (set_cons_head (u32 (cons_head r + 1)) r)) with (read_slot r) in E.
  destruct (read_slot r (cons_head r) out) as [o| |]; simpl in *; try done.
  destruct (_ =? _) in E; [|done]. injection E as -> <-.
  eexists. split; [done|]. split; [done|]. split; [done|]. split; [exact V'|]. split.
  - exists cc. split; [done|]. lia.
  - exists cp. split; [done|]. lia.
Qed.

Lemma spsc_push_ok r s c q data :
  ring_view r s c q -> cache_ok r c (zlen q) -> elem_size r <= zlen data ->
  exists r' s', ring_spsc_push r data = Ret (zlen q <? capacity r, r') /\
    capacity r' = capacity r /\ elem_size r' = elem_size r /\
    let q' := if zlen q <? capacity r then q ++ [take (Z.to_nat (elem_size r)) data] else q in
    ring_view r' s' c q' /\ cache_ok r' c (zlen q').
Proof.
  intros V Hok Hd. destruct (id Hok) as ((cc & Ecc & Hcc & Hst) & Hcp).
  pose proof (geom_cap_range _ _ (view_geom _ _ _ _ V)). pose proof (view_bound _ _ _ _ V) as Hb.
  pose proof (zlen_nonneg q). unfold ring_spsc_push.
  assert (u32 (prod_head r - prod_cached_cons_tail r) = c + zlen q - cc) as ->.
  { rewrite (view_ph _ _ _ _ V), Ecc. apply u32_distance. lia. }
  rewrite Z.geb_leb. destruct (Z.leb_spec (capacity r) (c + zlen q - cc)); simpl.
  - pose proof (view_set_cached_cons_tail r s c q (cons_tail r) V) as V0.
    assert (prod_cached_cons_tail (set_cached_cons_tail (cons_tail r) r) = u32 c) as E0.
    { simpl. by rewrite (view_ct _ _ _ _ V). }
    assert (cache_ok (set_cached_cons_tail (cons_tail r) r) c (zlen q)) as Hok0.
    { split; [|done]. exists c. split; [done|]. unfold two32. lia. }
    rewrite (view_used _ _ _ _ V), Z.geb_leb, Z.leb_antisym.
    destruct (Z.ltb_spec (zlen q) (capacity r)); simpl.
    + apply (spsc_store_ok _ s c q data V0 Hok0); [done|done|]. exists c. simpl. split; [done|lia].
    + do 2 eexists. done.
  - destruct (Z.ltb_spec (zlen q) (capacity r)); [|lia].
    apply (spsc_store_ok r s c q data V Hok); [done|done|]. exists cc. split; [done|lia].
Qed.

Lemma spsc_pop_ok r s c q out :
  ring_view r s c q -> cache_ok r c (zlen q) -> elem_size r <= zlen out ->
  exists out' r' c', ring_spsc_pop r out = Ret (negb (bool_decide (q = [])), out', r') /\
    capacity r' = capacity r /\ elem_size r' = elem_size r /\
    ring_view r' s c' (tail q) /\ cache_ok r' c' (zlen (tail q)) /\
    out' = match q with [] => out | e :: _ => e ++ drop (Z.to_nat (elem_size r)) out end.
Proof.
  intros V Hok Ho. destruct (id Hok) as (Hcc & (cp & Ecp & Hcp & Hst)).
  pose proof (geom_cap_range _ _ (view_geom _ _ _ _ V)). pose proof (view_bound _ _ _ _ V) as Hb.
  pose proof (zlen_nonneg q). unfold ring_spsc_pop.
  assert (i32 (cons_head r - cons_cached_prod_tail r) = c - cp) as ->.
  { rewrite (view_ch _ _ _ _ V), Ecp. apply i32_distance. lia. }
  rewrite Z.geb_leb. destruct (Z.leb_spec 0 (c - cp)); simpl.
  - pose proof (view_set_cached_prod_tail r s c q (prod_tail r) V) as V0.
    assert (cache_ok (set_cached_prod_tail (prod_tail r) r) c (zlen q)) as Hok0.
    { split; [done|]. exists (c + zlen q). simpl. rewrite (view_pt _ _ _ _ V). split; [done|lia]. }
    assert (i32 (cons_head r - prod_tail r) = - zlen q) as ->.
    { rewrite (view_ch _ _ _ _ V), (view_pt _ _ _ _ V), i32_distance; lia. }
    rewrite Z.geb_leb. destruct q as [|e q].
    + eexists out, _, c. done.
    + rewrite zlen_cons. pose proof (zlen_nonneg q). destruct (Z.leb_spec 0 (- (1 + zlen q))); [lia|].
      destruct (spsc_load_ok _ s c e q out V0 Hok0 Ho) as (r' & E & ? & ? & ? & ?).
      { exists (c + zlen (e :: q)). simpl. rewrite (view_pt _ _ _ _ V). rewrite zlen_cons. split; [done|lia]. }
      simpl in E. eexists _, r', (c + 1). rewrite E. done.
  - destruct q as [|e q]; [change (zlen []) with 0 in *; lia|].
    destruct (spsc_load_ok r s c e q out V Hok Ho) as (r' & E & ? & ? & ? & ?).
    { exists cp. split; [done|lia]. }
    eexists _, r', (c + 1). rewrite E. done.
Qed.

#[export] Instance ring_spsc_fifo : FifoRing ring_spsc_push ring_spsc_pop spsc_repr.
Proof.
  split.
  - intros r q data (s & c & V & Hok) Hd.
    destruct (spsc_push_ok r s c q data V Hok Hd) as (r' & s' & -> & ? & ? & V' & Hok').
    exists (zlen q <? capacity r), r'. do 4 (split; [done|]). by exists s', c.
  - intros r q out (s & c & V & Hok) Ho.
    destruct (spsc_pop_ok r s c q out V Hok Ho) as (o & r' & c' & -> & ? & ? & V' & Hok' & ?).
    exists (negb (bool_decide (q = []))), o, r'. do 4 (split; [done|]). split; [|done]. by exists s, c'.
Qed.

(** [n] rounds of one burst enqueue and one burst dequeue of a single element:
    traffic that never goes through the cached operations. *)
Fixpoint burst_rounds (n : nat) (r : chan_ring_lf_t) : res chan_ring_lf_t :=
  match n with
  | O => Ret r
  | S n =>
      let! r := burst_rounds n r in
      let! (_, r) := ring_lf_enqueue_burst r [x41] 1 in
      let! (_, _, r) := ring_lf_dequeue_burst r [x00] 1 in
      Ret r
  end.

Lemma burst_rounds_ok n r s c :
  ring_view r s c [] -> elem_size r = 1 ->
  exists r' s', burst_rounds n r = Ret r' /\ same_shape r r' /\ ring_view r' s' (c + Z.of_nat n) [].
Proof.
  intros V He. induction n as [|n IH]; simpl.
  - exists r, s. by rewrite Z.add_0_r.
  - destruct IH as (r1 & s1 & -> & (Hc1 & He1 & Hp1 & Hq1) & V1). simpl.
    pose proof (geom_cap_range _ _ (view_geom _ _ _ _ V1)).
    destruct (enqueue_burst_view r1 s1 _ [] V1 [x41] 1) as (r2 & s2 & -> & (Hc2 & He2 & Hp2 & Hq2) & V2).
    { done. } { rewrite He1, He. done. } simpl.
    change (zlen []) with 0 in V2. rewrite Z.min_l in V2 by lia.
    destruct (dequeue_burst_view r2 s2 _ _ V2 [x00] 1) as (o & r3 & -> & (Hc3 & He3 & Hp3 & Hq3) & V3 & _).
    { done. } { rewrite He2, He1, He. done. } simpl.
    exists r3, s2. split; [done|]. split; [repeat split; congruence|].
    replace (c + Z.of_nat (S n)) with (c + Z.of_nat n + 1) by lia.
    rewrite He1, He in V3. exact V3.
Qed.

(** ** Theorems *)

(** C23: While the cached cursors are within the bounds of [cache_ok], the cached
    operations are indistinguishable from the MPMC ones on the same ring: same
    results, same output bytes, same queue afterwards; and they keep the
    caches within the bounds. *)
Theorem spsc_equiv_mpmc r q data out
    (R : spsc_repr r q) (Hd : elem_size r <= zlen data) (Ho : elem_size r <= zlen out) :
  (exists b r1 r2, ring_spsc_push r data = Ret (b, r1) /\ ring_lf_push r data = Ret (b, r2) /\
     exists q', spsc_repr r1 q' /\ ring_repr r2 q') /\
  (exists b o r1 r2, ring_spsc_pop r out = Ret (b, o, r1) /\ ring_lf_pop r out = Ret (b, o, r2) /\
     exists q', spsc_repr r1 q' /\ ring_repr r2 q').
Proof.
  assert (ring_repr r q) as R' by (destruct R as (s & c & V & _); by exists s, c).
  split.
  - destruct (fifo_push (FifoRing := ring_spsc_fifo) r q data R Hd) as (b & r1 & E1 & -> & _ & _ & R1).
    destruct (fifo_push (FifoRing := ring_lf_fifo) r q data R' Hd) as (b & r2 & E2 & -> & _ & _ & R2). eauto 10.
  - destruct (fifo_pop (FifoRing := ring_spsc_fifo) r q out R Ho) as (b & o & r1 & E1 & -> & _ & _ & R1 & ->).
    destruct (fifo_pop (FifoRing := ring_lf_fifo) r q out R' Ho) as (b & o & r2 & E2 & -> & _ & _ & R2 & ->). eauto 12.
Qed.

Lemma ring_ex_spsc_repr : spsc_repr ring_ex [[x41]; [x42]].
Proof.
  exists [x42; x00; x00; x41], 4294967295. split; [exact ring_ex_view|]. split.
  - exists 4294967295. unfold zlen, two32; simpl. split; [done|]. lia.
  - exists 4294967296. unfold zlen; simpl. split; [done|]. lia.
Qed.

Lemma spsc_equiv_mpmc_witness :
  (exists b r1 r2, ring_spsc_push ring_ex [x43] = Ret (b, r1) /\ ring_lf_push ring_ex [x43] = Ret (b, r2) /\
     exists q', spsc_repr r1 q' /\ ring_repr r2 q') /\
  (exists b o r1 r2, ring_spsc_pop ring_ex [x00] = Ret (b, o, r1) /\ ring_lf_pop ring_ex [x00] = Ret (b, o, r2) /\
     exists q', spsc_repr r1 q' /\ ring_repr r2 q').
Proof. apply (spsc_equiv_mpmc ring_ex _ [x43] [x00] ring_ex_spsc_repr); done. Defined.

(** A burst-only history of 2^31 elements leaves the consumer's cached cursor
    2^31 behind: [ring_spsc_pop] then reports an element on an empty ring.  The
    comment on the caches ("a cache merely goes stale-low (always safe)") does
    not hold beyond that distance. *)
Theorem spsc_stale_pop :
  exists n r, Z.of_nat n = 2147483648 /\ burst_rounds n ring_ex2 = Ret r /\ ring_repr r [] /\
    ring_lf_pop r [x00] = Ret (false, [x00], r) /\
    exists o r', ring_spsc_pop r [x00] = Ret (true, o, r').
Proof.
  assert (exists n, Z.of_nat n = 2147483648) as (n & Hn) by (exists (Z.to_nat 2147483648); lia).
  destruct ring_ex2_repr as (s & c & V).
  destruct (burst_rounds_ok n ring_ex2 s c V) as (r & s' & E & (Hc & He & _ & Hcp) & V'); [done|].
  exists n, r. split; [done|]. split; [done|]. split; [by exists s', (c + Z.of_nat n)|].
  split; [apply (pop_view r s' _ [] V' [x00]); rewrite He; done|].
  assert (u32 c = 0) as Hu by (rewrite <- (view_ch _ _ _ _ V); done).
  unfold ring_spsc_pop. rewrite (view_ch _ _ _ _ V'), Hcp, Hn.
  assert (i32 (u32 (c + 2147483648) - cons_cached_prod_tail ring_ex2) = -2147483648) as ->.
  { rewrite <- u32_add_l, Hu. done. }
  simpl. unfold spsc_load.
  destruct (read_slot_ok r s' (view_geom _ _ _ _ V') (c + 2147483648) [x00]) as (o & -> & _).
  { rewrite He. done. }
  simpl. eauto.
Qed.
