(* ===== verification/RingConc.v ===== *)
(** * The ring under concurrency: any number of producers and consumers

    The operations of [src/ring_lf.c] as a step machine.  Every atomic access
    of the C code is one step of one thread, a schedule is a list of labels,
    and the memory is sequentially consistent; the [memcpy] of Phase 2 is one
    step, which theorem [ring_mpmc_exclusive] justifies: from the
    compare-and-swap that reserves a run of slots to the store that commits it,
    no other thread reads or writes one of them.

    A thread of the machine carries three ghost values that no step reads: the
    absolute (unwrapped) positions behind the two cursor values it has loaded
    and the elements its last dequeue took.  The state carries the log of all
    elements ever reserved and the absolute positions of the other three
    cursors.  They state the invariant and the refinement to the abstract
    queue; [step] on the concrete components does not depend on them.

    The compare-and-swap compares 32-bit cursors.  Executions are restricted to
    those in which no thread is overtaken by 2^32 reservations between loading
    a cursor and its compare-and-swap ([fresh]): the classical ABA bound. *)

From S2P Require Import Prelude RingLf.

(** ** Threads *)

Inductive prod_op :=
| Push (data : list byte)
| EnqueueBurst (data : list byte) (n : Z).

Inductive cons_op :=
| Pop (out : list byte)
| DequeueBurst (out : list byte) (n : Z).

(** Program counters, with the C locals that are live there. *)
Inductive pc :=
| Idle
| PLoadHead (o : prod_op)             (* ph = load(prod.head) *)
| PLoadTail (o : prod_op) (ph : Z)    (* ct = load(cons.tail); full check *)
| PCas (o : prod_op) (ph k : Z)       (* CAS(prod.head, ph, ph + k) *)
| PWrite (o : prod_op) (ph k : Z)     (* Phase 2: memcpy into the slots *)
| PWait (o : prod_op) (ph k : Z)      (* Phase 3: while (load(prod.tail) != ph) *)
| PStore (o : prod_op) (ph k : Z)     (* store(prod.tail, ph + k) *)
| PRet (k : Z)                        (* returned: k elements moved, 0 is full *)
| CLoadHead (o : cons_op)
| CLoadTail (o : cons_op) (ch : Z)
| CCas (o : cons_op) (ch k : Z)
| CRead (o : cons_op) (ch k : Z)
| CWait (out : list byte) (ch k : Z)
| CStore (out : list byte) (ch k : Z)
| CRet (k : Z) (out : list byte)      (* returned: k elements moved, 0 is empty *)
| Crashed.                            (* undefined behaviour in Phase 2 *)

Record thread := mk_thread {
  t_pc : pc;
  t_head : Z;                 (* ghost: absolute position of the own-side head loaded *)
  t_tail : Z;                 (* ghost: absolute position of the opposite tail loaded *)
  t_got : list (list byte)    (* ghost: the elements taken by the last dequeue *)
}.

Record ghost := mk_ghost {
  g_log : list (list byte);   (* every element reserved so far; its length is prod.head unwrapped *)
  g_pt : Z;                   (* prod.tail unwrapped *)
  g_ch : Z;                   (* cons.head unwrapped *)
  g_ct : Z                    (* cons.tail unwrapped *)
}.

Record mpmc := mk_mpmc {
  m_ring : chan_ring_lf_t;
  m_thr : list thread;
  m_g : ghost
}.

Definition prod_data (o : prod_op) : list byte :=
  match o with Push d => d | EnqueueBurst d _ => d end.
Definition prod_max (o : prod_op) : Z :=
  match o with Push _ => 1 | EnqueueBurst _ n => n end.
Definition cons_out (o : cons_op) : list byte :=
  match o with Pop b => b | DequeueBurst b _ => b end.
Definition cons_max (o : cons_op) : Z :=
  match o with Pop _ => 1 | DequeueBurst _ n => n end.

(** The caller's buffer has room for the elements it announces. *)
Definition prod_ok (es : Z) (o : prod_op) : bool :=
  (0 <=? prod_max o) && (prod_max o <? two32) && (prod_max o * es <=? zlen (prod_data o)).
Definition cons_ok (es : Z) (o : cons_op) : bool :=
  (0 <=? cons_max o) && (cons_max o <? two32) && (cons_max o * es <=? zlen (cons_out o)).

(** ** Steps *)

Inductive action :=
| InvokeP (o : prod_op)   (* an idle thread calls push or enqueue_burst *)
| InvokeC (o : cons_op)   (* an idle thread calls pop or dequeue_burst *)
| Go                      (* the next atomic access *)
| Spurious                (* the weak compare-and-swap fails spuriously *)
| Finish.                 (* the call returns to its caller *)

(** Phase 1, the checks that follow the two loads: the number of slots to
    reserve, [None] when the operation returns full or empty. *)
Definition prod_reserve (r : chan_ring_lf_t) (o : prod_op) (ph ct : Z) : option Z :=
  match o with
  | Push _ => if u32 (ph - ct) >=? capacity r then None else Some 1
  | EnqueueBurst _ n =>
      let free_entries := u32 (capacity r - u32 (ph - ct)) in
      if free_entries =? 0 then None
      else Some (if n <? free_entries then n else free_entries)
  end.

Definition cons_reserve (o : cons_op) (ch pt : Z) : option Z :=
  match o with
  | Pop _ => if pt =? ch then None else Some 1
  | DequeueBurst _ n =>
      let avail := u32 (pt - ch) in
      if avail =? 0 then None else Some (if n <? avail then n else avail)
  end.

(** Phase 2. *)
Definition prod_write (r : chan_ring_lf_t) (o : prod_op) (ph k : Z) : res chan_ring_lf_t :=
  match o with
  | Push d => write_slot r ph d
  | EnqueueBurst d _ => write_run r ph k d
  end.

Definition cons_read (r : chan_ring_lf_t) (o : cons_op) (ch k : Z) : res (list byte) :=
  match o with
  | Pop out => read_slot r ch out
  | DequeueBurst out _ => read_run r ch k out
  end.

Definition log_at (log : list (list byte)) (i : Z) : list byte := nth (Z.to_nat i) log [].

(** The elements of the log at the absolute positions [i .. i+n-1]. *)
Definition log_run (log : list (list byte)) (i n : Z) : list (list byte) :=
  take (Z.to_nat n) (drop (Z.to_nat i) log).

Definition goto (th : thread) (p : pc) : thread := mk_thread p (t_head th) (t_tail th) (t_got th).

(** One atomic access of a thread: the ring, the ghost state and the thread
    after it. *)
Definition go (r : chan_ring_lf_t) (g : ghost) (th : thread) : option (chan_ring_lf_t * ghost * thread) :=
  match t_pc th with
  | Idle | PRet _ | CRet _ _ | Crashed => None
  | PLoadHead o =>
      Some (r, g, mk_thread (PLoadTail o (prod_head r)) (zlen (g_log g)) (t_tail th) (t_got th))
  | PLoadTail o ph =>
      match prod_reserve r o ph (cons_tail r) with
      | None => Some (r, g, mk_thread (PRet 0) (t_head th) (g_ct g) (t_got th))
      | Some k => Some (r, g, mk_thread (PCas o ph k) (t_head th) (g_ct g) (t_got th))
      end
  | PCas o ph k =>
      if prod_head r =? ph then
        Some (set_prod_head (u32 (ph + k)) r,
              mk_ghost (g_log g ++ elems (elem_size r) (Z.to_nat k) (prod_data o)) (g_pt g) (g_ch g) (g_ct g),
              goto th (PWrite o ph k))
      else Some (r, g, goto th (PLoadHead o))
  | PWrite o ph k =>
      match prod_write r o ph k with
      | Ret r' => Some (r', g, goto th (PWait o ph k))
      | _ => Some (r, g, goto th Crashed)
      end
  | PWait o ph k =>
      Some (r, g, goto th (if prod_tail r =? ph then PStore o ph k else PWait o ph k))
  | PStore o ph k =>
      Some (set_prod_tail (u32 (ph + k)) r, mk_ghost (g_log g) (g_pt g + k) (g_ch g) (g_ct g),
            goto th (PRet k))
  | CLoadHead o =>
      Some (r, g, mk_thread (CLoadTail o (cons_head r)) (g_ch g) (t_tail th) (t_got th))
  | CLoadTail o ch =>
      match cons_reserve o ch (prod_tail r) with
      | None => Some (r, g, mk_thread (CRet 0 (cons_out o)) (t_head th) (g_pt g) [])
      | Some k => Some (r, g, mk_thread (CCas o ch k) (t_head th) (g_pt g) (t_got th))
      end
  | CCas o ch k =>
      if cons_head r =? ch then
        Some (set_cons_head (u32 (ch + k)) r, mk_ghost (g_log g) (g_pt g) (g_ch g + k) (g_ct g),
              mk_thread (CRead o ch k) (t_head th) (t_tail th) (log_run (g_log g) (g_ch g) k))
      else Some (r, g, goto th (CLoadHead o))
  | CRead o ch k =>
      match cons_read r o ch k with
      | Ret out => Some (r, g, goto th (CWait out ch k))
      | _ => Some (r, g, goto th Crashed)
      end
  | CWait out ch k =>
      Some (r, g, goto th (if cons_tail r =? ch then CStore out ch k else CWait out ch k))
  | CStore out ch k =>
      Some (set_cons_tail (u32 (ch + k)) r, mk_ghost (g_log g) (g_pt g) (g_ch g) (g_ct g + k),
            goto th (CRet k out))
  end.

(** The whole step of thread [t]; [None] when the action is not enabled. *)
Definition step (l : nat * action) (m : mpmc) : option mpmc :=
  let (t, a) := l in
  match m_thr m !! t with
  | None => None
  | Some th =>
      let upd th' := Some (mk_mpmc (m_ring m) (<[t := th']> (m_thr m)) (m_g m)) in
      match a, t_pc th with
      | InvokeP o, Idle =>
          if prod_ok (elem_size (m_ring m)) o then
            upd (goto th (if prod_max o =? 0 then PRet 0 else PLoadHead o))
          else None
      | InvokeC o, Idle =>
          if cons_ok (elem_size (m_ring m)) o then
            upd (if cons_max o =? 0 then mk_thread (CRet 0 (cons_out o)) (t_head th) (t_tail th) []
                 else goto th (CLoadHead o))
          else None
      | Spurious, PCas o _ _ => upd (goto th (PLoadHead o))
      | Spurious, CCas o _ _ => upd (goto th (CLoadHead o))
      | Finish, PRet _ => upd (goto th Idle)
      | Finish, CRet _ _ => upd (goto th Idle)
      | Go, _ =>
          match go (m_ring m) (m_g m) th with
          | Some (r, g, th') => Some (mk_mpmc r (<[t := th']> (m_thr m)) g)
          | None => None
          end
      | _, _ => None
      end
  end.

(** The abstract queue: committed by producers, not yet claimed by consumers. *)
Definition queue (m : mpmc) : list (list byte) :=
  log_run (g_log (m_g m)) (g_ch (m_g m)) (g_pt (m_g m) - g_ch (m_g m)).

(** ** Executions *)

(** The initial state: a ring as [ring_lf_init] leaves it, [n] idle threads. *)
Definition mpmc_init (r : chan_ring_lf_t) (n : nat) : mpmc :=
  mk_mpmc r (replicate n (mk_thread Idle 0 0 [])) (mk_ghost [] 0 0 0).

(** Thread [t], if it is about to compare-and-swap or to test the cursors, has
    not been overtaken by 2^32 reservations. *)
Definition fresh_thread (g : ghost) (th : thread) : bool :=
  match t_pc th with
  | PLoadTail _ _ | PCas _ _ _ => zlen (g_log g) - t_head th <? two32
  | CLoadTail _ _ | CCas _ _ _ => g_pt g - t_head th <? two32
  | _ => true
  end.

(** One step of a thread that is fresh. *)
Definition fstep (l : nat * action) (m : mpmc) : option mpmc :=
  match m_thr m !! l.1 with
  | Some th => if fresh_thread (m_g m) th then step l m else None
  | None => None
  end.

Definition reachable (r : chan_ring_lf_t) (n : nat) (m : mpmc) : Prop :=
  exists ls, run fstep ls (mpmc_init r n) = Some m.

(** ** The invariant *)

(** The run of positions a thread has reserved and not yet committed. *)
Definition prod_run (th : thread) : option (Z * Z) :=
  match t_pc th with
  | PWrite _ _ k | PWait _ _ k | PStore _ _ k => Some (t_head th, k)
  | _ => None
  end.
Definition cons_run (th : thread) : option (Z * Z) :=
  match t_pc th with
  | CRead _ _ k | CWait _ _ k | CStore _ _ k => Some (t_head th, k)
  | _ => None
  end.

(** The slots of the run hold the elements of the log. *)
Definition stored (r : chan_ring_lf_t) (s : list byte) (g : ghost) (i j : Z) : Prop :=
  forall p, i <= p < j -> slot_at r s p = log_at (g_log g) p.

Definition in_log (es : Z) (g : ghost) (i k : Z) (data : list byte) : Prop :=
  forall j, 0 <= j < k -> log_at (g_log g) (i + j) = chunk es j data.

Definition thread_inv (r : chan_ring_lf_t) (s : list byte) (g : ghost) (th : thread) : Prop :=
  let es := elem_size r in
  let PH := zlen (g_log g) in
  match t_pc th with
  | Idle | PRet _ => True
  | Crashed => False
  | PLoadHead o => prod_ok es o = true /\ 0 < prod_max o
  | PLoadTail o ph =>
      prod_ok es o = true /\ 0 < prod_max o /\ ph = u32 (t_head th) /\ 0 <= t_head th <= PH
  | PCas o ph k =>
      prod_ok es o = true /\ 1 <= k <= prod_max o /\ ph = u32 (t_head th) /\ 0 <= t_head th <= PH /\
      t_tail th <= g_ct g /\ t_head th - t_tail th <= capacity r /\
      k <= u32 (capacity r - u32 (t_head th - t_tail th))
  | PWrite o ph k =>
      prod_ok es o = true /\ k <= prod_max o /\ ph = u32 (t_head th) /\
      in_log es g (t_head th) k (prod_data o)
  | PWait o ph k =>
      ph = u32 (t_head th) /\ in_log es g (t_head th) k (prod_data o) /\
      stored r s g (t_head th) (t_head th + k)
  | PStore o ph k =>
      ph = u32 (t_head th) /\ in_log es g (t_head th) k (prod_data o) /\
      stored r s g (t_head th) (t_head th + k) /\ g_pt g = t_head th
  | CLoadHead o => cons_ok es o = true /\ 0 < cons_max o
  | CLoadTail o ch =>
      cons_ok es o = true /\ 0 < cons_max o /\ ch = u32 (t_head th) /\ 0 <= t_head th <= g_ch g
  | CCas o ch k =>
      cons_ok es o = true /\ 1 <= k <= cons_max o /\ ch = u32 (t_head th) /\ 0 <= t_head th <= g_ch g /\
      t_head th <= t_tail th <= g_pt g /\ k <= u32 (t_tail th - t_head th)
  | CRead o ch k =>
      cons_ok es o = true /\ k <= cons_max o /\ ch = u32 (t_head th) /\
      t_got th = log_run (g_log g) (t_head th) k
  | CWait out ch k => ch = u32 (t_head th) /\ elems es (Z.to_nat k) out = t_got th
  | CStore out ch k =>
      ch = u32 (t_head th) /\ elems es (Z.to_nat k) out = t_got th /\ g_ct g = t_head th
  | CRet k out => elems es (Z.to_nat k) out = t_got th
  end.

(** The runs reserved on one side lie between the committed cursor [lo] and the
    reserved cursor [hi], are disjoint, and leave no position of that interval
    out. *)
Record runs_ok (run_of : thread -> option (Z * Z)) (ths : list thread) (lo hi : Z) : Prop := {
  runs_within : forall t th i k, ths !! t = Some th -> run_of th = Some (i, k) ->
    lo <= i /\ 1 <= k /\ i + k <= hi;
  runs_disjoint : forall t1 t2 th1 th2 i1 k1 i2 k2, t1 <> t2 ->
    ths !! t1 = Some th1 -> ths !! t2 = Some th2 ->
    run_of th1 = Some (i1, k1) -> run_of th2 = Some (i2, k2) ->
    i1 + k1 <= i2 \/ i2 + k2 <= i1;
  runs_cover : forall p, lo <= p < hi -> exists t th i k,
    ths !! t = Some th /\ run_of th = Some (i, k) /\ i <= p < i + k
}.

Record inv (r : chan_ring_lf_t) (s : list byte) (g : ghost) (ths : list thread) : Prop := {
  inv_geom : ring_geom r s;
  inv_ph : prod_head r = u32 (zlen (g_log g));
  inv_pt : prod_tail r = u32 (g_pt g);
  inv_ch : cons_head r = u32 (g_ch g);
  inv_ct : cons_tail r = u32 (g_ct g);
  inv_order : (0 <= g_ct g <= g_ch g) /\ (g_ch g <= g_pt g <= zlen (g_log g));
  inv_bound : zlen (g_log g) <= g_ct g + capacity r;
  inv_stored : stored r s g (g_ct g) (g_pt g);
  inv_prod : runs_ok prod_run ths (g_pt g) (zlen (g_log g));
  inv_cons : runs_ok cons_run ths (g_ct g) (g_ch g);
  inv_threads : forall t th, ths !! t = Some th -> thread_inv r s g th
}.

(** *** Updating the runs of one thread *)

Section runs.
Context (run_of : thread -> option (Z * Z)) (ths : list thread) (lo hi : Z).
Context (R : runs_ok run_of ths lo hi) (t : nat) (th th' : thread) (Ht : ths !! t = Some th).

Lemma update_cases t2 th2 :
  <[t := th']> ths !! t2 = Some th2 -> (t2 = t /\ th2 = th') \/ (t2 <> t /\ ths !! t2 = Some th2).
Proof using Ht.
  intros H. destruct (decide (t2 = t)) as [->|Hn].
  - left. rewrite list_lookup_insert_eq in H by (by eapply lookup_lt_Some). by simplify_eq.
  - right. by rewrite list_lookup_insert_ne in H by done.
Qed.

Lemma update_other t2 th2 :
  t2 <> t -> ths !! t2 = Some th2 -> <[t := th']> ths !! t2 = Some th2.
Proof using. intros. by rewrite list_lookup_insert_ne. Qed.

Lemma update_self : <[t := th']> ths !! t = Some th'.
Proof using Ht. apply list_lookup_insert_eq. by eapply lookup_lt_Some. Qed.

Lemma runs_same : run_of th' = run_of th -> runs_ok run_of (<[t := th']> ths) lo hi.
Proof using R Ht.
  intros E. destruct R as [W D C]. split.
  - intros t2 th2 i k H. apply update_cases in H as [[-> ->]|[? H]]; rewrite ?E; eauto.
  - intros t1 t2 th1 th2 i1 k1 i2 k2 Hn H1 H2.
    apply update_cases in H1 as [[-> ->]|[? H1]]; apply update_cases in H2 as [[-> ->]|[? H2]];
      rewrite ?E; eauto; done.
  - intros p Hp. destruct (C p Hp) as (t2 & th2 & i & k & H & Hr & Hi).
    destruct (decide (t2 = t)) as [->|].
    + exists t, th', i, k. rewrite update_self, E. by simplify_eq.
    + exists t2, th2, i, k. split; [by apply update_other|done].
Qed.

Lemma runs_acquire k :
  run_of th = None -> run_of th' = Some (hi, k) -> 1 <= k -> lo <= hi ->
  runs_ok run_of (<[t := th']> ths) lo (hi + k).
Proof using R Ht.
  intros En E Hk Hlo. destruct R as [W D C]. split.
  - intros t2 th2 i k2 H Hr. apply update_cases in H as [[-> ->]|[? H]].
    + rewrite E in Hr. simplify_eq. lia.
    + destruct (W _ _ _ _ H Hr). lia.
  - intros t1 t2 th1 th2 i1 k1 i2 k2 Hn H1 H2 Hr1 Hr2.
    apply update_cases in H1 as [[-> ->]|[? H1]]; apply update_cases in H2 as [[-> ->]|[? H2]];
      [done| | |eauto].
    + rewrite E in Hr1. simplify_eq. destruct (W _ _ _ _ H2 Hr2). lia.
    + rewrite E in Hr2. simplify_eq. destruct (W _ _ _ _ H1 Hr1). lia.
  - intros p Hp. destruct (Z.lt_ge_cases p hi).
    + destruct (C p ltac:(lia)) as (t2 & th2 & i & k2 & H1 & Hr & Hi).
      destruct (decide (t2 = t)) as [->|]; [simplify_eq; congruence|].
      exists t2, th2, i, k2. split; [by apply update_other|done].
    + exists t, th', hi, k. rewrite update_self. split; [done|]. split; [done|]. lia.
Qed.

Lemma runs_release k :
  run_of th = Some (lo, k) -> run_of th' = None -> runs_ok run_of (<[t := th']> ths) (lo + k) hi.
Proof using R Ht.
  intros E En. destruct R as [W D C]. split.
  - intros t2 th2 i k2 H Hr. apply update_cases in H as [[-> ->]|[Hn H]]; [congruence|].
    destruct (W _ _ _ _ H Hr) as (? & ? & ?). destruct (D _ _ _ _ _ _ _ _ Hn H Ht Hr E); lia.
  - intros t1 t2 th1 th2 i1 k1 i2 k2 Hn H1 H2 Hr1 Hr2.
    apply update_cases in H1 as [[-> ->]|[? H1]]; apply update_cases in H2 as [[-> ->]|[? H2]];
      try congruence; eauto.
  - intros p Hp. destruct (W _ _ _ _ Ht E) as (? & ? & ?).
    destruct (C p ltac:(lia)) as (t2 & th2 & i & k2 & H2 & Hr & Hi).
    destruct (decide (t2 = t)) as [->|].
    + simplify_eq. lia.
    + exists t2, th2, i, k2. split; [by apply update_other|done].
Qed.
End runs.

(** *** The log *)

Lemma log_at_prefix log x i : 0 <= i < zlen log -> log_at (log ++ x) i = log_at log i.
Proof. intros. unfold log_at, zlen in *. rewrite app_nth1 by lia. done. Qed.

Lemma log_at_new log x j : 0 <= j -> log_at (log ++ x) (zlen log + j) = log_at x j.
Proof.
  intros. unfold log_at, zlen. rewrite app_nth2 by lia. f_equal. lia.
Qed.

Lemma log_at_elems es n d j : 0 <= j < Z.of_nat n -> log_at (elems es n d) j = chunk es j d.
Proof.
  intros. unfold log_at. apply nth_lookup_Some with (x := chunk es j d).
  rewrite elems_lookup by lia. by rewrite Z2Nat.id by lia.
Qed.

Lemma log_run_prefix log x i n :
  0 <= i -> 0 <= n -> i + n <= zlen log -> log_run (log ++ x) i n = log_run log i n.
Proof.
  intros. unfold log_run, zlen in *. rewrite drop_app_le by lia. rewrite take_app_le; [done|].
  rewrite length_drop. lia.
Qed.

Lemma log_run_split log i n1 n2 :
  0 <= i -> 0 <= n1 -> 0 <= n2 -> log_run log i (n1 + n2) = log_run log i n1 ++ log_run log (i + n1) n2.
Proof.
  intros. unfold log_run. rewrite !Z2Nat.inj_add by lia.
  rewrite <- drop_drop, take_take_drop. done.
Qed.

Lemma log_run_length log i n : 0 <= i -> 0 <= n -> i + n <= zlen log -> zlen (log_run log i n) = n.
Proof. intros. unfold log_run, zlen in *. rewrite length_take, length_drop. lia. Qed.

Lemma log_run_elems es log i k out :
  0 <= i -> 0 <= k -> i + k <= zlen log ->
  (forall j, 0 <= j < k -> chunk es j out = log_at log (i + j)) ->
  elems es (Z.to_nat k) out = log_run log i k.
Proof.
  intros Hi Hk Hb H. apply list_eq. intros j. unfold log_run, zlen in *.
  destruct (decide (j < Z.to_nat k)%nat).
  - rewrite elems_lookup by done. rewrite lookup_take, decide_True by done. rewrite lookup_drop.
    rewrite H by lia. unfold log_at.
    destruct (lookup_lt_is_Some_2 log (Z.to_nat i + j)%nat) as [e He]; [lia|]. rewrite He. f_equal.
    apply nth_lookup_Some. by replace (Z.to_nat (i + Z.of_nat j)) with (Z.to_nat i + j)%nat by lia.
  - rewrite !lookup_ge_None_2; [done | rewrite length_take; lia | rewrite elems_length; lia].
Qed.

(** *** Steps of other threads keep a thread's facts *)

Lemma thread_stable r s g th r' s' g' x :
  thread_inv r s g th ->
  capacity r' = capacity r -> elem_size r' = elem_size r ->
  g_log g' = g_log g ++ x -> g_ct g <= g_ct g' -> g_ch g <= g_ch g' -> g_pt g <= g_pt g' ->
  (forall i k, prod_run th = Some (i, k) ->
     0 <= i /\ i + k <= zlen (g_log g) /\ g_pt g' <= i /\
     forall p, i <= p < i + k -> slot_at r' s' p = slot_at r s p) ->
  (forall i k, cons_run th = Some (i, k) -> 1 <= k /\ 0 <= i /\ i + k <= zlen (g_log g) /\ g_ct g' <= i) ->
  thread_inv r' s' g' th.
Proof.
  intros H Hc He Hl Hct Hch Hpt Hp Hq.
  assert (zlen (g_log g) <= zlen (g_log g')) as HPH.
  { rewrite Hl, zlen_app. pose proof (zlen_nonneg x). lia. }
  assert (forall i k d, 0 <= i -> i + k <= zlen (g_log g) ->
    in_log (elem_size r) g i k d -> in_log (elem_size r') g' i k d) as Hin.
  { intros i k d ? ? Hi j Hj. rewrite Hl, log_at_prefix, He by lia. by apply Hi. }
  assert (forall i k, 0 <= i -> i + k <= zlen (g_log g) ->
    (forall p, i <= p < i + k -> slot_at r' s' p = slot_at r s p) ->
    stored r s g i (i + k) -> stored r' s' g' i (i + k)) as Hst.
  { intros i k ? ? Hsl Hs p Hpp. rewrite Hsl, Hl, log_at_prefix by lia. by apply Hs. }
  unfold thread_inv, prod_run, cons_run in *.
  destruct (t_pc th); cbv zeta in *; rewrite ?Hc, ?He in *; try done; try (intuition (done || lia)).
  - destruct H as (? & ? & ? & H). destruct (Hp _ _ eq_refl) as (? & ? & ? & ?). auto 10.
  - destruct H as (? & H & Hs). destruct (Hp _ _ eq_refl) as (? & ? & ? & ?). auto 10.
  - destruct H as (? & H & Hs & ?). destruct (Hp _ _ eq_refl) as (? & ? & ? & ?).
    split; [done|]. split; [by apply Hin|]. split; [by apply Hst|]. lia.
  - destruct H as (? & ? & ? & H). destruct (Hq _ _ eq_refl) as (? & ? & ? & ?).
    do 3 (split; [done|]). rewrite H, Hl, log_run_prefix by lia. done.
  - destruct H as (? & ? & H). destruct (Hq _ _ eq_refl) as (? & ? & ? & ?).
    do 2 (split; [done|]). lia.
Qed.

(** *** Preservation, by kind of step *)

Lemma geom_ext r r' s :
  ring_geom r s -> capacity r' = capacity r -> mask r' = mask r -> elem_size r' = elem_size r ->
  slots r' = slots r -> ring_geom r' s.
Proof. intros [? ? ? ? ? ?] Hc Hm He Hs. constructor; rewrite ?Hc, ?Hm, ?He, ?Hs; done. Qed.

Section preservation.
Context (r : chan_ring_lf_t) (s : list byte) (g : ghost) (ths : list thread).
Context (I : inv r s g ths) (t : nat) (th : thread) (Ht : ths !! t = Some th).

Lemma inv_pos : 0 < capacity r <= 2147483648.
Proof using I. eapply geom_cap_range, inv_geom. exact I. Qed.

(** A step that touches only the thread's own locals. *)
Lemma inv_local th' :
  prod_run th' = prod_run th -> cons_run th' = cons_run th -> thread_inv r s g th' ->
  inv r s g (<[t := th']> ths).
Proof using I Ht.
  intros Hp Hc Hth. destruct I. constructor; try done; [by eapply runs_same..|].
  intros t2 th2 H. eapply update_cases in H as [[-> ->]|[? H]]; eauto.
Qed.

(** Facts about the other threads' runs that every stability argument uses. *)
Lemma other_prod t2 th2 i k :
  t2 <> t -> ths !! t2 = Some th2 -> prod_run th2 = Some (i, k) ->
  0 <= i /\ g_pt g <= i /\ i + k <= zlen (g_log g).
Proof using I.
  intros _ H2 Hr. destruct (runs_within _ _ _ _ (inv_prod _ _ _ _ I) _ _ _ _ H2 Hr) as (? & ? & ?).
  destruct (inv_order _ _ _ _ I). lia.
Qed.

Lemma other_cons t2 th2 i k :
  t2 <> t -> ths !! t2 = Some th2 -> cons_run th2 = Some (i, k) ->
  1 <= k /\ 0 <= i /\ g_ct g <= i /\ i + k <= g_ch g /\ i + k <= zlen (g_log g).
Proof using I.
  intros _ H2 Hr. destruct (runs_within _ _ _ _ (inv_cons _ _ _ _ I) _ _ _ _ H2 Hr) as (? & ? & ?).
  destruct (inv_order _ _ _ _ I). lia.
Qed.

(** A successful compare-and-swap on prod.head. *)
Lemma inv_prod_cas o ph k :
  t_pc th = PCas o ph k -> prod_head r = ph -> zlen (g_log g) - t_head th < two32 ->
  inv (set_prod_head (u32 (ph + k)) r) s
      (mk_ghost (g_log g ++ elems (elem_size r) (Z.to_nat k) (prod_data o)) (g_pt g) (g_ch g) (g_ct g))
      (<[t := goto th (PWrite o ph k)]> ths).
Proof using I Ht.
  intros Epc Eh Hfresh. pose proof inv_pos as Hcap.
  pose proof (inv_threads _ _ _ _ I _ _ Ht) as Hth. unfold thread_inv in Hth. rewrite Epc in Hth.
  destruct Hth as (Hok & Hk & Hph & Hhd & Htl & Hd & Hfree).
  destruct (inv_order _ _ _ _ I) as (Ho1 & Ho2). pose proof (inv_bound _ _ _ _ I) as Hb.
  assert (t_head th = zlen (g_log g)) as Eabs.
  { symmetry. apply u32_inj_window; [lia|]. rewrite <- (inv_ph _ _ _ _ I). congruence. }
  assert (k <= capacity r - (zlen (g_log g) - g_ct g)) as Hroom.
  { rewrite Eabs in Hfree, Hd. rewrite (u32_small (_ - t_tail th)) in Hfree by (unfold two32; lia).
    rewrite u32_small in Hfree by (unfold two32; lia). lia. }
  set (x := elems (elem_size r) (Z.to_nat k) (prod_data o)).
  assert (zlen x = k) as Hx by (unfold x, zlen; rewrite elems_length; lia).
  assert (forall p, g_ct g <= p < g_pt g -> log_at (g_log g ++ x) p = log_at (g_log g) p) as Hlog.
  { intros p Hp. apply log_at_prefix. lia. }
  constructor; simpl; rewrite ?zlen_app, ?Hx; try (apply I); try lia.
  - eapply geom_ext; [apply I|done..].
  - rewrite <- Eh, (inv_ph _ _ _ _ I). apply u32_add_l.
  - intros p Hp. simpl in *. rewrite Hlog by done. by apply (inv_stored _ _ _ _ I).
  - eapply runs_acquire; [apply I|done| | |lia|lia]; unfold prod_run, goto; simpl; [by rewrite Epc|].
    by rewrite Eabs.
  - eapply runs_same; [apply I|done|]. unfold cons_run, goto; simpl. by rewrite Epc.
  - intros t2 th2 H2. eapply update_cases in H2 as [[-> ->]|[Hn H2]]; [| |done].
    + unfold thread_inv, goto; simpl. split; [done|]. split; [lia|]. split; [done|].
      intros j Hj. simpl. rewrite Eabs, log_at_new by lia. apply log_at_elems. lia.
    + eapply (thread_stable r s g th2 _ _ _ x); simpl; try done; try lia.
      * by apply (inv_threads _ _ _ _ I t2).
      * intros i k2 Hr. destruct (other_prod t2 th2 i k2 Hn H2 Hr) as (? & ? & ?). done.
      * intros i k2 Hr. destruct (other_cons t2 th2 i k2 Hn H2 Hr) as (? & ? & ? & ? & ?). lia.
Qed.

(** Phase 2 of a producer: in bounds, and only its own run of slots changes. *)
Lemma inv_prod_write o ph k :
  t_pc th = PWrite o ph k ->
  exists r' s', prod_write r o ph k = Ret r' /\
    inv r' s' g (<[t := goto th (PWait o ph k)]> ths).
Proof using I Ht.
  intros Epc. pose proof inv_pos as Hcap.
  pose proof (inv_threads _ _ _ _ I _ _ Ht) as Hth. unfold thread_inv in Hth. rewrite Epc in Hth.
  destruct Hth as (Hok & Hk & Hph & Hin).
  destruct (inv_order _ _ _ _ I) as (Ho1 & Ho2). pose proof (inv_bound _ _ _ _ I) as Hb.
  assert (prod_run th = Some (t_head th, k)) as Hrun by (unfold prod_run; by rewrite Epc).
  destruct (runs_within _ _ _ _ (inv_prod _ _ _ _ I) _ _ _ _ Ht Hrun) as (Hlo & Hk1 & Hhi).
  assert (k * elem_size r <= zlen (prod_data o)) as Hdata.
  { unfold prod_ok in Hok. pose proof (geom_es _ _ (inv_geom _ _ _ _ I)).
    apply andb_true_iff in Hok as [_ Hok]. apply Z.leb_le in Hok. nia. }
  assert (exists s', prod_write r o ph k = Ret (set_slots (Some s') r) /\
            written r s (t_head th) k (prod_data o) s') as (s' & E & (Hl & Hnew & Hold)).
  { unfold prod_write. subst ph. destruct o as [d|d n]; simpl in *.
    - assert (k = 1) as -> by lia. apply write_slot_ok; [apply I|lia].
    - apply write_run_ok; [apply I|lia|done]. }
  exists (set_slots (Some s') r), s'. split; [done|].
  assert (forall p, g_ct g <= p < zlen (g_log g) -> ~ t_head th <= p < t_head th + k ->
            slot_at r s' p = slot_at r s p) as Hkeep.
  { intros p Hp Hn. apply Hold; [lia|done]. }
  constructor; simpl; try (apply I).
  - apply geom_set_slots with s; [apply I|done].
  - intros p Hp. rewrite <- (inv_stored _ _ _ _ I p Hp). apply Hkeep; lia.
  - eapply runs_same; [apply I|done|]. unfold prod_run, goto; simpl. by rewrite Epc.
  - eapply runs_same; [apply I|done|]. unfold cons_run, goto; simpl. by rewrite Epc.
  - intros t2 th2 H2. eapply update_cases in H2 as [[-> ->]|[Hn H2]]; [| |done].
    + unfold thread_inv, goto; simpl. split; [done|]. split; [done|]. intros p Hp.
      replace p with (t_head th + (p - t_head th)) by lia.
      change (slot_at r s' (t_head th + (p - t_head th)) = log_at (g_log g) (t_head th + (p - t_head th))).
      rewrite Hnew, Hin by lia. done.
    + eapply (thread_stable r s g th2 _ _ _ []); simpl; try done; try lia.
      * by apply (inv_threads _ _ _ _ I t2).
      * by rewrite app_nil_r.
      * intros i k2 Hr. destruct (other_prod t2 th2 i k2 Hn H2 Hr) as (? & ? & ?).
        do 3 (split; [done|]). intros p Hp.
        destruct (runs_disjoint _ _ _ _ (inv_prod _ _ _ _ I) _ _ _ _ _ _ _ _ Hn H2 Ht Hr Hrun);
          apply Hkeep; lia.
      * intros i k2 Hr. destruct (other_cons t2 th2 i k2 Hn H2 Hr) as (? & ? & ? & ? & ?). lia.
Qed.

(** The store to prod.tail. *)
Lemma inv_prod_store o ph k :
  t_pc th = PStore o ph k ->
  inv (set_prod_tail (u32 (ph + k)) r) s (mk_ghost (g_log g) (g_pt g + k) (g_ch g) (g_ct g))
      (<[t := goto th (PRet k)]> ths).
Proof using I Ht.
  intros Epc.
  pose proof (inv_threads _ _ _ _ I _ _ Ht) as Hth. unfold thread_inv in Hth. rewrite Epc in Hth.
  destruct Hth as (Hph & Hin & Hst & Hpt).
  destruct (inv_order _ _ _ _ I) as (Ho1 & Ho2).
  assert (prod_run th = Some (g_pt g, k)) as Hrun by (unfold prod_run; rewrite Epc, Hpt; done).
  destruct (runs_within _ _ _ _ (inv_prod _ _ _ _ I) _ _ _ _ Ht Hrun) as (Hlo & Hk1 & Hhi).
  constructor; simpl; try (apply I); try lia.
  - eapply geom_ext; [apply I|done..].
  - rewrite Hph, <- Hpt. apply u32_add_l.
  - intros p Hp. simpl in *. destruct (Z.lt_ge_cases p (g_pt g)).
    + apply (inv_stored _ _ _ _ I); lia.
    + apply Hst. lia.
  - eapply runs_release; [apply I|done|done|done].
  - eapply runs_same; [apply I|done|]. unfold cons_run, goto; simpl. by rewrite Epc.
  - intros t2 th2 H2. eapply update_cases in H2 as [[-> ->]|[Hn H2]]; [done| |done].
    eapply (thread_stable r s g th2 _ _ _ []); simpl; try done; try lia.
    + by apply (inv_threads _ _ _ _ I t2).
    + by rewrite app_nil_r.
    + intros i k2 Hr. destruct (other_prod t2 th2 i k2 Hn H2 Hr) as (? & ? & ?).
      destruct (runs_within _ _ _ _ (inv_prod _ _ _ _ I) _ _ _ _ H2 Hr) as (? & ? & ?).
      do 2 (split; [done|]). split; [|done].
      destruct (runs_disjoint _ _ _ _ (inv_prod _ _ _ _ I) _ _ _ _ _ _ _ _ Hn H2 Ht Hr Hrun); lia.
    + intros i k2 Hr. destruct (other_cons t2 th2 i k2 Hn H2 Hr) as (? & ? & ? & ? & ?). lia.
Qed.

(** A successful compare-and-swap on cons.head. *)
Lemma inv_cons_cas o ch k :
  t_pc th = CCas o ch k -> cons_head r = ch -> g_pt g - t_head th < two32 ->
  k <= g_pt g - g_ch g /\
  inv (set_cons_head (u32 (ch + k)) r) s (mk_ghost (g_log g) (g_pt g) (g_ch g + k) (g_ct g))
      (<[t := mk_thread (CRead o ch k) (t_head th) (t_tail th) (log_run (g_log g) (g_ch g) k)]> ths).
Proof using I Ht.
  intros Epc Eh Hfresh. pose proof inv_pos as Hcap.
  pose proof (inv_threads _ _ _ _ I _ _ Ht) as Hth. unfold thread_inv in Hth. rewrite Epc in Hth.
  destruct Hth as (Hok & Hk & Hch & Hhd & Htl & Hav).
  destruct (inv_order _ _ _ _ I) as (Ho1 & Ho2). pose proof (inv_bound _ _ _ _ I) as Hb.
  assert (t_head th = g_ch g) as Eabs.
  { symmetry. apply u32_inj_window; [lia|]. rewrite <- (inv_ch _ _ _ _ I). congruence. }
  rewrite u32_small in Hav by (unfold two32; lia).
  split; [lia|]. constructor; simpl; try (apply I); try lia.
  - eapply geom_ext; [apply I|done..].
  - rewrite <- Eh, (inv_ch _ _ _ _ I). apply u32_add_l.
  - eapply runs_same; [apply I|done|]. unfold prod_run; simpl. by rewrite Epc.
  - eapply runs_acquire; [apply I|done| | |lia|lia]; unfold cons_run; simpl; [by rewrite Epc|].
    by rewrite Eabs.
  - intros t2 th2 H2. eapply update_cases in H2 as [[-> ->]|[Hn H2]]; [| |done].
    + unfold thread_inv; simpl. split; [done|]. split; [lia|]. split; [done|]. by rewrite Eabs.
    + eapply (thread_stable r s g th2 _ _ _ []); simpl; try done; try lia.
      * by apply (inv_threads _ _ _ _ I t2).
      * by rewrite app_nil_r.
      * intros i k2 Hr. destruct (other_prod t2 th2 i k2 Hn H2 Hr) as (? & ? & ?). done.
      * intros i k2 Hr. destruct (other_cons t2 th2 i k2 Hn H2 Hr) as (? & ? & ? & ? & ?). lia.
Qed.

(** Phase 2 of a consumer: in bounds, and it reads the elements it claimed. *)
Lemma inv_cons_read o ch k :
  t_pc th = CRead o ch k ->
  exists out, cons_read r o ch k = Ret out /\
    inv r s g (<[t := goto th (CWait out ch k)]> ths).
Proof using I Ht.
  intros Epc. pose proof inv_pos as Hcap.
  pose proof (inv_threads _ _ _ _ I _ _ Ht) as Hth. unfold thread_inv in Hth. rewrite Epc in Hth.
  destruct Hth as (Hok & Hk & Hch & Hgot).
  destruct (inv_order _ _ _ _ I) as (Ho1 & Ho2). pose proof (inv_bound _ _ _ _ I) as Hb.
  assert (cons_run th = Some (t_head th, k)) as Hrun by (unfold cons_run; by rewrite Epc).
  destruct (runs_within _ _ _ _ (inv_cons _ _ _ _ I) _ _ _ _ Ht Hrun) as (Hlo & Hk1 & Hhi).
  assert (k * elem_size r <= zlen (cons_out o)) as Hdata.
  { unfold cons_ok in Hok. pose proof (geom_es _ _ (inv_geom _ _ _ _ I)).
    apply andb_true_iff in Hok as [_ Hok]. apply Z.leb_le in Hok. nia. }
  assert (exists out, cons_read r o ch k = Ret out /\
            copied_out r s (t_head th) k (cons_out o) out) as (out & E & (Hl & Hc & _)).
  { unfold cons_read. subst ch. destruct o as [d|d n]; simpl in *.
    - assert (k = 1) as -> by lia. apply read_slot_ok; [apply I|lia].
    - apply read_run_ok; [apply I|lia|done]. }
  exists out. split; [done|]. apply inv_local; unfold prod_run, cons_run, goto; simpl; try (by rewrite Epc).
  unfold thread_inv; simpl. split; [done|]. rewrite Hgot. apply log_run_elems; try lia.
  intros j Hj. rewrite Hc by done. apply (inv_stored _ _ _ _ I). lia.
Qed.

(** The store to cons.tail. *)
Lemma inv_cons_store out ch k :
  t_pc th = CStore out ch k ->
  inv (set_cons_tail (u32 (ch + k)) r) s (mk_ghost (g_log g) (g_pt g) (g_ch g) (g_ct g + k))
      (<[t := goto th (CRet k out)]> ths).
Proof using I Ht.
  intros Epc.
  pose proof (inv_threads _ _ _ _ I _ _ Ht) as Hth. unfold thread_inv in Hth. rewrite Epc in Hth.
  destruct Hth as (Hch & Hel & Hct).
  destruct (inv_order _ _ _ _ I) as (Ho1 & Ho2). pose proof (inv_bound _ _ _ _ I).
  assert (cons_run th = Some (g_ct g, k)) as Hrun by (unfold cons_run; rewrite Epc, Hct; done).
  destruct (runs_within _ _ _ _ (inv_cons _ _ _ _ I) _ _ _ _ Ht Hrun) as (Hlo & Hk1 & Hhi).
  constructor; simpl; try (apply I); try lia.
  - eapply geom_ext; [apply I|done..].
  - rewrite Hch, <- Hct. apply u32_add_l.
  - intros p Hp. simpl in *. apply (inv_stored _ _ _ _ I); lia.
  - eapply runs_same; [apply I|done|]. unfold prod_run, goto; simpl. by rewrite Epc.
  - eapply runs_release; [apply I|done|done|done].
  - intros t2 th2 H2. eapply update_cases in H2 as [[-> ->]|[Hn H2]]; [done| |done].
    eapply (thread_stable r s g th2 _ _ _ []); simpl; try done; try lia.
    + by apply (inv_threads _ _ _ _ I t2).
    + by rewrite app_nil_r.
    + intros i k2 Hr. destruct (other_prod t2 th2 i k2 Hn H2 Hr) as (? & ? & ?). done.
    + intros i k2 Hr. destruct (other_cons t2 th2 i k2 Hn H2 Hr) as (? & ? & ? & ? & ?).
      do 3 (split; [lia|]).
      destruct (runs_disjoint _ _ _ _ (inv_cons _ _ _ _ I) _ _ _ _ _ _ _ _ Hn H2 Ht Hr Hrun); lia.
Qed.
End preservation.

(** The two loads and the check of Phase 1. *)
Lemma prod_reserve_inv r s g ths o th k :
  inv r s g ths -> prod_ok (elem_size r) o = true -> 0 < prod_max o ->
  0 <= t_head th <= zlen (g_log g) ->
  prod_reserve r o (u32 (t_head th)) (cons_tail r) = Some k ->
  1 <= k <= prod_max o /\ k <= u32 (capacity r - u32 (t_head th - g_ct g)) /\
  t_head th - g_ct g <= capacity r.
Proof.
  intros I Hok Hm Hh. pose proof (inv_pos _ _ _ _ I). pose proof (inv_bound _ _ _ _ I).
  pose proof (u32_range (t_head th - g_ct g)).
  unfold prod_reserve. rewrite (inv_ct _ _ _ _ I), u32_sub. destruct o as [d|d n]; simpl in *.
  - rewrite Z.geb_leb. case_test; [done|]. intros [= <-].
    rewrite (u32_small (capacity r - _)) by (unfold two32; lia). lia.
  - case_test; [done|]. intros [= <-]. pose proof (u32_range (capacity r - u32 (t_head th - g_ct g))).
    case_test; lia.
Qed.

Lemma cons_reserve_inv r s g ths o th k :
  inv r s g ths -> cons_ok (elem_size r) o = true -> 0 < cons_max o ->
  0 <= t_head th <= g_ch g ->
  cons_reserve o (u32 (t_head th)) (prod_tail r) = Some k ->
  1 <= k <= cons_max o /\ k <= u32 (g_pt g - t_head th).
Proof.
  intros I Hok Hm Hh. pose proof (u32_range (g_pt g - t_head th)).
  unfold cons_reserve. rewrite (inv_pt _ _ _ _ I). destruct o as [d|d n]; simpl in *.
  - case_test; [done|]. intros [= <-]. split; [lia|].
    assert (u32 (g_pt g - t_head th) <> 0) as Hne; [|lia]. intros H0.
    rewrite <- u32_sub in H0. pose proof (u32_range (g_pt g)). pose proof (u32_range (t_head th)). wrap_lia.
  - rewrite u32_sub. case_test; [done|]. intros [= <-]. case_test; lia.
Qed.

Definition minv (m : mpmc) : Prop := exists s, inv (m_ring m) s (m_g m) (m_thr m).

Lemma go_inv r s g ths t th r' g' th' :
  inv r s g ths -> ths !! t = Some th -> fresh_thread g th = true ->
  go r g th = Some (r', g', th') -> exists s', inv r' s' g' (<[t := th']> ths).
Proof.
  intros I Ht Hf Hgo. pose proof (inv_threads _ _ _ _ I _ _ Ht) as Hth.
  destruct (inv_order _ _ _ _ I) as (Ho1 & Ho2).
  unfold go in Hgo. unfold fresh_thread in Hf. unfold thread_inv in Hth.
  destruct (t_pc th) as [|o|o ph|o ph k|o ph k|o ph k|o ph k|k|o|o ch|o ch k|o ch k|out ch k|out ch k|k out|] eqn:Epc;
    try done; rewrite ?Z.ltb_lt in Hf.
  - (* PLoadHead *) simplify_eq. exists s. eapply inv_local; try done; try (unfold prod_run, cons_run; by rewrite Epc).
    unfold thread_inv; simpl. rewrite (inv_ph _ _ _ _ I). intuition lia.
  - (* PLoadTail *) destruct Hth as (? & ? & -> & ?).
    destruct (prod_reserve r o (u32 (t_head th)) (cons_tail r)) as [k|] eqn:E; simplify_eq; exists s;
      eapply inv_local; try done; try (unfold prod_run, cons_run; by rewrite Epc).
    unfold thread_inv; simpl. edestruct prod_reserve_inv as (? & ? & ?); eauto. intuition lia.
  - (* PCas *) case_match eqn:E; simplify_eq.
    + apply Z.eqb_eq in E. exists s. by apply inv_prod_cas.
    + exists s. eapply inv_local; try done; try (unfold prod_run, cons_run; by rewrite Epc).
      unfold thread_inv; simpl. intuition lia.
  - (* PWrite *) destruct (inv_prod_write _ _ _ _ I _ _ Ht _ _ _ Epc) as (r1 & s1 & E & I').
    rewrite E in Hgo. simplify_eq. eauto.
  - (* PWait *) case_match eqn:E; simplify_eq; exists s; (eapply inv_local; try done;
      try (unfold prod_run, cons_run; by rewrite Epc)).
    unfold thread_inv; simpl. destruct Hth as (Hph & Hin & Hst). do 3 (split; [done|]).
    apply Z.eqb_eq in E. rewrite (inv_pt _ _ _ _ I), Hph in E.
    assert (prod_run th = Some (t_head th, k)) as Hr by (unfold prod_run; by rewrite Epc).
    destruct (runs_within _ _ _ _ (inv_prod _ _ _ _ I) _ _ _ _ Ht Hr) as (? & ? & ?).
    pose proof (inv_bound _ _ _ _ I). pose proof (inv_pos _ _ _ _ I).
    apply u32_inj_window; [unfold two32; lia|done].
  - (* PStore *) simplify_eq. exists s. by apply (inv_prod_store _ _ _ _ I _ _ Ht o).
  - (* CLoadHead *) simplify_eq. exists s. eapply inv_local; try done; try (unfold prod_run, cons_run; by rewrite Epc).
    unfold thread_inv; simpl. rewrite (inv_ch _ _ _ _ I). intuition lia.
  - (* CLoadTail *) destruct Hth as (? & ? & -> & ?).
    destruct (cons_reserve o (u32 (t_head th)) (prod_tail r)) as [k|] eqn:E; simplify_eq; exists s;
      eapply inv_local; try done; try (unfold prod_run, cons_run; by rewrite Epc).
    unfold thread_inv; simpl. edestruct cons_reserve_inv as (? & ?); eauto. intuition lia.
  - (* CCas *) case_match eqn:E; simplify_eq.
    + apply Z.eqb_eq in E. exists s. by apply (inv_cons_cas _ _ _ _ I _ _ Ht).
    + exists s. eapply inv_local; try done; try (unfold prod_run, cons_run; by rewrite Epc).
      unfold thread_inv; simpl. intuition lia.
  - (* CRead *) destruct (inv_cons_read _ _ _ _ I _ _ Ht _ _ _ Epc) as (out & E & I').
    rewrite E in Hgo. simplify_eq. eauto.
  - (* CWait *) case_match eqn:E; simplify_eq; exists s; (eapply inv_local; try done;
      try (unfold prod_run, cons_run; by rewrite Epc)).
    unfold thread_inv; simpl. destruct Hth as (Hph & Hel). do 2 (split; [done|]).
    apply Z.eqb_eq in E. rewrite (inv_ct _ _ _ _ I), Hph in E.
    assert (cons_run th = Some (t_head th, k)) as Hr by (unfold cons_run; by rewrite Epc).
    destruct (runs_within _ _ _ _ (inv_cons _ _ _ _ I) _ _ _ _ Ht Hr) as (? & ? & ?).
    pose proof (inv_bound _ _ _ _ I). pose proof (inv_pos _ _ _ _ I).
    apply u32_inj_window; [unfold two32; lia|done].
  - (* CStore *) simplify_eq. exists s. by apply (inv_cons_store _ _ _ _ I _ _ Ht).
Qed.

Lemma fstep_inv l m m' : minv m -> fstep l m = Some m' -> minv m'.
Proof.
  intros [s I] H. destruct l as [t a]. unfold fstep in H. simpl in H.
  destruct (m_thr m !! t) as [th|] eqn:Ht; [|done].
  destruct (fresh_thread (m_g m) th) eqn:Hf; [|done].
  pose proof (inv_threads _ _ _ _ I _ _ Ht) as Hth.
  destruct a; destruct (t_pc th) eqn:Epc; try done; repeat case_match; simplify_eq; try done;
    try (edestruct go_inv as [s' ?]; [exact I|exact Ht|done|eassumption|]; by exists s');
    exists s; simpl; (eapply inv_local; try done; try (unfold prod_run, cons_run; simpl; by rewrite Epc));
    unfold thread_inv in *; simpl; rewrite ?Epc in *; try done.
  all: try (split; [done|]).
  all: try (match goal with H : (_ =? 0) = false |- _ => apply Z.eqb_neq in H end;
            match goal with H : prod_ok _ _ = true |- _ => unfold prod_ok in H
                          | H : cons_ok _ _ = true |- _ => unfold cons_ok in H end;
            repeat match goal with H : _ && _ = true |- _ => apply andb_true_iff in H as [? ?] end; lia).
  all: intuition lia.
Qed.

Lemma minv_init r n s : ring_view r s 0 [] -> minv (mpmc_init r n).
Proof.
  intros [G ? ? ? ? ? ?]. exists s. pose proof (geom_cap_range _ _ G).
  assert (forall t th, replicate n (mk_thread Idle 0 0 []) !! t = Some th -> th = mk_thread Idle 0 0 []) as Hrep.
  { intros t th Hl. by apply lookup_replicate in Hl as [-> _]. }
  constructor; simpl; try done; try (change (zlen []) with 0; lia).
  - intros p Hp. simpl in Hp. lia.
  - split; [intros t th i k Hl%Hrep; by subst | intros ? ? ? ? ? ? ? ? ? Hl%Hrep; by subst|].
    change (zlen []) with 0. lia.
  - split; [intros t th i k Hl%Hrep; by subst | intros ? ? ? ? ? ? ? ? ? Hl%Hrep; by subst|]. lia.
  - intros t th Hl%Hrep. by subst.
Qed.

Lemma reachable_inv r n m s : ring_view r s 0 [] -> reachable r n m -> minv m.
Proof.
  intros V (ls & Hr). eapply run_invariant; [|by eapply minv_init|exact Hr].
  intros l a b. apply fstep_inv.
Qed.

(** ** The abstract queue the ring implements *)

Inductive qlabel :=
| QTau
| QEnq (es : list (list byte))
| QDeq (es : list (list byte)).

(** A bounded FIFO queue: elements enter at the back, at most [cap] at a time in
    the queue, and leave from the front. *)
Inductive qstep (cap : Z) : list (list byte) -> qlabel -> list (list byte) -> Prop :=
| q_tau q : qstep cap q QTau q
| q_enq q es : zlen (q ++ es) <= cap -> qstep cap q (QEnq es) (q ++ es)
| q_deq q es : qstep cap (es ++ q) (QDeq es) q.

Inductive qsteps (cap : Z) : list (list byte) -> list qlabel -> list (list byte) -> Prop :=
| qs_nil q : qsteps cap q [] q
| qs_cons q l q1 ls q2 : qstep cap q l q1 -> qsteps cap q1 ls q2 -> qsteps cap q (l :: ls) q2.

(** The linearization point of an operation: a producer's store to prod.tail
    enqueues the elements of its argument, a consumer's successful
    compare-and-swap on cons.head dequeues the elements recorded in [t_got]. *)
Definition lin (l : nat * action) (m m' : mpmc) : qlabel :=
  match m_thr m !! l.1, m_thr m' !! l.1, l.2 with
  | Some th, Some th', Go =>
      match t_pc th, t_pc th' with
      | PStore o _ k, _ => QEnq (elems (elem_size (m_ring m)) (Z.to_nat k) (prod_data o))
      | CCas _ _ _, CRead _ _ _ => QDeq (t_got th')
      | _, _ => QTau
      end
  | _, _, _ => QTau
  end.

Fixpoint lins (ls : list (nat * action)) (m : mpmc) : list qlabel :=
  match ls with
  | [] => []
  | l :: ls => match fstep l m with
               | Some m' => lin l m m' :: lins ls m'
               | None => []
               end
  end.

Lemma queue_eq r ths ths' g : queue (mk_mpmc r ths g) = queue (mk_mpmc r ths' g).
Proof. done. Qed.

Lemma queue_enqueue log pt ch k :
  0 <= ch <= pt -> 0 <= k -> pt + k <= zlen log ->
  log_run log ch (pt + k - ch) = log_run log ch (pt - ch) ++ log_run log pt k.
Proof.
  intros. replace (pt + k - ch) with ((pt - ch) + k) by lia.
  rewrite log_run_split by lia. by replace (ch + (pt - ch)) with pt by lia.
Qed.

Lemma queue_dequeue log pt ch k :
  0 <= ch -> 0 <= k -> ch + k <= pt ->
  log_run log ch (pt - ch) = log_run log ch k ++ log_run log (ch + k) (pt - (ch + k)).
Proof.
  intros. replace (pt - ch) with (k + (pt - (ch + k))) by lia. by rewrite log_run_split by lia.
Qed.

(** A step that moves neither prod.tail nor cons.head leaves the queue alone. *)
Lemma go_tau r g th r' g' th' :
  go r g th = Some (r', g', th') ->
  (forall o ph k, t_pc th <> PStore o ph k) ->
  (forall o ch k, t_pc th = CCas o ch k -> cons_head r <> ch) ->
  g_pt g' = g_pt g /\ g_ch g' = g_ch g /\ exists x, g_log g' = g_log g ++ x.
Proof.
  intros Hgo H1 H2. unfold go in Hgo. destruct (t_pc th) eqn:Epc; try done; repeat case_match; simplify_eq;
    try (by exfalso; eapply H1); try (exfalso; eapply H2; [done|]; by apply Z.eqb_eq);
    simpl; (split; [done|]; split; [done|]); try (by exists []; rewrite app_nil_r); eauto.
Qed.

Lemma fstep_refines l m m' :
  minv m -> fstep l m = Some m' -> qstep (capacity (m_ring m)) (queue m) (lin l m m') (queue m').
Proof.
  intros [s I] H. destruct (id I) as [_ _ _ _ _ (Ho1 & Ho2) Hb _ Hruns _ Hths].
  destruct l as [t a]. unfold fstep in H. simpl in H.
  destruct (m_thr m !! t) as [th|] eqn:Ht; [|done].
  destruct (fresh_thread (m_g m) th) eqn:Hf; [|done].
  assert (forall q, queue m = q -> qstep (capacity (m_ring m)) (queue m) QTau q) as Htau.
  { intros q <-. constructor. }
  unfold lin. simpl. rewrite Ht.
  destruct a; try (destruct (t_pc th); try done; repeat case_match; simplify_eq; by apply Htau).
  destruct (go (m_ring m) (m_g m) th) as [[[r' g'] th']|] eqn:Hgo; [|by destruct (t_pc th)].
  assert (m' = mk_mpmc r' (<[t := th']> (m_thr m)) g') as -> by (destruct (t_pc th); by simplify_eq).
  simpl. rewrite list_lookup_insert_eq by (by eapply lookup_lt_Some).
  pose proof (Hths _ _ Ht) as Hth. unfold thread_inv in Hth.
  assert ((exists o ph k, t_pc th = PStore o ph k) \/ (exists o ch k, t_pc th = CCas o ch k /\ cons_head (m_ring m) = ch) \/
    ((forall o ph k, t_pc th <> PStore o ph k) /\ (forall o ch k, t_pc th = CCas o ch k -> cons_head (m_ring m) <> ch))) as Hcases.
  { destruct (t_pc th) as [| | | | | |o ph k| | | |o ch k| | | | |]; try (right; right; split; congruence); [left; eauto|].
    destruct (Z.eq_dec (cons_head (m_ring m)) ch); [right; left; eauto 6|right; right; split; congruence]. }
  destruct Hcases as [(o & ph & k & Epc)|[(o & ch & k & Epc & Ech)|[Hn1 Hn2]]].
  - rewrite Epc in *. unfold go in Hgo. rewrite Epc in Hgo. simplify_eq.
    destruct Hth as (_ & Hin & _ & Hpt).
    assert (prod_run th = Some (g_pt (m_g m), k)) as Hr by (unfold prod_run; rewrite Epc, Hpt; done).
    destruct (runs_within _ _ _ _ Hruns _ _ _ _ Ht Hr) as (? & ? & ?).
    assert (elems (elem_size (m_ring m)) (Z.to_nat k) (prod_data o) = log_run (g_log (m_g m)) (g_pt (m_g m)) k) as ->.
    { apply log_run_elems; try lia. intros j Hj. rewrite Hpt. symmetry. by apply Hin. }
    unfold queue; simpl. rewrite queue_enqueue by lia. constructor.
    rewrite <- queue_enqueue by lia. rewrite log_run_length by lia. lia.
  - unfold fresh_thread in Hf. rewrite Epc in Hf. rewrite Z.ltb_lt in Hf.
    destruct (inv_cons_cas _ _ _ _ I _ _ Ht _ _ _ Epc Ech Hf) as (Hk & _).
    rewrite Epc in *. destruct Hth as (_ & Hk1 & _).
    unfold go in Hgo. rewrite Epc in Hgo. rewrite (proj2 (Z.eqb_eq _ _) Ech) in Hgo. simplify_eq. simpl.
    unfold queue; simpl. rewrite (queue_dequeue _ (g_pt (m_g m)) (g_ch (m_g m)) k) by lia. constructor.
  - destruct (go_tau _ _ _ _ _ _ Hgo Hn1 Hn2) as (Ept & Ech & x & El).
    assert (queue m = queue (mk_mpmc r' (<[t := th']> (m_thr m)) g')) as Eq.
    { unfold queue; simpl. rewrite Ept, Ech, El, log_run_prefix by lia. done. }
    destruct (t_pc th) eqn:Epc; try (by apply Htau); [by exfalso; eapply Hn1|].
    destruct (t_pc th') eqn:Epc'; try (by apply Htau). exfalso.
    unfold go in Hgo. rewrite Epc in Hgo. case_match eqn:E; simplify_eq.
    eapply Hn2; [done|]. by apply Z.eqb_eq.
Qed.

Lemma fstep_shape l m m' :
  fstep l m = Some m' -> capacity (m_ring m') = capacity (m_ring m) /\ elem_size (m_ring m') = elem_size (m_ring m).
Proof.
  unfold fstep. destruct l as [t a]. simpl. destruct (m_thr m !! t) as [th|]; [|done].
  case_match; [|done]. intros Hs.
  assert (forall r', (exists o ph k, prod_write (m_ring m) o ph k = Ret r') ->
            capacity r' = capacity (m_ring m) /\ elem_size r' = elem_size (m_ring m)) as Hw.
  { intros r' (o & ph & k & E). destruct o; simpl in E; unfold write_slot, write_run in E;
      repeat case_match; inv_ret; done. }
  destruct a; destruct (t_pc th) eqn:Epc; try done; unfold go in Hs; rewrite ?Epc in Hs;
    repeat case_match; simplify_eq; try done.
  eapply Hw. eauto.
Qed.

Lemma lins_refine ls m m' :
  minv m -> run fstep ls m = Some m' -> qsteps (capacity (m_ring m)) (queue m) (lins ls m) (queue m').
Proof.
  revert m. induction ls as [|l ls IH]; intros m I Hr; simpl in *; [simplify_eq; constructor|].
  destruct (fstep l m) as [m1|] eqn:E; [|done].
  econstructor; [by apply fstep_refines|].
  rewrite <- (proj1 (fstep_shape _ _ _ E)). apply IH; [by eapply fstep_inv|done].
Qed.

(** The positions whose slot a thread may be copying. *)
Definition owns (th : thread) (p : Z) : Prop :=
  exists i k, (prod_run th = Some (i, k) \/ cons_run th = Some (i, k)) /\ i <= p < i + k.

Lemma owns_window m s t th p :
  inv (m_ring m) s (m_g m) (m_thr m) -> m_thr m !! t = Some th -> owns th p ->
  g_ct (m_g m) <= p < g_ct (m_g m) + capacity (m_ring m).
Proof.
  intros I Ht (i & k & [Hr|Hr] & Hp); destruct (inv_order _ _ _ _ I) as (? & ?);
    pose proof (inv_bound _ _ _ _ I).
  - destruct (runs_within _ _ _ _ (inv_prod _ _ _ _ I) _ _ _ _ Ht Hr). lia.
  - destruct (runs_within _ _ _ _ (inv_cons _ _ _ _ I) _ _ _ _ Ht Hr). lia.
Qed.

Lemma owns_distinct m s t1 t2 th1 th2 p1 p2 :
  inv (m_ring m) s (m_g m) (m_thr m) -> t1 <> t2 ->
  m_thr m !! t1 = Some th1 -> m_thr m !! t2 = Some th2 -> owns th1 p1 -> owns th2 p2 -> p1 <> p2.
Proof.
  intros I Hn H1 H2 (i1 & k1 & Hr1 & Hp1) (i2 & k2 & Hr2 & Hp2). destruct (inv_order _ _ _ _ I) as (? & ?).
  pose proof (runs_within _ _ _ _ (inv_prod _ _ _ _ I)) as WP.
  pose proof (runs_within _ _ _ _ (inv_cons _ _ _ _ I)) as WC.
  destruct Hr1 as [Hr1|Hr1], Hr2 as [Hr2|Hr2].
  - destruct (runs_disjoint _ _ _ _ (inv_prod _ _ _ _ I) _ _ _ _ _ _ _ _ Hn H1 H2 Hr1 Hr2); lia.
  - destruct (WP _ _ _ _ H1 Hr1) as (? & ? & ?), (WC _ _ _ _ H2 Hr2) as (? & ? & ?). lia.
  - destruct (WC _ _ _ _ H1 Hr1) as (? & ? & ?), (WP _ _ _ _ H2 Hr2) as (? & ? & ?). lia.
  - destruct (runs_disjoint _ _ _ _ (inv_cons _ _ _ _ I) _ _ _ _ _ _ _ _ Hn H1 H2 Hr1 Hr2); lia.
Qed.







Lemma failed_cons_empty m t th o ch m' th' :
  minv m -> m_thr m !! t = Some th -> t_pc th = CLoadTail o ch ->
  fstep (t, Go) m = Some m' -> m_thr m' !! t = Some th' -> t_pc th' = CRet 0 (cons_out o) ->
  queue m = [].
Proof.
  intros [s I] Ht Epc H Ht' Epc'. unfold fstep in H. simpl in H. rewrite Ht in H.
  destruct (fresh_thread (m_g m) th) eqn:Hf; [|done]. unfold fresh_thread in Hf. rewrite Epc in *.
  apply Z.ltb_lt in Hf. pose proof (inv_threads _ _ _ _ I _ _ Ht) as Hth. unfold thread_inv in Hth.
  rewrite Epc in Hth. destruct Hth as (Hok & Hm & -> & Hh). destruct (inv_order _ _ _ _ I) as (? & ?).
  assert (g_pt (m_g m) = t_head th) as E.
  { apply u32_inj_window; [lia|]. rewrite <- (inv_pt _ _ _ _ I).
    unfold go in H. rewrite Epc in H. unfold cons_reserve in H.
    rewrite (inv_pt _ _ _ _ I) in *. destruct o as [b|b n]; simpl in *.
    - destruct (Z.eqb_spec (u32 (g_pt (m_g m))) (u32 (t_head th))); [done|]. exfalso. simplify_eq; simpl in *.
      rewrite list_lookup_insert_eq in Ht' by (by eapply lookup_lt_Some). by simplify_eq.
    - destruct (Z.eqb_spec (u32 (u32 (g_pt (m_g m)) - u32 (t_head th))) 0) as [E0|].
      + pose proof (u32_range (g_pt (m_g m))). pose proof (u32_range (t_head th)). wrap_lia.
      + exfalso. simplify_eq; simpl in *.
        rewrite list_lookup_insert_eq in Ht' by (by eapply lookup_lt_Some). by simplify_eq. }
  unfold queue. replace (g_pt (m_g m) - g_ch (m_g m)) with 0 by lia. done.
Qed.

Lemma failed_prod_full m t th o ph m' th' :
  minv m -> m_thr m !! t = Some th -> t_pc th = PLoadTail o ph ->
  fstep (t, Go) m = Some m' -> m_thr m' !! t = Some th' -> t_pc th' = PRet 0 ->
  zlen (g_log (m_g m)) - g_ct (m_g m) = capacity (m_ring m) \/
  t_head th < g_ct (m_g m) /\
    ((exists d, o = Push d) \/ t_head th + two32 = g_ct (m_g m) + capacity (m_ring m)).
Proof.
  intros [s I] Ht Epc H Ht' Epc'. unfold fstep in H. simpl in H. rewrite Ht in H.
  destruct (fresh_thread (m_g m) th) eqn:Hf; [|done]. unfold fresh_thread in Hf. rewrite Epc in *.
  apply Z.ltb_lt in Hf. pose proof (inv_threads _ _ _ _ I _ _ Ht) as Hth. unfold thread_inv in Hth.
  rewrite Epc in Hth. destruct Hth as (Hok & Hm & -> & Hh). destruct (inv_order _ _ _ _ I) as (? & ?).
  pose proof (inv_bound _ _ _ _ I). pose proof (inv_pos _ _ _ _ I).
  assert (prod_reserve (m_ring m) o (u32 (t_head th)) (cons_tail (m_ring m)) = None) as E.
  { unfold go in H. rewrite Epc in H. destruct (prod_reserve _ _ _ _) as [k|]; [|done]. exfalso. simplify_eq; simpl in *.
    rewrite list_lookup_insert_eq in Ht' by (by eapply lookup_lt_Some). by simplify_eq. }
  unfold prod_reserve in E. rewrite (inv_ct _ _ _ _ I), u32_sub in E.
  destruct (Z.lt_ge_cases (t_head th) (g_ct (m_g m))).
  - right. split; [done|]. destruct o as [d|d n]; [left; by eexists|].
    right. case_match eqn:E0; [|done]. apply Z.eqb_eq in E0. wrap_lia.
  - left. rewrite (u32_small (t_head th - g_ct (m_g m))) in E by (unfold two32; lia).
    destruct o as [d|d n].
    + rewrite Z.geb_leb in E. case_match eqn:E0; [|done]. apply Z.leb_le in E0. lia.
    + rewrite u32_small in E by (unfold two32; lia).
      case_match eqn:E0; [|done]. apply Z.eqb_eq in E0. lia.
Qed.

(** ** One thread running alone *)

Fixpoint go_n (n : nat) (r : chan_ring_lf_t) (g : ghost) (th : thread)
  : option (chan_ring_lf_t * ghost * thread) :=
  match n with
  | O => Some (r, g, th)
  | S n => match go r g th with
           | Some (r, g, th) => go_n n r g th
           | None => None
           end
  end.

Lemma run_solo n m t th r' g' th' :
  m_thr m !! t = Some th -> go_n n (m_ring m) (m_g m) th = Some (r', g', th') ->
  exists m', run step (replicate n (t, Go)) m = Some m' /\ m_ring m' = r' /\
    m_thr m' = <[t := th']> (m_thr m).
Proof.
  revert m th. induction n as [|n IH]; intros m th Ht Hg; simpl in Hg.
  - simplify_eq. exists m. simpl. split; [done|]. split; [done|]. by rewrite list_insert_id.
  - destruct (go (m_ring m) (m_g m) th) as [[[r1 g1] th1]|] eqn:E; [|done].
    destruct (IH (mk_mpmc r1 (<[t := th1]> (m_thr m)) g1) th1) as (m' & Hr & Hring & Hthr).
    { simpl. apply list_lookup_insert_eq. by eapply lookup_lt_Some. } { done. }
    exists m'. simpl in *. rewrite Ht, E.
    split; [by destruct (t_pc th)|]. split; [done|]. by rewrite Hthr, list_insert_insert_eq.
Qed.

(** Execute the next access of a thread whose program counter is known. *)
Ltac solo_step := unfold go at 1; cbn [t_pc goto prod_reserve cons_reserve prod_data cons_out].

Lemma solo_push r g th d b r' :
  t_pc th = PLoadHead (Push d) -> ring_lf_push r d = Ret (b, r') ->
  exists n g' th', go_n n r g th = Some (r', g', th') /\ t_pc th' = PRet (if b then 1 else 0).
Proof.
  intros Epc H. unfold ring_lf_push in H.
  destruct (u32 (prod_head r - cons_tail r) >=? capacity r) eqn:Efull.
  - inv_ret. simplify_eq. exists 2%nat. do 2 eexists. unfold go_n. solo_step. rewrite Epc.
    solo_step. by rewrite Efull.
  - inv_ret. rename a into r1.
    change (write_slot ?r0 ?ph d) with (prod_write r0 (Push d) ph 1) in E.
    destruct (Z.eqb_spec (prod_tail r1) (prod_head r)) as [Et|]; [|done]. inv_ret. simplify_eq.
    exists 6%nat. do 2 eexists. unfold go_n. solo_step. rewrite Epc. solo_step. rewrite Efull.
    solo_step. rewrite Z.eqb_refl. solo_step. rewrite E.
    solo_step. rewrite (proj2 (Z.eqb_eq _ _) Et). by solo_step.
Qed.

Lemma solo_enqueue r g th d n k r' :
  t_pc th = PLoadHead (EnqueueBurst d n) -> n <> 0 -> ring_lf_enqueue_burst r d n = Ret (k, r') ->
  exists m g' th', go_n m r g th = Some (r', g', th') /\ t_pc th' = PRet k.
Proof.
  intros Epc Hn H. unfold ring_lf_enqueue_burst in H. destruct (Z.eqb_spec n 0); [done|].
  destruct (u32 (capacity r - u32 (prod_head r - cons_tail r)) =? 0) eqn:Efull.
  - inv_ret. simplify_eq. exists 2%nat. do 2 eexists. unfold go_n. solo_step. rewrite Epc.
    solo_step. by rewrite Efull.
  - inv_ret. rename a into r1. set (k0 := if n <? _ then n else _) in *.
    change (write_run ?r0 ?ph k0 d) with (prod_write r0 (EnqueueBurst d n) ph k0) in E.
    destruct (Z.eqb_spec (prod_tail r1) (prod_head r)) as [Et|]; [|done]. inv_ret. simplify_eq.
    exists 6%nat. do 2 eexists. unfold go_n. solo_step. rewrite Epc. solo_step. rewrite Efull. fold k0.
    solo_step. rewrite Z.eqb_refl. solo_step. rewrite E.
    solo_step. rewrite (proj2 (Z.eqb_eq _ _) Et). by solo_step.
Qed.

Lemma solo_pop r g th out b out' r' :
  t_pc th = CLoadHead (Pop out) -> ring_lf_pop r out = Ret (b, out', r') ->
  exists n g' th', go_n n r g th = Some (r', g', th') /\ t_pc th' = CRet (if b then 1 else 0) out'.
Proof.
  intros Epc H. unfold ring_lf_pop in H.
  destruct (prod_tail r =? cons_head r) eqn:Eempty.
  - inv_ret. simplify_eq. exists 2%nat. do 2 eexists. unfold go_n. solo_step. rewrite Epc.
    solo_step. by rewrite Eempty.
  - inv_ret. rename a into out1.
    change (read_slot ?r0 ?ch out) with (cons_read r0 (Pop out) ch 1) in E.
    destruct (Z.eqb_spec (cons_tail (set_cons_head (u32 (cons_head r + 1)) r)) (cons_head r)) as [Et|]; [|done].
    inv_ret. simplify_eq.
    exists 6%nat. do 2 eexists. unfold go_n. solo_step. rewrite Epc. solo_step. rewrite Eempty.
    solo_step. rewrite Z.eqb_refl. solo_step. rewrite E.
    solo_step. rewrite (proj2 (Z.eqb_eq _ _) Et). by solo_step.
Qed.

Lemma solo_dequeue r g th out n k out' r' :
  t_pc th = CLoadHead (DequeueBurst out n) -> n <> 0 -> ring_lf_dequeue_burst r out n = Ret (k, out', r') ->
  exists m g' th', go_n m r g th = Some (r', g', th') /\ t_pc th' = CRet k out'.
Proof.
  intros Epc Hn H. unfold ring_lf_dequeue_burst in H. destruct (Z.eqb_spec n 0); [done|].
  destruct (u32 (prod_tail r - cons_head r) =? 0) eqn:Eempty.
  - inv_ret. simplify_eq. exists 2%nat. do 2 eexists. unfold go_n. solo_step. rewrite Epc.
    solo_step. by rewrite Eempty.
  - inv_ret. rename a into out1. set (k0 := if n <? _ then n else _) in *.
    change (read_run ?r0 ?ch k0 out) with (cons_read r0 (DequeueBurst out n) ch k0) in E.
    destruct (Z.eqb_spec (cons_tail (set_cons_head (u32 (cons_head r + k0)) r)) (cons_head r)) as [Et|]; [|done].
    inv_ret. simplify_eq.
    exists 6%nat. do 2 eexists. unfold go_n. solo_step. rewrite Epc. solo_step. rewrite Eempty. fold k0.
    solo_step. rewrite Z.eqb_refl. solo_step. rewrite E.
    solo_step. rewrite (proj2 (Z.eqb_eq _ _) Et). by solo_step.
Qed.

(** Calling an operation on an idle thread, then running that thread alone. *)
Lemma solo_call m t th a th0 r' p :
  m_thr m !! t = Some th -> t_pc th = Idle ->
  step (t, a) m = Some (mk_mpmc (m_ring m) (<[t := th0]> (m_thr m)) (m_g m)) ->
  (exists n g' th', go_n n (m_ring m) (m_g m) th0 = Some (r', g', th') /\ t_pc th' = p) ->
  exists n m' th', run step ((t, a) :: replicate n (t, Go)) m = Some m' /\ m_ring m' = r' /\
    m_thr m' !! t = Some th' /\ t_pc th' = p.
Proof.
  intros Ht Epc Hs (n & g' & th' & Hg & Hp).
  destruct (run_solo n (mk_mpmc (m_ring m) (<[t := th0]> (m_thr m)) (m_g m)) t th0 r' g' th') as (m' & Hr & Hring & Hthr).
  { simpl. apply list_lookup_insert_eq. by eapply lookup_lt_Some. } { done. }
  exists n, m', th'. cbn [run]. rewrite Hs. do 2 (split; [done|]). split; [|done].
  rewrite Hthr. apply list_lookup_insert_eq. simpl. rewrite length_insert. by eapply lookup_lt_Some.
Qed.

Lemma step_invoke_prod m t th o :
  m_thr m !! t = Some th -> t_pc th = Idle -> prod_ok (elem_size (m_ring m)) o = true ->
  step (t, InvokeP o) m = Some (mk_mpmc (m_ring m)
    (<[t := goto th (if prod_max o =? 0 then PRet 0 else PLoadHead o)]> (m_thr m)) (m_g m)).
Proof. intros Ht Epc Hok. simpl. by rewrite Ht, Epc, Hok. Qed.

Lemma step_invoke_cons m t th o :
  m_thr m !! t = Some th -> t_pc th = Idle -> cons_ok (elem_size (m_ring m)) o = true ->
  step (t, InvokeC o) m = Some (mk_mpmc (m_ring m)
    (<[t := if cons_max o =? 0 then mk_thread (CRet 0 (cons_out o)) (t_head th) (t_tail th) []
            else goto th (CLoadHead o)]> (m_thr m)) (m_g m)).
Proof. intros Ht Epc Hok. simpl. by rewrite Ht, Epc, Hok. Qed.

(** ** Theorems *)

(** A schedule of two threads on the two-slot ring: thread 0 pushes while
    thread 1 pops, interleaved inside both operations. *)
Definition sched_ex : list (nat * action) :=
  [(0%nat, InvokeP (Push [x41])); (1%nat, InvokeC (Pop [x00])); (0%nat, Go); (0%nat, Go); (0%nat, Spurious);
   (0%nat, Go); (0%nat, Go); (0%nat, Go); (1%nat, Go); (0%nat, Go); (0%nat, Go); (0%nat, Go); (1%nat, Go);
   (1%nat, Go); (0%nat, Finish); (0%nat, InvokeP (EnqueueBurst [x42; x43] 2)); (0%nat, Go); (0%nat, Go);
   (0%nat, Go); (1%nat, Go); (0%nat, Go); (1%nat, Go); (1%nat, Go)].

(** C5: Linearizability: in every interleaving of any number of threads pushing,
    popping and moving bursts, the ring behaves as one bounded FIFO queue whose
    operations take effect at the store to prod.tail (enqueue) and at the
    compare-and-swap on cons.head (dequeue); and the bytes a finished dequeue
    returns are exactly the elements it took from the queue at that point. *)
Theorem ring_mpmc_linearizable r s n ls m
    (V : ring_view r s 0 []) (Hr : run fstep ls (mpmc_init r n) = Some m) :
  qsteps (capacity r) [] (lins ls (mpmc_init r n)) (queue m) /\
  (forall t th k out, m_thr m !! t = Some th -> t_pc th = CRet k out ->
     elems (elem_size (m_ring m)) (Z.to_nat k) out = t_got th).
Proof.
  split.
  - apply (lins_refine ls (mpmc_init r n)); [by eapply minv_init|done].
  - destruct (reachable_inv r n m s V) as [s' I]; [by exists ls|].
    intros t th k out Ht Epc. pose proof (inv_threads _ _ _ _ I _ _ Ht) as Hth.
    unfold thread_inv in Hth. by rewrite Epc in Hth.
Qed.

Lemma ring_mpmc_linearizable_witness :
  exists m, run fstep sched_ex (mpmc_init ring_ex2 2) = Some m /\ queue m = [] /\
    qsteps 2 [] (lins sched_ex (mpmc_init ring_ex2 2)) (queue m) /\
    (forall t th k out, m_thr m !! t = Some th -> t_pc th = CRet k out ->
       elems (elem_size (m_ring m)) (Z.to_nat k) out = t_got th).
Proof.
  eexists. split; [vm_compute; reflexivity|]. split; [vm_compute; reflexivity|].
  apply (ring_mpmc_linearizable ring_ex2 [x00; x00] 2 sched_ex _ ring_ex2_view). vm_compute. reflexivity.
Defined.

(** C6: Memory safety and exclusive access: in every reachable state no thread has
    run into undefined behaviour in Phase 2, and two threads that are between
    reserving and committing (producers, consumers or one of each) never have
    the same slot, so the non-atomic copies never race. *)
Theorem ring_mpmc_exclusive r s n m (V : ring_view r s 0 []) (Hr : reachable r n m) :
  (forall t th, m_thr m !! t = Some th -> t_pc th <> Crashed) /\
  (forall t1 t2 th1 th2 p1 p2, t1 <> t2 ->
     m_thr m !! t1 = Some th1 -> m_thr m !! t2 = Some th2 -> owns th1 p1 -> owns th2 p2 ->
     p1 mod capacity (m_ring m) <> p2 mod capacity (m_ring m)).
Proof.
  destruct (reachable_inv r n m s V Hr) as [s' I]. split.
  - intros t th Ht Epc. pose proof (inv_threads _ _ _ _ I _ _ Ht) as Hth.
    unfold thread_inv in Hth. by rewrite Epc in Hth.
  - intros t1 t2 th1 th2 p1 p2 Hn H1 H2 O1 O2 Heq. pose proof (inv_pos _ _ _ _ I).
    pose proof (owns_window _ _ _ _ _ I H1 O1). pose proof (owns_window _ _ _ _ _ I H2 O2).
    apply (owns_distinct _ _ _ _ _ _ _ _ I Hn H1 H2 O1 O2).
    apply (mod_inj_window (capacity (m_ring m))); [lia|lia|done].
Qed.

Lemma ring_mpmc_exclusive_witness :
  exists m, reachable ring_ex2 2 m /\
  (forall t th, m_thr m !! t = Some th -> t_pc th <> Crashed) /\
  (forall t1 t2 th1 th2 p1 p2, t1 <> t2 ->
     m_thr m !! t1 = Some th1 -> m_thr m !! t2 = Some th2 -> owns th1 p1 -> owns th2 p2 ->
     p1 mod capacity (m_ring m) <> p2 mod capacity (m_ring m)).
Proof.
  eexists. assert (reachable ring_ex2 2 _) as Hr by (exists sched_ex; vm_compute; reflexivity).
  split; [exact Hr|]. exact (ring_mpmc_exclusive ring_ex2 [x00; x00] 2 _ ring_ex2_view Hr).
Defined.




(** A dequeue that reports empty found the queue empty at its load of
    prod.tail; an enqueue that reports full found every slot reserved at its
    load of cons.tail, except that [ring_lf_push] may also report full because
    consumers overtook the prod.head it had loaded before (the burst check
    only after an overtaking of 2^32 - capacity). *)
Theorem ring_mpmc_failures r s n m t th m' th'
    (V : ring_view r s 0 []) (Hr : reachable r n m) (Ht : m_thr m !! t = Some th)
    (Hs : fstep (t, Go) m = Some m') (Ht' : m_thr m' !! t = Some th') :
  (forall o ch, t_pc th = CLoadTail o ch -> t_pc th' = CRet 0 (cons_out o) -> queue m = []) /\
  (forall o ph, t_pc th = PLoadTail o ph -> t_pc th' = PRet 0 ->
     zlen (g_log (m_g m)) - g_ct (m_g m) = capacity (m_ring m) \/
     t_head th < g_ct (m_g m) /\
       ((exists d, o = Push d) \/ t_head th + two32 = g_ct (m_g m) + capacity (m_ring m))).
Proof.
  pose proof (reachable_inv r n m s V Hr) as I. split.
  - intros o ch Epc Epc'. by eapply failed_cons_empty.
  - intros o ph Epc Epc'. by eapply failed_prod_full.
Qed.

Definition sched_empty : list (nat * action) := [(0%nat, InvokeC (Pop [x00])); (0%nat, Go)].

Lemma ring_mpmc_failures_witness :
  exists m m' th th', reachable ring_ex2 2 m /\ m_thr m !! 0%nat = Some th /\
    fstep (0%nat, Go) m = Some m' /\ m_thr m' !! 0%nat = Some th' /\
    t_pc th = CLoadTail (Pop [x00]) 0 /\ t_pc th' = CRet 0 [x00] /\
    (forall o ch, t_pc th = CLoadTail o ch -> t_pc th' = CRet 0 (cons_out o) -> queue m = []).
Proof.
  do 4 eexists.
  assert (reachable ring_ex2 2 _) as Hr by (exists sched_empty; vm_compute; reflexivity).
  split; [exact Hr|]. split; [reflexivity|]. split; [vm_compute; reflexivity|].
  split; [reflexivity|]. split; [reflexivity|]. split; [reflexivity|].
  eapply (ring_mpmc_failures ring_ex2 [x00; x00] 2 _ 0%nat _ _ _ ring_ex2_view Hr);
    [reflexivity | vm_compute; reflexivity | reflexivity].
Defined.

(** A push can report full on a ring that was never full: between its load of
    prod.head and its load of cons.tail another thread pushes and pops one
    element, and the unsigned difference of the stale head and the new tail
    wraps past the capacity. *)
Theorem push_spurious_full :
  exists ls m th, run fstep ls (mpmc_init ring_ex2 2) = Some m /\
    holds_along fstep (fun m => zlen (g_log (m_g m)) - g_ct (m_g m) <? capacity (m_ring m))
      ls (mpmc_init ring_ex2 2) = true /\
    hd_error ls = Some (0%nat, InvokeP (Push [x41])) /\
    m_thr m !! 0%nat = Some th /\ t_pc th = PRet 0 /\ queue m = [].
Proof.
  exists ([(0%nat, InvokeP (Push [x41])); (0%nat, Go); (1%nat, InvokeP (Push [x42]))]
            ++ replicate 6 (1%nat, Go) ++ [(1%nat, Finish); (1%nat, InvokeC (Pop [x00]))]
            ++ replicate 6 (1%nat, Go) ++ [(0%nat, Go)]).
  do 2 eexists. split; [vm_compute; reflexivity|]. split; [vm_compute; reflexivity|].
  split; [reflexivity|]. split; [reflexivity|]. split; reflexivity.
Qed.

(** A thread that runs an operation with nobody interfering computes exactly
    the sequential functions of [RingLf], for all four operations. *)
Theorem solo_matches_sequential m t th (Ht : m_thr m !! t = Some th) (Hi : t_pc th = Idle) :
  let es := elem_size (m_ring m) in
  let ends a r' p := exists n m' th', run step ((t, a) :: replicate n (t, Go)) m = Some m' /\
                       m_ring m' = r' /\ m_thr m' !! t = Some th' /\ t_pc th' = p in
  (forall d b r', prod_ok es (Push d) = true -> ring_lf_push (m_ring m) d = Ret (b, r') ->
     ends (InvokeP (Push d)) r' (PRet (if b then 1 else 0))) /\
  (forall out b out' r', cons_ok es (Pop out) = true -> ring_lf_pop (m_ring m) out = Ret (b, out', r') ->
     ends (InvokeC (Pop out)) r' (CRet (if b then 1 else 0) out')) /\
  (forall d n k r', prod_ok es (EnqueueBurst d n) = true ->
     ring_lf_enqueue_burst (m_ring m) d n = Ret (k, r') -> ends (InvokeP (EnqueueBurst d n)) r' (PRet k)) /\
  (forall out n k out' r', cons_ok es (DequeueBurst out n) = true ->
     ring_lf_dequeue_burst (m_ring m) out n = Ret (k, out', r') ->
     ends (InvokeC (DequeueBurst out n)) r' (CRet k out')).
Proof.
  intros es ends. split; [|split; [|split]].
  - intros d b r' Hok H. eapply solo_call; [done|done|by apply step_invoke_prod|]. by eapply solo_push.
  - intros out b out' r' Hok H. eapply solo_call; [done|done|by apply step_invoke_cons|]. by eapply solo_pop.
  - intros d n k r' Hok H. eapply solo_call; [done|done|by apply step_invoke_prod|]. simpl.
    destruct (Z.eqb_spec n 0) as [->|]; [|by eapply solo_enqueue].
    unfold ring_lf_enqueue_burst in H. simpl in H. simplify_eq. by exists 0%nat, (m_g m), (goto th (PRet 0)).
  - intros out n k out' r' Hok H. eapply solo_call; [done|done|by apply step_invoke_cons|]. simpl.
    destruct (Z.eqb_spec n 0) as [->|]; [|by eapply solo_dequeue].
    unfold ring_lf_dequeue_burst in H. simpl in H. simplify_eq. by eexists 0%nat, (m_g m), _.
Qed.

Lemma solo_matches_sequential_witness :
  exists n m' th', run step ((0%nat, InvokeP (Push [x41])) :: replicate n (0%nat, Go)) (mpmc_init ring_ex2 1) = Some m' /\
    m_ring m' = mk_ring 1 1 0 0 0 0 1 2 1 (Some [x41; x00]) /\
    m_thr m' !! 0%nat = Some th' /\ t_pc th' = PRet 1.
Proof.
  apply (proj1 (solo_matches_sequential (mpmc_init ring_ex2 1) 0%nat (mk_thread Idle 0 0 []) eq_refl eq_refl)
           [x41] true); reflexivity.
Defined.
