(* ===== verification/RingVyukov.v ===== *)
(** * The per-slot queue of [bench/bench_ring_cmp.c]

    The benchmark compares the library's ring with a bounded queue in which every
    slot has a sequence number of its own.  Its two blocking operations run here
    interleaved, one atomic access at a time, over sequentially consistent memory;
    the copy of an element is one step, which [vy_exclusive] justifies.  The ghost
    [y_log] records the elements in the order in which their slots were reserved;
    no step reads it.  The cursors have 64 bits; the runs considered have fewer than
    2^62 steps, so that they do not wrap. *)

From S2P Require Import Prelude RingLf.
From stdpp Require Import list.
#[local] Open Scope Z_scope.

Record vy_ring_t := mk_vy {
  v_mask : Z;                (* uint32_t *)
  v_capacity : Z;            (* uint32_t *)
  v_elem_size : Z;           (* size_t *)
  v_prod_head : Z;           (* _Atomic uint64_t *)
  v_cons_head : Z;           (* _Atomic uint64_t *)
  v_seqs : list Z;           (* _Atomic uint64_t * *)
  v_slots : list byte        (* char * *)
}.

Definition set_v_prod v r := mk_vy (v_mask r) (v_capacity r) (v_elem_size r) v (v_cons_head r) (v_seqs r) (v_slots r).
Definition set_v_cons v r := mk_vy (v_mask r) (v_capacity r) (v_elem_size r) (v_prod_head r) v (v_seqs r) (v_slots r).
Definition set_v_seqs l r := mk_vy (v_mask r) (v_capacity r) (v_elem_size r) (v_prod_head r) (v_cons_head r) l (v_slots r).
Definition set_v_slots l r := mk_vy (v_mask r) (v_capacity r) (v_elem_size r) (v_prod_head r) (v_cons_head r) (v_seqs r) l.

(** [n |= n >> 1; ...; n++] on [(uint32_t)cap - 1]. *)
Definition round_up (cap : Z) : Z :=
  let n := u32 (u32 cap - 1) in
  let n := Z.lor n (Z.shiftr n 1) in
  let n := Z.lor n (Z.shiftr n 2) in
  let n := Z.lor n (Z.shiftr n 4) in
  let n := Z.lor n (Z.shiftr n 8) in
  let n := Z.lor n (Z.shiftr n 16) in
  u32 (n + 1).

(** [None]: one of the two allocations failed. *)
Definition vy_init `{Malloc} (cap es : Z) : option vy_ring_t :=
  let n := round_up cap in
  match malloc (u64 (n * 8)), malloc (u64 (n * es)) with
  | Some _, Some b => Some (mk_vy (u32 (n - 1)) n es 0 0 (seqZ 0 n) b)
  | _, _ => None
  end.

Definition i64 (x : Z) : Z := if u64 x <? 9223372036854775808 then u64 x else u64 x - two64.

(** ** Threads *)

(** Program counters with the live locals: [pos], and the caller's buffer. *)
Inductive vpc :=
| VIdle
| PHead (data : list byte)               (* pos = load(prod_head) *)
| PSeq (data : list byte) (pos : Z)      (* seq = load(seqs[pos & mask]); compare *)
| PCas (data : list byte) (pos : Z)      (* CAS(prod_head, pos, pos + 1) *)
| PWrite (data : list byte) (pos : Z)    (* memcpy into the slot *)
| PCommit (data : list byte) (pos : Z)   (* store(seqs[pos & mask], pos + 1) *)
| Pushed
| CHead (out : list byte)
| CSeq (out : list byte) (pos : Z)
| CCas (out : list byte) (pos : Z)
| CRead (out : list byte) (pos : Z)
| CCommit (out : list byte) (pos : Z)    (* store(seqs[pos & mask], pos + capacity) *)
| Popped (out : list byte) (pos : Z)
| VCrashed.                              (* an access outside the arrays *)

Definition index (r : vy_ring_t) (pos : Z) : nat := Z.to_nat (u32 (Z.land pos (v_mask r))).
Definition offset (r : vy_ring_t) (pos : Z) : Z := u64 (Z.land pos (v_mask r) * v_elem_size r).

(** [store(seqs[pos & mask], v)] *)
Definition store_seq (pos v : Z) (r : vy_ring_t) : option vy_ring_t :=
  if (index r pos <? length (v_seqs r))%nat then Some (set_v_seqs (<[index r pos := u64 v]> (v_seqs r)) r) else None.

(** One access of [vy_push_wait] or [vy_pop_wait]; [spurious]: the weak
    compare-and-swap fails without reason.  The log grows when a slot is reserved. *)
Definition vy_go (spurious : bool) (r : vy_ring_t) (log : list (list byte)) (p : vpc) : option (vy_ring_t * list (list byte) * vpc) :=
  match p with
  | VIdle | Pushed | Popped _ _ | VCrashed => None
  | PHead d => Some (r, log, PSeq d (v_prod_head r))
  | PSeq d pos =>
      match v_seqs r !! index r pos with
      | None => Some (r, log, VCrashed)
      | Some seq => Some (r, log, if i64 (seq - pos) =? 0 then PCas d pos else PHead d)
      end
  | PCas d pos =>
      if (v_prod_head r =? pos) && negb spurious
      then Some (set_v_prod (u64 (pos + 1)) r, log ++ [take (Z.to_nat (v_elem_size r)) d], PWrite d pos)
      else Some (r, log, PSeq d (v_prod_head r))
  | PWrite d pos =>
      match memcpy (v_slots r) (offset r pos) d 0 (v_elem_size r) with
      | Ret s => Some (set_v_slots s r, log, PCommit d pos)
      | _ => Some (r, log, VCrashed)
      end
  | PCommit d pos =>
      match store_seq pos (pos + 1) r with
      | Some r => Some (r, log, Pushed)
      | None => Some (r, log, VCrashed)
      end
  | CHead out => Some (r, log, CSeq out (v_cons_head r))
  | CSeq out pos =>
      match v_seqs r !! index r pos with
      | None => Some (r, log, VCrashed)
      | Some seq => Some (r, log, if i64 (seq - (pos + 1)) =? 0 then CCas out pos else CHead out)
      end
  | CCas out pos =>
      if (v_cons_head r =? pos) && negb spurious
      then Some (set_v_cons (u64 (pos + 1)) r, log, CRead out pos)
      else Some (r, log, CSeq out (v_cons_head r))
  | CRead out pos =>
      match memcpy out 0 (v_slots r) (offset r pos) (v_elem_size r) with
      | Ret out => Some (r, log, CCommit out pos)
      | _ => Some (r, log, VCrashed)
      end
  | CCommit out pos =>
      match store_seq pos (pos + v_capacity r) r with
      | Some r => Some (r, log, Popped out pos)
      | None => Some (r, log, VCrashed)
      end
  end.

Record vsys := mk_vsys { y_ring : vy_ring_t; y_log : list (list byte); y_thr : list vpc }.

(** A thread calls, goes on, or returns to its caller. *)
Inductive vlabel := VPush (t : nat) (data : list byte) | VPop (t : nat) (out : list byte) | VGo (t : nat) (spurious : bool) | VReturn (t : nat).

(** The buffer of a call holds an element. *)
Definition vstep (l : vlabel) (s : vsys) : option vsys :=
  let put t p := mk_vsys (y_ring s) (y_log s) (<[t := p]> (y_thr s)) in
  match l with
  | VPush t d =>
      p ← y_thr s !! t;
      match p with VIdle => if v_elem_size (y_ring s) <=? zlen d then Some (put t (PHead d)) else None | _ => None end
  | VPop t out =>
      p ← y_thr s !! t;
      match p with VIdle => if v_elem_size (y_ring s) <=? zlen out then Some (put t (CHead out)) else None | _ => None end
  | VGo t spurious =>
      p ← y_thr s !! t;
      '(r, log, p) ← vy_go spurious (y_ring s) (y_log s) p;
      Some (mk_vsys r log (<[t := p]> (y_thr s)))
  | VReturn t =>
      p ← y_thr s !! t;
      match p with Pushed | Popped _ _ => Some (put t VIdle) | _ => None end
  end.

Fixpoint vrun (ls : list vlabel) (s : vsys) : option vsys :=
  match ls with [] => Some s | l :: ls => s ← vstep l s; vrun ls s end.

(** ** The invariant *)

Record vy_geom (r : vy_ring_t) : Prop := {
  vg_pow2 : exists k, 1 <= k <= 31 /\ v_capacity r = 2 ^ k;
  vg_mask : v_mask r = v_capacity r - 1;
  vg_es : 0 < v_elem_size r;
  vg_seqs : zlen (v_seqs r) = v_capacity r;
  vg_slots : zlen (v_slots r) = v_capacity r * v_elem_size r;
  vg_fits : v_capacity r * v_elem_size r < two64
}.

(** The slot of the position [p]: its sequence number and its element. *)
Definition slot_of (r : vy_ring_t) (p : Z) : nat := Z.to_nat (p mod v_capacity r).
Definition seq_at (r : vy_ring_t) (p : Z) : option Z := v_seqs r !! slot_of r p.
Definition data_at (r : vy_ring_t) (p : Z) : list byte := chunk (v_elem_size r) (p mod v_capacity r) (v_slots r).
Definition logged (log : list (list byte)) (p : Z) (e : list byte) : Prop := log !! Z.to_nat p = Some e.

(** A slot is free for the position [p], or full with its element. *)
Definition free_for (r : vy_ring_t) (p : Z) : Prop :=
  seq_at r p = Some p /\ v_cons_head r <= p < v_cons_head r + v_capacity r.
Definition full_with (r : vy_ring_t) (log : list (list byte)) (p : Z) : Prop :=
  seq_at r p = Some (p + 1) /\ p < v_prod_head r <= p + v_capacity r /\ v_cons_head r <= p + v_capacity r /\ logged log p (data_at r p).

(** What a thread knows at each point. *)
Definition pc_ok (r : vy_ring_t) (log : list (list byte)) (p : vpc) : Prop :=
  let holds l := v_elem_size r <= zlen l in
  let elem l := take (Z.to_nat (v_elem_size r)) l in
  match p with
  | VIdle | Pushed => True
  | PHead d => holds d
  | PSeq d pos => holds d /\ 0 <= pos <= v_prod_head r
  | PCas d pos => holds d /\ 0 <= pos <= v_prod_head r /\ (v_prod_head r = pos -> seq_at r pos = Some pos)
  | PWrite d pos => holds d /\ 0 <= pos < v_prod_head r /\ seq_at r pos = Some pos /\ logged log pos (elem d)
  | PCommit d pos => 0 <= pos < v_prod_head r /\ seq_at r pos = Some pos /\ logged log pos (data_at r pos)
  | CHead out => holds out
  | CSeq out pos => holds out /\ 0 <= pos <= v_cons_head r
  | CCas out pos => holds out /\ 0 <= pos <= v_cons_head r /\ (v_cons_head r = pos -> seq_at r pos = Some (pos + 1))
  | CRead out pos => holds out /\ 0 <= pos < v_cons_head r /\ seq_at r pos = Some (pos + 1)
  | CCommit out pos => 0 <= pos < v_cons_head r /\ seq_at r pos = Some (pos + 1) /\ logged log pos (elem out)
  | Popped out pos => 0 <= pos < v_cons_head r /\ logged log pos (elem out)
  | VCrashed => False
  end.

(** The position a thread has reserved and not committed yet. *)
Definition writes (p : vpc) : option Z := match p with PWrite _ pos | PCommit _ pos => Some pos | _ => None end.
Definition reads (p : vpc) : option Z := match p with CRead _ pos | CCommit _ pos => Some pos | _ => None end.

Record vinv (k : Z) (s : vsys) : Prop := {
  vi_geom : vy_geom (y_ring s);
  vi_order : 0 <= v_cons_head (y_ring s) <= v_prod_head (y_ring s) /\
             v_prod_head (y_ring s) <= v_cons_head (y_ring s) + v_capacity (y_ring s);
  vi_steps : v_prod_head (y_ring s) <= k;
  vi_log : zlen (y_log s) = v_prod_head (y_ring s);
  vi_slot : forall i, 0 <= i < v_capacity (y_ring s) -> exists p, 0 <= p /\ p mod v_capacity (y_ring s) = i /\
              (free_for (y_ring s) p \/ full_with (y_ring s) (y_log s) p);
  vi_thr : forall t p, y_thr s !! t = Some p -> pc_ok (y_ring s) (y_log s) p;
  vi_writes : forall t u p q pos, t <> u -> y_thr s !! t = Some p -> y_thr s !! u = Some q -> writes p = Some pos -> writes q <> Some pos;
  vi_reads : forall t u p q pos, t <> u -> y_thr s !! t = Some p -> y_thr s !! u = Some q -> reads p = Some pos -> reads q <> Some pos
}.

Section geometry.
Context (r : vy_ring_t) (G : vy_geom r).

Lemma cap_range : 2 <= v_capacity r <= 2147483648.
Proof using G.
  destruct G as [(k & Hk & ->) _ _ _ _ _]. split.
  - change 2 with (2 ^ 1) at 1. apply Z.pow_le_mono_r; lia.
  - change 2147483648 with (2 ^ 31). apply Z.pow_le_mono_r; lia.
Qed.

Lemma land_index p : Z.land p (v_mask r) = p mod v_capacity r.
Proof using G. destruct G as [(k & Hk & E) Hm _ _ _ _]. rewrite Hm, E. apply land_mask. lia. Qed.

Lemma index_slot p : index r p = slot_of r p.
Proof using G.
  unfold index, slot_of. rewrite land_index. pose proof cap_range. pose proof (Z.mod_pos_bound p (v_capacity r) ltac:(lia)).
  rewrite u32_small; [done|]. unfold two32. lia.
Qed.

Lemma offset_slot p : offset r p = p mod v_capacity r * v_elem_size r.
Proof using G.
  unfold offset. rewrite land_index. pose proof cap_range. pose proof (Z.mod_pos_bound p (v_capacity r) ltac:(lia)).
  pose proof (vg_es r G). pose proof (vg_fits r G). apply u64_small. nia.
Qed.

Lemma slot_lt p : (slot_of r p < length (v_seqs r))%nat.
Proof using G.
  pose proof cap_range. pose proof (Z.mod_pos_bound p (v_capacity r) ltac:(lia)). pose proof (vg_seqs r G) as Hl.
  unfold slot_of, zlen in *. lia.
Qed.

Lemma slot_eq p q : slot_of r p = slot_of r q <-> p mod v_capacity r = q mod v_capacity r.
Proof using G.
  pose proof cap_range. pose proof (Z.mod_pos_bound p (v_capacity r) ltac:(lia)). pose proof (Z.mod_pos_bound q (v_capacity r) ltac:(lia)).
  unfold slot_of. lia.
Qed.

(** Positions of one slot that are less than a round apart are the same; so they are
    not neighbours. *)
Lemma same_round p q : p mod v_capacity r = q mod v_capacity r -> q - v_capacity r < p < q + v_capacity r -> p = q.
Proof using G.
  intros E Hd. pose proof cap_range as Hc. pose proof (Z.div_mod p (v_capacity r) ltac:(lia)) as Hp.
  pose proof (Z.div_mod q (v_capacity r) ltac:(lia)) as Hq. rewrite E in Hp.
  set (a := p / v_capacity r) in *. set (b := q / v_capacity r) in *. assert (a = b) by nia. congruence.
Qed.
Lemma not_neighbours p q : p mod v_capacity r = q mod v_capacity r -> p <> q + 1.
Proof using G. intros E ->. pose proof cap_range. pose proof (same_round (q + 1) q E). lia. Qed.
End geometry.

Section invariant.
Context (k : Z) (s : vsys) (I : vinv k s).
Hypothesis Hk : k < 4611686018427387904.
Let r := y_ring s.
Let log := y_log s.
Let G : vy_geom r := vi_geom k s I.

(** What the sequence number of a position tells. *)
Lemma slot_cases p : exists q, 0 <= q /\ q mod v_capacity r = p mod v_capacity r /\ (free_for r q \/ full_with r log q).
Proof using I Hk.
  pose proof (cap_range r G). apply (vi_slot k s I). apply Z.mod_pos_bound. fold r. lia.
Qed.

Lemma seq_same p q : q mod v_capacity r = p mod v_capacity r -> seq_at r q = seq_at r p.
Proof using I Hk. intros E. unfold seq_at. by rewrite (proj2 (slot_eq r G q p) E). Qed.

Lemma seq_free p : seq_at r p = Some p -> free_for r p.
Proof using I Hk.
  intros E. destruct (slot_cases p) as (q & Hq & Em & [Hst|Hst]).
  - pose proof (seq_same _ _ Em) as Es. assert (q = p) as <-; [|done]. destruct Hst as [Hv _]. rewrite E in Es. congruence.
  - exfalso. pose proof (seq_same _ _ Em) as Es. destruct Hst as [Hv _]. rewrite E in Es. apply (not_neighbours r G p q); [done|congruence].
Qed.

Lemma seq_full p : seq_at r p = Some (p + 1) -> full_with r log p.
Proof using I Hk.
  intros E. destruct (slot_cases p) as (q & Hq & Em & [Hst|Hst]).
  - exfalso. pose proof (seq_same _ _ Em) as Es. destruct Hst as [Hv _]. rewrite E in Es. apply (not_neighbours r G q p); [done|congruence].
  - pose proof (seq_same _ _ Em) as Es. assert (q = p) as <-; [|done]. destruct Hst as [Hv _]. rewrite E in Es. assert (q + 1 = p + 1) by congruence. lia.
Qed.

Lemma seq_range p v : seq_at r p = Some v -> 0 <= v <= k + 2147483648.
Proof using I Hk.
  intros E. pose proof (cap_range r G) as Hc. destruct (vi_order k s I) as [Ho1 Ho2]. pose proof (vi_steps k s I) as Hs. fold r in Ho1, Ho2, Hs.
  destruct (slot_cases p) as (q & Hq & Em & Hor). pose proof (seq_same _ _ Em) as Es. rewrite E in Es.
  destruct Hor as [[Hv ?]|(Hv & ? & _)]; rewrite Hv in Es; injection Es as <-; lia.
Qed.

(** The comparison of a sequence number with an expected value. *)
Lemma diff_zero p v w : seq_at r p = Some v -> 0 <= w <= k + 1 -> (i64 (v - w) =? 0) = bool_decide (v = w).
Proof using I Hk.
  intros E Hw. pose proof (seq_range _ _ E) as Hv. unfold i64, u64, two64. case_bool_decide as Hvw.
  - subst. by rewrite Z.sub_diag.
  - apply Z.eqb_neq. destruct (Z.lt_ge_cases v w).
    + rewrite <- (Z.mod_unique_pos (v - w) 18446744073709551616 (-1) (v - w + 18446744073709551616)) by lia. case_match; lia.
    + rewrite Z.mod_small by lia. case_match; lia.
Qed.

Lemma small_u64 x : 0 <= x <= k + 2147483648 -> u64 x = x.
Proof using Hk. intros. apply u64_small. unfold two64. lia. Qed.

(** A thread goes on to [p']; the ring and the log may change with it. *)
Lemma vinv_step r' log' t p p' k' :
  y_thr s !! t = Some p -> vy_geom r' ->
  0 <= v_cons_head r' <= v_prod_head r' /\ v_prod_head r' <= v_cons_head r' + v_capacity r' -> v_prod_head r' <= k' -> zlen log' = v_prod_head r' ->
  (forall i, 0 <= i < v_capacity r' -> exists q, 0 <= q /\ q mod v_capacity r' = i /\ (free_for r' q \/ full_with r' log' q)) ->
  (forall u q, u <> t -> y_thr s !! u = Some q -> pc_ok r' log' q) -> pc_ok r' log' p' ->
  (forall u q pos, u <> t -> y_thr s !! u = Some q -> writes p' = Some pos -> writes q <> Some pos) ->
  (forall u q pos, u <> t -> y_thr s !! u = Some q -> reads p' = Some pos -> reads q <> Some pos) ->
  vinv k' (mk_vsys r' log' (<[t := p']> (y_thr s))).
Proof using I Hk.
  intros Ht Hg Ho Hs Hl Hsl Hu Hp Hw Hr. pose proof (lookup_lt_Some _ _ _ Ht) as Hlt.
  assert (forall (f : vpc -> option Z) (Hf : forall u q pos, u <> t -> y_thr s !! u = Some q -> f p' = Some pos -> f q <> Some pos)
    (Ho : forall t u p q pos, t <> u -> y_thr s !! t = Some p -> y_thr s !! u = Some q -> f p = Some pos -> f q <> Some pos) u v q1 q2 pos,
    u <> v -> <[t := p']> (y_thr s) !! u = Some q1 -> <[t := p']> (y_thr s) !! v = Some q2 -> f q1 = Some pos -> f q2 <> Some pos) as Hown.
  { intros f Hf Hold u v q1 q2 pos Hne [(<- & -> & _)|(Hut & Hu1)]%list_lookup_insert_Some
      [(<- & -> & _)|(Hvt & Hv1)]%list_lookup_insert_Some; [done|by eauto|intros E1 E2; by eapply Hf|by eauto]. }
  split; simpl; try done.
  - intros u q [(<- & -> & _)|(Hne & Hq)]%list_lookup_insert_Some; [done|]. by eapply Hu.
  - apply Hown; [done|apply (vi_writes k s I)].
  - apply Hown; [done|apply (vi_reads k s I)].
Qed.

(** Only the thread changes. *)
Lemma vinv_local t p p' k' :
  y_thr s !! t = Some p -> k <= k' -> pc_ok r log p' ->
  (writes p' = None \/ writes p' = writes p) -> (reads p' = None \/ reads p' = reads p) ->
  vinv k' (mk_vsys r log (<[t := p']> (y_thr s))).
Proof using I Hk.
  intros Ht Hkk Hp Hw Hr. destruct (vi_order k s I) as [Ho1 Ho2]. pose proof (vi_steps k s I).
  apply vinv_step with p; try done.
  - fold r in H. lia.
  - apply (vi_log k s I).
  - apply (vi_slot k s I).
  - intros u q _ Hq. by apply (vi_thr k s I u).
  - intros u q pos Hne Hq E. destruct Hw as [Hw|Hw]; rewrite Hw in E; [done|]. by apply (vi_writes k s I t u p q pos).
  - intros u q pos Hne Hq E. destruct Hr as [Hr|Hr]; rewrite Hr in E; [done|]. by apply (vi_reads k s I t u p q pos).
Qed.

Lemma logged_snoc p e e' : logged log p e -> logged (log ++ [e']) p e.
Proof using. unfold logged. intros E. by apply lookup_app_l_Some. Qed.

(** A push reserves the next position. *)
Lemma reserve_push t d pos :
  y_thr s !! t = Some (PCas d pos) -> v_prod_head r = pos ->
  vinv (k + 1) (mk_vsys (set_v_prod (u64 (pos + 1)) r) (log ++ [take (Z.to_nat (v_elem_size r)) d]) (<[t := PWrite d pos]> (y_thr s))) /\
  zlen (drop (Z.to_nat (v_cons_head r)) log) < v_capacity r.
Proof using I Hk.
  intros Ht Hpos. destruct (vi_thr k s I _ _ Ht) as (Hd & Hp & Hseq). fold r in Hd, Hp, Hseq. specialize (Hseq Hpos).
  destruct (vi_order k s I) as [Ho1 Ho2]. pose proof (vi_steps k s I) as Hs. pose proof (vi_log k s I) as Hl. fold r in Ho1, Ho2, Hs, Hl. fold log in Hl.
  pose proof (seq_free _ Hseq) as [_ Hfree]. pose proof (cap_range r G) as Hc. rewrite small_u64 by lia.
  split; [|unfold zlen in *; rewrite length_drop; lia].
  assert (logged (log ++ [take (Z.to_nat (v_elem_size r)) d]) pos (take (Z.to_nat (v_elem_size r)) d)) as Hlog.
  { unfold logged. rewrite lookup_app_r by (unfold zlen in Hl; lia). replace (Z.to_nat pos - length log)%nat with 0%nat by (unfold zlen in Hl; lia). done. }
  eapply vinv_step; [done|by destruct G| | | | | | | |]; cbn [v_prod_head v_cons_head v_capacity v_elem_size set_v_prod].
  - lia.
  - lia.
  - rewrite zlen_app. change (zlen [_]) with 1. lia.
  - intros i Hi. destruct (vi_slot k s I i Hi) as (q & Hq & Em & Hor). exists q. split; [done|]. split; [done|]. fold r log in Hor.
    destruct Hor as [Hf|(H1 & H2 & H3 & H4)]; [by left|right]. split; [done|]. split; [|split; [done|by apply logged_snoc]].
    simpl. split; [lia|]. assert (pos <> q + v_capacity r); [|lia]. intros E.
    assert (pos mod v_capacity r = q mod v_capacity r) as Emm by (rewrite E; rewrite <- (Z.mul_1_l (v_capacity r)) at 1; by apply Z.mod_add; lia).
    pose proof (seq_same _ _ Emm) as Es. rewrite Hseq in Es. rewrite H1 in Es. injection Es as Es. by apply (not_neighbours r G pos q).
  - intros u q _ Hu. pose proof (vi_thr k s I u q Hu) as Hok. fold r log in Hok.
    destruct q; simpl in *; try done; try (destruct_and!; split_and!; try done; try lia; by apply logged_snoc).
  - simpl. split; [done|]. split; [lia|]. done.
  - intros u q pos' Hne Hu [= <-] Hw. pose proof (vi_thr k s I u q Hu) as Hok. fold r in Hok. destruct q; simplify_eq/=; destruct_and!; lia.
  - done.
Qed.

(** A pop reserves the next position. *)
Lemma reserve_pop t out pos :
  y_thr s !! t = Some (CCas out pos) -> v_cons_head r = pos ->
  vinv (k + 1) (mk_vsys (set_v_cons (u64 (pos + 1)) r) log (<[t := CRead out pos]> (y_thr s))) /\ pos < v_prod_head r.
Proof using I Hk.
  intros Ht Hpos. destruct (vi_thr k s I _ _ Ht) as (Hd & Hp & Hseq). fold r in Hd, Hp, Hseq. specialize (Hseq Hpos).
  destruct (vi_order k s I) as [Ho1 Ho2]. pose proof (vi_steps k s I) as Hs. pose proof (vi_log k s I) as Hl. fold r in Ho1, Ho2, Hs, Hl.
  pose proof (seq_full _ Hseq) as (_ & Hfull & _). pose proof (cap_range r G) as Hc. rewrite small_u64 by lia. split; [|lia].
  eapply vinv_step; [done|by destruct G| | | | | | | |]; cbn [v_prod_head v_cons_head v_capacity v_elem_size set_v_cons].
  - lia.
  - lia.
  - done.
  - intros i Hi. destruct (vi_slot k s I i Hi) as (q & Hq & Em & Hor). exists q. split; [done|]. split; [done|]. fold r in Hor, Em.
    assert (q mod v_capacity r = pos mod v_capacity r -> seq_at r q = Some (pos + 1)) as Hsame by (intros Ex; by rewrite (seq_same _ _ Ex)).
    destruct Hor as [[H1 H2]|(H1 & H2 & H3 & H4)]; [left|right].
    + split; [done|]. simpl. assert (q <> pos); [|lia]. intros ->. rewrite Hsame in H1 by done. injection H1. lia.
    + split; [done|]. split; [done|]. split; [|done]. simpl. assert (pos <> q + v_capacity r); [|lia]. intros E.
      assert (q mod v_capacity r = pos mod v_capacity r) as Emm by (rewrite E; rewrite <- (Z.mul_1_l (v_capacity r)) at 2; symmetry; by apply Z.mod_add; lia).
      rewrite (Hsame Emm) in H1. injection H1. lia.
  - intros u q _ Hu. pose proof (vi_thr k s I u q Hu) as Hok. fold r log in Hok.
    destruct q; simpl in *; try done; destruct_and!; split_and!; try done; lia.
  - simpl. split; [done|]. split; [lia|]. done.
  - done.
  - intros u q pos' Hne Hu [= <-] Hw. pose proof (vi_thr k s I u q Hu) as Hok. fold r in Hok. destruct q; simplify_eq/=; destruct_and!; lia.
Qed.

(** The copies between a buffer and the slot of a position. *)
Lemma write_ok d pos : v_elem_size r <= zlen d ->
  exists sl, memcpy (v_slots r) (offset r pos) d 0 (v_elem_size r) = Ret sl /\ zlen sl = zlen (v_slots r) /\
    data_at (set_v_slots sl r) pos = take (Z.to_nat (v_elem_size r)) d /\
    (forall q, q mod v_capacity r <> pos mod v_capacity r -> data_at (set_v_slots sl r) q = data_at r q).
Proof using I Hk.
  intros Hd. pose proof (cap_range r G) as Hc. pose proof (Z.mod_pos_bound pos (v_capacity r) ltac:(lia)) as Hb.
  pose proof (vg_es r G) as He. pose proof (vg_slots r G) as Hl. rewrite (offset_slot r G).
  assert (exists sl, memcpy (v_slots r) (pos mod v_capacity r * v_elem_size r) d (0 * v_elem_size r) (1 * v_elem_size r) = Ret sl) as [sl E].
  { eexists. apply memcpy_ok; nia. }
  exists sl. split; [rewrite <- E; f_equal; lia|]. split; [by eapply memcpy_length|].
  split; [|intros q Hq]; unfold data_at; cbn [v_elem_size v_capacity v_slots set_v_slots].
  - rewrite (memcpy_chunk _ _ _ _ _ _ _ _ E) by lia. rewrite (proj2 (Z.leb_le _ _)), (proj2 (Z.ltb_lt _ _)) by lia. simpl.
    rewrite Z.sub_diag. unfold chunk. by rewrite Z.mul_0_l.
  - pose proof (Z.mod_pos_bound q (v_capacity r) ltac:(lia)) as Hbq. rewrite (memcpy_chunk _ _ _ _ _ _ _ _ E) by lia.
    destruct (Z.leb_spec (pos mod v_capacity r) (q mod v_capacity r)); [|done].
    destruct (Z.ltb_spec (q mod v_capacity r) (pos mod v_capacity r + 1)); [|done]. exfalso. lia.
Qed.

Lemma read_ok out pos : v_elem_size r <= zlen out ->
  exists out', memcpy out 0 (v_slots r) (offset r pos) (v_elem_size r) = Ret out' /\ take (Z.to_nat (v_elem_size r)) out' = data_at r pos.
Proof using I Hk.
  intros Hd. pose proof (cap_range r G) as Hc. pose proof (Z.mod_pos_bound pos (v_capacity r) ltac:(lia)) as Hb.
  pose proof (vg_es r G) as He. pose proof (vg_slots r G) as Hl. rewrite (offset_slot r G). eexists. split; [apply memcpy_ok; nia|].
  simpl. unfold data_at, chunk. rewrite take_app_le, take_take, Nat.min_id; [done|].
  unfold zlen in *. rewrite length_take, length_drop. nia.
Qed.

(** The thread with a reservation copies its element into the slot. *)
Lemma write_slot_inv t d pos sl :
  y_thr s !! t = Some (PWrite d pos) -> memcpy (v_slots r) (offset r pos) d 0 (v_elem_size r) = Ret sl ->
  vinv (k + 1) (mk_vsys (set_v_slots sl r) log (<[t := PCommit d pos]> (y_thr s))).
Proof using I Hk.
  intros Ht E. destruct (vi_thr k s I _ _ Ht) as (Hd & Hp & Hseq & Hlog). fold r log in Hd, Hp, Hseq, Hlog.
  destruct (write_ok d pos Hd) as (sl' & E' & Hlen & Hnew & Hold). assert (sl' = sl) as -> by congruence.
  pose proof (vi_steps k s I) as Hs. fold r in Hs.
  assert (forall q, q mod v_capacity r = pos mod v_capacity r -> seq_at r q = Some pos) as Hsame by (intros q Em; by rewrite (seq_same _ _ Em)).
  eapply vinv_step; [done| | | | | | | | |]; cbn [v_prod_head v_cons_head v_capacity v_elem_size set_v_slots].
  - destruct G. split; simpl; try done. lia.
  - apply (vi_order k s I).
  - lia.
  - apply (vi_log k s I).
  - intros i Hi. destruct (vi_slot k s I i Hi) as (q & Hq & Em & Hor). fold r log in Hor. exists q. split; [done|]. split; [done|].
    destruct Hor as [Hf|(H1 & H2 & H3 & H4)]; [by left|right]. split; [done|]. split; [done|]. split; [done|].
    rewrite Hold; [done|]. intros Emm. rewrite (Hsame q Emm) in H1. injection H1 as H1. by apply (not_neighbours r G pos q).
  - intros u q Hne Hu. pose proof (vi_thr k s I u q Hu) as Hok. fold r log in Hok. destruct q as [| | | | |d' pos'| | | | | | | |]; try done.
    destruct Hok as (H1 & H2 & H3). split; [done|]. split; [done|]. rewrite Hold; [done|]. intros Emm.
    rewrite (Hsame _ Emm) in H2. injection H2 as <-. by apply (vi_writes k s I t u _ _ pos (not_eq_sym Hne) Ht Hu).
  - simpl. split; [done|]. split; [done|]. by rewrite Hnew.
  - intros u q pos' Hne Hu [= <-]. by apply (vi_writes k s I t u _ _ pos (not_eq_sym Hne) Ht Hu).
  - done.
Qed.

(** A sequence number changes: those of the other positions do not, nor do their
    slots. *)
Lemma store_seq_ok pos v : 0 <= v <= k + 2147483648 ->
  store_seq pos v r = Some (set_v_seqs (<[slot_of r pos := v]> (v_seqs r)) r).
Proof using I Hk. intros Hv. unfold store_seq. rewrite (index_slot r G), (proj2 (Nat.ltb_lt _ _)) by apply (slot_lt r G). by rewrite small_u64. Qed.

Lemma seq_stored pos v q : seq_at (set_v_seqs (<[slot_of r pos := v]> (v_seqs r)) r) q =
  if decide (q mod v_capacity r = pos mod v_capacity r) then Some v else seq_at r q.
Proof using I Hk.
  unfold seq_at. cbn [v_seqs set_v_seqs]. change (slot_of (set_v_seqs _ r) q) with (slot_of r q).
  destruct (decide _) as [Em|Em].
  - rewrite (proj2 (slot_eq r G q pos) Em). apply list_lookup_insert_eq, (slot_lt r G).
  - apply list_lookup_insert_ne. intros E. apply Em. by apply (slot_eq r G).
Qed.

(** The position whose sequence number a thread relies on, and the number. *)
Definition expects (p : vpc) : option (Z * Z) :=
  match p with
  | PCas _ q => if decide (v_prod_head r = q) then Some (q, q) else None
  | PWrite _ q | PCommit _ q => Some (q, q)
  | CCas _ q => if decide (v_cons_head r = q) then Some (q, q + 1) else None
  | CRead _ q | CCommit _ q => Some (q, q + 1)
  | _ => None
  end.

Lemma expects_seq u p q w : y_thr s !! u = Some p -> expects p = Some (q, w) -> seq_at r q = Some w.
Proof using I Hk.
  intros Hu E. pose proof (vi_thr k s I u p Hu) as Hok. fold r in Hok.
  destruct p; simpl in *; try done; try case_decide; simplify_eq; destruct_and!; auto.
Qed.

(** The sequence number of [pos] becomes [v], which no other thread minds. *)
Lemma commit_inv t p p' pos v q0 (r' := set_v_seqs (<[slot_of r pos := v]> (v_seqs r)) r) :
  y_thr s !! t = Some p -> writes p' = None -> reads p' = None -> pc_ok r' log p' ->
  (forall u q pos' w, u <> t -> y_thr s !! u = Some q -> expects q = Some (pos', w) -> pos' mod v_capacity r <> pos mod v_capacity r) ->
  0 <= q0 -> q0 mod v_capacity r = pos mod v_capacity r -> free_for r' q0 \/ full_with r' log q0 ->
  vinv (k + 1) (mk_vsys r' log (<[t := p']> (y_thr s))).
Proof using I Hk.
  intros Ht Hw Hr Hp Hex Hq0 Em0 Hst. pose proof (vi_steps k s I) as Hs. fold r in Hs.
  assert (forall q, seq_at r' q = if decide (q mod v_capacity r = pos mod v_capacity r) then Some v else seq_at r q) as Hseq by apply seq_stored.
  eapply vinv_step; [done| | | | | | |done| |]; [..|by rewrite Hw|by rewrite Hr].
  - destruct G as [? ? ? Hl ? ?]. split; simpl; try done. unfold zlen in *. by rewrite length_insert.
  - apply (vi_order k s I).
  - unfold r'. cbn [v_prod_head set_v_seqs]. lia.
  - apply (vi_log k s I).
  - intros i Hi. destruct (decide (i = pos mod v_capacity r)) as [->|Hne]; [by exists q0|].
    destruct (vi_slot k s I i Hi) as (q & Hq & Em & Hor). fold r log in Hor, Em. exists q. split; [done|]. split; [done|].
    unfold free_for, full_with in *. rewrite Hseq, decide_False by congruence. done.
  - intros u q Hne Hu. pose proof (vi_thr k s I u q Hu) as Hok. fold r log in Hok.
    pose proof (fun pos' w E => Hex u q pos' w Hne Hu E) as Hc.
    destruct q; simpl in *; try done; destruct_and!; split_and!; try done; try (intros Eh); rewrite Hseq, decide_False; auto;
      try (by eapply Hc); eapply Hc; by rewrite decide_True.
Qed.

Lemma commit_push t d pos : y_thr s !! t = Some (PCommit d pos) ->
  vinv (k + 1) (mk_vsys (set_v_seqs (<[slot_of r pos := pos + 1]> (v_seqs r)) r) log (<[t := Pushed]> (y_thr s))).
Proof using I Hk.
  intros Ht. destruct (vi_thr k s I _ _ Ht) as (Hp & Hseq & Hlog). fold r log in Hp, Hseq, Hlog.
  pose proof (seq_free _ Hseq) as [_ Hf]. destruct (vi_order k s I) as [Ho1 Ho2]. fold r in Ho1, Ho2.
  apply commit_inv with (PCommit d pos) pos; try done.
  - intros u q pos' w Hne Hu He Em. pose proof (expects_seq _ _ _ _ Hu He) as Hw. rewrite (seq_same _ _ Em), Hseq in Hw. injection Hw as <-.
    destruct q as [| |d' q|d' q|d' q|d' q| | |o' q|o' q|o' q|o' q|o' q|]; simpl in He; try done; try case_decide; simplify_eq;
      try (by apply (vi_writes k s I t u _ _ pos (not_eq_sym Hne) Ht Hu)); try lia.
    all: by match type of Em with ?x mod _ = _ => apply (not_neighbours r G (x + 1) x) end.
  - lia.
  - right. split; [rewrite seq_stored; by rewrite decide_True|]. cbn [v_prod_head v_cons_head v_capacity set_v_seqs]. split; [lia|]. split; [lia|]. done.
Qed.

Lemma commit_pop t out pos : y_thr s !! t = Some (CCommit out pos) ->
  vinv (k + 1) (mk_vsys (set_v_seqs (<[slot_of r pos := pos + v_capacity r]> (v_seqs r)) r) log (<[t := Popped out pos]> (y_thr s))).
Proof using I Hk.
  intros Ht. destruct (vi_thr k s I _ _ Ht) as (Hp & Hseq & Hlog). fold r log in Hp, Hseq, Hlog.
  pose proof (seq_full _ Hseq) as (_ & Hf & Hf2 & _). destruct (vi_order k s I) as [Ho1 Ho2]. fold r in Ho1, Ho2. pose proof (cap_range r G) as Hc.
  assert ((pos + v_capacity r) mod v_capacity r = pos mod v_capacity r) as Emm by (rewrite <- (Z.mul_1_l (v_capacity r)) at 1; apply Z.mod_add; lia).
  apply commit_inv with (CCommit out pos) (pos + v_capacity r); try done.
  - intros u q pos' w Hne Hu He Em. pose proof (expects_seq _ _ _ _ Hu He) as Hw. rewrite (seq_same _ _ Em), Hseq in Hw. injection Hw as Hw.
    destruct q as [| |d' q|d' q|d' q|d' q| | |o' q|o' q|o' q|o' q|o' q|]; simpl in He; try done; try case_decide; simplify_eq;
      try (match type of Em with ?x mod _ = _ => apply (not_neighbours r G x pos); [done|lia] end); try lia.
    all: match type of Hu with _ = Some (_ _ ?x) => assert (x = pos) as Ex by lia; rewrite Ex in Hu end; by apply (vi_reads k s I t u _ _ pos (not_eq_sym Hne) Ht Hu).
  - lia.
  - left. split; [rewrite seq_stored; by rewrite decide_True|]. cbn [v_prod_head v_cons_head v_capacity set_v_seqs]. lia.
Qed.

(** Every step of a thread keeps the invariant. *)
Lemma vy_go_inv t b p r' log' p' :
  y_thr s !! t = Some p -> vy_go b r log p = Some (r', log', p') -> vinv (k + 1) (mk_vsys r' log' (<[t := p']> (y_thr s))).
Proof using I Hk.
  intros Ht E. pose proof (vi_thr k s I _ _ Ht) as Hok. fold r log in Hok. destruct (vi_order k s I) as [Ho1 Ho2]. pose proof (vi_steps k s I) as Hs.
  fold r in Ho1, Ho2, Hs. pose proof (cap_range r G) as Hc.
  assert (forall q, exists v, v_seqs r !! index r q = Some v /\ seq_at r q = Some v) as Hget.
  { intros q. rewrite (index_slot r G). destruct (lookup_lt_is_Some_2 _ _ (slot_lt r G q)) as [v Hv]. by exists v. }
  destruct p as [|d|d pos|d pos|d pos|d pos| |out|out pos|out pos|out pos|out pos|out pos|]; simpl in E, Hok; try done.
  - injection E as <- <- <-. eapply vinv_local; [done|lia| |by left|by left]. simpl. split; [done|]. lia.
  - destruct (Hget pos) as (v & Hv & Hsv). rewrite Hv in E. destruct_and!. rewrite (diff_zero pos v pos) in E by (done || lia).
    injection E as <- <- <-. case_bool_decide as Hvp; eapply vinv_local; try done; try lia; try (by left). simpl. subst v. done.
  - destruct (Z.eqb_spec (v_prod_head r) pos) as [Hp|Hp]; [destruct b|]; simpl in E; injection E as <- <- <-; destruct_and!.
    1, 3: eapply vinv_local; [done|lia| |by left|by left]; simpl; split; [done|lia].
    by apply reserve_push.
  - destruct_and!. destruct (write_ok d pos ltac:(done)) as (sl & Esl & _). rewrite Esl in E. injection E as <- <- <-.
    by apply write_slot_inv.
  - destruct_and!. rewrite store_seq_ok in E by lia. injection E as <- <- <-. by eapply commit_push.
  - injection E as <- <- <-. eapply vinv_local; [done|lia| |by left|by left]. simpl. split; [done|]. lia.
  - destruct (Hget pos) as (v & Hv & Hsv). rewrite Hv in E. destruct_and!. rewrite (diff_zero pos v (pos + 1)) in E by (done || lia).
    injection E as <- <- <-. case_bool_decide as Hvp; eapply vinv_local; try done; try lia; try (by left). simpl. subst v. done.
  - destruct (Z.eqb_spec (v_cons_head r) pos) as [Hp|Hp]; [destruct b|]; simpl in E; injection E as <- <- <-; destruct_and!.
    1, 3: eapply vinv_local; [done|lia| |by left|by left]; simpl; split; [done|lia].
    by apply reserve_pop.
  - destruct_and!. destruct (read_ok out pos ltac:(done)) as (out' & Eo & Hout). rewrite Eo in E. injection E as <- <- <-.
    eapply vinv_local; [done|lia| |by left|by right]. simpl. split; [done|]. split; [done|]. rewrite Hout. by apply (seq_full pos).
  - destruct_and!. rewrite store_seq_ok in E by lia. injection E as <- <- <-. by eapply commit_pop.
Qed.
End invariant.

Lemma vstep_inv k l s s' : vinv k s -> k < 4611686018427387904 -> vstep l s = Some s' -> vinv (k + 1) s'.
Proof.
  intros I Hk E. destruct l as [t d|t out|t b|t]; simpl in E; destruct (y_thr s !! t) as [p|] eqn:Ht; try done; simpl in E.
  - destruct p; try done. destruct (Z.leb_spec (v_elem_size (y_ring s)) (zlen d)); [|done]. injection E as <-.
    eapply vinv_local; try done; try lia; by left.
  - destruct p; try done. destruct (Z.leb_spec (v_elem_size (y_ring s)) (zlen out)); [|done]. injection E as <-.
    eapply vinv_local; try done; try lia; by left.
  - destruct (vy_go b (y_ring s) (y_log s) p) as [[[r' log'] p']|] eqn:Eg; [|done]. injection E as <-. by eapply vy_go_inv.
  - destruct p; try done; injection E as <-; eapply vinv_local; try done; try lia; by left.
Qed.

Lemma vrun_inv ls k s s' : vinv k s -> k + zlen ls <= 4611686018427387904 -> vrun ls s = Some s' -> vinv (k + zlen ls) s'.
Proof.
  revert k s. induction ls as [|l ls IH]; intros k s I Hk E; simpl in E; [simplify_eq; by rewrite Z.add_0_r|].
  rewrite zlen_cons in *. pose proof (zlen_nonneg ls). destruct (vstep l s) as [s1|] eqn:E1; [|done]. simpl in E.
  replace (k + (1 + zlen ls)) with (k + 1 + zlen ls) by lia. eapply IH; [|lia|done]. by eapply vstep_inv; [|lia|].
Qed.

(** ** The start *)

Definition vy_start (r : vy_ring_t) (threads : nat) : vsys := mk_vsys r [] (replicate threads VIdle).

Lemma round_up_next cap : 0 < cap < two32 -> round_up cap = next_pow2 cap.
Proof. intros H. unfold round_up, next_pow2. rewrite (u32_small cap) by lia. by rewrite (proj2 (Z.eqb_neq cap 0)) by lia. Qed.

Lemma vy_init_inv `{Malloc} cap es r threads :
  2 <= cap <= 2147483648 -> 0 < es -> next_pow2 cap * es < two64 -> vy_init cap es = Some r -> vinv 0 (vy_start r threads).
Proof.
  intros Hcap Hes Hfit E. destruct (next_pow2_ok cap ltac:(lia)) as (k & Hk & Epow & Hle). unfold vy_init in E.
  rewrite round_up_next, Epow in * by (unfold two32; lia). set (n := 2 ^ k) in *.
  assert (n <= 2147483648) as Hn31 by (unfold n; change 2147483648 with (2 ^ 31); apply Z.pow_le_mono_r; lia).
  assert (k <> 0) as Hk0 by (intros ->; unfold n in Hle; simpl in Hle; lia).
  destruct (malloc (u64 (n * 8))); [|done]. destruct (malloc (u64 (n * es))) as [b|] eqn:Eb; [|done]. injection E as <-.
  apply malloc_size in Eb. rewrite u64_small in Eb by nia.
  assert (forall i, 0 <= i < n -> seqZ 0 n !! Z.to_nat i = Some i) as Hseq by (intros i Hi; apply lookup_seqZ; lia).
  assert (forall t p, replicate threads VIdle !! t = Some p -> p = VIdle) as Hidle by (intros t p Hp; by apply lookup_replicate in Hp as [-> _]).
  split; simpl; try done.
  - split; simpl; try done.
    + exists k. split; [lia|done].
    + rewrite u32_small; [done|]. unfold two32. lia.
    + unfold zlen. rewrite length_seqZ. lia.
  - lia.
  - intros i Hi. exists i. split; [lia|]. split; [apply Z.mod_small; lia|]. left. split; simpl; [|lia].
    unfold seq_at, slot_of. simpl. rewrite Z.mod_small by lia. by apply Hseq.
  - intros t p Hp. by rewrite (Hidle _ _ Hp).
  - intros t u p q pos _ Hp _. by rewrite (Hidle _ _ Hp).
  - intros t u p q pos _ Hp _. by rewrite (Hidle _ _ Hp).
Qed.

(** ** Theorems *)

(** The queue: what is reserved for pushing and not yet for popping. *)
Definition contents (s : vsys) : list (list byte) := drop (Z.to_nat (v_cons_head (y_ring s))) (y_log s).
Definition elem_of (s : vsys) (d : list byte) : list byte := take (Z.to_nat (v_elem_size (y_ring s))) d.

(** What a step does to the queue: nothing, or the reservation of a push adds its
    element at the end, or that of a pop takes the first. *)
Inductive queue_step (s s' : vsys) : vlabel -> Prop :=
| qs_none l : contents s' = contents s -> queue_step s s' l
| qs_push t d pos : y_thr s !! t = Some (PCas d pos) -> y_thr s' !! t = Some (PWrite d pos) -> zlen (contents s) < v_capacity (y_ring s) ->
    contents s' = contents s ++ [elem_of s d] -> queue_step s s' (VGo t false)
| qs_pop t out pos e : y_thr s !! t = Some (CCas out pos) -> y_thr s' !! t = Some (CRead out pos) -> logged (y_log s) pos e ->
    contents s = e :: contents s' -> queue_step s s' (VGo t false).

Lemma go_contents k s t p r' log' p' b :
  vinv k s -> k < 4611686018427387904 -> y_thr s !! t = Some p -> vy_go b (y_ring s) (y_log s) p = Some (r', log', p') ->
  queue_step s (mk_vsys r' log' (<[t := p']> (y_thr s))) (VGo t b).
Proof.
  intros I Hk Ht E. pose proof (lookup_lt_Some _ _ _ Ht) as Hlt. pose proof (vi_log k s I) as Hl. destruct (vi_order k s I) as [Ho1 Ho2].
  assert (forall v, queue_step s (mk_vsys (y_ring s) (y_log s) (<[t := v]> (y_thr s))) (VGo t b)) as Hnone by (intros v; by apply qs_none).
  destruct p as [|d|d pos|d pos|d pos|d pos| |out|out pos|out pos|out pos|out pos|out pos|]; simpl in E; try done;
    try (repeat case_match; simplify_eq; by apply qs_none).
  - destruct (Z.eqb_spec (v_prod_head (y_ring s)) pos) as [Hp|Hp]; simpl in E; [destruct b|]; simpl in E; injection E as <- <- <-; try by apply qs_none.
    destruct (reserve_push k s I Hk t d pos Ht Hp) as [_ Hroom]. apply qs_push with d pos; try done.
    + by apply list_lookup_insert_eq.
    + unfold contents, elem_of. simpl. rewrite drop_app_le; [done|]. unfold zlen in Hl. lia.
  - destruct (store_seq pos (pos + 1) (y_ring s)) as [r1|] eqn:Es; injection E as <- <- <-; [|by apply qs_none].
    unfold store_seq in Es. case_match; simplify_eq. by apply qs_none.
  - destruct (Z.eqb_spec (v_cons_head (y_ring s)) pos) as [Hp|Hp]; simpl in E; [destruct b|]; simpl in E; injection E as <- <- <-; try by apply qs_none.
    destruct (reserve_pop k s I Hk t out pos Ht Hp) as [_ Hlt2].
    destruct (lookup_lt_is_Some_2 (y_log s) (Z.to_nat pos)) as [e He]; [unfold zlen in Hl; lia|].
    apply qs_pop with out pos e; try done; [by apply list_lookup_insert_eq|]. unfold contents. simpl.
    rewrite u64_small by (unfold two64; pose proof (vi_steps k s I); lia). rewrite Hp, (drop_S _ _ _ He). f_equal. f_equal. lia.
  - destruct (store_seq pos (pos + v_capacity (y_ring s)) (y_ring s)) as [r1|] eqn:Es; injection E as <- <- <-; [|by apply qs_none].
    unfold store_seq in Es. case_match; simplify_eq. by apply qs_none.
Qed.

Lemma step_contents k s l s' : vinv k s -> k < 4611686018427387904 -> vstep l s = Some s' -> queue_step s s' l.
Proof.
  intros I Hk E. destruct l as [t d|t out|t b|t]; simpl in E; destruct (y_thr s !! t) as [p|] eqn:Ht; try done; simpl in E.
  - repeat case_match; simplify_eq. by apply qs_none.
  - repeat case_match; simplify_eq. by apply qs_none.
  - destruct (vy_go b (y_ring s) (y_log s) p) as [[[r' log'] p']|] eqn:Eg; [|done]. injection E as <-. by eapply go_contents.
  - repeat case_match; simplify_eq; by apply qs_none.
Qed.

(** C24: The per-slot queue is a bounded FIFO queue under every interleaving of any
    number of pushing and popping threads: no access is outside the arrays, each
    step leaves the queue, adds the element of a push at the end while there is room,
    or takes the first element for a pop, and a pop that returns has exactly the
    element it took. *)
Theorem vy_linearizable `{Malloc} cap es r threads ls s
    (Hcap : 2 <= cap <= 2147483648) (Hes : 0 < es) (Hfit : next_pow2 cap * es < two64)
    (Hinit : vy_init cap es = Some r) (Hlen : zlen ls < 4611686018427387904)
    (E : vrun ls (vy_start r threads) = Some s) :
  VCrashed ∉ y_thr s /\ zlen (contents s) <= v_capacity (y_ring s) /\
  (forall t out pos, y_thr s !! t = Some (Popped out pos) -> logged (y_log s) pos (elem_of s out)) /\
  (forall l s', vstep l s = Some s' -> queue_step s s' l).
Proof.
  pose proof (vrun_inv ls 0 _ s (vy_init_inv cap es r threads Hcap Hes Hfit Hinit) ltac:(lia) E) as I. rewrite Z.add_0_l in I.
  split; [|split; [|split]].
  - intros [t Ht]%list_elem_of_lookup. exact (vi_thr _ _ I _ _ Ht).
  - destruct (vi_order _ _ I) as [H1 H2]. pose proof (vi_log _ _ I). unfold contents, zlen in *. rewrite length_drop. lia.
  - intros t out pos Ht. by destruct (vi_thr _ _ I _ _ Ht) as [_ ?].
  - intros l s' Hs. by eapply step_contents.
Qed.

(** A ring of two slots: one thread pushes 0x41, another pops it. *)
#[local] Existing Instance malloc_ex.
Definition vy_ex : vy_ring_t := mk_vy 1 2 1 0 0 [0; 1] [x00; x00].
Lemma vy_ex_init : vy_init 2 1 = Some vy_ex.
Proof. vm_compute. reflexivity. Qed.
Definition labels_ex : list vlabel :=
  [VPush 0 [x41]; VPop 1 [x00]; VGo 0 false; VGo 0 false; VGo 1 false; VGo 0 false; VGo 1 false; VGo 0 false; VGo 0 false;
   VGo 1 false; VGo 1 false; VGo 1 false; VGo 1 false; VGo 1 false].

Lemma vy_linearizable_witness :
  exists s, vrun labels_ex (vy_start vy_ex 2) = Some s /\ y_thr s = [Pushed; Popped [x41] 0] /\
    VCrashed ∉ y_thr s /\ zlen (contents s) <= v_capacity (y_ring s).
Proof.
  assert (exists s, vrun labels_ex (vy_start vy_ex 2) = Some s /\ y_thr s = [Pushed; Popped [x41] 0]) as (s & Es & Eth)
    by (eexists; split; vm_compute; reflexivity).
  assert (next_pow2 2 * 1 < two64) as H1 by (vm_compute; reflexivity).
  assert (zlen labels_ex < 4611686018427387904) as H2 by (vm_compute; reflexivity).
  assert (2 <= 2 <= 2147483648) as H3 by lia. assert (0 < 1) as H4 by lia.
  destruct (vy_linearizable 2 1 vy_ex 2 labels_ex s H3 H4 H1 vy_ex_init H2 Es) as (H5 & H6 & _). exists s. auto.
Defined.

(** Two threads between their reservation and their commit are never at one slot,
    whether they push or pop. *)
Definition holds (p : vpc) (pos : Z) : Prop := writes p = Some pos \/ reads p = Some pos.

Theorem vy_exclusive `{Malloc} cap es r threads ls s t u p q pos pos'
    (Hcap : 2 <= cap <= 2147483648) (Hes : 0 < es) (Hfit : next_pow2 cap * es < two64)
    (Hinit : vy_init cap es = Some r) (Hlen : zlen ls < 4611686018427387904)
    (E : vrun ls (vy_start r threads) = Some s)
    (Hne : t <> u) (Ht : y_thr s !! t = Some p) (Hu : y_thr s !! u = Some q) (Hp : holds p pos) (Hq : holds q pos') :
  index (y_ring s) pos <> index (y_ring s) pos'.
Proof.
  pose proof (vrun_inv ls 0 _ s (vy_init_inv cap es r threads Hcap Hes Hfit Hinit) ltac:(lia) E) as I. rewrite Z.add_0_l in I.
  pose proof (vi_geom _ _ I) as G. rewrite !(index_slot _ G). intros Em%(slot_eq _ G).
  pose proof (vi_thr _ _ I _ _ Ht) as H1. pose proof (vi_thr _ _ I _ _ Hu) as H2.
  assert (forall p pos, pc_ok (y_ring s) (y_log s) p -> (writes p = Some pos -> seq_at (y_ring s) pos = Some pos) /\
    (reads p = Some pos -> seq_at (y_ring s) pos = Some (pos + 1))) as Hseq.
  { intros p0 pos0 Hok. destruct p0; simplify_eq/=; split; intros; simplify_eq; destruct_and!; done. }
  destruct (Hseq p pos H1) as [W1 R1]. destruct (Hseq q pos' H2) as [W2 R2].
  assert (seq_at (y_ring s) pos = seq_at (y_ring s) pos') as Es by (unfold seq_at; by rewrite (proj2 (slot_eq _ G pos pos') Em)).
  destruct Hp as [Hp|Hp], Hq as [Hq|Hq]; rewrite ?(W1 Hp), ?(R1 Hp), ?(W2 Hq), ?(R2 Hq) in Es; injection Es as Es.
  - subst pos'. by apply (vi_writes _ _ I t u p q pos).
  - by apply (not_neighbours _ G pos pos').
  - by apply (not_neighbours _ G pos' pos).
  - assert (pos' = pos) as -> by lia. by apply (vi_reads _ _ I t u p q pos).
Qed.

(** Two pushes between reservation and commit. *)
Definition labels_two : list vlabel :=
  [VPush 0 [x41]; VPush 1 [x42]; VGo 0 false; VGo 0 false; VGo 0 false; VGo 1 false; VGo 1 false; VGo 1 false].

Lemma vy_exclusive_witness :
  exists s, vrun labels_two (vy_start vy_ex 2) = Some s /\
    y_thr s = [PWrite [x41] 0; PWrite [x42] 1] /\ index (y_ring s) 0 <> index (y_ring s) 1.
Proof.
  assert (exists s, vrun labels_two (vy_start vy_ex 2) = Some s /\ y_thr s = [PWrite [x41] 0; PWrite [x42] 1]) as (s & Es & Eth)
    by (eexists; split; vm_compute; reflexivity).
  assert (next_pow2 2 * 1 < two64) as H1 by (vm_compute; reflexivity).
  assert (zlen labels_two < 4611686018427387904) as H2 by (vm_compute; reflexivity).
  assert (2 <= 2 <= 2147483648) as H3 by lia. assert (0 < 1) as H4 by lia.
  exists s. split; [done|]. split; [done|].
  apply (vy_exclusive 2 1 vy_ex 2 labels_two s 0 1 (PWrite [x41] 0) (PWrite [x42] 1) 0 1 H3 H4 H1 vy_ex_init H2 Es);
    [done|by rewrite Eth|by rewrite Eth|by left|by left].
Defined.

(** No convoy: a thread that has its reservation returns after two steps of its
    own, whatever the other threads do. *)
Theorem vy_commits_alone `{Malloc} cap es r threads ls s t p b
    (Hcap : 2 <= cap <= 2147483648) (Hes : 0 < es) (Hfit : next_pow2 cap * es < two64)
    (Hinit : vy_init cap es = Some r) (Hlen : zlen ls < 4611686018427387904)
    (E : vrun ls (vy_start r threads) = Some s) (Ht : y_thr s !! t = Some p) :
  match p with
  | PWrite d pos => exists s', vstep (VGo t b) s = Some s' /\ y_thr s' !! t = Some (PCommit d pos)
  | PCommit d pos => exists s', vstep (VGo t b) s = Some s' /\ y_thr s' !! t = Some Pushed
  | CRead _ pos => exists s' out, vstep (VGo t b) s = Some s' /\ y_thr s' !! t = Some (CCommit out pos)
  | CCommit out pos => exists s', vstep (VGo t b) s = Some s' /\ y_thr s' !! t = Some (Popped out pos)
  | _ => True
  end.
Proof.
  pose proof (vrun_inv ls 0 _ s (vy_init_inv cap es r threads Hcap Hes Hfit Hinit) ltac:(lia) E) as I. rewrite Z.add_0_l in I.
  pose proof (vi_thr _ _ I _ _ Ht) as Hok. pose proof (cap_range _ (vi_geom _ _ I)) as Hc. pose proof (vi_steps _ _ I) as Hs.
  destruct (vi_order _ _ I) as [Ho1 Ho2]. pose proof (lookup_lt_Some _ _ _ Ht) as Hlt.
  assert (forall z, <[t:=z]> (y_thr s) !! t = Some z) as Hget by (intros z; by apply list_lookup_insert_eq).
  destruct p as [|d|d pos|d pos|d pos|d pos| |out|out pos|out pos|out pos|out pos|out pos|]; try done; simpl in Hok; destruct_and!;
    simpl; rewrite Ht; cbn [mbind option_bind vy_go].
  - destruct (write_ok _ s I Hlen d pos ltac:(done)) as (sl & Esl & _). rewrite Esl. eexists. split; [done|]. by apply Hget.
  - rewrite (store_seq_ok _ s I Hlen) by lia. eexists. split; [done|]. by apply Hget.
  - destruct (read_ok _ s I Hlen out pos ltac:(done)) as (out' & Eo & _). rewrite Eo. eexists _, _. split; [done|]. by apply Hget.
  - rewrite (store_seq_ok _ s I Hlen) by lia. eexists. split; [done|]. by apply Hget.
Qed.

Lemma vy_commits_alone_witness :
  exists s, vrun labels_two (vy_start vy_ex 2) = Some s /\
    exists s', vstep (VGo 1 false) s = Some s' /\ y_thr s' !! 1%nat = Some (PCommit [x42] 1).
Proof.
  assert (exists s, vrun labels_two (vy_start vy_ex 2) = Some s /\ y_thr s !! 1%nat = Some (PWrite [x42] 1)) as (s & Es & Eth)
    by (eexists; split; vm_compute; reflexivity).
  assert (next_pow2 2 * 1 < two64) as H1 by (vm_compute; reflexivity).
  assert (zlen labels_two < 4611686018427387904) as H2 by (vm_compute; reflexivity).
  assert (2 <= 2 <= 2147483648) as H3 by lia. assert (0 < 1) as H4 by lia.
  exists s. split; [done|]. apply (vy_commits_alone 2 1 vy_ex 2 labels_two s 1 _ false H3 H4 H1 vy_ex_init H2 Es Eth).
Defined.

(** With a capacity of one, which [vy_init] accepts, the commit of a push is the
    number the next push waits for: a second push overwrites the element nobody has
    popped. *)
Theorem vy_capacity_one_overwrites :
  exists r s, vy_init 1 1 = Some r /\ v_capacity r = 1 /\
    vrun ([VPush 0 [x41]] ++ replicate 5 (VGo 0 false) ++ [VReturn 0; VPush 0 [x42]] ++ replicate 5 (VGo 0 false)) (vy_start r 2) = Some s /\
    y_log s = [[x41]; [x42]] /\ y_thr s = [Pushed; VIdle] /\ v_cons_head (y_ring s) = 0 /\ v_slots (y_ring s) = [x42].
Proof. eexists _, _. split; [vm_compute; reflexivity|]. split; [reflexivity|]. split; [vm_compute; reflexivity|]. done. Qed.
