(* ===== verification/Heap.v ===== *)
(** * The data of a channel and the memory it lives in

    The types of [include/libchan.h] and [src/libchan_internal.h], and the state
    and error monad in which the library's functions are written.

    A pointer is an address, 0 is NULL.  Each kind of object has its own typed
    store, so a pointer that does not point to a live object of the right type
    is undefined behaviour when it is used: a waiter lives in its thread's stack
    frame and disappears from the store when the function that declared it
    returns. *)

From S2P Require Import Prelude RingLf.

(** ** Public types *)

Inductive chan_err_t :=
| CHAN_OK
| CHAN_ERR_CLOSED
| CHAN_ERR_TIMEOUT
| CHAN_ERR_WOULDBLOCK
| CHAN_ERR_INVALID
| CHAN_ERR_NOMEM.

Inductive chan_op_t := CHAN_OP_SEND | CHAN_OP_RECV.

#[export] Instance chan_err_eq_dec : EqDecision chan_err_t.
Proof. solve_decision. Defined.
#[export] Instance chan_op_eq_dec : EqDecision chan_op_t.
Proof. solve_decision. Defined.

(** The enumerators' values. *)
Definition err_code (e : chan_err_t) : Z :=
  match e with
  | CHAN_OK => 0 | CHAN_ERR_CLOSED => 1 | CHAN_ERR_TIMEOUT => 2
  | CHAN_ERR_WOULDBLOCK => 3 | CHAN_ERR_INVALID => 4 | CHAN_ERR_NOMEM => 5
  end.

Definition ptr := Z.
Definition NULL : ptr := 0.

(** ** Waiters, wait queues, channels *)

Definition WAITER_WAITING : Z := 0.
Definition WAITER_WOKEN : Z := 1.
Definition LIBCHAN_FASTPATH_SPIN : nat := 64.
Definition LIBCHAN_SPSC_PARK_BACKSTOP_NS : Z := 1000000.

(** [struct chan_waiter]; the embedded park is a cell of the park store at the
    waiter's own address. *)
Record chan_waiter := mk_waiter {
  w_next : ptr;
  w_data : ptr;
  w_op : chan_op_t;
  w_result : chan_err_t;
  w_case_idx : Z;
  w_wake_park : ptr;
  w_select_state : ptr
}.

Record chan_waitq_t := mk_waitq { q_head : ptr; q_tail : ptr }.

Record chan := mk_chan {
  ch_elem_size : Z;
  ch_capacity : Z;
  ch_spsc : bool;
  ch_locked : bool;           (* the state of [lock] *)
  ch_ring : chan_ring_lf_t;
  send_waiter_cnt : Z;
  recv_waiter_cnt : Z;
  send_waiters : chan_waitq_t;
  recv_waiters : chan_waitq_t;
  closed : bool;
  refcount : Z
}.

(** ** Memory *)

Record heap := mk_heap {
  h_chan : gmap ptr chan;
  h_wait : gmap ptr chan_waiter;
  h_park : gmap ptr Z;             (* chan_park_t: the futex word *)
  h_state : gmap ptr Z;            (* the shared _Atomic int of a select *)
  h_mem : gmap ptr (list byte);    (* the callers' buffers *)
  h_lost : list (list byte)        (* ring blocks whose channel was freed before them: leaked *)
}.

Definition set_ch_elem_size v x := mk_chan v (ch_capacity x) (ch_spsc x) (ch_locked x) (ch_ring x) (send_waiter_cnt x) (recv_waiter_cnt x) (send_waiters x) (recv_waiters x) (closed x) (refcount x).
Definition set_ch_capacity v x := mk_chan (ch_elem_size x) v (ch_spsc x) (ch_locked x) (ch_ring x) (send_waiter_cnt x) (recv_waiter_cnt x) (send_waiters x) (recv_waiters x) (closed x) (refcount x).
Definition set_ch_spsc v x := mk_chan (ch_elem_size x) (ch_capacity x) v (ch_locked x) (ch_ring x) (send_waiter_cnt x) (recv_waiter_cnt x) (send_waiters x) (recv_waiters x) (closed x) (refcount x).
Definition set_ch_locked v x := mk_chan (ch_elem_size x) (ch_capacity x) (ch_spsc x) v (ch_ring x) (send_waiter_cnt x) (recv_waiter_cnt x) (send_waiters x) (recv_waiters x) (closed x) (refcount x).
Definition set_ch_ring v x := mk_chan (ch_elem_size x) (ch_capacity x) (ch_spsc x) (ch_locked x) v (send_waiter_cnt x) (recv_waiter_cnt x) (send_waiters x) (recv_waiters x) (closed x) (refcount x).
Definition set_send_waiter_cnt v x := mk_chan (ch_elem_size x) (ch_capacity x) (ch_spsc x) (ch_locked x) (ch_ring x) v (recv_waiter_cnt x) (send_waiters x) (recv_waiters x) (closed x) (refcount x).
Definition set_recv_waiter_cnt v x := mk_chan (ch_elem_size x) (ch_capacity x) (ch_spsc x) (ch_locked x) (ch_ring x) (send_waiter_cnt x) v (send_waiters x) (recv_waiters x) (closed x) (refcount x).
Definition set_send_waiters v x := mk_chan (ch_elem_size x) (ch_capacity x) (ch_spsc x) (ch_locked x) (ch_ring x) (send_waiter_cnt x) (recv_waiter_cnt x) v (recv_waiters x) (closed x) (refcount x).
Definition set_recv_waiters v x := mk_chan (ch_elem_size x) (ch_capacity x) (ch_spsc x) (ch_locked x) (ch_ring x) (send_waiter_cnt x) (recv_waiter_cnt x) (send_waiters x) v (closed x) (refcount x).
Definition set_closed v x := mk_chan (ch_elem_size x) (ch_capacity x) (ch_spsc x) (ch_locked x) (ch_ring x) (send_waiter_cnt x) (recv_waiter_cnt x) (send_waiters x) (recv_waiters x) v (refcount x).
Definition set_refcount v x := mk_chan (ch_elem_size x) (ch_capacity x) (ch_spsc x) (ch_locked x) (ch_ring x) (send_waiter_cnt x) (recv_waiter_cnt x) (send_waiters x) (recv_waiters x) (closed x) v.

Definition set_w_next v x := mk_waiter v (w_data x) (w_op x) (w_result x) (w_case_idx x) (w_wake_park x) (w_select_state x).
Definition set_w_result v x := mk_waiter (w_next x) (w_data x) (w_op x) v (w_case_idx x) (w_wake_park x) (w_select_state x).

Definition set_h_chan v x := mk_heap v (h_wait x) (h_park x) (h_state x) (h_mem x) (h_lost x).
Definition set_h_wait v x := mk_heap (h_chan x) v (h_park x) (h_state x) (h_mem x) (h_lost x).
Definition set_h_park v x := mk_heap (h_chan x) (h_wait x) v (h_state x) (h_mem x) (h_lost x).
Definition set_h_state v x := mk_heap (h_chan x) (h_wait x) (h_park x) v (h_mem x) (h_lost x).
Definition set_h_mem v x := mk_heap (h_chan x) (h_wait x) (h_park x) (h_state x) v (h_lost x).
Definition set_h_lost v x := mk_heap (h_chan x) (h_wait x) (h_park x) (h_state x) (h_mem x) v.

(** ** Programs *)

Definition M (A : Type) : Type := heap -> res (A * heap).

#[export] Instance M_ret : MRet M := fun A a h => Ret (a, h).
#[export] Instance M_bind : MBind M := fun A B f m h =>
  match m h with
  | Ret (a, h') => f a h'
  | Undef => Undef
  | Hang => Hang
  end.

Definition undef {A} : M A := fun _ => Undef.
Definition hang {A} : M A := fun _ => Hang.
Definition gets {A} (f : heap -> A) : M A := fun h => Ret (f h, h).
Definition lift {A} (m : res A) : M A := fun h => let! a := m in Ret (a, h).

(** Typed loads and stores. *)
Definition load_chan (p : ptr) : M chan := fun h => let! c := deref (h_chan h !! p) in Ret (c, h).
Definition load_waiter (p : ptr) : M chan_waiter := fun h => let! w := deref (h_wait h !! p) in Ret (w, h).
Definition load_park (p : ptr) : M Z := fun h => let! w := deref (h_park h !! p) in Ret (w, h).
Definition load_state (p : ptr) : M Z := fun h => let! w := deref (h_state h !! p) in Ret (w, h).
Definition load_mem (p : ptr) : M (list byte) := fun h => let! b := deref (h_mem h !! p) in Ret (b, h).

Definition modify_chan (p : ptr) (f : chan -> chan) : M unit := fun h =>
  let! c := deref (h_chan h !! p) in Ret (tt, set_h_chan (<[p := f c]> (h_chan h)) h).
Definition modify_waiter (p : ptr) (f : chan_waiter -> chan_waiter) : M unit := fun h =>
  let! w := deref (h_wait h !! p) in Ret (tt, set_h_wait (<[p := f w]> (h_wait h)) h).
Definition store_park (p : ptr) (v : Z) : M unit := fun h =>
  let! _ := deref (h_park h !! p) in Ret (tt, set_h_park (<[p := v]> (h_park h)) h).
Definition store_state (p : ptr) (v : Z) : M unit := fun h =>
  let! _ := deref (h_state h !! p) in Ret (tt, set_h_state (<[p := v]> (h_state h)) h).
Definition store_mem (p : ptr) (b : list byte) : M unit := fun h =>
  let! _ := deref (h_mem h !! p) in Ret (tt, set_h_mem (<[p := b]> (h_mem h)) h).

(** Reading one member of a channel or of a waiter: [ch->f], [w->f]. *)
Definition field {B} (f : chan -> B) (ch : ptr) : M B := c ← load_chan ch; mret (f c).
Definition wfield {B} (f : chan_waiter -> B) (w : ptr) : M B := ww ← load_waiter w; mret (f ww).

(** [atomic_fetch_add(&ch->cnt, d)] on the [_Atomic int] counters, which wrap. *)
Definition add_send_cnt (d : Z) (c : chan) : chan := set_send_waiter_cnt (i32 (send_waiter_cnt c + d)) c.
Definition add_recv_cnt (d : Z) (c : chan) : chan := set_recv_waiter_cnt (i32 (recv_waiter_cnt c + d)) c.
Definition add_refcount (d : Z) (c : chan) : chan := set_refcount (i32 (refcount c + d)) c.

(** A local variable coming to life at its stack address. *)
Definition new_waiter (p : ptr) (w : chan_waiter) : M unit := fun h =>
  Ret (tt, set_h_wait (<[p := w]> (h_wait h)) h).

(** [memcpy(dst, src, n)] between two callers' buffers. *)
Definition mem_copy (dst src : ptr) (n : Z) : M unit :=
  s ← load_mem src; d ← load_mem dst; b ← lift (memcpy d 0 s 0 n); store_mem dst b.

(** ** The channel mutex

    A program runs alone between its blocking points, so locking a mutex that is
    already locked never returns. *)
Definition chan_lock (ch : ptr) : M unit :=
  c ← load_chan ch; if ch_locked c then hang else modify_chan ch (set_ch_locked true).
Definition chan_unlock (ch : ptr) : M unit :=
  c ← load_chan ch; if ch_locked c then modify_chan ch (set_ch_locked false) else undef.

(** ** The ring of a channel *)

Definition ring_push (ch data : ptr) : M bool :=
  c ← load_chan ch; d ← load_mem data;
  '(b, r) ← lift (ring_lf_push (ch_ring c) d);
  modify_chan ch (set_ch_ring r);; mret b.

Definition ring_pop (ch out : ptr) : M bool :=
  c ← load_chan ch; o ← load_mem out;
  '(b, o', r) ← lift (ring_lf_pop (ch_ring c) o);
  store_mem out o';; modify_chan ch (set_ch_ring r);; mret b.

Definition chan_ring_full (ch : ptr) : M bool := field (fun c => ring_full (ch_ring c)) ch.
Definition chan_ring_empty (ch : ptr) : M bool := field (fun c => ring_empty (ch_ring c)) ch.

(** ** Parking

    [chan_park_wake] as the other side sees it: the word is set.  How a sleeping
    thread comes to observe it is the subject of [Park]. *)
Definition chan_park_init (p : ptr) : M unit := fun h => Ret (tt, set_h_park (<[p := 0]> (h_park h)) h).
Definition chan_park_wake (p : ptr) : M unit := store_park p 1.

(** ** Blocking operations

    A blocking call either has returned, or its thread is inside
    [chan_park_wait(pk, timeout_ns)] and goes on with [k woken] when that call
    returns [woken].  Between two such points it runs alone. *)
Inductive flow (A : Type) : Type :=
| Done (a : A)
| Park (pk : ptr) (timeout_ns : Z) (k : bool -> heap -> res (flow A * heap)).
Arguments Done {A} a.
Arguments Park {A} pk timeout_ns k.

(** ** Total-correctness triples

    [wp m Q h]: started in [h], [m] returns (no undefined behaviour, no hang)
    and its result and final heap satisfy [Q]. *)
Definition wp {A} (m : M A) (Q : A -> heap -> Prop) (h : heap) : Prop :=
  match m h with Ret (a, h') => Q a h' | _ => False end.

Lemma wp_ret {A} (a : A) Q h : Q a h -> wp (mret a) Q h.
Proof. done. Qed.

Lemma wp_bind {A B} (m : M A) (k : A -> M B) Q h :
  wp m (fun a h' => wp (k a) Q h') h -> wp (m ≫= k) Q h.
Proof. unfold wp, mbind, M_bind. by destruct (m h) as [[a h']| |]. Qed.

Lemma wp_mono {A} (m : M A) (P Q : A -> heap -> Prop) h :
  (forall a h', P a h' -> Q a h') -> wp m P h -> wp m Q h.
Proof. unfold wp. destruct (m h) as [[a h']| |]; auto. Qed.

Lemma wp_Ret {A} (m : M A) Q h : wp m Q h <-> exists a h', m h = Ret (a, h') /\ Q a h'.
Proof.
  unfold wp. split.
  - destruct (m h) as [[a h']| |]; [eauto|done..].
  - by intros (a & h' & -> & HQ).
Qed.

Lemma wp_eval {A} (m : M A) Q h a h' : m h = Ret (a, h') -> Q a h' -> wp m Q h.
Proof. unfold wp. by intros ->. Qed.

Lemma wp_gets {A} (f : heap -> A) Q h : Q (f h) h -> wp (gets f) Q h.
Proof. done. Qed.

Lemma wp_load_chan p c Q h : h_chan h !! p = Some c -> Q c h -> wp (load_chan p) Q h.
Proof. unfold wp, load_chan. by intros ->. Qed.
Lemma wp_load_waiter p w Q h : h_wait h !! p = Some w -> Q w h -> wp (load_waiter p) Q h.
Proof. unfold wp, load_waiter. by intros ->. Qed.
Lemma wp_load_state p w Q h : h_state h !! p = Some w -> Q w h -> wp (load_state p) Q h.
Proof. unfold wp, load_state. by intros ->. Qed.
Lemma wp_load_mem p w Q h : h_mem h !! p = Some w -> Q w h -> wp (load_mem p) Q h.
Proof. unfold wp, load_mem. by intros ->. Qed.

Lemma wp_modify_chan p f c Q h :
  h_chan h !! p = Some c -> Q tt (set_h_chan (<[p := f c]> (h_chan h)) h) -> wp (modify_chan p f) Q h.
Proof. unfold wp, modify_chan. by intros ->. Qed.
Lemma wp_modify_waiter p f w Q h :
  h_wait h !! p = Some w -> Q tt (set_h_wait (<[p := f w]> (h_wait h)) h) -> wp (modify_waiter p f) Q h.
Proof. unfold wp, modify_waiter. by intros ->. Qed.
Lemma wp_store_park p v Q h :
  is_Some (h_park h !! p) -> Q tt (set_h_park (<[p := v]> (h_park h)) h) -> wp (store_park p v) Q h.
Proof. unfold wp, store_park. by intros [? ->]. Qed.
Lemma wp_store_state p v Q h :
  is_Some (h_state h !! p) -> Q tt (set_h_state (<[p := v]> (h_state h)) h) -> wp (store_state p v) Q h.
Proof. unfold wp, store_state. by intros [? ->]. Qed.
Lemma wp_store_mem p v Q h :
  is_Some (h_mem h !! p) -> Q tt (set_h_mem (<[p := v]> (h_mem h)) h) -> wp (store_mem p v) Q h.
Proof. unfold wp, store_mem. by intros [? ->]. Qed.
Lemma wp_lift {A} (m : res A) a Q h : m = Ret a -> Q a h -> wp (lift m) Q h.
Proof. by intros ->. Qed.

(** Solve the lookup of an object known to be live. *)
Ltac live := simpl; first [eassumption | by eauto | by simplify_map_eq | by rewrite lookup_insert_eq].

(** One step of a program whose next action is a primitive. *)
Ltac wp_prim :=
  lazymatch goal with
  | |- wp (mbind _ _) _ _ => apply wp_bind
  | |- wp (mret _) _ _ => apply wp_ret
  | |- wp (gets _) _ _ => apply wp_gets
  | |- wp (load_chan _) _ _ => eapply wp_load_chan; [live|]
  | |- wp (load_waiter _) _ _ => eapply wp_load_waiter; [live|]
  | |- wp (load_state _) _ _ => eapply wp_load_state; [live|]
  | |- wp (load_mem _) _ _ => eapply wp_load_mem; [live|]
  | |- wp (modify_chan _ _) _ _ => eapply wp_modify_chan; [live|]
  | |- wp (modify_waiter _ _) _ _ => eapply wp_modify_waiter; [live|]
  | |- wp (store_park _ _) _ _ => eapply wp_store_park; [live|]
  | |- wp (store_state _ _) _ _ => eapply wp_store_state; [live|]
  | |- wp (store_mem _ _) _ _ => eapply wp_store_mem; [live|]
  | |- wp (lift _) _ _ => eapply wp_lift; [eassumption|]
  end.
Ltac wp_go := repeat (wp_prim; cbv beta).
