(* ===== verification/WaitQ.v ===== *)
(** * Wait queues: the intrusive FIFO lists of [src/libchan_internal.h]

    The queue operations on the linked structure itself (head, tail and the
    waiters' [next] fields), their loops bounded by the number of live waiters,
    and the representation predicate [waitq_rep] under which each of them is the
    corresponding operation on a list of waiters. *)

From S2P Require Import Prelude RingLf Heap.
From stdpp Require Import list.
#[local] Open Scope Z_scope.

(** A queue is named by its channel and the operation its waiters wait for:
    [(ch, CHAN_OP_SEND)] is [&ch->send_waiters]. *)
Definition qref : Type := ptr * chan_op_t.

Definition waitq_of (op : chan_op_t) (c : chan) : chan_waitq_t :=
  match op with CHAN_OP_SEND => send_waiters c | CHAN_OP_RECV => recv_waiters c end.
Definition set_waitq (op : chan_op_t) (v : chan_waitq_t) (c : chan) : chan :=
  match op with CHAN_OP_SEND => set_send_waiters v c | CHAN_OP_RECV => set_recv_waiters v c end.

Definition load_q (q : qref) : M chan_waitq_t := c ← load_chan q.1; mret (waitq_of q.2 c).
Definition set_q_head (q : qref) (v : ptr) : M unit :=
  modify_chan q.1 (fun c => set_waitq q.2 (mk_waitq v (q_tail (waitq_of q.2 c))) c).
Definition set_q_tail (q : qref) (v : ptr) : M unit :=
  modify_chan q.1 (fun c => set_waitq q.2 (mk_waitq (q_head (waitq_of q.2 c)) v) c).

(** ** Operations *)

Definition waitq_push (q : qref) (w : ptr) : M unit :=
  modify_waiter w (set_w_next NULL);;
  qq ← load_q q;
  (if q_tail qq =? NULL then set_q_head q w else modify_waiter (q_tail qq) (set_w_next w));;
  set_q_tail q w.

Definition waitq_push_front (q : qref) (w : ptr) : M unit :=
  qq ← load_q q;
  modify_waiter w (set_w_next (q_head qq));;
  (if q_head qq =? NULL then set_q_tail q w else mret tt);;
  set_q_head q w.

Definition waitq_pop (q : qref) : M ptr :=
  qq ← load_q q;
  let w := q_head qq in
  if w =? NULL then mret NULL
  else
    ww ← load_waiter w;
    set_q_head q (w_next ww);;
    (if w_next ww =? NULL then set_q_tail q NULL else mret tt);;
    modify_waiter w (set_w_next NULL);;
    mret w.

(** Loops over a queue visit each live waiter at most once. *)
Definition loop_fuel (h : heap) : nat := S (size (h_wait h)).

Fixpoint waitq_remove_loop (fuel : nat) (q : qref) (target prev cur : ptr) : M bool :=
  match fuel with
  | O => hang
  | S fuel =>
      if cur =? NULL then mret false
      else
        wc ← load_waiter cur;
        if cur =? target then
          (if prev =? NULL then set_q_head q (w_next wc)
           else modify_waiter prev (set_w_next (w_next wc)));;
          qq ← load_q q;
          (if q_tail qq =? cur then set_q_tail q prev else mret tt);;
          modify_waiter cur (set_w_next NULL);;
          mret true
        else waitq_remove_loop fuel q target cur (w_next wc)
  end.

Definition waitq_remove (q : qref) (target : ptr) : M bool :=
  fuel ← gets loop_fuel;
  qq ← load_q q;
  waitq_remove_loop fuel q target NULL (q_head qq).

Definition waitq_empty (q : qref) : M bool := qq ← load_q q; mret (q_head qq =? NULL).

(** [chan_waiter_t self; waiter_init(&self, data, op)]: the waiter comes to life
    at its stack address. *)
Definition waiter_init (w data : ptr) (op : chan_op_t) : M unit :=
  new_waiter w (mk_waiter NULL data op CHAN_OK (u64 (-1)) NULL NULL);;
  chan_park_init w;;
  modify_waiter w (fun x => mk_waiter (w_next x) (w_data x) (w_op x) (w_result x) (w_case_idx x) w (w_select_state x)).

(** [waiter_destroy(&self)] gives up the park; the waiter itself goes with the
    frame that declared it. *)
Definition waiter_destroy (w : ptr) : M unit := fun h =>
  Ret (tt, set_h_park (delete w (h_park h)) h).
Definition end_frame (w : ptr) : M unit := fun h =>
  Ret (tt, set_h_wait (delete w (h_wait h)) h).

Definition waiter_try_claim (w : ptr) : M bool :=
  ww ← load_waiter w;
  if w_select_state ww =? NULL then mret true
  else
    st ← load_state (w_select_state ww);
    if st =? WAITER_WAITING then store_state (w_select_state ww) WAITER_WOKEN;; mret true
    else mret false.

Fixpoint waitq_pop_claimable (fuel : nat) (q : qref) : M ptr :=
  match fuel with
  | O => hang
  | S fuel =>
      qq ← load_q q;
      if q_head qq =? NULL then mret NULL
      else
        w ← waitq_pop q;
        ok ← waiter_try_claim w;
        if (ok : bool) then mret w else waitq_pop_claimable fuel q
  end.

Definition waitq_pop_sender (ch : ptr) : M ptr :=
  fuel ← gets loop_fuel; waitq_pop_claimable fuel (ch, CHAN_OP_SEND).
Definition waitq_pop_receiver (ch : ptr) : M ptr :=
  fuel ← gets loop_fuel; waitq_pop_claimable fuel (ch, CHAN_OP_RECV).

(** Complete a claimed waiter: [w->result = e; chan_park_wake(w->wake_park)]. *)
Definition complete (w : ptr) (e : chan_err_t) : M unit :=
  modify_waiter w (set_w_result e);;
  pk ← wfield w_wake_park w; chan_park_wake pk.

Fixpoint waitq_close_all_loop (fuel : nat) (q : qref) : M unit :=
  match fuel with
  | O => hang
  | S fuel =>
      w ← waitq_pop q;
      if w =? NULL then mret tt
      else
        ok ← waiter_try_claim w;
        (if (ok : bool) then complete w CHAN_ERR_CLOSED else mret tt);;
        waitq_close_all_loop fuel q
  end.

Definition waitq_close_all (q : qref) : M unit :=
  fuel ← gets loop_fuel; waitq_close_all_loop fuel q.

(** ** Representation *)

(** [l] is the run of waiters linked from [p]; the last one's [next] is [e]. *)
Fixpoint seg (ws : gmap ptr chan_waiter) (p : ptr) (l : list ptr) (e : ptr) : Prop :=
  match l with
  | [] => p = e
  | x :: l => p = x /\ x <> NULL /\ exists w, ws !! x = Some w /\ seg ws (w_next w) l e
  end.

Definition last_ptr (l : list ptr) : ptr := default NULL (last l).

Record queue_rep (ws : gmap ptr chan_waiter) (qq : chan_waitq_t) (l : list ptr) : Prop := {
  rep_nodup : NoDup l;
  rep_seg : seg ws (q_head qq) l NULL;
  rep_tail : q_tail qq = last_ptr l
}.

(** The waiters without their links. *)
Definition unlinked (ws : gmap ptr chan_waiter) : gmap ptr chan_waiter := set_w_next NULL <$> ws.

(** [ws'] is [ws] with the links of some waiters of [l] changed, nothing else. *)
Definition relinked (ws ws' : gmap ptr chan_waiter) (l : list ptr) : Prop :=
  unlinked ws' = unlinked ws /\ forall x, x ∉ l -> ws' !! x = ws !! x.

(** The heap in which the queue [q] of the channel [c] is now [qq] and the
    waiters are [ws]. *)
Definition upd_queue (q : qref) (c : chan) (qq : chan_waitq_t) (ws : gmap ptr chan_waiter) (h : heap) : heap :=
  set_h_wait ws (set_h_chan (<[q.1 := set_waitq q.2 qq c]> (h_chan h)) h).

(** ** Lemmas on links *)

Lemma seg_app ws l1 l2 p e :
  seg ws p (l1 ++ l2) e <-> exists m, seg ws p l1 m /\ seg ws m l2 e.
Proof.
  revert p. induction l1 as [|x l1 IH]; intros p; simpl.
  - naive_solver.
  - setoid_rewrite IH. naive_solver.
Qed.

Lemma seg_frame ws ws' l p e :
  (forall x, x ∈ l -> ws' !! x = ws !! x) -> seg ws p l e -> seg ws' p l e.
Proof.
  revert p. induction l as [|x l IH]; intros p Hf; simpl; [done|].
  intros (-> & Hx & w & Hw & Hs). split; [done|]. split; [done|]. exists w.
  rewrite Hf by set_solver. split; [done|]. apply IH; [|done]. intros y Hy. apply Hf. set_solver.
Qed.

Lemma seg_live ws l p e x : seg ws p l e -> x ∈ l -> x <> NULL /\ is_Some (ws !! x).
Proof.
  revert p. induction l as [|y l IH]; intros p; simpl; [set_solver|].
  intros (-> & Hy & w & Hw & Hs) [->|Hx]%elem_of_cons; [by eauto|]. by eapply IH.
Qed.

(** Redirecting the last link of a run. *)
Lemma seg_relink ws l x p e w v :
  x ∉ l -> ws !! x = Some w -> seg ws p (l ++ [x]) e ->
  seg (<[x := set_w_next v w]> ws) p (l ++ [x]) v.
Proof.
  intros Hx Hw. rewrite !seg_app. intros (m & Hl & Hs). exists m. split.
  - eapply seg_frame, Hl. intros y Hy. apply lookup_insert_ne. set_solver.
  - simpl in *. destruct Hs as (-> & Hn & _). split; [done|]. split; [done|].
    exists (set_w_next v w). by rewrite lookup_insert_eq.
Qed.

Lemma last_ptr_snoc l x : last_ptr (l ++ [x]) = x.
Proof. unfold last_ptr. by rewrite last_snoc. Qed.

Lemma last_ptr_cons x y l : last_ptr (x :: y :: l) = last_ptr (y :: l).
Proof. done. Qed.

Lemma last_ptr_elem x l : last_ptr (x :: l) ∈ x :: l.
Proof.
  unfold last_ptr. destruct (last_is_Some (x :: l)) as [_ [y Hy]]; [done|].
  rewrite Hy. simpl. by apply last_Some_elem_of.
Qed.

(** The tail pointer after [t] has been unlinked. *)
Lemma last_ptr_remove l1 t l2 :
  t ∉ l1 ++ l2 ->
  (if last_ptr (l1 ++ t :: l2) =? t then last_ptr l1 else last_ptr (l1 ++ t :: l2))
  = last_ptr (l1 ++ l2).
Proof.
  intros Ht. destruct l2 as [|x l2].
  - by rewrite last_ptr_snoc, Z.eqb_refl, app_nil_r.
  - assert (last_ptr (l1 ++ t :: x :: l2) = last_ptr (x :: l2)) as ->
      by (unfold last_ptr; by rewrite last_app_cons).
    assert (last_ptr (l1 ++ x :: l2) = last_ptr (x :: l2)) as ->
      by (unfold last_ptr; by rewrite last_app_cons).
    pose proof (last_ptr_elem x l2). rewrite (proj2 (Z.eqb_neq _ t)); [done|]. set_solver.
Qed.

Lemma unlinked_insert ws x w v :
  ws !! x = Some w -> unlinked (<[x := set_w_next v w]> ws) = unlinked ws.
Proof.
  intros Hw. unfold unlinked. rewrite fmap_insert. apply insert_id.
  by rewrite lookup_fmap, Hw.
Qed.

Lemma relinked_refl ws l : relinked ws ws l.
Proof. done. Qed.

Lemma relinked_insert ws ws' l x w v :
  relinked ws ws' l -> x ∈ l -> ws' !! x = Some w -> relinked ws (<[x := set_w_next v w]> ws') l.
Proof.
  intros [Hu Hf] Hx Hw. split; [by rewrite unlinked_insert|].
  intros y Hy. rewrite lookup_insert_ne by set_solver. auto.
Qed.

Lemma relinked_rep ws ws' l qq l' :
  relinked ws ws' l -> l ## l' -> queue_rep ws qq l' -> queue_rep ws' qq l'.
Proof.
  intros [_ Hf] Hd [Hn Hs Ht]. split; [done| |done]. eapply seg_frame, Hs. set_solver.
Qed.

#[export] Hint Resolve relinked_refl relinked_insert : libchan.

(** ** The operations on represented queues *)

Lemma waitq_of_set op v c : waitq_of op (set_waitq op v c) = v.
Proof. by destruct op. Qed.

Lemma set_waitq_twice op v v' c : set_waitq op v (set_waitq op v' c) = set_waitq op v c.
Proof. by destruct op. Qed.

Lemma set_waitq_same op c : set_waitq op (waitq_of op c) c = c.
Proof. by destruct op, c. Qed.

Lemma wp_load_q q c Q h : h_chan h !! q.1 = Some c -> Q (waitq_of q.2 c) h -> wp (load_q q) Q h.
Proof. intros. unfold load_q. by wp_go. Qed.

Ltac waitq_go :=
  repeat (first [wp_prim | progress unfold load_q, set_q_head, set_q_tail]; simpl).

Section operations.
Context (q : qref) (c : chan) (l : list ptr) (h : heap).
Hypothesis Hc : h_chan h !! q.1 = Some c.
Hypothesis Hl : queue_rep (h_wait h) (waitq_of q.2 c) l.

Lemma upd_queue_same : upd_queue q c (waitq_of q.2 c) (h_wait h) h = h.
Proof using Hc. clear Hl. unfold upd_queue. rewrite set_waitq_same, insert_id by done. by destruct h. Qed.

Lemma waitq_push_wp w ww (Q : unit -> heap -> Prop) :
  h_wait h !! w = Some ww -> w <> NULL -> w ∉ l ->
  (forall qq ws, queue_rep ws qq (l ++ [w]) -> relinked (h_wait h) ws (l ++ [w]) ->
     Q tt (upd_queue q c qq ws h)) ->
  wp (waitq_push q w) Q h.
Proof using Hc Hl.
  intros Hw Hn Hwl HQ. destruct Hl as [Hd Hs Ht].
  unfold waitq_push. waitq_go. rewrite Ht.
  destruct l as [|x l' _] using rev_ind.
  - simpl. waitq_go. rewrite insert_insert_eq, waitq_of_set, set_waitq_twice. simpl.
    apply HQ.
    + split; [by apply NoDup_singleton| |done]. simpl. split; [done|]. split; [done|].
      eexists. by rewrite lookup_insert_eq.
    + apply relinked_insert; [done|set_solver|done].
  - rewrite last_ptr_snoc. pose proof Hd as (_ & Hx & _)%NoDup_app.
    assert (x ∈ l' ++ [x]) as Hin by set_solver.
    destruct (seg_live _ _ _ _ _ Hs Hin) as [Hxn [wx Hxw]].
    rewrite (proj2 (Z.eqb_neq x NULL) Hxn).
    assert (x <> w) by set_solver.
    simpl. waitq_go. apply (HQ (mk_waitq _ w) (<[x := _]> (<[w := _]> _))).
    + split; [by apply NoDup_snoc| |by rewrite last_ptr_snoc].
      apply seg_app. exists w. split.
      * apply seg_relink with NULL; [set_solver|by rewrite lookup_insert_ne|].
        eapply seg_frame, Hs. intros y Hy. apply lookup_insert_ne. set_solver.
      * simpl. split; [done|]. split; [done|]. eexists.
        rewrite lookup_insert_ne, lookup_insert_eq by done. done.
    + apply relinked_insert; [apply relinked_insert; [done|set_solver|done]|set_solver|].
      by rewrite lookup_insert_ne.
Qed.

Lemma waitq_push_front_wp w ww (Q : unit -> heap -> Prop) :
  h_wait h !! w = Some ww -> w <> NULL -> w ∉ l ->
  (forall qq ws, queue_rep ws qq (w :: l) -> relinked (h_wait h) ws [w] ->
     Q tt (upd_queue q c qq ws h)) ->
  wp (waitq_push_front q w) Q h.
Proof using Hc Hl.
  intros Hw Hn Hwl HQ. destruct Hl as [Hd Hs Ht].
  unfold waitq_push_front. waitq_go.
  assert (forall qq, q_head qq = w -> q_tail qq = last_ptr (w :: l) ->
    Q tt (upd_queue q c qq (<[w := set_w_next (q_head (waitq_of q.2 c)) ww]> (h_wait h)) h)) as HQ'.
  { intros qq Hqh Hqt. apply HQ; [|apply relinked_insert; [done|set_solver|done]].
    split; [by apply NoDup_cons| |done]. simpl. split; [done|]. split; [done|].
    eexists. split; [by rewrite lookup_insert_eq|]. simpl.
    eapply seg_frame, Hs. intros y Hy. apply lookup_insert_ne. set_solver. }
  destruct l as [|x l'].
  - simpl in Hs. rewrite Hs. simpl. waitq_go. rewrite insert_insert_eq, waitq_of_set, set_waitq_twice.
    rewrite <- Hs. by apply HQ'.
  - destruct Hs as (E & Hx & _). rewrite E, (proj2 (Z.eqb_neq x NULL) Hx). rewrite <- E.
    waitq_go. by apply HQ'.
Qed.

(** Popping the empty queue changes nothing; popping [x :: l'] unlinks [x]. *)
Lemma waitq_pop_wp (Q : ptr -> heap -> Prop) :
  match l with
  | [] => Q NULL h
  | x :: l' => forall qq ws, x <> NULL -> queue_rep ws qq l' -> relinked (h_wait h) ws [x] ->
      Q x (upd_queue q c qq ws h)
  end ->
  wp (waitq_pop q) Q h.
Proof using Hc Hl.
  intros HQ. destruct Hl as [Hd Hs Ht]. unfold waitq_pop. waitq_go.
  destruct l as [|x l'].
  - simpl in Hs. rewrite Hs. simpl. waitq_go. done.
  - destruct Hs as (E & Hx & w & Hw & Hs). rewrite E, (proj2 (Z.eqb_neq x NULL) Hx).
    apply NoDup_cons in Hd as [Hxl Hd]. waitq_go.
    assert (forall qq, q_head qq = w_next w -> q_tail qq = last_ptr l' ->
      Q x (upd_queue q c qq (<[x := set_w_next NULL w]> (h_wait h)) h)) as HQ'.
    { intros qq Hqh Hqt. apply HQ; [done| |apply relinked_insert; [done|set_solver|done]].
      split; [done| |done]. rewrite Hqh. eapply seg_frame, Hs. intros y Hy. apply lookup_insert_ne. set_solver. }
    destruct l' as [|y l'].
    + simpl in Hs. rewrite Hs. simpl. waitq_go. rewrite insert_insert_eq, waitq_of_set, set_waitq_twice.
      by apply HQ'.
    + destruct Hs as (E' & Hy & _). rewrite E', (proj2 (Z.eqb_neq y NULL) Hy).
      waitq_go. apply HQ'; [done|]. simpl. rewrite Ht. apply last_ptr_cons.
Qed.

(** Unlinking [target] once the scan has found it behind [l1]. *)
Lemma remove_here l1 l2 target w (Q : bool -> heap -> Prop) :
  l = l1 ++ target :: l2 -> h_wait h !! target = Some w -> target <> NULL ->
  seg (h_wait h) (q_head (waitq_of q.2 c)) l1 target -> seg (h_wait h) (w_next w) l2 NULL ->
  (forall qq ws, queue_rep ws qq (l1 ++ l2) -> relinked (h_wait h) ws l -> Q true (upd_queue q c qq ws h)) ->
  wp ((if last_ptr l1 =? NULL then set_q_head q (w_next w)
       else modify_waiter (last_ptr l1) (set_w_next (w_next w)));;
      qq ← load_q q;
      (if q_tail qq =? target then set_q_tail q (last_ptr l1) else mret tt);;
      modify_waiter target (set_w_next NULL);; mret true) Q h.
Proof using Hc Hl.
  intros El Hw Ht Hs1 Hs2 HQ. destruct Hl as [Hd _ Htl].
  pose proof Hd as Hd'. rewrite El in Hd'. apply NoDup_app in Hd' as (Hd1 & Hd12 & [Ht2 Hd2]%NoDup_cons).
  assert (NoDup (l1 ++ l2)) as Hd' by (apply NoDup_app; set_solver).
  assert (target ∉ l1 ++ l2) as Htn by set_solver.
  assert ((if q_tail (waitq_of q.2 c) =? target then last_ptr l1 else q_tail (waitq_of q.2 c))
          = last_ptr (l1 ++ l2)) as Htail by (rewrite Htl, El; by apply last_ptr_remove).
  assert (forall hd ws, seg ws hd (l1 ++ l2) NULL -> relinked (h_wait h) ws l ->
    ws !! target = Some w ->
    Q true (upd_queue q c (mk_waitq hd (last_ptr (l1 ++ l2))) (<[target := set_w_next NULL w]> ws) h)) as HQ'.
  { intros hd ws Hs Hr Hwt. apply HQ; [|apply relinked_insert; [done|set_solver|done]].
    split; [done| |done]. eapply seg_frame, Hs. intros y Hy. apply lookup_insert_ne. set_solver. }
  rewrite <- Htail in HQ'. clear Htail HQ.
  destruct l1 as [|x l1' _] using rev_ind.
  - specialize (HQ' (w_next w) (h_wait h) Hs2 ltac:(done) Hw).
    simpl. waitq_go. rewrite waitq_of_set. simpl.
    destruct (q_tail (waitq_of q.2 c) =? target); waitq_go;
      rewrite ?insert_insert_eq, ?waitq_of_set, ?set_waitq_twice; exact HQ'.
  - rewrite last_ptr_snoc in *. destruct (seg_live _ _ _ _ x Hs1) as [Hx [wx Hwx]]; [set_solver|].
    apply NoDup_app in Hd1 as (_ & Hx1 & _).
    assert (x <> target) by set_solver.
    rewrite (proj2 (Z.eqb_neq x NULL) Hx). waitq_go.
    specialize (HQ' (q_head (waitq_of q.2 c)) (<[x := set_w_next (w_next w) wx]> (h_wait h))).
    assert (seg (<[x := set_w_next (w_next w) wx]> (h_wait h)) (q_head (waitq_of q.2 c)) ((l1' ++ [x]) ++ l2) NULL) as Hseg.
    { apply seg_app. exists (w_next w). split; [apply seg_relink with target; [set_solver|done|done]|].
      eapply seg_frame, Hs2. intros y Hy. apply lookup_insert_ne. set_solver. }
    specialize (HQ' Hseg (relinked_insert _ _ l x wx _ ltac:(done) ltac:(set_solver) Hwx)
      ltac:(by rewrite lookup_insert_ne)).
    destruct (q_tail (waitq_of q.2 c) =? target); waitq_go; [exact HQ'|].
    replace (mk_waitq _ _) with (waitq_of q.2 c) in HQ' by (by destruct (waitq_of q.2 c)).
    unfold upd_queue in HQ'. rewrite set_waitq_same, (insert_id (h_chan h)) in HQ' by done. exact HQ'.
Qed.

Lemma waitq_remove_loop_wp fuel l1 l2 target cur (Q : bool -> heap -> Prop) :
  l = l1 ++ l2 -> target ∉ l1 -> (length l2 < fuel)%nat ->
  seg (h_wait h) (q_head (waitq_of q.2 c)) l1 cur -> seg (h_wait h) cur l2 NULL ->
  (target ∉ l -> Q false h) ->
  (forall k1 k2 qq ws, l = k1 ++ target :: k2 -> queue_rep ws qq (k1 ++ k2) ->
     relinked (h_wait h) ws l -> Q true (upd_queue q c qq ws h)) ->
  wp (waitq_remove_loop fuel q target (last_ptr l1) cur) Q h.
Proof using Hc Hl.
  revert l1 l2 cur. induction fuel as [|fuel IH]; intros l1 l2 cur El Ht1 Hf Hs1 Hs2 HF HT; [lia|].
  destruct l2 as [|x l2]; simpl in Hs2.
  { rewrite Hs2. simpl. apply wp_ret, HF. by rewrite El, app_nil_r. }
  destruct Hs2 as (-> & Hx & w & Hw & Hs2). simpl. rewrite (proj2 (Z.eqb_neq x NULL) Hx).
  waitq_go. destruct (Z.eqb_spec x target) as [->|Hne].
  - apply (remove_here l1 l2); try done. intros qq ws. by apply HT.
  - replace x with (last_ptr (l1 ++ [x])) at 1 by apply last_ptr_snoc.
    apply IH with l2; try done.
    + by rewrite <- app_assoc.
    + set_solver.
    + simpl in Hf. lia.
    + apply seg_app. exists x. split; [done|]. simpl. eauto.
Qed.

Lemma queue_size : (length l <= size (h_wait h))%nat.
Proof using Hl.
  destruct Hl as [Hd Hs _]. rewrite <- (size_list_to_set (C := gset ptr)) by done.
  rewrite <- size_dom. apply subseteq_size. intros x Hx%elem_of_list_to_set.
  apply elem_of_dom. by eapply seg_live.
Qed.

Lemma waitq_remove_wp target (Q : bool -> heap -> Prop) :
  (target ∉ l -> Q false h) ->
  (forall k1 k2 qq ws, l = k1 ++ target :: k2 -> queue_rep ws qq (k1 ++ k2) ->
     relinked (h_wait h) ws l -> Q true (upd_queue q c qq ws h)) ->
  wp (waitq_remove q target) Q h.
Proof using Hc Hl.
  intros HF HT. unfold waitq_remove.
  apply wp_bind, wp_gets, wp_bind. apply (wp_load_q _ c); [done|].
  apply (waitq_remove_loop_wp _ [] l); try done; [set_solver| |by destruct Hl].
  pose proof queue_size. unfold loop_fuel. lia.
Qed.

Lemma waitq_empty_wp (Q : bool -> heap -> Prop) :
  Q (bool_decide (l = [])) h -> wp (waitq_empty q) Q h.
Proof using Hc Hl.
  intros HQ. unfold waitq_empty. waitq_go. destruct Hl as [_ Hs _].
  replace (q_head (waitq_of q.2 c) =? NULL) with (bool_decide (l = [])); [done|].
  destruct l as [|x l']; simpl in Hs; [by rewrite Hs|].
  destruct Hs as (-> & Hx & _). symmetry. by apply Z.eqb_neq.
Qed.
End operations.

(** ** Theorems *)

(** C15: On a queue that represents the list [l] of waiters, head first, the intrusive
    list operations are the list operations: push appends, push_front prepends,
    pop takes the head or returns NULL, remove deletes the waiter wherever it is
    and tells whether it was there.  Each of them returns (the scan terminates),
    keeps head, tail and links consistent, and changes nothing but the links of
    the waiters it names or passes. *)
Theorem waitq_refines_list q c l h w ww
    (Hc : h_chan h !! q.1 = Some c) (Hl : queue_rep (h_wait h) (waitq_of q.2 c) l)
    (Hw : h_wait h !! w = Some ww) (Hn : w <> NULL) :
  (w ∉ l -> exists qq ws, waitq_push q w h = Ret (tt, upd_queue q c qq ws h) /\
     queue_rep ws qq (l ++ [w]) /\ relinked (h_wait h) ws (l ++ [w])) /\
  (w ∉ l -> exists qq ws, waitq_push_front q w h = Ret (tt, upd_queue q c qq ws h) /\
     queue_rep ws qq (w :: l) /\ relinked (h_wait h) ws [w]) /\
  (exists qq ws, waitq_pop q h = Ret (default NULL (head l), upd_queue q c qq ws h) /\
     queue_rep ws qq (tail l) /\ relinked (h_wait h) ws (take 1 l)) /\
  (exists qq ws, waitq_remove q w h = Ret (bool_decide (w ∈ l), upd_queue q c qq ws h) /\
     queue_rep ws qq (filter (.≠ w) l) /\ relinked (h_wait h) ws l).
Proof.
  assert (forall A (m : M A) x (P : _ -> _ -> Prop),
    wp m (fun y h' => exists qq ws, y = x /\ h' = upd_queue q c qq ws h /\ P qq ws) h ->
    exists qq ws, m h = Ret (x, upd_queue q c qq ws h) /\ P qq ws) as Hrun.
  { intros A m x P (y & h' & E & qq & ws & -> & -> & HP)%wp_Ret. eauto. }
  split; [|split; [|split]].
  - intros Hwl. apply Hrun. eapply waitq_push_wp; eauto 8.
  - intros Hwl. apply Hrun. eapply waitq_push_front_wp; eauto 8.
  - apply Hrun. eapply waitq_pop_wp; [done..|]. destruct l as [|x l']; [|eauto 8].
    exists (waitq_of q.2 c), (h_wait h). by rewrite upd_queue_same.
  - apply Hrun. eapply waitq_remove_wp; [done..| |].
    + intros Hwl. exists (waitq_of q.2 c), (h_wait h).
      rewrite upd_queue_same, bool_decide_eq_false_2, filter_notin by done. done.
    + intros k1 k2 qq ws E Hq Hre. exists qq, ws.
      destruct Hl as [Hd _ _]. rewrite E in Hd. apply NoDup_app in Hd as (_ & Hd & [Hk2 _]%NoDup_cons).
      rewrite bool_decide_eq_true_2, E, filter_middle by (rewrite ?E; set_solver). rewrite <- E. done.
Qed.

(** Two waiters queued, a third outside. *)
Definition heap_q : heap :=
  let w next := mk_waiter next NULL CHAN_OP_SEND CHAN_OK 0 NULL NULL in
  mk_heap {[1 := mk_chan 1 0 false true (mk_ring 0 0 0 0 0 0 0 0 0 None) 0 0 (mk_waitq 10 11) (mk_waitq NULL NULL) false 1]}
    (<[10 := w 11]> (<[11 := w NULL]> {[12 := w NULL]})) ∅ ∅ ∅ [].

Lemma waitq_refines_list_witness :
  exists c, let q := (1, CHAN_OP_SEND) in
  (12 ∉ [10; 11] -> exists qq ws, waitq_push q 12 heap_q = Ret (tt, upd_queue q c qq ws heap_q) /\
     queue_rep ws qq ([10; 11] ++ [12]) /\ relinked (h_wait heap_q) ws ([10; 11] ++ [12])) /\
  (12 ∉ [10; 11] -> exists qq ws, waitq_push_front q 12 heap_q = Ret (tt, upd_queue q c qq ws heap_q) /\
     queue_rep ws qq (12 :: [10; 11]) /\ relinked (h_wait heap_q) ws [12]) /\
  (exists qq ws, waitq_pop q heap_q = Ret (default NULL (head [10; 11]), upd_queue q c qq ws heap_q) /\
     queue_rep ws qq (tail [10; 11]) /\ relinked (h_wait heap_q) ws (take 1 [10; 11])) /\
  (exists qq ws, waitq_remove q 12 heap_q = Ret (bool_decide (12 ∈ [10; 11]), upd_queue q c qq ws heap_q) /\
     queue_rep ws qq (filter (.≠ 12) [10; 11]) /\ relinked (h_wait heap_q) ws [10; 11]).
Proof.
  eexists. apply (waitq_refines_list (1, CHAN_OP_SEND) _ [10; 11] heap_q 12
    (mk_waiter NULL NULL CHAN_OP_SEND CHAN_OK 0 NULL NULL) eq_refl); [|reflexivity|discriminate].
  split; [|simpl|reflexivity].
  - apply NoDup_cons. split; [set_solver|apply NoDup_singleton].
  - do 2 (split; [done|]; split; [done|]; eexists; split; [reflexivity|]; simpl). done.
Defined.
