(* ===== verification/Park.v ===== *)
(** * Parking: [src/park.c], both back ends

    One blocked thread inside [chan_park_wait] and one waker inside
    [chan_park_wake], interleaved access by access.  The kernel's futex and the
    pthread condition variable are part of the machine, with the behaviour their
    manuals document: [FUTEX_WAIT] sleeps only if the word still has the expected
    value, [pthread_cond_wait] releases the mutex and sleeps in one step, either
    may return spuriously, and a wake reaches a thread that sleeps. *)

From S2P Require Import Prelude.
From stdpp Require Import list.
#[local] Open Scope Z_scope.

(** ** [chan_spin_hint] ([src/util.c]) *)

Inductive hint := CpuPause | SchedYield.
Definition chan_spin_hint (iteration : Z) : hint := if iteration <? 8 then CpuPause else SchedYield.

(** ** Deadlines *)

Record timespec := mk_timespec { tv_sec : Z; tv_nsec : Z }.

(** C division truncates towards zero. *)
Definition rel_timespec (timeout_ns : Z) : timespec :=
  mk_timespec (Z.quot timeout_ns 1000000000) (Z.rem timeout_ns 1000000000).

(** [abs += timeout_ns], carrying the nanoseconds. *)
Definition abs_timespec (now : timespec) (timeout_ns : Z) : timespec :=
  let sec := tv_sec now + Z.quot timeout_ns 1000000000 in
  let nsec := tv_nsec now + Z.rem timeout_ns 1000000000 in
  if nsec >=? 1000000000 then mk_timespec (sec + 1) (nsec - 1000000000) else mk_timespec sec nsec.

Definition ns_of (t : timespec) : Z := tv_sec t * 1000000000 + tv_nsec t.
Definition normal (t : timespec) : Prop := 0 <= tv_nsec t < 1000000000.

Module Futex.

(** Where the waiting thread is: the spin of [LIBCHAN_SPIN_LIMIT] rounds, the
    check after it, the test of the loop, the system call, asleep in the
    kernel, or returned. *)
Inductive wpc := WSpin (i : nat) | WCheck | WTest | WCall | WAsleep | WRet (woken : bool).

(** The waker: before the store, between the store and [FUTEX_WAKE], done. *)
Inductive kpc := KIdle | KStored | KDone.

Record park := mk_park { word : Z; waiter : wpc; waker : kpc }.

Definition chan_park_init : park := mk_park 0 (WSpin 0) KIdle.

Inductive label :=
| Waiter          (* the waiting thread's next access *)
| Waker           (* the waker's next access *)
| Interrupt       (* FUTEX_WAIT returns for another reason: EINTR, spurious *)
| Expire.         (* FUTEX_WAIT returns ETIMEDOUT *)

Section machine.
Context (spin_limit : nat) (timeout_ns : Z).

Definition wait_step (s : park) : option park :=
  let goto pc := Some (mk_park (word s) pc (waker s)) in
  match waiter s with
  | WSpin i =>
      if (i <? spin_limit)%nat then
        if negb (word s =? 0) then goto (WRet true) else goto (WSpin (S i))
      else goto WCheck
  | WCheck =>
      if negb (word s =? 0) then goto (WRet true)
      else if timeout_ns =? 0 then goto (WRet false)
      else goto WTest
  | WTest => if word s =? 0 then goto WCall else goto (WRet true)
  | WCall => if word s =? 0 then goto WAsleep else goto WTest     (* EAGAIN *)
  | WAsleep | WRet _ => None
  end.

Definition wake_step (s : park) : option park :=
  match waker s with
  | KIdle => Some (mk_park 1 (waiter s) KStored)
  | KStored =>
      Some (mk_park (word s) (match waiter s with WAsleep => WTest | pc => pc end) KDone)
  | KDone => None
  end.

Definition step (l : label) (s : park) : option park :=
  match l with
  | Waiter => wait_step s
  | Waker => wake_step s
  | Interrupt =>
      match waiter s with WAsleep => Some (mk_park (word s) WTest (waker s)) | _ => None end
  | Expire =>
      match waiter s with
      | WAsleep => if 0 <? timeout_ns then Some (mk_park (word s) (WRet false) (waker s)) else None
      | _ => None
      end
  end.

Definition reachable (s : park) : Prop := exists ls, run step ls chan_park_init = Some s.

(** ** Invariant *)

Record inv (s : park) : Prop := {
  i_word : word s = match waker s with KIdle => 0 | _ => 1 end;
  i_asleep : waiter s = WAsleep -> waker s <> KDone;
  i_true : waiter s = WRet true -> waker s <> KIdle;
  i_false : waiter s = WRet false -> 0 <= timeout_ns;
  i_block : waiter s = WTest \/ waiter s = WCall \/ waiter s = WAsleep -> timeout_ns <> 0
}.

Lemma futex_inv_step l a b : inv a -> step l a = Some b -> inv b.
Proof.
  intros [Hw Ha Ht Hf Hb]. destruct a as [w pc k]; simpl in *.
  destruct l; simpl; unfold wait_step, wake_step; simpl;
    destruct pc, k; simpl in *; repeat case_match; intros; simplify_eq/=;
    split; simpl; naive_solver lia.
Qed.

Lemma futex_reachable_inv s : reachable s -> inv s.
Proof.
  intros [ls Hr]. eapply run_invariant; [exact futex_inv_step| |exact Hr].
  split; simpl; naive_solver.
Qed.

(** Once the waker is done the thread needs at most two more steps of its own. *)
Lemma futex_woken_soon s :
  inv s -> waker s = KDone -> (forall b, waiter s <> WRet b) ->
  exists n s', (n <= 2)%nat /\ run step (repeat Waiter n) s = Some s' /\ waiter s' = WRet true.
Proof.
  intros [Hw Ha _ _ _] Hk Hr. destruct s as [w pc k]; simpl in *; subst.
  destruct pc as [i| | | | |r]; simpl in *; [|exists 1%nat|exists 1%nat|exists 2%nat|by destruct Ha|by destruct (Hr r)].
  - destruct (i <? spin_limit)%nat eqn:Ei; [exists 1%nat|exists 2%nat]; simpl; unfold wait_step; simpl; rewrite Ei;
      eexists; (split; [lia|]); done.
  - eexists; (split; [lia|]); done.
  - eexists; (split; [lia|]); done.
  - eexists; (split; [lia|]); done.
Qed.
End machine.
End Futex.

Module Pthread.

(** The waiting thread: a spin round (a critical section of its own), blocked on
    or inside the final critical section ([PLoop] holds [mu] and is about to test
    [signaled]), asleep in the condition variable, waiting to get [mu] back
    ([expired] tells whether the wait timed out), or returned. *)
Inductive wpc :=
| PSpin (i : nat) | PEnter | PLoop | PAsleep | PRelock (expired : bool) | PRet (woken : bool).

(** The waker: before [pthread_mutex_lock], after the store, after the signal, done. *)
Inductive kpc := KIdle | KSet | KSignalled | KDone.

(** Who holds [mu]. *)
Inductive owner := Free | ByWaiter | ByWaker.

Record park := mk_park { signaled : bool; mu : owner; waiter : wpc; waker : kpc }.

Definition chan_park_init : park := mk_park false Free (PSpin 0) KIdle.

Inductive label := Waiter | Waker | Spurious | Expire.

Section machine.
Context (spin_limit : nat) (timeout_ns : Z).

Definition wait_step (s : park) : option park :=
  match waiter s, mu s with
  | PSpin i, m =>
      if (i <? spin_limit)%nat then
        match m with
        | Free => Some (mk_park (signaled s) Free (if signaled s then PRet true else PSpin (S i)) (waker s))
        | _ => None
        end
      else Some (mk_park (signaled s) m PEnter (waker s))
  | PEnter, Free =>
      if signaled s then Some (mk_park (signaled s) Free (PRet true) (waker s))
      else if timeout_ns =? 0 then Some (mk_park (signaled s) Free (PRet false) (waker s))
      else Some (mk_park (signaled s) ByWaiter PLoop (waker s))
  | PLoop, ByWaiter =>
      if signaled s then Some (mk_park (signaled s) Free (PRet true) (waker s))
      else Some (mk_park (signaled s) Free PAsleep (waker s))       (* pthread_cond_(timed)wait *)
  | PRelock false, Free => Some (mk_park (signaled s) ByWaiter PLoop (waker s))
  | PRelock true, Free => Some (mk_park (signaled s) Free (PRet (signaled s)) (waker s))
  | _, _ => None
  end.

Definition wake_step (s : park) : option park :=
  match waker s, mu s with
  | KIdle, Free => Some (mk_park true ByWaker (waiter s) KSet)
  | KSet, ByWaker =>
      Some (mk_park (signaled s) ByWaker (match waiter s with PAsleep => PRelock false | pc => pc end) KSignalled)
  | KSignalled, ByWaker => Some (mk_park (signaled s) Free (waiter s) KDone)
  | _, _ => None
  end.

Definition step (l : label) (s : park) : option park :=
  match l with
  | Waiter => wait_step s
  | Waker => wake_step s
  | Spurious =>
      match waiter s with PAsleep => Some (mk_park (signaled s) (mu s) (PRelock false) (waker s)) | _ => None end
  | Expire =>
      match waiter s with
      | PAsleep => if 0 <? timeout_ns then Some (mk_park (signaled s) (mu s) (PRelock true) (waker s)) else None
      | _ => None
      end
  end.

Definition reachable (s : park) : Prop := exists ls, run step ls chan_park_init = Some s.

Record inv (s : park) : Prop := {
  i_flag : signaled s = match waker s with KIdle => false | _ => true end;
  i_mu : match mu s with
         | Free => waiter s <> PLoop /\ (waker s = KIdle \/ waker s = KDone)
         | ByWaiter => waiter s = PLoop /\ (waker s = KIdle \/ waker s = KDone)
         | ByWaker => waiter s <> PLoop /\ (waker s = KSet \/ waker s = KSignalled)
         end;
  i_asleep : waiter s = PAsleep -> waker s = KIdle \/ waker s = KSet;
  i_true : waiter s = PRet true -> waker s <> KIdle;
  i_false : waiter s = PRet false -> 0 <= timeout_ns;
  i_block : waiter s = PAsleep \/ waiter s = PLoop \/ waiter s = PRelock false -> timeout_ns <> 0;
  i_expired : waiter s = PRelock true -> 0 < timeout_ns
}.

Lemma pthread_inv_step l a b : inv a -> step l a = Some b -> inv b.
Proof.
  intros [Hg Hm Ha Ht Hf Hb He] E. destruct a as [g m pc k]; simpl in *.
  destruct l; simpl in E; unfold wait_step, wake_step in E; simpl in E;
    destruct pc as [| | | |[]|]; try discriminate E; destruct m; try discriminate E;
    destruct k; try discriminate E; destruct Hm as [Hm1 Hm2]; try (exfalso; by destruct Hm2);
    simpl in *; subst; repeat case_match; simplify_eq/=; simpl in *; try done.
  all: split; simpl; try done; try (intuition congruence); try (intros; lia).
Qed.

Lemma pthread_reachable_inv s : reachable s -> inv s.
Proof.
  intros [ls Hr]. eapply run_invariant; [exact pthread_inv_step| |exact Hr].
  split; simpl; naive_solver.
Qed.

Lemma pthread_woken_soon s :
  inv s -> waker s = KDone -> (forall b, waiter s <> PRet b) ->
  exists n s', (n <= 2)%nat /\ run step (repeat Waiter n) s = Some s' /\ waiter s' = PRet true.
Proof.
  intros [Hg Hm Ha _ _ _ _] Hk Hr. destruct s as [g m pc k]; simpl in *; subst.
  destruct pc as [i| | | |[]|r]; simpl in *; [|exists 1%nat|exists 1%nat|naive_solver|exists 1%nat|exists 2%nat|by destruct (Hr r)].
  - destruct m; [|naive_solver..].
    destruct (i <? spin_limit)%nat eqn:Ei; [exists 1%nat|exists 2%nat]; simpl; unfold wait_step; simpl; rewrite Ei;
      eexists; (split; [lia|]); done.
  - destruct m; [|naive_solver..]. eexists; (split; [lia|]); done.
  - destruct m; [naive_solver| |naive_solver]. eexists; (split; [lia|]); done.
  - destruct m; [|naive_solver..]. eexists; (split; [lia|]); done.
  - destruct m; [|naive_solver..]. eexists; (split; [lia|]); done.
Qed.
End machine.
End Pthread.

(** ** Theorems *)

(** C16: The futex back end never loses a wake-up, however the two threads and the
    kernel interleave: once [chan_park_wake] has returned, the waiting thread is
    not asleep, and unless it already timed out it returns true after at most
    two more accesses.  It returns true only when the wake's store has happened,
    false only if a timeout was asked for, and it never sleeps when the timeout
    is zero. *)
Theorem futex_park_correct spin_limit timeout_ns s
    (R : Futex.reachable spin_limit timeout_ns s) :
  (Futex.waker s = Futex.KDone ->
     Futex.waiter s <> Futex.WAsleep /\
     ((exists b, Futex.waiter s = Futex.WRet b) \/
      exists n s', (n <= 2)%nat /\ run (Futex.step spin_limit timeout_ns) (repeat Futex.Waiter n) s = Some s' /\
        Futex.waiter s' = Futex.WRet true)) /\
  (Futex.waiter s = Futex.WRet true -> Futex.waker s <> Futex.KIdle) /\
  (Futex.waiter s = Futex.WRet false -> 0 <= timeout_ns) /\
  (Futex.waiter s = Futex.WAsleep -> timeout_ns <> 0).
Proof.
  pose proof (Futex.futex_reachable_inv _ _ _ R) as I. pose proof I as [_ Ha Ht Hf Hb].
  split; [|naive_solver]. intros Hk. split; [naive_solver|].
  destruct (Futex.waiter s) as [| | | | |b] eqn:E; [right..|by eauto]; by apply Futex.futex_woken_soon; [..|congruence].
Qed.

(** A thread asleep with a wake-up under way. *)
Lemma futex_park_correct_witness :
  let s := Futex.mk_park 1 Futex.WTest Futex.KDone in
  Futex.waiter s <> Futex.WAsleep /\
  ((exists b, Futex.waiter s = Futex.WRet b) \/
   exists n s', (n <= 2)%nat /\ run (Futex.step 1 (-1)) (repeat Futex.Waiter n) s = Some s' /\
     Futex.waiter s' = Futex.WRet true).
Proof.
  intros s. refine (proj1 (futex_park_correct 1 (-1) s _) eq_refl).
  exists [Futex.Waiter; Futex.Waiter; Futex.Waiter; Futex.Waiter; Futex.Waiter; Futex.Waker; Futex.Waker]. reflexivity.
Defined.

(** C17: The same for the pthread back end, whose spurious wake-ups and mutex
    re-acquisition are part of the interleaving; here a wait that expires while
    the wake is under way still returns true if the flag is set. *)
Theorem pthread_park_correct spin_limit timeout_ns s
    (R : Pthread.reachable spin_limit timeout_ns s) :
  (Pthread.waker s = Pthread.KDone ->
     Pthread.waiter s <> Pthread.PAsleep /\
     ((exists b, Pthread.waiter s = Pthread.PRet b) \/
      exists n s', (n <= 2)%nat /\ run (Pthread.step spin_limit timeout_ns) (repeat Pthread.Waiter n) s = Some s' /\
        Pthread.waiter s' = Pthread.PRet true)) /\
  (Pthread.waiter s = Pthread.PRet true -> Pthread.waker s <> Pthread.KIdle) /\
  (Pthread.waiter s = Pthread.PRet false -> 0 <= timeout_ns) /\
  (Pthread.waiter s = Pthread.PAsleep -> timeout_ns <> 0).
Proof.
  pose proof (Pthread.pthread_reachable_inv _ _ _ R) as I. pose proof I as [_ _ Ha Ht Hf Hb _].
  split; [|naive_solver]. intros Hk.
  split; [intros Hs; destruct (Ha Hs); congruence|].
  destruct (Pthread.waiter s) as [| | | | |b] eqn:E; [right..|by eauto]; by apply Pthread.pthread_woken_soon; [..|congruence].
Qed.

(** Woken out of the condition variable, the mutex not yet re-acquired. *)
Lemma pthread_park_correct_witness :
  let s := Pthread.mk_park true Pthread.Free (Pthread.PRelock false) Pthread.KDone in
  Pthread.waiter s <> Pthread.PAsleep /\
  ((exists b, Pthread.waiter s = Pthread.PRet b) \/
   exists n s', (n <= 2)%nat /\ run (Pthread.step 1 (-1)) (repeat Pthread.Waiter n) s = Some s' /\
     Pthread.waiter s' = Pthread.PRet true).
Proof.
  intros s. refine (proj1 (pthread_park_correct 1 (-1) s _) eq_refl).
  exists [Pthread.Waiter; Pthread.Waiter; Pthread.Waiter; Pthread.Waiter; Pthread.Waker; Pthread.Waker; Pthread.Waker].
  reflexivity.
Defined.

(** The deadlines are exact: the relative one of the futex and the absolute one
    of the condition variable denote the timeout asked for, with a nanosecond
    part in range. *)
Theorem deadlines_exact now timeout_ns (Ht : 0 < timeout_ns) (Hn : normal now) :
  ns_of (rel_timespec timeout_ns) = timeout_ns /\ normal (rel_timespec timeout_ns) /\
  ns_of (abs_timespec now timeout_ns) = ns_of now + timeout_ns /\ normal (abs_timespec now timeout_ns).
Proof.
  unfold normal, ns_of, rel_timespec, abs_timespec in *. cbv zeta.
  pose proof (Z.quot_rem' timeout_ns 1000000000). pose proof (Z.rem_bound_pos timeout_ns 1000000000).
  case_test; simpl; lia.
Qed.

(** One and a half seconds after a time with 0.7 s on its clock. *)
Lemma deadlines_exact_witness :
  ns_of (rel_timespec 1500000000) = 1500000000 /\ normal (rel_timespec 1500000000) /\
  ns_of (abs_timespec (mk_timespec 5 700000000) 1500000000) = ns_of (mk_timespec 5 700000000) + 1500000000 /\
  normal (abs_timespec (mk_timespec 5 700000000) 1500000000).
Proof. apply (deadlines_exact (mk_timespec 5 700000000) 1500000000); [lia|unfold normal; simpl; lia]. Defined.
