(* ===== verification/Abs.v ===== *)
(** * Channels without their layout

    The abstract memory: a channel is its buffered messages, its two queues of
    waiters and its scalar members; links, cursors and slots are gone.  [repr]
    relates a heap to it, and [awp m a Q] is the judgement in which the
    channel's functions are specified: started in any heap that represents [a],
    [m] returns, and in a heap that represents some [a'] with [Q].  The rules
    here are the promises of the ring, the wait queues, the mutex and the parks
    to the functions of the channel. *)

From S2P Require Import Prelude RingLf Heap WaitQ.
From stdpp Require Import list.
#[local] Open Scope Z_scope.

(** ** The abstract memory *)

Record achan := mk_achan {
  a_es : Z;
  a_cap : Z;
  a_spsc : bool;
  a_locked : bool;
  a_slots : Z;                  (* how many messages the ring holds *)
  a_buf : list (list byte);
  a_scnt : Z;
  a_rcnt : Z;
  a_sq : list ptr;
  a_rq : list ptr;
  a_closed : bool;
  a_ref : Z
}.

Record aheap := mk_aheap {
  a_chan : gmap ptr achan;
  a_wait : gmap ptr chan_waiter;
  a_park : gmap ptr Z;
  a_state : gmap ptr Z;
  a_mem : gmap ptr (list byte)
}.

Definition set_a_locked v x := mk_achan (a_es x) (a_cap x) (a_spsc x) v (a_slots x) (a_buf x) (a_scnt x) (a_rcnt x) (a_sq x) (a_rq x) (a_closed x) (a_ref x).
Definition set_a_buf v x := mk_achan (a_es x) (a_cap x) (a_spsc x) (a_locked x) (a_slots x) v (a_scnt x) (a_rcnt x) (a_sq x) (a_rq x) (a_closed x) (a_ref x).
Definition set_a_scnt v x := mk_achan (a_es x) (a_cap x) (a_spsc x) (a_locked x) (a_slots x) (a_buf x) v (a_rcnt x) (a_sq x) (a_rq x) (a_closed x) (a_ref x).
Definition set_a_rcnt v x := mk_achan (a_es x) (a_cap x) (a_spsc x) (a_locked x) (a_slots x) (a_buf x) (a_scnt x) v (a_sq x) (a_rq x) (a_closed x) (a_ref x).
Definition set_a_sq v x := mk_achan (a_es x) (a_cap x) (a_spsc x) (a_locked x) (a_slots x) (a_buf x) (a_scnt x) (a_rcnt x) v (a_rq x) (a_closed x) (a_ref x).
Definition set_a_rq v x := mk_achan (a_es x) (a_cap x) (a_spsc x) (a_locked x) (a_slots x) (a_buf x) (a_scnt x) (a_rcnt x) (a_sq x) v (a_closed x) (a_ref x).
Definition set_a_closed v x := mk_achan (a_es x) (a_cap x) (a_spsc x) (a_locked x) (a_slots x) (a_buf x) (a_scnt x) (a_rcnt x) (a_sq x) (a_rq x) v (a_ref x).
Definition set_a_ref v x := mk_achan (a_es x) (a_cap x) (a_spsc x) (a_locked x) (a_slots x) (a_buf x) (a_scnt x) (a_rcnt x) (a_sq x) (a_rq x) (a_closed x) v.

Definition aq (op : chan_op_t) (A : achan) : list ptr :=
  match op with CHAN_OP_SEND => a_sq A | CHAN_OP_RECV => a_rq A end.
Definition set_aq (op : chan_op_t) (l : list ptr) (A : achan) : achan :=
  match op with CHAN_OP_SEND => set_a_sq l A | CHAN_OP_RECV => set_a_rq l A end.

Definition on_chan (p : ptr) (A : achan) (a : aheap) : aheap :=
  mk_aheap (<[p := A]> (a_chan a)) (a_wait a) (a_park a) (a_state a) (a_mem a).
Definition on_wait (p : ptr) (w : chan_waiter) (a : aheap) : aheap :=
  mk_aheap (a_chan a) (<[p := w]> (a_wait a)) (a_park a) (a_state a) (a_mem a).
Definition on_park (p : ptr) (v : Z) (a : aheap) : aheap :=
  mk_aheap (a_chan a) (a_wait a) (<[p := v]> (a_park a)) (a_state a) (a_mem a).
Definition on_state (p : ptr) (v : Z) (a : aheap) : aheap :=
  mk_aheap (a_chan a) (a_wait a) (a_park a) (<[p := v]> (a_state a)) (a_mem a).
Definition on_mem (p : ptr) (b : list byte) (a : aheap) : aheap :=
  mk_aheap (a_chan a) (a_wait a) (a_park a) (a_state a) (<[p := b]> (a_mem a)).
Definition drop_wait (p : ptr) (a : aheap) : aheap :=
  mk_aheap (a_chan a) (delete p (a_wait a)) (a_park a) (a_state a) (a_mem a).
Definition drop_park (p : ptr) (a : aheap) : aheap :=
  mk_aheap (a_chan a) (a_wait a) (delete p (a_park a)) (a_state a) (a_mem a).

(** ** The representation *)

Definition abs_chan (c : chan) (buf : list (list byte)) (sq rq : list ptr) : achan :=
  mk_achan (ch_elem_size c) (ch_capacity c) (ch_spsc c) (ch_locked c) (capacity (ch_ring c)) buf
    (send_waiter_cnt c) (recv_waiter_cnt c) sq rq (closed c) (refcount c).

(** The ring of an unbuffered channel is never set up. *)
Definition ring_rep (c : chan) (buf : list (list byte)) : Prop :=
  if ch_capacity c =? 0 then buf = [] /\ ring_empty (ch_ring c) = true /\ slots (ch_ring c) = None
  else ring_repr (ch_ring c) buf /\ elem_size (ch_ring c) = ch_elem_size c.

Record chan_rep (ws : gmap ptr chan_waiter) (c : chan) (A : achan) : Prop := {
  cr_abs : A = abs_chan c (a_buf A) (a_sq A) (a_rq A);
  cr_ring : ring_rep c (a_buf A);
  cr_q : forall op, queue_rep ws (waitq_of op c) (aq op A)
}.

Record repr (h : heap) (a : aheap) : Prop := {
  r_wait : a_wait a = unlinked (h_wait h);
  r_park : a_park a = h_park h;
  r_state : a_state a = h_state h;
  r_mem : a_mem a = h_mem h;
  r_chan : map_Forall2 (fun _ => chan_rep (h_wait h)) (h_chan h) (a_chan a);
  r_disj : forall p p' A A' op op' x, a_chan a !! p = Some A -> a_chan a !! p' = Some A' ->
    x ∈ aq op A -> x ∈ aq op' A' -> p = p' /\ op = op';
  r_lost : h_lost h = []
}.

(** ** The judgement *)

Definition awp {B} (m : M B) (a : aheap) (Q : B -> aheap -> Prop) : Prop :=
  forall h, repr h a -> wp m (fun x h' => exists a', repr h' a' /\ Q x a') h.

Lemma awp_ret {B} (x : B) a (Q : B -> aheap -> Prop) : Q x a -> awp (mret x) a Q.
Proof. intros HQ h R. apply wp_ret. eauto. Qed.

Lemma awp_bind {B C} (m : M B) (k : B -> M C) a Q :
  awp m a (fun x a' => awp (k x) a' Q) -> awp (m ≫= k) a Q.
Proof.
  intros H h R. apply wp_bind. eapply wp_mono, H, R. intros x h' (a' & R' & Hk). by apply Hk.
Qed.

Lemma awp_mono {B} (m : M B) a (P Q : B -> aheap -> Prop) :
  awp m a P -> (forall x a', P x a' -> Q x a') -> awp m a Q.
Proof. intros H HPQ h R. eapply wp_mono, H, R. intros x h' (a' & R' & HP). eauto. Qed.

(** What the judgement says of a run. *)
Lemma awp_run {B} (m : M B) a Q h :
  awp m a Q -> repr h a -> exists x h' a', m h = Ret (x, h') /\ repr h' a' /\ Q x a'.
Proof. intros H R. destruct (proj1 (wp_Ret _ _ _) (H h R)) as (x & h' & E & a' & R' & HQ). eauto 6. Qed.

(** ** Rules for the members of a channel *)

Lemma repr_lookup h a p A :
  repr h a -> a_chan a !! p = Some A -> exists c, h_chan h !! p = Some c /\ chan_rep (h_wait h) c A.
Proof.
  intros R HA. pose proof (r_chan _ _ R p) as Hp. rewrite HA in Hp.
  inversion Hp; subst. eauto.
Qed.

(** The member [f] of the structure is the member [af] of the abstract channel. *)
Class Member {B} (f : chan -> B) (af : achan -> B) : Prop :=
  member : forall c buf sq rq, f c = af (abs_chan c buf sq rq).

#[export] Instance m_es : Member ch_elem_size a_es. Proof. done. Qed.
#[export] Instance m_cap : Member ch_capacity a_cap. Proof. done. Qed.
#[export] Instance m_spsc : Member ch_spsc a_spsc. Proof. done. Qed.
#[export] Instance m_locked : Member ch_locked a_locked. Proof. done. Qed.
#[export] Instance m_scnt : Member send_waiter_cnt a_scnt. Proof. done. Qed.
#[export] Instance m_rcnt : Member recv_waiter_cnt a_rcnt. Proof. done. Qed.
#[export] Instance m_closed : Member closed a_closed. Proof. done. Qed.
#[export] Instance m_ref : Member refcount a_ref. Proof. done. Qed.

Lemma rep_member {B} (f : chan -> B) af `{!Member f af} ws c A : chan_rep ws c A -> f c = af A.
Proof. intros [-> _ _]. apply member. Qed.

Lemma awp_field {B} (f : chan -> B) af `{!Member f af} p A a Q :
  a_chan a !! p = Some A -> Q (af A) a -> awp (field f p) a Q.
Proof.
  intros HA HQ h R. destruct (repr_lookup _ _ _ _ R HA) as (c & Hc & Hr).
  unfold field. wp_go. exists a. split; [done|]. by rewrite (rep_member f af _ _ _ Hr).
Qed.

(** An update [g] of scalar members, and what it does to the abstract channel. *)
Class Update (g : chan -> chan) (ag : achan -> achan) : Prop := {
  upd_abs : forall c buf sq rq, abs_chan (g c) buf sq rq = ag (abs_chan c buf sq rq);
  upd_ring : forall c, ch_ring (g c) = ch_ring c;
  upd_cap : forall c, ch_capacity (g c) = ch_capacity c;
  upd_es : forall c, ch_elem_size (g c) = ch_elem_size c;
  upd_q : forall c op, waitq_of op (g c) = waitq_of op c
}.

#[export] Instance u_locked v : Update (set_ch_locked v) (set_a_locked v).
Proof. by split. Qed.
#[export] Instance u_scnt d : Update (add_send_cnt d) (fun A => set_a_scnt (i32 (a_scnt A + d)) A).
Proof. by split. Qed.
#[export] Instance u_rcnt d : Update (add_recv_cnt d) (fun A => set_a_rcnt (i32 (a_rcnt A + d)) A).
Proof. by split. Qed.
#[export] Instance u_closed v : Update (set_closed v) (set_a_closed v).
Proof. by split. Qed.
#[export] Instance u_ref d : Update (add_refcount d) (fun A => set_a_ref (i32 (a_ref A + d)) A).
Proof. by split. Qed.

(** Replacing a channel by one that is represented and has the same waiters. *)
Lemma repr_on_chan h a p c A' c' A :
  repr h a -> h_chan h !! p = Some c -> a_chan a !! p = Some A ->
  chan_rep (h_wait h) c' A' -> (forall op, aq op A' = aq op A) ->
  repr (set_h_chan (<[p := c']> (h_chan h)) h) (on_chan p A' a).
Proof.
  intros [Hw Hp Hs Hm Hch Hd] Hc HA Hr Hq. split; simpl; try done.
  - by apply map_Forall2_insert_2.
  - intros p1 p2 A1 A2 op1 op2 x H1 H2 Hx1 Hx2.
    assert (forall p0 A0 op0, <[p := A']> (a_chan a) !! p0 = Some A0 -> x ∈ aq op0 A0 ->
      exists A0', a_chan a !! p0 = Some A0' /\ x ∈ aq op0 A0') as Hold.
    { intros p0 A0 op0 [(-> & <-)|(_ & ?)]%lookup_insert_Some; [|by eauto]. rewrite Hq. eauto. }
    destruct (Hold _ _ _ H1 Hx1) as (? & ? & ?), (Hold _ _ _ H2 Hx2) as (? & ? & ?). eauto.
Qed.

Lemma chan_rep_update ws c A g ag `{!Update g ag} :
  chan_rep ws c A -> chan_rep ws (g c) (ag A) /\ forall op, aq op (ag A) = aq op A.
Proof.
  intros [Ha Hr Hq].
  assert (ag A = abs_chan (g c) (a_buf A) (a_sq A) (a_rq A)) as E by (rewrite Ha at 1; symmetry; apply upd_abs).
  rewrite E. split; [|by intros []]. split; simpl; [done| |].
  - unfold ring_rep in *. by rewrite upd_ring, upd_cap, upd_es.
  - intros op. rewrite upd_q. specialize (Hq op). by destruct op.
Qed.

Lemma awp_modify g ag `{!Update g ag} p A a (Q : unit -> aheap -> Prop) :
  a_chan a !! p = Some A -> Q tt (on_chan p (ag A) a) -> awp (modify_chan p g) a Q.
Proof.
  intros HA HQ h R. destruct (repr_lookup _ _ _ _ R HA) as (c & Hc & Hr).
  destruct (chan_rep_update _ _ _ g ag Hr). wp_go. exists (on_chan p (ag A) a). split; [|done].
  by apply repr_on_chan with c A.
Qed.

Lemma awp_lock p A a (Q : unit -> aheap -> Prop) :
  a_chan a !! p = Some A -> a_locked A = false -> Q tt (on_chan p (set_a_locked true A) a) ->
  awp (chan_lock p) a Q.
Proof.
  intros HA HL HQ h R. destruct (repr_lookup _ _ _ _ R HA) as (c & Hc & Hr).
  unfold chan_lock. wp_go. rewrite (rep_member ch_locked a_locked _ _ _ Hr), HL.
  by apply (awp_modify (set_ch_locked true) _ p A a Q HA HQ).
Qed.

Lemma awp_unlock p A a (Q : unit -> aheap -> Prop) :
  a_chan a !! p = Some A -> a_locked A = true -> Q tt (on_chan p (set_a_locked false A) a) ->
  awp (chan_unlock p) a Q.
Proof.
  intros HA HL HQ h R. destruct (repr_lookup _ _ _ _ R HA) as (c & Hc & Hr).
  unfold chan_unlock. wp_go. rewrite (rep_member ch_locked a_locked _ _ _ Hr), HL.
  by apply (awp_modify (set_ch_locked false) _ p A a Q HA HQ).
Qed.

(** ** Rules for waiters, parks and buffers *)

Lemma unlinked_lookup ws x w : unlinked ws !! x = Some w -> exists w', ws !! x = Some w' /\ w = set_w_next NULL w'.
Proof. unfold unlinked. rewrite lookup_fmap. destruct (ws !! x); simpl; naive_solver. Qed.

Lemma repr_waiter h a x w :
  repr h a -> a_wait a !! x = Some w -> exists w', h_wait h !! x = Some w' /\ w = set_w_next NULL w'.
Proof. intros R. rewrite (r_wait _ _ R). apply unlinked_lookup. Qed.

(** A member of a waiter other than its link. *)
Class NoLink {B} (f : chan_waiter -> B) : Prop := no_link : forall w v, f (set_w_next v w) = f w.
#[export] Instance nl_data : NoLink w_data. Proof. done. Qed.
#[export] Instance nl_result : NoLink w_result. Proof. done. Qed.
#[export] Instance nl_park : NoLink w_wake_park. Proof. done. Qed.
#[export] Instance nl_sel : NoLink w_select_state. Proof. done. Qed.

Lemma awp_wfield {B} (f : chan_waiter -> B) `{!NoLink f} x w a Q :
  a_wait a !! x = Some w -> Q (f w) a -> awp (wfield f x) a Q.
Proof.
  intros Hw HQ h R. destruct (repr_waiter _ _ _ _ R Hw) as (w' & Hw' & ->).
  unfold wfield. wp_go. rewrite no_link in HQ. eauto.
Qed.

(** Changing waiters without touching their links. *)
Lemma chan_rep_waiters ws ws' c A :
  (forall x w, ws !! x = Some w -> exists w', ws' !! x = Some w' /\ w_next w' = w_next w) ->
  chan_rep ws c A -> chan_rep ws' c A.
Proof.
  intros Hn [Ha Hr Hq]. split; [done|done|]. intros op. destruct (Hq op) as [Hd Hs Ht].
  split; [done| |done]. revert Hs. generalize (q_head (waitq_of op c)) (aq op A).
  clear -Hn. intros p l. revert p. induction l as [|x l IH]; intros p; simpl; [done|].
  intros (-> & Hx & w & Hw & Hs). split; [done|]. split; [done|].
  destruct (Hn _ _ Hw) as (w' & Hw' & E). exists w'. rewrite E. auto.
Qed.

Lemma repr_waiters h a ws a' :
  repr h a -> (forall x w, h_wait h !! x = Some w -> exists w', ws !! x = Some w' /\ w_next w' = w_next w) ->
  a' = mk_aheap (a_chan a) (unlinked ws) (a_park a) (a_state a) (a_mem a) ->
  repr (set_h_wait ws h) a'.
Proof.
  intros [Hw Hp Hs Hm Hc Hd] Hn ->. split; simpl; try done.
  eapply map_Forall2_impl; [done|]. intros i c A. by apply chan_rep_waiters.
Qed.

Lemma awp_set_result x w e a (Q : unit -> aheap -> Prop) :
  a_wait a !! x = Some w -> Q tt (on_wait x (set_w_result e w) a) ->
  awp (modify_waiter x (set_w_result e)) a Q.
Proof.
  intros Hw HQ h R. destruct (repr_waiter _ _ _ _ R Hw) as (w' & Hw' & ->).
  wp_go. eexists. split; [|exact HQ]. eapply repr_waiters; [done| |].
  - intros y v Hy. destruct (decide (x = y)) as [<-|].
    + rewrite lookup_insert_eq. simplify_eq. eauto.
    + rewrite lookup_insert_ne by done. eauto.
  - unfold on_wait, unlinked. rewrite (r_wait _ _ R), fmap_insert. done.
Qed.

Lemma repr_park h a v :
  repr h a -> repr (set_h_park v h) (mk_aheap (a_chan a) (a_wait a) v (a_state a) (a_mem a)).
Proof. by intros [Hw Hp Hs Hm Hc Hd]. Qed.
Lemma repr_state h a v :
  repr h a -> repr (set_h_state v h) (mk_aheap (a_chan a) (a_wait a) (a_park a) v (a_mem a)).
Proof. by intros [Hw Hp Hs Hm Hc Hd]. Qed.
Lemma repr_mem h a v :
  repr h a -> repr (set_h_mem v h) (mk_aheap (a_chan a) (a_wait a) (a_park a) (a_state a) v).
Proof. by intros [Hw Hp Hs Hm Hc Hd]. Qed.

Lemma awp_park_wake p a (Q : unit -> aheap -> Prop) :
  is_Some (a_park a !! p) -> Q tt (on_park p 1 a) -> awp (chan_park_wake p) a Q.
Proof.
  intros Hp HQ h R. rewrite (r_park _ _ R) in Hp. unfold chan_park_wake. wp_go.
  eexists. split; [|exact HQ]. unfold on_park. rewrite (r_park _ _ R). by apply repr_park.
Qed.

Lemma awp_load_mem p b a Q : a_mem a !! p = Some b -> Q b a -> awp (load_mem p) a Q.
Proof. intros Hp HQ h R. rewrite (r_mem _ _ R) in Hp. wp_go. eauto. Qed.

Lemma awp_store_mem p b b0 a (Q : unit -> aheap -> Prop) :
  a_mem a !! p = Some b0 -> Q tt (on_mem p b a) -> awp (store_mem p b) a Q.
Proof.
  intros Hp HQ h R. rewrite (r_mem _ _ R) in Hp. wp_go.
  eexists. split; [|exact HQ]. unfold on_mem. rewrite (r_mem _ _ R). by apply repr_mem.
Qed.

(** The buffer [o] after the [es]-byte message [e] has been copied to its front. *)
Definition overlay (es : Z) (e o : list byte) : list byte := e ++ drop (Z.to_nat es) o.

(** The first [es] bytes of a buffer: the message it holds. *)
Definition message (es : Z) (b : list byte) : list byte := take (Z.to_nat es) b.

Lemma awp_mem_copy dst src n d s a (Q : unit -> aheap -> Prop) :
  a_mem a !! dst = Some d -> a_mem a !! src = Some s -> 0 <= n -> n <= zlen d -> n <= zlen s ->
  Q tt (on_mem dst (overlay n (message n s) d) a) -> awp (mem_copy dst src n) a Q.
Proof.
  intros Hd Hs Hn Hnd Hns HQ. unfold mem_copy.
  apply awp_bind, (awp_load_mem _ s); [done|]. apply awp_bind, (awp_load_mem _ d); [done|].
  apply awp_bind. intros h R. eapply wp_lift; [apply memcpy_ok; lia|]. exists a. split; [done|].
  by eapply awp_store_mem.
Qed.

(** ** Rules for the ring *)

Lemma on_chan_same p A a : a_chan a !! p = Some A -> on_chan p A a = a.
Proof. intros. unfold on_chan. rewrite insert_id by done. by destruct a. Qed.
Lemma on_chan_buf_same p A a : a_chan a !! p = Some A -> on_chan p (set_a_buf (a_buf A) A) a = a.
Proof. intros. apply on_chan_same. by destruct A. Qed.
Lemma on_mem_same p b a : a_mem a !! p = Some b -> on_mem p b a = a.
Proof. intros. unfold on_mem. rewrite insert_id by done. by destruct a. Qed.

(** What a live channel with a buffer tells about its ring. *)
Lemma rep_ring ws c A :
  chan_rep ws c A -> a_cap A <> 0 ->
  ring_repr (ch_ring c) (a_buf A) /\ elem_size (ch_ring c) = a_es A /\ capacity (ch_ring c) = a_slots A.
Proof.
  intros [Ha Hr _]. rewrite Ha. simpl. unfold ring_rep in Hr. intros Hc.
  rewrite (proj2 (Z.eqb_neq _ 0) Hc) in Hr. by destruct Hr.
Qed.

(** Installing a new ring in the channel. *)
Lemma repr_set_ring h a p c A r buf :
  repr h a -> h_chan h !! p = Some c -> a_chan a !! p = Some A -> chan_rep (h_wait h) c A ->
  a_cap A <> 0 -> ring_repr r buf -> elem_size r = elem_size (ch_ring c) -> capacity r = capacity (ch_ring c) ->
  repr (set_h_chan (<[p := set_ch_ring r c]> (h_chan h)) h) (on_chan p (set_a_buf buf A) a).
Proof.
  intros R Hc HA Hr Hcap Hb He Hs. destruct (rep_ring _ _ _ Hr Hcap) as (_ & Ees & _).
  apply repr_on_chan with c A; [done..| |by intros []].
  destruct Hr as [Ha Hr Hq]. split.
  - rewrite Ha. unfold abs_chan, set_a_buf. simpl. by rewrite Hs.
  - unfold ring_rep. simpl. rewrite (proj2 (Z.eqb_neq _ _)) by (rewrite Ha in Hcap; done).
    split; [done|]. rewrite He, Ees, Ha. done.
  - intros op. specialize (Hq op). by destruct op.
Qed.

Lemma awp_ring_push p d A b a (Q : bool -> aheap -> Prop) :
  a_chan a !! p = Some A -> a_cap A <> 0 -> a_mem a !! d = Some b -> a_es A <= zlen b ->
  (if zlen (a_buf A) <? a_slots A
   then Q true (on_chan p (set_a_buf (a_buf A ++ [message (a_es A) b]) A) a) else Q false a) ->
  awp (ring_push p d) a Q.
Proof.
  intros HA Hcap Hb Hlen HQ h R. destruct (repr_lookup _ _ _ _ R HA) as (c & Hc & Hr).
  destruct (rep_ring _ _ _ Hr Hcap) as (V & Hes & Hcp). unfold message in HQ. rewrite <- Hes, <- Hcp in *.
  pose proof Hb as Hb'. rewrite (r_mem _ _ R) in Hb'. unfold ring_push. wp_go.
  destruct (fifo_push _ _ b V Hlen) as (ok & r' & E & Eok & Hs & He & V').
  eapply wp_lift; [exact E|]. simpl. wp_go. rewrite Eok in *. destruct (_ <? _).
  - eexists. split; [|exact HQ]. by eapply repr_set_ring.
  - exists a. split; [|done]. rewrite <- (on_chan_buf_same p A a) by done. by eapply repr_set_ring.
Qed.

Lemma awp_ring_pop p out A o a (Q : bool -> aheap -> Prop) :
  a_chan a !! p = Some A -> a_cap A <> 0 -> a_mem a !! out = Some o -> a_es A <= zlen o ->
  match a_buf A with
  | [] => Q false a
  | e :: buf => Q true (on_mem out (overlay (a_es A) e o) (on_chan p (set_a_buf buf A) a))
  end ->
  awp (ring_pop p out) a Q.
Proof.
  intros HA Hcap Ho Hlen HQ h R. destruct (repr_lookup _ _ _ _ R HA) as (c & Hc & Hr).
  destruct (rep_ring _ _ _ Hr Hcap) as (V & Hes & Hcp). rewrite <- Hes in *.
  pose proof Ho as Ho'. rewrite (r_mem _ _ R) in Ho'. unfold ring_pop. wp_go.
  destruct (fifo_pop _ _ o V Hlen) as (ok & o' & r' & E & Eok & Hs & He & V' & Eo).
  eapply wp_lift; [exact E|]. simpl. wp_go.
  assert (repr (set_h_chan (<[p := set_ch_ring r' c]> (h_chan h)) (set_h_mem (<[out := o']> (h_mem h)) h))
    (on_mem out o' (on_chan p (set_a_buf (tail (a_buf A)) A) a))) as R'.
  { unfold on_mem. simpl. rewrite (r_mem _ _ R). 
    apply (repr_mem (set_h_chan _ h) (on_chan p _ a)). by eapply repr_set_ring. }
  rewrite Eok. destruct (a_buf A) as [|e buf] eqn:Eb; simpl in *.
  - subst o'. exists a. split; [|done]. rewrite <- Eb in R'.
    rewrite on_chan_buf_same, on_mem_same in R' by done. exact R'.
  - subst o'. eexists. split; [exact R'|exact HQ].
Qed.

Lemma awp_ring_empty p A a (Q : bool -> aheap -> Prop) :
  a_chan a !! p = Some A -> Q (bool_decide (a_buf A = [])) a -> awp (chan_ring_empty p) a Q.
Proof.
  intros HA HQ h R. destruct (repr_lookup _ _ _ _ R HA) as (c & Hc & Hr).
  unfold chan_ring_empty, field. wp_go. exists a. split; [done|].
  destruct (decide (a_cap A = 0)) as [Hz|Hz].
  - destruct Hr as [Ha Hr _]. rewrite Ha in Hz. simpl in Hz. unfold ring_rep in Hr.
    rewrite Hz in Hr. destruct Hr as (Hb & -> & _). rewrite Hb in HQ. exact HQ.
  - destruct (rep_ring _ _ _ Hr Hz) as ((sl & cc & V) & _ & _). by rewrite (empty_view _ _ _ _ V).
Qed.

Lemma awp_ring_full p A a (Q : bool -> aheap -> Prop) :
  a_chan a !! p = Some A -> a_cap A <> 0 -> Q (a_slots A <=? zlen (a_buf A)) a -> awp (chan_ring_full p) a Q.
Proof.
  intros HA Hcap HQ h R. destruct (repr_lookup _ _ _ _ R HA) as (c & Hc & Hr).
  unfold chan_ring_full, field. wp_go. exists a. split; [done|].
  destruct (rep_ring _ _ _ Hr Hcap) as ((sl & cc & V) & _ & Ec). by rewrite (full_view _ _ _ _ V), Ec.
Qed.

(** ** Rules for the wait queues *)

(** [x] is in no queue but possibly the one named. *)
Definition only_in (p : ptr) (op : chan_op_t) (a : aheap) (x : ptr) : Prop :=
  forall p' A' op', a_chan a !! p' = Some A' -> x ∈ aq op' A' -> p' = p /\ op' = op.
Definition unqueued (a : aheap) (x : ptr) : Prop :=
  forall p' A' op', a_chan a !! p' = Some A' -> x ∉ aq op' A'.

Lemma aq_set_same op l A : aq op (set_aq op l A) = l.
Proof. by destruct op. Qed.
Lemma aq_set_ne op op' l A : op' <> op -> aq op' (set_aq op l A) = aq op' A.
Proof. by destruct op, op'. Qed.

Lemma disj_set_queue p op A l a :
  a_chan a !! p = Some A ->
  (forall p p' A A' op op' x, a_chan a !! p = Some A -> a_chan a !! p' = Some A' ->
    x ∈ aq op A -> x ∈ aq op' A' -> p = p' /\ op = op') ->
  (forall x, x ∈ l -> only_in p op a x) ->
  forall p1 p2 A1 A2 op1 op2 x, <[p := set_aq op l A]> (a_chan a) !! p1 = Some A1 ->
    <[p := set_aq op l A]> (a_chan a) !! p2 = Some A2 ->
    x ∈ aq op1 A1 -> x ∈ aq op2 A2 -> p1 = p2 /\ op1 = op2.
Proof.
  intros HA Hd Ho.
  assert (forall p0 A0 op0 x, <[p := set_aq op l A]> (a_chan a) !! p0 = Some A0 -> x ∈ aq op0 A0 ->
    (p0 = p /\ op0 = op /\ x ∈ l) \/
    ((p0, op0) <> (p, op) /\ exists A0', a_chan a !! p0 = Some A0' /\ x ∈ aq op0 A0')) as Hold.
  { intros p0 A0 op0 x [(-> & <-)|(? & ?)]%lookup_insert_Some Hx.
    - destruct (decide (op0 = op)) as [->|Hne]; [rewrite aq_set_same in Hx; by left|].
      rewrite aq_set_ne in Hx by done. right. split; [congruence|]. eauto.
    - right. split; [congruence|]. eauto. }
  intros p1 p2 A1 A2 op1 op2 x H1 H2 Hx1 Hx2.
  destruct (Hold _ _ _ _ H1 Hx1) as [(-> & -> & Hl1)|(Hn1 & B1 & HB1 & Hb1)],
    (Hold _ _ _ _ H2 Hx2) as [(-> & -> & Hl2)|(Hn2 & B2 & HB2 & Hb2)]; [done|..|by eauto].
  - destruct (Ho x Hl1 _ _ _ HB2 Hb2). congruence.
  - destruct (Ho x Hl2 _ _ _ HB1 Hb1). congruence.
Qed.

Lemma repr_upd_queue h a p op c A qq ws l t :
  repr h a -> h_chan h !! p = Some c -> a_chan a !! p = Some A ->
  queue_rep ws qq l -> relinked (h_wait h) ws t ->
  (forall x, x ∈ t \/ x ∈ l -> only_in p op a x) ->
  repr (upd_queue (p, op) c qq ws h) (on_chan p (set_aq op l A) a).
Proof.
  intros R Hc HA Hq Hre Ho. pose proof R as [Hw Hp Hs Hm Hch Hd].
  assert (forall p' c' A' op', h_chan h !! p' = Some c' -> a_chan a !! p' = Some A' -> (p', op') <> (p, op) ->
    chan_rep (h_wait h) c' A' -> queue_rep ws (waitq_of op' c') (aq op' A')) as Hother.
  { intros p' c' A' op' _ HA' Hne [_ _ Hq']. apply relinked_rep with (h_wait h) t; [done| |done].
    intros x Hx Hx'. destruct (Ho x (or_introl Hx) _ _ _ HA' Hx'). congruence. }
  split; simpl; try done.
  - rewrite Hw. symmetry. apply Hre.
  - intros p'. specialize (Hch p'). destruct (decide (p' = p)) as [->|Hne].
    + rewrite !lookup_insert_eq. constructor. destruct (repr_lookup _ _ _ _ R HA) as (c0 & Hc0 & Hr).
      assert (c0 = c) as -> by congruence. split.
      * rewrite (cr_abs _ _ _ Hr). by destruct op.
      * pose proof (cr_ring _ _ _ Hr). by destruct op.
      * intros op'. destruct (decide (op' = op)) as [->|Hop].
        { by rewrite aq_set_same, waitq_of_set. }
        rewrite aq_set_ne by done. replace (waitq_of op' (set_waitq op qq c)) with (waitq_of op' c) by (by destruct op, op').
        eapply Hother; [done..| |done]. congruence.
    + rewrite !lookup_insert_ne by done.
      destruct (h_chan h !! p') as [c'|] eqn:Ec, (a_chan a !! p') as [A'|] eqn:EA; inversion Hch as [? ? Hr|]; subst;
        constructor. split; [apply Hr|apply Hr|].
      intros op'. eapply Hother; [done..| |done]. congruence.
  - apply disj_set_queue; auto.
Qed.

Lemma awp_waitq_push p op A x w a (Q : unit -> aheap -> Prop) :
  a_chan a !! p = Some A -> a_wait a !! x = Some w -> x <> NULL -> unqueued a x ->
  Q tt (on_chan p (set_aq op (aq op A ++ [x]) A) a) -> awp (waitq_push (p, op) x) a Q.
Proof.
  intros HA Hw Hx Hu HQ h R. destruct (repr_lookup _ _ _ _ R HA) as (c & Hc & Hr).
  destruct (repr_waiter _ _ _ _ R Hw) as (w' & Hw' & _).
  eapply (waitq_push_wp (p, op) c (aq op A)); [done|apply Hr|done|done|by eapply Hu|].
  intros qq ws Hq Hre. eexists. split; [|exact HQ].
  eapply repr_upd_queue; [done..|].
  intros y Hy p' A' op' HA' Hy'. assert (y ∈ aq op A ++ [x]) as [Hin|Hin]%elem_of_app by tauto.
  - destruct (r_disj _ _ R _ _ _ _ _ _ _ HA HA' Hin Hy'). done.
  - apply list_elem_of_singleton in Hin as ->. by destruct (Hu p' A' op').
Qed.

Lemma awp_waitq_push_front p op A x w a (Q : unit -> aheap -> Prop) :
  a_chan a !! p = Some A -> a_wait a !! x = Some w -> x <> NULL -> unqueued a x ->
  Q tt (on_chan p (set_aq op (x :: aq op A) A) a) -> awp (waitq_push_front (p, op) x) a Q.
Proof.
  intros HA Hw Hx Hu HQ h R. destruct (repr_lookup _ _ _ _ R HA) as (c & Hc & Hr).
  destruct (repr_waiter _ _ _ _ R Hw) as (w' & Hw' & _).
  eapply (waitq_push_front_wp (p, op) c (aq op A)); [done|apply Hr|done|done|by eapply Hu|].
  intros qq ws Hq Hre. eexists. split; [|exact HQ].
  eapply repr_upd_queue; [done..|].
  intros y Hy p' A' op' HA' Hy'. assert (y = x \/ y ∈ aq op A) as [->|Hin] by set_solver.
  - by destruct (Hu p' A' op').
  - destruct (r_disj _ _ R _ _ _ _ _ _ _ HA HA' Hin Hy'). done.
Qed.

(** The queue shrinks to some of its waiters. *)
Lemma repr_shrink h a p op c A qq ws l t :
  repr h a -> h_chan h !! p = Some c -> a_chan a !! p = Some A ->
  queue_rep ws qq l -> relinked (h_wait h) ws t -> t ⊆ aq op A -> l ⊆ aq op A ->
  repr (upd_queue (p, op) c qq ws h) (on_chan p (set_aq op l A) a).
Proof.
  intros R Hc HA Hq Hre Ht Hl. eapply repr_upd_queue; [done..|].
  intros y Hy p' A' op' HA' Hy'. assert (y ∈ aq op A) as Hin by set_solver.
  destruct (r_disj _ _ R _ _ _ _ _ _ _ HA HA' Hin Hy'). done.
Qed.

Lemma awp_waitq_pop p op A a (Q : ptr -> aheap -> Prop) :
  a_chan a !! p = Some A ->
  match aq op A with
  | [] => Q NULL a
  | x :: l => x <> NULL -> Q x (on_chan p (set_aq op l A) a)
  end ->
  awp (waitq_pop (p, op)) a Q.
Proof.
  intros HA HQ h R. destruct (repr_lookup _ _ _ _ R HA) as (c & Hc & Hr).
  eapply (waitq_pop_wp (p, op) c (aq op A)); [done|apply Hr|]. destruct (aq op A) as [|x l] eqn:E; [by eauto|].
  intros qq ws Hx Hq Hre. eexists. split; [|exact (HQ Hx)].
  eapply repr_shrink; [done..| |]; rewrite E; set_solver.
Qed.

Lemma awp_waitq_remove p op A x a (Q : bool -> aheap -> Prop) :
  a_chan a !! p = Some A ->
  (x ∉ aq op A -> Q false a) ->
  (forall l1 l2, aq op A = l1 ++ x :: l2 -> x ∉ l1 ++ l2 -> only_in p op a x ->
     Q true (on_chan p (set_aq op (l1 ++ l2) A) a)) ->
  awp (waitq_remove (p, op) x) a Q.
Proof.
  intros HA HF HT h R. destruct (repr_lookup _ _ _ _ R HA) as (c & Hc & Hr).
  eapply (waitq_remove_wp (p, op) c (aq op A)); [done|apply Hr|by eauto|].
  intros l1 l2 qq ws E Hq Hre. eexists. split; [|apply (HT _ _ E)].
  - eapply repr_shrink; [done..|]. rewrite E. set_solver.
  - destruct (cr_q _ _ _ Hr op) as [Hn _ _]. rewrite E in Hn. apply NoDup_app in Hn as (_ & Hn & [Hx _]%NoDup_cons).
    apply not_elem_of_app. split; [|done]. intros Hin. by destruct (Hn x Hin); left.
  - intros p' A' op' HA' Hx. assert (x ∈ aq op A) as Hin by (rewrite E; set_solver).
    destruct (r_disj _ _ R _ _ _ _ _ _ _ HA HA' Hin Hx). done.
Qed.

Lemma awp_waitq_empty p op A a (Q : bool -> aheap -> Prop) :
  a_chan a !! p = Some A -> Q (bool_decide (aq op A = [])) a -> awp (waitq_empty (p, op)) a Q.
Proof.
  intros HA HQ h R. destruct (repr_lookup _ _ _ _ R HA) as (c & Hc & Hr).
  eapply (waitq_empty_wp (p, op) c); [done|apply Hr|]. exists a. split; [done|exact HQ].
Qed.

(** ** Rules for frames and claims *)

Lemma repr_queued h a p A op x :
  repr h a -> a_chan a !! p = Some A -> x ∈ aq op A -> x <> NULL /\ is_Some (h_wait h !! x).
Proof.
  intros R HA Hx. destruct (repr_lookup _ _ _ _ R HA) as (c & _ & [_ _ Hq]).
  destruct (Hq op) as [_ Hs _]. by eapply seg_live.
Qed.

(** A waiter that is in no queue may appear or disappear. *)
Lemma repr_frame h a x ws :
  repr h a -> unqueued a x -> (forall y, y <> x -> ws !! y = h_wait h !! y) ->
  repr (set_h_wait ws h) (mk_aheap (a_chan a) (unlinked ws) (a_park a) (a_state a) (a_mem a)).
Proof.
  intros R Hu Hf. pose proof R as [Hw Hp Hs Hm Hc Hd]. split; simpl; try done.
  intros p. specialize (Hc p).
  destruct (h_chan h !! p) as [c|] eqn:Ec, (a_chan a !! p) as [A|] eqn:EA; inversion Hc as [? ? Hr|]; subst; constructor.
  split; [apply Hr|apply Hr|]. intros op. destruct (cr_q _ _ _ Hr op) as [Hn Hseg Ht].
  split; [done| |done]. eapply seg_frame, Hseg. intros y Hy. apply Hf. intros ->. by destruct (Hu p A op).
Qed.

Definition fresh_waiter (x data : ptr) (op : chan_op_t) : chan_waiter :=
  mk_waiter NULL data op CHAN_OK (u64 (-1)) x NULL.

Lemma awp_waiter_init x data op a (Q : unit -> aheap -> Prop) :
  a_wait a !! x = None ->
  (unqueued a x -> Q tt (on_park x 0 (on_wait x (fresh_waiter x data op) a))) ->
  awp (waiter_init x data op) a Q.
Proof.
  intros Hx HQ h R.
  assert (unqueued a x) as Hu.
  { intros p A op' HA Hin. destruct (repr_queued _ _ _ _ _ _ R HA Hin) as [_ [w Hw]].
    rewrite (r_wait _ _ R) in Hx. unfold unlinked in Hx. by rewrite lookup_fmap, Hw in Hx. }
  specialize (HQ Hu). unfold waiter_init. apply wp_bind.
  eapply wp_eval; [done|]. apply wp_bind. eapply wp_eval; [done|].
  eapply wp_modify_waiter; [simpl; by rewrite lookup_insert_eq|]. simpl. rewrite insert_insert_eq.
  eexists. split; [|exact HQ].
  change (repr (set_h_park (<[x := 0]> (h_park h)) (set_h_wait (<[x := fresh_waiter x data op]> (h_wait h)) h))
    (on_park x 0 (on_wait x (fresh_waiter x data op) a))).
  replace (on_park x 0 _) with (mk_aheap (a_chan a) (unlinked (<[x := fresh_waiter x data op]> (h_wait h)))
    (<[x := 0]> (h_park h)) (a_state a) (a_mem a)).
  - refine (repr_park (set_h_wait (<[x := fresh_waiter x data op]> (h_wait h)) h)
      (mk_aheap (a_chan a) (unlinked (<[x := fresh_waiter x data op]> (h_wait h))) (a_park a) (a_state a) (a_mem a))
      (<[x := 0]> (h_park h)) _).
    apply repr_frame with x; [done|done|]. intros y Hy. by apply lookup_insert_ne.
  - unfold on_park, on_wait, unlinked. simpl. rewrite fmap_insert, (r_wait _ _ R), (r_park _ _ R). done.
Qed.

Lemma awp_waiter_destroy x a (Q : unit -> aheap -> Prop) :
  Q tt (drop_park x a) -> awp (waiter_destroy x) a Q.
Proof.
  intros HQ h R. eapply wp_eval; [done|]. eexists. split; [|exact HQ].
  unfold drop_park. rewrite (r_park _ _ R). by apply repr_park.
Qed.

Lemma awp_end_frame x a (Q : unit -> aheap -> Prop) :
  unqueued a x -> Q tt (drop_wait x a) -> awp (end_frame x) a Q.
Proof.
  intros Hu HQ h R. eapply wp_eval; [done|]. eexists. split; [|exact HQ].
  unfold drop_wait. rewrite (r_wait _ _ R). unfold unlinked. rewrite <- fmap_delete.
  apply repr_frame with x; [done|done|]. intros y Hy. by apply lookup_delete_ne.
Qed.

(** [x] is a thread blocked in a plain send or receive, not a stub of a select. *)
Definition direct (a : aheap) (x : ptr) : Prop :=
  exists w, a_wait a !! x = Some w /\ w_select_state w = NULL.

Lemma awp_claim_direct x a (Q : bool -> aheap -> Prop) :
  direct a x -> Q true a -> awp (waiter_try_claim x) a Q.
Proof.
  intros (w & Hw & Hs) HQ h R. destruct (repr_waiter _ _ _ _ R Hw) as (w' & Hw' & ->).
  simpl in Hs. unfold waiter_try_claim. wp_go. rewrite Hs. simpl. apply wp_ret. eauto.
Qed.

Lemma awp_pop_claimable fuel p op A a (Q : ptr -> aheap -> Prop) :
  a_chan a !! p = Some A -> (0 < fuel)%nat ->
  match aq op A with
  | [] => Q NULL a
  | x :: l => direct a x /\ (x <> NULL -> Q x (on_chan p (set_aq op l A) a))
  end ->
  awp (waitq_pop_claimable fuel (p, op)) a Q.
Proof.
  intros HA Hf HQ h R. destruct (repr_lookup _ _ _ _ R HA) as (c & Hc & Hr).
  destruct fuel as [|fuel]; [lia|]. simpl.
  apply wp_bind. eapply wp_load_q; [done|]. simpl.
  destruct (cr_q _ _ _ Hr op) as [_ Hs _].
  destruct (aq op A) as [|x l] eqn:E; simpl in Hs.
  - rewrite Hs. simpl. apply wp_ret. eauto.
  - destruct Hs as (-> & Hx & _). rewrite (proj2 (Z.eqb_neq x NULL) Hx). destruct HQ as [Hdx HQ].
    refine ((_ : awp _ a Q) h R). clear h R Hc Hr.
    apply awp_bind, (awp_waitq_pop _ _ A); [done|]. rewrite E. intros _.
    apply awp_bind, awp_claim_direct; [done|]. apply awp_ret, (HQ Hx).
Qed.

Lemma awp_pop_sender p A a (Q : ptr -> aheap -> Prop) :
  a_chan a !! p = Some A ->
  match a_sq A with
  | [] => Q NULL a
  | x :: l => direct a x /\ (x <> NULL -> Q x (on_chan p (set_a_sq l A) a))
  end ->
  awp (waitq_pop_sender p) a Q.
Proof.
  intros HA HQ h R. apply wp_bind, wp_gets.
  refine ((_ : awp _ a Q) h R). eapply awp_pop_claimable; [done|unfold loop_fuel; lia|exact HQ].
Qed.

Lemma awp_pop_receiver p A a (Q : ptr -> aheap -> Prop) :
  a_chan a !! p = Some A ->
  match a_rq A with
  | [] => Q NULL a
  | x :: l => direct a x /\ (x <> NULL -> Q x (on_chan p (set_a_rq l A) a))
  end ->
  awp (waitq_pop_receiver p) a Q.
Proof.
  intros HA HQ h R. apply wp_bind, wp_gets.
  refine ((_ : awp _ a Q) h R). eapply awp_pop_claimable; [done|unfold loop_fuel; lia|exact HQ].
Qed.

Lemma awp_loop_fuel a (Q : nat -> aheap -> Prop) :
  (forall fuel, (forall p A op, a_chan a !! p = Some A -> (length (aq op A) < fuel)%nat) -> Q fuel a) ->
  awp (gets loop_fuel) a Q.
Proof.
  intros HQ h R. apply wp_gets. exists a. split; [done|]. apply HQ.
  intros p A op HA. destruct (repr_lookup _ _ _ _ R HA) as (c & _ & Hr).
  pose proof (queue_size (p, op) c (aq op A) h (cr_q _ _ _ Hr op)). unfold loop_fuel. lia.
Qed.

(** ** Completing a waiter

    [give es m x a]: the message [m] is copied to the buffer of the waiter [x];
    [finish x e a]: its result is [e] and its park is signalled. *)

Definition give (es : Z) (m : list byte) (x : ptr) (a : aheap) : aheap :=
  mk_aheap (a_chan a) (a_wait a) (a_park a) (a_state a)
    (match a_wait a !! x with Some w => alter (overlay es m) (w_data w) (a_mem a) | None => a_mem a end).

Definition finish (x : ptr) (e : chan_err_t) (a : aheap) : aheap :=
  mk_aheap (a_chan a) (alter (set_w_result e) x (a_wait a))
    (match a_wait a !! x with Some w => <[w_wake_park w := 1]> (a_park a) | None => a_park a end)
    (a_state a) (a_mem a).

(** The message a waiting sender offers. *)
Definition offer (es : Z) (x : ptr) (a : aheap) : list byte :=
  match a_wait a !! x with
  | Some w => message es (default [] (a_mem a !! w_data w))
  | None => []
  end.

(** A blocked thread with everything a peer needs: its buffer holds a message,
    its park is live, and it is not a stub of a select. *)
Record waiter_ok (a : aheap) (es : Z) (x : ptr) : Prop := {
  wo_live : is_Some (a_wait a !! x);
  wo_direct : forall w, a_wait a !! x = Some w -> w_select_state w = NULL;
  wo_park : forall w, a_wait a !! x = Some w -> is_Some (a_park a !! w_wake_park w);
  wo_data : forall w, a_wait a !! x = Some w -> exists b, a_mem a !! w_data w = Some b /\ es <= zlen b
}.

Lemma alter_known {V} (f : V -> V) (i : ptr) (m : gmap ptr V) x :
  m !! i = Some x -> alter f i m = <[i := f x]> m.
Proof.
  intros H. apply map_eq. intros j. destruct (decide (i = j)) as [<-|].
  - by rewrite lookup_alter_eq, lookup_insert_eq, H.
  - by rewrite lookup_alter_ne, lookup_insert_ne.
Qed.

Lemma zlen_overlay es m o : 0 <= es -> es <= zlen m -> es <= zlen (overlay es m o).
Proof. intros. unfold overlay. rewrite zlen_app. pose proof (zlen_nonneg (drop (Z.to_nat es) o)). lia. Qed.

(** Completing one waiter leaves every other waiter as it was. *)
Lemma waiter_ok_give a es0 es m x y :
  0 <= es -> zlen m = es -> waiter_ok a es0 y -> es0 <= es -> waiter_ok (give es m x a) es0 y.
Proof.
  intros Hes Hm [Hl Hd Hp Hb] Hle. split; simpl; [done..|].
  intros w Hw. destruct (Hb w Hw) as (b & Hb1 & Hb2).
  destruct (a_wait a !! x) as [wx|]; [|eauto].
  destruct (decide (w_data wx = w_data w)) as [E|].
  - rewrite E, lookup_alter_eq, Hb1. eexists. split; [done|].
    pose proof (zlen_overlay es m b). lia.
  - rewrite lookup_alter_ne by done. eauto.
Qed.

Lemma waiter_ok_finish a es e x y : waiter_ok a es y -> waiter_ok (finish x e a) es y.
Proof.
  intros [Hl Hd Hp Hb].
  assert (forall w, alter (set_w_result e) x (a_wait a) !! y = Some w ->
    exists w0, a_wait a !! y = Some w0 /\ w_select_state w = w_select_state w0 /\
      w_wake_park w = w_wake_park w0 /\ w_data w = w_data w0) as Hw.
  { intros w Hw. destruct (decide (x = y)) as [<-|].
    - rewrite lookup_alter_eq in Hw. destruct (a_wait a !! x); simplify_eq/=. eauto.
    - rewrite lookup_alter_ne in Hw by done. eauto 6. }
  split; simpl.
  - destruct Hl as [w0 Hw0]. destruct (decide (x = y)) as [<-|].
    + rewrite lookup_alter_eq, Hw0. by eexists.
    + rewrite lookup_alter_ne, Hw0 by done. by eexists.
  - intros w (w0 & Hw0 & -> & _)%Hw. eauto.
  - intros w (w0 & Hw0 & _ & -> & _)%Hw. destruct (a_wait a !! x) as [wx|]; [|eauto].
    apply lookup_insert_is_Some'. right. eauto.
  - intros w (w0 & Hw0 & _ & _ & ->)%Hw. eauto.
Qed.

Lemma waiter_ok_on_chan a es p A x : waiter_ok (on_chan p A a) es x <-> waiter_ok a es x.
Proof. split; by intros []. Qed.

Lemma waiter_ok_direct a es x : waiter_ok a es x -> direct a x.
Proof. intros [[w Hw] Hd _ _]. exists w. auto. Qed.

(** The tail of every completion: the result is stored and the park signalled. *)
Lemma awp_finish x e es a (Q : unit -> aheap -> Prop) :
  waiter_ok a es x -> Q tt (finish x e a) ->
  awp (modify_waiter x (set_w_result e);; pk ← wfield w_wake_park x; chan_park_wake pk) a Q.
Proof.
  intros [[w Hw] _ Hp _] HQ.
  apply awp_bind, (awp_set_result _ w); [done|]. apply awp_bind.
  eapply awp_wfield; [apply _|simpl; by rewrite lookup_insert_eq|]. simpl.
  apply awp_park_wake; [simpl; eauto|].
  unfold finish in HQ. rewrite (alter_known _ _ _ _ Hw), Hw in HQ. exact HQ.
Qed.

Lemma finish_known x w e a :
  a_wait a !! x = Some w -> finish x e a = on_park (w_wake_park w) 1 (on_wait x (set_w_result e w) a).
Proof. intros Hw. unfold finish. by rewrite (alter_known _ _ _ _ Hw), Hw. Qed.

Lemma give_known es m x w o a :
  a_wait a !! x = Some w -> a_mem a !! w_data w = Some o ->
  give es m x a = on_mem (w_data w) (overlay es m o) a.
Proof. intros Hw Ho. unfold give. by rewrite Hw, (alter_known _ _ _ _ Ho). Qed.

Lemma on_chan_twice p A A' a : on_chan p A (on_chan p A' a) = on_chan p A a.
Proof. unfold on_chan. simpl. by rewrite insert_insert_eq. Qed.

(** The channel part of the memory is independent of the completions. *)
Lemma finish_on_chan x e p A a : finish x e (on_chan p A a) = on_chan p A (finish x e a).
Proof. done. Qed.
Lemma give_on_chan es m x p A a : give es m x (on_chan p A a) = on_chan p A (give es m x a).
Proof. done. Qed.


Lemma on_park_chan x v p A a : on_park x v (on_chan p A a) = on_chan p A (on_park x v a).
Proof. done. Qed.
Lemma on_wait_chan x v p A a : on_wait x v (on_chan p A a) = on_chan p A (on_wait x v a).
Proof. done. Qed.
Lemma on_mem_chan x v p A a : on_mem x v (on_chan p A a) = on_chan p A (on_mem x v a).
Proof. done. Qed.
Lemma drop_wait_chan x p A a : drop_wait x (on_chan p A a) = on_chan p A (drop_wait x a).
Proof. done. Qed.
Lemma drop_park_chan x p A a : drop_park x (on_chan p A a) = on_chan p A (drop_park x a).
Proof. done. Qed.

Definition finish_all (e : chan_err_t) (l : list ptr) (a : aheap) : aheap :=
  foldl (fun a x => finish x e a) a l.

Lemma finish_all_on_chan e l p A a : finish_all e l (on_chan p A a) = on_chan p A (finish_all e l a).
Proof. revert a. induction l as [|x l IH]; intros a; simpl; [done|]. by rewrite finish_on_chan, IH. Qed.

Lemma offer_finish es x y e a : offer es y (finish x e a) = offer es y a.
Proof.
  unfold offer, finish. simpl. destruct (decide (x = y)) as [<-|].
  - rewrite lookup_alter_eq. by destruct (a_wait a !! x).
  - by rewrite lookup_alter_ne.
Qed.

Lemma zlen_message es b : 0 <= es -> es <= zlen b -> zlen (message es b) = es.
Proof. intros. unfold message, zlen in *. rewrite length_take. lia. Qed.

Lemma waiter_ok_offer a es x w :
  waiter_ok a es x -> a_wait a !! x = Some w ->
  exists b, a_mem a !! w_data w = Some b /\ es <= zlen b /\ offer es x a = message es b.
Proof.
  intros [_ _ _ Hb] Hw. destruct (Hb w Hw) as (b & Eb & Hle). exists b. unfold offer. by rewrite Hw, Eb.
Qed.

Create Rewrite HintDb abs_rw.
#[export] Hint Rewrite @drop_nil @drop_0 finish_all_on_chan offer_finish on_park_chan on_wait_chan on_mem_chan drop_wait_chan drop_park_chan : abs_rw.
#[export] Hint Rewrite on_chan_twice finish_on_chan give_on_chan : abs_rw.

Lemma achan_eta A :
  mk_achan (a_es A) (a_cap A) (a_spsc A) (a_locked A) (a_slots A) (a_buf A) (a_scnt A) (a_rcnt A)
    (a_sq A) (a_rq A) (a_closed A) (a_ref A) = A.
Proof. by destruct A. Qed.

(** Close a goal [Q r s] with [H : Q r s'] where the two memories are the same
    up to the order of updates of distinct parts. *)
Ltac same_chan :=
  unfold set_aq, set_a_locked, set_a_buf, set_a_scnt, set_a_rcnt, set_a_sq, set_a_rq, set_a_closed, set_a_ref;
  simpl; f_equal; first [reflexivity | congruence].
Ltac settle H :=
  autorewrite with abs_rw;
  lazymatch type of H with
  | _ ?s' => lazymatch goal with |- _ ?s => replace s with s'; [exact H|] end
  end;
  autorewrite with abs_rw;
  first [reflexivity | f_equal; same_chan].

(** The same when the channel [HA] looks up is back where it was. *)
Ltac unchanged HA H :=
  autorewrite with abs_rw;
  lazymatch type of HA with
  | _ = Some ?A =>
      lazymatch goal with
      | |- _ (on_chan _ ?B _) =>
          replace B with A; [rewrite (on_chan_same _ _ _ HA); exact H|];
          etransitivity; [symmetry; apply achan_eta|same_chan]
      end
  end.

(** A symbolic step of a program in the abstract judgement. *)
Ltac alive := simpl; first [eassumption | done | by rewrite lookup_insert_eq | by eauto].
Ltac awp_prim :=
  lazymatch goal with
  | |- awp (mbind _ _) _ _ => apply awp_bind
  | |- awp (mret _) _ _ => apply awp_ret
  | |- awp (field _ _) _ _ => eapply awp_field; [apply _|alive|]
  | |- awp (wfield _ _) _ _ => eapply awp_wfield; [apply _|alive|]
  | |- awp (chan_lock _) _ _ => eapply awp_lock; [alive|alive|]
  | |- awp (chan_unlock _) _ _ => eapply awp_unlock; [alive|alive|]
  | |- awp (modify_chan _ _) _ _ => eapply awp_modify; [apply _|alive|]
  | |- awp (modify_waiter _ (set_w_result _)) _ _ => eapply awp_set_result; [alive|]
  | |- awp (chan_park_wake _) _ _ => eapply awp_park_wake; [alive|]
  | |- awp (waiter_destroy _) _ _ => apply awp_waiter_destroy
  end.
Ltac awp_go := repeat (awp_prim; cbv beta; simpl).
(** The same without evaluating anything but the tests of the program. *)
Ltac awp_soft := repeat (awp_prim; cbv beta; cbn [negb orb andb]).

Lemma unqueued_on_chan a x p A :
  unqueued a x -> (forall op, x ∉ aq op A) -> unqueued (on_chan p A a) x.
Proof.
  intros Hu Hn p' A' op HA. simpl in HA.
  apply lookup_insert_Some in HA as [(-> & <-)|(_ & H)]; [done|by eapply Hu].
Qed.

Lemma unqueued_update a x p A A' :
  a_chan a !! p = Some A -> unqueued a x -> (forall op, aq op A' = aq op A) -> unqueued (on_chan p A' a) x.
Proof. intros HA Hu E. apply unqueued_on_chan; [done|]. intros op. rewrite E. by eapply Hu. Qed.

Lemma unqueued_of a p op A x :
  a_chan a !! p = Some A -> only_in p op a x -> x ∉ aq op A -> unqueued a x.
Proof. intros HA Ho Hx p' A' op' HA' Hin. destruct (Ho _ _ _ HA' Hin) as [-> ->]. congruence. Qed.
