(* ===== verification/Chan.v ===== *)
(** * The channel object: [src/chan_core.c] and the wake-up helpers of
    [src/libchan_internal.h]

    Creation, reference counting, closing and the queries, and the two helpers
    that hand buffered messages to parked receivers and admit parked senders.
    Their specifications are stated on the abstract memory of [Abs]. *)

From S2P Require Import Prelude RingLf Heap WaitQ Abs.
From Stdlib Require Import Strings.String.
From stdpp Require Import list.
#[local] Open Scope Z_scope.

(** ** Wake-up helpers *)

Fixpoint deliver_loop (fuel : nat) (ch : ptr) : M unit :=
  match fuel with
  | O => hang
  | S fuel =>
      empty ← chan_ring_empty ch;
      if (empty : bool) then mret tt
      else
        r ← waitq_pop_receiver ch;
        if r =? NULL then mret tt
        else
          d ← wfield w_data r;
          ok ← ring_pop ch d;
          if negb ok then waitq_push_front (ch, CHAN_OP_RECV) r
          else
            modify_waiter r (set_w_result CHAN_OK);;
            pk ← wfield w_wake_park r;
            chan_park_wake pk;;
            deliver_loop fuel ch
  end.

Definition chan_deliver_ring_to_receivers_locked (ch : ptr) : M unit :=
  fuel ← gets loop_fuel; deliver_loop fuel ch.

Definition chan_deliver_ring_to_receivers (ch : ptr) : M unit :=
  chan_lock ch;; chan_deliver_ring_to_receivers_locked ch;; chan_unlock ch.

Fixpoint admit_loop (fuel : nat) (ch : ptr) : M unit :=
  match fuel with
  | O => hang
  | S fuel =>
      full ← chan_ring_full ch;
      if (full : bool) then mret tt
      else
        s ← waitq_pop_sender ch;
        if s =? NULL then mret tt
        else
          d ← wfield w_data s;
          ok ← ring_push ch d;
          if negb ok then waitq_push_front (ch, CHAN_OP_SEND) s
          else
            modify_waiter s (set_w_result CHAN_OK);;
            pk ← wfield w_wake_park s;
            chan_park_wake pk;;
            admit_loop fuel ch
  end.

Definition chan_admit_senders_to_ring (ch : ptr) : M unit :=
  chan_lock ch;;
  fuel ← gets loop_fuel; admit_loop fuel ch;;
  chan_unlock ch.

(** ** Creation and destruction *)

(** [calloc(1, sizeof( *ch))]: every member is zero. *)
Definition zero_chan : chan :=
  mk_chan 0 0 false false (mk_ring 0 0 0 0 0 0 0 0 0 None) 0 0 (mk_waitq NULL NULL) (mk_waitq NULL NULL) false 0.

(** [free(ch)].  Only the ring refers to its block of slots: a block it still has
    is lost with it. *)
Definition free_chan (ch : ptr) : M unit := fun h =>
  let! c := deref (h_chan h !! ch) in
  Ret (tt, set_h_lost (option_list (slots (ch_ring c)) ++ h_lost h) (set_h_chan (delete ch (h_chan h)) h)).

(** [calloc] is the block the allocator answers with, if any. *)
Definition chan_create_impl `{Malloc} (calloc : option ptr) (elem_size capacity : Z) (spsc : bool) : M ptr :=
  if elem_size =? 0 then mret NULL
  else match calloc with
  | None => mret NULL
  | Some ch =>
      (fun h => Ret (tt, set_h_chan (<[ch := zero_chan]> (h_chan h)) h));;
      modify_chan ch (set_ch_elem_size elem_size);;
      modify_chan ch (set_ch_capacity capacity);;
      modify_chan ch (set_ch_spsc (spsc && (0 <? capacity)));;
      ok ← (if 0 <? capacity then
              r ← field ch_ring ch;
              let (ok, r) := ring_lf_init r capacity elem_size in
              modify_chan ch (set_ch_ring r);; mret ok
            else mret true);
      if negb ok then free_chan ch;; mret NULL
      else
        modify_chan ch (set_ch_locked false);;
        modify_chan ch (set_closed false);;
        modify_chan ch (set_refcount 1);;
        modify_chan ch (set_send_waiter_cnt 0);;
        modify_chan ch (set_recv_waiter_cnt 0);;
        modify_chan ch (set_send_waiters (mk_waitq NULL NULL));;
        modify_chan ch (set_recv_waiters (mk_waitq NULL NULL));;
        mret ch
  end.

Definition chan_create `{Malloc} (calloc : option ptr) (elem_size capacity : Z) : M ptr :=
  chan_create_impl calloc elem_size capacity false.
Definition chan_create_spsc `{Malloc} (calloc : option ptr) (elem_size capacity : Z) : M ptr :=
  chan_create_impl calloc elem_size capacity true.

Definition chan_free (ch : ptr) : M unit :=
  waitq_close_all (ch, CHAN_OP_SEND);;
  waitq_close_all (ch, CHAN_OP_RECV);;
  cap ← field ch_capacity ch;
  (if 0 <? cap then modify_chan ch (fun c => set_ch_ring (ring_lf_destroy (ch_ring c)) c) else mret tt);;
  free_chan ch.

Definition chan_retain (ch : ptr) : M ptr :=
  if ch =? NULL then mret NULL else modify_chan ch (add_refcount 1);; mret ch.

Definition chan_destroy (ch : ptr) : M unit :=
  if ch =? NULL then mret tt
  else
    old ← field refcount ch;
    modify_chan ch (add_refcount (-1));;
    if old =? 1 then chan_lock ch;; chan_unlock ch;; chan_free ch else mret tt.

(** ** Closing *)

(** The receivers' loop of [chan_close]: a buffered message if there is one,
    CHAN_ERR_CLOSED otherwise. *)
Fixpoint close_receivers_loop (fuel : nat) (ch : ptr) : M unit :=
  match fuel with
  | O => hang
  | S fuel =>
      r ← waitq_pop (ch, CHAN_OP_RECV);
      if r =? NULL then mret tt
      else
        ok ← waiter_try_claim r;
        (if (ok : bool) then
           cap ← field ch_capacity ch;
           got ← (if 0 <? cap then d ← wfield w_data r; ring_pop ch d else mret false);
           modify_waiter r (set_w_result (if (got : bool) then CHAN_OK else CHAN_ERR_CLOSED));;
           pk ← wfield w_wake_park r;
           chan_park_wake pk
         else mret tt);;
        close_receivers_loop fuel ch
  end.

Definition chan_close (ch : ptr) : M chan_err_t :=
  if ch =? NULL then mret CHAN_ERR_INVALID
  else
    chan_lock ch;;
    cl ← field closed ch;
    if (cl : bool) then chan_unlock ch;; mret CHAN_ERR_CLOSED
    else
      modify_chan ch (set_closed true);;
      waitq_close_all (ch, CHAN_OP_SEND);;
      fuel ← gets loop_fuel; close_receivers_loop fuel ch;;
      chan_unlock ch;;
      mret CHAN_OK.

(** ** Queries *)

Definition chan_is_closed (ch : ptr) : M bool :=
  if ch =? NULL then mret true else field closed ch.

Definition chan_len (ch : ptr) : M Z :=
  if ch =? NULL then mret 0
  else
    cap ← field ch_capacity ch;
    if cap =? 0 then mret 0 else field (fun c => ring_lf_count (ch_ring c)) ch.

Definition chan_cap (ch : ptr) : M Z :=
  if ch =? NULL then mret 0 else field ch_capacity ch.

Definition chan_strerror (err : Z) : string :=
  if err =? err_code CHAN_OK then "ok"
  else if err =? err_code CHAN_ERR_CLOSED then "channel closed"
  else if err =? err_code CHAN_ERR_TIMEOUT then "timeout"
  else if err =? err_code CHAN_ERR_WOULDBLOCK then "would block"
  else if err =? err_code CHAN_ERR_INVALID then "invalid argument"
  else if err =? err_code CHAN_ERR_NOMEM then "out of memory"
  else "unknown error".

(** ** The helpers as list operations *)

(** Hand the messages of [buf] to the receivers of [rq], both oldest first. *)
Fixpoint deliver (es : Z) (buf : list (list byte)) (rq : list ptr) (a : aheap) : aheap :=
  match buf, rq with
  | m :: buf, r :: rq => deliver es buf rq (finish r CHAN_OK (give es m r a))
  | _, _ => a
  end.

Lemma deliver_chan es buf rq a : a_chan (deliver es buf rq a) = a_chan a.
Proof. revert rq a. induction buf as [|m buf IH]; intros [|r rq] a; simpl; [done..|]. by rewrite IH. Qed.

Lemma deliver_on_chan es buf rq p A a : deliver es buf rq (on_chan p A a) = on_chan p A (deliver es buf rq a).
Proof.
  revert rq a. induction buf as [|m buf IH]; intros [|r rq] a; simpl; [done..|]. by rewrite <- IH.
Qed.

Lemma deliver_nil_r es buf a : deliver es buf [] a = a.
Proof. by destruct buf. Qed.

#[export] Hint Rewrite deliver_on_chan deliver_nil_r : abs_rw.

Section helpers.
Context (p : ptr) (A : achan) (a : aheap).
Hypothesis HA : a_chan a !! p = Some A.
Hypothesis Hcap : a_cap A <> 0.
Hypothesis Hes : 0 <= a_es A.

(** One receiver served by the locked helper. *)
Lemma awp_deliver_one fuel m buf r rq (Q : unit -> aheap -> Prop) :
  a_buf A = m :: buf -> a_rq A = r :: rq -> waiter_ok a (a_es A) r ->
  awp (deliver_loop fuel p)
    (finish r CHAN_OK (give (a_es A) m r (on_chan p (set_a_buf buf (set_a_rq rq A)) a))) Q ->
  awp (deliver_loop (S fuel) p) a Q.
Proof using HA Hcap Hes.
  intros Hb Hr Hok HQ. destruct Hok as [[w Hw] Hd Hp Hm].
  destruct (Hm w Hw) as (o & Ho & Hlen). simpl.
  apply awp_bind. eapply awp_ring_empty; [done|]. rewrite Hb. simpl.
  apply awp_bind. eapply awp_pop_receiver; [done|]. rewrite Hr. split; [by exists w; auto|]. intros Hx.
  rewrite (proj2 (Z.eqb_neq _ _) Hx). awp_go.
  eapply awp_ring_pop; [alive|done|alive|done|]. simpl. rewrite Hb.
  rewrite (give_known _ _ _ w o), (finish_known _ w) in HQ by done.
  awp_go. rewrite on_chan_twice. exact HQ.
Qed.
End helpers.

(** What the helpers need of a channel: messages of the right size and waiters
    that are complete. *)
Record served (a : aheap) (A : achan) (op : chan_op_t) : Prop := {
  sv_cap : a_cap A <> 0;
  sv_es : 0 <= a_es A;
  sv_msg : Forall (fun m => zlen m = a_es A) (a_buf A);
  sv_wait : forall x, x ∈ aq op A -> waiter_ok a (a_es A) x
}.

Lemma served_locked a A B p op b :
  served a A op -> served (on_chan p B a) (set_a_locked b A) op.
Proof.
  intros [Hc He Hm Hw]. split; [done..|]. intros x Hx. apply waiter_ok_on_chan, Hw. by destruct op.
Qed.

Lemma awp_deliver_loop fuel p A a (Q : unit -> aheap -> Prop) :
  a_chan a !! p = Some A -> served a A CHAN_OP_RECV -> (length (a_rq A) < fuel)%nat ->
  Q tt (on_chan p (set_a_buf (drop (length (a_rq A)) (a_buf A)) (set_a_rq (drop (length (a_buf A)) (a_rq A)) A))
          (deliver (a_es A) (a_buf A) (a_rq A) a)) ->
  awp (deliver_loop fuel p) a Q.
Proof.
  revert A a. induction fuel as [|fuel IH]; intros A a HA [Hcap Hes Hmsg Hw] Hf HQ; [lia|].
  destruct (a_buf A) as [|m buf] eqn:Eb.
  { simpl. apply awp_bind. eapply awp_ring_empty; [done|]. rewrite Eb. simpl. apply awp_ret.
    simpl in HQ. rewrite drop_nil in HQ. rewrite drop_0 in HQ. rewrite on_chan_same in HQ; [done|].
    rewrite HA. f_equal. rewrite <- Eb. by destruct A. }
  destruct (a_rq A) as [|r rq] eqn:Er.
  { simpl. apply awp_bind. eapply awp_ring_empty; [done|]. rewrite Eb. simpl.
    apply awp_bind. eapply awp_pop_receiver; [done|]. rewrite Er. simpl. apply awp_ret.
    simpl in HQ. rewrite on_chan_same in HQ; [done|]. rewrite HA. f_equal. rewrite <- Eb, <- Er. by destruct A. }
  apply Forall_cons in Hmsg as [Hm Hmsg]. simpl in Hw.
  eapply awp_deliver_one; [done..| |]; [apply Hw; rewrite Er; left|].
  apply IH with (set_a_buf buf (set_a_rq rq A)); [simpl; by rewrite lookup_insert_eq| |simpl in *; lia|].
  - split; [done..|]. intros x Hx. apply waiter_ok_finish, waiter_ok_give; [done..| |done].
    apply waiter_ok_on_chan, Hw. rewrite Er. by right.
  - simpl in *. by autorewrite with abs_rw.
Qed.

Lemma awp_deliver_locked p A a (Q : unit -> aheap -> Prop) :
  a_chan a !! p = Some A -> served a A CHAN_OP_RECV ->
  Q tt (on_chan p (set_a_buf (drop (length (a_rq A)) (a_buf A)) (set_a_rq (drop (length (a_buf A)) (a_rq A)) A))
          (deliver (a_es A) (a_buf A) (a_rq A) a)) ->
  awp (chan_deliver_ring_to_receivers_locked p) a Q.
Proof.
  intros HA Hs HQ. apply awp_bind, awp_loop_fuel. intros fuel Hf.
  apply awp_deliver_loop with A; [done|done|apply (Hf p A CHAN_OP_RECV HA)|done].
Qed.

(** One sender admitted by the helper. *)
Lemma awp_admit_one fuel p A a s sq (Q : unit -> aheap -> Prop) :
  a_chan a !! p = Some A -> a_cap A <> 0 -> zlen (a_buf A) < a_slots A ->
  a_sq A = s :: sq -> waiter_ok a (a_es A) s ->
  awp (admit_loop fuel p)
    (finish s CHAN_OK (on_chan p (set_a_buf (a_buf A ++ [offer (a_es A) s a]) (set_a_sq sq A)) a)) Q ->
  awp (admit_loop (S fuel) p) a Q.
Proof.
  intros HA Hcap Hroom Hs Hok HQ. pose proof Hok as [[w Hw] Hd Hp _].
  destruct (waiter_ok_offer _ _ _ _ Hok Hw) as (b & Hb & Hlen & Eo). simpl.
  apply awp_bind. eapply awp_ring_full; [done..|]. rewrite (proj2 (Z.leb_gt _ _)) by done.
  apply awp_bind. eapply awp_pop_sender; [done|]. rewrite Hs. split; [by exists w; auto|]. intros Hx.
  rewrite (proj2 (Z.eqb_neq _ _) Hx). awp_go.
  eapply awp_ring_push; [alive|done|alive|done|]. simpl. rewrite (proj2 (Z.ltb_lt _ _)) by done. simpl.
  rewrite (finish_known _ w), Eo in HQ by done. awp_go. rewrite on_chan_twice. exact HQ.
Qed.

(** The senders that fit enter the ring, in order; they are the first ones. *)
Lemma awp_admit_loop fuel p A a (Q : unit -> aheap -> Prop) :
  a_chan a !! p = Some A -> served a A CHAN_OP_SEND -> (length (a_sq A) < fuel)%nat ->
  (let k := Z.to_nat (a_slots A - zlen (a_buf A)) in
   let ms := (fun s => offer (a_es A) s a) <$> take k (a_sq A) in
   Q tt (on_chan p (set_a_buf (a_buf A ++ ms) (set_a_sq (drop k (a_sq A)) A))
           (finish_all CHAN_OK (take k (a_sq A)) a))) ->
  awp (admit_loop fuel p) a Q.
Proof.
  revert A a. induction fuel as [|fuel IH]; intros A a HA [Hcap Hes Hmsg Hw] Hf HQ; [lia|].
  simpl in HQ. destruct (Z.to_nat (a_slots A - zlen (a_buf A))) as [|k] eqn:Ek.
  { simpl. apply awp_bind. eapply awp_ring_full; [done..|]. rewrite (proj2 (Z.leb_le _ _)) by lia. apply awp_ret.
    simpl in HQ. rewrite app_nil_r, on_chan_same in HQ; [done|]. rewrite HA. by destruct A. }
  destruct (a_sq A) as [|s sq] eqn:Es.
  { simpl. apply awp_bind. eapply awp_ring_full; [done..|]. rewrite (proj2 (Z.leb_gt _ _)) by lia.
    apply awp_bind. eapply awp_pop_sender; [done|]. rewrite Es. simpl. apply awp_ret.
    simpl in HQ. rewrite app_nil_r, on_chan_same in HQ; [done|]. rewrite HA, <- Es. by destruct A. }
  assert (waiter_ok a (a_es A) s) as Hs by (apply Hw; simpl; rewrite Es; left).
  eapply awp_admit_one; [done|done|lia|done|done|].
  pose proof Hs as [[w Hws] _ _ _]. destruct (waiter_ok_offer _ _ _ _ Hs Hws) as (b & _ & Hlen & Eo).
  apply IH with (set_a_buf (a_buf A ++ [offer (a_es A) s a]) (set_a_sq sq A));
    [simpl; by rewrite lookup_insert_eq| |simpl in *; lia|].
  - split; simpl; [done..| |].
    + apply Forall_app. split; [done|]. apply Forall_singleton. rewrite Eo. by apply zlen_message.
    + intros x Hx. apply waiter_ok_finish, waiter_ok_on_chan, Hw. simpl. rewrite Es. by right.
  - simpl. replace (Z.to_nat _) with k by (rewrite zlen_app; unfold zlen in *; simpl; lia).
    rewrite (list_fmap_ext _ (fun s0 => offer (a_es A) s0 a)) by (intros; by rewrite offer_finish).
    autorewrite with abs_rw. rewrite <- app_assoc. exact HQ.
Qed.

Lemma awp_admit_senders p A a (Q : unit -> aheap -> Prop) :
  a_chan a !! p = Some A -> served a A CHAN_OP_SEND -> a_locked A = false ->
  (let k := Z.to_nat (a_slots A - zlen (a_buf A)) in
   let ms := (fun s => offer (a_es A) s a) <$> take k (a_sq A) in
   Q tt (on_chan p (set_a_buf (a_buf A ++ ms) (set_a_sq (drop k (a_sq A)) A))
           (finish_all CHAN_OK (take k (a_sq A)) a))) ->
  awp (chan_admit_senders_to_ring p) a Q.
Proof.
  intros HA Hsv HL HQ. unfold chan_admit_senders_to_ring. awp_go.
  apply awp_loop_fuel. intros fuel Hf. apply awp_bind.
  eapply awp_admit_loop; [alive| | |].
  - by apply served_locked.
  - specialize (Hf p (set_a_locked true A) CHAN_OP_SEND). simpl in Hf. rewrite lookup_insert_eq in Hf. by apply Hf.
  - simpl. awp_go. autorewrite with abs_rw. replace (set_a_locked _ _) with
      (set_a_buf (a_buf A ++ ((fun s => offer (a_es A) s a) <$> take (Z.to_nat (a_slots A - zlen (a_buf A))) (a_sq A)))
        (set_a_sq (drop (Z.to_nat (a_slots A - zlen (a_buf A))) (a_sq A)) A)); [exact HQ|].
    destruct A; simpl in *; by subst.
Qed.

Lemma awp_deliver p A a (Q : unit -> aheap -> Prop) :
  a_chan a !! p = Some A -> served a A CHAN_OP_RECV -> a_locked A = false ->
  Q tt (on_chan p (set_a_buf (drop (length (a_rq A)) (a_buf A)) (set_a_rq (drop (length (a_buf A)) (a_rq A)) A))
          (deliver (a_es A) (a_buf A) (a_rq A) a)) ->
  awp (chan_deliver_ring_to_receivers p) a Q.
Proof.
  intros HA Hsv HL HQ. unfold chan_deliver_ring_to_receivers. awp_go.
  eapply awp_deliver_locked; [alive|by apply served_locked|]. simpl. awp_go. autorewrite with abs_rw.
  replace (set_a_locked _ _) with (set_a_buf (drop (length (a_rq A)) (a_buf A))
    (set_a_rq (drop (length (a_buf A)) (a_rq A)) A)); [exact HQ|].
  destruct A; simpl in *; by subst.
Qed.

(** ** Closing the queues *)

Lemma awp_close_all_loop fuel p op A a (Q : unit -> aheap -> Prop) :
  a_chan a !! p = Some A -> (forall x, x ∈ aq op A -> waiter_ok a (a_es A) x) ->
  (length (aq op A) < fuel)%nat ->
  Q tt (on_chan p (set_aq op [] A) (finish_all CHAN_ERR_CLOSED (aq op A) a)) ->
  awp (waitq_close_all_loop fuel (p, op)) a Q.
Proof.
  revert A a. induction fuel as [|fuel IH]; intros A a HA Hw Hf HQ; [lia|]. simpl.
  apply awp_bind. eapply awp_waitq_pop; [done|]. destruct (aq op A) as [|x l] eqn:E.
  { simpl. apply awp_ret. simpl in HQ. rewrite on_chan_same in HQ; [done|]. rewrite HA, <- E. by destruct op, A. }
  intros Hx. rewrite (proj2 (Z.eqb_neq _ _) Hx).
  assert (waiter_ok a (a_es A) x) as Hok by (apply Hw; left).
  apply awp_bind, awp_claim_direct; [exact (waiter_ok_direct _ _ _ Hok)|]. simpl.
  apply awp_bind. eapply awp_finish; [by apply waiter_ok_on_chan|].
  apply IH with (set_aq op l A); [simpl; by rewrite lookup_insert_eq| | |].
  - intros y. rewrite aq_set_same. intros Hy. apply waiter_ok_finish, waiter_ok_on_chan.
    replace (a_es (set_aq op l A)) with (a_es A) by (by destruct op). apply Hw. by right.
  - rewrite aq_set_same. simpl in Hf. lia.
  - rewrite aq_set_same. autorewrite with abs_rw.
    replace (set_aq op [] (set_aq op l A)) with (set_aq op [] A) by (by destruct op). exact HQ.
Qed.

Lemma awp_close_all p op A a (Q : unit -> aheap -> Prop) :
  a_chan a !! p = Some A -> (forall x, x ∈ aq op A -> waiter_ok a (a_es A) x) ->
  Q tt (on_chan p (set_aq op [] A) (finish_all CHAN_ERR_CLOSED (aq op A) a)) ->
  awp (waitq_close_all (p, op)) a Q.
Proof.
  intros HA Hw HQ. apply awp_bind, awp_loop_fuel. intros fuel Hf.
  eapply awp_close_all_loop; [done|done|by apply (Hf p)|done].
Qed.

Lemma awp_close_receivers fuel p A a (Q : unit -> aheap -> Prop) :
  a_chan a !! p = Some A -> 0 <= a_cap A -> 0 <= a_es A ->
  (a_cap A = 0 -> a_buf A = []) -> Forall (fun m => zlen m = a_es A) (a_buf A) ->
  (forall x, x ∈ a_rq A -> waiter_ok a (a_es A) x) -> (length (a_rq A) < fuel)%nat ->
  Q tt (on_chan p (set_a_buf (drop (length (a_rq A)) (a_buf A)) (set_a_rq [] A))
          (finish_all CHAN_ERR_CLOSED (drop (length (a_buf A)) (a_rq A)) (deliver (a_es A) (a_buf A) (a_rq A) a))) ->
  awp (close_receivers_loop fuel p) a Q.
Proof.
  revert A a. induction fuel as [|fuel IH]; intros A a HA Hc He H0 Hm Hw Hf HQ; [lia|]. simpl.
  apply awp_bind. eapply awp_waitq_pop; [done|]. simpl. destruct (a_rq A) as [|x l] eqn:E.
  { simpl. apply awp_ret. rewrite drop_nil in HQ. simpl in HQ.
    replace (deliver _ _ [] a) with a in HQ by (by destruct (a_buf A)).
    rewrite on_chan_same in HQ; [done|]. rewrite HA, <- E. by destruct A. }
  intros Hx. rewrite (proj2 (Z.eqb_neq _ _) Hx).
  assert (waiter_ok a (a_es A) x) as Hok by (apply Hw; left).
  pose proof Hok as [[w Hwx] _ _ Hdata]. destruct (Hdata w Hwx) as (o & Ho & Hlen).
  apply awp_bind, awp_claim_direct; [exact (waiter_ok_direct _ _ _ Hok)|]. simpl.
  apply awp_bind. awp_go. simpl in Hf. destruct (a_buf A) as [|m buf] eqn:Eb.
  - assert (forall Q', Q' false (on_chan p (set_a_rq l A) a) ->
      awp (if 0 <? a_cap A then d ← wfield w_data x; ring_pop p d else mret false) (on_chan p (set_a_rq l A) a) Q') as Hpop.
    { intros Q' HQ'. destruct (Z.ltb_spec 0 (a_cap A)); [|by apply awp_ret].
      awp_go. eapply awp_ring_pop; [alive|simpl; lia|alive|done|]. simpl. by rewrite Eb. }
    apply Hpop. eapply awp_finish; [by apply waiter_ok_on_chan|].
    apply IH with (set_a_rq l A); simpl; rewrite ?Eb; try done; [by rewrite lookup_insert_eq| | |].
    + intros y Hy. apply waiter_ok_finish, waiter_ok_on_chan, Hw. by right.
    + lia.
    + simpl in *. rewrite drop_nil. autorewrite with abs_rw. exact HQ.
  - assert (a_cap A <> 0) as Hcap by (intros E0; specialize (H0 E0); congruence).
    apply Forall_cons in Hm as [Hm1 Hm].
    rewrite (proj2 (Z.ltb_lt 0 _)) by lia. awp_go.
    eapply awp_ring_pop; [alive|done|alive|done|]. simpl. rewrite Eb.
    assert (on_mem (w_data w) (overlay (a_es A) m o) (on_chan p (set_a_buf buf (set_a_rq l A)) (on_chan p (set_a_rq l A) a))
      = give (a_es A) m x (on_chan p (set_a_buf buf (set_a_rq l A)) a)) as ->.
    { by rewrite on_chan_twice, (give_known _ _ _ w o). }
    eapply awp_finish; [by apply waiter_ok_give; [..|apply waiter_ok_on_chan|]|].
    apply IH with (set_a_buf buf (set_a_rq l A)); simpl; try done; [by rewrite lookup_insert_eq| | |].
    + intros y Hy. apply waiter_ok_finish, waiter_ok_give; [done..| |done]. apply waiter_ok_on_chan, Hw. by right.
    + lia.
    + simpl in HQ. autorewrite with abs_rw. exact HQ.
Qed.

(** ** Well-formed channels *)

(** What holds of a live channel between two operations, whatever the history. *)
Record chan_ok (a : aheap) (A : achan) : Prop := {
  ok_es : 0 < a_es A;
  ok_cap : 0 <= a_cap A;
  ok_unlocked : a_locked A = false;
  ok_unbuffered : a_cap A = 0 -> a_buf A = [];
  ok_slots : a_cap A <> 0 -> 0 < a_slots A /\ zlen (a_buf A) <= a_slots A;
  ok_msg : Forall (fun m => zlen m = a_es A) (a_buf A);
  ok_wait : forall op x, x ∈ aq op A -> waiter_ok a (a_es A) x
}.

Lemma chan_ok_served a A op : chan_ok a A -> a_cap A <> 0 -> served a A op.
Proof. intros [He _ _ _ _ Hm Hw] Hc. split; [done|lia|done|apply Hw]. Qed.

Lemma waiter_ok_finish_all a es e l x : waiter_ok a es x -> waiter_ok (finish_all e l a) es x.
Proof. revert a. induction l as [|y l IH]; intros a H; simpl; [done|]. by apply IH, waiter_ok_finish. Qed.

(** The channel [A] closed: queues empty, the messages its waiting receivers
    took are gone. *)
Definition closed_chan (A : achan) : achan :=
  set_a_buf (drop (length (a_rq A)) (a_buf A)) (set_a_rq [] (set_a_sq [] (set_a_closed true A))).

(** The waiters' side of a close: every sender is refused; the receivers take
    the buffered messages in order, those that get none are refused. *)
Definition close_waiters (A : achan) (a : aheap) : aheap :=
  finish_all CHAN_ERR_CLOSED (drop (length (a_buf A)) (a_rq A))
    (deliver (a_es A) (a_buf A) (a_rq A) (finish_all CHAN_ERR_CLOSED (a_sq A) a)).

Lemma chan_close_awp p A a (Q : chan_err_t -> aheap -> Prop) :
  p <> NULL -> a_chan a !! p = Some A -> chan_ok a A ->
  (if a_closed A then Q CHAN_ERR_CLOSED a
   else Q CHAN_OK (on_chan p (closed_chan A) (close_waiters A a))) ->
  awp (chan_close p) a Q.
Proof.
  intros Hp HA [He Hc HL H0 Hs Hm Hw] HQ. unfold chan_close.
  rewrite (proj2 (Z.eqb_neq _ _) Hp). awp_go. destruct (a_closed A) eqn:Ecl.
  { awp_go. rewrite on_chan_twice, on_chan_same; [done|]. rewrite HA. destruct A; simpl in *; by subst. }
  awp_go. eapply awp_close_all; [alive| |].
  { intros x Hx. do 2 apply waiter_ok_on_chan. apply (Hw CHAN_OP_SEND). exact Hx. }
  simpl. apply awp_bind, awp_loop_fuel. intros fuel Hf. apply awp_bind.
  eapply awp_close_receivers; [alive|done|simpl; lia|done|done| | |].
  - intros x Hx. apply waiter_ok_on_chan, waiter_ok_finish_all. do 2 apply waiter_ok_on_chan. by apply (Hw CHAN_OP_RECV).
  - specialize (Hf p (set_a_sq [] (set_a_closed true (set_a_locked true A))) CHAN_OP_RECV).
    simpl in Hf. rewrite lookup_insert_eq in Hf. by apply Hf.
  - simpl. awp_go. autorewrite with abs_rw.
    replace (set_a_locked _ _) with (closed_chan A); [exact HQ|]. destruct A; simpl in *; by subst.
Qed.

(** What also holds when no lock-free operation is in flight: a waiting receiver
    means no message and no sender, a waiting sender means a full ring, nobody
    waits on a closed channel, and everyone who waits is counted. *)
Record quiescent (A : achan) : Prop := {
  q_recv : a_rq A <> [] -> a_buf A = [] /\ a_sq A = [];
  q_send : a_sq A <> [] -> a_cap A <> 0 -> a_slots A <= zlen (a_buf A);
  q_closed : a_closed A = true -> a_sq A = [] /\ a_rq A = [];
  q_scnt : zlen (a_sq A) <= a_scnt A;
  q_rcnt : zlen (a_rq A) <= a_rcnt A
}.

(** How many messages the buffer takes. *)
Definition room (A : achan) : Z := if a_cap A =? 0 then 0 else a_slots A.

(** [self] starts to wait in the queue [op] with the buffer [data]. *)
Definition enqueue (ch : ptr) (op : chan_op_t) (self data : ptr) (A : achan) (a : aheap) : aheap :=
  on_chan ch (set_aq op (aq op A ++ [self])
      (match op with
       | CHAN_OP_SEND => set_a_scnt (i32 (a_scnt A + 1)) A
       | CHAN_OP_RECV => set_a_rcnt (i32 (a_rcnt A + 1)) A
       end))
    (on_park self 0 (on_wait self (fresh_waiter self data op) a)).

(** ** Lifetime *)

Definition drop_chan (p : ptr) (a : aheap) : aheap :=
  mk_aheap (delete p (a_chan a)) (a_wait a) (a_park a) (a_state a) (a_mem a).

Lemma repr_new h a p c A :
  repr h a -> chan_rep (h_wait h) c A -> a_sq A = [] -> a_rq A = [] ->
  repr (set_h_chan (<[p := c]> (h_chan h)) h) (on_chan p A a).
Proof.
  intros [Hw Hp Hs Hm Hc Hd] Hr Esq Erq. split; simpl; try done.
  - by apply map_Forall2_insert_2.
  - assert (forall p0 A0 op0 x, <[p := A]> (a_chan a) !! p0 = Some A0 -> x ∈ aq op0 A0 ->
      a_chan a !! p0 = Some A0) as Hold.
    { intros p0 A0 op0 x [(-> & <-)|(_ & ?)]%lookup_insert_Some Hx; [|done].
      destruct op0; simpl in Hx; rewrite ?Esq, ?Erq in Hx; set_solver. }
    intros p1 p2 A1 A2 op1 op2 x H1 H2 Hx1 Hx2. eauto 10.
Qed.

Lemma repr_free h a p : repr h a -> repr (set_h_chan (delete p (h_chan h)) h) (drop_chan p a).
Proof.
  intros [Hw Hp Hs Hm Hc Hd]. split; simpl; try done.
  - by apply map_Forall2_delete.
  - intros p1 p2 A1 A2 op1 op2 x [_ H1]%lookup_delete_Some [_ H2]%lookup_delete_Some. eauto.
Qed.

Lemma wp_free_chan p c Q h :
  h_chan h !! p = Some c ->
  Q tt (set_h_lost (option_list (slots (ch_ring c)) ++ h_lost h) (set_h_chan (delete p (h_chan h)) h)) ->
  wp (free_chan p) Q h.
Proof. unfold wp, free_chan. by intros ->. Qed.

Definition new_achan (es cap : Z) (spsc : bool) (slots : Z) : achan :=
  mk_achan es cap (spsc && (0 <? cap)) false slots [] 0 0 [] [] false 1.

Lemma heap_eta g : mk_heap (h_chan g) (h_wait g) (h_park g) (h_state g) (h_mem g) (h_lost g) = g.
Proof. by destruct g. Qed.

Section create.
Context `{Malloc} (p : ptr) (es cap : Z) (spsc : bool) (a : aheap) (h : heap).
Hypothesis R : repr h a.
Hypothesis Hfresh : h_chan h !! p = None.

(** The structure as [chan_create_impl] leaves it, with the ring [r]. *)
Definition built (r : chan_ring_lf_t) : chan :=
  mk_chan es cap (spsc && (0 <? cap)) false r 0 0 (mk_waitq NULL NULL) (mk_waitq NULL NULL) false 1.

(** The last assignments, on a structure that has its sizes and its ring. *)
Lemma create_finish c (Q : ptr -> heap -> Prop) g :
  h_chan g !! p = Some c ->
  Q p (set_h_chan (<[p := mk_chan (ch_elem_size c) (ch_capacity c) (ch_spsc c) false (ch_ring c) 0 0
        (mk_waitq NULL NULL) (mk_waitq NULL NULL) false 1]> (h_chan g)) g) ->
  wp (modify_chan p (set_ch_locked false);; modify_chan p (set_closed false);; modify_chan p (set_refcount 1);;
      modify_chan p (set_send_waiter_cnt 0);; modify_chan p (set_recv_waiter_cnt 0);;
      modify_chan p (set_send_waiters (mk_waitq NULL NULL));; modify_chan p (set_recv_waiters (mk_waitq NULL NULL));;
      mret p) Q g.
Proof. intros Hc HQ. wp_go. simpl. rewrite !insert_insert_eq. exact HQ. Qed.

Lemma create_wp (Q : ptr -> heap -> Prop) :
  es <> 0 ->
  (if 0 <? cap then
     let (ok, r) := ring_lf_init (ch_ring zero_chan) cap es in
     if ok then Q p (set_h_chan (<[p := built r]> (h_chan h)) h) else Q NULL h
   else Q p (set_h_chan (<[p := built (ch_ring zero_chan)]> (h_chan h)) h)) ->
  wp (chan_create_impl (Some p) es cap spsc) Q h.
Proof using Hfresh.
  intros He HQ. unfold chan_create_impl. rewrite (proj2 (Z.eqb_neq _ _) He).
  apply wp_bind. eapply wp_eval; [done|]. apply wp_bind.
  do 2 (eapply wp_modify_chan; [live|]; apply wp_bind). eapply wp_modify_chan; [live|]. apply wp_bind.
  destruct (0 <? cap) eqn:Ec.
  - unfold field. wp_go. simpl. destruct (ring_lf_init _ cap es) as [[] r] eqn:Er; wp_go; simpl.
    + eapply create_finish; [live|]. simpl. rewrite !insert_insert_eq. unfold built in HQ. rewrite Ec in HQ. exact HQ.
    + apply wp_bind. eapply wp_free_chan; [live|]. simpl. rewrite (init_refused (ch_ring zero_chan) _ _ _ eq_refl Er). apply wp_ret. simpl.
      rewrite !insert_insert_eq, delete_insert_id by done. unfold set_h_chan, set_h_lost. simpl. by rewrite heap_eta.
  - apply wp_ret. simpl. eapply create_finish; [live|]. simpl. rewrite !insert_insert_eq.
    unfold built in HQ. rewrite Ec in HQ. exact HQ.
Qed.

Lemma built_rep r slots :
  capacity r = slots -> (if cap =? 0 then ring_empty r = true /\ RingLf.slots r = None else ring_repr r [] /\ elem_size r = es) ->
  chan_rep (h_wait h) (built r) (new_achan es cap spsc slots).
Proof.
  intros Hs Hr. split.
  - unfold new_achan, abs_chan. simpl. by rewrite Hs.
  - unfold ring_rep. simpl. destruct (cap =? 0); [done|exact Hr].
  - intros []; (split; [apply NoDup_nil_2|done|done]).
Qed.
End create.

Lemma create_awp `{Malloc} p es cap spsc a (Q : ptr -> aheap -> Prop) :
  a_chan a !! p = None -> 0 <= cap <= 2147483648 -> 0 < es -> next_pow2 cap * es < two64 ->
  (cap = 0 -> Q p (on_chan p (new_achan es cap spsc 0) a)) ->
  (forall slots, 0 < cap -> cap <= slots < 2 * cap -> slots = next_pow2 cap -> Q p (on_chan p (new_achan es cap spsc slots) a)) ->
  (0 < cap -> malloc (next_pow2 cap * es) = None -> Q NULL a) ->
  awp (chan_create_impl (Some p) es cap spsc) a Q.
Proof.
  intros Hp Hcap Hes Hfit Q0 Q1 Q2 h R.
  assert (h_chan h !! p = None) as Hfresh.
  { pose proof (r_chan _ _ R p) as E. rewrite Hp in E. inversion E. done. }
  apply (create_wp p es cap spsc h Hfresh); [lia|].
  destruct (Z.ltb_spec 0 cap) as [Hc|Hc].
  - pose proof (init_cases (ch_ring zero_chan) cap es Hcap ltac:(lia) Hfit) as Hi.
    destruct (ring_lf_init _ cap es) as [[] r].
    + destruct Hi as (V & He & Hs & Hb & Hpow). eexists. split; [|apply (Q1 (capacity r)); [lia|done|done]].
      apply repr_new; [done| |done|done]. apply built_rep; [done|].
      by rewrite (proj2 (Z.eqb_neq _ _)) by lia.
    + exists a. split; [done|]. apply Q2; [done|]. destruct Hi as [?|[?|?]]; [lia|lia|done].
  - assert (cap = 0) as E0 by lia. eexists. split; [|apply Q0; done].
    apply repr_new; [done| |done|done]. apply built_rep; [done|]. by rewrite E0.
Qed.

Lemma new_achan_ok es cap spsc slots a :
  0 < es -> 0 <= cap -> (0 < cap -> 0 < slots) ->
  chan_ok a (new_achan es cap spsc slots) /\ quiescent (new_achan es cap spsc slots).
Proof.
  intros He Hc Hs. split; [|by split]. split; simpl; try done.
  - intros. split; [lia|]. unfold zlen. simpl. lia.
  - intros [] x; simpl; set_solver.
Qed.

(** The end of [chan_free]: the ring's block and the structure go, and no block is lost. *)
Lemma awp_release p A a (Q : unit -> aheap -> Prop) :
  a_chan a !! p = Some A -> 0 <= a_cap A -> Q tt (drop_chan p a) ->
  awp (cap ← field ch_capacity p;
       (if 0 <? cap then modify_chan p (fun c => set_ch_ring (ring_lf_destroy (ch_ring c)) c) else mret tt);;
       free_chan p) a Q.
Proof.
  intros HA H0 HQ h R. destruct (repr_lookup _ _ _ _ R HA) as (c & Hc & [Ha Hr _]). unfold field. wp_go.
  assert (repr (set_h_chan (delete p (h_chan h)) h) (drop_chan p a)) as R' by (by apply repr_free).
  rewrite Ha in H0. simpl in H0. unfold ring_rep in Hr.
  destruct (Z.ltb_spec 0 (ch_capacity c)) as [Hcap|Hcap]; wp_go; (eapply wp_free_chan; [live|]); simpl; eexists; (split; [|exact HQ]).
  - rewrite delete_insert_eq. destruct h. exact R'.
  - rewrite (proj2 (Z.eqb_eq _ _)) in Hr by lia. destruct Hr as (_ & _ & ->). destruct h. exact R'.
Qed.

Lemma chan_destroy_awp p A a (Q : unit -> aheap -> Prop) :
  p <> NULL -> a_chan a !! p = Some A -> chan_ok a A -> 1 <= a_ref A < 2147483648 ->
  (if a_ref A =? 1
   then Q tt (drop_chan p (finish_all CHAN_ERR_CLOSED (a_rq A) (finish_all CHAN_ERR_CLOSED (a_sq A) a)))
   else Q tt (on_chan p (set_a_ref (a_ref A - 1) A) a)) ->
  awp (chan_destroy p) a Q.
Proof.
  intros Hp HA [_ Hcap HL _ _ _ Hw] Hr HQ. unfold chan_destroy. rewrite (proj2 (Z.eqb_neq _ _) Hp). awp_go.
  destruct (Z.eqb_spec (a_ref A) 1) as [E|E].
  - awp_go. unfold chan_free. autorewrite with abs_rw.
    apply awp_bind. eapply awp_close_all; [alive| |].
    { intros x Hx. apply waiter_ok_on_chan, (Hw CHAN_OP_SEND). exact Hx. }
    simpl. autorewrite with abs_rw. apply awp_bind. eapply awp_close_all; [alive| |].
    { intros x Hx. apply waiter_ok_on_chan, waiter_ok_finish_all, (Hw CHAN_OP_RECV). exact Hx. }
    simpl. autorewrite with abs_rw. eapply awp_release; [alive|done|].
    unfold drop_chan in *. simpl. rewrite delete_insert_eq. exact HQ.
  - awp_go. replace (i32 (a_ref A + -1)) with (a_ref A - 1); [exact HQ|].
    unfold i32. rewrite u32_small by (unfold two32; lia). case_test; lia.
Qed.

(** ** A concrete memory

    Channel 100 buffers two one-byte messages in [ring_ex]; on the unbuffered
    channel 101 the thread whose frame is at 300 waits to receive into 201; the
    ring of channel 102 is full and the thread at 302 waits to send from 200. *)
Definition waiter_ex : chan_waiter := fresh_waiter 300 201 CHAN_OP_RECV.
Definition waiter_exf : chan_waiter := fresh_waiter 302 200 CHAN_OP_SEND.
Definition ring_exf : chan_ring_lf_t := mk_ring 2 2 0 0 0 0 1 2 1 (Some [x41; x42]).

Definition heap_ex : heap :=
  mk_heap
    (<[100 := mk_chan 1 3 false false ring_ex 0 0 (mk_waitq NULL NULL) (mk_waitq NULL NULL) false 1]>
     (<[101 := mk_chan 1 0 false false (ch_ring zero_chan) 0 1 (mk_waitq NULL NULL) (mk_waitq 300 300) false 1]>
      {[102 := mk_chan 1 2 false false ring_exf 1 0 (mk_waitq 302 302) (mk_waitq NULL NULL) false 1]}))
    (<[300 := waiter_ex]> {[302 := waiter_exf]}) (<[300 := 0]> {[302 := 0]}) ∅
    (<[200 := [x43]]> {[201 := [x00]]}) [].

Definition chan_ex : achan := mk_achan 1 3 false false 4 [[x41]; [x42]] 0 0 [] [] false 1.
Definition chan_ex0 : achan := mk_achan 1 0 false false 0 [] 0 1 [] [300] false 1.
Definition chan_exf : achan := mk_achan 1 2 false false 2 [[x41]; [x42]] 1 0 [302] [] false 1.
Definition aheap_ex : aheap :=
  mk_aheap (<[100 := chan_ex]> (<[101 := chan_ex0]> {[102 := chan_exf]}))
    (h_wait heap_ex) (h_park heap_ex) ∅ (h_mem heap_ex).

Lemma ring_exf_repr : ring_repr ring_exf [[x41]; [x42]].
Proof.
  exists [x41; x42], 0. constructor; try done.
  - constructor; try done. by exists 1.
  - intros [|[|[|i]]] e Hi; simplify_eq/=; done.
Qed.

Lemma queue_rep_nil ws : queue_rep ws (mk_waitq NULL NULL) [].
Proof. split; [apply NoDup_nil_2|done|done]. Qed.

Lemma queue_rep_one ws x w : x <> NULL -> ws !! x = Some w -> w_next w = NULL -> queue_rep ws (mk_waitq x x) [x].
Proof.
  intros Hx Hw Hn. split; [apply NoDup_singleton| |done]. simpl. split; [done|]. split; [done|]. eauto.
Qed.

Lemma heap_ex_queued p A op x :
  a_chan aheap_ex !! p = Some A -> x ∈ aq op A ->
  (p = 101 /\ op = CHAN_OP_RECV /\ x = 300) \/ (p = 102 /\ op = CHAN_OP_SEND /\ x = 302).
Proof.
  simpl. rewrite !lookup_insert_Some, lookup_singleton_Some.
  intros [(<- & <-)|(_ & [(<- & <-)|(_ & <- & <-)])]; destruct op; simpl; set_solver.
Qed.

Lemma heap_ex_repr : repr heap_ex aheap_ex.
Proof.
  split; try done; simpl.
  - repeat apply map_Forall2_insert_2; [| | |apply map_Forall2_empty].
    + split; [done|split; [apply ring_ex_repr|done]|]. intros []; apply queue_rep_nil.
    + split; [done|done|]. intros []; [apply queue_rep_nil|by apply queue_rep_one with waiter_ex].
    + split; [done|split; [apply ring_exf_repr|done]|]. intros []; [by apply queue_rep_one with waiter_exf|apply queue_rep_nil].
  - intros p p' A A' op op' x HA HA' Hx Hx'.
    destruct (heap_ex_queued _ _ _ _ HA Hx) as [(-> & -> & ->)|(-> & -> & ->)],
      (heap_ex_queued _ _ _ _ HA' Hx') as [(-> & -> & ?)|(-> & -> & ?)]; done.
Qed.

Lemma heap_ex_ok p A : a_chan aheap_ex !! p = Some A -> chan_ok aheap_ex A.
Proof.
  intros HA. assert (forall op x, x ∈ aq op A -> waiter_ok aheap_ex (a_es A) x) as Hw.
  { intros op x Hx. destruct (heap_ex_queued _ _ _ _ HA Hx) as [(-> & -> & ->)|(-> & -> & ->)];
      injection HA as <-; (split; simpl; [by eexists|..]; intros w [= <-]; simpl; [done|by eexists|eexists; by split]). }
  simpl in HA. rewrite !lookup_insert_Some, lookup_singleton_Some in HA.
  destruct HA as [(<- & <-)|(_ & [(<- & <-)|(_ & <- & <-)])]; split; try done; by repeat constructor.
Qed.

Lemma chan_ex_quiescent : quiescent chan_ex.
Proof. by split. Qed.
Lemma chan_ex0_quiescent : quiescent chan_ex0.
Proof. by split. Qed.
Lemma chan_exf_quiescent : quiescent chan_exf.
Proof. by split. Qed.

(** ** Theorems *)

(** [chan_create] on a block the allocator grants yields an open, empty,
    unlocked channel with one reference and no waiters, whose ring holds at least
    [capacity] and fewer than twice as many messages, or returns NULL and leaves
    the memory as it was when the ring's block is refused.  A zero element size
    or a refused structure is NULL at once. *)
Theorem chan_create_spec `{Malloc} p es cap spsc a h
    (R : repr h a) (Hp : p <> NULL) (Hfresh : a_chan a !! p = None)
    (Hcap : 0 <= cap <= 2147483648) (Hes : 0 < es) (Hfit : next_pow2 cap * es < two64) :
  (exists r h', chan_create_impl (Some p) es cap spsc h = Ret (r, h') /\
     ((r = NULL /\ 0 < cap /\ malloc (next_pow2 cap * es) = None /\ repr h' a) \/
      (r = p /\ exists slots, (cap = 0 \/ cap <= slots < 2 * cap) /\
         repr h' (on_chan p (new_achan es cap spsc slots) a) /\
         chan_ok (on_chan p (new_achan es cap spsc slots) a) (new_achan es cap spsc slots) /\
         quiescent (new_achan es cap spsc slots)))) /\
  (forall h0 blk, chan_create_impl blk 0 cap spsc h0 = Ret (NULL, h0)) /\
  (forall h0, chan_create_impl None es cap spsc h0 = Ret (NULL, h0)).
Proof.
  split; [|split; [done|intros h0; unfold chan_create_impl; by rewrite (proj2 (Z.eqb_neq es 0)) by lia]].
  assert (awp (chan_create_impl (Some p) es cap spsc) a
    (fun r a' => (r = NULL /\ 0 < cap /\ malloc (next_pow2 cap * es) = None /\ a' = a) \/
       (r = p /\ exists slots, (cap = 0 \/ 0 < cap /\ cap <= slots < 2 * cap) /\
          a' = on_chan p (new_achan es cap spsc slots) a))) as Hc.
  { apply create_awp; [done..| | |]; intros; [right|right|left]; eauto 8. }
  destruct (awp_run _ _ _ h Hc R) as (r & h' & a' & E & R' & HQ).
  exists r, h'. split; [done|]. destruct HQ as [(-> & ? & ? & ->)|(-> & slots & Hs & ->)]; [by left|].
  right. split; [done|]. exists slots. split; [tauto|]. split; [done|]. apply new_achan_ok; lia.
Qed.

(** A three-place channel of eight-byte messages beside the example's. *)
Lemma chan_create_spec_witness :
  (exists r h', @chan_create_impl malloc_ex (Some 103) 8 3 false heap_ex = Ret (r, h') /\
     ((r = NULL /\ 0 < 3 /\ @malloc malloc_ex (next_pow2 3 * 8) = None /\ repr h' aheap_ex) \/
      (r = 103 /\ exists slots, (3 = 0 \/ 3 <= slots < 2 * 3) /\
         repr h' (on_chan 103 (new_achan 8 3 false slots) aheap_ex) /\
         chan_ok (on_chan 103 (new_achan 8 3 false slots) aheap_ex) (new_achan 8 3 false slots) /\
         quiescent (new_achan 8 3 false slots)))) /\
  (forall h0 blk, @chan_create_impl malloc_ex blk 0 3 false h0 = Ret (NULL, h0)) /\
  (forall h0, @chan_create_impl malloc_ex None 8 3 false h0 = Ret (NULL, h0)).
Proof.
  apply (@chan_create_spec malloc_ex 103 8 3 false aheap_ex heap_ex heap_ex_repr);
    [discriminate|reflexivity|lia|lia|reflexivity].
Defined.

(** C22: [chan_destroy] gives back one reference; the one that gives back the last
    frees the channel and its ring, after refusing whoever still waits on it, and
    no other destroy touches anything but the count. *)
Theorem chan_destroy_spec p A a h
    (R : repr h a) (Hp : p <> NULL) (HA : a_chan a !! p = Some A) (Hok : chan_ok a A)
    (Hr : 1 <= a_ref A < 2147483648) :
  exists h', chan_destroy p h = Ret (tt, h') /\
    if a_ref A =? 1
    then h_chan h' !! p = None /\
         repr h' (drop_chan p (finish_all CHAN_ERR_CLOSED (a_rq A) (finish_all CHAN_ERR_CLOSED (a_sq A) a)))
    else repr h' (on_chan p (set_a_ref (a_ref A - 1) A) a).
Proof.
  destruct (awp_run _ _ _ h (chan_destroy_awp p A a
    (fun _ a' => a' = if a_ref A =? 1
       then drop_chan p (finish_all CHAN_ERR_CLOSED (a_rq A) (finish_all CHAN_ERR_CLOSED (a_sq A) a))
       else on_chan p (set_a_ref (a_ref A - 1) A) a) Hp HA Hok Hr ltac:(by destruct (_ =? 1))) R)
    as ([] & h' & a' & E & R' & ->).
  exists h'. split; [done|]. destruct (a_ref A =? 1); [|done]. split; [|done].
  pose proof (r_chan _ _ R' p) as Hn. simpl in Hn. rewrite lookup_delete_eq in Hn. by inversion Hn.
Qed.

Lemma chan_destroy_spec_witness :
  exists h', chan_destroy 101 heap_ex = Ret (tt, h') /\
    if a_ref chan_ex0 =? 1
    then h_chan h' !! 101 = None /\
         repr h' (drop_chan 101 (finish_all CHAN_ERR_CLOSED (a_rq chan_ex0) (finish_all CHAN_ERR_CLOSED (a_sq chan_ex0) aheap_ex)))
    else repr h' (on_chan 101 (set_a_ref (a_ref chan_ex0 - 1) chan_ex0) aheap_ex).
Proof.
  apply (chan_destroy_spec 101 chan_ex0 aheap_ex heap_ex heap_ex_repr);
    [discriminate|reflexivity|by apply (heap_ex_ok 101)|simpl; lia].
Defined.

(** C14: Closing an open channel marks it closed, refuses every waiting sender,
    hands the buffered messages to the waiting receivers in order and refuses
    those that get none, keeps the messages nobody waited for, and leaves no
    waiter and no lock behind; closing again reports CHAN_ERR_CLOSED and changes
    nothing; a NULL channel is invalid. *)
Theorem chan_close_spec p A a h
    (R : repr h a) (HA : a_chan a !! p = Some A) (Hp : p <> NULL) (Hok : chan_ok a A) :
  (exists e h1, chan_close p h = Ret (e, h1) /\
     (if a_closed A then e = CHAN_ERR_CLOSED /\ repr h1 a
      else e = CHAN_OK /\ repr h1 (on_chan p (closed_chan A) (close_waiters A a)))) /\
  (forall h', chan_close NULL h' = Ret (CHAN_ERR_INVALID, h')).
Proof.
  split; [|done].
  destruct (awp_run _ _ _ h (chan_close_awp p A a
    (fun e a1 => if a_closed A then e = CHAN_ERR_CLOSED /\ a1 = a
                 else e = CHAN_OK /\ a1 = on_chan p (closed_chan A) (close_waiters A a))
    Hp HA Hok ltac:(by destruct (a_closed A))) R) as (e & h1 & a1 & E & R1 & HQ).
  exists e, h1. split; [done|]. by destruct (a_closed A), HQ as [-> ->].
Qed.

(** Closing the channel 101 of the example refuses its waiting receiver. *)
Lemma chan_close_spec_witness :
  (exists e h1, chan_close 101 heap_ex = Ret (e, h1) /\
     (if a_closed chan_ex0 then e = CHAN_ERR_CLOSED /\ repr h1 aheap_ex
      else e = CHAN_OK /\ repr h1 (on_chan 101 (closed_chan chan_ex0) (close_waiters chan_ex0 aheap_ex)))) /\
  (forall h', chan_close NULL h' = Ret (CHAN_ERR_INVALID, h')).
Proof.
  apply (chan_close_spec 101 chan_ex0 aheap_ex heap_ex heap_ex_repr); [reflexivity|discriminate|by apply (heap_ex_ok 101)].
Defined.
