(* ===== verification/ChanSend.v ===== *)
(** * Sending: [src/chan_send.c]

    [chan_send_impl] as written: the lock-free fast paths with their bounded
    spin, the locked slow path, and the park points with what follows them.
    [self] is the stack address of the waiter the call declares.  The
    specification is that of a queue with rendezvous: a waiting receiver gets
    the message, else it is buffered, else the sender waits. *)

From S2P Require Import Prelude RingLf RingSpsc Heap WaitQ Abs Chan.
From stdpp Require Import list.
#[local] Open Scope Z_scope.

(** [ring_spsc_push(&ch->ring, data)] *)
Definition chan_spsc_push (ch data : ptr) : M bool :=
  c ← load_chan ch; d ← load_mem data;
  '(b, r) ← lift (ring_spsc_push (ch_ring c) d);
  modify_chan ch (set_ch_ring r);; mret b.

(** [if (recv_waiter_cnt != 0) chan_deliver_ring_to_receivers(ch);] *)
Definition wake_receivers (ch : ptr) : M unit :=
  rc ← field recv_waiter_cnt ch;
  if rc =? 0 then mret tt else chan_deliver_ring_to_receivers ch.

(** The fast paths: [Some e] returns [e], [None] falls through to the slow path;
    [n] more rounds may follow the current one. *)
Fixpoint send_fast_spsc (n : nat) (ch data : ptr) : M (option chan_err_t) :=
  cl ← field closed ch;
  if (cl : bool) then mret None
  else
    ok ← chan_spsc_push ch data;
    if (ok : bool) then wake_receivers ch;; mret (Some CHAN_OK)
    else match n with O => mret None | S n => send_fast_spsc n ch data end.

Fixpoint send_fast (n : nat) (ch data : ptr) : M (option chan_err_t) :=
  cl ← field closed ch;
  if (cl : bool) then mret None
  else
    sc ← field send_waiter_cnt ch;
    if negb (sc =? 0) then mret None
    else
      rc ← field recv_waiter_cnt ch;
      if negb (rc =? 0) then mret None
      else
        ok ← ring_push ch data;
        if (ok : bool) then wake_receivers ch;; mret (Some CHAN_OK)
        else match n with O => mret None | S n => send_fast n ch data end.

(** Leaving after a park: [send_waiter_cnt--; waiter_destroy(&self)], and the
    returns that follow it. *)
Definition send_unregister (ch self : ptr) : M unit :=
  modify_chan ch (add_send_cnt (-1));; waiter_destroy self.
Definition return_result (self : ptr) : M (flow chan_err_t) :=
  e ← wfield w_result self; end_frame self;; mret (Done e).
Definition return_code (self : ptr) (e : chan_err_t) : M (flow chan_err_t) :=
  end_frame self;; mret (Done e).

(** After [chan_park_wait(self.wake_park, timeout_ns)], unbuffered. *)
Definition send_woken_unbuffered (ch self : ptr) (woken : bool) : M (flow chan_err_t) :=
  if negb woken then
    chan_lock ch;;
    _ ← waitq_remove (ch, CHAN_OP_SEND) self;
    chan_unlock ch;;
    send_unregister ch self;;
    return_code self CHAN_ERR_TIMEOUT
  else send_unregister ch self;; return_result self.

(** After the park of the buffered slow path. *)
Definition send_woken_buffered (ch self : ptr) (woken : bool) : M (flow chan_err_t) :=
  if negb woken then
    chan_lock ch;;
    still_queued ← waitq_remove (ch, CHAN_OP_SEND) self;
    chan_unlock ch;;
    send_unregister ch self;;
    if (still_queued : bool) then return_code self CHAN_ERR_TIMEOUT else return_result self
  else send_unregister ch self;; return_result self.

(** The SPSC backstop: after the bounded wait, and after the unbounded one. *)
Definition send_woken_last (ch self : ptr) (woken : bool) : M (flow chan_err_t) :=
  send_unregister ch self;; return_result self.

Definition send_woken_backstop (ch data self : ptr) (woken : bool) : M (flow chan_err_t) :=
  if negb woken then
    chan_lock ch;;
    still_queued ← waitq_remove (ch, CHAN_OP_SEND) self;
    if (still_queued : bool) then
      cl ← field closed ch;
      if (cl : bool) then
        modify_waiter self (set_w_result CHAN_ERR_CLOSED);; chan_unlock ch;;
        send_unregister ch self;; return_result self
      else
        ok ← ring_push ch data;
        if (ok : bool) then
          modify_waiter self (set_w_result CHAN_OK);; chan_unlock ch;;
          send_unregister ch self;; return_result self
        else
          waitq_push (ch, CHAN_OP_SEND) self;;
          chan_unlock ch;;
          pk ← wfield w_wake_park self;
          mret (Park pk (-1) (send_woken_last ch self))
    else
      chan_unlock ch;; send_unregister ch self;; return_result self
  else send_unregister ch self;; return_result self.

(** The unbuffered slow path, lock held. *)
Definition send_slow_unbuffered (ch data : ptr) (timeout_ns : Z) (self : ptr) : M (flow chan_err_t) :=
  r ← waitq_pop_receiver ch;
  if negb (r =? NULL) then
    dst ← wfield w_data r; es ← field ch_elem_size ch;
    mem_copy dst data es;;
    modify_waiter r (set_w_result CHAN_OK);;
    chan_unlock ch;;
    pk ← wfield w_wake_park r;
    chan_park_wake pk;;
    mret (Done CHAN_OK)
  else if timeout_ns =? 0 then chan_unlock ch;; mret (Done CHAN_ERR_WOULDBLOCK)
  else
    waiter_init self data CHAN_OP_SEND;;
    modify_chan ch (add_send_cnt 1);;
    waitq_push (ch, CHAN_OP_SEND) self;;
    chan_unlock ch;;
    pk ← wfield w_wake_park self;
    mret (Park pk timeout_ns (send_woken_unbuffered ch self)).

(** The buffered slow path, lock held. *)
Definition send_slow_buffered (ch data : ptr) (timeout_ns : Z) (self : ptr) : M (flow chan_err_t) :=
  ok ← ring_push ch data;
  if (ok : bool) then
    chan_deliver_ring_to_receivers_locked ch;;
    chan_unlock ch;;
    mret (Done CHAN_OK)
  else
    chan_deliver_ring_to_receivers_locked ch;;
    if timeout_ns =? 0 then chan_unlock ch;; mret (Done CHAN_ERR_WOULDBLOCK)
    else
      waiter_init self data CHAN_OP_SEND;;
      modify_chan ch (add_send_cnt 1);;
      waitq_push (ch, CHAN_OP_SEND) self;;
      ok ← ring_push ch data;
      if (ok : bool) then
        _ ← waitq_remove (ch, CHAN_OP_SEND) self;
        modify_chan ch (add_send_cnt (-1));;
        chan_deliver_ring_to_receivers_locked ch;;
        chan_unlock ch;;
        waiter_destroy self;;
        return_code self CHAN_OK
      else
        chan_unlock ch;;
        spsc ← field ch_spsc ch;
        pk ← wfield w_wake_park self;
        if (spsc : bool) && (timeout_ns <? 0)
        then mret (Park pk LIBCHAN_SPSC_PARK_BACKSTOP_NS (send_woken_backstop ch data self))
        else mret (Park pk timeout_ns (send_woken_buffered ch self)).

Definition send_slow (ch data : ptr) (timeout_ns : Z) (self : ptr) : M (flow chan_err_t) :=
  chan_lock ch;;
  cl ← field closed ch;
  if (cl : bool) then chan_unlock ch;; mret (Done CHAN_ERR_CLOSED)
  else
    cap ← field ch_capacity ch;
    if cap =? 0 then send_slow_unbuffered ch data timeout_ns self
    else send_slow_buffered ch data timeout_ns self.

Definition chan_send_impl (ch data : ptr) (timeout_ns : Z) (self : ptr) : M (flow chan_err_t) :=
  if (ch =? NULL) || (data =? NULL) then mret (Done CHAN_ERR_INVALID)
  else
    spsc ← field ch_spsc ch; cap ← field ch_capacity ch;
    fast ← (if (spsc : bool) then send_fast_spsc LIBCHAN_FASTPATH_SPIN ch data
            else if 0 <? cap then send_fast LIBCHAN_FASTPATH_SPIN ch data
            else mret None);
    match fast with
    | Some e => mret (Done e)
    | None => send_slow ch data timeout_ns self
    end.

Definition chan_send (ch data self : ptr) : M (flow chan_err_t) := chan_send_impl ch data (-1) self.
Definition chan_try_send (ch data self : ptr) : M (flow chan_err_t) := chan_send_impl ch data 0 self.
Definition chan_send_timeout (ch data : ptr) (ns : Z) (self : ptr) : M (flow chan_err_t) :=
  chan_send_impl ch data ns self.

(** [n] is a [size_t]; the ring takes at most [UINT32_MAX] elements at once. *)
Definition chan_try_send_burst (ch data : ptr) (n : Z) : M Z :=
  if (ch =? NULL) || (data =? NULL) || (n =? 0) then mret 0
  else
    cap ← field ch_capacity ch;
    if cap =? 0 then mret 0
    else
      cl ← field closed ch;
      if (cl : bool) then mret 0
      else
        let want := if n >? UINT32_MAX then UINT32_MAX else u32 n in
        c ← load_chan ch; d ← load_mem data;
        '(got, r) ← lift (ring_lf_enqueue_burst (ch_ring c) d want);
        modify_chan ch (set_ch_ring r);;
        if got =? 0 then mret 0
        else wake_receivers ch;; mret got.

(** ** Specification

    What a send of the message [m] does to a quiescent channel. *)
Definition send_spec (ch data : ptr) (timeout_ns : Z) (self : ptr) (m : list byte) (A : achan) (a : aheap)
  : flow chan_err_t * aheap :=
  if a_closed A then (Done CHAN_ERR_CLOSED, a)
  else match a_rq A with
  | r :: rq => (Done CHAN_OK, finish r CHAN_OK (give (a_es A) m r (on_chan ch (set_a_rq rq A) a)))
  | [] =>
      if zlen (a_buf A) <? room A then (Done CHAN_OK, on_chan ch (set_a_buf (a_buf A ++ [m]) A) a)
      else if timeout_ns =? 0 then (Done CHAN_ERR_WOULDBLOCK, a)
      else (Park self timeout_ns (if a_cap A =? 0 then send_woken_unbuffered ch self else send_woken_buffered ch self),
            enqueue ch CHAN_OP_SEND self data A a)
  end.

Section send.
Context (ch data self : ptr) (timeout_ns : Z) (A : achan) (a : aheap) (b : list byte).
Hypothesis HA : a_chan a !! ch = Some A.
Hypothesis Hok : chan_ok a A.
Hypothesis Hb : a_mem a !! data = Some b.
Hypothesis Hlen : a_es A <= zlen b.
Hypothesis Hself : a_wait a !! self = None.
Hypothesis Hnull : self <> NULL.

Let m := message (a_es A) b.

(** The fast path either buffers the message or does nothing. *)
Lemma awp_send_fast n (Q : option chan_err_t -> aheap -> Prop) :
  a_cap A <> 0 ->
  (if a_closed A || negb (a_scnt A =? 0) || negb (a_rcnt A =? 0) || (room A <=? zlen (a_buf A))
   then Q None a else Q (Some CHAN_OK) (on_chan ch (set_a_buf (a_buf A ++ [m]) A) a)) ->
  awp (send_fast n ch data) a Q.
Proof using HA Hb Hlen.
  intros Hc HQ. unfold room in HQ. rewrite (proj2 (Z.eqb_neq _ _) Hc) in HQ.
  induction n as [|n IH]; simpl; awp_go; (destruct (a_closed A) eqn:Ecl; simpl in HQ; [by apply awp_ret|]); awp_go.
  all: destruct (a_scnt A =? 0); simpl in *; [|by apply awp_ret]; awp_go.
  all: destruct (a_rcnt A =? 0) eqn:Er; simpl in *; [|by apply awp_ret]; awp_go.
  all: eapply awp_ring_push; [done..|]; rewrite Z.leb_antisym in HQ; destruct (zlen (a_buf A) <? a_slots A); simpl in *.
  all: unfold wake_receivers; awp_go; try rewrite Er; awp_go; try done.
Qed.

Lemma awp_send_unbuffered (Q : flow chan_err_t -> aheap -> Prop) :
  a_cap A = 0 -> a_closed A = false ->
  (let (r, a') := send_spec ch data timeout_ns self m A a in Q r a') ->
  awp (send_slow_unbuffered ch data timeout_ns self) (on_chan ch (set_a_locked true A) a) Q.
Proof using HA Hok Hb Hlen Hself Hnull.
  intros Hc Hcl HQ. unfold send_spec, room in HQ. rewrite Hcl, Hc in HQ. simpl in HQ.
  destruct Hok as [He _ HL H0 _ _ Hw]. rewrite (H0 Hc) in HQ. unfold send_slow_unbuffered.
  apply awp_bind. eapply awp_pop_receiver; [alive|]. simpl.
  destruct (a_rq A) as [|r l] eqn:Er.
  - simpl in *. destruct (timeout_ns =? 0).
    { awp_go. unchanged HA HQ. }
    awp_go. apply awp_waiter_init; [done|]. intros Hu. awp_go.
    eapply awp_waitq_push; [alive|alive|done| |].
    { eapply unqueued_update; [apply lookup_insert_eq|exact Hu|by intros []]. }
    awp_go. unfold enqueue in HQ. settle HQ.
  - split; [eapply (waiter_ok_direct a), (Hw CHAN_OP_RECV); simpl; rewrite Er; left|]. intros Hr.
    rewrite (proj2 (Z.eqb_neq _ _) Hr). simpl.
    destruct (Hw CHAN_OP_RECV r) as [[w Hwr] _ Hp Hd]; [simpl; rewrite Er; left|].
    destruct (Hd w Hwr) as (o & Ho & Hol).
    rewrite (give_known _ _ _ w o), (finish_known _ w) in HQ by done.
    awp_go. eapply awp_mem_copy; [alive|alive|simpl; lia|done|done|]. awp_go.
    settle HQ.
Qed.

Lemma awp_send_buffered (Q : flow chan_err_t -> aheap -> Prop) :
  a_cap A <> 0 -> a_spsc A = false -> a_closed A = false -> quiescent A ->
  (let (r, a') := send_spec ch data timeout_ns self m A a in Q r a') ->
  awp (send_slow_buffered ch data timeout_ns self) (on_chan ch (set_a_locked true A) a) Q.
Proof using HA Hok Hb Hlen Hself Hnull.
  intros Hc Hsp Hcl Hqu HQ. unfold send_spec, room in HQ. rewrite Hcl, (proj2 (Z.eqb_neq _ _) Hc) in HQ.
  pose proof Hok as [He _ HL _ Hsl Hmsg Hw]. destruct (Hsl Hc) as [Hs0 Hs1]. unfold send_slow_buffered.
  assert (zlen m = a_es A) as Hm by (apply zlen_message; lia).
  apply awp_bind. eapply awp_ring_push; [alive|done|alive|done|]. simpl. fold m.
  destruct (Z.ltb_spec (zlen (a_buf A)) (a_slots A)) as [Hroom|Hfull].
  - apply awp_bind. eapply awp_deliver_locked; [alive| |].
    { split; simpl; [done|lia|apply Forall_app; split; [done|by apply Forall_singleton]|].
      intros x Hx. do 2 apply waiter_ok_on_chan. by apply (Hw CHAN_OP_RECV). }
    simpl. awp_go. destruct (a_rq A) as [|r l] eqn:Er.
    + simpl in *. settle HQ.
    + destruct (q_recv _ Hqu) as [Hbuf _]; [by rewrite Er|]. rewrite Hbuf in *. simpl. settle HQ.
  - assert (a_rq A = []) as Er.
    { destruct (a_rq A) eqn:Er; [done|]. destruct (q_recv _ Hqu) as [Hbuf _]; [by rewrite Er|].
      rewrite Hbuf in Hfull. unfold zlen in Hfull. simpl in Hfull. lia. }
    rewrite Er in HQ. apply awp_bind. eapply awp_deliver_locked; [alive| |].
    { split; simpl; [done|lia|done|]. rewrite Er. set_solver. }
    simpl. rewrite Er. simpl. autorewrite with abs_rw.
    destruct (timeout_ns =? 0); [awp_go; unchanged HA HQ|].
    apply awp_bind, awp_waiter_init; [done|]. intros Hu. awp_go.
    eapply awp_waitq_push; [alive|alive|done| |].
    { eapply unqueued_update; [apply lookup_insert_eq|exact Hu|by intros []]. }
    apply awp_bind. eapply awp_ring_push; [alive|done|alive|done|]. simpl.
    rewrite (proj2 (Z.ltb_ge _ _)) by done. simpl. awp_go. rewrite Hsp. simpl. awp_go.
    unfold enqueue in HQ. settle HQ.
Qed.

Lemma awp_send_slow (Q : flow chan_err_t -> aheap -> Prop) :
  a_spsc A = false -> quiescent A ->
  (let (r, a') := send_spec ch data timeout_ns self m A a in Q r a') ->
  awp (send_slow ch data timeout_ns self) a Q.
Proof using HA Hok Hb Hlen Hself Hnull.
  intros Hsp Hqu HQ. unfold send_slow. pose proof (ok_unlocked _ _ Hok). awp_go.
  destruct (a_closed A) eqn:Ecl.
  - unfold send_spec in HQ. rewrite Ecl in HQ. awp_go. unchanged HA HQ.
  - awp_go. destruct (Z.eqb_spec (a_cap A) 0); [by apply awp_send_unbuffered|by apply awp_send_buffered].
Qed.

Lemma chan_send_awp (Q : flow chan_err_t -> aheap -> Prop) :
  ch <> NULL -> data <> NULL -> a_spsc A = false -> quiescent A ->
  (let (r, a') := send_spec ch data timeout_ns self m A a in Q r a') ->
  awp (chan_send_impl ch data timeout_ns self) a Q.
Proof using HA Hok Hb Hlen Hself Hnull.
  intros Hch Hd Hsp Hqu HQ. unfold chan_send_impl.
  rewrite (proj2 (Z.eqb_neq _ _) Hch), (proj2 (Z.eqb_neq _ _) Hd). cbn [orb]. awp_soft. rewrite Hsp.
  destruct (Z.ltb_spec 0 (a_cap A)) as [Hc|Hc].
  - apply awp_send_fast; [lia|].
    destruct (_ || _ || _ || _) eqn:E; [by apply awp_send_slow|]. awp_go.
    apply orb_false_iff in E as [[[E1 E2]%orb_false_iff E3]%orb_false_iff E4].
    apply negb_false_iff, Z.eqb_eq in E3. apply Z.leb_gt in E4.
    unfold send_spec in HQ. rewrite E1, (proj2 (Z.ltb_lt _ _) E4) in HQ.
    destruct (a_rq A) as [|r l] eqn:Er; [exact HQ|].
    pose proof (q_rcnt _ Hqu) as Hcnt. rewrite Er, zlen_cons in Hcnt. pose proof (zlen_nonneg l). lia.
  - apply awp_ret. by apply awp_send_slow.
Qed.
End send.

(** ** After the park *)

(** A blocked call leaves: its count is given back, its frame is gone. *)
Definition leave (ch : ptr) (op : chan_op_t) (self : ptr) (A : achan) (a : aheap) : aheap :=
  on_chan ch (match op with
              | CHAN_OP_SEND => set_a_scnt (i32 (a_scnt A + -1)) A
              | CHAN_OP_RECV => set_a_rcnt (i32 (a_rcnt A + -1)) A
              end) (drop_wait self (drop_park self a)).

(** [woken] is what [chan_park_wait] returned; a call that timed out and is no
    longer queued has been served meanwhile. *)
Definition woken_spec (ch : ptr) (op : chan_op_t) (self : ptr) (woken : bool) (w : chan_waiter) (A : achan) (a : aheap)
  : flow chan_err_t * aheap :=
  if woken then (Done (w_result w), leave ch op self A a)
  else if bool_decide (self ∈ aq op A)
       then (Done CHAN_ERR_TIMEOUT, leave ch op self (set_aq op (filter (.≠ self) (aq op A)) A) a)
       else (Done (w_result w), leave ch op self A a).

(** The end of a blocked call whose frame is in no queue any more. *)
Lemma awp_return_code self e a (Q : flow chan_err_t -> aheap -> Prop) :
  unqueued a self -> Q (Done e) (drop_wait self a) -> awp (return_code self e) a Q.
Proof. intros Hu HQ. unfold return_code. apply awp_bind, awp_end_frame; [done|]. by apply awp_ret. Qed.

Lemma awp_return_result self w a (Q : flow chan_err_t -> aheap -> Prop) :
  a_wait a !! self = Some w -> unqueued a self -> Q (Done (w_result w)) (drop_wait self a) ->
  awp (return_result self) a Q.
Proof. intros Hw Hu HQ. unfold return_result. awp_go. apply awp_end_frame; [done|]. by apply awp_ret. Qed.

(** The lock, the removal and the release that precede every timed-out return. *)
Lemma awp_give_up ch op self A a (k : bool -> M (flow chan_err_t)) (Q : flow chan_err_t -> aheap -> Prop) :
  a_chan a !! ch = Some A -> a_locked A = false -> only_in ch op a self ->
  awp (k (bool_decide (self ∈ aq op A))) (on_chan ch (set_aq op (filter (.≠ self) (aq op A)) A) a) Q ->
  awp (chan_lock ch;; still ← waitq_remove (ch, op) self; chan_unlock ch;; k still) a Q.
Proof.
  intros HA HL Ho HQ. awp_go. eapply awp_waitq_remove; [alive|..].
  - intros Hn. replace (aq op (set_a_locked true A)) with (aq op A) in Hn by (by destruct op).
    rewrite bool_decide_eq_false_2 in HQ by done. awp_go. autorewrite with abs_rw.
    replace (set_a_locked false (set_a_locked true A)) with (set_aq op (filter (.≠ self) (aq op A)) A); [exact HQ|].
    rewrite filter_notin by done. destruct op, A; simpl in *; by subst.
  - intros l1 l2 E Hn _. replace (aq op (set_a_locked true A)) with (aq op A) in E by (by destruct op).
    apply not_elem_of_app in Hn as [Hn1 Hn2].
    rewrite bool_decide_eq_true_2, E, filter_middle in HQ by (done || (rewrite E; set_solver)).
    assert (a_locked (set_aq op (l1 ++ l2) (set_a_locked true A)) = true) by (by destruct op). awp_go.
    autorewrite with abs_rw.
    replace (set_a_locked false (set_aq op (l1 ++ l2) (set_a_locked true A))) with (set_aq op (l1 ++ l2) A); [exact HQ|].
    destruct op, A; simpl in *; by subst.
Qed.

(** Nobody queues [self] once it is out of the one queue it can be in. *)
Lemma only_in_left ch op self B a :
  only_in ch op a self -> (forall op', self ∉ aq op' B) -> unqueued (on_chan ch B a) self.
Proof.
  intros Ho Hn p' A' op' HA. simpl in HA. apply lookup_insert_Some in HA as [(<- & <-)|(Hne & HA)]; [done|].
  intros Hin. destruct (Ho _ _ _ HA Hin) as [E _]. congruence.
Qed.
Lemma only_in_notin ch op self A a op' :
  a_chan a !! ch = Some A -> only_in ch op a self -> op' <> op -> self ∉ aq op' A.
Proof. intros HA Ho Hne Hin. by destruct (Ho _ _ _ HA Hin). Qed.

Lemma not_queued ch op self A a l :
  a_chan a !! ch = Some A -> only_in ch op a self -> self ∉ l ->
  forall op', self ∉ aq op' (set_aq op l A).
Proof.
  intros HA Ho Hl op'. destruct (decide (op' = op)) as [->|Hne]; [by rewrite aq_set_same|].
  rewrite aq_set_ne by done. by eapply only_in_notin.
Qed.

Lemma filter_self (l : list ptr) x : x ∉ filter (.≠ x) l.
Proof. intros [H _]%list_elem_of_filter. done. Qed.

Section send_woken.
Context (ch self : ptr) (A : achan) (a : aheap) (w : chan_waiter).
Hypothesis HA : a_chan a !! ch = Some A.
Hypothesis HL : a_locked A = false.
Hypothesis Hw : a_wait a !! self = Some w.
Hypothesis Ho : only_in ch CHAN_OP_SEND a self.

(** The waker took [self] out of the queue first. *)
Lemma awp_send_served (Q : flow chan_err_t -> aheap -> Prop) :
  self ∉ a_sq A -> Q (Done (w_result w)) (leave ch CHAN_OP_SEND self A a) ->
  awp (send_unregister ch self;; return_result self) a Q.
Proof using HA Hw Ho.
  intros Hn HQ. unfold send_unregister. awp_go.
  eapply awp_return_result; [alive| |unfold leave in HQ; settle HQ].
  apply (only_in_left ch CHAN_OP_SEND self _ a Ho). intros op.
  replace (aq op _) with (aq op (set_aq CHAN_OP_SEND (a_sq A) A)) by (by destruct op).
  by eapply (not_queued ch _ _ A a).
Qed.

Lemma awp_send_gave_up e l (Q : flow chan_err_t -> aheap -> Prop) :
  self ∉ l -> Q (Done e) (leave ch CHAN_OP_SEND self (set_a_sq l A) a) ->
  awp (send_unregister ch self;; return_code self e) (on_chan ch (set_a_sq l A) a) Q.
Proof using HA Ho.
  intros Hn HQ. unfold send_unregister. awp_go.
  apply awp_return_code; [|unfold leave in HQ; settle HQ].
  autorewrite with abs_rw. apply (only_in_left ch CHAN_OP_SEND self _ a Ho). intros op.
  replace (aq op _) with (aq op (set_aq CHAN_OP_SEND l A)) by (by destruct op). by eapply (not_queued ch _ _ A a).
Qed.

Lemma send_woken_buffered_awp woken (Q : flow chan_err_t -> aheap -> Prop) :
  (woken = true -> self ∉ a_sq A) ->
  (let (r, a') := woken_spec ch CHAN_OP_SEND self woken w A a in Q r a') ->
  awp (send_woken_buffered ch self woken) a Q.
Proof using HA HL Hw Ho.
  intros Hwk HQ. unfold send_woken_buffered, woken_spec in *. destruct woken; simpl; [by apply awp_send_served; auto|].
  apply awp_give_up with A; [done..|]. simpl in *. case_bool_decide as Hin.
  - apply awp_send_gave_up; [apply filter_self|exact HQ].
  - rewrite filter_notin by done. replace (set_a_sq (a_sq A) A) with A by (by destruct A).
    rewrite on_chan_same by done. by apply awp_send_served.
Qed.

Lemma send_woken_unbuffered_awp woken (Q : flow chan_err_t -> aheap -> Prop) :
  (woken = true -> self ∉ a_sq A) ->
  (if woken then Q (Done (w_result w)) (leave ch CHAN_OP_SEND self A a)
   else Q (Done CHAN_ERR_TIMEOUT) (leave ch CHAN_OP_SEND self (set_a_sq (filter (.≠ self) (a_sq A)) A) a)) ->
  awp (send_woken_unbuffered ch self woken) a Q.
Proof using HA HL Hw Ho.
  intros Hwk HQ. unfold send_woken_unbuffered in *. destruct woken; simpl; [by apply awp_send_served; auto|].
  apply awp_give_up with A; [done..|]. apply awp_send_gave_up; [apply filter_self|exact HQ].
Qed.
End send_woken.

(** ** Bursts *)

(** [(uint32_t)min(n, UINT32_MAX)] *)
Definition clamp32 (n : Z) : Z := if n >? UINT32_MAX then UINT32_MAX else u32 n.

Lemma clamp32_min n : 0 <= n < two64 -> clamp32 n = Z.min n UINT32_MAX.
Proof.
  intros Hn. unfold clamp32. rewrite Z.gtb_ltb. destruct (Z.ltb_spec UINT32_MAX n); unfold UINT32_MAX in *; [lia|].
  rewrite u32_small by (unfold two32; lia). lia.
Qed.

Lemma elems_msg es k b :
  0 < es -> Z.of_nat k * es <= zlen b -> Forall (fun m => zlen m = es) (elems es k b).
Proof.
  intros He Hb. unfold elems. apply Forall_fmap, Forall_forall. intros i Hi%elem_of_seq. simpl.
  apply chunk_length; nia.
Qed.

(** The channel and the memory after the burst [ms] has been appended and the
    waiting receivers served. *)
Definition burst_sent (ch : ptr) (ms : list (list byte)) (A : achan) (a : aheap) : aheap :=
  let buf := a_buf A ++ ms in
  on_chan ch (set_a_buf (drop (length (a_rq A)) buf) (set_a_rq (drop (length buf) (a_rq A)) A))
    (deliver (a_es A) buf (a_rq A) a).

Lemma awp_enqueue_burst ch data n A a b (k : Z -> M Z) (Q : Z -> aheap -> Prop) :
  a_chan a !! ch = Some A -> a_cap A <> 0 -> a_mem a !! data = Some b -> 0 <= n < two32 -> n * a_es A <= zlen b ->
  (let got := Z.min n (a_slots A - zlen (a_buf A)) in
   awp (k got) (on_chan ch (set_a_buf (a_buf A ++ elems (a_es A) (Z.to_nat got) b) A) a) Q) ->
  awp (c ← load_chan ch; d ← load_mem data;
       '(got, r) ← lift (ring_lf_enqueue_burst (ch_ring c) d n);
       modify_chan ch (set_ch_ring r);; k got) a Q.
Proof.
  intros HA Hc Hb Hn Hlen HQ h R. destruct (repr_lookup _ _ _ _ R HA) as (c & Hcc & Hr).
  destruct (rep_ring _ _ _ Hr Hc) as ((s0 & c0 & V) & Hes & Hcp).
  pose proof Hb as Hb'. rewrite (r_mem _ _ R) in Hb'. rewrite <- Hes, <- Hcp in *. wp_go.
  destruct (enqueue_burst_view _ _ _ _ V b n Hn Hlen) as (r' & s' & E & (Hs1 & Hs2 & _) & V').
  eapply wp_lift; [exact E|]. simpl. wp_go. simpl in HQ. apply HQ.
  eapply repr_set_ring; [done..| |done|done]. by exists s', c0.
Qed.

Lemma chan_try_send_burst_awp ch data n A a b (Q : Z -> aheap -> Prop) :
  ch <> NULL -> data <> NULL -> a_chan a !! ch = Some A -> chan_ok a A -> quiescent A ->
  a_cap A <> 0 -> a_closed A = false -> 0 < n < two64 ->
  a_mem a !! data = Some b -> Z.min n UINT32_MAX * a_es A <= zlen b ->
  (let k := Z.min (Z.min n UINT32_MAX) (a_slots A - zlen (a_buf A)) in
   Q k (burst_sent ch (elems (a_es A) (Z.to_nat k) b) A a)) ->
  awp (chan_try_send_burst ch data n) a Q.
Proof.
  intros Hch Hd HA Hok Hqu Hc Hcl Hn Hb Hlen HQ. pose proof Hok as [He _ HL _ Hsl Hm Hw].
  destruct (Hsl Hc) as [Hs0 Hs1]. unfold chan_try_send_burst.
  rewrite (proj2 (Z.eqb_neq _ _) Hch), (proj2 (Z.eqb_neq _ _) Hd), (proj2 (Z.eqb_neq n 0)) by lia. cbn [orb].
  awp_soft. rewrite (proj2 (Z.eqb_neq _ _) Hc). awp_soft. rewrite Hcl. fold (clamp32 n). rewrite clamp32_min by lia.
  set (want := Z.min n UINT32_MAX) in *. assert (0 <= want < two32) by (unfold want, UINT32_MAX, two32 in *; lia).
  eapply awp_enqueue_burst; [done..|]. cbv zeta in *. set (k := Z.min want _) in *.
  assert (0 <= k <= want) by (unfold k; lia). set (ms := elems (a_es A) (Z.to_nat k) b) in *.
  assert (Forall (fun m => zlen m = a_es A) (a_buf A ++ ms)) as Hms.
  { apply Forall_app. split; [done|]. apply elems_msg; [done|]. rewrite Z2Nat.id by lia.
    apply Z.le_trans with (want * a_es A); [apply Z.mul_le_mono_nonneg_r; lia|done]. }
  assert (a_rq A = [] -> burst_sent ch ms A a = on_chan ch (set_a_buf (a_buf A ++ ms) A) a) as Hnone.
  { intros Er. unfold burst_sent. rewrite Er. simpl. autorewrite with abs_rw. f_equal. same_chan. }
  destruct (Z.eqb_spec k 0) as [Hk|Hk].
  - assert (ms = []) as Ems by (unfold ms; rewrite Hk; done). apply awp_ret.
    assert (a_rq A = []) as Er.
    { destruct (a_rq A) eqn:Er; [done|]. destruct (q_recv _ Hqu) as [Hb0 _]; [by rewrite Er|].
      assert (zlen (a_buf A) = 0) by (by rewrite Hb0). unfold k, want, UINT32_MAX in Hk. lia. }
    rewrite Hk in HQ. rewrite Hnone in HQ by done. exact HQ.
  - apply awp_bind. unfold wake_receivers. awp_soft. simpl. destruct (Z.eqb_spec (a_rcnt A) 0) as [Hr0|Hr0].
    + assert (a_rq A = []) as Er.
      { destruct (a_rq A) as [|r l] eqn:Er; [done|]. pose proof (q_rcnt _ Hqu) as Hq. rewrite Er, zlen_cons in Hq.
        pose proof (zlen_nonneg l). lia. }
      do 2 apply awp_ret. by rewrite Hnone in HQ.
    + eapply awp_deliver; [alive| |done|].
      { split; simpl; [done|lia|done|]. intros x Hx. apply waiter_ok_on_chan. by apply (Hw CHAN_OP_RECV). }
      simpl. apply awp_ret. autorewrite with abs_rw. exact HQ.
Qed.

(** ** Theorems *)

(** C12: A send on a quiescent multi-producer channel, buffered or not, in any
    memory: on a closed channel it fails; otherwise the receiver that has waited
    longest gets the message and is woken; otherwise the message is appended to
    the buffer if there is room; otherwise a non-blocking send reports
    CHAN_ERR_WOULDBLOCK and changes nothing, and a blocking one has joined the
    end of the senders' queue and parks.  Which of the fast and slow paths ran
    is not visible. *)
Theorem chan_send_spec ch data timeout_ns self A a b h
    (R : repr h a) (HA : a_chan a !! ch = Some A) (Hok : chan_ok a A) (Hqu : quiescent A)
    (Hsp : a_spsc A = false) (Hb : a_mem a !! data = Some b) (Hlen : a_es A <= zlen b)
    (Hself : a_wait a !! self = None) (Hnull : self <> NULL) (Hch : ch <> NULL) (Hd : data <> NULL) :
  let (r, a') := send_spec ch data timeout_ns self (message (a_es A) b) A a in
  exists h', chan_send_impl ch data timeout_ns self h = Ret (r, h') /\ repr h' a'.
Proof.
  pose proof (chan_send_awp ch data self timeout_ns A a b HA Hok Hb Hlen Hself Hnull
    (fun r a' => send_spec ch data timeout_ns self (message (a_es A) b) A a = (r, a')) Hch Hd Hsp Hqu) as H.
  destruct (send_spec _ _ _ _ _ _ _) as [r a'].
  destruct (awp_run _ _ _ h (H eq_refl) R) as (r1 & h1 & a1 & E & R1 & [= -> ->]). eauto.
Qed.

(** Sending on the channel 101 of the example hands the byte to its receiver. *)
Lemma chan_send_spec_witness :
  let (r, a') := send_spec 101 200 (-1) 301 [x43] chan_ex0 aheap_ex in
  exists h', chan_send_impl 101 200 (-1) 301 heap_ex = Ret (r, h') /\ repr h' a'.
Proof.
  apply (chan_send_spec 101 200 (-1) 301 chan_ex0 aheap_ex [x43] heap_ex heap_ex_repr);
    try reflexivity; try discriminate; [by apply (heap_ex_ok 101)|exact chan_ex0_quiescent].
Defined.

(** What follows the park of a blocked buffered send: as for a receive, a
    timeout is reported exactly when nobody had admitted the message, so a
    message is in the ring if and only if its sender is told so. *)
Theorem send_woken_spec ch self woken w A a h
    (R : repr h a) (HA : a_chan a !! ch = Some A) (HL : a_locked A = false)
    (Hw : a_wait a !! self = Some w) (Ho : only_in ch CHAN_OP_SEND a self)
    (Hwk : woken = true -> self ∉ a_sq A) :
  let (r, a') := woken_spec ch CHAN_OP_SEND self woken w A a in
  exists h', send_woken_buffered ch self woken h = Ret (r, h') /\ repr h' a'.
Proof.
  pose proof (send_woken_buffered_awp ch self A a w HA HL Hw Ho woken
    (fun r a' => woken_spec ch CHAN_OP_SEND self woken w A a = (r, a')) Hwk) as H.
  destruct (woken_spec _ _ _ _ _ _ _) as [r a'].
  destruct (awp_run _ _ _ h (H eq_refl) R) as (r1 & h1 & a1 & E & R1 & [= -> ->]). eauto.
Qed.

(** The sender of the example gives up. *)
Lemma send_woken_spec_witness :
  let (r, a') := woken_spec 102 CHAN_OP_SEND 302 false waiter_exf chan_exf aheap_ex in
  exists h', send_woken_buffered 102 302 false heap_ex = Ret (r, h') /\ repr h' a'.
Proof.
  apply (send_woken_spec 102 302 false waiter_exf chan_exf aheap_ex heap_ex heap_ex_repr);
    try reflexivity; [|discriminate].
  intros p A op HA Hin. destruct (heap_ex_queued _ _ _ _ HA Hin) as [(_ & _ & ?)|(-> & -> & _)]; done.
Defined.

(** C21: A burst send on an open buffered channel moves min(n, free slots) messages,
    with n clamped to 2^32-1, in order: the waiting receivers get the first ones
    and are woken, the rest is buffered; nothing else changes. *)
Theorem chan_try_send_burst_spec ch data n A a b h
    (R : repr h a) (Hch : ch <> NULL) (Hd : data <> NULL) (HA : a_chan a !! ch = Some A)
    (Hok : chan_ok a A) (Hqu : quiescent A) (Hc : a_cap A <> 0) (Hcl : a_closed A = false)
    (Hn : 0 < n < two64) (Hb : a_mem a !! data = Some b) (Hlen : Z.min n UINT32_MAX * a_es A <= zlen b) :
  let k := Z.min (Z.min n UINT32_MAX) (a_slots A - zlen (a_buf A)) in
  exists h', chan_try_send_burst ch data n h = Ret (k, h') /\
    repr h' (burst_sent ch (elems (a_es A) (Z.to_nat k) b) A a).
Proof.
  intros k.
  destruct (awp_run _ _ _ h (chan_try_send_burst_awp ch data n A a b
    (fun r a' => r = k /\ a' = burst_sent ch (elems (a_es A) (Z.to_nat k) b) A a)
    Hch Hd HA Hok Hqu Hc Hcl Hn Hb Hlen ltac:(done)) R) as (r & h' & a' & E & R' & -> & ->). eauto.
Qed.

(** One more byte into the channel 100 of the example. *)
Lemma chan_try_send_burst_spec_witness :
  let k := Z.min (Z.min 1 UINT32_MAX) (4 - zlen [[x41]; [x42]]) in
  exists h', chan_try_send_burst 100 200 1 heap_ex = Ret (k, h') /\
    repr h' (burst_sent 100 (elems 1 (Z.to_nat k) [x43]) chan_ex aheap_ex).
Proof.
  apply (chan_try_send_burst_spec 100 200 1 chan_ex aheap_ex [x43] heap_ex heap_ex_repr);
    try discriminate; try reflexivity; [by apply (heap_ex_ok 100)|exact chan_ex_quiescent|unfold two64; lia].
Defined.

(** A channel created for three messages accepts four without blocking: its
    reported length exceeds its reported capacity. *)
Theorem chan_len_exceeds_cap :
  exists h0 h1 h2 h3 h4, @chan_create malloc_ex (Some 103) 1 3 heap_ex = Ret (103, h0) /\
    chan_try_send 103 200 301 h0 = Ret (Done CHAN_OK, h1) /\ chan_try_send 103 200 301 h1 = Ret (Done CHAN_OK, h2) /\
    chan_try_send 103 200 301 h2 = Ret (Done CHAN_OK, h3) /\ chan_try_send 103 200 301 h3 = Ret (Done CHAN_OK, h4) /\
    chan_len 103 h4 = Ret (4, h4) /\ chan_cap 103 h4 = Ret (3, h4).
Proof. do 5 eexists. repeat (split; [vm_compute; reflexivity|]). vm_compute. reflexivity. Qed.
