(* ===== verification/ChanRecv.v ===== *)
(** * Receiving: [src/chan_recv.c]

    [chan_recv_impl] as written, symmetric to [ChanSend]: buffered messages
    first, even after a close, then a waiting sender, else the receiver waits. *)

From S2P Require Import Prelude RingLf RingSpsc Heap WaitQ Abs Chan ChanSend.
From stdpp Require Import list.
#[local] Open Scope Z_scope.

(** [ring_spsc_pop(&ch->ring, out)] *)
Definition chan_spsc_pop (ch out : ptr) : M bool :=
  c ← load_chan ch; o ← load_mem out;
  '(b, o', r) ← lift (ring_spsc_pop (ch_ring c) o);
  store_mem out o';; modify_chan ch (set_ch_ring r);; mret b.

(** [if (send_waiter_cnt != 0) chan_admit_senders_to_ring(ch);] *)
Definition admit_senders (ch : ptr) : M unit :=
  sc ← field send_waiter_cnt ch;
  if sc =? 0 then mret tt else chan_admit_senders_to_ring ch.

Fixpoint recv_fast_spsc (n : nat) (ch out : ptr) : M (option chan_err_t) :=
  ok ← chan_spsc_pop ch out;
  if (ok : bool) then admit_senders ch;; mret (Some CHAN_OK)
  else
    cl ← field closed ch;
    if (cl : bool) then mret None
    else match n with O => mret None | S n => recv_fast_spsc n ch out end.

Fixpoint recv_fast (n : nat) (ch out : ptr) : M (option chan_err_t) :=
  sc ← field send_waiter_cnt ch;
  if negb (sc =? 0) then mret None
  else
    rc ← field recv_waiter_cnt ch;
    if negb (rc =? 0) then mret None
    else
      ok ← ring_pop ch out;
      if (ok : bool) then admit_senders ch;; mret (Some CHAN_OK)
      else
        cl ← field closed ch;
        if (cl : bool) then mret None
        else match n with O => mret None | S n => recv_fast n ch out end.

Definition recv_unregister (ch self : ptr) : M unit :=
  modify_chan ch (add_recv_cnt (-1));; waiter_destroy self.

Definition recv_woken_unbuffered (ch self : ptr) (woken : bool) : M (flow chan_err_t) :=
  if negb woken then
    chan_lock ch;;
    _ ← waitq_remove (ch, CHAN_OP_RECV) self;
    chan_unlock ch;;
    recv_unregister ch self;;
    return_code self CHAN_ERR_TIMEOUT
  else recv_unregister ch self;; return_result self.

Definition recv_woken_buffered (ch self : ptr) (woken : bool) : M (flow chan_err_t) :=
  if negb woken then
    chan_lock ch;;
    still_queued ← waitq_remove (ch, CHAN_OP_RECV) self;
    chan_unlock ch;;
    recv_unregister ch self;;
    if (still_queued : bool) then return_code self CHAN_ERR_TIMEOUT else return_result self
  else recv_unregister ch self;; return_result self.

Definition recv_woken_last (ch self : ptr) (woken : bool) : M (flow chan_err_t) :=
  recv_unregister ch self;; return_result self.

Definition recv_woken_backstop (ch out self : ptr) (woken : bool) : M (flow chan_err_t) :=
  if negb woken then
    chan_lock ch;;
    still_queued ← waitq_remove (ch, CHAN_OP_RECV) self;
    if (still_queued : bool) then
      ok ← ring_pop ch out;
      if (ok : bool) then
        modify_waiter self (set_w_result CHAN_OK);; chan_unlock ch;;
        recv_unregister ch self;; return_result self
      else
        cl ← field closed ch;
        if (cl : bool) then
          modify_waiter self (set_w_result CHAN_ERR_CLOSED);; chan_unlock ch;;
          recv_unregister ch self;; return_result self
        else
          waitq_push (ch, CHAN_OP_RECV) self;;
          chan_unlock ch;;
          pk ← wfield w_wake_park self;
          mret (Park pk (-1) (recv_woken_last ch self))
    else
      chan_unlock ch;; recv_unregister ch self;; return_result self
  else recv_unregister ch self;; return_result self.

(** Copy from a waiting sender and wake it, lock held. *)
Definition take_from_sender (ch out s : ptr) : M (flow chan_err_t) :=
  src ← wfield w_data s; es ← field ch_elem_size ch;
  mem_copy out src es;;
  modify_waiter s (set_w_result CHAN_OK);;
  chan_unlock ch;;
  pk ← wfield w_wake_park s;
  chan_park_wake pk;;
  mret (Done CHAN_OK).

Definition recv_slow_unbuffered (ch out : ptr) (timeout_ns : Z) (self : ptr) : M (flow chan_err_t) :=
  s ← waitq_pop_sender ch;
  if negb (s =? NULL) then take_from_sender ch out s
  else
    cl ← field closed ch;
    if (cl : bool) then chan_unlock ch;; mret (Done CHAN_ERR_CLOSED)
    else if timeout_ns =? 0 then chan_unlock ch;; mret (Done CHAN_ERR_WOULDBLOCK)
    else
      waiter_init self out CHAN_OP_RECV;;
      modify_chan ch (add_recv_cnt 1);;
      waitq_push (ch, CHAN_OP_RECV) self;;
      chan_unlock ch;;
      pk ← wfield w_wake_park self;
      mret (Park pk timeout_ns (recv_woken_unbuffered ch self)).

Definition recv_slow_buffered (ch out : ptr) (timeout_ns : Z) (self : ptr) : M (flow chan_err_t) :=
  ok ← ring_pop ch out;
  if (ok : bool) then
    s ← waitq_pop_sender ch;
    (if negb (s =? NULL) then
       d ← wfield w_data s;
       pushed ← ring_push ch d;
       if (pushed : bool) then
         modify_waiter s (set_w_result CHAN_OK);;
         chan_unlock ch;;
         pk ← wfield w_wake_park s;
         chan_park_wake pk
       else
         waitq_push_front (ch, CHAN_OP_SEND) s;;
         chan_unlock ch
     else chan_unlock ch);;
    mret (Done CHAN_OK)
  else
    s ← waitq_pop_sender ch;
    if negb (s =? NULL) then take_from_sender ch out s
    else
      cl ← field closed ch;
      if (cl : bool) then chan_unlock ch;; mret (Done CHAN_ERR_CLOSED)
      else if timeout_ns =? 0 then chan_unlock ch;; mret (Done CHAN_ERR_WOULDBLOCK)
      else
        waiter_init self out CHAN_OP_RECV;;
        modify_chan ch (add_recv_cnt 1);;
        waitq_push (ch, CHAN_OP_RECV) self;;
        ok ← ring_pop ch out;
        if (ok : bool) then
          _ ← waitq_remove (ch, CHAN_OP_RECV) self;
          modify_chan ch (add_recv_cnt (-1));;
          chan_unlock ch;;
          waiter_destroy self;;
          return_code self CHAN_OK
        else
          chan_unlock ch;;
          spsc ← field ch_spsc ch;
          pk ← wfield w_wake_park self;
          if (spsc : bool) && (timeout_ns <? 0)
          then mret (Park pk LIBCHAN_SPSC_PARK_BACKSTOP_NS (recv_woken_backstop ch out self))
          else mret (Park pk timeout_ns (recv_woken_buffered ch self)).

Definition recv_slow (ch out : ptr) (timeout_ns : Z) (self : ptr) : M (flow chan_err_t) :=
  chan_lock ch;;
  cap ← field ch_capacity ch;
  if cap =? 0 then recv_slow_unbuffered ch out timeout_ns self
  else recv_slow_buffered ch out timeout_ns self.

Definition chan_recv_impl (ch out : ptr) (timeout_ns : Z) (self : ptr) : M (flow chan_err_t) :=
  if (ch =? NULL) || (out =? NULL) then mret (Done CHAN_ERR_INVALID)
  else
    spsc ← field ch_spsc ch; cap ← field ch_capacity ch;
    fast ← (if (spsc : bool) then recv_fast_spsc LIBCHAN_FASTPATH_SPIN ch out
            else if 0 <? cap then recv_fast LIBCHAN_FASTPATH_SPIN ch out
            else mret None);
    match fast with
    | Some e => mret (Done e)
    | None => recv_slow ch out timeout_ns self
    end.

Definition chan_recv (ch out self : ptr) : M (flow chan_err_t) := chan_recv_impl ch out (-1) self.
Definition chan_try_recv (ch out self : ptr) : M (flow chan_err_t) := chan_recv_impl ch out 0 self.
Definition chan_recv_timeout (ch out : ptr) (ns : Z) (self : ptr) : M (flow chan_err_t) :=
  chan_recv_impl ch out ns self.

Definition chan_try_recv_burst (ch out : ptr) (n : Z) : M Z :=
  if (ch =? NULL) || (out =? NULL) || (n =? 0) then mret 0
  else
    cap ← field ch_capacity ch;
    if cap =? 0 then mret 0
    else
      let want := if n >? UINT32_MAX then UINT32_MAX else u32 n in
      c ← load_chan ch; o ← load_mem out;
      '(got, o', r) ← lift (ring_lf_dequeue_burst (ch_ring c) o want);
      store_mem out o';; modify_chan ch (set_ch_ring r);;
      if got =? 0 then mret 0
      else admit_senders ch;; mret got.

(** ** Specification

    What a receive into the buffer [out], now [o], does to a quiescent channel. *)
Definition recv_spec (ch out : ptr) (timeout_ns : Z) (self : ptr) (o : list byte) (A : achan) (a : aheap)
  : flow chan_err_t * aheap :=
  match a_buf A, a_sq A with
  | e :: buf, [] =>
      (Done CHAN_OK, on_chan ch (set_a_buf buf A) (on_mem out (overlay (a_es A) e o) a))
  | e :: buf, s :: sq =>
      let a1 := on_mem out (overlay (a_es A) e o) a in
      (Done CHAN_OK,
       finish s CHAN_OK (on_chan ch (set_a_buf (buf ++ [offer (a_es A) s a1]) (set_a_sq sq A)) a1))
  | [], s :: sq =>
      (Done CHAN_OK,
       finish s CHAN_OK (on_chan ch (set_a_sq sq A) (on_mem out (overlay (a_es A) (offer (a_es A) s a) o) a)))
  | [], [] =>
      if a_closed A then (Done CHAN_ERR_CLOSED, a)
      else if timeout_ns =? 0 then (Done CHAN_ERR_WOULDBLOCK, a)
      else (Park self timeout_ns (if a_cap A =? 0 then recv_woken_unbuffered ch self else recv_woken_buffered ch self),
            enqueue ch CHAN_OP_RECV self out A a)
  end.

Section recv.
Context (ch out self : ptr) (timeout_ns : Z) (A : achan) (a : aheap) (o : list byte).
Hypothesis HA : a_chan a !! ch = Some A.
Hypothesis Hok : chan_ok a A.
Hypothesis Ho : a_mem a !! out = Some o.
Hypothesis Hlen : a_es A <= zlen o.
Hypothesis Hself : a_wait a !! self = None.
Hypothesis Hnull : self <> NULL.

Lemma awp_recv_fast n (Q : option chan_err_t -> aheap -> Prop) :
  a_cap A <> 0 ->
  (if negb (a_scnt A =? 0) || negb (a_rcnt A =? 0) then Q None a
   else match a_buf A with
        | [] => Q None a
        | e :: buf => Q (Some CHAN_OK) (on_chan ch (set_a_buf buf A) (on_mem out (overlay (a_es A) e o) a))
        end) ->
  awp (recv_fast n ch out) a Q.
Proof using HA Ho Hlen.
  intros Hc HQ. induction n as [|n IH]; simpl; awp_go;
    (destruct (a_scnt A =? 0) eqn:Es; simpl in *; [|by apply awp_ret]); awp_go;
    (destruct (a_rcnt A =? 0) eqn:Er; simpl in *; [|by apply awp_ret]); awp_go;
    (eapply awp_ring_pop; [done..|]); destruct (a_buf A) as [|e buf] eqn:Eb; unfold admit_senders; awp_go.
  all: try rewrite Es; try (destruct (a_closed A)); awp_go; done.
Qed.

(** The direct hand-over from a waiting sender. *)
Lemma awp_take_from_sender s B (Q : flow chan_err_t -> aheap -> Prop) :
  a_locked B = true -> a_es B = a_es A -> waiter_ok a (a_es A) s ->
  Q (Done CHAN_OK)
    (finish s CHAN_OK (on_chan ch (set_a_locked false B) (on_mem out (overlay (a_es A) (offer (a_es A) s a) o) a))) ->
  awp (take_from_sender ch out s) (on_chan ch B a) Q.
Proof using HA Hok Ho Hlen.
  intros HL He Hs HQ. pose proof (ok_es _ _ Hok). pose proof Hs as [[w Hw] _ Hp _].
  destruct (waiter_ok_offer _ _ _ _ Hs Hw) as (b & Hb & Hbl & Eo).
  unfold take_from_sender. awp_go. rewrite He.
  eapply awp_mem_copy; [alive|alive|lia|done|done|]. awp_go.
  rewrite Eo, (finish_known _ w) in HQ by done. settle HQ.
Qed.

Lemma awp_recv_register (Q : flow chan_err_t -> aheap -> Prop) B k :
  a_locked B = true -> set_a_locked false B = A ->
  Q (Park self timeout_ns k) (enqueue ch CHAN_OP_RECV self out A a) ->
  awp (waiter_init self out CHAN_OP_RECV;; modify_chan ch (add_recv_cnt 1);;
       waitq_push (ch, CHAN_OP_RECV) self;; chan_unlock ch;;
       pk ← wfield w_wake_park self; mret (Park pk timeout_ns k)) (on_chan ch B a) Q.
Proof using HA Hself Hnull.
  intros HL HB HQ. apply awp_bind, awp_waiter_init; [done|]. intros Hu. awp_go.
  eapply awp_waitq_push; [alive|alive|done| |].
  { eapply unqueued_update; [apply lookup_insert_eq|exact Hu|by intros []]. }
  awp_go. rewrite <- HB in HQ. unfold enqueue in HQ. settle HQ.
Qed.

Lemma awp_recv_unbuffered (Q : flow chan_err_t -> aheap -> Prop) :
  a_cap A = 0 ->
  (let (r, a') := recv_spec ch out timeout_ns self o A a in Q r a') ->
  awp (recv_slow_unbuffered ch out timeout_ns self) (on_chan ch (set_a_locked true A) a) Q.
Proof using HA Hok Ho Hlen Hself Hnull.
  intros Hc HQ. unfold recv_spec in HQ. pose proof Hok as [He _ HL H0 _ _ Hw].
  rewrite (H0 Hc), Hc in HQ. simpl in HQ. unfold recv_slow_unbuffered.
  apply awp_bind. eapply awp_pop_sender; [alive|]. simpl. destruct (a_sq A) as [|s sq] eqn:Es; simpl.
  - awp_go. destruct (a_closed A) eqn:Ecl; [awp_go; unchanged HA HQ|].
    destruct (timeout_ns =? 0); [awp_go; unchanged HA HQ|].
    apply awp_recv_register; [done| |exact HQ]. destruct A; simpl in *; by subst.
  - assert (waiter_ok a (a_es A) s) as Hs by (apply (Hw CHAN_OP_SEND); simpl; rewrite Es; left).
    split; [exact (waiter_ok_direct _ _ _ Hs)|]. intros Hn. rewrite (proj2 (Z.eqb_neq _ _) Hn). simpl.
    rewrite on_chan_twice. apply awp_take_from_sender; [done..|]. settle HQ.
Qed.

Lemma awp_recv_buffered_some e buf (Q : flow chan_err_t -> aheap -> Prop) :
  a_cap A <> 0 -> quiescent A -> a_buf A = e :: buf ->
  (let (r, a') := recv_spec ch out timeout_ns self o A a in Q r a') ->
  awp (recv_slow_buffered ch out timeout_ns self) (on_chan ch (set_a_locked true A) a) Q.
Proof using HA Hok Ho Hlen.
  intros Hc Hqu Eb HQ. unfold recv_spec in HQ. pose proof Hok as [He _ HL _ Hsl Hmsg Hw].
  destruct (Hsl Hc) as [Hs0 Hs1]. rewrite Eb in *. unfold recv_slow_buffered.
  apply awp_bind. eapply awp_ring_pop; [alive|done|alive|done|]. simpl. rewrite Eb.
  apply awp_bind. eapply awp_pop_sender; [alive|]. simpl. destruct (a_sq A) as [|s sq] eqn:Es; simpl.
  - awp_go. settle HQ.
  - apply Forall_cons in Hmsg as [Hem _].
    assert (waiter_ok a (a_es A) s) as Hs by (apply (Hw CHAN_OP_SEND); simpl; rewrite Es; left).
    assert (waiter_ok (on_mem out (overlay (a_es A) e o) a) (a_es A) s) as Hs'.
    { destruct Hs as [Hl Hd Hp Hdat]. split; simpl; [done..|]. intros w Hww.
      destruct (Hdat w Hww) as (b & Hb & Hbl). destruct (decide (out = w_data w)) as [->|].
      - rewrite lookup_insert_eq. eexists. split; [done|]. apply zlen_overlay; lia.
      - rewrite lookup_insert_ne by done. eauto. }
    split; [exact (waiter_ok_direct _ _ _ Hs)|]. intros Hn. rewrite (proj2 (Z.eqb_neq _ _) Hn). simpl.
    pose proof Hs as [[w Hww] _ Hp _]. destruct (waiter_ok_offer _ _ _ _ Hs' Hww) as (b & Hb & Hbl & Eo). simpl in Hb.
    awp_go. eapply awp_ring_push; [alive|done|alive|done|]. simpl.
    rewrite (proj2 (Z.ltb_lt _ _)) by (rewrite zlen_cons in Hs1; lia). awp_go.
    rewrite Eo, (finish_known _ w) in HQ by done. settle HQ.
Qed.

Lemma awp_recv_buffered_none (Q : flow chan_err_t -> aheap -> Prop) :
  a_cap A <> 0 -> a_spsc A = false -> quiescent A -> a_buf A = [] ->
  (let (r, a') := recv_spec ch out timeout_ns self o A a in Q r a') ->
  awp (recv_slow_buffered ch out timeout_ns self) (on_chan ch (set_a_locked true A) a) Q.
Proof using HA Hok Ho Hlen Hself Hnull.
  intros Hc Hsp Hqu Eb HQ. unfold recv_spec in HQ. pose proof Hok as [He _ HL _ Hsl Hmsg Hw].
  destruct (Hsl Hc) as [Hs0 Hs1]. rewrite Eb in *.
  assert (a_sq A = []) as Es.
  { destruct (a_sq A) eqn:Es; [done|]. pose proof (q_send _ Hqu) as H. rewrite Es, Eb in H.
    specialize (H ltac:(done) Hc). unfold zlen in H. simpl in H. lia. }
  rewrite Es, (proj2 (Z.eqb_neq _ _) Hc) in HQ. unfold recv_slow_buffered.
  apply awp_bind. eapply awp_ring_pop; [alive|done|alive|done|]. simpl. rewrite Eb.
  apply awp_bind. eapply awp_pop_sender; [alive|]. simpl. rewrite Es. simpl. awp_go.
  destruct (a_closed A) eqn:Ecl; [awp_go; unchanged HA HQ|].
  destruct (timeout_ns =? 0); [awp_go; unchanged HA HQ|].
  apply awp_bind, awp_waiter_init; [done|]. intros Hu. awp_go.
  eapply awp_waitq_push; [alive|alive|done| |].
  { eapply unqueued_update; [apply lookup_insert_eq|exact Hu|by intros []]. }
  apply awp_bind. eapply awp_ring_pop; [alive|done|alive|done|]. simpl. rewrite Eb. awp_go. rewrite Hsp. simpl. awp_go.
  unfold enqueue in HQ. settle HQ.
Qed.

Lemma awp_recv_slow (Q : flow chan_err_t -> aheap -> Prop) :
  a_spsc A = false -> quiescent A ->
  (let (r, a') := recv_spec ch out timeout_ns self o A a in Q r a') ->
  awp (recv_slow ch out timeout_ns self) a Q.
Proof using HA Hok Ho Hlen Hself Hnull.
  intros Hsp Hqu HQ. unfold recv_slow. pose proof (ok_unlocked _ _ Hok). awp_go.
  destruct (Z.eqb_spec (a_cap A) 0); [by apply awp_recv_unbuffered|].
  destruct (a_buf A) as [|e buf] eqn:Eb; [by apply awp_recv_buffered_none|by apply awp_recv_buffered_some with e buf].
Qed.

Lemma chan_recv_awp (Q : flow chan_err_t -> aheap -> Prop) :
  ch <> NULL -> out <> NULL -> a_spsc A = false -> quiescent A ->
  (let (r, a') := recv_spec ch out timeout_ns self o A a in Q r a') ->
  awp (chan_recv_impl ch out timeout_ns self) a Q.
Proof using HA Hok Ho Hlen Hself Hnull.
  intros Hch Hd Hsp Hqu HQ. unfold chan_recv_impl.
  rewrite (proj2 (Z.eqb_neq _ _) Hch), (proj2 (Z.eqb_neq _ _) Hd). cbn [orb]. awp_soft. rewrite Hsp.
  destruct (Z.ltb_spec 0 (a_cap A)) as [Hc|Hc]; [|apply awp_ret; by apply awp_recv_slow].
  apply awp_recv_fast; [lia|]. destruct (_ || _) eqn:E; [by apply awp_recv_slow|].
  destruct (a_buf A) as [|e buf] eqn:Eb; [by apply awp_recv_slow|]. apply awp_ret.
  apply orb_false_iff in E as [E1%negb_false_iff%Z.eqb_eq _].
  unfold recv_spec in HQ. rewrite Eb in HQ. destruct (a_sq A) as [|s sq] eqn:Es; [exact HQ|].
  pose proof (q_scnt _ Hqu) as Hcnt. rewrite Es, zlen_cons in Hcnt. pose proof (zlen_nonneg sq). lia.
Qed.
End recv.

(** ** After the park *)

Section recv_woken.
Context (ch self : ptr) (A : achan) (a : aheap) (w : chan_waiter).
Hypothesis HA : a_chan a !! ch = Some A.
Hypothesis HL : a_locked A = false.
Hypothesis Hw : a_wait a !! self = Some w.
Hypothesis Ho : only_in ch CHAN_OP_RECV a self.

(** The waker took [self] out of the queue first. *)
Lemma awp_recv_served (Q : flow chan_err_t -> aheap -> Prop) :
  self ∉ a_rq A -> Q (Done (w_result w)) (leave ch CHAN_OP_RECV self A a) ->
  awp (recv_unregister ch self;; return_result self) a Q.
Proof using HA Hw Ho.
  intros Hn HQ. unfold recv_unregister. awp_go.
  eapply awp_return_result; [alive| |unfold leave in HQ; settle HQ].
  apply (only_in_left ch CHAN_OP_RECV self _ a Ho). intros op.
  replace (aq op _) with (aq op (set_aq CHAN_OP_RECV (a_rq A) A)) by (by destruct op).
  by eapply (not_queued ch _ _ A a).
Qed.

Lemma awp_recv_gave_up e l (Q : flow chan_err_t -> aheap -> Prop) :
  self ∉ l -> Q (Done e) (leave ch CHAN_OP_RECV self (set_a_rq l A) a) ->
  awp (recv_unregister ch self;; return_code self e) (on_chan ch (set_a_rq l A) a) Q.
Proof using HA Ho.
  intros Hn HQ. unfold recv_unregister. awp_go.
  apply awp_return_code; [|unfold leave in HQ; settle HQ].
  autorewrite with abs_rw. apply (only_in_left ch CHAN_OP_RECV self _ a Ho). intros op.
  replace (aq op _) with (aq op (set_aq CHAN_OP_RECV l A)) by (by destruct op). by eapply (not_queued ch _ _ A a).
Qed.

Lemma recv_woken_buffered_awp woken (Q : flow chan_err_t -> aheap -> Prop) :
  (woken = true -> self ∉ a_rq A) ->
  (let (r, a') := woken_spec ch CHAN_OP_RECV self woken w A a in Q r a') ->
  awp (recv_woken_buffered ch self woken) a Q.
Proof using HA HL Hw Ho.
  intros Hwk HQ. unfold recv_woken_buffered, woken_spec in *. destruct woken; simpl; [by apply awp_recv_served; auto|].
  apply awp_give_up with A; [done..|]. simpl in *. case_bool_decide as Hin.
  - apply awp_recv_gave_up; [apply filter_self|exact HQ].
  - rewrite filter_notin by done. replace (set_a_rq (a_rq A) A) with A by (by destruct A).
    rewrite on_chan_same by done. by apply awp_recv_served.
Qed.

Lemma recv_woken_unbuffered_awp woken (Q : flow chan_err_t -> aheap -> Prop) :
  (woken = true -> self ∉ a_rq A) ->
  (if woken then Q (Done (w_result w)) (leave ch CHAN_OP_RECV self A a)
   else Q (Done CHAN_ERR_TIMEOUT) (leave ch CHAN_OP_RECV self (set_a_rq (filter (.≠ self) (a_rq A)) A) a)) ->
  awp (recv_woken_unbuffered ch self woken) a Q.
Proof using HA HL Hw Ho.
  intros Hwk HQ. unfold recv_woken_unbuffered in *. destruct woken; simpl; [by apply awp_recv_served; auto|].
  apply awp_give_up with A; [done..|]. apply awp_recv_gave_up; [apply filter_self|exact HQ].
Qed.
End recv_woken.

(** ** Bursts *)

(** The channel and the memory after the [k] oldest messages have been taken and
    the senders that now fit have been admitted. *)
Definition burst_received (ch : ptr) (k : Z) (A : achan) (a : aheap) : aheap :=
  let buf := drop (Z.to_nat k) (a_buf A) in
  let free := Z.to_nat (a_slots A - zlen buf) in
  on_chan ch (set_a_buf (buf ++ ((fun s => offer (a_es A) s a) <$> take free (a_sq A)))
      (set_a_sq (drop free (a_sq A)) A))
    (finish_all CHAN_OK (take free (a_sq A)) a).

(** What the burst wrote: the messages, one after the other, and nothing behind. *)
Definition burst_out (es k : Z) (ms : list (list byte)) (o o' : list byte) : Prop :=
  zlen o' = zlen o /\ elems es (Z.to_nat k) o' = ms /\
  drop (Z.to_nat (k * es)) o' = drop (Z.to_nat (k * es)) o.

Lemma awp_dequeue_burst ch out n A a o (k : Z -> M Z) (Q : Z -> aheap -> Prop) :
  a_chan a !! ch = Some A -> a_cap A <> 0 -> a_mem a !! out = Some o -> 0 <= n < two32 -> n * a_es A <= zlen o ->
  (forall o', let got := Z.min n (zlen (a_buf A)) in
   burst_out (a_es A) got (take (Z.to_nat got) (a_buf A)) o o' ->
   awp (k got) (on_mem out o' (on_chan ch (set_a_buf (drop (Z.to_nat got) (a_buf A)) A) a)) Q) ->
  awp (c ← load_chan ch; d ← load_mem out;
       '(got, o', r) ← lift (ring_lf_dequeue_burst (ch_ring c) d n);
       store_mem out o';; modify_chan ch (set_ch_ring r);; k got) a Q.
Proof.
  intros HA Hc Ho Hn Hlen HQ h R. destruct (repr_lookup _ _ _ _ R HA) as (c & Hcc & Hr).
  destruct (rep_ring _ _ _ Hr Hc) as ((s0 & c0 & V) & Hes & Hcp).
  pose proof Ho as Ho'. rewrite (r_mem _ _ R) in Ho'. rewrite <- Hes in Hlen. wp_go.
  destruct (dequeue_burst_view _ _ _ _ V o n Hn Hlen) as (o' & r' & E & (Hs1 & Hs2 & _) & V' & Hz & He & Hd).
  eapply wp_lift; [exact E|]. simpl. wp_go. simpl in HQ. rewrite Hes in *.
  apply (HQ o' (conj Hz (conj He Hd))). unfold on_mem. simpl. rewrite (r_mem _ _ R).
  refine (repr_mem (set_h_chan _ h) (on_chan ch _ a) _ _). eapply repr_set_ring; [done..| | |done].
  - by exists s0, (c0 + Z.min n (zlen (a_buf A))).
  - by rewrite Hs2.
Qed.

Lemma waiter_ok_on_mem a es x out o o' :
  a_mem a !! out = Some o -> zlen o' = zlen o -> waiter_ok a es x -> waiter_ok (on_mem out o' a) es x.
Proof.
  intros Ho Hz [Hl Hd Hp Hb]. split; simpl; [done..|]. intros w Hw. destruct (Hb w Hw) as (b & Hb1 & Hb2).
  destruct (decide (out = w_data w)) as [->|].
  - rewrite lookup_insert_eq. eexists. split; [done|]. simplify_eq. lia.
  - rewrite lookup_insert_ne by done. eauto.
Qed.

Lemma chan_try_recv_burst_awp ch out n A a o (Q : Z -> aheap -> Prop) :
  ch <> NULL -> out <> NULL -> a_chan a !! ch = Some A -> chan_ok a A -> quiescent A ->
  a_cap A <> 0 -> 0 < n < two64 -> a_mem a !! out = Some o -> Z.min n UINT32_MAX * a_es A <= zlen o ->
  (forall o', let k := Z.min (Z.min n UINT32_MAX) (zlen (a_buf A)) in
   burst_out (a_es A) k (take (Z.to_nat k) (a_buf A)) o o' -> Q k (burst_received ch k A (on_mem out o' a))) ->
  awp (chan_try_recv_burst ch out n) a Q.
Proof.
  intros Hch Hd HA Hok Hqu Hc Hn Ho Hlen HQ. pose proof Hok as [He _ HL _ Hsl Hm Hw].
  destruct (Hsl Hc) as [Hs0 Hs1]. unfold chan_try_recv_burst.
  rewrite (proj2 (Z.eqb_neq _ _) Hch), (proj2 (Z.eqb_neq _ _) Hd), (proj2 (Z.eqb_neq n 0)) by lia. cbn [orb].
  awp_soft. rewrite (proj2 (Z.eqb_neq _ _) Hc). fold (clamp32 n). rewrite clamp32_min by lia.
  set (want := Z.min n UINT32_MAX) in *. assert (0 < want < two32) by (unfold want, UINT32_MAX, two32 in *; lia).
  eapply awp_dequeue_burst; [done|done|done|lia|done|]. intros o'. specialize (HQ o'). cbv zeta in *.
  set (k := Z.min want _) in *. intros Hout. specialize (HQ Hout). pose proof (zlen_nonneg (a_buf A)).
  assert (0 <= k <= zlen (a_buf A)) by (unfold k; lia).
  assert (a_sq A = [] -> burst_received ch k A (on_mem out o' a)
    = on_chan ch (set_a_buf (drop (Z.to_nat k) (a_buf A)) A) (on_mem out o' a)) as Hnone.
  { intros Es. unfold burst_received. rewrite Es, take_nil, drop_nil. simpl. rewrite app_nil_r. f_equal. same_chan. }
  destruct (Z.eqb_spec k 0) as [Hk|Hk].
  - assert (a_sq A = []) as Es.
    { destruct (a_sq A) eqn:Es; [done|]. pose proof (q_send _ Hqu ltac:(by rewrite Es) Hc). unfold k in Hk. lia. }
    apply awp_ret. rewrite Hk in HQ. rewrite Hk in Hnone. rewrite Hnone in HQ by done.
    rewrite Hk. autorewrite with abs_rw. exact HQ.
  - apply awp_bind. unfold admit_senders. autorewrite with abs_rw. awp_soft. simpl.
    destruct (Z.eqb_spec (a_scnt A) 0) as [Hr0|Hr0].
    + assert (a_sq A = []) as Es.
      { destruct (a_sq A) as [|r l] eqn:Es; [done|]. pose proof (q_scnt _ Hqu) as Hq. rewrite Es, zlen_cons in Hq.
        pose proof (zlen_nonneg l). lia. }
      do 2 apply awp_ret. by rewrite Hnone in HQ.
    + eapply awp_admit_senders; [alive| |done|].
      { split; simpl; [done|lia|by apply Forall_drop|]. intros x Hx. apply waiter_ok_on_chan.
        eapply waiter_ok_on_mem; [done|apply Hout|]. by apply (Hw CHAN_OP_SEND). }
      simpl. apply awp_ret. autorewrite with abs_rw. exact HQ.
Qed.

(** ** Theorems *)

(** C13: A receive on a quiescent multi-consumer channel: the oldest buffered message
    if there is one, also after a close, and then the sender that has waited
    longest is admitted into the freed slot; with nothing buffered, the message
    of the sender that has waited longest; with neither, CHAN_ERR_CLOSED on a
    closed channel, CHAN_ERR_WOULDBLOCK for a non-blocking receive, and a
    blocking one has joined the end of the receivers' queue and parks. *)
Theorem chan_recv_spec ch out timeout_ns self A a o h
    (R : repr h a) (HA : a_chan a !! ch = Some A) (Hok : chan_ok a A) (Hqu : quiescent A)
    (Hsp : a_spsc A = false) (Ho : a_mem a !! out = Some o) (Hlen : a_es A <= zlen o)
    (Hself : a_wait a !! self = None) (Hnull : self <> NULL) (Hch : ch <> NULL) (Hout : out <> NULL) :
  let (r, a') := recv_spec ch out timeout_ns self o A a in
  exists h', chan_recv_impl ch out timeout_ns self h = Ret (r, h') /\ repr h' a'.
Proof.
  pose proof (chan_recv_awp ch out self timeout_ns A a o HA Hok Ho Hlen Hself Hnull
    (fun r a' => recv_spec ch out timeout_ns self o A a = (r, a')) Hch Hout Hsp Hqu) as H.
  destruct (recv_spec _ _ _ _ _ _ _) as [r a'].
  destruct (awp_run _ _ _ h (H eq_refl) R) as (r1 & h1 & a1 & E & R1 & [= -> ->]). eauto.
Qed.

(** Receiving from the channel 100 of the example yields its oldest byte. *)
Lemma chan_recv_spec_witness :
  let (r, a') := recv_spec 100 201 0 301 [x00] chan_ex aheap_ex in
  exists h', chan_recv_impl 100 201 0 301 heap_ex = Ret (r, h') /\ repr h' a'.
Proof.
  apply (chan_recv_spec 100 201 0 301 chan_ex aheap_ex [x00] heap_ex heap_ex_repr);
    try reflexivity; try discriminate; [by apply (heap_ex_ok 100)|exact chan_ex_quiescent].
Defined.

(** What follows the park of a blocked buffered receive: woken, it returns the
    result its waker stored; timed out, it returns CHAN_ERR_TIMEOUT and has left
    the queue if it was still waiting, and the stored result if somebody served
    it meanwhile.  Either way its count is given back and its frame is gone. *)
Theorem recv_woken_spec ch self woken w A a h
    (R : repr h a) (HA : a_chan a !! ch = Some A) (HL : a_locked A = false)
    (Hw : a_wait a !! self = Some w) (Ho : only_in ch CHAN_OP_RECV a self)
    (Hwk : woken = true -> self ∉ a_rq A) :
  let (r, a') := woken_spec ch CHAN_OP_RECV self woken w A a in
  exists h', recv_woken_buffered ch self woken h = Ret (r, h') /\ repr h' a'.
Proof.
  pose proof (recv_woken_buffered_awp ch self A a w HA HL Hw Ho woken
    (fun r a' => woken_spec ch CHAN_OP_RECV self woken w A a = (r, a')) Hwk) as H.
  destruct (woken_spec _ _ _ _ _ _ _) as [r a'].
  destruct (awp_run _ _ _ h (H eq_refl) R) as (r1 & h1 & a1 & E & R1 & [= -> ->]). eauto.
Qed.

(** The receiver of the example gives up. *)
Lemma recv_woken_spec_witness :
  let (r, a') := woken_spec 101 CHAN_OP_RECV 300 false waiter_ex chan_ex0 aheap_ex in
  exists h', recv_woken_buffered 101 300 false heap_ex = Ret (r, h') /\ repr h' a'.
Proof.
  apply (recv_woken_spec 101 300 false waiter_ex chan_ex0 aheap_ex heap_ex heap_ex_repr);
    try reflexivity; [|discriminate].
  intros p A op HA Hin. destruct (heap_ex_queued _ _ _ _ HA Hin) as [(-> & -> & _)|(_ & _ & ?)]; done.
Defined.

(** A receiver blocked on an unbuffered channel whose wait times out just as a
    sender serves it: the send reports success, the byte is in the receiver's
    buffer, and the receive reports a timeout, although the stored result is
    CHAN_OK; the message the sender believes delivered is reported to nobody.
    The code that follows a buffered park reports it. *)
Theorem unbuffered_timeout_loses_message :
  exists h1 h2 h3,
    chan_send_impl 101 200 (-1) 301 heap_ex = Ret (Done CHAN_OK, h1) /\
    h_park h1 !! 300 = Some 1 /\ h_mem h1 !! 201 = Some [x43] /\
    (w_result <$> h_wait h1 !! 300) = Some CHAN_OK /\
    recv_woken_unbuffered 101 300 false h1 = Ret (Done CHAN_ERR_TIMEOUT, h2) /\
    recv_woken_buffered 101 300 false h1 = Ret (Done CHAN_OK, h3).
Proof.
  do 3 eexists. split; [vm_compute; reflexivity|]. do 3 (split; [vm_compute; reflexivity|]).
  split; vm_compute; reflexivity.
Qed.

(** A burst receive on a buffered channel, open or closed, takes the
    min(n, buffered) oldest messages, with n clamped to 2^32-1, writes them one
    after the other to the output array and touches nothing behind them; the
    senders that fit into the freed slots are admitted in order. *)
Theorem chan_try_recv_burst_spec ch out n A a o h
    (R : repr h a) (Hch : ch <> NULL) (Hd : out <> NULL) (HA : a_chan a !! ch = Some A)
    (Hok : chan_ok a A) (Hqu : quiescent A) (Hc : a_cap A <> 0)
    (Hn : 0 < n < two64) (Ho : a_mem a !! out = Some o) (Hlen : Z.min n UINT32_MAX * a_es A <= zlen o) :
  let k := Z.min (Z.min n UINT32_MAX) (zlen (a_buf A)) in
  exists h' o', chan_try_recv_burst ch out n h = Ret (k, h') /\
    burst_out (a_es A) k (take (Z.to_nat k) (a_buf A)) o o' /\
    repr h' (burst_received ch k A (on_mem out o' a)).
Proof.
  intros k.
  destruct (awp_run _ _ _ h (chan_try_recv_burst_awp ch out n A a o
    (fun r a' => r = k /\ exists o', burst_out (a_es A) k (take (Z.to_nat k) (a_buf A)) o o' /\
       a' = burst_received ch k A (on_mem out o' a))
    Hch Hd HA Hok Hqu Hc Hn Ho Hlen ltac:(intros o' k' Hout; split; [done|]; exists o'; done)) R) as (r & h' & a' & E & R' & -> & o' & Hout & ->).
  exists h', o'. done.
Qed.

(** Draining one byte of the full channel 102 admits its waiting sender. *)
Lemma chan_try_recv_burst_spec_witness :
  let k := Z.min (Z.min 1 UINT32_MAX) (zlen [[x41]; [x42]]) in
  exists h' o', chan_try_recv_burst 102 201 1 heap_ex = Ret (k, h') /\
    burst_out 1 k (take (Z.to_nat k) [[x41]; [x42]]) [x00] o' /\
    repr h' (burst_received 102 k chan_exf (on_mem 201 o' aheap_ex)).
Proof.
  apply (chan_try_recv_burst_spec 102 201 1 chan_exf aheap_ex [x00] heap_ex heap_ex_repr);
    try discriminate; try reflexivity; [by apply (heap_ex_ok 102)|exact chan_exf_quiescent|unfold two64; lia].
Defined.
