(* ===== verification/ChanSpec.v ===== *)
(** * What a channel promises

    The contract of [include/libchan.h] for a set of threads that share
    channels, without memory, locks, counters or parks: a channel is a bounded
    buffer with two queues of blocked threads, a blocked thread is waiting, has
    had its message passed, or has been refused by a close.  [gstep] is the
    executable specification that [ChanSys] shows the C code to implement; the
    lemmas here are what every history of the specification satisfies. *)

From S2P Require Import Prelude Heap.
From stdpp Require Import list.
#[local] Open Scope Z_scope.

Notation msg := (list byte) (only parsing).

Inductive status := Waiting | Passed | Refused.

(** A thread inside a blocked call: what it waits for, the message it offers or
    was passed. *)
Record gthread := mk_gthread {
  gt_ch : ptr;
  gt_op : chan_op_t;
  gt_timed : bool;
  gt_msg : msg;
  gt_status : status
}.

(** A channel; [g_in] and [g_out] record the messages it ever took in and gave out. *)
Record gchan := mk_gchan {
  g_room : Z;                (* 0: unbuffered *)
  g_buf : list msg;
  g_sendq : list ptr;
  g_recvq : list ptr;
  g_closed : bool;
  g_in : list msg;
  g_out : list msg
}.

Record gsys := mk_gsys { g_chans : gmap ptr gchan; g_threads : gmap ptr gthread }.

(** What a call or a resumption answers. *)
Inductive reply :=
| Blocked
| Returned (ch : ptr) (op : chan_op_t) (e : chan_err_t) (m : msg)
| ClosedWith (ch : ptr) (e : chan_err_t).

Inductive glabel :=
| GSend (ch : ptr) (m : msg) (timeout_ns : Z) (self : ptr)
| GRecv (ch : ptr) (timeout_ns : Z) (self : ptr)
| GClose (ch : ptr)
| GWake (self : ptr)       (* the park of a blocked thread returns true *)
| GExpire (self : ptr).    (* it returns false *)

#[export] Instance status_eq_dec : EqDecision status.
Proof. solve_decision. Defined.

(** ** Updates *)

Definition gq (op : chan_op_t) (G : gchan) : list ptr :=
  match op with CHAN_OP_SEND => g_sendq G | CHAN_OP_RECV => g_recvq G end.
Definition set_gq (op : chan_op_t) (l : list ptr) (G : gchan) : gchan :=
  match op with
  | CHAN_OP_SEND => mk_gchan (g_room G) (g_buf G) l (g_recvq G) (g_closed G) (g_in G) (g_out G)
  | CHAN_OP_RECV => mk_gchan (g_room G) (g_buf G) (g_sendq G) l (g_closed G) (g_in G) (g_out G)
  end.
Definition set_g_closed (G : gchan) : gchan :=
  mk_gchan (g_room G) (g_buf G) (g_sendq G) (g_recvq G) true (g_in G) (g_out G).

(** The message [m] enters the buffer; the oldest one leaves it. *)
Definition put (m : msg) (G : gchan) : gchan :=
  mk_gchan (g_room G) (g_buf G ++ [m]) (g_sendq G) (g_recvq G) (g_closed G) (g_in G ++ [m]) (g_out G).
Definition get (G : gchan) : gchan :=
  mk_gchan (g_room G) (tail (g_buf G)) (g_sendq G) (g_recvq G) (g_closed G) (g_in G) (g_out G ++ take 1 (g_buf G)).

Definition on_gchan (ch : ptr) (G : gchan) (g : gsys) : gsys := mk_gsys (<[ch := G]> (g_chans g)) (g_threads g).
Definition on_thread (x : ptr) (T : gthread) (g : gsys) : gsys := mk_gsys (g_chans g) (<[x := T]> (g_threads g)).
Definition drop_thread (x : ptr) (g : gsys) : gsys := mk_gsys (g_chans g) (delete x (g_threads g)).

Definition set_status (st : status) (m : msg) (T : gthread) : gthread :=
  mk_gthread (gt_ch T) (gt_op T) (gt_timed T) m st.
(** The blocked thread [x] is passed the message [m], or refused. *)
Definition pass (m : msg) (x : ptr) (g : gsys) : gsys :=
  mk_gsys (g_chans g) (alter (set_status Passed m) x (g_threads g)).
Definition refuse (x : ptr) (g : gsys) : gsys :=
  mk_gsys (g_chans g) (alter (fun T => set_status Refused (gt_msg T) T) x (g_threads g)).
Definition refuse_all (l : list ptr) (g : gsys) : gsys := foldl (fun g x => refuse x g) g l.

(** The message the blocked sender [x] offers. *)
Definition offered (x : ptr) (g : gsys) : msg := default [] (gt_msg <$> g_threads g !! x).

(** ** Steps *)

Definition gsend (ch : ptr) (m : msg) (timeout_ns : Z) (self : ptr) (G : gchan) (g : gsys) : reply * gsys :=
  let answer e := Returned ch CHAN_OP_SEND e in
  if g_closed G then (answer CHAN_ERR_CLOSED [], g)
  else match g_recvq G with
  | r :: rq => (answer CHAN_OK m, pass m r (on_gchan ch (get (put m (set_gq CHAN_OP_RECV rq G))) g))
  | [] =>
      if zlen (g_buf G) <? g_room G then (answer CHAN_OK m, on_gchan ch (put m G) g)
      else if timeout_ns =? 0 then (answer CHAN_ERR_WOULDBLOCK [], g)
      else (Blocked, on_thread self (mk_gthread ch CHAN_OP_SEND (0 <? timeout_ns) m Waiting)
                       (on_gchan ch (set_gq CHAN_OP_SEND (g_sendq G ++ [self]) G) g))
  end.

Definition grecv (ch : ptr) (timeout_ns : Z) (self : ptr) (G : gchan) (g : gsys) : reply * gsys :=
  let answer e := Returned ch CHAN_OP_RECV e in
  match g_buf G, g_sendq G with
  | e :: _, [] => (answer CHAN_OK e, on_gchan ch (get G) g)
  | e :: _, s :: sq =>
      let m := offered s g in
      (answer CHAN_OK e, pass m s (on_gchan ch (put m (get (set_gq CHAN_OP_SEND sq G))) g))
  | [], s :: sq =>
      let m := offered s g in
      (answer CHAN_OK m, pass m s (on_gchan ch (get (put m (set_gq CHAN_OP_SEND sq G))) g))
  | [], [] =>
      if g_closed G then (answer CHAN_ERR_CLOSED [], g)
      else if timeout_ns =? 0 then (answer CHAN_ERR_WOULDBLOCK [], g)
      else (Blocked, on_thread self (mk_gthread ch CHAN_OP_RECV (0 <? timeout_ns) [] Waiting)
                       (on_gchan ch (set_gq CHAN_OP_RECV (g_recvq G ++ [self]) G) g))
  end.

Definition gclose (ch : ptr) (G : gchan) (g : gsys) : reply * gsys :=
  if g_closed G then (ClosedWith ch CHAN_ERR_CLOSED, g)
  else (ClosedWith ch CHAN_OK,
        refuse_all (g_sendq G ++ g_recvq G)
          (on_gchan ch (set_gq CHAN_OP_SEND [] (set_gq CHAN_OP_RECV [] (set_g_closed G))) g)).

(** The answer of a call whose fate is settled. *)
Definition answer (T : gthread) : reply :=
  match gt_status T with
  | Passed => Returned (gt_ch T) (gt_op T) CHAN_OK (gt_msg T)
  | _ => Returned (gt_ch T) (gt_op T) CHAN_ERR_CLOSED []
  end.
Definition timed_out (T : gthread) : reply := Returned (gt_ch T) (gt_op T) CHAN_ERR_TIMEOUT [].

(** A wait that ends without a wake-up.  A call on an unbuffered channel then
    answers that it timed out even when its message has been passed. *)
Definition gexpire (x : ptr) (T : gthread) (G : gchan) (g : gsys) : reply * gsys :=
  match gt_status T with
  | Waiting =>
      (timed_out T,
       drop_thread x (on_gchan (gt_ch T) (set_gq (gt_op T) (filter (.≠ x) (gq (gt_op T) G)) G) g))
  | _ => (if g_room G =? 0 then timed_out T else answer T, drop_thread x g)
  end.

Definition gstep (l : glabel) (g : gsys) : option (reply * gsys) :=
  match l with
  | GSend ch m timeout_ns self => G ← g_chans g !! ch; Some (gsend ch m timeout_ns self G g)
  | GRecv ch timeout_ns self => G ← g_chans g !! ch; Some (grecv ch timeout_ns self G g)
  | GClose ch => G ← g_chans g !! ch; Some (gclose ch G g)
  | GWake x =>
      T ← g_threads g !! x;
      if decide (gt_status T = Waiting) then None else Some (answer T, drop_thread x g)
  | GExpire x =>
      T ← g_threads g !! x; G ← g_chans g !! gt_ch T;
      if gt_timed T then Some (gexpire x T G g) else None
  end.

(** A history: the answers of the steps [ls], oldest first. *)
Fixpoint gruns (ls : list glabel) (g : gsys) : option (list reply * gsys) :=
  match ls with
  | [] => Some ([], g)
  | l :: ls => '(r, g) ← gstep l g; '(rs, g) ← gruns ls g; Some (r :: rs, g)
  end.

(** ** Invariant *)

(** A channel by itself: it holds no more than it has room for, what went in is
    what came out and what is buffered, in that order, and nobody waits who could
    be served: a receiver waits only for an empty buffer and no sender, a sender
    only for a full one, and nobody waits on a closed channel. *)
Record gchan_ok (G : gchan) : Prop := {
  gk_room : 0 <= zlen (g_buf G) <= g_room G;
  gk_fifo : g_in G = g_out G ++ g_buf G;
  gk_recv : g_recvq G <> [] -> g_buf G = [] /\ g_sendq G = [];
  gk_send : g_sendq G <> [] -> g_room G <= zlen (g_buf G);
  gk_closed : g_closed G = true -> g_sendq G = [] /\ g_recvq G = []
}.

Definition waiting (thr : gmap ptr gthread) (x ch : ptr) (op : chan_op_t) : Prop :=
  exists T, thr !! x = Some T /\ gt_ch T = ch /\ gt_op T = op /\ gt_status T = Waiting.

(** The queues hold the waiting threads, each once. *)
Record glink (g : gsys) : Prop := {
  gl_q : forall ch G op x, g_chans g !! ch = Some G -> x ∈ gq op G <-> waiting (g_threads g) x ch op;
  gl_nodup : forall ch G op, g_chans g !! ch = Some G -> NoDup (gq op G);
  gl_live : forall x T, g_threads g !! x = Some T -> is_Some (g_chans g !! gt_ch T)
}.

Record ginv (g : gsys) : Prop := {
  gi_chan : forall ch G, g_chans g !! ch = Some G -> gchan_ok G;
  gi_link : glink g
}.

Lemma waiting_unique thr x ch ch' op op' :
  waiting thr x ch op -> waiting thr x ch' op' -> ch' = ch /\ op' = op.
Proof. intros (T & HT & <- & <- & _) (T' & HT' & <- & <- & _). by simplify_eq. Qed.

Lemma waiting_frame thr thr' x ch op : thr' !! x = thr !! x -> waiting thr' x ch op <-> waiting thr x ch op.
Proof. unfold waiting. by intros ->. Qed.

Lemma gq_set_same op l G : gq op (set_gq op l G) = l.
Proof. by destruct op. Qed.
Lemma gq_set_ne op op' l G : op' <> op -> gq op' (set_gq op l G) = gq op' G.
Proof. by destruct op, op'. Qed.

(** One queue and one thread change together. *)
Lemma glink_update g ch G G' op x thr' :
  glink g -> g_chans g !! ch = Some G ->
  (forall op', op' <> op -> gq op' G' = gq op' G) -> NoDup (gq op G') ->
  (forall y, y <> x -> thr' !! y = g_threads g !! y) ->
  (forall y, y <> x -> y ∈ gq op G' <-> y ∈ gq op G) ->
  (x ∈ gq op G' <-> waiting thr' x ch op) ->
  (forall ch' op', (ch', op') <> (ch, op) -> waiting thr' x ch' op' <-> waiting (g_threads g) x ch' op') ->
  (forall T, thr' !! x = Some T -> is_Some (g_chans g !! gt_ch T)) ->
  glink (mk_gsys (<[ch := G']> (g_chans g)) thr').
Proof.
  intros [Hq Hn Hl] HG Hop Hnd Hthr Hqy Hx Hxo Hlx. split; simpl.
  - intros ch' G0 op' y [(<- & <-)|(Hne & HG')]%lookup_insert_Some.
    + destruct (decide (op' = op)) as [->|Hop'].
      * destruct (decide (y = x)) as [->|Hy]; [done|]. rewrite Hqy, (Hq _ _ _ _ HG) by done.
        symmetry. by apply waiting_frame, Hthr.
      * rewrite Hop, (Hq _ _ _ _ HG) by done. symmetry.
        destruct (decide (y = x)) as [->|Hy]; [apply Hxo; congruence|by apply waiting_frame, Hthr].
    + rewrite (Hq _ _ _ _ HG'). symmetry.
      destruct (decide (y = x)) as [->|Hy]; [apply Hxo; congruence|by apply waiting_frame, Hthr].
  - intros ch' G0 op' [(<- & <-)|(Hne & HG')]%lookup_insert_Some; [|by eauto].
    destruct (decide (op' = op)) as [->|Hop']; [done|]. rewrite Hop by done. eauto.
  - intros y T HT. apply lookup_insert_is_Some'. right.
    destruct (decide (y = x)) as [->|Hy]; [by eauto|]. rewrite Hthr in HT by done. eauto.
Qed.

Definition not_waiting (thr : gmap ptr gthread) (x : ptr) : Prop :=
  forall T, thr !! x = Some T -> gt_status T <> Waiting.

(** A waiting thread leaves its queue: it is passed or refused, or gives up. *)
Lemma glink_dequeue g ch G G' op l1 l2 x thr' :
  glink g -> g_chans g !! ch = Some G -> gq op G = l1 ++ x :: l2 -> gq op G' = l1 ++ l2 ->
  (forall op', op' <> op -> gq op' G' = gq op' G) ->
  (forall y, y <> x -> thr' !! y = g_threads g !! y) ->
  (forall T', thr' !! x = Some T' -> gt_status T' <> Waiting /\ exists T, g_threads g !! x = Some T /\ gt_ch T' = gt_ch T) ->
  glink (mk_gsys (<[ch := G']> (g_chans g)) thr').
Proof.
  intros L HG E E' Hop Hthr Hx. pose proof L as [Hq Hn Hl].
  pose proof (Hn _ _ op HG) as Hnd. rewrite E in Hnd.
  apply NoDup_middle in Hnd as (Hnd' & Hx1 & Hx2).
  assert (waiting (g_threads g) x ch op) as Hw by (apply (Hq _ _ _ _ HG); rewrite E; set_solver).
  assert (forall c o, waiting thr' x c o -> False) as Hno by (intros c o (T & HT & _ & _ & HW); by apply Hx in HT as [? _]).
  apply glink_update with (G := G) (op := op) (x := x); auto.
  - by rewrite E'.
  - intros y Hy. rewrite E, E'. set_solver.
  - rewrite E'. split; [set_solver|]. intros H. by destruct (Hno _ _ H).
  - intros c o Hne. split; intros H; [by destruct (Hno _ _ H)|]. destruct (waiting_unique _ _ _ _ _ _ Hw H). congruence.
  - intros T HT. apply Hx in HT as (_ & T0 & HT0 & ->). eauto.
Qed.

Lemma glink_enqueue g ch G G' op x T :
  glink g -> g_chans g !! ch = Some G -> g_threads g !! x = None ->
  gt_ch T = ch -> gt_op T = op -> gt_status T = Waiting ->
  gq op G' = gq op G ++ [x] -> (forall op', op' <> op -> gq op' G' = gq op' G) ->
  glink (on_thread x T (on_gchan ch G' g)).
Proof.
  intros L HG Hx E1 E2 E3 E Hop. pose proof L as [Hq Hn Hl].
  assert (forall c o, ~ waiting (g_threads g) x c o) as Hno by (intros c o (T0 & HT0 & _); congruence).
  assert (x ∉ gq op G) as Hxq by (rewrite (Hq _ _ _ _ HG); apply Hno).
  apply glink_update with (G := G) (op := op) (x := x); auto.
  - rewrite E. apply NoDup_app. split; [by eauto|]. split; [set_solver|apply NoDup_singleton].
  - intros y Hy. simpl. by rewrite lookup_insert_ne.
  - intros y Hy. rewrite E. set_solver.
  - rewrite E. split; [|set_solver]. intros _. exists T. simpl. by rewrite lookup_insert_eq.
  - intros c o Hne. split; [|intros H; by destruct (Hno _ _ H)].
    intros (T0 & HT0 & ? & ? & _). simpl in HT0. rewrite lookup_insert_eq in HT0. congruence.
  - intros T0 HT0. simpl in *. rewrite lookup_insert_eq in HT0. injection HT0 as <-. rewrite E1. eauto.
Qed.

(** The channel changes, not its queues. *)
Lemma glink_chan g ch G G' :
  glink g -> g_chans g !! ch = Some G -> (forall op, gq op G' = gq op G) -> glink (on_gchan ch G' g).
Proof.
  intros L HG E. pose proof L as [Hq Hn Hl].
  apply (glink_update g ch G G' CHAN_OP_SEND ch (g_threads g)); auto.
  - rewrite E. eauto.
  - intros y _. by rewrite E.
  - rewrite E. by apply Hq.
  - eauto.
Qed.

Lemma glink_drop g x : glink g -> not_waiting (g_threads g) x -> glink (drop_thread x g).
Proof.
  intros [Hq Hn Hl] Hx. split; simpl.
  - intros ch G op y HG. rewrite (Hq _ _ _ _ HG). destruct (decide (y = x)) as [->|Hy].
    + split; intros (T & HT & _ & _ & HW); [by destruct (Hx T)|]. by rewrite lookup_delete_eq in HT.
    + symmetry. apply waiting_frame. by rewrite lookup_delete_ne.
  - eauto.
  - intros y T [_ HT]%lookup_delete_Some. eauto.
Qed.

Lemma refuse_on_gchan x ch G g : refuse x (on_gchan ch G g) = on_gchan ch G (refuse x g).
Proof. done. Qed.
Lemma refuse_all_app l k g : refuse_all (l ++ k) g = refuse_all k (refuse_all l g).
Proof. apply foldl_app. Qed.
Lemma refuse_all_on_gchan l ch G g : refuse_all l (on_gchan ch G g) = on_gchan ch G (refuse_all l g).
Proof. revert g. induction l as [|x l IH]; intros g; simpl; [done|]. by rewrite refuse_on_gchan, IH. Qed.
Lemma refuse_all_chans l g : g_chans (refuse_all l g) = g_chans g.
Proof. revert g. induction l as [|x l IH]; intros g; simpl; [done|]. by rewrite IH. Qed.
Lemma on_gchan_twice ch G G' g : on_gchan ch G (on_gchan ch G' g) = on_gchan ch G g.
Proof. unfold on_gchan. simpl. by rewrite insert_insert_eq. Qed.
Lemma set_gq_twice op l l' G : set_gq op l (set_gq op l' G) = set_gq op l G.
Proof. by destruct op. Qed.

(** What an alteration of [x]'s status leaves behind, as [glink_dequeue] wants it. *)
Lemma alter_settled (f : gthread -> gthread) x (thr : gmap ptr gthread) :
  (forall T, gt_status (f T) <> Waiting /\ gt_ch (f T) = gt_ch T) ->
  (forall y, y <> x -> alter f x thr !! y = thr !! y) /\
  (forall T', alter f x thr !! x = Some T' ->
     gt_status T' <> Waiting /\ exists T, thr !! x = Some T /\ gt_ch T' = gt_ch T).
Proof.
  intros Hf. split.
  - intros y Hy. by rewrite lookup_alter_ne.
  - intros T'. rewrite lookup_alter_eq. destruct (thr !! x) as [T|]; simpl; [|done].
    intros [= <-]. destruct (Hf T). eauto.
Qed.

(** The head of a queue is settled by [f]. *)
Lemma glink_settle g ch G G' op l x (f : gthread -> gthread) :
  (forall T, gt_status (f T) <> Waiting /\ gt_ch (f T) = gt_ch T) ->
  glink g -> g_chans g !! ch = Some G -> gq op G = x :: l -> gq op G' = l ->
  (forall op', op' <> op -> gq op' G' = gq op' G) ->
  glink (mk_gsys (<[ch := G']> (g_chans g)) (alter f x (g_threads g))).
Proof.
  intros Hf L HG E E' Hop. destruct (alter_settled f x (g_threads g) Hf).
  by apply glink_dequeue with (G := G) (op := op) (l1 := []) (l2 := l) (x := x).
Qed.

Lemma glink_refuse_queue l g ch G op :
  glink g -> g_chans g !! ch = Some G -> gq op G = l ->
  glink (refuse_all l (on_gchan ch (set_gq op [] G) g)).
Proof.
  revert g G. induction l as [|x l IH]; intros g G L HG E; simpl.
  { apply glink_chan with G; [done..|]. intros op'. destruct (decide (op' = op)) as [->|];
      [by rewrite gq_set_same|by rewrite gq_set_ne]. }
  assert (glink (on_gchan ch (set_gq op l G) (refuse x g))) as L'.
  { apply (glink_settle g ch G (set_gq op l G) op l x (fun T => set_status Refused (gt_msg T) T)); try done;
      [apply gq_set_same|]. intros op' Hne. by apply gq_set_ne. }
  specialize (IH _ (set_gq op l G) L' ltac:(apply lookup_insert_eq) (gq_set_same _ _ _)).
  by rewrite set_gq_twice, on_gchan_twice in IH.
Qed.

(** A call enters with a frame no blocked thread uses. *)
Definition gfresh (l : glabel) (g : gsys) : bool :=
  match l with
  | GSend _ _ _ x | GRecv _ _ x => bool_decide (g_threads g !! x = None)
  | _ => true
  end.

Lemma ginv_update g ch G G' thr' :
  ginv g -> g_chans g !! ch = Some G -> gchan_ok G' -> glink (mk_gsys (<[ch := G']> (g_chans g)) thr') ->
  ginv (mk_gsys (<[ch := G']> (g_chans g)) thr').
Proof.
  intros [Hc _] HG Hok L. split; [|done]. simpl.
  intros ch' G0 [(<- & <-)|(_ & H)]%lookup_insert_Some; eauto.
Qed.

Lemma put_get_empty m G : g_buf G = [] ->
  get (put m G) = mk_gchan (g_room G) [] (g_sendq G) (g_recvq G) (g_closed G) (g_in G ++ [m]) (g_out G ++ [m]).
Proof. intros E. unfold get, put. simpl. by rewrite E. Qed.

Lemma passed_settled m T : gt_status (set_status Passed m T) <> Waiting /\ gt_ch (set_status Passed m T) = gt_ch T.
Proof. done. Qed.

Lemma gsend_inv ch m t self G g r g' :
  ginv g -> g_chans g !! ch = Some G -> g_threads g !! self = None ->
  gsend ch m t self G g = (r, g') -> ginv g'.
Proof.
  intros I HG Hself. pose proof I as [Hc L]. pose proof (Hc _ _ HG) as [Hr Hf Hrq Hsq Hcl]. unfold gsend.
  destruct (g_closed G) eqn:Ecl; [by intros [= <- <-]|].
  destruct (g_recvq G) as [|x rq] eqn:Erq.
  - destruct (Z.ltb_spec (zlen (g_buf G)) (g_room G)).
    + intros [= <- <-]. apply ginv_update with G; [done..| |].
      * split; simpl; rewrite ?zlen_app, ?Erq, ?Ecl; try done; [unfold zlen in *; simpl; lia|by rewrite Hf, app_assoc|].
        intros Hs. specialize (Hsq Hs). lia.
      * by apply glink_chan with G; [..|intros []].
    + destruct (t =? 0); [by intros [= <- <-]|]. intros [= <- <-]. apply ginv_update with G; [done..| |].
      * split; simpl; rewrite ?Erq, ?Ecl; done.
      * eapply glink_enqueue; [done|done|done| | | | |]; try done. by intros [].
  - destruct (Hrq ltac:(done)) as [Eb Esq]. intros [= <- <-]. rewrite put_get_empty by done.
    apply (ginv_update g ch G); [done..| |].
    + split; simpl; rewrite ?Esq, ?Ecl; try done; [rewrite Eb in Hr; done|]. by rewrite Hf, Eb, !app_nil_r.
    + apply (glink_settle g ch G _ CHAN_OP_RECV rq x); auto using passed_settled. intros [] ?; done.
Qed.

Lemma grecv_inv ch t self G g r g' :
  ginv g -> g_chans g !! ch = Some G -> g_threads g !! self = None ->
  grecv ch t self G g = (r, g') -> ginv g'.
Proof.
  intros I HG Hself. pose proof I as [Hc L]. pose proof (Hc _ _ HG) as [Hr Hf Hrq Hsq Hcl]. unfold grecv.
  assert (g_recvq G = [] \/ g_buf G = [] /\ g_sendq G = []) as Hor.
  { destruct (g_recvq G); [by left|right; by apply Hrq]. }
  destruct (g_buf G) as [|e buf] eqn:Eb, (g_sendq G) as [|s sq] eqn:Esq.
  - destruct (g_closed G) eqn:Ecl; [by intros [= <- <-]|]. destruct (t =? 0); [by intros [= <- <-]|].
    intros [= <- <-]. apply ginv_update with G; [done..| |].
    + split; simpl; rewrite ?Eb, ?Esq, ?Ecl; done.
    + eapply glink_enqueue; [done|done|done| | | | |]; try done. by intros [].
  - assert (g_recvq G = []) as Er by (destruct Hor as [?|[_ ?]]; done). intros [= <- <-]. rewrite put_get_empty by done.
    apply (ginv_update g ch G); [done..| |].
    + split; simpl; rewrite ?Er; try done; [by rewrite Hf, !app_nil_r|intros _; by apply Hsq|].
      intros E. by destruct (Hcl E).
    + apply (glink_settle g ch G _ CHAN_OP_SEND sq s); auto using passed_settled. intros [] ?; done.
  - assert (g_recvq G = []) as Er by (destruct Hor as [?|[? _]]; done). intros [= <- <-].
    rewrite zlen_cons in *. pose proof (zlen_nonneg buf). apply ginv_update with G; [done..| |].
    + split; simpl; rewrite ?Eb, ?Er, ?Esq; simpl; try done; [lia|]. by rewrite Hf, <- app_assoc.
    + by apply glink_chan with G; [..|intros []].
  - assert (g_recvq G = []) as Er by (destruct Hor as [?|[? _]]; done). intros [= <- <-].
    rewrite zlen_cons in *. pose proof (zlen_nonneg buf). apply (ginv_update g ch G); [done..| |].
    + split; simpl; rewrite ?Eb, ?Er; simpl; rewrite ?zlen_app; try done.
      * unfold zlen in *; simpl; lia.
      * by rewrite Hf, <- !app_assoc.
      * intros _. specialize (Hsq ltac:(done)). unfold zlen in *; simpl; lia.
      * intros E. by destruct (Hcl E).
    + apply (glink_settle g ch G _ CHAN_OP_SEND sq s); auto using passed_settled. intros [] ?; done.
Qed.

Lemma gclose_inv ch G g r g' :
  ginv g -> g_chans g !! ch = Some G -> gclose ch G g = (r, g') -> ginv g'.
Proof.
  intros I HG. pose proof I as [Hc L]. pose proof (Hc _ _ HG) as [Hr Hf Hrq Hsq Hcl]. unfold gclose.
  destruct (g_closed G) eqn:Ecl; [by intros [= <- <-]|]. intros [= <- <-].
  rewrite refuse_all_app, !refuse_all_on_gchan.
  assert (glink (on_gchan ch (set_g_closed G) g)) as L0 by (by apply glink_chan with G; [..|intros []]).
  pose proof (glink_refuse_queue (g_sendq G) _ ch (set_g_closed G) CHAN_OP_SEND L0 ltac:(apply lookup_insert_eq) eq_refl) as L1.
  rewrite on_gchan_twice in L1. 
  pose proof (glink_refuse_queue (g_recvq G) _ ch (set_gq CHAN_OP_SEND [] (set_g_closed G)) CHAN_OP_RECV L1
    ltac:(rewrite refuse_all_chans; apply lookup_insert_eq) eq_refl) as L2.
  rewrite !refuse_all_on_gchan, on_gchan_twice in L2.
  split; [|exact L2]. intros ch' G0 HG0. simpl in HG0. rewrite !refuse_all_chans in HG0.
  apply lookup_insert_Some in HG0 as [(<- & <-)|(_ & H)]; [|by eauto]. split; simpl; done.
Qed.

Lemma gexpire_inv x T G g r g' :
  ginv g -> g_threads g !! x = Some T -> g_chans g !! gt_ch T = Some G ->
  gexpire x T G g = (r, g') -> ginv g'.
Proof.
  intros I HT HG. pose proof I as [Hc L]. pose proof (Hc _ _ HG) as [Hr Hf Hrq Hsq Hcl]. unfold gexpire.
  destruct (gt_status T) eqn:ET; intros [= <- <-];
    [|split; [done|]; apply glink_drop; [done|]; intros T' ?; simplify_eq; congruence..].
  assert (x ∈ gq (gt_op T) G) as Hin by (apply (gl_q _ L _ _ _ _ HG); by exists T).
  apply list_elem_of_split in Hin as (l1 & l2 & El).
  pose proof (gl_nodup _ L _ _ (gt_op T) HG) as Hnd. rewrite El in *.
  apply NoDup_middle in Hnd as (_ & Hx1 & Hx2). rewrite filter_middle by done.
  apply (ginv_update g (gt_ch T) G); [done..| |].
  - assert (l1 ++ l2 <> [] -> gq (gt_op T) G <> []) by (rewrite El; by destruct l1).
    split; destruct (gt_op T); simpl in *; auto.
    + intros Hs. rewrite El in Hrq. destruct (Hrq Hs) as [_ E]. by destruct l1.
    + intros E. destruct (Hcl E) as [E1 _]. rewrite El in E1. by destruct l1.
    + intros E. destruct (Hcl E) as [_ E1]. rewrite El in E1. by destruct l1.
  - apply glink_dequeue with (G := G) (op := gt_op T) (l1 := l1) (l2 := l2) (x := x); try done.
    + apply gq_set_same.
    + intros op' Hne. by apply gq_set_ne.
    + intros y Hy. by apply lookup_delete_ne.
    + intros T'. by rewrite lookup_delete_eq.
Qed.

(** Every step of the specification keeps the invariant. *)
Lemma gstep_inv l g r g' : ginv g -> gfresh l g = true -> gstep l g = Some (r, g') -> ginv g'.
Proof.
  intros I Hf Hs. pose proof I as [Hc L].
  destruct l as [ch m t self|ch t self|ch|x|x]; simpl in *; simplify_option_eq; simplify_eq.
  - apply bool_decide_eq_true in Hf. eapply gsend_inv; eauto.
  - apply bool_decide_eq_true in Hf. eapply grecv_inv; eauto.
  - eapply gclose_inv; eauto.
  - split; [done|]. apply glink_drop; [done|]. intros T ?. congruence.
  - destruct (gt_timed _); simplify_eq. eapply gexpire_inv; eauto.
Qed.

(** ** Conservation

    The messages of the calls on [ch] that answered CHAN_OK, and those of the
    blocked calls whose message has been passed but which have not answered yet. *)
Definition done_msg (ch : ptr) (op : chan_op_t) (r : reply) : list msg :=
  match r with
  | Returned c o CHAN_OK m => if decide (c = ch /\ o = op) then [m] else []
  | _ => []
  end.
Definition done_msgs (ch : ptr) (op : chan_op_t) (rs : list reply) : list msg := rs ≫= done_msg ch op.

Definition passed_msg (ch : ptr) (op : chan_op_t) (T : gthread) : list msg :=
  if decide (gt_ch T = ch /\ gt_op T = op /\ gt_status T = Passed) then [gt_msg T] else [].
Definition passed_msgs (ch : ptr) (op : chan_op_t) (thr : gmap ptr gthread) : list msg :=
  (map_to_list thr).*2 ≫= passed_msg ch op.

Lemma passed_msg_none ch op T : gt_status T <> Passed \/ gt_ch T <> ch -> passed_msg ch op T = [].
Proof. intros H. unfold passed_msg. rewrite decide_False; [done|]. by intros (? & _ & ?); destruct H. Qed.

Lemma passed_insert ch op x T thr :
  thr !! x = None -> passed_msgs ch op (<[x := T]> thr) ≡ₚ passed_msg ch op T ++ passed_msgs ch op thr.
Proof. intros Hx. unfold passed_msgs. rewrite (map_to_list_insert _ _ _ Hx). done. Qed.

Lemma passed_delete ch op x T thr :
  thr !! x = Some T -> passed_msgs ch op thr ≡ₚ passed_msg ch op T ++ passed_msgs ch op (delete x thr).
Proof.
  intros Hx. rewrite <- (insert_id thr x T Hx) at 1. rewrite <- insert_delete_eq.
  by rewrite passed_insert by apply lookup_delete_eq.
Qed.

Lemma passed_alter ch op x T (f : gthread -> gthread) thr :
  thr !! x = Some T -> passed_msg ch op T = [] ->
  passed_msgs ch op (alter f x thr) ≡ₚ passed_msg ch op (f T) ++ passed_msgs ch op thr.
Proof.
  intros Hx HT. rewrite (passed_delete ch op x (f T)) by (rewrite lookup_alter_eq, Hx; done).
  rewrite (passed_delete ch op x T thr Hx), HT. simpl. f_equiv.
  by rewrite delete_alter_eq.
Qed.

(** From [g] to [g'] with the answer [r], the channel [ch] took in [i] and gave
    out [o]; the calls that own these messages have answered or are passed. *)
Definition balance (ch : ptr) (op : chan_op_t) (d : list msg) (r : reply) (thr thr' : gmap ptr gthread) : Prop :=
  done_msg ch op r ++ passed_msgs ch op thr' ≡ₚ d ++ passed_msgs ch op thr.

Record moved (ch : ptr) (r : reply) (g g' : gsys) (G G' : gchan) (i o : list msg) : Prop := {
  mv_room : g_room G' = g_room G;
  mv_in : g_in G' = g_in G ++ i;
  mv_out : g_out G' = g_out G ++ o;
  mv_send : balance ch CHAN_OP_SEND i r (g_threads g) (g_threads g');
  mv_recv : balance ch CHAN_OP_RECV o r (g_threads g) (g_threads g')
}.

Definition moves (ch : ptr) (r : reply) (g g' : gsys) : Prop :=
  forall G, g_chans g !! ch = Some G -> 0 < g_room G ->
  exists G' i o, g_chans g' !! ch = Some G' /\ moved ch r g g' G G' i o.

Lemma balance_none ch op r thr : done_msg ch op r = [] -> balance ch op [] r thr thr.
Proof. unfold balance. by intros ->. Qed.

Lemma moves_none ch r g : (forall op, done_msg ch op r = []) -> moves ch r g g.
Proof.
  intros Hr G HG _. exists G, [], []. split; [done|].
  split; rewrite ?app_nil_r; auto using balance_none.
Qed.

(** The thread [x], waiting on the queue [op'] of [ch'], is passed [m]. *)
Lemma passed_pass ch op ch' op' x m (thr : gmap ptr gthread) :
  waiting thr x ch' op' ->
  passed_msgs ch op (alter (set_status Passed m) x thr) ≡ₚ
  (if decide (ch' = ch /\ op' = op) then [m] else []) ++ passed_msgs ch op thr.
Proof.
  intros (T & HT & E1 & E2 & E3).
  rewrite (passed_alter ch op x T) by (done || (apply passed_msg_none; left; congruence)).
  unfold passed_msg, set_status. simpl. rewrite E1, E2. repeat case_decide; naive_solver.
Qed.

Lemma passed_wait ch op x T thr :
  thr !! x = None -> gt_status T = Waiting -> passed_msgs ch op (<[x := T]> thr) ≡ₚ passed_msgs ch op thr.
Proof.
  intros Hx HT. rewrite passed_insert, passed_msg_none by (done || (left; congruence)). done.
Qed.

(** Evaluate the tests of the goal whose outcome is known. *)
Ltac decided :=
  repeat first [rewrite decide_True by naive_solver | rewrite decide_False by naive_solver].

(** Only the channel [c] changes, by taking in [i] and giving out [o]. *)
Lemma moves_update ch c G G' i o r g thr' :
  g_chans g !! c = Some G -> g_room G' = g_room G -> g_in G' = g_in G ++ i -> g_out G' = g_out G ++ o ->
  (0 < g_room G \/ ch <> c ->
   balance ch CHAN_OP_SEND (if decide (c = ch) then i else []) r (g_threads g) thr' /\
   balance ch CHAN_OP_RECV (if decide (c = ch) then o else []) r (g_threads g) thr') ->
  moves ch r g (mk_gsys (<[c := G']> (g_chans g)) thr').
Proof.
  intros HG Hr Hi Ho Hb G0 HG0 Hpos. simpl. destruct (decide (c = ch)) as [->|Hne].
  - assert (G0 = G) as -> by congruence. exists G', i, o. rewrite lookup_insert_eq. split; [done|]. by split; auto; apply Hb; left.
  - exists G0, [], []. rewrite lookup_insert_ne by done. split; [done|].
    split; rewrite ?app_nil_r; try done; apply Hb; right; congruence.
Qed.

(** The channel [c] changes and the thread [x], waiting there, is passed [m]. *)
Lemma moves_pass ch c G G' i o op x m r g :
  g_chans g !! c = Some G -> g_room G' = g_room G -> g_in G' = g_in G ++ i -> g_out G' = g_out G ++ o ->
  waiting (g_threads g) x c op ->
  (forall op', (if decide (op' = op) then [m] else []) ++ done_msg c op' r =
     match op' with CHAN_OP_SEND => i | CHAN_OP_RECV => o end) ->
  (ch <> c -> forall op', done_msg ch op' r = []) ->
  moves ch r g (mk_gsys (<[c := G']> (g_chans g)) (alter (set_status Passed m) x (g_threads g))).
Proof.
  intros HG Hr Hi Ho Hw Hd Hne. apply moves_update with G i o; [done..|]. intros _.
  assert (forall op', balance ch op' (if decide (c = ch) then match op' with CHAN_OP_SEND => i | CHAN_OP_RECV => o end else [])
    r (g_threads g) (alter (set_status Passed m) x (g_threads g))) as H; [|exact (conj (H CHAN_OP_SEND) (H CHAN_OP_RECV))].
  intros op'. unfold balance. rewrite (passed_pass _ _ _ _ _ _ _ Hw). destruct (decide (c = ch)) as [->|Hc].
  - rewrite <- Hd. rewrite app_assoc. f_equiv. rewrite (Permutation_app_comm (done_msg _ _ _)). f_equiv.
    repeat case_decide; naive_solver.
  - rewrite Hne by congruence. by decided.
Qed.

Lemma gsend_moves ch c m t self G g r g' :
  ginv g -> g_chans g !! c = Some G -> g_threads g !! self = None -> gsend c m t self G g = (r, g') -> moves ch r g g'.
Proof.
  intros I HG Hself. pose proof I as [Hc L]. pose proof (Hc _ _ HG) as [_ _ Hrq _ _]. unfold gsend.
  destruct (g_closed G); [intros [= <- <-]; by apply moves_none|].
  destruct (g_recvq G) as [|x rq] eqn:Erq; [destruct (_ <? _); [|destruct (t =? 0)]|].
  - intros [= <- <-]. apply moves_update with G [m] []; rewrite ?app_nil_r; try done.
    intros _. unfold balance. simpl. destruct (decide (c = ch)); by decided.
  - intros [= <- <-]. by apply moves_none.
  - intros [= <- <-]. apply moves_update with G [] []; rewrite ?app_nil_r; try done.
    intros _. unfold balance. simpl. rewrite !passed_wait by done. by repeat case_decide.
  - destruct (Hrq ltac:(done)) as [Eb _]. intros [= <- <-]. rewrite put_get_empty by done.
    apply (moves_pass ch c G _ [m] [m] CHAN_OP_RECV x m _ g); try done.
    + apply (gl_q _ L _ _ _ _ HG). simpl. rewrite Erq. left.
    + intros []; simpl; by decided.
    + intros Hne []; simpl; by decided.
Qed.

Lemma grecv_moves ch c t self G g r g' :
  ginv g -> g_chans g !! c = Some G -> g_threads g !! self = None -> grecv c t self G g = (r, g') -> moves ch r g g'.
Proof.
  intros I HG Hself. pose proof I as [Hc L]. unfold grecv.
  destruct (g_buf G) as [|e buf] eqn:Eb, (g_sendq G) as [|s sq] eqn:Esq;
    [destruct (g_closed G); [|destruct (t =? 0)]|..]; intros [= <- <-]; try by apply moves_none.
  - apply moves_update with G [] []; rewrite ?app_nil_r; try done.
    intros _. unfold balance. simpl. rewrite !passed_wait by done. by repeat case_decide.
  - rewrite put_get_empty by done. apply (moves_pass ch c G _ [offered s g] [offered s g] CHAN_OP_SEND s (offered s g) _ g); try done.
    + apply (gl_q _ L _ _ _ _ HG). simpl. rewrite Esq. left.
    + intros []; simpl; by decided.
    + intros Hne []; simpl; by decided.
  - apply moves_update with G [] [e]; simpl; rewrite ?app_nil_r, ?Eb; try done.
    intros _. unfold balance. simpl. destruct (decide (c = ch)); by decided.
  - apply (moves_pass ch c G _ [offered s g] [e] CHAN_OP_SEND s (offered s g) _ g); simpl; rewrite ?Eb; try done.
    + apply (gl_q _ L _ _ _ _ HG). simpl. rewrite Esq. left.
    + intros []; simpl; by decided.
    + intros Hne []; simpl; by decided.
Qed.

Lemma passed_refuse_all ch op l g :
  (forall x, x ∈ l -> exists c o, waiting (g_threads g) x c o) -> NoDup l ->
  passed_msgs ch op (g_threads (refuse_all l g)) ≡ₚ passed_msgs ch op (g_threads g).
Proof.
  revert g. induction l as [|x l IH]; intros g Hw Hn; simpl; [done|].
  apply NoDup_cons in Hn as [Hx Hn]. destruct (Hw x ltac:(left)) as (c & o & T & HT & _ & _ & HW).
  rewrite (IH (refuse x g)); [|intros y Hy|done].
  - simpl. rewrite (passed_alter _ _ _ T) by (done || (apply passed_msg_none; left; congruence)).
    by rewrite passed_msg_none by (by left).
  - destruct (Hw y) as (c' & o' & T' & ?); [by right|]. exists c', o', T'. simpl.
    rewrite lookup_alter_ne by congruence. done.
Qed.

Lemma gclose_moves ch c G g r g' :
  ginv g -> g_chans g !! c = Some G -> gclose c G g = (r, g') -> moves ch r g g'.
Proof.
  intros I HG. pose proof I as [Hc L]. pose proof (Hc _ _ HG) as [_ _ Hrq _ _]. unfold gclose.
  destruct (g_closed G); intros [= <- <-]; [by apply moves_none|].
  rewrite refuse_all_on_gchan. unfold on_gchan. rewrite refuse_all_chans.
  apply moves_update with G [] []; rewrite ?app_nil_r; try done. intros _.
  assert (forall op, passed_msgs ch op (g_threads (refuse_all (g_sendq G ++ g_recvq G) g)) ≡ₚ
    passed_msgs ch op (g_threads g)) as H.
  { intros op. apply passed_refuse_all; [|apply NoDup_app].
    - intros x [Hx|Hx]%elem_of_app; [exists c, CHAN_OP_SEND|exists c, CHAN_OP_RECV]; by apply (gl_q _ L _ _ _ _ HG).
    - split; [by apply (gl_nodup _ L _ _ CHAN_OP_SEND HG)|]. split; [|by apply (gl_nodup _ L _ _ CHAN_OP_RECV HG)].
      intros x Hx Hx'. destruct (Hrq) as [_ E]; [by intros E; rewrite E in Hx'; set_solver|]. rewrite E in Hx. set_solver. }
  unfold balance. simpl. rewrite !H. by repeat case_decide.
Qed.

(** A settled call answers. *)
Lemma answer_moves ch x T g :
  g_threads g !! x = Some T -> gt_status T <> Waiting -> moves ch (answer T) g (drop_thread x g).
Proof.
  intros HT HW G HG _. exists G, [], []. split; [done|]. split; rewrite ?app_nil_r; try done;
    unfold balance; simpl; rewrite (passed_delete _ _ _ _ _ HT); f_equiv;
    unfold answer, passed_msg, done_msg; destruct (gt_status T); try done; repeat case_decide; naive_solver.
Qed.

Lemma timeout_moves ch x T g g' :
  g_threads g !! x = Some T -> passed_msg ch CHAN_OP_SEND T = [] -> passed_msg ch CHAN_OP_RECV T = [] ->
  g_threads g' = delete x (g_threads g) -> (forall G, g_chans g !! ch = Some G -> exists G', g_chans g' !! ch = Some G' /\
    g_room G' = g_room G /\ g_in G' = g_in G /\ g_out G' = g_out G) ->
  moves ch (timed_out T) g g'.
Proof.
  intros HT Hs Hr Hg HG G HG0 _. destruct (HG _ HG0) as (G' & HG' & ? & ? & ?). exists G', [], []. split; [done|].
  split; rewrite ?app_nil_r; try done; unfold balance; rewrite Hg, (passed_delete _ _ _ _ _ HT), ?Hs, ?Hr; done.
Qed.

Lemma gexpire_moves ch x T G g r g' :
  g_threads g !! x = Some T -> g_chans g !! gt_ch T = Some G -> gexpire x T G g = (r, g') -> moves ch r g g'.
Proof.
  intros HT HG. unfold gexpire.
  assert (forall st, gt_status T = st -> st <> Waiting -> (if g_room G =? 0 then timed_out T else answer T, drop_thread x g) = (r, g') ->
    moves ch r g g') as Hsettled.
  { intros st E Hne [= <- <-]. destruct (Z.eqb_spec (g_room G) 0) as [Hz|Hz]; [|by apply answer_moves; [|congruence]].
    intros G0 HG0 Hpos. assert (ch <> gt_ch T) as Hch by (intros ->; simplify_eq; lia).
    revert G0 HG0 Hpos. apply timeout_moves with x; try done; try (apply passed_msg_none; by right). eauto. }
  destruct (gt_status T) eqn:ET; [|by apply (Hsettled Passed)|by apply (Hsettled Refused)].
  intros [= <- <-]. apply timeout_moves with x; try done; try (apply passed_msg_none; left; congruence).
  intros G0 HG0. simpl. destruct (decide (gt_ch T = ch)) as [E|Hne].
  - rewrite E in *. assert (G0 = G) as -> by congruence. rewrite lookup_insert_eq. eexists. split; [done|]. by destruct (gt_op T).
  - rewrite lookup_insert_ne by done. eauto.
Qed.

Lemma gstep_moves ch l g r g' :
  ginv g -> gfresh l g = true -> gstep l g = Some (r, g') -> moves ch r g g'.
Proof.
  intros I Hf Hs. destruct l as [c m t self|c t self|c|x|x]; simpl in *; simplify_option_eq; simplify_eq.
  - apply bool_decide_eq_true in Hf. eapply gsend_moves; eauto.
  - apply bool_decide_eq_true in Hf. eapply grecv_moves; eauto.
  - eapply gclose_moves; eauto.
  - by apply answer_moves.
  - destruct (gt_timed _); simplify_eq. eapply gexpire_moves; eauto.
Qed.

(** ** Histories of the specification *)

Lemma gruns_snoc ls g0 rs g l r g' :
  gruns ls g0 = Some (rs, g) -> gstep l g = Some (r, g') -> gruns (ls ++ [l]) g0 = Some (rs ++ [r], g').
Proof.
  revert g0 rs. induction ls as [|l0 ls IH]; intros g0 rs; simpl.
  - intros [= <- <-] ->. done.
  - destruct (gstep l0 g0) as [[r0 g1]|]; [|done]. simpl.
    destruct (gruns ls g1) as [[rs1 g2]|] eqn:E; [|done]. simpl. intros [= <- <-] Hs.
    by rewrite (IH _ _ E Hs).
Qed.

(** What a channel has taken in is what its senders were told, and what it gave
    out is what its receivers were told, answered or about to be. *)
Definition accounted (ch : ptr) (rs : list reply) (g : gsys) (G : gchan) : Prop :=
  g_in G ≡ₚ done_msgs ch CHAN_OP_SEND rs ++ passed_msgs ch CHAN_OP_SEND (g_threads g) /\
  g_out G ≡ₚ done_msgs ch CHAN_OP_RECV rs ++ passed_msgs ch CHAN_OP_RECV (g_threads g).

Lemma done_msgs_snoc ch op rs r : done_msgs ch op (rs ++ [r]) = done_msgs ch op rs ++ done_msg ch op r.
Proof. unfold done_msgs. rewrite bind_app. simpl. by rewrite app_nil_r. Qed.

Lemma moved_accounted ch rs r g g' G G' i o :
  moved ch r g g' G G' i o -> accounted ch rs g G -> accounted ch (rs ++ [r]) g' G'.
Proof.
  intros [_ Ei Eo Bs Br] [Hi Ho]. unfold accounted, balance in *.
  rewrite !done_msgs_snoc, <- !app_assoc, Bs, Br, Ei, Eo, Hi, Ho. split; solve_Permutation.
Qed.

(** ** One call at a time

    When at most one thread uses a side of a channel, the answers of that side
    come in the order of the messages. *)
Definition gcount (ch : ptr) (op : chan_op_t) (thr : gmap ptr gthread) : nat :=
  size (filter (fun xT => gt_ch xT.2 = ch /\ gt_op xT.2 = op) thr).

Lemma gcount_insert ch op x T thr :
  thr !! x = None -> gcount ch op (<[x := T]> thr) =
    ((if decide (gt_ch T = ch /\ gt_op T = op) then 1 else 0) + gcount ch op thr)%nat.
Proof.
  intros Hx. unfold gcount. rewrite map_filter_insert. simpl. case_decide.
  - rewrite map_size_insert_None; [done|]. apply map_lookup_filter_None. by left.
  - by rewrite delete_id.
Qed.

Lemma gcount_delete ch op x T thr :
  thr !! x = Some T -> gcount ch op thr =
    ((if decide (gt_ch T = ch /\ gt_op T = op) then 1 else 0) + gcount ch op (delete x thr))%nat.
Proof.
  intros Hx. rewrite <- (insert_id thr x T Hx) at 1. rewrite <- insert_delete_eq.
  apply gcount_insert, lookup_delete_eq.
Qed.

Lemma gcount_alter ch op x (f : gthread -> gthread) thr :
  (forall T, gt_ch (f T) = gt_ch T /\ gt_op (f T) = gt_op T) -> gcount ch op (alter f x thr) = gcount ch op thr.
Proof.
  intros Hf. destruct (thr !! x) as [T|] eqn:Hx.
  - destruct (Hf T) as [E1 E2].
    rewrite (gcount_delete ch op x (f T)), (gcount_delete ch op x T thr Hx) by (by rewrite lookup_alter_eq, Hx).
    by rewrite E1, E2, delete_alter_eq.
  - f_equal. apply map_eq. intros y. destruct (decide (x = y)) as [<-|];
      [by rewrite lookup_alter_eq, Hx|by rewrite lookup_alter_ne].
Qed.

Lemma gcount_refuse_all ch op l g : gcount ch op (g_threads (refuse_all l g)) = gcount ch op (g_threads g).
Proof. revert g. induction l as [|x l IH]; intros g; simpl; [done|]. rewrite IH. by apply gcount_alter. Qed.

Lemma passed_le ch op thr : (length (passed_msgs ch op thr) <= gcount ch op thr)%nat.
Proof.
  induction thr as [|x T thr Hx IH] using map_ind; [done|].
  rewrite passed_insert, length_app, gcount_insert by done. unfold passed_msg.
  destruct (decide (_ /\ _ /\ _)) as [(? & ? & _)|]; [rewrite decide_True by done|destruct (decide _)]; simpl; lia.
Qed.

(** The call [l] enters the side [op] of [ch] only when nobody is blocked there. *)
Definition galone (ch : ptr) (op : chan_op_t) (l : glabel) (g : gsys) : Prop :=
  match l with
  | GSend c _ _ _ => c = ch -> op = CHAN_OP_SEND -> gcount ch op (g_threads g) = 0%nat
  | GRecv c _ _ => c = ch -> op = CHAN_OP_RECV -> gcount ch op (g_threads g) = 0%nat
  | _ => True
  end.

(** An answer to the side [op] of [ch], at once or by a thread that leaves. *)
Lemma done_le ch op c o e m : (length (done_msg ch op (Returned c o e m)) <= if decide (c = ch /\ o = op) then 1 else 0)%nat.
Proof. simpl. destruct e; simpl; case_decide; simpl; lia. Qed.

(** A call on the side [o] of [c] that found nobody blocked there. *)
Lemma alone_call ch op c o r thr thr' :
  (c = ch -> op = o -> gcount ch op thr = 0%nat) -> (gcount ch op thr <= 1)%nat ->
  (exists e m, r = Returned c o e m) /\ gcount ch op thr' = gcount ch op thr \/
  r = Blocked /\ (exists x T, thr !! x = None /\ thr' = <[x := T]> thr /\ gt_ch T = c /\ gt_op T = o) ->
  (length (done_msg ch op r) + gcount ch op thr' <= 1)%nat.
Proof.
  intros Ha Hc [((e & m & ->) & ->)|(-> & x & T & Hx & -> & <- & <-)].
  - pose proof (done_le ch op c o e m) as Hd. destruct (decide _) as [[-> ->]|]; [rewrite Ha by done|]; lia.
  - rewrite gcount_insert by done. simpl. destruct (decide _) as [[? ?]|]; [rewrite Ha by done|]; lia.
Qed.

(** A blocked call that answers. *)
Lemma alone_leave ch op x T r thr :
  thr !! x = Some T -> (gcount ch op thr <= 1)%nat -> (exists e m, r = Returned (gt_ch T) (gt_op T) e m) ->
  (length (done_msg ch op r) + gcount ch op (delete x thr) <= 1)%nat.
Proof.
  intros Hx Hc (e & m & ->). pose proof (done_le ch op (gt_ch T) (gt_op T) e m) as Hd.
  rewrite (gcount_delete ch op x T thr Hx) in Hc. destruct (decide _); lia.
Qed.

Lemma gstep_alone ch op l g r g' :
  gfresh l g = true -> galone ch op l g -> (gcount ch op (g_threads g) <= 1)%nat -> gstep l g = Some (r, g') ->
  (length (done_msg ch op r) + gcount ch op (g_threads g') <= 1)%nat.
Proof.
  intros Hf Ha Hc Hs. assert (forall m x, gcount ch op (alter (set_status Passed m) x (g_threads g)) = gcount ch op (g_threads g))
    as Hp by (intros; by apply gcount_alter).
  destruct l as [c m t self|c t self|c|x|x]; simpl in *.
  - destruct (g_chans g !! c) as [G|]; [|done]. apply bool_decide_eq_true in Hf. injection Hs as Hs.
    apply (alone_call ch op c CHAN_OP_SEND r (g_threads g)); [done..|]. unfold gsend in Hs.
    destruct (g_closed G); [|destruct (g_recvq G); [destruct (_ <? _); [|destruct (t =? 0)]|]]; injection Hs as <- <-; simpl;
      try (left; split; [by eauto|by rewrite ?Hp]). right. eauto 10.
  - destruct (g_chans g !! c) as [G|]; [|done]. apply bool_decide_eq_true in Hf. injection Hs as Hs.
    apply (alone_call ch op c CHAN_OP_RECV r (g_threads g)); [done..|]. unfold grecv in Hs.
    destruct (g_buf G), (g_sendq G); [destruct (g_closed G); [|destruct (t =? 0)]|..]; injection Hs as <- <-; simpl;
      try (left; split; [by eauto|by rewrite ?Hp]). right. eauto 10.
  - destruct (g_chans g !! c) as [G|]; [|done]. injection Hs as Hs. unfold gclose in Hs.
    destruct (g_closed G); injection Hs as <- <-; rewrite ?gcount_refuse_all; simpl; lia.
  - destruct (g_threads g !! x) as [T|] eqn:HT; [|done]. simpl in Hs. destruct (decide _); [done|]. injection Hs as <- <-.
    apply (alone_leave ch op x T); [done|done|]. unfold answer. destruct (gt_status T); eauto.
  - destruct (g_threads g !! x) as [T|] eqn:HT; [|done]. simpl in Hs. destruct (g_chans g !! gt_ch T) as [G|]; [|done].
    simpl in Hs. destruct (gt_timed T); [|done]. injection Hs as Hs. unfold gexpire in Hs.
    assert (forall b : bool, exists e m, (if b then timed_out T else answer T) = Returned (gt_ch T) (gt_op T) e m) as Hr
      by (intros []; unfold timed_out, answer; [|destruct (gt_status T)]; eauto).
    destruct (gt_status T); injection Hs as <- <-; apply (alone_leave ch op x T); try done; [apply (Hr true)|apply Hr..].
Qed.

Lemma short_permutation {X} (l k : list X) : (length k <= 1)%nat -> l ≡ₚ k -> l = k.
Proof.
  intros Hk Hp. destruct k as [|y [|]]; simpl in Hk; [by apply Permutation_nil_r|by apply Permutation_singleton_r|lia].
Qed.

(** The logs of a channel are the answers of its sides, in order. *)
Definition in_order (ch : ptr) (rs : list reply) (g : gsys) (G : gchan) : Prop :=
  g_in G = done_msgs ch CHAN_OP_SEND rs ++ passed_msgs ch CHAN_OP_SEND (g_threads g) /\
  g_out G = done_msgs ch CHAN_OP_RECV rs ++ passed_msgs ch CHAN_OP_RECV (g_threads g).

Lemma moved_in_order ch l rs r g g' G G' i o :
  gfresh l g = true -> (forall op, galone ch op l g) -> (forall op, gcount ch op (g_threads g) <= 1)%nat ->
  gstep l g = Some (r, g') -> moved ch r g g' G G' i o -> in_order ch rs g G -> in_order ch (rs ++ [r]) g' G'.
Proof.
  intros Hf Ha Hc Hs [_ Ei Eo Bs Br] [Hi Ho].
  assert (forall op d, balance ch op d r (g_threads g) (g_threads g') ->
    passed_msgs ch op (g_threads g) ++ d = done_msg ch op r ++ passed_msgs ch op (g_threads g')) as Heq.
  { intros op d Hb. apply short_permutation; [|unfold balance in Hb; by rewrite Hb, (Permutation_app_comm d)].
    rewrite length_app. pose proof (passed_le ch op (g_threads g')).
    pose proof (gstep_alone ch op l g r g' Hf (Ha op) (Hc op) Hs). lia. }
  unfold in_order. rewrite !done_msgs_snoc, <- !app_assoc, <- (Heq _ _ Bs), <- (Heq _ _ Br), Ei, Eo, Hi, Ho, <- !app_assoc. done.
Qed.
