(* ===== verification/ChanSys.v ===== *)
(** * Threads sharing channels

    The system the library is used in: any number of threads call send, receive
    and close on shared multi-producer multi-consumer channels; a call that
    blocks is resumed when its park returns, woken or timed out.  Calls run one
    at a time between their blocking points.  The theorems say that under the
    callers' obligations no call is ever undefined or hangs, that what the calls
    answer is what the specification of [ChanSpec] answers, and what follows for
    blocked threads and for messages. *)

From S2P Require Import Prelude RingLf Heap WaitQ Abs Chan ChanSend ChanRecv ChanSpec.
From stdpp Require Import list.
#[local] Open Scope Z_scope.

(** ** The system *)

(** A thread inside [chan_park_wait]: its call, and how it goes on. *)
Record blocked := mk_blocked {
  b_ch : ptr;
  b_op : chan_op_t;
  b_buf : ptr;
  b_park : ptr;
  b_timeout : Z;
  b_k : bool -> M (flow chan_err_t)
}.

(** Blocked threads by the address of the frame of their call. *)
Record sys := mk_sys { s_heap : heap; s_blocked : gmap ptr blocked }.

Inductive label :=
| Send (ch data : ptr) (timeout_ns : Z) (self : ptr)
| Recv (ch out : ptr) (timeout_ns : Z) (self : ptr)
| Close (ch : ptr)
| Wake (self : ptr)      (* [chan_park_wait] returns true: the word is set *)
| Expire (self : ptr).   (* it returns false: a finite wait ran out *)

(** The message in a caller's buffer. *)
Definition held (ch buf : ptr) (h : heap) : msg :=
  match h_chan h !! ch, h_mem h !! buf with
  | Some c, Some b => message (ch_elem_size c) b
  | _, _ => []
  end.

(** The thread [self] has run until its call returned or parked. *)
Definition ran (self ch : ptr) (op : chan_op_t) (buf : ptr) (o : res (flow chan_err_t * heap)) (s : sys)
  : res (reply * sys) :=
  let! (f, h) := o in
  match f with
  | Done e =>
      Ret (Returned ch op e (if decide (e = CHAN_OK) then held ch buf h else []), mk_sys h (delete self (s_blocked s)))
  | Park pk timeout_ns k => Ret (Blocked, mk_sys h (<[self := mk_blocked ch op buf pk timeout_ns k]> (s_blocked s)))
  end.

Definition resumed (x : ptr) (B : blocked) (woken : bool) (s : sys) : res (reply * sys) :=
  ran x (b_ch B) (b_op B) (b_buf B) (b_k B woken (s_heap s)) s.

(** [None]: the step cannot happen now.  [Park] shows that [chan_park_wait]
    returns true only after a wake and false only for a finite timeout. *)
Definition sys_step (l : label) (s : sys) : option (res (reply * sys)) :=
  match l with
  | Send ch data t self => Some (ran self ch CHAN_OP_SEND data (chan_send_impl ch data t self (s_heap s)) s)
  | Recv ch out t self => Some (ran self ch CHAN_OP_RECV out (chan_recv_impl ch out t self (s_heap s)) s)
  | Close ch => Some (let! (e, h) := chan_close ch (s_heap s) in Ret (ClosedWith ch e, mk_sys h (s_blocked s)))
  | Wake x =>
      B ← s_blocked s !! x;
      match h_park (s_heap s) !! b_park B with
      | None => Some Undef
      | Some v => if v =? 0 then None else Some (resumed x B true s)
      end
  | Expire x =>
      B ← s_blocked s !! x;
      if 0 <? b_timeout B then Some (resumed x B false s) else None
  end.

(** ** The callers' obligations

    The channel is live and not SPSC, the buffer is live and large enough, the
    frame is the call's own, no other thread's blocked call writes to the buffer
    or, for a receive, uses it at all, and fewer threads are blocked than an
    [int] can count. *)
Definition usable (ch : ptr) (s : sys) : bool :=
  match h_chan (s_heap s) !! ch with Some c => negb (ch_spsc c) && negb (ch =? NULL) | None => false end.

Definition buffer_ok (ch buf : ptr) (s : sys) : bool :=
  match h_chan (s_heap s) !! ch, h_mem (s_heap s) !! buf with
  | Some c, Some b => (ch_elem_size c <=? zlen b) && negb (buf =? NULL)
  | _, _ => false
  end.

Definition frame_ok (self : ptr) (s : sys) : bool :=
  bool_decide (s_blocked s !! self = None) && negb (self =? NULL)
  && (Z.of_nat (size (s_blocked s)) <? 2147483647).

Definition legal (l : label) (s : sys) : bool :=
  match l with
  | Send ch data _ self =>
      usable ch s && buffer_ok ch data s && frame_ok self s
      && bool_decide (map_Forall (fun _ B => b_op B = CHAN_OP_SEND \/ b_buf B <> data) (s_blocked s))
  | Recv ch out _ self =>
      usable ch s && buffer_ok ch out s && frame_ok self s
      && bool_decide (map_Forall (fun _ B => b_buf B <> out) (s_blocked s))
  | Close ch => usable ch s
  | Wake _ | Expire _ => true
  end.

(** The call as the specification sees it. *)
Definition abs_label (l : label) (s : sys) : glabel :=
  match l with
  | Send ch data t self => GSend ch (held ch data (s_heap s)) t self
  | Recv ch _ t self => GRecv ch t self
  | Close ch => GClose ch
  | Wake x => GWake x
  | Expire x => GExpire x
  end.

(** ** Simulation *)

(** How many threads are blocked on a queue's side of a channel. *)
Definition on_side (ch : ptr) (op : chan_op_t) (B : blocked) : Prop := b_ch B = ch /\ b_op B = op.
#[export] Instance on_side_dec ch op B : Decision (on_side ch op B).
Proof. unfold on_side. apply _. Defined.
Definition count (ch : ptr) (op : chan_op_t) (Bs : gmap ptr blocked) : Z :=
  Z.of_nat (size (filter (fun xB => on_side ch op xB.2) Bs)).

Record chan_sim (Bs : gmap ptr blocked) (ch : ptr) (A : achan) (G : gchan) : Prop := {
  cs_null : ch <> NULL;
  cs_es : 0 < a_es A;
  cs_cap : 0 <= a_cap A;
  cs_unlocked : a_locked A = false;
  cs_unbuffered : a_cap A = 0 -> a_buf A = [];
  cs_slots : a_cap A <> 0 -> 0 < a_slots A /\ zlen (a_buf A) <= a_slots A;
  cs_msg : Forall (fun m => zlen m = a_es A) (a_buf A);
  cs_room : g_room G = room A;
  cs_buf : g_buf G = a_buf A;
  cs_closed : g_closed G = a_closed A;
  cs_q : forall op, gq op G = aq op A;
  cs_scnt : a_scnt A = count ch CHAN_OP_SEND Bs;
  cs_rcnt : a_rcnt A = count ch CHAN_OP_RECV Bs
}.

Definition resume (op : chan_op_t) (unbuffered : bool) : ptr -> ptr -> bool -> M (flow chan_err_t) :=
  match op with
  | CHAN_OP_SEND => if unbuffered then send_woken_unbuffered else send_woken_buffered
  | CHAN_OP_RECV => if unbuffered then recv_woken_unbuffered else recv_woken_buffered
  end.

(** The waiter structure and the park word of a thread, by its status. *)
Definition settled (T : gthread) (w : chan_waiter) (v : Z) : Prop :=
  match gt_status T with
  | Waiting => v = 0
  | Passed => v = 1 /\ w_result w = CHAN_OK
  | Refused => v = 1 /\ w_result w = CHAN_ERR_CLOSED
  end.

Record thr_sim (a : aheap) (x : ptr) (B : blocked) (T : gthread) (w : chan_waiter) (v es cap : Z) (b : list byte) : Prop := {
  ts_wait : a_wait a !! x = Some w;
  ts_data : w_data w = b_buf B;
  ts_wake : w_wake_park w = x;
  ts_direct : w_select_state w = NULL;
  ts_chan : exists A, a_chan a !! b_ch B = Some A /\ a_es A = es /\ a_cap A = cap;
  ts_park : b_park B = x;
  ts_k : b_k B = resume (b_op B) (cap =? 0) (b_ch B) x;
  ts_ch : gt_ch T = b_ch B;
  ts_op : gt_op T = b_op B;
  ts_timed : gt_timed T = (0 <? b_timeout B);
  ts_mem : a_mem a !! b_buf B = Some b;
  ts_len : es <= zlen b;
  ts_msg : b_op B = CHAN_OP_SEND \/ gt_status T = Passed -> gt_msg T = message es b;
  ts_word : a_park a !! x = Some v;
  ts_status : settled T w v
}.

Definition thr_match (a : aheap) (x : ptr) (oB : option blocked) (oT : option gthread) : Prop :=
  match oB, oT with
  | Some B, Some T => exists w v es cap b, thr_sim a x B T w v es cap b
  | None, None => a_wait a !! x = None
  | _, _ => False
  end.

(** The abstract memory and the blocked threads match the specification's state. *)
Record matches (a : aheap) (Bs : gmap ptr blocked) (g : gsys) : Prop := {
  ma_chan : forall ch, option_Forall2 (chan_sim Bs ch) (a_chan a !! ch) (g_chans g !! ch);
  ma_thr : forall x, thr_match a x (Bs !! x) (g_threads g !! x);
  ma_sep : forall x y B B', Bs !! x = Some B -> Bs !! y = Some B' -> x <> y ->
    b_op B = CHAN_OP_RECV -> b_buf B <> b_buf B'
}.

Definition sim (s : sys) (g : gsys) : Prop :=
  ginv g /\ Z.of_nat (size (s_blocked s)) < 2147483648 /\
  exists a, repr (s_heap s) a /\ matches a (s_blocked s) g.

(** ** What a match tells *)

Section matched.
Context (a : aheap) (Bs : gmap ptr blocked) (g : gsys).
Hypothesis Mt : matches a Bs g.
Hypothesis I : ginv g.

Lemma match_chan ch A :
  a_chan a !! ch = Some A -> exists G, g_chans g !! ch = Some G /\ chan_sim Bs ch A G.
Proof using Mt.
  intros HA. pose proof (ma_chan _ _ _ Mt ch) as H. rewrite HA in H. inversion H; subst. eauto.
Qed.

Lemma match_gchan ch G :
  g_chans g !! ch = Some G -> exists A, a_chan a !! ch = Some A /\ chan_sim Bs ch A G.
Proof using Mt.
  intros HG. pose proof (ma_chan _ _ _ Mt ch) as H. rewrite HG in H. inversion H; subst. eauto.
Qed.

Lemma match_thread x T :
  g_threads g !! x = Some T -> exists B w v es cap b, Bs !! x = Some B /\ thr_sim a x B T w v es cap b.
Proof using Mt.
  intros HT. pose proof (ma_thr _ _ _ Mt x) as H. rewrite HT in H. unfold thr_match in H.
  destruct (Bs !! x) as [B|]; [|done]. destruct H as (w & v & es & cap & b & H). eauto 10.
Qed.

Lemma match_blocked x B :
  Bs !! x = Some B -> exists T w v es cap b, g_threads g !! x = Some T /\ thr_sim a x B T w v es cap b.
Proof using Mt.
  intros HB. pose proof (ma_thr _ _ _ Mt x) as H. rewrite HB in H. unfold thr_match in H.
  destruct (g_threads g !! x) as [T|]; [|done]. destruct H as (w & v & es & cap & b & H). eauto 10.
Qed.

Lemma match_fresh x : Bs !! x = None -> a_wait a !! x = None /\ g_threads g !! x = None.
Proof using Mt.
  intros HB. pose proof (ma_thr _ _ _ Mt x) as H. rewrite HB in H. unfold thr_match in H.
  by destruct (g_threads g !! x).
Qed.

(** A queued waiter is a waiting thread of that channel and side. *)
Lemma match_queued ch A op x :
  a_chan a !! ch = Some A -> x ∈ aq op A ->
  exists B T w b, Bs !! x = Some B /\ g_threads g !! x = Some T /\ gt_status T = Waiting /\
    on_side ch op B /\ thr_sim a x B T w 0 (a_es A) (a_cap A) b.
Proof using Mt I.
  intros HA Hx. destruct (match_chan _ _ HA) as (G & HG & S). rewrite <- (cs_q _ _ _ _ S) in Hx.
  apply (gl_q _ (gi_link _ I) _ _ _ _ HG) in Hx as (T & HT & Ech & Eop & EW).
  destruct (match_thread _ _ HT) as (B & w & v & es & cap & b & HB & TS).
  pose proof (ts_status _ _ _ _ _ _ _ _ _ TS) as Hst. unfold settled in Hst. rewrite EW in Hst. subst v.
  destruct (ts_chan _ _ _ _ _ _ _ _ _ TS) as (A' & HA' & <- & <-).
  assert (b_ch B = ch) as Eb by (rewrite <- (ts_ch _ _ _ _ _ _ _ _ _ TS); done). rewrite Eb in HA'. simplify_eq.
  exists B, T, w, b. split; [done|]. split; [done|]. split; [done|]. split; [|done].
  split; [done|]. by rewrite <- (ts_op _ _ _ _ _ _ _ _ _ TS).
Qed.

Lemma match_waiter_ok ch A op x : a_chan a !! ch = Some A -> x ∈ aq op A -> waiter_ok a (a_es A) x.
Proof using Mt I.
  intros HA Hx. destruct (match_queued _ _ _ _ HA Hx) as (B & T & w & b & _ & _ & _ & _ & [Hw Hd Hk Hdi _ _ _ _ _ _ Hm Hl _ Hv _]).
  split; [by eexists|..]; intros w' Hw'; assert (w' = w) as -> by congruence; [done|by rewrite Hk, Hv; eexists|rewrite Hd; eauto].
Qed.

Lemma match_chan_ok ch A : a_chan a !! ch = Some A -> chan_ok a A.
Proof using Mt I.
  intros HA. destruct (match_chan _ _ HA) as (G & HG & []). split; try done.
  intros op x Hx. by eapply match_waiter_ok.
Qed.

Lemma match_count ch A op : a_chan a !! ch = Some A -> zlen (aq op A) <= count ch op Bs.
Proof using Mt I.
  intros HA. destruct (match_chan _ _ HA) as (G & HG & S). unfold zlen, count. apply Nat2Z.inj_le.
  rewrite <- (size_list_to_set (C := gset ptr)), <- size_dom
    by (rewrite <- (cs_q _ _ _ _ S); apply (gl_nodup _ (gi_link _ I) _ _ op HG)).
  apply subseteq_size. intros x Hx%elem_of_list_to_set.
  destruct (match_queued _ _ _ _ HA Hx) as (B & T & w & b & HB & _ & _ & Hs & _).
  apply elem_of_dom. exists B. by apply map_lookup_filter_Some.
Qed.

Lemma match_quiescent ch A : a_chan a !! ch = Some A -> quiescent A.
Proof using Mt I.
  intros HA. destruct (match_chan _ _ HA) as (G & HG & S).
  pose proof (gi_chan _ I _ _ HG) as [_ _ Hr Hs Hc]. pose proof S as [_ _ _ _ _ _ _ Eroom Eb Ec Eq Es Er].
  pose proof (Eq CHAN_OP_SEND) as E1. pose proof (Eq CHAN_OP_RECV) as E2. simpl in E1, E2.
  rewrite E1, E2, Eb in Hr. rewrite E1, Eb in Hs. rewrite E1, E2, Ec in Hc. split; auto.
  - intros Hne Hcap. specialize (Hs Hne). unfold room in Eroom. rewrite (proj2 (Z.eqb_neq _ _) Hcap) in Eroom.
    rewrite <- Eroom. exact Hs.
  - rewrite Es. by apply (match_count ch A CHAN_OP_SEND).
  - rewrite Er. by apply (match_count ch A CHAN_OP_RECV).
Qed.
End matched.

(** ** How a match moves *)

Lemma count_insert ch op x B (Bs : gmap ptr blocked) :
  Bs !! x = None -> count ch op (<[x := B]> Bs) = count ch op Bs + (if decide (on_side ch op B) then 1 else 0).
Proof.
  intros Hx. unfold count. destruct (decide (on_side ch op B)) as [Hs|Hs].
  - rewrite map_filter_insert_True, map_size_insert_None by (done || (apply map_lookup_filter_None; by left)). lia.
  - rewrite map_filter_insert_False, delete_id by done. lia.
Qed.

Lemma count_delete ch op x B (Bs : gmap ptr blocked) :
  Bs !! x = Some B -> count ch op Bs = count ch op (delete x Bs) + (if decide (on_side ch op B) then 1 else 0).
Proof.
  intros Hx. rewrite <- (insert_id Bs x B Hx) at 1. rewrite <- insert_delete_eq.
  apply count_insert, lookup_delete_eq.
Qed.

Lemma count_bound ch op (Bs : gmap ptr blocked) : 0 <= count ch op Bs <= Z.of_nat (size Bs).
Proof.
  unfold count. split; [lia|]. apply Nat2Z.inj_le. rewrite <- !size_dom. apply subseteq_size, dom_filter_subseteq.
Qed.

(** A channel does not see threads blocked elsewhere. *)
Lemma chan_sim_blocked Bs Bs' ch A G :
  (forall op, count ch op Bs' = count ch op Bs) -> chan_sim Bs ch A G -> chan_sim Bs' ch A G.
Proof. intros E []. split; rewrite ?E; done. Qed.

Section moves.
Context (a : aheap) (Bs : gmap ptr blocked) (g : gsys).
Hypothesis Mt : matches a Bs g.

Lemma thr_match_frame a' x oB oT :
  (forall A ch, a_chan a !! ch = Some A -> exists A', a_chan a' !! ch = Some A' /\ a_es A' = a_es A /\ a_cap A' = a_cap A) ->
  a_wait a' !! x = a_wait a !! x -> a_park a' !! x = a_park a !! x ->
  (forall B, oB = Some B -> a_mem a' !! b_buf B = a_mem a !! b_buf B) ->
  thr_match a x oB oT -> thr_match a' x oB oT.
Proof.
  intros Hc Hw Hp Hm. unfold thr_match. destruct oB as [B|], oT as [T|]; try done; [|congruence].
  intros (w & v & es & cap & b & [W D K S (A & HA & <- & <-) P F C O TM Me L Ms V St]).
  destruct (Hc A _ HA) as (A' & HA' & E1 & E2).
  exists w, v, (a_es A), (a_cap A), b. split; try done; [congruence|by eauto|rewrite Hm; done|congruence].
Qed.

Lemma same_chans (A : achan) (ch : ptr) :
  a_chan a !! ch = Some A -> exists A', a_chan a !! ch = Some A' /\ a_es A' = a_es A /\ a_cap A' = a_cap A.
Proof. eauto. Qed.

Lemma on_chan_chans p A A' :
  a_chan a !! p = Some A -> a_es A' = a_es A -> a_cap A' = a_cap A ->
  forall A0 ch, a_chan a !! ch = Some A0 ->
  exists A1, <[p := A']> (a_chan a) !! ch = Some A1 /\ a_es A1 = a_es A0 /\ a_cap A1 = a_cap A0.
Proof.
  intros HA E1 E2 A0 ch H0. destruct (decide (p = ch)) as [->|Hne].
  - rewrite lookup_insert_eq. assert (A0 = A) as -> by congruence. eauto.
  - rewrite lookup_insert_ne by done. eauto.
Qed.

(** One channel changes. *)
Lemma match_on_chan p A A' G' :
  a_chan a !! p = Some A -> a_es A' = a_es A -> a_cap A' = a_cap A -> chan_sim Bs p A' G' ->
  matches (on_chan p A' a) Bs (on_gchan p G' g).
Proof using Mt.
  intros HA E1 E2 HS. split; simpl; [|intros x|apply Mt].
  - intros ch. destruct (decide (p = ch)) as [->|Hne]; [rewrite !lookup_insert_eq; by constructor|].
    rewrite !lookup_insert_ne by done. apply Mt.
  - eapply thr_match_frame; [|done|done|done|apply Mt]. simpl. eauto using on_chan_chans.
Qed.

(** A buffer no blocked call uses is overwritten. *)
Lemma match_on_mem p b : (forall x B, Bs !! x = Some B -> b_buf B <> p) -> matches (on_mem p b a) Bs g.
Proof using Mt.
  intros Hp. split; simpl; [apply Mt|intros x|apply Mt].
  eapply thr_match_frame; [apply same_chans|done|done| |apply Mt].
  intros B HB. simpl. rewrite lookup_insert_ne; [done|]. intros E. by eapply Hp.
Qed.

(** A waiting receiver's buffer is filled. *)
Lemma match_give x B T w v es cap b m :
  Bs !! x = Some B -> g_threads g !! x = Some T -> gt_status T = Waiting -> b_op B = CHAN_OP_RECV ->
  thr_sim a x B T w v es cap b -> zlen m = es -> 0 <= es ->
  matches (give es m x a) Bs g /\ thr_sim (give es m x a) x B T w v es cap (overlay es m b).
Proof using Mt.
  intros HB HT HW HO TS Hm Hes. pose proof TS as [W D K S C P F Ch O TM Me L Ms V St].
  assert (give es m x a = on_mem (b_buf B) (overlay es m b) a) as -> by (rewrite <- D; apply give_known; congruence).
  assert (thr_sim (on_mem (b_buf B) (overlay es m b) a) x B T w v es cap (overlay es m b)) as TS'.
  { split; try done; simpl; [apply lookup_insert_eq|apply zlen_overlay; lia|]. intros [?|?]; congruence. }
  split; [|done]. split; simpl; [apply Mt|intros y|apply Mt]. destruct (decide (y = x)) as [->|Hy].
  - rewrite HB, HT. by exists w, v, es, cap, (overlay es m b).
  - eapply thr_match_frame; [apply same_chans|done|done| |apply Mt].
    intros B' HB'. simpl. rewrite lookup_insert_ne; [done|]. by eapply (ma_sep _ _ _ Mt x y).
Qed.

(** A waiting thread is completed. *)
Lemma match_finish x B T w v es cap b e (f : gthread -> gthread) :
  Bs !! x = Some B -> g_threads g !! x = Some T -> thr_sim a x B T w v es cap b ->
  gt_ch (f T) = gt_ch T -> gt_op (f T) = gt_op T -> gt_timed (f T) = gt_timed T ->
  (gt_status (f T) = Passed /\ e = CHAN_OK /\ gt_msg (f T) = message es b \/
   gt_status (f T) = Refused /\ e = CHAN_ERR_CLOSED /\ gt_msg (f T) = gt_msg T /\ gt_status T = Waiting) ->
  matches (finish x e a) Bs (mk_gsys (g_chans g) (alter f x (g_threads g))).
Proof using Mt.
  intros HB HT [W D K S C P F Ch O TM Me L Ms V St] E1 E2 E3 Hf.
  rewrite (finish_known _ w), K by done. split; simpl; [apply Mt|intros y|apply Mt].
  destruct (decide (y = x)) as [->|Hy].
  - rewrite HB, lookup_alter_eq, HT. exists (set_w_result e w), 1, es, cap, b.
    split; simpl; rewrite ?lookup_insert_eq, ?E1, ?E2, ?E3; try done.
    + intros [?|?]; destruct Hf as [(? & ? & ?)|(? & ? & -> & _)]; [done| |done|congruence]. apply Ms. by left.
    + unfold settled. destruct Hf as [(-> & -> & _)|(-> & -> & _)]; done.
  - rewrite lookup_alter_ne by done. eapply thr_match_frame; [apply same_chans|..|done|apply Mt]; simpl;
      by rewrite lookup_insert_ne.
Qed.
End moves.


(** The counter of a side, and its update. *)
Definition cnt (op : chan_op_t) (A : achan) : Z := match op with CHAN_OP_SEND => a_scnt A | CHAN_OP_RECV => a_rcnt A end.
Definition set_cnt (op : chan_op_t) (v : Z) (A : achan) : achan :=
  match op with CHAN_OP_SEND => set_a_scnt v A | CHAN_OP_RECV => set_a_rcnt v A end.

(** A channel whose counter follows the blocked threads. *)
Lemma chan_sim_counted Bs Bs' ch op A G l v :
  chan_sim Bs ch A G -> v = count ch op Bs' -> (forall op', op' <> op -> count ch op' Bs' = count ch op' Bs) ->
  chan_sim Bs' ch (set_aq op l (set_cnt op v A)) (set_gq op l G).
Proof.
  intros [N E C U Ub Sl M R Bu Cl Q Sc Rc] Hv Ho. destruct op; split; simpl; try done.
  1, 3: intros []; simpl; [|]; try done; by apply (Q CHAN_OP_RECV) || by apply (Q CHAN_OP_SEND).
  - by rewrite Ho.
  - by rewrite Ho.
Qed.

Section blocking.
Context (a : aheap) (Bs : gmap ptr blocked) (g : gsys).
Hypothesis Mt : matches a Bs g.

(** Other channels, when the threads blocked on [ch] change. *)
Lemma match_other Bs' ch A' G' :
  (forall p op, p <> ch -> count p op Bs' = count p op Bs) -> chan_sim Bs' ch A' G' ->
  forall p, option_Forall2 (chan_sim Bs' p) (<[ch := A']> (a_chan a) !! p) (<[ch := G']> (g_chans g) !! p).
Proof using Mt.
  intros Hc HS p. destruct (decide (ch = p)) as [->|Hne]; [rewrite !lookup_insert_eq; by constructor|].
  rewrite !lookup_insert_ne by done. destruct (ma_chan _ _ _ Mt p) as [A0 G0 H|]; constructor.
  eapply chan_sim_blocked, H. intros op. by apply Hc.
Qed.

(** A call blocks. *)
Lemma match_enqueue ch op self data t A G b m :
  a_chan a !! ch = Some A -> g_chans g !! ch = Some G -> chan_sim Bs ch A G -> Bs !! self = None ->
  Z.of_nat (size Bs) < 2147483647 -> a_mem a !! data = Some b -> a_es A <= zlen b ->
  (op = CHAN_OP_SEND -> m = message (a_es A) b) ->
  (forall x B, Bs !! x = Some B -> op = CHAN_OP_RECV \/ b_op B = CHAN_OP_RECV -> b_buf B <> data) ->
  matches (enqueue ch op self data A a)
    (<[self := mk_blocked ch op data self t (resume op (a_cap A =? 0) ch self)]> Bs)
    (on_thread self (mk_gthread ch op (0 <? t) m Waiting) (on_gchan ch (set_gq op (gq op G ++ [self]) G) g)).
Proof using Mt.
  intros HA HG HS Hself Hsize Hb Hlen Hm Hsep.
  set (B := mk_blocked ch op data self t (resume op (a_cap A =? 0) ch self)).
  pose proof (count_bound ch CHAN_OP_SEND Bs). pose proof (count_bound ch CHAN_OP_RECV Bs).
  assert (forall p o, count p o (<[self := B]> Bs) = count p o Bs + (if decide (p = ch /\ o = op) then 1 else 0)) as Hcnt.
  { intros p o. rewrite count_insert by done. f_equal. unfold on_side, B. simpl. repeat case_decide; naive_solver. }
  split; simpl.
  - apply match_other.
    { intros p o Hp. rewrite Hcnt, decide_False by (intros [? _]; done). lia. }
    replace (match op with CHAN_OP_SEND => _ | CHAN_OP_RECV => _ end) with (set_cnt op (cnt op A + 1) A).
    + rewrite (cs_q _ _ _ _ HS). apply chan_sim_counted with Bs; [done| |].
      * rewrite Hcnt, decide_True by done. f_equal. destruct op; [apply (cs_scnt _ _ _ _ HS)|apply (cs_rcnt _ _ _ _ HS)].
      * intros o Ho. rewrite Hcnt, decide_False by (intros [_ ?]; done). lia.
    + destruct op; simpl; rewrite i32_small; try done;
        rewrite ?(cs_scnt _ _ _ _ HS), ?(cs_rcnt _ _ _ _ HS); lia.
  - intros x. destruct (decide (x = self)) as [->|Hx].
    + rewrite !lookup_insert_eq. eexists _, 0, (a_es A), (a_cap A), b.
      split; simpl; rewrite ?lookup_insert_eq; try done.
      * eexists. split; [done|]. by destruct op.
      * intros [Hop|?]; [by apply Hm|done].
    + rewrite !lookup_insert_ne by done. eapply thr_match_frame; [|simpl; by rewrite lookup_insert_ne..|done|apply Mt].
      simpl. apply on_chan_chans with A; [done|..]; by destruct op.
  - intros x y B1 B2 H1 H2 Hne Hop.
    apply lookup_insert_Some in H1 as [(<- & <-)|(Hn1 & H1)]; apply lookup_insert_Some in H2 as [(<- & <-)|(Hn2 & H2)]; simpl in *;
      [done|intros E; by eapply Hsep; [| |symmetry]; eauto|by eapply Hsep; eauto|by eapply (ma_sep _ _ _ Mt x y)].
Qed.

(** A blocked call whose thread is in no queue leaves. *)
Lemma match_leave x B A G :
  Bs !! x = Some B -> a_chan a !! b_ch B = Some A -> g_chans g !! b_ch B = Some G -> chan_sim Bs (b_ch B) A G ->
  Z.of_nat (size Bs) < 2147483648 ->
  matches (leave (b_ch B) (b_op B) x A a) (delete x Bs) (drop_thread x g).
Proof using Mt.
  intros HB HA HG HS Hsize.
  pose proof (count_bound (b_ch B) CHAN_OP_SEND Bs). pose proof (count_bound (b_ch B) CHAN_OP_RECV Bs).
  pose proof (count_delete (b_ch B) (b_op B) x B Bs HB) as Hd. rewrite decide_True in Hd by done.
  pose proof (count_bound (b_ch B) (b_op B) (delete x Bs)).
  split; simpl.
  - rewrite <- (insert_id (g_chans g) (b_ch B) G HG). apply match_other.
    { intros p o Hp. rewrite (count_delete p o x B Bs HB), decide_False by (intros [? _]; congruence). lia. }
    replace (match b_op B with CHAN_OP_SEND => _ | CHAN_OP_RECV => _ end)
      with (set_aq (b_op B) (gq (b_op B) G) (set_cnt (b_op B) (cnt (b_op B) A - 1) A)).
    + assert (forall o l, gq o G = l -> G = set_gq o l G) as E by (intros [] l <-; by destruct G).
      rewrite (E (b_op B) _ eq_refl) at 2. apply chan_sim_counted with Bs; [done| |].
      * replace (cnt (b_op B) A) with (count (b_ch B) (b_op B) Bs); [lia|].
        destruct (b_op B); symmetry; [apply (cs_scnt _ _ _ _ HS)|apply (cs_rcnt _ _ _ _ HS)].
      * intros o Ho. rewrite (count_delete _ o x B Bs HB), decide_False by (intros [_ ?]; congruence). lia.
    + rewrite (cs_q _ _ _ _ HS). destruct (b_op B); simpl in *; rewrite i32_small;
        rewrite ?(cs_scnt _ _ _ _ HS), ?(cs_rcnt _ _ _ _ HS); try lia; by destruct A.
  - intros y. destruct (decide (y = x)) as [->|Hy]; [by rewrite !lookup_delete_eq; simpl; rewrite lookup_delete_eq|].
    rewrite !lookup_delete_ne by done. eapply thr_match_frame; [|simpl; by rewrite lookup_delete_ne..|done|apply Mt].
    simpl. apply on_chan_chans with A; [done|..]; by destruct (b_op B).
  - intros y z B1 B2 [_ HB1]%lookup_delete_Some [_ HB2]%lookup_delete_Some. by apply (ma_sep _ _ _ Mt).
Qed.
End blocking.

(** ** The steps *)

Lemma repr_chan h a ch c :
  repr h a -> h_chan h !! ch = Some c ->
  exists A, a_chan a !! ch = Some A /\ a_es A = ch_elem_size c /\ a_spsc A = ch_spsc c.
Proof.
  intros R Hc. pose proof (r_chan _ _ R ch) as H. rewrite Hc in H. inversion H as [? A Hr|]; subst.
  exists A. split; [done|]. split; symmetry; [apply (rep_member ch_elem_size a_es _ _ _ Hr)|apply (rep_member ch_spsc a_spsc _ _ _ Hr)].
Qed.

Lemma held_repr h a ch A buf b :
  repr h a -> a_chan a !! ch = Some A -> a_mem a !! buf = Some b -> held ch buf h = message (a_es A) b.
Proof.
  intros R HA Hb. destruct (repr_lookup _ _ _ _ R HA) as (c & Hc & Hr). unfold held.
  rewrite Hc, <- (r_mem _ _ R), Hb. by rewrite (rep_member ch_elem_size a_es _ _ _ Hr).
Qed.

Lemma message_overlay es m o : zlen m = es -> message es (overlay es m o) = m.
Proof. intros <-. unfold message, overlay, zlen. rewrite Nat2Z.id. apply take_app_length. Qed.

(** The facts behind the obligations of a call. *)
Lemma legal_call ch buf self s a Bs g :
  Bs = s_blocked s -> repr (s_heap s) a -> matches a Bs g ->
  usable ch s && buffer_ok ch buf s && frame_ok self s = true ->
  exists A G b, a_chan a !! ch = Some A /\ g_chans g !! ch = Some G /\ chan_sim Bs ch A G /\
    a_spsc A = false /\ ch <> NULL /\ a_mem a !! buf = Some b /\ a_es A <= zlen b /\ buf <> NULL /\
    Bs !! self = None /\ a_wait a !! self = None /\ g_threads g !! self = None /\ self <> NULL /\
    Z.of_nat (size Bs) < 2147483647 /\ held ch buf (s_heap s) = message (a_es A) b.
Proof.
  intros -> R Mt H. apply andb_true_iff in H as [[H1 H2]%andb_true_iff H3].
  unfold usable in H1. unfold buffer_ok in H2. destruct (h_chan (s_heap s) !! ch) as [c|] eqn:Hc; [|done].
  destruct (h_mem (s_heap s) !! buf) as [b|] eqn:Hb; [|done].
  apply andb_true_iff in H1 as [H1a%negb_true_iff H1b%negb_true_iff%Z.eqb_neq].
  apply andb_true_iff in H2 as [H2a%Z.leb_le H2b%negb_true_iff%Z.eqb_neq].
  apply andb_true_iff in H3 as [[H3a%bool_decide_eq_true H3b%negb_true_iff%Z.eqb_neq]%andb_true_iff H3c%Z.ltb_lt].
  destruct (repr_chan _ _ _ _ R Hc) as (A & HA & Ees & Esp).
  destruct (match_chan _ _ _ Mt _ _ HA) as (G & HG & S). destruct (match_fresh _ _ _ Mt _ H3a).
  rewrite <- (r_mem _ _ R) in Hb. exists A, G, b. rewrite (held_repr _ _ _ _ _ _ R HA Hb), Ees, Esp. done.
Qed.

(** [ran] on the abstract memory. *)
Definition aheld (ch buf : ptr) (a : aheap) : msg :=
  match a_chan a !! ch, a_mem a !! buf with
  | Some A, Some b => message (a_es A) b
  | _, _ => []
  end.

Definition after (self ch : ptr) (op : chan_op_t) (buf : ptr) (f : flow chan_err_t) (a : aheap) (Bs : gmap ptr blocked)
  : reply * gmap ptr blocked :=
  match f with
  | Done e => (Returned ch op e (if decide (e = CHAN_OK) then aheld ch buf a else []), delete self Bs)
  | Park pk t k => (Blocked, <[self := mk_blocked ch op buf pk t k]> Bs)
  end.

Lemma held_aheld h a ch buf : repr h a -> held ch buf h = aheld ch buf a.
Proof.
  intros R. unfold held, aheld. rewrite (r_mem _ _ R). pose proof (r_chan _ _ R ch) as H.
  inversion H as [c A Hr|]; [|done]. by rewrite (rep_member ch_elem_size a_es _ _ _ Hr).
Qed.

Lemma ran_after self ch op buf f h a s :
  repr h a -> ran self ch op buf (Ret (f, h)) s =
    let (r, Bs) := after self ch op buf f a (s_blocked s) in Ret (r, mk_sys h Bs).
Proof. intros R. destruct f; simpl; [|done]. by rewrite (held_aheld _ _ _ _ R). Qed.

(** Messages move within a channel whose queues stay. *)
Lemma chan_sim_buf Bs ch A G buf G' :
  chan_sim Bs ch A G -> a_cap A <> 0 -> zlen buf <= a_slots A -> Forall (fun m => zlen m = a_es A) buf ->
  g_buf G' = buf -> g_room G' = g_room G -> g_closed G' = g_closed G -> (forall op, gq op G' = gq op G) ->
  chan_sim Bs ch (set_a_buf buf A) G'.
Proof.
  intros [N E C U Ub Sl M R Bu Cl Q Sc Rc] Hc Hb Hm E1 E2 E3 E4. split; simpl; try done; try congruence.
  - intros. split; [by apply Sl|done].
  - rewrite E2. exact R.
  - intros op. rewrite E4, Q. by destruct op.
Qed.

(** A thread leaves the queue [op]. *)
Lemma chan_sim_queue Bs ch op A G l G' :
  chan_sim Bs ch A G -> g_buf G' = g_buf G -> g_room G' = g_room G -> g_closed G' = g_closed G ->
  gq op G' = l -> (forall op', op' <> op -> gq op' G' = gq op' G) -> chan_sim Bs ch (set_aq op l A) G'.
Proof.
  intros [N E C U Ub Sl M R Bu Cl Q Sc Rc] E1 E2 E3 E4 E5.
  assert (forall op', gq op' G' = aq op' (set_aq op l A)) as Hq.
  { intros op'. destruct (decide (op' = op)) as [->|Hne]; [by rewrite aq_set_same|].
    rewrite aq_set_ne, E5 by done. apply Q. }
  destruct op; split; simpl; try done; try congruence.
  all: rewrite E2; exact R.
Qed.

Section calls.
Context (ch buf self : ptr) (t : Z) (A : achan) (G : gchan) (a : aheap) (Bs : gmap ptr blocked) (g : gsys) (b : list byte).
Hypothesis I : ginv g.
Hypothesis Mt : matches a Bs g.
Hypothesis HA : a_chan a !! ch = Some A.
Hypothesis HG : g_chans g !! ch = Some G.
Hypothesis HS : chan_sim Bs ch A G.
Hypothesis Hb : a_mem a !! buf = Some b.
Hypothesis Hlen : a_es A <= zlen b.
Hypothesis Hself : Bs !! self = None.
Hypothesis Hsize : Z.of_nat (size Bs) < 2147483647.

Lemma aheld_here : aheld ch buf a = message (a_es A) b.
Proof using HA Hb. unfold aheld. by rewrite HA, Hb. Qed.

(** The call blocks. *)
Lemma block_matches op m k :
  k = resume op (a_cap A =? 0) ch self -> (op = CHAN_OP_SEND -> m = message (a_es A) b) ->
  (forall x B, Bs !! x = Some B -> op = CHAN_OP_RECV \/ b_op B = CHAN_OP_RECV -> b_buf B <> buf) ->
  matches (enqueue ch op self buf A a) (<[self := mk_blocked ch op buf self t k]> Bs)
    (on_thread self (mk_gthread ch op (0 <? t) m Waiting) (on_gchan ch (set_gq op (gq op G ++ [self]) G) g)).
Proof using Mt HA HG HS Hb Hlen Hself Hsize. intros -> Hm Hsep. by apply match_enqueue with b. Qed.

(** The message [m] goes to the receiver [x] at the head of the queue. *)
Lemma pass_receiver x rq m G' :
  a_rq A = x :: rq -> zlen m = a_es A ->
  g_buf G' = g_buf G -> g_room G' = g_room G -> g_closed G' = g_closed G -> g_sendq G' = g_sendq G -> g_recvq G' = rq ->
  matches (finish x CHAN_OK (give (a_es A) m x (on_chan ch (set_a_rq rq A) a))) Bs (pass m x (on_gchan ch G' g)).
Proof using I Mt HA HS.
  intros Er Hm E1 E2 E3 E4 E5.
  destruct (match_queued _ _ _ Mt I ch A CHAN_OP_RECV x HA ltac:(simpl; rewrite Er; left))
    as (B & T & w & bx & HB & HT & HW & [Hbch Hbop] & TS).
  assert (matches (on_chan ch (set_a_rq rq A) a) Bs (on_gchan ch G' g)) as M1.
  { apply match_on_chan with A; try done. apply (chan_sim_queue Bs ch CHAN_OP_RECV A G rq); try done. intros [] ?; done. }
  assert (thr_sim (on_chan ch (set_a_rq rq A) a) x B T w 0 (a_es A) (a_cap A) bx) as TS1.
  { destruct TS. split; try done. rewrite Hbch. exists (set_a_rq rq A). simpl. by rewrite lookup_insert_eq. }
  pose proof (cs_es _ _ _ _ HS).
  destruct (match_give _ _ _ M1 x B T w 0 _ _ bx m HB HT HW Hbop TS1 Hm ltac:(lia)) as [M2 TS2].
  eapply (match_finish _ _ _ M2 x B T); try done. left. simpl. split; [done|]. split; [done|]. by rewrite message_overlay.
Qed.

Lemma send_matches f a' :
  (forall x B, Bs !! x = Some B -> b_op B = CHAN_OP_RECV -> b_buf B <> buf) ->
  send_spec ch buf t self (message (a_es A) b) A a = (f, a') ->
  let (r, Bs') := after self ch CHAN_OP_SEND buf f a' Bs in
  exists g', gsend ch (message (a_es A) b) t self G g = (r, g') /\ matches a' Bs' g'.
Proof using I Mt HA HG HS Hb Hlen Hself Hsize.
  intros Hsep. unfold send_spec, gsend. set (m := message (a_es A) b).
  pose proof (cs_es _ _ _ _ HS). assert (zlen m = a_es A) as Hm by (apply zlen_message; lia).
  pose proof (cs_q _ _ _ _ HS CHAN_OP_RECV) as Eq. simpl in Eq.
  rewrite (cs_closed _ _ _ _ HS), (cs_room _ _ _ _ HS), (cs_buf _ _ _ _ HS), Eq.
  destruct (a_closed A) eqn:Ecl.
  { intros [= <- <-]. simpl. rewrite delete_id by done. eauto. }
  destruct (a_rq A) as [|x rq] eqn:Er; [destruct (Z.ltb_spec (zlen (a_buf A)) (room A)) as [Hroom|Hroom]|].
  - intros [= <- <-]. simpl. rewrite delete_id by done.
    unfold aheld. simpl. rewrite lookup_insert_eq, Hb. simpl. eexists. split; [done|].
    apply match_on_chan with A; try done. unfold room in Hroom.
    destruct (Z.eqb_spec (a_cap A) 0); [pose proof (zlen_nonneg (a_buf A)); lia|].
    apply chan_sim_buf with G; try done; simpl.
    + rewrite zlen_app. unfold zlen in *. simpl. lia.
    + apply Forall_app. split; [apply HS|by apply Forall_singleton].
    + by rewrite (cs_buf _ _ _ _ HS).
  - destruct (t =? 0); intros [= <- <-]; simpl.
    { rewrite delete_id by done. eauto. }
    eexists. split; [done|]. apply block_matches; [simpl; by destruct (a_cap A =? 0)|done|].
    intros x B HB [?|?]; [done|by apply (Hsep x)].
  - intros [= <- <-]. simpl. rewrite delete_id by done. eexists.
    destruct (match_queued _ _ _ Mt I ch A CHAN_OP_RECV x HA ltac:(simpl; rewrite Er; left))
      as (B & T & w & bx & HB & HT & HW & [Hbch Hbop] & TS).
    split.
    + f_equal. f_equal. unfold aheld. simpl. rewrite lookup_insert_eq, (ts_wait _ _ _ _ _ _ _ _ _ TS), lookup_alter_ne, Hb; [done|].
      rewrite (ts_data _ _ _ _ _ _ _ _ _ TS). by apply (Hsep x).
    + destruct (gk_recv _ (gi_chan _ I _ _ HG)) as [Eb _]; [by rewrite Eq|].
      apply pass_receiver; try done; simpl; by rewrite Eb.
Qed.
End calls.

(** What a queued sender offers. *)
Lemma match_offer a Bs g ch A s :
  matches a Bs g -> ginv g -> a_chan a !! ch = Some A -> s ∈ a_sq A ->
  offer (a_es A) s a = offered s g /\ zlen (offered s g) = a_es A.
Proof.
  intros Mt I HA Hs. destruct (match_queued _ _ _ Mt I ch A CHAN_OP_SEND s HA Hs)
    as (B & T & w & b & HB & HT & HW & [_ Hop] & [W D _ _ _ _ _ _ _ _ Me L Ms _ _]).
  destruct (match_chan _ _ _ Mt _ _ HA) as (G & _ & S). pose proof (cs_es _ _ _ _ S).
  unfold offered. rewrite HT. simpl. rewrite Ms by (by left). split; [|by apply zlen_message; lia].
  unfold offer. by rewrite W, D, Me.
Qed.

(** The sender [s] at the head of the queue has its message taken. *)
Lemma pass_sender a Bs g ch A s sq A' G' :
  matches a Bs g -> ginv g -> a_chan a !! ch = Some A -> a_sq A = s :: sq ->
  a_es A' = a_es A -> a_cap A' = a_cap A -> chan_sim Bs ch A' G' ->
  matches (finish s CHAN_OK (on_chan ch A' a)) Bs (pass (offered s g) s (on_gchan ch G' g)).
Proof.
  intros Mt I HA Es E1 E2 HS.
  destruct (match_queued _ _ _ Mt I ch A CHAN_OP_SEND s HA ltac:(simpl; rewrite Es; left))
    as (B & T & w & b & HB & HT & HW & [Hbch Hbop] & TS).
  pose proof (match_on_chan _ _ _ Mt ch A A' G' HA E1 E2 HS) as M1.
  assert (thr_sim (on_chan ch A' a) s B T w 0 (a_es A) (a_cap A) b) as TS1.
  { destruct TS. split; try done. rewrite Hbch. exists A'. simpl. by rewrite lookup_insert_eq. }
  apply (match_finish _ _ _ M1 s B T w 0 (a_es A) (a_cap A) b); try done. left. split; [done|]. split; [done|].
  simpl. unfold offered. rewrite HT. simpl. by apply TS; left.
Qed.

Section receives.
Context (ch buf self : ptr) (t : Z) (A : achan) (G : gchan) (a : aheap) (Bs : gmap ptr blocked) (g : gsys) (o : list byte).
Hypothesis I : ginv g.
Hypothesis Mt : matches a Bs g.
Hypothesis HA : a_chan a !! ch = Some A.
Hypothesis HG : g_chans g !! ch = Some G.
Hypothesis HS : chan_sim Bs ch A G.
Hypothesis Ho : a_mem a !! buf = Some o.
Hypothesis Hlen : a_es A <= zlen o.
Hypothesis Hself : Bs !! self = None.
Hypothesis Hsize : Z.of_nat (size Bs) < 2147483647.
Hypothesis Hsep : forall x B, Bs !! x = Some B -> b_buf B <> buf.

(** The caller's buffer after it received [e]. *)
Lemma received_message e A' a' :
  zlen e = a_es A -> a_chan a' !! ch = Some A' -> a_es A' = a_es A ->
  a_mem a' !! buf = Some (overlay (a_es A) e o) -> aheld ch buf a' = e.
Proof using. intros He HA' E Hm. unfold aheld. rewrite HA', Hm, E. by apply message_overlay. Qed.

Lemma recv_matches f a' :
  recv_spec ch buf t self o A a = (f, a') ->
  let (r, Bs') := after self ch CHAN_OP_RECV buf f a' Bs in
  exists g', grecv ch t self G g = (r, g') /\ matches a' Bs' g'.
Proof using I Mt HA HG HS Ho Hlen Hself Hsize Hsep.
  unfold recv_spec, grecv. pose proof (cs_es _ _ _ _ HS).
  pose proof (cs_q _ _ _ _ HS CHAN_OP_SEND) as Eq. simpl in Eq.
  pose proof (gi_chan _ I _ _ HG) as GK. pose proof (cs_msg _ _ _ _ HS) as Hmsg.
  assert (a_buf A <> [] -> a_cap A <> 0) as Hcap by (intros Hne E; by apply Hne, (cs_unbuffered _ _ _ _ HS)).
  assert (forall e, matches (on_mem buf (overlay (a_es A) e o) a) Bs g) as Mm by (intros; by apply match_on_mem).
  assert (forall s, s ∈ a_sq A -> offer (a_es A) s a = offered s g /\ zlen (offered s g) = a_es A) as Hoff
    by (intros; by eapply match_offer).
  assert (forall s e, s ∈ a_sq A -> offer (a_es A) s (on_mem buf (overlay (a_es A) e o) a) = offered s g) as Hoff'.
  { intros s e Hs. by apply (match_offer _ _ _ ch A s (Mm e) I HA Hs). }
  rewrite (cs_closed _ _ _ _ HS), (cs_buf _ _ _ _ HS), Eq.
  destruct (a_buf A) as [|e bs] eqn:Eb, (a_sq A) as [|s sq] eqn:Es.
  - destruct (a_closed A); [|destruct (t =? 0)]; intros [= <- <-]; simpl; rewrite ?delete_id by done; eauto.
    eexists. split; [done|].
    apply (block_matches ch buf self t A G a Bs g o Mt HA HG HS Ho Hlen Hself Hsize CHAN_OP_RECV);
      [simpl; by destruct (a_cap A =? 0)|done|]. intros x B HB _. by apply (Hsep x).
  - destruct (Hoff s) as [Eo Hz]; [left|]. rewrite Eo. intros [= <- <-]. simpl. rewrite delete_id by done.
    erewrite received_message; [|exact Hz|apply lookup_insert_eq|done|simpl; by rewrite lookup_insert_eq].
    eexists. split; [done|]. eapply pass_sender; [apply Mm|done|exact HA|exact Es|done|done|].
    apply (chan_sim_queue Bs ch CHAN_OP_SEND A G sq); try done.
    + simpl. by rewrite (cs_buf _ _ _ _ HS), Eb.
    + intros [] ?; done.
  - apply Forall_cons in Hmsg as [He Hmsg]. intros [= <- <-]. simpl. rewrite delete_id by done.
    erewrite received_message; [|exact He|apply lookup_insert_eq|done|simpl; by rewrite lookup_insert_eq].
    eexists. split; [done|]. eapply match_on_chan; [apply Mm|exact HA|done|done|].
    specialize (Hcap ltac:(done)). pose proof (cs_slots _ _ _ _ HS Hcap) as [_ Hs]. rewrite Eb, zlen_cons in Hs.
    apply chan_sim_buf with G; try done; simpl; [lia|by rewrite (cs_buf _ _ _ _ HS), Eb].
  - apply Forall_cons in Hmsg as [He Hmsg]. rewrite Hoff' by left. intros [= <- <-]. simpl. rewrite delete_id by done.
    erewrite received_message; [|exact He|apply lookup_insert_eq|done|simpl; by rewrite lookup_insert_eq].
    eexists. split; [done|]. eapply pass_sender; [apply Mm|done|exact HA|exact Es|done|done|].
    specialize (Hcap ltac:(done)). pose proof (cs_slots _ _ _ _ HS Hcap) as [_ Hs]. rewrite Eb, zlen_cons in Hs.
    apply chan_sim_buf with (set_gq CHAN_OP_SEND sq G); try done; simpl.
    + apply (chan_sim_queue Bs ch CHAN_OP_SEND A G sq); try done. intros [] ?; done.
    + rewrite zlen_app. unfold zlen in *. simpl. lia.
    + apply Forall_app. split; [done|]. apply Forall_singleton. apply Hoff. left.
    + by rewrite (cs_buf _ _ _ _ HS), Eb.
Qed.
End receives.

(** ** Closing *)

Lemma match_refuse_all l a Bs g :
  matches a Bs g -> NoDup l -> (forall x, x ∈ l -> exists T, g_threads g !! x = Some T /\ gt_status T = Waiting) ->
  matches (finish_all CHAN_ERR_CLOSED l a) Bs (refuse_all l g).
Proof.
  revert a g. induction l as [|x l IH]; intros a g Mt Hn Hw; simpl; [done|].
  apply NoDup_cons in Hn as [Hx Hn]. destruct (Hw x ltac:(left)) as (T & HT & HW).
  destruct (match_thread _ _ _ Mt _ _ HT) as (B & w & v & es & cap & b & HB & TS).
  apply IH; [|done|].
  - eapply (match_finish _ _ _ Mt x B T); try done. by right.
  - intros y Hy. destruct (Hw y) as (T' & ? & ?); [by right|]. exists T'. simpl. by rewrite lookup_alter_ne by congruence.
Qed.

Lemma close_waiters_quiescent A a :
  quiescent A -> close_waiters A a = finish_all CHAN_ERR_CLOSED (a_sq A ++ a_rq A) a /\
    closed_chan A = set_a_rq [] (set_a_sq [] (set_a_closed true A)).
Proof.
  intros [Hr _ _ _ _]. unfold close_waiters, closed_chan, finish_all. rewrite foldl_app.
  destruct (a_rq A) as [|x l] eqn:E.
  - rewrite drop_nil, deliver_nil_r. simpl. split; [done|]. by destruct A.
  - destruct Hr as [Eb _]; [done|]. rewrite Eb. simpl. split; [done|]. destruct A; simpl in *; by subst.
Qed.

Lemma close_matches ch A G a Bs g :
  ginv g -> matches a Bs g -> a_chan a !! ch = Some A -> g_chans g !! ch = Some G -> chan_sim Bs ch A G ->
  a_closed A = false -> exists g', gclose ch G g = (ClosedWith ch CHAN_OK, g') /\
    matches (on_chan ch (closed_chan A) (close_waiters A a)) Bs g'.
Proof.
  intros I Mt HA HG HS Hcl. unfold gclose. rewrite (cs_closed _ _ _ _ HS), Hcl. eexists. split; [done|].
  destruct (close_waiters_quiescent A a (match_quiescent _ _ _ Mt I _ _ HA)) as [-> ->].
  pose proof (cs_q _ _ _ _ HS CHAN_OP_SEND) as E1. pose proof (cs_q _ _ _ _ HS CHAN_OP_RECV) as E2. simpl in E1, E2.
  rewrite <- finish_all_on_chan, <- E1, <- E2. pose proof (gi_link _ I) as L.
  apply match_refuse_all.
  - apply match_on_chan with A; try done. by destruct HS; split.
  - apply NoDup_app. split; [by apply (gl_nodup _ L _ _ CHAN_OP_SEND HG)|].
    split; [|by apply (gl_nodup _ L _ _ CHAN_OP_RECV HG)]. intros x Hx Hx'.
    destruct (gk_recv _ (gi_chan _ I _ _ HG)) as [_ E]; [by intros E; rewrite E in Hx'; set_solver|].
    rewrite E in Hx. set_solver.
  - intros x [Hx|Hx]%elem_of_app.
    + apply (gl_q _ L _ _ CHAN_OP_SEND _ HG) in Hx as (T & HT & _ & _ & HW). eauto.
    + apply (gl_q _ L _ _ CHAN_OP_RECV _ HG) in Hx as (T & HT & _ & _ & HW). eauto.
Qed.

(** ** Resuming *)

(** A blocked thread is in no queue but its own, and there only while it waits. *)
Lemma match_only_in a Bs g x B :
  matches a Bs g -> ginv g -> Bs !! x = Some B -> only_in (b_ch B) (b_op B) a x.
Proof.
  intros Mt I HB p A op HA Hx.
  destruct (match_queued _ _ _ Mt I _ _ _ _ HA Hx) as (B' & T & w & b & HB' & _ & _ & [<- <-] & _).
  by assert (B' = B) as -> by congruence.
Qed.

Lemma match_in_queue a Bs g x B T w v es cap b A :
  matches a Bs g -> ginv g -> Bs !! x = Some B -> g_threads g !! x = Some T -> thr_sim a x B T w v es cap b ->
  a_chan a !! b_ch B = Some A -> x ∈ aq (b_op B) A <-> gt_status T = Waiting.
Proof.
  intros Mt I HB HT TS HA. destruct (match_chan _ _ _ Mt _ _ HA) as (G & HG & S).
  rewrite <- (cs_q _ _ _ _ S), (gl_q _ (gi_link _ I) _ _ _ _ HG). split.
  - intros (T' & HT' & _ & _ & ?). by assert (T' = T) as <- by congruence.
  - intros HW. exists T. rewrite (ts_ch _ _ _ _ _ _ _ _ _ TS), (ts_op _ _ _ _ _ _ _ _ _ TS). done.
Qed.

(** What a resumed call does; the unbuffered paths do not look whether they were
    still queued when they time out. *)
Definition resumed_spec (ch : ptr) (op : chan_op_t) (x : ptr) (woken unbuffered : bool) (w : chan_waiter) (A : achan) (a : aheap)
  : flow chan_err_t * aheap :=
  if unbuffered && negb woken
  then (Done CHAN_ERR_TIMEOUT, leave ch op x (set_aq op (filter (.≠ x) (aq op A)) A) a)
  else woken_spec ch op x woken w A a.

Lemma resume_awp ch op x woken unbuffered w A a (Q : flow chan_err_t -> aheap -> Prop) :
  a_chan a !! ch = Some A -> a_locked A = false -> a_wait a !! x = Some w -> only_in ch op a x ->
  (woken = true -> x ∉ aq op A) ->
  (let (r, a') := resumed_spec ch op x woken unbuffered w A a in Q r a') ->
  awp (resume op unbuffered ch x woken) a Q.
Proof.
  intros HA HL Hw Ho Hwk HQ. destruct op, unbuffered, woken; simpl in *.
  1, 2: by apply (send_woken_unbuffered_awp ch x A a w).
  1, 2: by apply (send_woken_buffered_awp ch x A a w).
  1, 2: by apply (recv_woken_unbuffered_awp ch x A a w).
  1, 2: by apply (recv_woken_buffered_awp ch x A a w).
Qed.

Section resuming.
Context (a : aheap) (Bs : gmap ptr blocked) (g : gsys) (x : ptr) (B : blocked) (T : gthread) (w : chan_waiter) (v : Z).
Context (b : list byte) (A : achan) (G : gchan).
Hypothesis I : ginv g.
Hypothesis Mt : matches a Bs g.
Hypothesis HB : Bs !! x = Some B.
Hypothesis HT : g_threads g !! x = Some T.
Hypothesis HA : a_chan a !! b_ch B = Some A.
Hypothesis TS : thr_sim a x B T w v (a_es A) (a_cap A) b.
Hypothesis HG : g_chans g !! b_ch B = Some G.
Hypothesis HS : chan_sim Bs (b_ch B) A G.
Hypothesis Hsize : Z.of_nat (size Bs) < 2147483648.

(** A settled call answers with its result and, if it succeeded, its message. *)
Lemma answer_matches f a' :
  gt_status T <> Waiting -> (Done (w_result w), leave (b_ch B) (b_op B) x A a) = (f, a') ->
  after x (b_ch B) (b_op B) (b_buf B) f a' Bs = (answer T, delete x Bs) /\ matches a' (delete x Bs) (drop_thread x g).
Proof using Mt HB HA TS HG HS Hsize.
  intros HW [= <- <-]. split; [|by apply match_leave with G].
  destruct TS as [W D K S C P F Ch O TM Me L Ms V St]. unfold after, answer, settled in *. rewrite Ch, O.
  destruct (gt_status T); [done| |]; destruct St as [-> ->]; simpl; [|done].
  unfold aheld. simpl. rewrite lookup_insert_eq, Me, Ms by (by right). by destruct (b_op B).
Qed.

Lemma waiting_queued : x ∈ aq (b_op B) A <-> gt_status T = Waiting.
Proof using I Mt HB HT HA TS. by eapply match_in_queue. Qed.

Lemma wake_matches f a' :
  v <> 0 -> woken_spec (b_ch B) (b_op B) x true w A a = (f, a') ->
  exists g', gstep (GWake x) g = Some (answer T, g') /\
    after x (b_ch B) (b_op B) (b_buf B) f a' Bs = (answer T, delete x Bs) /\ matches a' (delete x Bs) g'.
Proof using Mt HB HT HA TS HG HS Hsize.
  intros Hv Hsp. assert (gt_status T <> Waiting) as HW.
  { intros HW. pose proof (ts_status _ _ _ _ _ _ _ _ _ TS) as St. unfold settled in St. by rewrite HW in St. }
  destruct (answer_matches f a' HW Hsp) as [Ha Hm]. exists (drop_thread x g). simpl. rewrite HT. simpl.
  by rewrite decide_False.
Qed.

(** The thread takes itself out of its queue and leaves. *)
Lemma give_up_matches :
  let l := filter (.≠ x) (aq (b_op B) A) in
  matches (leave (b_ch B) (b_op B) x (set_aq (b_op B) l A) a) (delete x Bs)
    (drop_thread x (on_gchan (b_ch B) (set_gq (b_op B) l G) g)).
Proof using Mt HB HA HG HS Hsize.
  intros l. assert (chan_sim Bs (b_ch B) (set_aq (b_op B) l A) (set_gq (b_op B) l G)) as S'.
  { apply chan_sim_queue with G; try done; [by destruct (b_op B)..|apply gq_set_same|]. intros. by apply gq_set_ne. }
  assert (matches (on_chan (b_ch B) (set_aq (b_op B) l A) a) Bs (on_gchan (b_ch B) (set_gq (b_op B) l G) g)) as M1.
  { apply match_on_chan with A; [done|done|by destruct (b_op B)..|done]. }
  pose proof (match_leave _ _ _ M1 x B _ _ HB ltac:(apply lookup_insert_eq) ltac:(apply lookup_insert_eq) S' Hsize) as M2.
  unfold leave in *. by rewrite drop_park_chan, drop_wait_chan, on_chan_twice in M2.
Qed.

Lemma expire_matches f a' :
  0 < b_timeout B -> resumed_spec (b_ch B) (b_op B) x false (a_cap A =? 0) w A a = (f, a') ->
  exists r g', gstep (GExpire x) g = Some (r, g') /\
    after x (b_ch B) (b_op B) (b_buf B) f a' Bs = (r, delete x Bs) /\ matches a' (delete x Bs) g'.
Proof using I Mt HB HT HA TS HG HS Hsize.
  intros Ht Hsp. pose proof (ts_ch _ _ _ _ _ _ _ _ _ TS) as Ech. pose proof (ts_op _ _ _ _ _ _ _ _ _ TS) as Eop.
  simpl. rewrite HT. simpl. rewrite Ech, HG. simpl.
  rewrite (ts_timed _ _ _ _ _ _ _ _ _ TS), (proj2 (Z.ltb_lt _ _) Ht). unfold gexpire.
  assert (g_room G =? 0 = (a_cap A =? 0)) as Er.
  { rewrite (cs_room _ _ _ _ HS). unfold room. destruct (Z.eqb_spec (a_cap A) 0); [done|].
    apply Z.eqb_neq. pose proof (cs_slots _ _ _ _ HS). lia. }
  pose proof waiting_queued as Hq. unfold resumed_spec, woken_spec in Hsp. rewrite andb_true_r in Hsp.
  destruct (decide (gt_status T = Waiting)) as [HW|HW].
  - rewrite bool_decide_eq_true_2 in Hsp by (by apply Hq).
    assert ((Done CHAN_ERR_TIMEOUT, leave (b_ch B) (b_op B) x (set_aq (b_op B) (filter (.≠ x) (aq (b_op B) A)) A) a) = (f, a')) as E
      by (by destruct (a_cap A =? 0)).
    injection E as <- <-. rewrite HW, Ech, Eop, (cs_q _ _ _ _ HS). eexists _, _. split; [done|].
    split; [unfold timed_out; simpl; by rewrite Ech, Eop|]. apply give_up_matches.
  - rewrite bool_decide_eq_false_2 in Hsp by (by rewrite Hq). rewrite Er.
    destruct (a_cap A =? 0).
    + rewrite filter_notin in Hsp by (by rewrite Hq).
      replace (set_aq (b_op B) (aq (b_op B) A) A) with A in Hsp by (by destruct (b_op B), A).
      injection Hsp as <- <-. exists (timed_out T), (drop_thread x g).
      split; [by destruct (gt_status T)|]. split; [unfold timed_out; simpl; by rewrite Ech, Eop|]. by apply match_leave with G.
    + destruct (answer_matches f a' HW Hsp) as [Ha Hm]. exists (answer T), (drop_thread x g).
      split; [by destruct (gt_status T)|]. done.
Qed.
End resuming.

(** ** One step *)

(** The memory after a step of the code is represented and matched. *)
Lemma sim_next l s g r h Bs a g' :
  ginv g -> gfresh (abs_label l s) g = true -> gstep (abs_label l s) g = Some (r, g') ->
  repr h a -> matches a Bs g' -> Z.of_nat (size Bs) < 2147483648 -> sim (mk_sys h Bs) g'.
Proof. intros I Hf Hs R Mt Hz. split; [by eapply gstep_inv|]. split; [done|]. by exists a. Qed.

Definition follows (l : label) (s : sys) (g : gsys) (o : res (reply * sys)) : Prop :=
  exists r s' g', o = Ret (r, s') /\ gstep (abs_label l s) g = Some (r, g') /\ sim s' g'.

Lemma size_insert_lt x (B : blocked) (Bs : gmap ptr blocked) :
  Bs !! x = None -> Z.of_nat (size Bs) < 2147483647 -> Z.of_nat (size (<[x := B]> Bs)) < 2147483648.
Proof. intros Hx. rewrite map_size_insert_None by done. lia. Qed.
Lemma size_delete_lt x (Bs : gmap ptr blocked) :
  Z.of_nat (size Bs) < 2147483648 -> Z.of_nat (size (delete x Bs)) < 2147483648.
Proof. intros. rewrite map_size_delete. destruct (Bs !! x); unfold id; lia. Qed.

Lemma size_after self ch op buf f a (Bs : gmap ptr blocked) :
  Bs !! self = None -> Z.of_nat (size Bs) < 2147483647 ->
  Z.of_nat (size (after self ch op buf f a Bs).2) < 2147483648.
Proof. intros Hx Hz. destruct f; simpl; [apply size_delete_lt; lia|by apply size_insert_lt]. Qed.

Lemma send_follows ch data t self s g :
  sim s g -> legal (Send ch data t self) s = true ->
  follows (Send ch data t self) s g (ran self ch CHAN_OP_SEND data (chan_send_impl ch data t self (s_heap s)) s).
Proof.
  intros (I & Hz & a & R & Mt) [Hl Hsep%bool_decide_eq_true]%andb_true_iff.
  destruct (legal_call _ _ _ _ _ _ _ eq_refl R Mt Hl)
    as (A & G & b & HA & HG & HS & Hsp & Hch & Hb & Hlen & Hbuf & Hself & Hwait & Hgself & Hnull & Hsize & Hheld).
  pose proof (match_chan_ok _ _ _ Mt I _ _ HA) as Hok. pose proof (match_quiescent _ _ _ Mt I _ _ HA) as Hqu.
  pose proof (chan_send_awp ch data self t A a b HA Hok Hb Hlen Hwait Hnull
    (fun r a' => send_spec ch data t self (message (a_es A) b) A a = (r, a')) Hch Hbuf Hsp Hqu) as H.
  destruct (send_spec ch data t self _ A a) as [f a'] eqn:Espec.
  destruct (awp_run _ _ _ _ (H eq_refl) R) as (f1 & h' & a1 & Erun & R' & [= <- <-]). clear H.
  rewrite Erun, (ran_after _ _ _ _ _ _ _ _ R').
  assert (forall x B, s_blocked s !! x = Some B -> b_op B = CHAN_OP_RECV -> b_buf B <> data) as Hsep'.
  { intros x B HB Hop. destruct (Hsep x B HB); congruence. }
  pose proof (send_matches ch data self t A G a (s_blocked s) g b I Mt HA HG HS Hb Hlen Hself Hsize f a' Hsep' Espec) as Hm.
  pose proof (size_after self ch CHAN_OP_SEND data f a' _ Hself Hsize) as Hz'.
  destruct (after _ _ _ _ _ _ _) as [r Bs']. destruct Hm as (g' & Hg & Mt'). rewrite <- Hheld in Hg.
  assert (gstep (abs_label (Send ch data t self) s) g = Some (r, g')) as Hs by (simpl; by rewrite HG, <- Hg).
  exists r, (mk_sys h' Bs'), g'. split; [done|]. split; [done|].
  apply (sim_next (Send ch data t self) s g r h' Bs' a' g' I (bool_decide_eq_true_2 _ Hgself) Hs); done.
Qed.

Lemma recv_follows ch out t self s g :
  sim s g -> legal (Recv ch out t self) s = true ->
  follows (Recv ch out t self) s g (ran self ch CHAN_OP_RECV out (chan_recv_impl ch out t self (s_heap s)) s).
Proof.
  intros (I & Hz & a & R & Mt) [Hl Hsep%bool_decide_eq_true]%andb_true_iff.
  destruct (legal_call _ _ _ _ _ _ _ eq_refl R Mt Hl)
    as (A & G & b & HA & HG & HS & Hsp & Hch & Hb & Hlen & Hbuf & Hself & Hwait & Hgself & Hnull & Hsize & Hheld).
  pose proof (match_chan_ok _ _ _ Mt I _ _ HA) as Hok. pose proof (match_quiescent _ _ _ Mt I _ _ HA) as Hqu.
  pose proof (chan_recv_awp ch out self t A a b HA Hok Hb Hlen Hwait Hnull
    (fun r a' => recv_spec ch out t self b A a = (r, a')) Hch Hbuf Hsp Hqu) as H.
  destruct (recv_spec ch out t self b A a) as [f a'] eqn:Espec.
  destruct (awp_run _ _ _ _ (H eq_refl) R) as (f1 & h' & a1 & Erun & R' & [= <- <-]). clear H.
  rewrite Erun, (ran_after _ _ _ _ _ _ _ _ R').
  pose proof (recv_matches ch out self t A G a (s_blocked s) g b I Mt HA HG HS Hb Hlen Hself Hsize Hsep f a' Espec) as Hm.
  pose proof (size_after self ch CHAN_OP_RECV out f a' _ Hself Hsize) as Hz'.
  destruct (after _ _ _ _ _ _ _) as [r Bs']. destruct Hm as (g' & Hg & Mt').
  assert (gstep (abs_label (Recv ch out t self) s) g = Some (r, g')) as Hs by (simpl; by rewrite HG, <- Hg).
  exists r, (mk_sys h' Bs'), g'. split; [done|]. split; [done|].
  apply (sim_next (Recv ch out t self) s g r h' Bs' a' g' I (bool_decide_eq_true_2 _ Hgself) Hs); done.
Qed.

Lemma close_follows ch s g :
  sim s g -> legal (Close ch) s = true ->
  follows (Close ch) s g (let! (e, h) := chan_close ch (s_heap s) in Ret (ClosedWith ch e, mk_sys h (s_blocked s))).
Proof.
  intros (I & Hz & a & R & Mt) Hl. simpl in Hl. unfold usable in Hl.
  destruct (h_chan (s_heap s) !! ch) as [c|] eqn:Hc; [|done].
  apply andb_true_iff in Hl as [_ Hch%negb_true_iff%Z.eqb_neq].
  destruct (repr_chan _ _ _ _ R Hc) as (A & HA & _ & _). destruct (match_chan _ _ _ Mt _ _ HA) as (G & HG & HS).
  destruct (awp_run _ _ _ _ (chan_close_awp ch A a (fun r a' => (if a_closed A then (CHAN_ERR_CLOSED, a)
    else (CHAN_OK, on_chan ch (closed_chan A) (close_waiters A a))) = (r, a')) Hch HA
    (match_chan_ok _ _ _ Mt I _ _ HA) ltac:(by destruct (a_closed A))) R) as (e & h' & a' & Erun & R' & E).
  rewrite Erun. simpl.
  assert (exists g', gclose ch G g = (ClosedWith ch e, g') /\ matches a' (s_blocked s) g') as (g' & Hg & Mt').
  { destruct (a_closed A) eqn:Ecl; injection E as <- <-.
    - exists g. unfold gclose. by rewrite (cs_closed _ _ _ _ HS), Ecl.
    - by apply close_matches. }
  assert (gstep (abs_label (Close ch) s) g = Some (ClosedWith ch e, g')) as Hs by (simpl; by rewrite HG, <- Hg).
  exists (ClosedWith ch e), (mk_sys h' (s_blocked s)), g'. split; [done|]. split; [done|].
  by apply (sim_next (Close ch) s g _ h' _ a' g' I eq_refl Hs).
Qed.

Lemma resumed_after x B a' h f s woken :
  b_k B woken (s_heap s) = Ret (f, h) -> repr h a' ->
  resumed x B woken s = let (r, Bs) := after x (b_ch B) (b_op B) (b_buf B) f a' (s_blocked s) in Ret (r, mk_sys h Bs).
Proof. intros E R. unfold resumed. rewrite E. by apply ran_after. Qed.

(** The match at a blocked thread. *)
Lemma match_resume a s g x B :
  matches a (s_blocked s) g -> s_blocked s !! x = Some B ->
  exists A G T w v b, a_chan a !! b_ch B = Some A /\ g_chans g !! b_ch B = Some G /\ chan_sim (s_blocked s) (b_ch B) A G /\
    g_threads g !! x = Some T /\ thr_sim a x B T w v (a_es A) (a_cap A) b.
Proof.
  intros Mt HB. destruct (match_blocked _ _ _ Mt _ _ HB) as (T & w & v & es & cap & b & HT & TS).
  destruct (ts_chan _ _ _ _ _ _ _ _ _ TS) as (A & HA & <- & <-).
  destruct (match_chan _ _ _ Mt _ _ HA) as (G & HG & HS). eauto 15.
Qed.

Lemma wake_follows x s g o :
  sim s g -> sys_step (Wake x) s = Some o -> follows (Wake x) s g o.
Proof.
  intros (I & Hz & a & R & Mt) Ho. simpl in Ho. destruct (s_blocked s !! x) as [B|] eqn:HB; [|done]. simpl in Ho.
  destruct (match_resume _ _ _ _ _ Mt HB) as (A & G & T & w & v & b & HA & HG & HS & HT & TS).
  rewrite <- (r_park _ _ R), (ts_park _ _ _ _ _ _ _ _ _ TS), (ts_word _ _ _ _ _ _ _ _ _ TS) in Ho.
  destruct (Z.eqb_spec v 0) as [|Hv]; [done|]. injection Ho as <-.
  assert (x ∉ aq (b_op B) A) as Hq.
  { rewrite (waiting_queued a (s_blocked s) g x B T w v b A I Mt HB HT HA TS). intros HW.
    pose proof (ts_status _ _ _ _ _ _ _ _ _ TS) as St. unfold settled in St. by rewrite HW in St. }
  pose proof (resume_awp (b_ch B) (b_op B) x true (a_cap A =? 0) w A a
    (fun f a' => woken_spec (b_ch B) (b_op B) x true w A a = (f, a')) HA (cs_unlocked _ _ _ _ HS)
    (ts_wait _ _ _ _ _ _ _ _ _ TS) (match_only_in _ _ _ _ _ Mt I HB) ltac:(done)) as H.
  unfold resumed_spec in H. rewrite andb_false_r in H. destruct (woken_spec _ _ _ _ _ _ _) as [f a'] eqn:Esp.
  destruct (awp_run _ _ _ _ (H eq_refl) R) as (f1 & h' & a1 & Erun & R' & [= <- <-]). clear H.
  rewrite <- (ts_k _ _ _ _ _ _ _ _ _ TS) in Erun.
  destruct (wake_matches a (s_blocked s) g x B T w v b A G Mt HB HT HA TS HG HS Hz f a' Hv Esp) as (g' & Hs & Ea & Mt').
  rewrite (resumed_after _ _ a' _ _ _ _ Erun R'), Ea. exists (answer T), (mk_sys h' (delete x (s_blocked s))), g'.
  split; [done|]. split; [exact Hs|].
  apply (sim_next (Wake x) s g _ h' _ a' g' I eq_refl Hs R' Mt'). by apply size_delete_lt.
Qed.

Lemma expire_follows x s g o :
  sim s g -> sys_step (Expire x) s = Some o -> follows (Expire x) s g o.
Proof.
  intros (I & Hz & a & R & Mt) Ho. simpl in Ho. destruct (s_blocked s !! x) as [B|] eqn:HB; [|done]. simpl in Ho.
  destruct (match_resume _ _ _ _ _ Mt HB) as (A & G & T & w & v & b & HA & HG & HS & HT & TS).
  destruct (Z.ltb_spec 0 (b_timeout B)) as [Ht|]; [|done]. injection Ho as <-.
  pose proof (resume_awp (b_ch B) (b_op B) x false (a_cap A =? 0) w A a
    (fun f a' => resumed_spec (b_ch B) (b_op B) x false (a_cap A =? 0) w A a = (f, a')) HA (cs_unlocked _ _ _ _ HS)
    (ts_wait _ _ _ _ _ _ _ _ _ TS) (match_only_in _ _ _ _ _ Mt I HB) ltac:(done)) as H.
  destruct (resumed_spec _ _ _ _ _ _ _ _) as [f a'] eqn:Esp.
  destruct (awp_run _ _ _ _ (H eq_refl) R) as (f1 & h' & a1 & Erun & R' & [= <- <-]). clear H.
  rewrite <- (ts_k _ _ _ _ _ _ _ _ _ TS) in Erun.
  destruct (expire_matches a (s_blocked s) g x B T w v b A G I Mt HB HT HA TS HG HS Hz f a' Ht Esp) as (r & g' & Hs & Ea & Mt').
  rewrite (resumed_after _ _ a' _ _ _ _ Erun R'), Ea. exists r, (mk_sys h' (delete x (s_blocked s))), g'.
  split; [done|]. split; [exact Hs|].
  apply (sim_next (Expire x) s g _ h' _ a' g' I eq_refl Hs R' Mt'). by apply size_delete_lt.
Qed.

(** Every step of the code is a step of the specification with the same answer. *)
Lemma step_follows l s g o :
  sim s g -> legal l s = true -> sys_step l s = Some o -> follows l s g o.
Proof.
  intros Hs Hl Ho. destruct l as [ch data t self|ch out t self|ch|x|x].
  - injection Ho as <-. by apply send_follows.
  - injection Ho as <-. by apply recv_follows.
  - injection Ho as <-. by apply close_follows.
  - by apply wake_follows.
  - by apply expire_follows.
Qed.


Lemma legal_fresh l s g : sim s g -> legal l s = true -> gfresh (abs_label l s) g = true.
Proof.
  intros (I & Hz & a & R & Mt) Hl. destruct l as [ch data t self|ch out t self|ch|x|x]; try done;
    apply andb_true_iff in Hl as [Hl _]; destruct (legal_call _ _ _ _ _ _ _ eq_refl R Mt Hl)
      as (A & G & b & _ & _ & _ & _ & _ & _ & _ & _ & _ & _ & Hg & _); by apply bool_decide_eq_true_2.
Qed.

(** ** Histories *)

(** [s] is reached from [s0] by steps that are [ok] and answered [rs]. *)
Inductive sys_reach (ok : label -> sys -> bool) (s0 : sys) : list reply -> sys -> Prop :=
| reach_init : sys_reach ok s0 [] s0
| reach_step rs s l r s' :
    sys_reach ok s0 rs s -> ok l s = true -> sys_step l s = Some (Ret (r, s')) -> sys_reach ok s0 (rs ++ [r]) s'.

(** Legal, and no thread calls a side of [ch] on which another is blocked. *)
Definition legal_alone (ch : ptr) (l : label) (s : sys) : bool :=
  legal l s &&
  match l with
  | Send c _ _ _ => negb (c =? ch) || (count ch CHAN_OP_SEND (s_blocked s) =? 0)
  | Recv c _ _ _ => negb (c =? ch) || (count ch CHAN_OP_RECV (s_blocked s) =? 0)
  | _ => true
  end.

(** A memory with new channels and nobody blocked. *)
Record started (a : aheap) (s : sys) : Prop := {
  st_repr : repr (s_heap s) a;
  st_wait : a_wait a = ∅;
  st_blocked : s_blocked s = ∅;
  st_chan : forall ch A, a_chan a !! ch = Some A -> ch <> NULL /\
    exists es cap spsc slots, A = new_achan es cap spsc slots /\ 0 < es /\ 0 <= cap /\ (0 < cap -> 0 < slots)
}.

Definition spec_of (a : aheap) : gsys :=
  mk_gsys ((fun A => mk_gchan (room A) [] [] [] false [] []) <$> a_chan a) ∅.

Lemma started_sim a s : started a s -> sim s (spec_of a).
Proof.
  intros [R Hw Hb Hc]. split; [|split; [by rewrite Hb|]].
  - split.
    + intros ch G. simpl. rewrite lookup_fmap. destruct (a_chan a !! ch) as [A|] eqn:HA; simpl; [|done]. intros [= <-].
      destruct (Hc _ _ HA) as (_ & es & cap & sp & sl & -> & ? & ? & ?). split; simpl; try done.
      unfold room, zlen. simpl. destruct (Z.eqb_spec cap 0); lia.
    + split.
      * intros ch G op x. simpl. rewrite lookup_fmap. destruct (a_chan a !! ch); simpl; [|done]. intros [= <-].
        unfold waiting. setoid_rewrite lookup_empty. split; [destruct op; simpl; set_solver|by intros (? & ? & _)].
      * intros ch G op. simpl. rewrite lookup_fmap. destruct (a_chan a !! ch); simpl; [|done]. intros [= <-].
        destruct op; simpl; apply NoDup_nil_2.
      * intros x T. simpl. by rewrite lookup_empty.
  - exists a. split; [done|]. rewrite Hb. split.
    + intros ch. simpl. rewrite lookup_fmap. destruct (a_chan a !! ch) as [A|] eqn:HA; simpl; constructor.
      destruct (Hc _ _ HA) as (? & es & cap & sp & sl & -> & ? & ? & ?). split; simpl; try done.
      * intros. split; [lia|]. unfold zlen. simpl. lia.
    + intros x. simpl. rewrite !lookup_empty. simpl. by rewrite Hw, lookup_empty.
    + intros x y B B'. by rewrite lookup_empty.
Qed.

(** The specification runs along, answering the same. *)
Lemma reach_sim a0 s0 rs s :
  started a0 s0 -> sys_reach legal s0 rs s -> exists ls g, gruns ls (spec_of a0) = Some (rs, g) /\ sim s g.
Proof.
  intros H0 Hr. induction Hr as [|rs s l r s' Hr (ls & g & Hg & Hs) Hl Ho].
  - exists [], (spec_of a0). split; [done|]. by apply started_sim.
  - destruct (step_follows l s g _ Hs Hl Ho) as (r1 & s1 & g' & [= <- <-] & Hg' & Hs').
    exists (ls ++ [abs_label l s]), g'. split; [|done]. by eapply gruns_snoc.
Qed.

Lemma reach_accounted a0 s0 rs s ch A0 :
  started a0 s0 -> sys_reach legal s0 rs s -> a_chan a0 !! ch = Some A0 -> 0 < room A0 ->
  exists g G, sim s g /\ g_chans g !! ch = Some G /\ g_room G = room A0 /\ accounted ch rs g G.
Proof.
  intros H0 Hr HA Hroom. induction Hr as [|rs s l r s' Hr (g & G & Hs & HG & Er & Hacc) Hl Ho].
  - exists (spec_of a0), (mk_gchan (room A0) [] [] [] false [] []). split; [by apply started_sim|]. simpl.
    by rewrite lookup_fmap, HA.
  - destruct (step_follows l s g _ Hs Hl Ho) as (r1 & s1 & g' & [= <- <-] & Hg' & Hs').
    destruct (gstep_moves ch _ _ _ _ (proj1 Hs) (legal_fresh _ _ _ Hs Hl) Hg' G HG ltac:(lia)) as (G' & i & o & HG' & Hm).
    exists g', G'. split; [done|]. split; [done|]. split; [by rewrite (mv_room _ _ _ _ _ _ _ _ Hm)|].
    by eapply moved_accounted.
Qed.

Lemma count_gcount a Bs g ch op : matches a Bs g -> count ch op Bs = Z.of_nat (gcount ch op (g_threads g)).
Proof.
  intros Mt. unfold count, gcount. f_equal. rewrite <- !size_dom. f_equal. apply set_eq. intros x.
  rewrite !elem_of_dom. split.
  - intros [B [HB [E1 E2]]%map_lookup_filter_Some].
    destruct (match_blocked _ _ _ Mt _ _ HB) as (T & w & v & es & cap & b & HT & TS).
    exists T. apply map_lookup_filter_Some. simpl. split; [done|].
    by rewrite (ts_ch _ _ _ _ _ _ _ _ _ TS), (ts_op _ _ _ _ _ _ _ _ _ TS).
  - intros [T [HT [E1 E2]]%map_lookup_filter_Some]. simpl in *.
    destruct (match_thread _ _ _ Mt _ _ HT) as (B & w & v & es & cap & b & HB & TS).
    exists B. apply map_lookup_filter_Some. split; [done|]. split; simpl;
      [rewrite <- (ts_ch _ _ _ _ _ _ _ _ _ TS)|rewrite <- (ts_op _ _ _ _ _ _ _ _ _ TS)]; done.
Qed.

Lemma legal_alone_galone ch l s g :
  sim s g -> legal_alone ch l s = true -> legal l s = true /\ forall op, galone ch op (abs_label l s) g.
Proof.
  intros (_ & _ & a & _ & Mt) [Hl Hc]%andb_true_iff. split; [done|]. intros op.
  destruct l as [c data t self|c out t self|c|x|x]; simpl; try done; intros -> ->;
    apply orb_true_iff in Hc as [Hc%negb_true_iff%Z.eqb_neq|Hc%Z.eqb_eq]; try done;
    rewrite (count_gcount _ _ _ _ _ Mt) in Hc; lia.
Qed.

Lemma reach_in_order a0 s0 rs s ch A0 :
  started a0 s0 -> sys_reach (legal_alone ch) s0 rs s -> a_chan a0 !! ch = Some A0 -> 0 < room A0 ->
  exists g G, sim s g /\ g_chans g !! ch = Some G /\ 0 < g_room G /\ in_order ch rs g G /\
    forall op, (gcount ch op (g_threads g) <= 1)%nat.
Proof.
  intros H0 Hr HA Hroom. induction Hr as [|rs s l r s' Hr (g & G & Hs & HG & Er & Hord & Hc) Hl Ho].
  - exists (spec_of a0), (mk_gchan (room A0) [] [] [] false [] []). split; [by apply started_sim|]. simpl.
    rewrite lookup_fmap, HA. split; [done|]. split; [done|]. split; [done|]. intros op. unfold gcount. rewrite map_filter_empty, map_size_empty. lia.
  - destruct (legal_alone_galone _ _ _ _ Hs Hl) as [Hl' Ha]. pose proof (legal_fresh _ _ _ Hs Hl') as Hf.
    destruct (step_follows l s g _ Hs Hl' Ho) as (r1 & s1 & g' & [= <- <-] & Hg' & Hs').
    destruct (gstep_moves ch _ _ _ _ (proj1 Hs) Hf Hg' G HG Er) as (G' & i & o & HG' & Hm).
    exists g', G'. split; [done|]. split; [done|]. split; [by rewrite (mv_room _ _ _ _ _ _ _ _ Hm)|].
    split; [by eapply moved_in_order|]. intros op. pose proof (gstep_alone ch op _ g r g' Hf (Ha op) (Hc op) Hg'). lia.
Qed.

Lemma asleep_passed a s g ch op :
  repr (s_heap s) a -> matches a (s_blocked s) g ->
  (forall x B, s_blocked s !! x = Some B -> h_park (s_heap s) !! b_park B = Some 0) ->
  passed_msgs ch op (g_threads g) = [].
Proof.
  intros R Mt Hasleep. apply elem_of_nil_inv. intros m (T & Hm & HT)%list_elem_of_bind.
  apply list_elem_of_fmap in HT as ([x T'] & -> & HT%elem_of_map_to_list). simpl in Hm.
  destruct (match_thread _ _ _ Mt _ _ HT) as (B & w & v & e & c & b & HB & TS).
  specialize (Hasleep x B HB). rewrite <- (r_park _ _ R), (ts_park _ _ _ _ _ _ _ _ _ TS), (ts_word _ _ _ _ _ _ _ _ _ TS) in Hasleep.
  rewrite passed_msg_none in Hm; [by apply elem_of_nil in Hm|]. left. intros HP.
  pose proof (ts_status _ _ _ _ _ _ _ _ _ TS) as St. unfold settled in St. rewrite HP in St. destruct St. congruence.
Qed.

Lemma started_room a0 s0 ch A0 : started a0 s0 -> a_chan a0 !! ch = Some A0 -> 0 < a_cap A0 -> 0 < room A0.
Proof.
  intros H0 HA0 Hcap. destruct (st_chan _ _ H0 _ _ HA0) as (_ & es & cap & sp & sl & E & _ & _ & Hsl).
  subst A0. unfold room. simpl in *. rewrite (proj2 (Z.eqb_neq cap 0)) by lia. auto.
Qed.

(** ** A concrete history

    Executing a schedule. *)
Fixpoint sys_run (ok : label -> sys -> bool) (ls : list label) (s : sys) : option (list reply * sys) :=
  match ls with
  | [] => Some ([], s)
  | l :: ls =>
      if ok l s then
        match sys_step l s with
        | Some (Ret (r, s)) => '(rs, s) ← sys_run ok ls s; Some (r :: rs, s)
        | _ => None
        end
      else None
  end.

Lemma sys_run_reach ok ls s0 rs0 s rs s' :
  sys_reach ok s0 rs0 s -> sys_run ok ls s = Some (rs, s') -> sys_reach ok s0 (rs0 ++ rs) s'.
Proof.
  revert rs0 s rs. induction ls as [|l ls IH]; intros rs0 s rs Hr; simpl.
  - intros [= <- <-]. by rewrite app_nil_r.
  - destruct (ok l s) eqn:Hok; [|done]. destruct (sys_step l s) as [[[r s1]| |]|] eqn:Hs; try done.
    destruct (sys_run ok ls s1) as [[rs1 s2]|] eqn:E; [|done]. simpl. intros [= <- <-].
    replace (rs0 ++ r :: rs1) with ((rs0 ++ [r]) ++ rs1) by (by rewrite <- app_assoc).
    eapply IH; [|done]. by eapply reach_step.
Qed.



(** A one-place channel at 100, messages at 200 and 201, a buffer at 202. *)
Definition sys_ex : sys :=
  mk_sys (mk_heap {[100 := mk_chan 1 1 false false (mk_ring 0 0 0 0 0 0 0 1 1 (Some [x00])) 0 0
                            (mk_waitq NULL NULL) (mk_waitq NULL NULL) false 1]}
            ∅ ∅ ∅ (<[200 := [x41]]> (<[201 := [x42]]> {[202 := [x00]]})) []) ∅.
Definition aheap_sys : aheap :=
  mk_aheap {[100 := new_achan 1 1 false 1]} ∅ ∅ ∅ (h_mem (s_heap sys_ex)).

(** The second send blocks; the receive admits it. *)
Definition block_ex : list label := [Send 100 200 (-1) 300; Send 100 201 1000 301].
Definition hist_ex : list label :=
  [Send 100 200 (-1) 300; Send 100 201 1000 301; Recv 100 202 (-1) 302; Wake 301; Recv 100 202 0 302].


Lemma sys_ex_started : started aheap_sys sys_ex.
Proof.
  split; try done.
  - split; try done; simpl.
    + apply map_Forall2_insert_2; [|apply map_Forall2_empty]. split; [done| |intros []; apply queue_rep_nil].
      split; [|done]. exists [x00], 0. constructor; try done.
      constructor; try done. by exists 0.
    + intros p p' A A' op op' x (<- & <-)%lookup_singleton_Some _ Hx. destruct op; simpl in Hx; by apply elem_of_nil in Hx.
  - intros ch A HA. simpl in HA. apply lookup_singleton_Some in HA as [<- <-]. split; [done|]. exists 1, 1, false, 1. done.
Qed.

Lemma run_some ok ls s (P : list reply -> sys -> bool) :
  match sys_run ok ls s with Some (rs, s') => P rs s' | None => false end = true ->
  exists rs s', sys_run ok ls s = Some (rs, s') /\ P rs s' = true.
Proof. destruct (sys_run ok ls s) as [[rs s']|]; [eauto|done]. Qed.

(** ** Theorems *)



(** C2: No wake-up is lost: whenever a thread is blocked, either its park is set and
    its call returns as soon as it is resumed, or it is queued and could not be
    served: a receiver faces an empty buffer and no sender, a sender a full
    buffer and no receiver, and the channel is open. *)
Theorem no_lost_wakeup a0 s0 rs s x B (H0 : started a0 s0) (Hr : sys_reach legal s0 rs s)
    (HB : s_blocked s !! x = Some B) :
  (exists e m s', sys_step (Wake x) s = Some (Ret (Returned (b_ch B) (b_op B) e m, s'))) \/
  (h_park (s_heap s) !! b_park B = Some 0 /\
   exists a A, repr (s_heap s) a /\ a_chan a !! b_ch B = Some A /\ x ∈ aq (b_op B) A /\ a_closed A = false /\
     match b_op B with
     | CHAN_OP_RECV => a_buf A = [] /\ a_sq A = []
     | CHAN_OP_SEND => room A <= zlen (a_buf A) /\ a_rq A = []
     end).
Proof.
  destruct (reach_sim _ _ _ _ H0 Hr) as (ls & g & _ & Hs). pose proof Hs as (I & Hz & a & R & Mt).
  destruct (match_resume _ _ _ _ _ Mt HB) as (A & G & T & w & v & b & HA & HG & HS & HT & TS).
  assert (h_park (s_heap s) !! b_park B = Some v) as Hp
    by (rewrite <- (r_park _ _ R), (ts_park _ _ _ _ _ _ _ _ _ TS); apply TS).
  destruct (decide (gt_status T = Waiting)) as [HW|HW].
  - right. pose proof (ts_status _ _ _ _ _ _ _ _ _ TS) as St. unfold settled in St. rewrite HW in St. subst v.
    split; [done|]. exists a, A. split; [done|]. split; [done|].
    assert (x ∈ aq (b_op B) A) as Hx by (by eapply match_in_queue). split; [done|].
    pose proof (match_quiescent _ _ _ Mt I _ _ HA) as [Hrq Hsq Hcl _ _].
    apply elem_of_not_nil in Hx as Hne.
    split; [destruct (a_closed A); [|done]; by destruct (Hcl eq_refl), (b_op B)|].
    destruct (b_op B); simpl in Hne; [|by apply Hrq].
    split; [|destruct (a_rq A); [done|]; by destruct Hrq].
    unfold room. destruct (Z.eqb_spec (a_cap A) 0); [apply zlen_nonneg|by apply Hsq].
  - left. assert (v <> 0) as Hv.
    { pose proof (ts_status _ _ _ _ _ _ _ _ _ TS) as St. unfold settled in St. by destruct (gt_status T); [|lia..]. }
    assert (exists o, sys_step (Wake x) s = Some o) as [o Ho].
    { simpl. rewrite HB. simpl. rewrite Hp, (proj2 (Z.eqb_neq _ _) Hv). eauto. }
    destruct (step_follows (Wake x) s g o Hs eq_refl Ho) as (r & s' & g' & -> & Hg & _).
    simpl in Hg. rewrite HT in Hg. simpl in Hg. rewrite decide_False in Hg by done. injection Hg as <- <-.
    unfold answer in Ho. rewrite (ts_ch _ _ _ _ _ _ _ _ _ TS), (ts_op _ _ _ _ _ _ _ _ _ TS) in Ho.
    destruct (gt_status T); eauto.
Qed.

(** The second sender of the example sleeps, and rightly so. *)
Lemma no_lost_wakeup_witness :
  exists rs s B, sys_run legal block_ex sys_ex = Some (rs, s) /\ s_blocked s !! 301 = Some B /\
  ((exists e m s', sys_step (Wake 301) s = Some (Ret (Returned (b_ch B) (b_op B) e m, s'))) \/
  (h_park (s_heap s) !! b_park B = Some 0 /\
   exists a A, repr (s_heap s) a /\ a_chan a !! b_ch B = Some A /\ 301 ∈ aq (b_op B) A /\ a_closed A = false /\
     match b_op B with
     | CHAN_OP_RECV => a_buf A = [] /\ a_sq A = []
     | CHAN_OP_SEND => room A <= zlen (a_buf A) /\ a_rq A = []
     end)).
Proof.
  destruct (run_some legal block_ex sys_ex (fun _ s => match s_blocked s !! 301 with Some _ => true | None => false end))
    as (rs & s & E & HB); [vm_compute; reflexivity|].
  destruct (s_blocked s !! 301) as [B|] eqn:EB; [|discriminate]. exists rs, s, B. split; [exact E|]. split; [exact EB|].
  apply (no_lost_wakeup aheap_sys sys_ex rs s 301 B sys_ex_started); [|exact EB].
  exact (sys_run_reach _ _ _ [] _ _ _ (reach_init _ _) E).
Defined.

(** C4: Messages are neither lost nor duplicated by a buffered channel: whenever no
    blocked thread has been woken without having resumed yet, the messages whose
    sends answered CHAN_OK are those whose receives answered CHAN_OK and those in
    the buffer, each as many times. *)
Theorem messages_conserved a0 s0 rs s ch A0 (H0 : started a0 s0) (Hr : sys_reach legal s0 rs s)
    (HA0 : a_chan a0 !! ch = Some A0) (Hcap : 0 < a_cap A0)
    (Hasleep : forall x B, s_blocked s !! x = Some B -> h_park (s_heap s) !! b_park B = Some 0) :
  exists a A, repr (s_heap s) a /\ a_chan a !! ch = Some A /\
    done_msgs ch CHAN_OP_SEND rs ≡ₚ done_msgs ch CHAN_OP_RECV rs ++ a_buf A.
Proof.
  pose proof (started_room _ _ _ _ H0 HA0 Hcap) as Hroom.
  destruct (reach_accounted _ _ _ _ _ _ H0 Hr HA0 Hroom) as (g & G & (I & Hz & a & R & Mt) & HG & _ & Hi & Ho).
  destruct (match_gchan _ _ _ Mt _ _ HG) as (A & HA & HS).
  rewrite !(asleep_passed a s g ch _ R Mt Hasleep), !app_nil_r in *.
  exists a, A. split; [done|]. split; [done|]. rewrite <- (cs_buf _ _ _ _ HS), <- Hi, <- Ho.
  by rewrite (gk_fifo _ (gi_chan _ I _ _ HG)).
Qed.

Lemma messages_conserved_witness :
  exists rs s, sys_run legal hist_ex sys_ex = Some (rs, s) /\ exists a A, repr (s_heap s) a /\ a_chan a !! 100 = Some A /\
    done_msgs 100 CHAN_OP_SEND rs ≡ₚ done_msgs 100 CHAN_OP_RECV rs ++ a_buf A.
Proof.
  destruct (run_some legal hist_ex sys_ex (fun _ s => (size (s_blocked s) =? 0)%nat)) as (rs & s & E & Hb%Nat.eqb_eq%map_size_empty_inv);
    [vm_compute; reflexivity|].
  exists rs, s. split; [exact E|].
  apply (messages_conserved aheap_sys sys_ex rs s 100 (new_achan 1 1 false 1) sys_ex_started);
    [exact (sys_run_reach _ _ _ [] _ _ _ (reach_init _ _) E)|reflexivity|reflexivity|].
  intros x B. by rewrite Hb, lookup_empty.
Defined.

(** C3: First in, first out: when one thread at a time sends on a buffered channel
    and one at a time receives from it, the receives answer with exactly the
    messages of the sends, in their order, and the rest is the buffer. *)
Theorem fifo_order a0 s0 rs s ch A0 (H0 : started a0 s0) (Hr : sys_reach (legal_alone ch) s0 rs s)
    (HA0 : a_chan a0 !! ch = Some A0) (Hcap : 0 < a_cap A0)
    (Hasleep : forall x B, s_blocked s !! x = Some B -> h_park (s_heap s) !! b_park B = Some 0) :
  exists a A, repr (s_heap s) a /\ a_chan a !! ch = Some A /\
    done_msgs ch CHAN_OP_SEND rs = done_msgs ch CHAN_OP_RECV rs ++ a_buf A.
Proof.
  pose proof (started_room _ _ _ _ H0 HA0 Hcap) as Hroom.
  destruct (reach_in_order _ _ _ _ _ _ H0 Hr HA0 Hroom) as (g & G & (I & Hz & a & R & Mt) & HG & _ & [Hi Ho] & _).
  destruct (match_gchan _ _ _ Mt _ _ HG) as (A & HA & HS).
  rewrite !(asleep_passed a s g ch _ R Mt Hasleep), !app_nil_r in *.
  exists a, A. split; [done|]. split; [done|]. rewrite <- (cs_buf _ _ _ _ HS), <- Hi, <- Ho.
  by rewrite (gk_fifo _ (gi_chan _ I _ _ HG)).
Qed.

Lemma fifo_order_witness :
  exists rs s, sys_run (legal_alone 100) hist_ex sys_ex = Some (rs, s) /\ exists a A, repr (s_heap s) a /\ a_chan a !! 100 = Some A /\
    done_msgs 100 CHAN_OP_SEND rs = done_msgs 100 CHAN_OP_RECV rs ++ a_buf A.
Proof.
  destruct (run_some (legal_alone 100) hist_ex sys_ex (fun _ s => (size (s_blocked s) =? 0)%nat)) as (rs & s & E & Hb%Nat.eqb_eq%map_size_empty_inv);
    [vm_compute; reflexivity|].
  exists rs, s. split; [exact E|].
  apply (fifo_order aheap_sys sys_ex rs s 100 (new_achan 1 1 false 1) sys_ex_started);
    [exact (sys_run_reach _ _ _ [] _ _ _ (reach_init _ _) E)|reflexivity|reflexivity|].
  intros x B. by rewrite Hb, lookup_empty.
Defined.
