(* ===== verification/Select.v ===== *)
(** * Select: [src/select.c]

    The lock order, the lock-free attempt, the locked attempt and the blocking
    wait of [chan_select_impl].  The array of cases is passed along and its
    [result] members are updated in place; the two thread-local variables are a
    record of their own. *)

From S2P Require Import Prelude RingLf Heap WaitQ Abs Chan ChanSend.
From Stdlib Require Import Sorting.Sorted.
From stdpp Require Import list.
#[local] Open Scope Z_scope.

(** [chan_select_case_t] *)
Record select_case := mk_case { c_ch : ptr; c_op : chan_op_t; c_data : ptr; c_result : chan_err_t }.
Definition set_c_result e c := mk_case (c_ch c) (c_op c) (c_data c) e.

(** The thread-local [rr] and [rng_state]. *)
Record tls := mk_tls { rr : Z; rng_state : Z }.

(** [cases[i].result = e] *)
Definition set_result (i : nat) (e : chan_err_t) (cases : list select_case) : list select_case :=
  alter (set_c_result e) i cases.

(** ** Lock ordering *)

Section order.
Context (addr : nat -> Z).   (* (uintptr_t)cases[i].ch *)

(** The inner loop: shift the larger entries one place up, from [j] down, and
    put [key] in the gap. *)
Fixpoint insert_key (order : list nat) (key j : nat) : list nat :=
  match j with
  | O => <[O := key]> order
  | S j' =>
      let x := order !!! j' in
      if addr x >? addr key then insert_key (<[j := x]> order) key j' else <[j := key]> order
  end.

Definition sort_order (n : nat) : list nat :=
  foldl (fun order i => insert_key order (order !!! i) i) (seq 0 n) (seq 1 (n - 1)).

Definition sort_order_2 : list nat :=
  if addr 0 <=? addr 1 then [0; 1]%nat else [1; 0]%nat.
End order.

Definition case_addr (cases : list select_case) (i : nat) : Z :=
  match cases !! i with Some c => c_ch c | None => 0 end.

(** The channels in lock order. *)
Definition ordered_channels (cases : list select_case) (order : list nat) : list ptr :=
  case_addr cases <$> order.

(** [for i: if (i > 0 && ch[i] == ch[i-1]) continue; f(ch[i])] *)
Fixpoint each_once (f : ptr -> M unit) (prev : option ptr) (chs : list ptr) : M unit :=
  match chs with
  | [] => mret tt
  | ch :: chs =>
      (if bool_decide (prev = Some ch) then mret tt else f ch);;
      each_once f (Some ch) chs
  end.

Definition lock_all (order : list nat) (cases : list select_case) : M unit :=
  each_once chan_lock None (ordered_channels cases order).
Definition unlock_all (order : list nat) (cases : list select_case) : M unit :=
  each_once chan_unlock None (ordered_channels cases order).

(** ** Readiness and execution, locks held *)

Definition case_ready (c : select_case) : M bool :=
  let ch := c_ch c in
  match c_op c with
  | CHAN_OP_SEND =>
      cl ← field closed ch;
      if (cl : bool) then mret false
      else
        cap ← field ch_capacity ch;
        if cap =? 0 then e ← waitq_empty (ch, CHAN_OP_RECV); mret (negb e)
        else
          full ← chan_ring_full ch;
          if negb full then mret true
          else e ← waitq_empty (ch, CHAN_OP_RECV); mret (negb e)
  | CHAN_OP_RECV =>
      cap ← field ch_capacity ch;
      if cap =? 0 then
        e ← waitq_empty (ch, CHAN_OP_SEND);
        if negb e then mret true else field closed ch
      else
        empty ← chan_ring_empty ch;
        if negb empty then mret true
        else
          e ← waitq_empty (ch, CHAN_OP_SEND);
          if negb e then mret true else field closed ch
  end.

(** [memcpy] from one side to the other, [result = CHAN_OK], wake. *)
Definition hand_over (ch dst src w : ptr) : M unit :=
  es ← field ch_elem_size ch; mem_copy dst src es;; complete w CHAN_OK.

Definition execute_send (ch data : ptr) : M chan_err_t :=
  cap ← field ch_capacity ch;
  if cap =? 0 then
    r ← waitq_pop_receiver ch;
    if r =? NULL then mret CHAN_ERR_WOULDBLOCK
    else d ← wfield w_data r; hand_over ch d data r;; mret CHAN_OK
  else
    none ← waitq_empty (ch, CHAN_OP_RECV); empty ← chan_ring_empty ch;
    r ← (if negb none && empty then waitq_pop_receiver ch else mret NULL);
    if negb (r =? NULL) then d ← wfield w_data r; hand_over ch d data r;; mret CHAN_OK
    else
      _ ← ring_push ch data;
      r ← waitq_pop_receiver ch;
      (if negb (r =? NULL) then complete r CHAN_OK else mret tt);;
      mret CHAN_OK.

Definition execute_recv (ch data : ptr) : M chan_err_t :=
  let from_sender :=
    s ← waitq_pop_sender ch;
    if negb (s =? NULL) then d ← wfield w_data s; hand_over ch data d s;; mret CHAN_OK
    else cl ← field closed ch; mret (if (cl : bool) then CHAN_ERR_CLOSED else CHAN_ERR_WOULDBLOCK) in
  cap ← field ch_capacity ch;
  if cap =? 0 then from_sender
  else
    empty ← chan_ring_empty ch;
    if negb empty then
      _ ← ring_pop ch data;
      s ← waitq_pop_sender ch;
      (if negb (s =? NULL) then
         d ← wfield w_data s; _ ← ring_push ch d; complete s CHAN_OK
       else mret tt);;
      mret CHAN_OK
    else from_sender.

Definition execute_case_locked (c : select_case) : M chan_err_t :=
  match c_op c with
  | CHAN_OP_SEND => execute_send (c_ch c) (c_data c)
  | CHAN_OP_RECV => execute_recv (c_ch c) (c_data c)
  end.

(** ** The lock-free attempt *)

(** Step 1: a receive case on a drained closed channel; [i] is the index of the
    first case of [cs]. *)
Fixpoint select_closed (i : nat) (cs : list select_case) : M (option nat) :=
  match cs with
  | [] => mret None
  | c :: cs =>
      match c_op c with
      | CHAN_OP_SEND => select_closed (S i) cs
      | CHAN_OP_RECV =>
          cl ← field closed (c_ch c);
          if negb cl then select_closed (S i) cs
          else
            sc ← field send_waiter_cnt (c_ch c);
            if negb (sc =? 0) then select_closed (S i) cs
            else
              rc ← field recv_waiter_cnt (c_ch c);
              if negb (rc =? 0) then select_closed (S i) cs
              else
                empty ← chan_ring_empty (c_ch c);
                if negb empty then select_closed (S i) cs else mret (Some i)
      end
  end.

(** Step 2 tries the cases of [idxs] in turn. *)
Fixpoint select_ring (idxs : list nat) (cases : list select_case) : M (option (nat * chan_err_t)) :=
  match idxs with
  | [] => mret None
  | i :: idxs =>
      c ← lift (deref (cases !! i));
      cap ← field ch_capacity (c_ch c);
      if cap =? 0 then select_ring idxs cases
      else
        sc ← field send_waiter_cnt (c_ch c);
        if negb (sc =? 0) then select_ring idxs cases
        else
          rc ← field recv_waiter_cnt (c_ch c);
          if negb (rc =? 0) then select_ring idxs cases
          else match c_op c with
          | CHAN_OP_SEND =>
              cl ← field closed (c_ch c);
              if (cl : bool) then mret (Some (i, CHAN_ERR_CLOSED))
              else
                ok ← ring_push (c_ch c) (c_data c);
                if (ok : bool) then mret (Some (i, CHAN_OK)) else select_ring idxs cases
          | CHAN_OP_RECV =>
              ok ← ring_pop (c_ch c) (c_data c);
              if (ok : bool) then mret (Some (i, CHAN_OK)) else select_ring idxs cases
          end
  end.

(** [(start + j) % n] for [j = 0 .. n-1], in [size_t] arithmetic. *)
Definition rotation (start : Z) (n : nat) : list nat :=
  (fun j : nat => Z.to_nat (u64 (start + Z.of_nat j) mod Z.of_nat n)) <$> seq 0 n.

Definition chan_select_fast (cases : list select_case) (t : tls)
  : M (option nat * list select_case * tls) :=
  c ← select_closed 0 cases;
  match c with
  | Some i => mret (Some i, set_result i CHAN_ERR_CLOSED cases, t)
  | None =>
      let n := length cases in
      let start := rr t mod Z.of_nat n in
      let t := mk_tls (u64 (rr t + 1)) (rng_state t) in
      w ← select_ring (rotation start n) cases;
      match w with
      | Some (i, e) => mret (Some i, set_result i e cases, t)
      | None => mret (None, cases, t)
      end
  end.

(** ** The random choice *)

(** xorshift32 *)
Definition xorshift32 (x : Z) : Z :=
  let x := Z.lxor x (u32 (Z.shiftl x 13)) in
  let x := Z.lxor x (Z.shiftr x 17) in
  Z.lxor x (u32 (Z.shiftl x 5)).

Definition next_rng (self_id : Z) (t : tls) : tls :=
  let s := if rng_state t =? 0 then Z.lor (u32 self_id) 1 else rng_state t in
  mk_tls (rr t) (xorshift32 s).

(** ** The slow path *)

Definition SEL_INLINE : nat := 16.

(** The indices of the ready cases, in order. *)
Fixpoint collect_ready (i : nat) (cs : list select_case) : M (list nat) :=
  match cs with
  | [] => mret []
  | c :: cs =>
      r ← case_ready c; idxs ← collect_ready (S i) cs;
      mret (if (r : bool) then i :: idxs else idxs)
  end.

(** The addresses of the locals of one call: the shared state, the shared park,
    the array of stubs; and what [malloc] answers for [order], [ready] and
    [stubs] when there are more than [SEL_INLINE] cases. *)
Record sel_frame := mk_frame {
  f_state : ptr;
  f_park : ptr;
  f_stub : nat -> ptr;
  f_malloc_order : bool;
  f_malloc_ready : bool;
  f_malloc_stubs : bool
}.

Fixpoint register_stubs (f : sel_frame) (i : nat) (cs : list select_case) : M unit :=
  match cs with
  | [] => mret tt
  | c :: cs =>
      new_waiter (f_stub f i)
        (mk_waiter NULL (c_data c) (c_op c) CHAN_ERR_WOULDBLOCK (Z.of_nat i) (f_park f) (f_state f));;
      waitq_push (c_ch c, c_op c) (f_stub f i);;
      register_stubs f (S i) cs
  end.

(** The scan after the wait: the last case whose stub has a result wins, the
    other stubs leave their queues. *)
Fixpoint collect_stubs (f : sel_frame) (i : nat) (cs : list select_case) (winner : option (nat * chan_err_t))
  : M (option (nat * chan_err_t) * list select_case) :=
  match cs with
  | [] => mret (winner, [])
  | c :: cs =>
      res ← wfield w_result (f_stub f i);
      if negb (bool_decide (res = CHAN_ERR_WOULDBLOCK)) then
        '(w, cs) ← collect_stubs f (S i) cs (Some (i, res));
        mret (w, set_c_result res c :: cs)
      else
        _ ← waitq_remove (c_ch c, c_op c) (f_stub f i);
        '(w, cs) ← collect_stubs f (S i) cs winner;
        mret (w, c :: cs)
  end.

Fixpoint end_frames (f : sel_frame) (idxs : list nat) : M unit :=
  match idxs with [] => mret tt | i :: idxs => end_frame (f_stub f i);; end_frames f idxs end.

(** [_Atomic int shared_state] coming to life and going. *)
Definition init_state (p : ptr) : M unit := fun h =>
  Ret (tt, set_h_state (<[p := WAITER_WAITING]> (h_state h)) h).
Definition end_state (p : ptr) : M unit := fun h => Ret (tt, set_h_state (delete p (h_state h)) h).

Definition select_woken (f : sel_frame) (order : list nat) (cases : list select_case) (t : tls) (woken : bool)
  : M (flow (Z * list select_case * tls)) :=
  lock_all order cases;;
  '(winner, cases) ← collect_stubs f 0 cases None;
  unlock_all order cases;;
  waiter_destroy (f_park f);;
  end_frames f (seq 0 (length cases));;
  end_state (f_state f);;
  match winner with
  | Some (w, _) =>
      if (woken : bool) then mret (Done (Z.of_nat w, cases, t))
      else mret (Done (-1, set_c_result CHAN_ERR_TIMEOUT <$> cases, t))
  | None => mret (Done (-1, set_c_result CHAN_ERR_TIMEOUT <$> cases, t))
  end.

(** [cases] is NULL or the array; [self_id] is [pthread_self()]. *)
Definition chan_select_impl (f : sel_frame) (self_id : Z) (cases : option (list select_case)) (timeout_ns : Z) (t : tls)
  : M (flow (Z * list select_case * tls)) :=
  match cases with
  | None | Some [] => mret (Done (-1, default [] cases, t))
  | Some cases =>
      '(fast, cases, t) ← chan_select_fast cases t;
      match fast with
      | Some i => mret (Done (Z.of_nat i, cases, t))
      | None =>
          let n := length cases in
          let large := (SEL_INLINE <? n)%nat in
          if large && negb (f_malloc_order f) then mret (Done (-1, cases, t))
          else
            let order := if (n =? 2)%nat then sort_order_2 (case_addr cases) else sort_order (case_addr cases) n in
            lock_all order cases;;
            ready ← collect_ready 0 cases;
            match ready with
            | i0 :: others =>
                if large && negb (f_malloc_ready f) then undef
                else
                  let t := if (0 <? length others)%nat then next_rng self_id t else t in
                  winner ← (if (0 <? length others)%nat
                            then lift (deref (ready !! Z.to_nat (rng_state t mod zlen ready)))
                            else mret i0);
                  c ← lift (deref (cases !! winner));
                  e ← execute_case_locked c;
                  unlock_all order cases;;
                  mret (Done (Z.of_nat winner, set_result winner e cases, t))
            | [] =>
                if timeout_ns =? 0 then
                  unlock_all order cases;;
                  mret (Done (-1, set_c_result CHAN_ERR_WOULDBLOCK <$> cases, t))
                else
                  init_state (f_state f);;
                  chan_park_init (f_park f);;
                  if large && negb (f_malloc_stubs f) then undef
                  else
                    register_stubs f 0 cases;;
                    unlock_all order cases;;
                    mret (Park (f_park f) timeout_ns (select_woken f order cases t))
            end
      end
  end.

Definition chan_select f self_id cases t := chan_select_impl f self_id cases (-1) t.
Definition chan_select_try f self_id cases t := chan_select_impl f self_id cases 0 t.
Definition chan_select_timeout f self_id cases timeout_ns t := chan_select_impl f self_id cases timeout_ns t.

(** ** The lock order *)

Section order_facts.
Context (addr : nat -> Z).
Implicit Types l p : list nat.

Definition ascending l : Prop := StronglySorted (fun x y => addr x <= addr y) l.

Lemma ascending_app l p :
  ascending (l ++ p) <-> ascending l /\ ascending p /\ forall x y, x ∈ l -> y ∈ p -> addr x <= addr y.
Proof.
  unfold ascending. induction l as [|z l IH]; simpl.
  - split; [|by intros (_ & ? & _)]. intros. split; [constructor|]. split; [done|]. intros ? ? Hx. set_solver.
  - split.
    + intros [Hs Hz]%StronglySorted_inv. apply IH in Hs as (Hl & Hp & Hxy). rewrite Forall_app in Hz.
      destruct Hz as [Hz1 Hz2]. split; [by constructor|]. split; [done|].
      intros x y [->|Hx]%elem_of_cons Hy; [|by auto]. rewrite Forall_forall in Hz2. auto.
    + intros ([Hs Hz]%StronglySorted_inv & Hp & Hxy). constructor.
      * apply IH. split; [done|]. split; [done|]. intros x y Hx. apply Hxy. by right.
      * apply Forall_app. split; [done|]. apply Forall_forall. intros y Hy. apply Hxy; [left|done].
Qed.

(** One round of the insertion: [key] lands between the entries that are not
    larger and those that are. *)
Lemma insert_key_split l key j :
  (j < length l)%nat -> ascending (take j l) ->
  exists p1 p2, take j l = p1 ++ p2 /\ insert_key addr l key j = p1 ++ key :: p2 ++ drop (S j) l /\
    (forall x, x ∈ p2 -> addr key < addr x) /\ (forall x, x ∈ p1 -> addr x <= addr key).
Proof.
  revert l. induction j as [|j IH]; intros l Hj Hs.
  - exists [], []. destruct l as [|y l]; simpl in *; [lia|].
    split; [done|]. split; [by rewrite drop_0|]. set_solver.
  - simpl. assert (j < length l)%nat as Hj' by lia. destruct (lookup_lt_is_Some_2 l j Hj') as [x Hx].
    rewrite (list_lookup_total_correct _ _ _ Hx). pose proof (take_S_r _ _ _ Hx) as Et.
    rewrite Et in Hs. apply ascending_app in Hs as (Hs & _ & Hle). case_test.
    + destruct (IH (<[S j := x]> l)) as (p1 & p2 & Ep & Ei & Hp2 & Hp1).
      { by rewrite length_insert. }
      { by rewrite take_insert_ge by lia. }
      rewrite take_insert_ge in Ep by lia.
      exists p1, (p2 ++ [x]). split; [by rewrite Et, Ep, app_assoc|]. split.
      * rewrite Ei. destruct (lookup_lt_is_Some_2 l (S j) Hj) as [z Hz].
        rewrite drop_S with (x := x) by (by apply list_lookup_insert_eq).
        rewrite drop_insert_lt by lia. by rewrite <- app_assoc.
      * split; [|done]. intros y [Hy| ->%list_elem_of_singleton]%elem_of_app; [by auto|lia].
    + exists (take (S j) l), []. split; [by rewrite app_nil_r|]. split.
      * by rewrite (insert_take_drop l (S j) key).
      * split; [set_solver|]. intros y. rewrite Et. intros [Hy| ->%list_elem_of_singleton]%elem_of_app; [|lia].
        specialize (Hle y x Hy ltac:(set_solver)). lia.
Qed.

Lemma insert_key_sorted l i :
  (i < length l)%nat -> ascending (take i l) ->
  insert_key addr l (l !!! i) i ≡ₚ l /\ ascending (take (S i) (insert_key addr l (l !!! i) i)) /\
  length (insert_key addr l (l !!! i) i) = length l.
Proof.
  intros Hi Hs. destruct (lookup_lt_is_Some_2 l i Hi) as [key Hk].
  rewrite (list_lookup_total_correct _ _ _ Hk).
  destruct (insert_key_split l key i Hi Hs) as (p1 & p2 & Et & -> & Hp2 & Hp1).
  assert (l = (p1 ++ p2) ++ key :: drop (S i) l) as El by (rewrite <- Et; symmetry; by apply take_drop_middle).
  assert (p1 ++ key :: p2 ++ drop (S i) l ≡ₚ l) as Hperm.
  { rewrite El at 2. rewrite <- app_assoc. apply Permutation_app_head. apply Permutation_middle. }
  split; [done|]. split; [|by rewrite Hperm].
  assert (length (p1 ++ p2) = i) as Elen by (rewrite <- Et, length_take; lia).
  replace (take (S i) _) with (p1 ++ key :: p2).
  - rewrite Et in Hs. apply ascending_app in Hs as (Hs1 & Hs2 & H12). apply ascending_app.
    split; [done|]. split.
    + constructor; [done|]. apply Forall_forall. intros x Hx. specialize (Hp2 x Hx). lia.
    + intros x y Hx [->|Hy]%elem_of_cons; [by apply Hp1|by apply H12].
  - replace (p1 ++ key :: p2 ++ drop (S i) l) with ((p1 ++ key :: p2) ++ drop (S i) l) by (by rewrite <- app_assoc).
    rewrite take_app_length'; [done|]. rewrite length_app in *. simpl. lia.
Qed.

Lemma sort_rounds l k m :
  (k + m <= length l)%nat -> (0 < k)%nat -> ascending (take k l) ->
  let l' := foldl (fun order i => insert_key addr order (order !!! i) i) l (seq k m) in
  l' ≡ₚ l /\ ascending (take (k + m) l').
Proof.
  revert l k. induction m as [|m IH]; intros l k Hk H0 Hs; simpl.
  - split; [done|]. by rewrite Nat.add_0_r.
  - destruct (insert_key_sorted l k ltac:(lia) Hs) as (Hp & Hs' & Hl).
    destruct (IH (insert_key addr l (l !!! k) k) (S k)) as [Hp' Hs'']; [lia|lia|done|].
    split; [by rewrite Hp'|].
    by replace (k + S m)%nat with (S k + m)%nat by lia.
Qed.

Lemma sort_order_ok n : sort_order addr n ≡ₚ seq 0 n /\ ascending (sort_order addr n).
Proof.
  unfold sort_order. destruct n as [|n]; [split; [done|constructor]|].
  destruct (sort_rounds (seq 0 (S n)) 1 (S n - 1)) as [Hp Hs].
  - rewrite length_seq. lia.
  - lia.
  - simpl. repeat constructor.
  - split; [done|]. rewrite take_ge in Hs; [done|]. rewrite Hp, length_seq. lia.
Qed.

Lemma sort_order_2_ok : sort_order_2 addr = sort_order addr 2.
Proof.
  unfold sort_order_2, sort_order. simpl. rewrite Z.gtb_ltb, Z.leb_antisym.
  by destruct (addr 1 <? addr 0).
Qed.
End order_facts.

(** ** Locking all channels of a select *)

Definition set_locks (b : bool) (chs : list ptr) (h : heap) : heap :=
  set_h_chan (foldl (fun m p => alter (set_ch_locked b) p m) (h_chan h) chs) h.

Definition lock_op (b : bool) : ptr -> M unit := if b then chan_lock else chan_unlock.

Lemma lock_op_step b ch c h :
  h_chan h !! ch = Some c -> ch_locked c = negb b -> lock_op b ch h = Ret (tt, set_locks b [ch] h).
Proof.
  intros Hc Hl. unfold set_locks. simpl. rewrite (alter_known _ _ _ _ Hc).
  destruct b; unfold lock_op, chan_lock, chan_unlock, mbind, M_bind, load_chan, modify_chan; rewrite Hc; simpl;
    rewrite Hl; simpl; rewrite ?Hc; done.
Qed.

Lemma set_locks_cons b ch chs h : set_locks b (ch :: chs) h = set_locks b chs (set_locks b [ch] h).
Proof. done. Qed.

Lemma set_locks_lookup b ch p h :
  h_chan (set_locks b [ch] h) !! p = if decide (p = ch) then set_ch_locked b <$> h_chan h !! p else h_chan h !! p.
Proof.
  unfold set_locks. simpl. case_decide as E; [subst; by rewrite lookup_alter_eq|by rewrite lookup_alter_ne].
Qed.

Lemma each_once_cons (f : ptr -> M unit) prev ch chs h h1 r :
  ((if bool_decide (prev = Some ch) then mret tt else f ch) : M unit) h = Ret (tt, h1) ->
  each_once f (Some ch) chs h1 = r -> each_once f prev (ch :: chs) h = r.
Proof. intros E <-. simpl. unfold mbind, M_bind. by rewrite E. Qed.

(** In ascending order, with repetitions next to each other, every channel is
    locked (or unlocked) exactly once and no lock is taken twice. *)
Lemma each_once_ok b (prev : option ptr) (chs : list ptr) h :
  StronglySorted Z.le chs -> (forall (p x : ptr), prev = Some p -> x ∈ chs -> p <= x) ->
  (forall x : ptr, x ∈ chs -> exists c, h_chan h !! x = Some c /\
     ch_locked c = if bool_decide (prev = Some x) then b else negb b) ->
  each_once (lock_op b) prev chs h = Ret (tt, set_locks b chs h).
Proof.
  revert prev h. induction chs as [|ch chs IH]; intros prev h Hs Hp Hl.
  { unfold set_locks. simpl. by destruct h. }
  apply StronglySorted_inv in Hs as [Hs Hle]. rewrite Forall_forall in Hle.
  assert (forall x, x ∈ chs -> x <> ch -> prev <> Some x) as Hne.
  { intros x Hx Hn ->. pose proof (Hle x Hx). pose proof (Hp x ch eq_refl ltac:(left)). lia. }
  destruct (Hl ch ltac:(left)) as (c & Hc & Hlc).
  rewrite set_locks_cons. apply (each_once_cons _ _ _ _ _ (set_locks b [ch] h)).
  { case_bool_decide as E; [|by eapply lock_op_step].
    unfold set_locks. simpl. rewrite (alter_known _ _ _ _ Hc).
    replace (set_ch_locked b c) with c by (destruct c; simpl in *; by subst).
    rewrite insert_id by done. by destruct h. }
  apply IH; [done|by intros p x [= <-]; apply Hle|].
  intros x Hx. rewrite set_locks_lookup. destruct (Hl x ltac:(by right)) as (cx & Hcx & Hlx).
  destruct (decide (x = ch)) as [->|Hn].
  - rewrite Hcx. eexists. split; [done|]. by rewrite bool_decide_eq_true_2.
  - exists cx. split; [done|]. rewrite bool_decide_eq_false_2 by congruence.
    by rewrite bool_decide_eq_false_2 in Hlx by auto.
Qed.

Lemma set_locks_all b chs h p :
  h_chan (set_locks b chs h) !! p = if decide (p ∈ chs) then set_ch_locked b <$> h_chan h !! p else h_chan h !! p.
Proof.
  revert h. induction chs as [|ch chs IH]; intros h; [done|].
  rewrite set_locks_cons, IH, set_locks_lookup. destruct (h_chan h !! p) as [c|] eqn:E.
  - repeat case_decide; simpl; try done; try (exfalso; set_solver).
  - repeat case_decide; done.
Qed.

Lemma set_locks_back chs h :
  (forall x c, x ∈ chs -> h_chan h !! x = Some c -> ch_locked c = false) ->
  set_locks false chs (set_locks true chs h) = h.
Proof.
  intros Hf. assert (h_chan (set_locks false chs (set_locks true chs h)) = h_chan h) as E.
  { apply map_eq. intros p. rewrite !set_locks_all. case_decide as Hp; [|done].
    destruct (h_chan h !! p) as [c|] eqn:Ec; [|done]. simpl. f_equal.
    specialize (Hf p c Hp Ec). destruct c; simpl in *. by subst. }
  unfold set_locks in *. simpl in *. rewrite E. by destruct h.
Qed.

(** The channels of the cases in lock order are ascending. *)
Lemma ordered_sorted cases order :
  ascending (case_addr cases) order -> StronglySorted Z.le (ordered_channels cases order).
Proof.
  unfold ascending, ordered_channels. induction 1 as [|x l Hs IH Hx]; [constructor|].
  simpl. constructor; [done|]. by apply Forall_fmap.
Qed.

Lemma ordered_elem cases order x :
  order ≡ₚ seq 0 (length cases) -> x ∈ ordered_channels cases order <-> exists c, c ∈ cases /\ c_ch c = x.
Proof.
  intros Hp. unfold ordered_channels, case_addr. rewrite list_elem_of_fmap. setoid_rewrite Hp.
  setoid_rewrite elem_of_seq. split.
  - intros (i & -> & Hi). destruct (lookup_lt_is_Some_2 cases i) as [c Hc]; [lia|].
    exists c. split; [by eapply list_elem_of_lookup_2|by rewrite Hc].
  - intros (c & [i Hi]%list_elem_of_lookup & <-). exists i. rewrite Hi. split; [done|].
    apply lookup_lt_Some in Hi. lia.
Qed.

(** The locks a select takes, one after the other. *)
Fixpoint acquisitions (prev : option ptr) (chs : list ptr) : list ptr :=
  match chs with
  | [] => []
  | ch :: chs =>
      if bool_decide (prev = Some ch) then acquisitions (Some ch) chs
      else ch :: acquisitions (Some ch) chs
  end.

Fixpoint in_turn (f : ptr -> M unit) (l : list ptr) : M unit :=
  match l with [] => mret tt | x :: l => f x;; in_turn f l end.

Definition lock_sequence (cases : list select_case) : list ptr :=
  acquisitions None (ordered_channels cases (sort_order (case_addr cases) (length cases))).

Lemma each_once_in_turn f prev chs h : each_once f prev chs h = in_turn f (acquisitions prev chs) h.
Proof.
  revert prev h. induction chs as [|ch chs IH]; intros prev h; [done|]. simpl.
  case_bool_decide; simpl; unfold mbind, M_bind; simpl.
  - apply IH.
  - destruct (f ch h) as [[[] h1]| |]; [apply IH|done..].
Qed.

Lemma acquisitions_elem prev chs x : x ∈ acquisitions prev chs -> x ∈ chs.
Proof.
  revert prev. induction chs as [|ch chs IH]; intros prev; simpl; [done|].
  case_bool_decide; [|rewrite elem_of_cons]; rewrite elem_of_cons; naive_solver.
Qed.

Lemma acquisitions_increasing (prev : option ptr) (chs : list ptr) :
  StronglySorted Z.le chs -> (forall (p x : ptr), prev = Some p -> x ∈ chs -> p <= x) ->
  StronglySorted Z.lt (acquisitions prev chs) /\ (forall p x, prev = Some p -> x ∈ acquisitions prev chs -> p < x).
Proof.
  revert prev. induction chs as [|ch chs IH]; intros prev Hs Hp; simpl; [split; [constructor|set_solver]|].
  apply StronglySorted_inv in Hs as [Hs Hle]. rewrite Forall_forall in Hle.
  destruct (IH (Some ch) Hs ltac:(by intros p x [= <-]; apply Hle)) as [IH1 IH2].
  case_bool_decide as E.
  - split; [done|]. intros p x Hpx. rewrite E in Hpx. by apply IH2.
  - split.
    + constructor; [done|]. apply Forall_forall. intros x. by apply IH2.
    + intros p x -> Hx. pose proof (Hp p ch eq_refl ltac:(left)).
      assert (p <> ch) by congruence. apply elem_of_cons in Hx as [->|Hx]; [lia|].
      specialize (IH2 ch x eq_refl Hx). lia.
Qed.

Lemma lock_sequence_increasing cases : StronglySorted Z.lt (lock_sequence cases).
Proof.
  apply acquisitions_increasing; [|done]. apply ordered_sorted, sort_order_ok.
Qed.

Lemma increasing_lookup l (i j : nat) x y :
  StronglySorted Z.lt l -> l !! i = Some x -> l !! j = Some y -> (i < j)%nat -> x < y.
Proof.
  intros Hs. revert i j. induction Hs as [|z l Hs IH Hz]; intros i j Hi Hj Hij; [done|].
  rewrite Forall_forall in Hz. destruct i, j; simpl in *; try lia.
  - simplify_eq. apply Hz. by eapply list_elem_of_lookup_2.
  - eapply IH; [done..|lia].
Qed.

(** Among threads of which some want a lock, one wants the highest. *)
Lemma highest {A} (want : A -> option ptr) (ts : list A) i t x :
  ts !! i = Some t -> want t = Some x ->
  exists i' t' x', ts !! i' = Some t' /\ want t' = Some x' /\
    forall j u y, ts !! j = Some u -> want u = Some y -> y <= x'.
Proof.
  revert i t x. induction ts as [|a ts IH]; intros i t x Hi Hw; [done|].
  assert ((forall j u y, ts !! j = Some u -> want u = Some y -> False) \/
    exists i' t' x', ts !! i' = Some t' /\ want t' = Some x' /\
      forall j u y, ts !! j = Some u -> want u = Some y -> y <= x') as Hts.
  { destruct (omap want ts) as [|z zs] eqn:E.
    - left. intros j u y Hj Hu. assert (y ∈ omap want ts) as Hin; [|rewrite E in Hin; by apply elem_of_nil in Hin].
      apply list_elem_of_omap. exists u. split; [by eapply list_elem_of_lookup_2|done].
    - right. assert (z ∈ omap want ts) as (u & [j Hj]%list_elem_of_lookup & Hu)%list_elem_of_omap by (rewrite E; left). eauto. }
  destruct (want a) as [xa|] eqn:Ha; destruct Hts as [Hno|(i' & t' & x' & Hi' & Hw' & Hmax)].
  - exists O, a, xa. split; [done|]. split; [done|]. intros [|j] u y Hu Hy; simpl in Hu; simplify_eq; [lia|].
    by destruct (Hno _ _ _ Hu Hy).
  - destruct (decide (xa <= x')).
    + exists (S i'), t', x'. split; [done|]. split; [done|]. intros [|j] u y Hu Hy; simpl in Hu; simplify_eq; [lia|by eapply Hmax].
    + exists O, a, xa. split; [done|]. split; [done|]. intros [|j] u y Hu Hy; simpl in Hu; simplify_eq; [lia|].
      pose proof (Hmax _ _ _ Hu Hy). lia.
  - exfalso. destruct i as [|i]; simpl in Hi; simplify_eq. by eapply Hno.
  - exists (S i'), t', x'. split; [done|]. split; [done|]. intros [|j] u y Hu Hy; simpl in Hu; simplify_eq. by eapply Hmax.
Qed.

(** ** Threads competing for the locks

    The calls on locks of one round of a select: those of [lock_all], then those
    of [unlock_all]; [true] locks.  Between the two a select takes no lock of a
    channel; it makes a round when called and, if it parks, another when it is
    resumed. *)
Definition lock_calls (cases : list select_case) : list (bool * ptr) :=
  (pair true <$> lock_sequence cases) ++ (pair false <$> lock_sequence cases).

(** Threads that still have to make these calls.  The step [i] is the next call of
    thread [i]; [None] when it has none left or has to wait for the mutex. *)
Definition lockers : Type := heap * list (list (bool * ptr)).
Definition lock_step (i : nat) (st : lockers) : option (res lockers) :=
  match st.2 !! i with
  | Some ((b, x) :: todo) =>
      match lock_op b x st.1 with
      | Ret (_, h) => Some (Ret (h, <[i := todo]> st.2))
      | Undef => Some Undef
      | Hang => None
      end
  | _ => None
  end.
Definition lock_reach : lockers -> lockers -> Prop := rtc (fun st st' => exists i, lock_step i st = Some (Ret st')).

(** The locks a thread holds and the calls it has left: it asks only for locks
    above those it holds, releases only what it holds, and ends with none. *)
Inductive rounds : list ptr -> list (bool * ptr) -> Prop :=
| rounds_end : rounds [] []
| rounds_lock held x todo : (forall y, y ∈ held -> y < x) -> rounds (held ++ [x]) todo -> rounds held ((true, x) :: todo)
| rounds_unlock held x todo : x ∉ held -> rounds held todo -> rounds (x :: held) ((false, x) :: todo).

Lemma rounds_release l todo : NoDup l -> rounds [] todo -> rounds l ((pair false <$> l) ++ todo).
Proof. intros Hn Ht. induction Hn as [|x l Hx Hn IH]; simpl; [done|]. by constructor. Qed.

Lemma sorted_lt_NoDup (l : list Z) : StronglySorted Z.lt l -> NoDup l.
Proof.
  induction 1 as [|x l Hs IH Hx]; constructor; [|done]. intros Hin. rewrite Forall_forall in Hx. specialize (Hx x Hin). lia.
Qed.

Lemma rounds_acquire l held todo :
  StronglySorted Z.lt (held ++ l) -> rounds (held ++ l) todo -> rounds held ((pair true <$> l) ++ todo).
Proof.
  revert held. induction l as [|x l IH]; intros held Hs Ht; simpl; [by rewrite app_nil_r in Ht|].
  constructor.
  - intros y Hy. apply list_elem_of_lookup in Hy as [i Hi]. eapply (increasing_lookup _ i (length held)); [done| | |].
    + by apply lookup_app_l_Some.
    + by rewrite lookup_app_r, Nat.sub_diag.
    + by eapply lookup_lt_Some.
  - apply IH; rewrite <- app_assoc; done.
Qed.

Lemma rounds_calls css : rounds [] (css ≫= lock_calls).
Proof.
  induction css as [|cs css IH]; simpl; [constructor|]. unfold lock_calls. rewrite <- app_assoc.
  pose proof (lock_sequence_increasing cs) as Hs. apply rounds_acquire; [done|]. simpl.
  apply rounds_release; [by apply sorted_lt_NoDup|done].
Qed.

(** Each lock that is held is held by exactly one of the threads. *)
Record locks_ok (held : list (list ptr)) (st : lockers) : Prop := {
  lo_rounds : Forall2 rounds held st.2;
  lo_live : forall i todo b x, st.2 !! i = Some todo -> (b, x) ∈ todo -> is_Some (h_chan st.1 !! x);
  lo_held : forall x c, h_chan st.1 !! x = Some c ->
    ch_locked c = true <-> exists i l, held !! i = Some l /\ x ∈ l;
  lo_once : forall i j l k x, held !! i = Some l -> held !! j = Some k -> x ∈ l -> x ∈ k -> i = j
}.

(** Thread [i] made a call on the lock [x]; it now holds [l'] instead of [l]. *)
Lemma locks_ok_move (b : bool) x i l l' todo held h todos :
  locks_ok held (h, todos) -> held !! i = Some l -> todos !! i = Some ((b, x) :: todo) -> rounds l' todo ->
  (forall y, y ∈ l' <-> if decide (y = x) then b = true else y ∈ l) ->
  (forall j k, j <> i -> held !! j = Some k -> x ∉ k) ->
  locks_ok (<[i := l']> held) (set_locks b [x] h, <[i := todo]> todos).
Proof.
  intros [Hr Hv Hh Ho] Hi Ht Hr' Hl' Hx. cbn [fst snd] in *. split; cbn [fst snd].
  - by apply Forall2_insert.
  - intros j td b' y Hj Hy. rewrite set_locks_lookup. apply list_lookup_insert_Some in Hj as [(<- & <- & _)|(_ & Hj)].
    + destruct (Hv _ _ b' y Ht ltac:(by right)) as [c ->]. case_decide; simpl; eauto.
    + destruct (Hv _ _ _ _ Hj Hy) as [c ->]. case_decide; simpl; eauto.
  - intros y c. rewrite set_locks_lookup. case_decide as E.
    + subst y. destruct (h_chan h !! x) as [c0|] eqn:Ec; [|done]. simpl. intros [= <-]. simpl. split.
      * intros ->. exists i, l'. split; [apply list_lookup_insert_eq; by eapply lookup_lt_Some|]. apply Hl'. by rewrite decide_True.
      * intros (j & k & [(<- & <- & _)|(Hj & Hk)]%list_lookup_insert_Some & Hin).
        -- apply Hl' in Hin. by rewrite decide_True in Hin.
        -- by destruct (Hx j k).
    + intros Hc. rewrite (Hh _ _ Hc). split; intros (j & k & Hk & Hin).
      * destruct (decide (j = i)) as [->|Hj].
        -- exists i, l'. split; [apply list_lookup_insert_eq; by eapply lookup_lt_Some|]. apply Hl'. rewrite decide_False by done. congruence.
        -- exists j, k. by rewrite list_lookup_insert_ne.
      * apply list_lookup_insert_Some in Hk as [(<- & <- & _)|(Hj & Hk)]; [|by eauto].
        exists i, l. split; [done|]. apply Hl' in Hin. by rewrite decide_False in Hin.
  - intros j1 j2 k1 k2 y [(<- & <- & _)|(Hj1 & Hk1)]%list_lookup_insert_Some [(<- & <- & _)|(Hj2 & Hk2)]%list_lookup_insert_Some
      H1 H2; [done| | |by eapply Ho].
    + apply Hl' in H1. case_decide as E; [subst y; by destruct (Hx j2 k2)|by eapply Ho].
    + apply Hl' in H2. case_decide as E; [subst y; by destruct (Hx j1 k1)|by eapply Ho].
Qed.

Lemma rounds_at held st i todo : locks_ok held st -> st.2 !! i = Some todo -> exists l, held !! i = Some l /\ rounds l todo.
Proof. intros Hok Ht. exact (Forall2_lookup_r _ _ _ _ _ (lo_rounds _ _ Hok) Ht). Qed.

(** The call a thread is at either waits for a lock another holds, or returns. *)
Lemma lock_call held st i b x todo c :
  locks_ok held st -> st.2 !! i = Some ((b, x) :: todo) -> h_chan st.1 !! x = Some c ->
  if decide (b = true /\ ch_locked c = true) then lock_step i st = None
  else exists held' st', lock_step i st = Some (Ret st') /\ locks_ok held' st'.
Proof.
  intros Hok Ht Hc. destruct st as [h todos]. simpl in *. unfold lock_step. simpl. rewrite Ht.
  destruct (rounds_at _ _ _ _ Hok Ht) as (l & Hl & Hr). pose proof (lo_held _ _ Hok _ _ Hc) as Hlk.
  inversion Hr as [|? ? ? Hlt Hr'|l' ? ? Hx Hr']; subst.
  - destruct (ch_locked c) eqn:E.
    + rewrite decide_True by done. unfold lock_op, chan_lock, mbind, M_bind, load_chan. rewrite Hc. simpl. by rewrite E.
    + rewrite decide_False by naive_solver. rewrite (lock_op_step true _ _ _ Hc E). do 2 eexists. split; [done|].
      assert (forall j k, held !! j = Some k -> x ∉ k) as Hno.
      { intros j k Hk Hin. cut (false = true); [done|]. apply Hlk. eauto. }
      eapply locks_ok_move; [done..| |by eauto]. intros y. rewrite elem_of_app, list_elem_of_singleton.
      case_decide; naive_solver.
  - rewrite decide_False by naive_solver.
    rewrite (lock_op_step false _ _ _ Hc) by (apply Hlk; exists i; eexists; split; [done|left]).
    do 2 eexists. split; [done|].
    eapply locks_ok_move; [done..| |].
    + intros y. case_decide as E; [subst y; naive_solver|]. set_solver.
    + intros j k Hj Hk Hin. apply Hj. eapply (lo_once _ _ Hok j i); [done..|left].
Qed.

Lemma lock_reach_ok held st st' : locks_ok held st -> lock_reach st st' -> exists held', locks_ok held' st'.
Proof.
  intros Hok Hr. revert held Hok. induction Hr as [|st1 st2 st3 [i Hs] _ IH]; intros held Hok; [by eauto|].
  pose proof Hs as Hs'. unfold lock_step in Hs'. destruct (st1.2 !! i) as [[|[b x] todo]|] eqn:Ht; try done. clear Hs'.
  destruct (lo_live _ _ Hok _ _ _ _ Ht ltac:(left)) as [c Hc].
  pose proof (lock_call _ _ _ _ _ _ _ Hok Ht Hc) as H. case_decide; [congruence|].
  destruct H as (held' & st' & E & Hok'). rewrite E in Hs. injection Hs as ->. by eapply IH.
Qed.

(** Somebody can go on: a thread that releases, or else the one that wants the
    highest lock, since whoever held that would want a higher one. *)
Lemma lock_progress held st :
  locks_ok held st -> (exists i c todo, st.2 !! i = Some (c :: todo)) -> exists i st', lock_step i st = Some (Ret st').
Proof.
  intros Hok Hne.
  assert (forall i b x todo c, st.2 !! i = Some ((b, x) :: todo) -> h_chan st.1 !! x = Some c ->
    ~ (b = true /\ ch_locked c = true) -> exists i st', lock_step i st = Some (Ret st')) as Hgo.
  { intros i b x todo c Ht Hc Hn. pose proof (lock_call _ _ _ _ _ _ _ Hok Ht Hc) as H. rewrite decide_False in H by done.
    destruct H as (? & st' & H & _). eauto. }
  pose (want := fun todo : list (bool * ptr) => match todo with (true, x) :: _ => Some x | _ => None end).
  assert (forall i b x todo, st.2 !! i = Some ((b, x) :: todo) -> exists c, h_chan st.1 !! x = Some c) as Hlive.
  { intros i b x todo Ht. exact (lo_live _ _ Hok _ _ _ _ Ht ltac:(left)). }
  destruct Hne as (i & [b x] & todo & Ht). destruct b; [|destruct (Hlive _ _ _ _ Ht) as [c Hc]; by eapply (Hgo _ _ _ _ _ Ht Hc); intros []].
  destruct (highest want st.2 i _ x Ht eq_refl) as (k & tk & y & Hk & Hw & Hmax).
  unfold want in Hw. destruct tk as [|[[] z] tk]; try done. injection Hw as ->.
  destruct (Hlive _ _ _ _ Hk) as [c Hc]. destruct (ch_locked c) eqn:El; [|eapply (Hgo _ _ _ _ _ Hk Hc); by intros [_ ?]; congruence].
  apply (lo_held _ _ Hok _ _ Hc) in El as (j & l & Hl & Hy).
  destruct (Forall2_lookup_l _ _ _ _ _ (lo_rounds _ _ Hok) Hl) as (tj & Htj & Hr).
  inversion Hr as [|? z ? Hlt Hr'|l' z ? Hx Hr']; subst.
  - by apply elem_of_nil in Hy.
  - exfalso. pose proof (Hlt _ Hy). pose proof (Hmax j _ z Htj eq_refl). lia.
  - destruct (Hlive _ _ _ _ Htj) as [c' Hc']. eapply (Hgo _ _ _ _ _ Htj Hc'). by intros [].
Qed.

Lemma locks_ok_start (css : list (list (list select_case))) h :
  (forall x c, h_chan h !! x = Some c -> ch_locked c = false) ->
  (forall cs cases c, cs ∈ css -> cases ∈ cs -> c ∈ cases -> is_Some (h_chan h !! c_ch c)) ->
  locks_ok (replicate (length css) []) (h, (fun cs => cs ≫= lock_calls) <$> css).
Proof.
  intros Hl Hv.
  assert (forall i l, replicate (length css) ([] : list ptr) !! i = Some l -> l = []) as Hrep
    by (intros i l H; by apply lookup_replicate in H as [-> _]).
  split; simpl.
  - apply Forall2_same_length_lookup_2; [by rewrite length_replicate, length_fmap|].
    intros i l td ->%Hrep Htd. apply list_lookup_fmap_Some in Htd as (cs & -> & _). apply rounds_calls.
  - intros i td b x Htd Hin. apply list_lookup_fmap_Some in Htd as (cs & -> & Hcs).
    apply list_elem_of_bind in Hin as (cases & Hin & Hcases). unfold lock_calls in Hin.
    assert (x ∈ lock_sequence cases) as Hx by (apply elem_of_app in Hin as [(y & [= _ <-] & ?)%list_elem_of_fmap|(y & [= _ <-] & ?)%list_elem_of_fmap]; done).
    apply acquisitions_elem, ordered_elem in Hx as (c & Hc & <-); [|apply sort_order_ok].
    eapply Hv; [by eapply list_elem_of_lookup_2|done..].
  - intros x c Hc. rewrite (Hl _ _ Hc). split; [done|]. intros (i & l & ->%Hrep & Hx). by apply elem_of_nil in Hx.
  - intros i j l k x ->%Hrep _ Hx. by apply elem_of_nil in Hx.
Qed.

(** ** xorshift32 *)

Lemma shl_fixpoint x k : 0 <= x < two32 -> 0 < k -> u32 (Z.shiftl x k) = x -> x = 0.
Proof.
  intros Hx Hk E. apply Z.bits_inj_0. intros n.
  destruct (Z.ltb_spec n 0) as [Hn|Hn]; [by apply Z.testbit_neg_r|].
  revert n Hn. apply (Zlt_0_ind (fun n => Z.testbit x n = false)). intros n IH Hn. rewrite <- E.
  unfold u32. change two32 with (2 ^ 32). destruct (Z.ltb_spec n 32).
  - rewrite Z.mod_pow2_bits_low by lia. rewrite Z.shiftl_spec by lia.
    destruct (Z.ltb_spec (n - k) 0); [by apply Z.testbit_neg_r|apply IH; lia].
  - by rewrite Z.mod_pow2_bits_high by lia.
Qed.

Lemma shr_fixpoint x k : 0 <= x -> 0 < k -> Z.shiftr x k = x -> x = 0.
Proof.
  intros Hx Hk E. rewrite Z.shiftr_div_pow2 in E by lia.
  assert (2 <= 2 ^ k) by (replace 2 with (2 ^ 1) at 1 by done; apply Z.pow_le_mono_r; lia).
  destruct (Z.eq_dec x 0); [done|]. pose proof (Z.div_lt x (2 ^ k)). lia.
Qed.

Lemma lxor_range x y : 0 <= x < two32 -> 0 <= y < two32 -> 0 <= Z.lxor x y < two32.
Proof.
  intros Hx Hy. split; [apply Z.lxor_nonneg; lia|].
  destruct (Z.eq_dec (Z.lxor x y) 0) as [->|Hn]; [done|].
  assert (0 <= Z.lxor x y) by (apply Z.lxor_nonneg; lia).
  change two32 with (2 ^ 32). apply Z.log2_lt_pow2; [lia|].
  pose proof (Z.log2_lxor x y). 
  assert (forall z, 0 <= z < two32 -> Z.log2 z < 32) as Hl.
  { intros z Hz. destruct (Z.eq_dec z 0) as [->|]; [done|]. apply Z.log2_lt_pow2; [lia|]. change (2 ^ 32) with two32. lia. }
  pose proof (Hl x Hx). pose proof (Hl y Hy). lia.
Qed.

(** One shift-and-xor keeps a non-zero 32-bit value non-zero. *)
Lemma xor_step x y :
  0 < x < two32 -> 0 <= y < two32 -> (y = x -> x = 0) -> 0 < Z.lxor x y < two32.
Proof.
  intros Hx Hy H. pose proof (lxor_range x y). assert (Z.lxor x y <> 0); [|lia].
  intros E%Z.lxor_eq. specialize (H (eq_sym E)). lia.
Qed.

(** ** Select on the abstract memory *)

Definition alocks (b : bool) (chs : list ptr) (a : aheap) : aheap :=
  mk_aheap (foldl (fun m p => alter (set_a_locked b) p m) (a_chan a) chs) (a_wait a) (a_park a) (a_state a) (a_mem a).

Lemma repr_lock_one b ch h a : repr h a -> repr (set_locks b [ch] h) (alocks b [ch] a).
Proof.
  intros R. destruct (h_chan h !! ch) as [c|] eqn:Ec.
  - pose proof (r_chan _ _ R ch) as Hp. rewrite Ec in Hp. inversion Hp as [? A Hr E1 E2|]; subst.
    destruct (chan_rep_update _ _ _ (set_ch_locked b) (set_a_locked b) Hr) as [Hr' Hq].
    unfold set_locks, alocks. simpl. rewrite (alter_known _ _ _ _ Ec), (alter_known _ _ _ A) by done.
    by apply (repr_on_chan h a ch c _ _ A).
  - pose proof (r_chan _ _ R ch) as Hp. rewrite Ec in Hp. inversion Hp as [|E]; subst.
    unfold set_locks, alocks. simpl.
    rewrite !alter_id by (intros x Hx; congruence). by destruct h, a.
Qed.

Lemma repr_locks b chs h a : repr h a -> repr (set_locks b chs h) (alocks b chs a).
Proof.
  revert h a. induction chs as [|ch chs IH]; intros h a R.
  - unfold set_locks, alocks. simpl. by destruct h, a.
  - rewrite set_locks_cons. apply (IH _ (alocks b [ch] a)), repr_lock_one, R.
Qed.

Lemma alocks_lookup b chs a p :
  a_chan (alocks b chs a) !! p = if decide (p ∈ chs) then set_a_locked b <$> a_chan a !! p else a_chan a !! p.
Proof.
  revert a. induction chs as [|ch chs IH]; intros a; [done|].
  change (alocks b (ch :: chs) a) with (alocks b chs (alocks b [ch] a)). rewrite IH. unfold alocks. simpl.
  destruct (decide (p = ch)) as [->|Hn].
  - rewrite lookup_alter_eq. destruct (a_chan a !! ch); repeat case_decide; simpl; try done; exfalso; set_solver.
  - rewrite lookup_alter_ne by done. repeat case_decide; try done; exfalso; set_solver.
Qed.

Lemma alocks_back chs a :
  (forall x A, x ∈ chs -> a_chan a !! x = Some A -> a_locked A = false) ->
  alocks false chs (alocks true chs a) = a.
Proof.
  intros Hf. assert (a_chan (alocks false chs (alocks true chs a)) = a_chan a) as E.
  { apply map_eq. intros p. rewrite !alocks_lookup. case_decide as Hp; [|done].
    destruct (a_chan a !! p) as [A|] eqn:EA; [|done]. simpl. f_equal.
    specialize (Hf p A Hp EA). destruct A; simpl in *. by subst. }
  unfold alocks in *. simpl in *. rewrite E. by destruct a.
Qed.

Lemma awp_each_once b chs a (Q : unit -> aheap -> Prop) :
  StronglySorted Z.le chs ->
  (forall x, x ∈ chs -> exists A, a_chan a !! x = Some A /\ a_locked A = negb b) ->
  Q tt (alocks b chs a) -> awp (each_once (lock_op b) None chs) a Q.
Proof.
  intros Hs Hl HQ h R. eapply wp_eval; [apply each_once_ok; [done|done|]|].
  - intros x Hx. destruct (Hl x Hx) as (A & HA & HL). destruct (repr_lookup _ _ _ _ R HA) as (c & Hc & Hr).
    exists c. split; [done|]. rewrite bool_decide_eq_false_2 by done. by rewrite (rep_member ch_locked a_locked _ _ _ Hr).
  - eexists. split; [by apply repr_locks|exact HQ].
Qed.

(** Readiness of a case, as the code decides it. *)
Definition ready (c : select_case) (A : achan) : bool :=
  match c_op c with
  | CHAN_OP_SEND =>
      negb (a_closed A) && ((zlen (a_buf A) <? room A) || negb (bool_decide (a_rq A = [])))
  | CHAN_OP_RECV =>
      negb (bool_decide (a_buf A = [])) || negb (bool_decide (a_sq A = [])) || a_closed A
  end.

Lemma awp_case_ready c A a (Q : bool -> aheap -> Prop) :
  a_chan a !! c_ch c = Some A -> (a_cap A = 0 -> a_buf A = []) ->
  Q (ready c A) a -> awp (case_ready c) a Q.
Proof.
  intros HA H0 HQ. unfold case_ready, ready, room in *. destruct (c_op c); awp_go.
  - destruct (a_closed A); simpl in *; [by apply awp_ret|]. awp_go.
    destruct (Z.eqb_spec (a_cap A) 0) as [E|E].
    + rewrite (H0 E) in HQ. simpl in HQ. apply awp_bind. eapply awp_waitq_empty; [done|]. by apply awp_ret.
    + apply awp_bind. eapply awp_ring_full; [done..|]. rewrite Z.leb_antisym.
      destruct (zlen (a_buf A) <? a_slots A); simpl in *; [by apply awp_ret|].
      apply awp_bind. eapply awp_waitq_empty; [done|]. by apply awp_ret.
  - assert (Q (negb (bool_decide (a_sq A = [])) || a_closed A) a ->
      awp (e ← waitq_empty (c_ch c, CHAN_OP_SEND); if negb e then mret true else field closed (c_ch c)) a Q) as Hs.
    { intros H. apply awp_bind. eapply awp_waitq_empty; [done|]. simpl.
      destruct (bool_decide (a_sq A = [])); simpl in *; [|by apply awp_ret]. by eapply awp_field; [apply _|..]. }
    destruct (Z.eqb_spec (a_cap A) 0) as [E|E].
    + apply Hs. by rewrite (H0 E) in HQ.
    + apply awp_bind. eapply awp_ring_empty; [done|].
      destruct (bool_decide (a_buf A = [])); simpl in *; [by apply Hs|by apply awp_ret].
Qed.

(** ** Nothing ready *)

(** A case on a live open channel that cannot proceed, with a proper buffer. *)
Definition idle (a : aheap) (c : select_case) : Prop :=
  exists A b, a_chan a !! c_ch c = Some A /\ chan_ok a A /\ a_closed A = false /\ ready c A = false /\
    a_mem a !! c_data c = Some b /\ a_es A <= zlen b.

Lemma awp_select_closed_idle i cs a (Q : option nat -> aheap -> Prop) :
  Forall (idle a) cs -> Q None a -> awp (select_closed i cs) a Q.
Proof.
  revert i. induction cs as [|c cs IH]; intros i Hid HQ; simpl; [by apply awp_ret|].
  apply Forall_cons in Hid as [(A & b & HA & _ & Hcl & _) Hid].
  destruct (c_op c); [by apply IH|]. awp_go. rewrite Hcl. simpl. by apply IH.
Qed.

Lemma awp_select_ring_idle idxs cases a (Q : option (nat * chan_err_t) -> aheap -> Prop) :
  Forall (idle a) cases -> Forall (fun i => (i < length cases)%nat) idxs -> Q None a ->
  awp (select_ring idxs cases) a Q.
Proof.
  intros Hid Hix HQ. induction Hix as [|i idxs Hi Hix IH]; simpl; [by apply awp_ret|].
  destruct (lookup_lt_is_Some_2 _ _ Hi) as [c Hc]. rewrite Hc. simpl.
  destruct (Forall_lookup_1 _ _ _ _ Hid Hc) as (A & b & HA & Hok & Hcl & Hr & Hb & Hlen).
  apply awp_bind. intros h R. eapply wp_lift; [done|]. exists a. split; [done|].
  awp_go. destruct (Z.eqb_spec (a_cap A) 0) as [E0|E0]; [exact IH|]. awp_go.
  destruct (negb (a_scnt A =? 0)); [exact IH|]. awp_go.
  destruct (negb (a_rcnt A =? 0)); [exact IH|]. unfold ready in Hr. rewrite Hcl in *. destruct (c_op c); simpl in Hr.
  - awp_go. rewrite Hcl. awp_go. eapply awp_ring_push; [done..|].
    apply orb_false_iff in Hr as [Hr _]. unfold room in Hr. rewrite (proj2 (Z.eqb_neq _ _) E0) in Hr.
    rewrite Hr. exact IH.
  - awp_go. eapply awp_ring_pop; [done..|]. destruct (a_buf A); [exact IH|done].
Qed.

Lemma awp_collect_ready_idle i cs a (Q : list nat -> aheap -> Prop) :
  Forall (fun c => exists A, a_chan a !! c_ch c = Some A /\ (a_cap A = 0 -> a_buf A = []) /\ ready c A = false) cs ->
  Q [] a -> awp (collect_ready i cs) a Q.
Proof.
  revert i Q. induction cs as [|c cs IH]; intros i Q Hid HQ; simpl; [by apply awp_ret|].
  apply Forall_cons in Hid as [(A & HA & H0 & Hr) Hid].
  apply awp_bind. eapply awp_case_ready; [done..|]. rewrite Hr. apply awp_bind. apply IH; [done|]. by apply awp_ret.
Qed.

Lemma rotation_bound start n : Forall (fun i => (i < n)%nat) (rotation start n).
Proof.
  apply Forall_fmap, Forall_forall. intros j Hj%elem_of_seq. simpl.
  pose proof (Z.mod_pos_bound (u64 (start + Z.of_nat j)) (Z.of_nat n)). lia.
Qed.

(** The rotation tries every case. *)
Lemma rotation_all start n i :
  Z.of_nat n < 2 ^ 63 -> 0 <= start < Z.of_nat n -> (i < n)%nat -> i ∈ rotation start n.
Proof.
  intros Hn Hs Hi. apply list_elem_of_fmap.
  assert (2 ^ 63 * 2 = two64) as E64 by done.
  destruct (decide (start <= Z.of_nat i)).
  - exists (Z.to_nat (Z.of_nat i - start)). rewrite elem_of_seq. split; [|lia].
    rewrite Z2Nat.id, u64_small by lia. replace (start + (Z.of_nat i - start)) with (Z.of_nat i) by lia.
    rewrite Z.mod_small by lia. lia.
  - exists (Z.to_nat (Z.of_nat i + Z.of_nat n - start)). rewrite elem_of_seq. split; [|lia].
    rewrite Z2Nat.id, u64_small by lia. replace (start + (Z.of_nat i + Z.of_nat n - start)) with (Z.of_nat i + 1 * Z.of_nat n) by lia.
    rewrite Z.mod_add, Z.mod_small by lia. lia.
Qed.

(** The locks of a select, taken and released around a reading of the state. *)
Lemma awp_lock_section cases order a (B : Type) (k : M B) (Q : B -> aheap -> Prop) :
  ascending (case_addr cases) order -> order ≡ₚ seq 0 (length cases) ->
  (forall c, c ∈ cases -> exists A, a_chan a !! c_ch c = Some A /\ a_locked A = false) ->
  awp k (alocks true (ordered_channels cases order) a) Q ->
  awp (lock_all order cases;; k) a Q.
Proof.
  intros Hs Hp Hl HQ. apply awp_bind. apply (awp_each_once true); [by apply ordered_sorted| |done].
  intros x (c & Hc & <-)%ordered_elem; [|done]. auto.
Qed.

Lemma awp_unlock_all cases order a (Q : unit -> aheap -> Prop) :
  ascending (case_addr cases) order -> order ≡ₚ seq 0 (length cases) ->
  (forall c, c ∈ cases -> exists A, a_chan a !! c_ch c = Some A /\ a_locked A = true) ->
  Q tt (alocks false (ordered_channels cases order) a) ->
  awp (unlock_all order cases) a Q.
Proof.
  intros Hs Hp Hl HQ. apply (awp_each_once false); [by apply ordered_sorted| |done].
  intros x (c & Hc & <-)%ordered_elem; [|done]. auto.
Qed.

Definition select_order (cases : list select_case) : list nat :=
  if (length cases =? 2)%nat then sort_order_2 (case_addr cases) else sort_order (case_addr cases) (length cases).

Lemma select_order_ok cases :
  ascending (case_addr cases) (select_order cases) /\ select_order cases ≡ₚ seq 0 (length cases).
Proof.
  unfold select_order. destruct (Nat.eqb_spec (length cases) 2) as [E|_].
  - rewrite sort_order_2_ok, E. pose proof (sort_order_ok (case_addr cases) 2). tauto.
  - pose proof (sort_order_ok (case_addr cases) (length cases)). tauto.
Qed.

(** The loops of [lock_all] and [unlock_all] are the calls of [lock_sequence]. *)
Lemma lock_all_in_turn cases h :
  lock_all (select_order cases) cases h = in_turn chan_lock (lock_sequence cases) h /\
  unlock_all (select_order cases) cases h = in_turn chan_unlock (lock_sequence cases) h.
Proof.
  unfold lock_all, unlock_all, lock_sequence. rewrite !each_once_in_turn.
  assert (select_order cases = sort_order (case_addr cases) (length cases)) as ->; [|done].
  unfold select_order. destruct (Nat.eqb_spec (length cases) 2) as [E|_]; [rewrite E; apply sort_order_2_ok|done].
Qed.

(** A locked channel is as ready as it was. *)
Lemma locked_lookup chs a c A :
  c_ch c ∈ chs -> a_chan a !! c_ch c = Some A -> a_chan (alocks true chs a) !! c_ch c = Some (set_a_locked true A).
Proof. intros Hin HA. rewrite alocks_lookup, decide_True, HA by done. done. Qed.

Lemma select_try_idle_awp f self_id c0 cs t a (Q : flow (Z * list select_case * tls) -> aheap -> Prop) :
  Forall (idle a) (c0 :: cs) -> f_malloc_order f = true ->
  Q (Done (-1, set_c_result CHAN_ERR_WOULDBLOCK <$> c0 :: cs, mk_tls (u64 (rr t + 1)) (rng_state t))) a ->
  awp (chan_select_try f self_id (Some (c0 :: cs)) t) a Q.
Proof.
  intros Hid Hm HQ. unfold chan_select_try, chan_select_impl, chan_select_fast. set (cases := c0 :: cs) in *.
  apply awp_bind, awp_bind. apply awp_select_closed_idle; [done|].
  apply awp_bind. apply awp_select_ring_idle; [done|apply rotation_bound|]. apply awp_ret.
  rewrite Hm, andb_false_r. fold (select_order cases). destruct (select_order_ok cases) as [Hs Hp].
  pose proof (proj1 (Forall_forall _ _) Hid) as Hid'.
  apply awp_lock_section; [done..| |].
  { intros c Hc. destruct (Hid' c Hc) as (A & _ & HA & Hok & _). exists A. split; [done|apply Hok]. }
  apply awp_bind. apply awp_collect_ready_idle.
  { apply Forall_forall. intros c Hc. destruct (Hid' c Hc) as (A & b & HA & Hok & Hcl & Hr & _).
    exists (set_a_locked true A). split; [|split; [apply Hok|done]].
    apply locked_lookup; [|done]. apply ordered_elem; [done|]. eauto. }
  change (0 =? 0) with true. cbv iota. apply awp_bind. apply awp_unlock_all; [done..| |].
  { intros c Hc. destruct (Hid' c Hc) as (A & b & HA & Hok & _).
    exists (set_a_locked true A). split; [|done]. apply locked_lookup; [|done]. apply ordered_elem; [done|]. eauto. }
  rewrite alocks_back; [by apply awp_ret|].
  intros x A (c & Hc & <-)%ordered_elem HA; [|done]. destruct (Hid' c Hc) as (A' & _ & HA' & Hok & _).
  simplify_eq. apply Hok.
Qed.

(** ** Theorems *)

(** The lock order of a select is a permutation of the cases in ascending channel
    address; the specialised two-case sort is the general one.  Taking the locks
    in that order takes each channel's lock exactly once, whatever channels
    repeat among the cases, never blocks on a lock it already holds, touches no
    other channel, and the matching release restores the memory. *)
Theorem select_lock_order cases h
    (Hl : forall c, c ∈ cases -> exists x, h_chan h !! c_ch c = Some x /\ ch_locked x = false) :
  let order := sort_order (case_addr cases) (length cases) in
  order ≡ₚ seq 0 (length cases) /\ StronglySorted Z.le (ordered_channels cases order) /\
  (length cases = 2%nat -> sort_order_2 (case_addr cases) = order) /\
  exists h1, lock_all order cases h = Ret (tt, h1) /\
    (forall p, h_chan h1 !! p = if decide (p ∈ ordered_channels cases order)
                                then set_ch_locked true <$> h_chan h !! p else h_chan h !! p) /\
    unlock_all order cases h1 = Ret (tt, h).
Proof.
  intros order. destruct (sort_order_ok (case_addr cases) (length cases)) as [Hp Hs]. fold order in Hp, Hs.
  split; [done|]. split; [by apply ordered_sorted|].
  split; [intros E; unfold order; rewrite E; apply sort_order_2_ok|].
  assert (forall x, x ∈ ordered_channels cases order -> exists c, h_chan h !! x = Some c /\ ch_locked c = false) as Hx.
  { intros x (c & Hc & <-)%ordered_elem; [|done]. auto. }
  exists (set_locks true (ordered_channels cases order) h). split; [|split].
  - apply (each_once_ok true); [by apply ordered_sorted|done|]. intros x Hin. by apply Hx.
  - intros p. apply set_locks_all.
  - unfold unlock_all. rewrite (each_once_ok false); [f_equal; f_equal; apply set_locks_back|by apply ordered_sorted|done|].
    + intros x c Hin Hc. destruct (Hx x Hin) as (c' & Hc' & ?). congruence.
    + intros x Hin. destruct (Hx x Hin) as (c & Hc & _). rewrite set_locks_all, decide_True, Hc by done.
      eexists. split; [done|]. done.
Qed.

(** Three cases on two channels, the first two on the same one. *)
Definition cases_ex : list select_case :=
  [mk_case 101 CHAN_OP_SEND 200 CHAN_OK; mk_case 101 CHAN_OP_RECV 201 CHAN_OK; mk_case 100 CHAN_OP_RECV 201 CHAN_OK].

Lemma select_lock_order_witness :
  let order := sort_order (case_addr cases_ex) 3 in
  order ≡ₚ seq 0 3 /\ StronglySorted Z.le (ordered_channels cases_ex order) /\
  (3%nat = 2%nat -> sort_order_2 (case_addr cases_ex) = order) /\
  exists h1, lock_all order cases_ex heap_ex = Ret (tt, h1) /\
    (forall p, h_chan h1 !! p = if decide (p ∈ ordered_channels cases_ex order)
                                then set_ch_locked true <$> h_chan heap_ex !! p else h_chan heap_ex !! p) /\
    unlock_all order cases_ex h1 = Ret (tt, heap_ex).
Proof.
  apply (select_lock_order cases_ex heap_ex).
  intros c Hc. repeat (apply elem_of_cons in Hc as [->|Hc]; [by eexists|]). set_solver.
Defined.

(** C18: Selects cannot deadlock on one another's locks.  [lock_all] and
    [unlock_all], in the order the call sorts its cases by, are the calls of
    [lock_sequence] made one after the other, however often a channel repeats.
    Let any threads run selects, any number each, their lock and unlock calls
    interleaved in any order, from a memory with no lock held: no call is ever
    made on a mutex that is not held or not alive, and as long as some thread has
    a call left some thread's next call returns, so no set of threads waits for
    one another and none waits for itself. *)
Theorem select_deadlock_free css h st
    (Hl : forall x c, h_chan h !! x = Some c -> ch_locked c = false)
    (Hv : forall cs cases c, cs ∈ css -> cases ∈ cs -> c ∈ cases -> is_Some (h_chan h !! c_ch c))
    (Hr : lock_reach (h, (fun cs => cs ≫= lock_calls) <$> css) st) :
  (forall cases h', lock_all (select_order cases) cases h' = in_turn chan_lock (lock_sequence cases) h' /\
                    unlock_all (select_order cases) cases h' = in_turn chan_unlock (lock_sequence cases) h') /\
  (forall i, lock_step i st <> Some Undef) /\
  ((forall i todo, st.2 !! i = Some todo -> todo = []) \/ exists i st', lock_step i st = Some (Ret st')).
Proof.
  destruct (lock_reach_ok _ _ _ (locks_ok_start _ _ Hl Hv) Hr) as [held Hok].
  split; [apply lock_all_in_turn|]. split.
  - intros i Hi. pose proof Hi as Hi'. unfold lock_step in Hi'. destruct (st.2 !! i) as [[|[b x] todo]|] eqn:Ht; try done.
    destruct (lo_live _ _ Hok _ _ _ _ Ht ltac:(left)) as [c Hc].
    pose proof (lock_call _ _ _ _ _ _ _ Hok Ht Hc) as H. case_decide; [congruence|]. destruct H as (? & ? & ? & _). congruence.
  - destruct (decide (Exists (fun todo => todo <> []) st.2)) as [(todo & [i Hi]%list_elem_of_lookup & Hne)%Exists_exists|Hno].
    + right. apply (lock_progress held); [done|]. destruct todo as [|c todo]; [done|]. eauto.
    + left. intros i todo Hi. destruct todo as [|c todo]; [done|]. destruct Hno. apply Exists_exists.
      exists (c :: todo). split; [by eapply list_elem_of_lookup_2|done].
Qed.

(** Two threads selecting over the same two channels in opposite case order; the
    first has taken one lock, and the second waits for it. *)
Lemma select_deadlock_free_witness :
  let st := (set_locks true [100] heap_ex,
             [[(true, 101); (false, 100); (false, 101)]; [(true, 100); (true, 101); (false, 100); (false, 101)]]) in
  lock_step 1 st = None /\
  (forall i, lock_step i st <> Some Undef) /\
  ((forall i todo, st.2 !! i = Some todo -> todo = []) \/ exists i st', lock_step i st = Some (Ret st')).
Proof.
  intros st. split; [reflexivity|].
  apply (select_deadlock_free [[cases_ex]; [rev cases_ex]] heap_ex st).
  - intros x c Hx. simpl in Hx. apply lookup_insert_Some in Hx as [[_ <-]|[_ Hx]]; [reflexivity|].
    apply lookup_insert_Some in Hx as [[_ <-]|[_ Hx]]; [reflexivity|].
    apply lookup_singleton_Some in Hx as [_ <-]. reflexivity.
  - intros cs cases c Hcs Hcases Hc.
    repeat (apply elem_of_cons in Hcs as [->|Hcs]; [apply list_elem_of_singleton in Hcases as ->;
      repeat (apply elem_of_cons in Hc as [->|Hc]; [by eexists|]); by apply elem_of_nil in Hc|]).
    by apply elem_of_nil in Hcs.
  - apply rtc_once. exists O. vm_compute. reflexivity.
Defined.

(** The thread-local generator of the random choice stays a non-zero 32-bit
    value once seeded, so it is seeded exactly once and the winner it picks is
    always one of the ready cases. *)
Theorem rng_never_zero self_id t (Hr : 0 <= rng_state t < two32) :
  0 < rng_state (next_rng self_id t) < two32 /\
  (forall n : nat, 0 < Z.of_nat n -> 0 <= rng_state (next_rng self_id t) mod Z.of_nat n < Z.of_nat n).
Proof.
  split; [|intros n Hn; apply Z.mod_pos_bound; lia].
  unfold next_rng. simpl. set (s := if rng_state t =? 0 then _ else _).
  assert (0 < s < two32) as Hs.
  { unfold s. destruct (Z.eqb_spec (rng_state t) 0); [|lia].
    pose proof (u32_range self_id) as Hu. split.
    - assert (Z.lor (u32 self_id) 1 <> 0); [|pose proof (proj2 (Z.lor_nonneg (u32 self_id) 1)); lia].
      intros [_ E]%Z.lor_eq_0_iff. discriminate.
    - change two32 with (2 ^ 32) in *. apply Z.log2_lt_pow2.
      + assert (Z.lor (u32 self_id) 1 <> 0); [|pose proof (proj2 (Z.lor_nonneg (u32 self_id) 1)); lia].
        intros [_ E]%Z.lor_eq_0_iff. discriminate.
      + rewrite Z.log2_lor by lia. apply Z.max_lub_lt; [|done].
        destruct (Z.eq_dec (u32 self_id) 0) as [->|]; [done|]. apply Z.log2_lt_pow2; lia. }
  clearbody s. unfold xorshift32.
  assert (0 < Z.lxor s (u32 (Z.shiftl s 13)) < two32) as H1.
  { apply xor_step; [done|apply u32_range|]. intros E. by eapply shl_fixpoint; [..|exact E]; lia. }
  set (s1 := Z.lxor s _) in *. clearbody s1.
  assert (0 < Z.lxor s1 (Z.shiftr s1 17) < two32) as H2.
  { apply xor_step; [done| |].
    - rewrite Z.shiftr_div_pow2 by lia. split; [apply Z.div_pos; lia|].
      apply Z.le_lt_trans with s1; [|lia]. apply Z.div_le_upper_bound; lia.
    - intros E. eapply shr_fixpoint; [..|exact E]; lia. }
  set (s2 := Z.lxor s1 _) in *. clearbody s2.
  apply xor_step; [done|apply u32_range|]. intros E. by eapply shl_fixpoint; [..|exact E]; lia.
Qed.

(** The first draw of a thread. *)
Lemma rng_never_zero_witness :
  0 < rng_state (next_rng 140245 (mk_tls 0 0)) < two32 /\
  (forall n : nat, 0 < Z.of_nat n ->
     0 <= rng_state (next_rng 140245 (mk_tls 0 0)) mod Z.of_nat n < Z.of_nat n).
Proof. apply rng_never_zero. simpl. unfold two32. lia. Defined.

(** A non-blocking select none of whose cases can proceed returns -1, marks every
    case CHAN_ERR_WOULDBLOCK and leaves every channel, waiter and buffer as it
    was; all locks it took are free again. *)
Theorem select_try_idle f self_id c0 cs t a h
    (R : repr h a) (Hid : Forall (idle a) (c0 :: cs)) (Hm : f_malloc_order f = true) :
  exists h', chan_select_try f self_id (Some (c0 :: cs)) t h
    = Ret (Done (-1, set_c_result CHAN_ERR_WOULDBLOCK <$> c0 :: cs, mk_tls (u64 (rr t + 1)) (rng_state t)), h') /\
    repr h' a.
Proof.
  destruct (awp_run _ _ _ h (select_try_idle_awp f self_id c0 cs t a
    (fun r a' => r = Done (-1, set_c_result CHAN_ERR_WOULDBLOCK <$> c0 :: cs, mk_tls (u64 (rr t + 1)) (rng_state t)) /\ a' = a)
    Hid Hm ltac:(done)) R) as (r & h' & a' & E & R' & -> & ->). eauto.
Qed.

Definition frame_ex : sel_frame := mk_frame 400 401 (fun i => 410 + Z.of_nat i) true true true.

(** Receive from 101, where only a receiver waits, or send to the full 102. *)
Lemma select_try_idle_witness :
  exists h', chan_select_try frame_ex 7
      (Some [mk_case 101 CHAN_OP_RECV 201 CHAN_OK; mk_case 102 CHAN_OP_SEND 200 CHAN_OK]) (mk_tls 0 0) heap_ex
    = Ret (Done (-1, set_c_result CHAN_ERR_WOULDBLOCK <$>
        [mk_case 101 CHAN_OP_RECV 201 CHAN_OK; mk_case 102 CHAN_OP_SEND 200 CHAN_OK], mk_tls (u64 (0 + 1)) 0), h') /\
    repr h' aheap_ex.
Proof.
  apply (select_try_idle frame_ex 7 _ _ (mk_tls 0 0) aheap_ex heap_ex heap_ex_repr); [|reflexivity].
  repeat apply Forall_cons_2; [| |apply Forall_nil_2].
  - exists chan_ex0, [x00]. split; [reflexivity|]. split; [by apply (heap_ex_ok 101)|]. repeat (split; [reflexivity|]). done.
  - exists chan_exf, [x43]. split; [reflexivity|]. split; [by apply (heap_ex_ok 102)|]. repeat (split; [reflexivity|]). done.
Defined.

Lemma rotation_split (start n : nat) :
  (start < n)%nat -> Z.of_nat (start + n) < two64 ->
  rotation (Z.of_nat start) n = seq start (n - start) ++ seq 0 start.
Proof.
  intros Hs Hn. unfold rotation. apply list_eq. intros i. rewrite list_lookup_fmap.
  destruct (decide (i < n)%nat) as [Hi|Hi].
  - rewrite lookup_seq_lt by done. simpl. rewrite u64_small by lia.
    destruct (decide (i < n - start)%nat) as [Hlt|Hge].
    + rewrite lookup_app_l by (rewrite length_seq; lia). rewrite lookup_seq_lt by done.
      rewrite Z.mod_small by lia. f_equal. lia.
    + rewrite lookup_app_r by (rewrite length_seq; lia). rewrite length_seq, lookup_seq_lt by lia.
      replace (Z.of_nat start + Z.of_nat i) with (Z.of_nat (start + i - n) + 1 * Z.of_nat n) by lia.
      rewrite Z.mod_add by lia. rewrite Z.mod_small by lia. f_equal. lia.
  - rewrite lookup_seq_ge by lia. simpl. symmetry. apply lookup_ge_None.
    rewrite length_app, !length_seq. lia.
Qed.

(** The lock-free attempt tries every case exactly once, starting at the case
    whose turn it is, and the turn moves on by one at every call. *)
Theorem select_round_robin t (n : nat) (Hn : (0 < n)%nat) (Hb : 2 * Z.of_nat n < two64) (Hr : 0 <= rr t) :
  let start := rr t mod Z.of_nat n in
  rotation start n ≡ₚ seq 0 n /\ head (rotation start n) = Some (Z.to_nat start).
Proof.
  intros start. pose proof (Z.mod_pos_bound (rr t) (Z.of_nat n)) as Hm. fold start in Hm.
  replace start with (Z.of_nat (Z.to_nat start)) at 1 2 by lia.
  rewrite rotation_split by lia. split.
  - replace (seq 0 n) with (seq 0 (Z.to_nat start) ++ seq (Z.to_nat start) (n - Z.to_nat start)).
    + apply Permutation_app_comm.
    + rewrite <- seq_app. f_equal. lia.
  - replace (n - Z.to_nat start)%nat with (S (n - Z.to_nat start - 1)) by lia. done.
Qed.

Lemma select_round_robin_witness :
  rotation (5 mod Z.of_nat 3) 3 ≡ₚ seq 0 3 /\ head (rotation (5 mod Z.of_nat 3) 3) = Some (Z.to_nat (5 mod Z.of_nat 3)).
Proof. apply (select_round_robin (mk_tls 5 0) 3); [lia|unfold two64; simpl; lia|simpl; lia]. Defined.

(** ** Where select departs from its contract *)

(** Buffers for the two runs below. *)
Definition heap_sel : heap := mk_heap ∅ ∅ ∅ ∅ (<[200 := [x41]]> (<[201 := [x42]]> {[202 := [x00]]})) [].
Definition open_chan (cap : Z) : heap :=
  match @chan_create malloc_ex (Some 100) 1 cap heap_sel with Ret (_, h) => h | _ => heap_sel end.

Definition recv_100 : list select_case := [mk_case 100 CHAN_OP_RECV 202 CHAN_OK].
Definition send_100 : list select_case := [mk_case 100 CHAN_OP_SEND 201 CHAN_OK].

(** A select sends into a full ring on which another select waits to receive:
    it reports success for the message [x42], which is neither in the ring nor
    anywhere else, and the waiting select reports that it has received a
    message, its buffer untouched.  The full ring holds the message [x41] of a
    send that did not notice the waiting select. *)
Theorem select_drops_message :
  exists k h1 h2 h3 h4 cs cs',
    chan_select frame_ex 7 (Some recv_100) (mk_tls 0 0) (open_chan 1) = Ret (Park 401 (-1) k, h1) /\
    chan_try_send 100 200 301 h1 = Ret (Done CHAN_OK, h2) /\
    chan_select_try (mk_frame 500 501 (fun i => 510 + Z.of_nat i) true true true) 7 (Some send_100) (mk_tls 0 0) h2
      = Ret (Done (0, cs, mk_tls 1 0), h3) /\ (c_result <$> cs) = [CHAN_OK] /\
    (ring_contents ∘ ch_ring <$> h_chan h3 !! 100) = Some [[x41]] /\
    k true h3 = Ret (Done (0, cs', mk_tls 1 0), h4) /\ (c_result <$> cs') = [CHAN_OK] /\
    h_mem h4 !! 202 = Some [x00].
Proof.
  do 7 eexists. split; [vm_compute; reflexivity|]. split; [vm_compute; reflexivity|].
  split; [vm_compute; reflexivity|]. split; [reflexivity|]. split; [vm_compute; reflexivity|].
  split; [vm_compute; reflexivity|]. split; [reflexivity|]. vm_compute. reflexivity.
Qed.

(** On a closed unbuffered channel [chan_send] fails at once, but a select with
    that send as its only case parks without a timeout, and the close that could
    have woken it is already over: a second close wakes nobody. *)
Theorem select_send_closed_parks :
  exists h0 k h1 h2 h3,
    chan_close 100 (open_chan 0) = Ret (CHAN_OK, h0) /\
    chan_send 100 201 301 h0 = Ret (Done CHAN_ERR_CLOSED, h2) /\
    chan_select frame_ex 7 (Some send_100) (mk_tls 0 0) h0 = Ret (Park 401 (-1) k, h1) /\
    chan_close 100 h1 = Ret (CHAN_ERR_CLOSED, h3) /\ h_park h3 !! 401 = Some 0.
Proof.
  do 5 eexists. split; [vm_compute; reflexivity|]. split; [vm_compute; reflexivity|].
  split; [vm_compute; reflexivity|]. split; vm_compute; reflexivity.
Qed.
