(* ===== verification/SelectReady.v ===== *)
(** * What a select does: the case that wins, and the wait

    [chan_select_impl] against the specifications of the plain operations: a
    select whose cases are on quiescent channels either does what a non-blocking
    send or receive of one of its cases would do, or no case can proceed and it
    reports so or waits with one stub per case.  After the wait it reports the case
    whose stub was served and its stubs are gone. *)

From S2P Require Import Prelude RingLf Heap WaitQ Abs Chan ChanSend ChanRecv Select.
From stdpp Require Import list.
#[local] Open Scope Z_scope.

(** ** Specification *)

(** The non-blocking operation of the case [c] on its channel, now [A], with its
    buffer, now [b]. *)
Definition case_spec (c : select_case) (A : achan) (b : list byte) (a : aheap) : flow chan_err_t * aheap :=
  match c_op c with
  | CHAN_OP_SEND => send_spec (c_ch c) (c_data c) 0 NULL (message (a_es A) b) A a
  | CHAN_OP_RECV => recv_spec (c_ch c) (c_data c) 0 NULL b A a
  end.

(** A case on a live quiescent channel, with a buffer that holds a message. *)
Record case_ok (a : aheap) (c : select_case) (A : achan) (b : list byte) : Prop := {
  co_chan : a_chan a !! c_ch c = Some A;
  co_ok : chan_ok a A;
  co_quiet : quiescent A;
  co_mem : a_mem a !! c_data c = Some b;
  co_len : a_es A <= zlen b
}.
Definition has_ok (a : aheap) (c : select_case) : Prop := exists A b, case_ok a c A b.

(** The operation of [c] proceeds, with the answer [e] and the memory [a']. *)
Definition proceeds (a : aheap) (c : select_case) (e : chan_err_t) (a' : aheap) : Prop :=
  exists A b, case_ok a c A b /\ case_spec c A b a = (Done e, a') /\ e <> CHAN_ERR_WOULDBLOCK.

(** A send on a closed channel.  It should fail at once, and does when the channel is
    buffered and its waiter counts are zero; otherwise [case_ready] calls it not
    ready. *)
Definition overlooked (a : aheap) (c : select_case) : Prop :=
  c_op c = CHAN_OP_SEND /\ exists A, a_chan a !! c_ch c = Some A /\ a_closed A = true /\
    (a_cap A = 0 \/ a_scnt A <> 0 \/ a_rcnt A <> 0).

(** No case can proceed, sends on closed channels that the code overlooks apart. *)
Definition none_proceeds (a : aheap) (cases : list select_case) : Prop :=
  forall c, c ∈ cases -> (forall e a', ~ proceeds a c e a') \/ overlooked a c.

(** What the two attempts of the code find: the locked one no ready case, the
    lock-free one no send on a closed channel. *)
Definition none_ready (a : aheap) (cases : list select_case) : Prop :=
  forall c A, c ∈ cases -> a_chan a !! c_ch c = Some A -> ready c A = false.
Definition none_refused (a : aheap) (c : select_case) : Prop :=
  forall A, a_chan a !! c_ch c = Some A -> c_op c = CHAN_OP_SEND -> a_closed A = true ->
    a_cap A = 0 \/ a_scnt A <> 0 \/ a_rcnt A <> 0.

(** ** The lock-free attempt *)

Lemma quiet_no_sender A : quiescent A -> a_scnt A = 0 -> a_sq A = [].
Proof.
  intros [_ _ _ Hq _] H0. destruct (a_sq A) as [|x l]; [done|]. rewrite zlen_cons in Hq.
  pose proof (zlen_nonneg l). lia.
Qed.
Lemma quiet_no_receiver A : quiescent A -> a_rcnt A = 0 -> a_rq A = [].
Proof.
  intros [_ _ _ _ Hq] H0. destruct (a_rq A) as [|x l]; [done|]. rewrite zlen_cons in Hq.
  pose proof (zlen_nonneg l). lia.
Qed.

Lemma awp_select_closed i cs a (Q : option nat -> aheap -> Prop) :
  Forall (has_ok a) cs ->
  (forall j c, cs !! j = Some c -> proceeds a c CHAN_ERR_CLOSED a -> Q (Some (i + j)%nat) a) ->
  Q None a -> awp (select_closed i cs) a Q.
Proof.
  revert i. induction cs as [|c cs IH]; intros i Hok Hw HN; simpl; [by apply awp_ret|].
  apply Forall_cons in Hok as [(A & b & Hc) Hok].
  assert (awp (select_closed (S i) cs) a Q) as Hnext.
  { apply IH; [done| |done]. intros j c' Hj Hp. replace (S i + j)%nat with (i + S j)%nat by lia. by apply (Hw (S j) c'). }
  destruct (c_op c) eqn:Eop; [done|]. pose proof Hc as [HA Ho Hqu Hb Hl]. awp_go.
  destruct (a_closed A) eqn:Ecl; simpl; [|done]. awp_go.
  destruct (Z.eqb_spec (a_scnt A) 0) as [Hs|]; simpl; [|done]. awp_go.
  destruct (Z.eqb_spec (a_rcnt A) 0) as [Hr|]; simpl; [|done].
  apply awp_bind. eapply awp_ring_empty; [done|]. case_bool_decide as Eb; simpl; [|done].
  apply awp_ret. specialize (Hw 0%nat c eq_refl). rewrite Nat.add_0_r in Hw. apply Hw.
  exists A, b. split; [done|]. split; [|done]. unfold case_spec, recv_spec.
  by rewrite Eop, Eb, (quiet_no_sender A Hqu Hs), Ecl.
Qed.

Lemma awp_select_ring idxs cases a (Q : option (nat * chan_err_t) -> aheap -> Prop) :
  Forall (has_ok a) cases -> Forall (fun i => (i < length cases)%nat) idxs ->
  (forall i c e a', cases !! i = Some c -> proceeds a c e a' -> Q (Some (i, e)) a') ->
  ((forall i c, i ∈ idxs -> cases !! i = Some c -> none_refused a c) -> Q None a) -> awp (select_ring idxs cases) a Q.
Proof.
  intros Hok Hix Hw HN. induction Hix as [|i idxs Hi Hix IH']; simpl; [apply awp_ret, HN; set_solver|].
  destruct (lookup_lt_is_Some_2 _ _ Hi) as [c Hc]. rewrite Hc. simpl.
  destruct (Forall_lookup_1 _ _ _ _ Hok Hc) as (A & b & Hco). pose proof Hco as [HA Ho Hqu Hb Hl].
  assert ((c_op c = CHAN_OP_SEND -> a_closed A = true -> a_cap A = 0 \/ a_scnt A <> 0 \/ a_rcnt A <> 0) ->
    awp (select_ring idxs cases) a Q) as IH.
  { intros Hn. apply IH'. intros Hrest. apply HN. intros j c' [->|Hj]%elem_of_cons Hc'; [|by eapply Hrest].
    intros A' HA'. by simplify_eq. }
  apply awp_bind. intros h R. eapply wp_lift; [done|]. exists a. split; [done|].
  awp_go. destruct (Z.eqb_spec (a_cap A) 0) as [E0|E0]; [by apply IH; left|]. awp_go.
  destruct (Z.eqb_spec (a_scnt A) 0) as [Hs|]; simpl; [|by apply IH; right; left]. awp_go.
  destruct (Z.eqb_spec (a_rcnt A) 0) as [Hr|]; simpl; [|by apply IH; right; right].
  pose proof (quiet_no_sender A Hqu Hs) as Esq. pose proof (quiet_no_receiver A Hqu Hr) as Erq.
  assert (forall e a', case_spec c A b a = (Done e, a') -> e <> CHAN_ERR_WOULDBLOCK -> Q (Some (i, e)) a') as Hwin.
  { intros e a' Ee Hne. apply (Hw i c e a' Hc). by exists A, b. }
  unfold case_spec in Hwin. destruct (c_op c) eqn:Eop; awp_go.
  - unfold send_spec, room in Hwin. rewrite Erq, (proj2 (Z.eqb_neq _ _) E0) in Hwin.
    destruct (a_closed A) eqn:Ecl; [apply awp_ret; by apply Hwin|].
    apply awp_bind. eapply awp_ring_push; [done..|]. destruct (_ <? _); [|by apply IH; congruence]. apply awp_ret. by apply Hwin.
  - unfold recv_spec in Hwin. rewrite Esq in Hwin. eapply awp_ring_pop; [done..|].
    destruct (a_buf A) as [|e buf] eqn:Eb; [by apply IH; congruence|]. apply awp_ret. by apply Hwin.
Qed.

(** ** The locked attempt *)

Lemma awp_collect_ready i cs a (Q : list nat -> aheap -> Prop) :
  Forall (fun c => exists A, a_chan a !! c_ch c = Some A /\ (a_cap A = 0 -> a_buf A = [])) cs ->
  (forall idxs, (forall k, k ∈ idxs <-> exists j c A, k = (i + j)%nat /\ cs !! j = Some c /\
     a_chan a !! c_ch c = Some A /\ ready c A = true) -> Q idxs a) ->
  awp (collect_ready i cs) a Q.
Proof.
  revert i Q. induction cs as [|c cs IH]; intros i Q Hok HQ; simpl.
  { apply awp_ret, HQ. intros k. split; [set_solver|]. by intros (j & c & A & _ & Hj & _). }
  apply Forall_cons in Hok as [(A & HA & H0) Hok]. apply awp_bind. eapply awp_case_ready; [done..|].
  apply awp_bind. apply IH; [done|]. intros idxs Hidx. apply awp_ret, HQ. intros k.
  assert (k ∈ idxs <-> exists j c' A', k = (i + S j)%nat /\ cs !! j = Some c' /\
    a_chan a !! c_ch c' = Some A' /\ ready c' A' = true) as Hk.
  { rewrite Hidx. setoid_rewrite Nat.add_succ_r. done. }
  destruct (ready c A) eqn:Er; rewrite ?elem_of_cons, Hk; split.
  - intros [->|(j & Hj)]; [exists 0%nat, c, A; rewrite Nat.add_0_r; done|by exists (S j)].
  - intros ([|j] & c' & A' & -> & Hj & HA' & Hr); [left; lia|right; exists j, c', A'; done].
  - intros (j & Hj). by exists (S j).
  - intros ([|j] & c' & A' & -> & Hj & HA' & Hr); [simplify_eq/=; congruence|exists j, c', A'; done].
Qed.

(** Locks and changes of a channel whose lock is held. *)
Lemma alocks_on_chan chs p B a :
  p ∈ chs -> alocks true chs (on_chan p B a) = on_chan p (set_a_locked true B) (alocks true chs a).
Proof.
  intros Hp.
  assert (a_chan (alocks true chs (on_chan p B a)) = <[p := set_a_locked true B]> (a_chan (alocks true chs a))) as E.
  { apply map_eq. intros x. destruct (decide (x = p)) as [->|Hne].
    - by rewrite alocks_lookup, decide_True, lookup_insert_eq; simpl; rewrite ?lookup_insert_eq.
    - rewrite lookup_insert_ne, !alocks_lookup by done. simpl. by rewrite !lookup_insert_ne. }
  unfold alocks, on_chan in *. simpl in *. by rewrite E.
Qed.

(** An operation of a case changes no other channel and no lock. *)
Lemma case_spec_chan c A b a e a' :
  a_chan a !! c_ch c = Some A -> case_spec c A b a = (Done e, a') ->
  exists B, a_locked B = a_locked A /\ a_chan a' = <[c_ch c := B]> (a_chan a).
Proof.
  intros HA E. unfold case_spec, send_spec, recv_spec in E.
  repeat case_match; simplify_eq; eexists; (split; [|done || (symmetry; by apply insert_id)]); done.
Qed.

Section execute.
Context (chs : list ptr) (a : aheap) (c : select_case) (A : achan) (b : list byte).
Hypothesis Hco : case_ok a c A b.
Hypothesis Hin : c_ch c ∈ chs.
Hypothesis Hfree : forall x A, x ∈ chs -> a_chan a !! x = Some A -> a_locked A = false.
Let aL := alocks true chs a.
Let AL := set_a_locked true A.

Lemma execute_lookup : a_chan aL !! c_ch c = Some AL.
Proof using Hco Hin. apply locked_lookup; [done|apply Hco]. Qed.

(** The waiter [x] receives or has given its message, lock held. *)
Lemma awp_hand_over x dst src d s B (Q : unit -> aheap -> Prop) :
  waiter_ok a (a_es A) x -> a_es B = a_es A -> a_mem a !! dst = Some d -> a_mem a !! src = Some s ->
  a_es A <= zlen d -> a_es A <= zlen s ->
  Q tt (finish x CHAN_OK (on_chan (c_ch c) B (on_mem dst (overlay (a_es A) (message (a_es A) s) d) aL))) ->
  awp (hand_over (c_ch c) dst src x) (on_chan (c_ch c) B aL) Q.
Proof using Hco.
  intros Hx He Hd Hs Hdl Hsl HQ. pose proof (ok_es _ _ (co_ok _ _ _ _ Hco)). unfold hand_over. awp_go. rewrite He.
  eapply awp_mem_copy; [alive|alive|lia|done|done|]. unfold complete.
  eapply (awp_finish x CHAN_OK (a_es A)); [|exact HQ].
  destruct Hx as [Hl Hdi Hp Hdat]. split; simpl; [done..|]. intros w Hw. destruct (Hdat w Hw) as (o & Ho & Hol).
  destruct (decide (dst = w_data w)) as [->|]; [|rewrite lookup_insert_ne by done; by eauto].
  rewrite lookup_insert_eq. eexists. split; [done|]. apply zlen_overlay; [lia|]. rewrite zlen_message; lia.
Qed.

Lemma awp_execute_send (Q : chan_err_t -> aheap -> Prop) :
  c_op c = CHAN_OP_SEND -> ready c A = true ->
  (forall e a', proceeds a c e a' -> Q e (alocks true chs a')) ->
  awp (execute_send (c_ch c) (c_data c)) aL Q.
Proof using Hco Hin.
  intros Eop Hr HQ. pose proof Hco as [HA Ho Hqu Hb Hl]. pose proof execute_lookup as HL.
  pose proof Ho as [He _ _ H0 Hsl Hm Hw].
  assert (forall e a', case_spec c A b a = (Done e, a') -> e <> CHAN_ERR_WOULDBLOCK -> Q e (alocks true chs a')) as Hwin.
  { intros e a' Ee Hne. apply HQ. by exists A, b. }
  unfold ready in Hr. unfold case_spec, send_spec in Hwin. rewrite Eop in *.
  apply andb_true_iff in Hr as [Hcl%negb_true_iff Hr]. rewrite Hcl in Hwin. unfold execute_send.
  assert (forall r rq B, a_rq A = r :: rq -> B = set_a_rq rq AL ->
    awp (d ← wfield w_data r; hand_over (c_ch c) d (c_data c) r;; mret CHAN_OK) (on_chan (c_ch c) B aL) Q) as Hgive.
  { intros r rq B Er ->. pose proof (Hw CHAN_OP_RECV r ltac:(simpl; rewrite Er; left)) as Hwr.
    pose proof Hwr as [[w Hwx] _ _ Hd]. destruct (Hd w Hwx) as (o & Hoo & Hol).
    awp_soft. eapply awp_hand_over; [done|done|done|done|done|done|]. apply awp_ret.
    rewrite Er in Hwin. specialize (Hwin _ _ eq_refl ltac:(done)).
    rewrite (give_known _ _ _ w o) in Hwin by done.
    exact (eq_ind _ (Q CHAN_OK) Hwin _ (f_equal (finish r CHAN_OK) (f_equal (on_mem (w_data w) _) (alocks_on_chan _ _ _ _ Hin)))). }
  awp_soft. simpl. destruct (Z.eqb_spec (a_cap A) 0) as [Ec|Ec].
  - unfold room in Hr. rewrite Ec, (H0 Ec) in Hr. simpl in Hr. apply negb_true_iff, bool_decide_eq_false in Hr.
    apply awp_bind. eapply awp_pop_receiver; [done|]. simpl. destruct (a_rq A) as [|r rq] eqn:Er; [done|].
    split; [by apply (waiter_ok_direct a (a_es A)), (Hw CHAN_OP_RECV); simpl; rewrite Er; left|].
    intros Hn. rewrite (proj2 (Z.eqb_neq _ _) Hn). by eapply Hgive.
  - apply awp_bind. eapply awp_waitq_empty; [done|]. simpl. apply awp_bind. eapply awp_ring_empty; [done|]. simpl.
    destruct (a_rq A) as [|r rq] eqn:Er.
    + rewrite bool_decide_eq_true_2 by done. simpl. awp_soft. simpl. apply awp_bind.
      rewrite orb_false_r in Hr. rewrite Hr in Hwin. apply Z.ltb_lt in Hr.
      unfold room in Hr. rewrite (proj2 (Z.eqb_neq _ _) Ec) in Hr.
      eapply awp_ring_push; [done|done|done|done|]. simpl. rewrite (proj2 (Z.ltb_lt _ _) Hr). awp_soft.
      eapply awp_pop_receiver; [alive|]. simpl. rewrite Er. simpl. awp_soft.
      specialize (Hwin _ _ eq_refl ltac:(done)). by rewrite alocks_on_chan in Hwin.
    + rewrite bool_decide_eq_false_2 by done. destruct (q_recv _ Hqu) as [Hbuf _]; [by rewrite Er|].
      rewrite bool_decide_eq_true_2 by done. simpl. apply awp_bind.
      eapply awp_pop_receiver; [done|]. simpl. rewrite Er.
      split; [by apply (waiter_ok_direct a (a_es A)), (Hw CHAN_OP_RECV); simpl; rewrite Er; left|].
      intros Hn. rewrite (proj2 (Z.eqb_neq _ _) Hn). simpl. by eapply Hgive.
Qed.

Lemma awp_execute_recv (Q : chan_err_t -> aheap -> Prop) :
  c_op c = CHAN_OP_RECV -> ready c A = true ->
  (forall e a', proceeds a c e a' -> Q e (alocks true chs a')) ->
  awp (execute_recv (c_ch c) (c_data c)) aL Q.
Proof using Hco Hin.
  intros Eop Hr HQ. pose proof Hco as [HA Ho Hqu Hb Hl]. pose proof execute_lookup as HL.
  pose proof Ho as [He _ _ H0 Hsl Hm Hw].
  assert (forall e a', case_spec c A b a = (Done e, a') -> e <> CHAN_ERR_WOULDBLOCK -> Q e (alocks true chs a')) as Hwin.
  { intros e a' Ee Hne. apply HQ. by exists A, b. }
  unfold ready in Hr. unfold case_spec, recv_spec in Hwin. rewrite Eop in *. unfold execute_recv.
  match goal with |- context [if _ =? 0 then ?m else _] => set (from_sender := m) end.
  assert (a_buf A = [] -> awp from_sender aL Q) as Hfrom.
  { intros Eb. rewrite Eb in *. simpl in Hr. apply awp_bind. eapply awp_pop_sender; [done|]. simpl.
    destruct (a_sq A) as [|s sq] eqn:Es.
    - simpl in Hr. rewrite Hr in Hwin. simpl. awp_soft. simpl. rewrite Hr. by apply Hwin.
    - pose proof (Hw CHAN_OP_SEND s ltac:(simpl; rewrite Es; left)) as Hws.
      split; [by apply (waiter_ok_direct a (a_es A))|]. intros Hn. rewrite (proj2 (Z.eqb_neq _ _) Hn). simpl.
      pose proof Hws as [[w Hwx] _ _ _]. destruct (waiter_ok_offer _ _ _ _ Hws Hwx) as (o & Hoo & Hol & Eo).
      awp_soft. eapply awp_hand_over; [done|done|done|done|done|done|]. apply awp_ret.
      specialize (Hwin _ _ eq_refl ltac:(done)). rewrite Eo in Hwin.
      exact (eq_ind _ (Q CHAN_OK) Hwin _ (f_equal (finish s CHAN_OK)
        (alocks_on_chan _ _ _ (on_mem (c_data c) (overlay (a_es A) (message (a_es A) o) b) a) Hin))). }
  awp_soft. simpl. destruct (Z.eqb_spec (a_cap A) 0) as [Ec|Ec]; [by apply Hfrom; auto|].
  apply awp_bind. eapply awp_ring_empty; [done|]. simpl. case_bool_decide as Eb; simpl; [by apply Hfrom|].
  destruct (a_buf A) as [|e buf] eqn:Ebuf; [done|]. clear Hfrom.
  apply awp_bind. eapply awp_ring_pop; [done|done|done|done|]. simpl. rewrite Ebuf.
  apply awp_bind. eapply awp_pop_sender; [alive|]. simpl. destruct (a_sq A) as [|s sq] eqn:Es; simpl.
  - awp_soft. specialize (Hwin _ _ eq_refl ltac:(done)). by rewrite alocks_on_chan in Hwin.
  - pose proof (Hw CHAN_OP_SEND s ltac:(simpl; rewrite Es; left)) as Hws.
    split; [by apply (waiter_ok_direct a (a_es A))|]. intros Hn. rewrite (proj2 (Z.eqb_neq _ _) Hn). simpl.
    specialize (Hwin _ _ eq_refl ltac:(done)). cbv zeta in Hwin. apply Forall_cons in Hm as [Hem _].
    set (a1 := on_mem (c_data c) (overlay (a_es A) e b) a) in *.
    assert (waiter_ok a1 (a_es A) s) as Hs1.
    { eapply waiter_ok_on_mem; [done| |done]. unfold overlay. rewrite zlen_app. unfold zlen in *. rewrite length_drop. lia. }
    pose proof Hws as [[w Hwx] _ Hpk _]. destruct (waiter_ok_offer _ _ _ _ Hs1 Hwx) as (o & Hoo & Hol & Eo).
    awp_soft. eapply awp_ring_push; [alive|done|done|done|]. simpl. destruct (Hsl Ec) as [_ Hs2].
    rewrite (proj2 (Z.ltb_lt _ _)) by (rewrite zlen_cons in Hs2; lia). unfold complete.
    eapply (awp_finish s CHAN_OK (a_es A)).
    { destruct Hs1 as [H1 H2 H3 H4]. split; done. }
    rewrite Eo in Hwin. awp_soft.
    replace (alocks true chs _) with (finish s CHAN_OK (alocks true chs
      (on_chan (c_ch c) (set_a_buf (buf ++ [message (a_es A) o]) (set_a_sq sq A)) a1))) in Hwin by done.
    rewrite alocks_on_chan in Hwin by done. settle Hwin.
Qed.

Lemma awp_execute_case (Q : chan_err_t -> aheap -> Prop) :
  ready c A = true -> (forall e a', proceeds a c e a' -> Q e (alocks true chs a')) ->
  awp (execute_case_locked c) aL Q.
Proof using Hco Hin.
  intros Hr HQ. unfold execute_case_locked. destruct (c_op c) eqn:E; [by apply awp_execute_send|by apply awp_execute_recv].
Qed.
End execute.

(** ** Waiting *)

(** The stub of case [i], as it is queued. *)
Definition stub (f : sel_frame) (i : nat) (c : select_case) : chan_waiter :=
  mk_waiter NULL (c_data c) (c_op c) CHAN_ERR_WOULDBLOCK (Z.of_nat i) (f_park f) (f_state f).

(** A change [g] of the queue [op] of the channel [p]. *)
Definition on_queue (g : list ptr -> list ptr) (p : ptr) (op : chan_op_t) (a : aheap) : aheap :=
  mk_aheap (alter (fun A => set_aq op (g (aq op A)) A) p (a_chan a)) (a_wait a) (a_park a) (a_state a) (a_mem a).

Definition add_stub (f : sel_frame) (i : nat) (c : select_case) (a : aheap) : aheap :=
  on_queue (fun q => q ++ [f_stub f i]) (c_ch c) (c_op c) (on_wait (f_stub f i) (stub f i c) a).
Fixpoint add_stubs (f : sel_frame) (i : nat) (cs : list select_case) (a : aheap) : aheap :=
  match cs with [] => a | c :: cs => add_stubs f (S i) cs (add_stub f i c a) end.

(** The memory of a select that waits: every case has its stub at the end of its
    channel's queue, all on one park and one shared state. *)
Definition parked (f : sel_frame) (cases : list select_case) (a : aheap) : aheap :=
  add_stubs f 0 cases (on_park (f_park f) 0 (on_state (f_state f) WAITER_WAITING a)).

(** The locals of the call are no waiters yet. *)
Record frame_fresh (f : sel_frame) (n : nat) (a : aheap) : Prop := {
  ff_new : forall i, (i < n)%nat -> a_wait a !! f_stub f i = None /\ f_stub f i <> NULL;
  ff_inj : forall i j, (i < n)%nat -> (j < n)%nat -> f_stub f i = f_stub f j -> i = j
}.

Lemma awp_new_waiter x w a (Q : unit -> aheap -> Prop) :
  a_wait a !! x = None -> w_next w = NULL -> (unqueued a x -> Q tt (on_wait x w a)) -> awp (new_waiter x w) a Q.
Proof.
  intros Hx Hn HQ h R.
  assert (unqueued a x) as Hu.
  { intros p A op' HA Hin. destruct (repr_queued _ _ _ _ _ _ R HA Hin) as [_ [w' Hw]].
    rewrite (r_wait _ _ R) in Hx. unfold unlinked in Hx. by rewrite lookup_fmap, Hw in Hx. }
  eapply wp_eval; [done|]. eexists. split; [|exact (HQ Hu)].
  unfold on_wait. rewrite (r_wait _ _ R).
  replace (<[x := w]> (unlinked (h_wait h))) with (unlinked (<[x := w]> (h_wait h))).
  - apply repr_frame with x; [done|done|]. intros y Hy. by apply lookup_insert_ne.
  - unfold unlinked. rewrite fmap_insert. do 2 f_equal. destruct w; simpl in *; by subst.
Qed.

Lemma on_queue_known g p op A a : a_chan a !! p = Some A -> on_queue g p op a = on_chan p (set_aq op (g (aq op A)) A) a.
Proof. intros HA. unfold on_queue, on_chan. by rewrite (alter_known _ _ _ _ HA). Qed.

Lemma on_queue_live g p op a x : is_Some (a_chan (on_queue g p op a) !! x) <-> is_Some (a_chan a !! x).
Proof. simpl. apply lookup_alter_is_Some. Qed.

Lemma awp_register_stubs f i cs a (Q : unit -> aheap -> Prop) :
  (forall c, c ∈ cs -> is_Some (a_chan a !! c_ch c)) ->
  (forall j, (j < length cs)%nat -> a_wait a !! f_stub f (i + j) = None /\ f_stub f (i + j) <> NULL) ->
  (forall j k, (j < length cs)%nat -> (k < length cs)%nat -> f_stub f (i + j) = f_stub f (i + k) -> j = k) ->
  Q tt (add_stubs f i cs a) -> awp (register_stubs f i cs) a Q.
Proof.
  revert i a. induction cs as [|c cs IH]; intros i a Hl Hf Hi HQ; simpl; [by apply awp_ret|].
  destruct (Hl c ltac:(left)) as [A HA]. destruct (Hf 0%nat ltac:(simpl; lia)) as [Hn Hnull].
  rewrite Nat.add_0_r in *. apply awp_bind. apply awp_new_waiter; [done|done|]. intros Hu.
  apply awp_bind. eapply awp_waitq_push; [done|alive|done|done|].
  rewrite <- (on_queue_known (fun q => q ++ [f_stub f i]) _ _ A) by done.
  apply IH; [| | |exact HQ].
  - intros c' Hc'. apply on_queue_live, Hl. by right.
  - intros j Hj. destruct (Hf (S j) ltac:(simpl; lia)) as [H1 H2]. rewrite Nat.add_succ_r in *. simpl. split; [|done].
    rewrite lookup_insert_ne; [done|]. intros E.
    specialize (Hi 0%nat (S j) ltac:(simpl; lia) ltac:(simpl; lia)). rewrite Nat.add_0_r, Nat.add_succ_r in Hi.
    specialize (Hi E). lia.
  - intros j k Hj Hk E. specialize (Hi (S j) (S k) ltac:(simpl; lia) ltac:(simpl; lia)). rewrite !Nat.add_succ_r in Hi.
    specialize (Hi E). lia.
Qed.

Lemma alocks_on_queue b chs g p op a : alocks b chs (on_queue g p op a) = on_queue g p op (alocks b chs a).
Proof.
  assert (a_chan (alocks b chs (on_queue g p op a)) = a_chan (on_queue g p op (alocks b chs a))) as E.
  { apply map_eq. intros x. rewrite alocks_lookup. unfold on_queue. cbn [a_chan].
    destruct (decide (x = p)) as [->|Hne].
    - rewrite !lookup_alter_eq, alocks_lookup. case_decide; [|done]. rewrite <- !option_fmap_compose.
      destruct (a_chan a !! p); [|done]. simpl. f_equal. by destruct op.
    - by rewrite !lookup_alter_ne, alocks_lookup by done. }
  unfold alocks, on_queue in *. simpl in *. by rewrite E.
Qed.

Lemma alocks_add_stubs b chs f i cs a : alocks b chs (add_stubs f i cs a) = add_stubs f i cs (alocks b chs a).
Proof.
  revert i a. induction cs as [|c cs IH]; intros i a; [done|]. simpl. rewrite IH. f_equal.
  unfold add_stub. by rewrite alocks_on_queue.
Qed.

(** Registering changes no lock and no other part of a channel. *)
Lemma add_stubs_locked f i cs a p A :
  a_chan a !! p = Some A -> exists A', a_chan (add_stubs f i cs a) !! p = Some A' /\ a_locked A' = a_locked A.
Proof.
  revert i a A. induction cs as [|c cs IH]; intros i a A HA; [by eauto|]. simpl.
  destruct (decide (c_ch c = p)) as [<-|Hne].
  - destruct (IH (S i) (add_stub f i c a) (set_aq (c_op c) (aq (c_op c) A ++ [f_stub f i]) A)) as (A' & HA' & E).
    + simpl. by rewrite lookup_alter_eq, HA.
    + exists A'. split; [done|]. rewrite E. by destruct (c_op c).
  - apply (IH (S i) (add_stub f i c a) A). simpl. by rewrite lookup_alter_ne.
Qed.

Lemma awp_init_state p a (Q : unit -> aheap -> Prop) :
  Q tt (on_state p WAITER_WAITING a) -> awp (init_state p) a Q.
Proof.
  intros HQ h R. eapply wp_eval; [done|]. eexists. split; [|exact HQ].
  unfold on_state. rewrite (r_state _ _ R). by apply repr_state.
Qed.
Lemma awp_park_init p a (Q : unit -> aheap -> Prop) : Q tt (on_park p 0 a) -> awp (chan_park_init p) a Q.
Proof.
  intros HQ h R. eapply wp_eval; [done|]. eexists. split; [|exact HQ].
  unfold on_park. rewrite (r_park _ _ R). by apply repr_park.
Qed.

Section select.
Context (f : sel_frame) (self_id timeout_ns : Z) (cases : list select_case) (a : aheap).
Hypothesis Hok : Forall (has_ok a) cases.
Hypothesis Hmo : f_malloc_order f = true.
Hypothesis Hmr : f_malloc_ready f = true.
Hypothesis Hms : f_malloc_stubs f = true.
Hypothesis Hff : timeout_ns <> 0 -> frame_fresh f (length cases) a.

Let chs := ordered_channels cases (select_order cases).

Lemma case_of c : c ∈ cases -> has_ok a c.
Proof using Hok. revert c. by apply Forall_forall. Qed.
Lemma case_locked c : c ∈ cases -> c_ch c ∈ chs.
Proof using. intros Hc. apply ordered_elem; [apply select_order_ok|]. eauto. Qed.
Lemma case_unlocked x A : x ∈ chs -> a_chan a !! x = Some A -> a_locked A = false.
Proof using Hok.
  intros (c & Hc & <-)%ordered_elem HA; [|apply select_order_ok].
  destruct (case_of c Hc) as (A' & b & [HA' Ho _ _ _]). simplify_eq. apply Ho.
Qed.

(** Releasing the locks over a memory with the channels of the cases unlocked. *)
Lemma awp_unlock_chans a' (Q : unit -> aheap -> Prop) :
  (forall x A, a_chan a !! x = Some A -> exists A', a_chan a' !! x = Some A' /\ a_locked A' = a_locked A) ->
  Q tt a' -> awp (unlock_all (select_order cases) cases) (alocks true chs a') Q.
Proof using Hok.
  intros Hl HQ. destruct (select_order_ok cases) as [Hs Hp].
  assert (forall x, x ∈ chs -> exists A', a_chan a' !! x = Some A' /\ a_locked A' = false) as Hx.
  { intros x Hx. pose proof Hx as (c & Hc & <-)%ordered_elem; [|done]. destruct (case_of c Hc) as (A & b & Hco).
    destruct (Hl _ _ (co_chan _ _ _ _ Hco)) as (A' & HA' & E). exists A'. split; [done|]. rewrite E.
    apply (case_unlocked (c_ch c)); [done|apply Hco]. }
  apply awp_unlock_all; [done..| |].
  - intros c Hc. destruct (Hx (c_ch c) (case_locked c Hc)) as (A' & HA' & _).
    exists (set_a_locked true A'). split; [|done]. by apply locked_lookup; [apply case_locked|].
  - fold chs. rewrite alocks_back; [done|]. intros x A Hin HA. destruct (Hx x Hin) as (A' & HA' & E). congruence.
Qed.

Lemma awp_deref_lookup {B} (l : list B) i x b (Q : B -> aheap -> Prop) :
  l !! i = Some x -> Q x b -> awp (lift (deref (l !! i))) b Q.
Proof using. intros Hi HQ h R. eapply wp_lift; [by rewrite Hi|]. eauto. Qed.

(** The winner among the ready cases is executed and the locks are released. *)
Lemma awp_select_winner t i0 others (Q : flow (Z * list select_case * tls) -> aheap -> Prop) :
  (forall k, k ∈ i0 :: others -> exists c A, cases !! k = Some c /\ a_chan a !! c_ch c = Some A /\ ready c A = true) ->
  (forall i c e a' t', cases !! i = Some c -> proceeds a c e a' -> Q (Done (Z.of_nat i, set_result i e cases, t')) a') ->
  let t := if (0 <? length others)%nat then next_rng self_id t else t in
  awp (winner ← (if (0 <? length others)%nat
                 then lift (deref ((i0 :: others) !! Z.to_nat (rng_state t mod zlen (i0 :: others))))
                 else mret i0);
       c ← lift (deref (cases !! winner));
       e ← execute_case_locked c;
       unlock_all (select_order cases) cases;;
       mret (Done (Z.of_nat winner, set_result winner e cases, t))) (alocks true chs a) Q.
Proof using Hok.
  intros Hidx Hwin t'. apply awp_bind.
  assert (forall k, k ∈ i0 :: others -> awp (c ← lift (deref (cases !! k));
       e ← execute_case_locked c;
       unlock_all (select_order cases) cases;;
       mret (Done (Z.of_nat k, set_result k e cases, t'))) (alocks true chs a) Q) as Hk.
  { intros k Hk. destruct (Hidx k Hk) as (c & A & Hc & HA & Hr). apply awp_bind.
    eapply awp_deref_lookup; [done|]. pose proof (list_elem_of_lookup_2 _ _ _ Hc) as Hin.
    destruct (case_of c Hin) as (A' & b & Hco). pose proof (co_chan _ _ _ _ Hco). simplify_eq.
    apply awp_bind. eapply (awp_execute_case chs a c A b); [done|by apply case_locked|done|].
    intros e a' Hp. apply awp_bind, awp_unlock_chans; [|apply awp_ret; by eapply Hwin].
    intros x B HB. destruct Hp as (A1 & b1 & [H1 _ _ _ _] & Ee & _).
    destruct (case_spec_chan _ _ _ _ _ _ H1 Ee) as (B' & EB & ->).
    destruct (decide (x = c_ch c)) as [->|Hne].
    - exists B'. rewrite lookup_insert_eq. split; [done|]. by simplify_eq.
    - exists B. by rewrite lookup_insert_ne. }
  destruct (0 <? length others)%nat; [|apply awp_ret, Hk; left].
  set (n := Z.to_nat _). assert (n < length (i0 :: others))%nat as Hn.
  { unfold n, zlen. pose proof (Z.mod_pos_bound (rng_state t') (Z.of_nat (length (i0 :: others)))) as Hm.
    simpl in *. lia. }
  destruct (lookup_lt_is_Some_2 _ _ Hn) as [k Hkn]. eapply awp_deref_lookup; [done|].
  apply Hk. by eapply list_elem_of_lookup_2.
Qed.

Lemma awp_select_impl t (Q : flow (Z * list select_case * tls) -> aheap -> Prop) :
  cases <> [] ->
  (forall i c e a' t', cases !! i = Some c -> proceeds a c e a' -> Q (Done (Z.of_nat i, set_result i e cases, t')) a') ->
  (none_ready a cases -> (forall c, c ∈ cases -> Z.of_nat (length cases) < 2 ^ 63 -> none_refused a c) ->
     timeout_ns = 0 -> forall t', Q (Done (-1, set_c_result CHAN_ERR_WOULDBLOCK <$> cases, t')) a) ->
  (none_ready a cases -> (forall c, c ∈ cases -> Z.of_nat (length cases) < 2 ^ 63 -> none_refused a c) -> timeout_ns <> 0 ->
     forall t', Q (Park (f_park f) timeout_ns (select_woken f (select_order cases) cases t')) (parked f cases a)) ->
  awp (chan_select_impl f self_id (Some cases) timeout_ns t) a Q.
Proof using Hok Hmo Hmr Hms Hff.
  intros Hne Hwin Hidle Hpark. unfold chan_select_impl, chan_select_fast.
  assert (exists c0 cs, cases = c0 :: cs) as (c0 & cs & Ec) by (destruct cases; [done|by eauto]).
  rewrite Ec. cbv match. rewrite <- Ec. apply awp_bind, awp_bind, awp_select_closed; [done| |].
  { intros i c Hc Hp. apply awp_ret, awp_ret. by apply (Hwin i c). }
  cbv zeta. apply awp_bind, awp_select_ring; [done|apply rotation_bound| |].
  { intros i c e a' Hc Hp. apply awp_ret, awp_ret. by apply (Hwin i c). }
  intros Hring. apply awp_ret.
  assert (forall c, c ∈ cases -> Z.of_nat (length cases) < 2 ^ 63 -> none_refused a c) as Href.
  { intros c [i Hi]%list_elem_of_lookup_1 Hlen. apply (Hring i c); [|done].
    apply rotation_all; [done| |by eapply lookup_lt_Some]. apply Z.mod_pos_bound. destruct cases; simpl; [done|lia]. }
  set (t1 := mk_tls _ _). rewrite Hmo, Hmr, Hms, !andb_false_r. fold (select_order cases).
  destruct (select_order_ok cases) as [Hs Hp]. apply awp_lock_section; [done..| |].
  { intros c Hc. destruct (case_of c Hc) as (A & b & [HA Ho _ _ _]). exists A. split; [done|apply Ho]. }
  fold chs. apply awp_bind. apply awp_collect_ready.
  { apply Forall_forall. intros c Hc. destruct (case_of c Hc) as (A & b & [HA Ho _ _ _]).
    exists (set_a_locked true A). split; [by apply locked_lookup; [apply case_locked|]|apply Ho]. }
  intros idxs Hidx.
  assert (forall k, k ∈ idxs <-> exists c A, cases !! k = Some c /\ a_chan a !! c_ch c = Some A /\ ready c A = true) as Hk.
  { intros k. rewrite Hidx. split.
    - intros (j & c & A & -> & Hj & HA & Hr). pose proof (list_elem_of_lookup_2 _ _ _ Hj) as Hc.
      destruct (case_of c Hc) as (A' & b & [HA' _ _ _ _]). rewrite (locked_lookup chs a c A') in HA by (done || by apply case_locked).
      injection HA as <-. by exists c, A'.
    - intros (c & A & Hc & HA & Hr). pose proof (list_elem_of_lookup_2 _ _ _ Hc) as Hin.
      exists k, c, (set_a_locked true A). split; [done|]. split; [done|]. split; [|done].
      by apply locked_lookup; [apply case_locked|]. }
  destruct idxs as [|i0 others].
  - assert (none_ready a cases) as Hnone.
    { intros c A [k Hc]%list_elem_of_lookup_1 HA. destruct (ready c A) eqn:Er; [|done].
      exfalso. apply (not_elem_of_nil k), Hk. eauto. }
    destruct (Z.eqb_spec timeout_ns 0) as [Et|Et].
    + apply awp_bind, awp_unlock_chans; [by eauto|]. by apply awp_ret, Hidle.
    + apply awp_bind, awp_init_state, awp_bind, awp_park_init. destruct (Hff Et) as [Hn Hi].
      apply awp_bind, awp_register_stubs.
      * intros c Hc. destruct (case_of c Hc) as (A & b & [HA _ _ _ _]). simpl.
        eexists. by apply (locked_lookup chs a c A); [apply case_locked|].
      * intros j Hj. by apply Hn.
      * intros j k Hj Hk'. by apply Hi.
      * replace (add_stubs f 0 cases _) with (alocks true chs (parked f cases a)) by apply alocks_add_stubs.
        apply awp_bind, awp_unlock_chans; [|by apply awp_ret, Hpark].
        intros x A HA. by apply add_stubs_locked.
  - apply awp_select_winner; [|done]. intros k Hin. by apply Hk.
Qed.
End select.

(** ** After the wait *)

Definition drop_state (p : ptr) (a : aheap) : aheap :=
  mk_aheap (a_chan a) (a_wait a) (a_park a) (delete p (a_state a)) (a_mem a).

Definition remove_stub (f : sel_frame) (i : nat) (c : select_case) (a : aheap) : aheap :=
  on_queue (filter (.≠ f_stub f i)) (c_ch c) (c_op c) a.
Fixpoint remove_stubs (f : sel_frame) (i : nat) (cs : list select_case) (a : aheap) : aheap :=
  match cs with [] => a | c :: cs => remove_stubs f (S i) cs (remove_stub f i c a) end.

(** The memory of a select that is over. *)
Definition released (f : sel_frame) (cases : list select_case) (a : aheap) : aheap :=
  drop_state (f_state f) (foldl (fun a i => drop_wait (f_stub f i) a)
    (drop_park (f_park f) (remove_stubs f 0 cases a)) (seq 0 (length cases))).

(** What the scan finds when the stubs have the results [rs]. *)
Fixpoint scan (rs : nat -> chan_err_t) (i : nat) (cs : list select_case) (winner : option (nat * chan_err_t))
  : option (nat * chan_err_t) * list select_case :=
  match cs with
  | [] => (winner, [])
  | c :: cs =>
      if decide (rs i = CHAN_ERR_WOULDBLOCK) then prod_map id (cons c) (scan rs (S i) cs winner)
      else prod_map id (cons (set_c_result (rs i) c)) (scan rs (S i) cs (Some (i, rs i)))
  end.

Lemma scan_none rs i cs winner :
  (forall j, (j < length cs)%nat -> rs (i + j)%nat = CHAN_ERR_WOULDBLOCK) -> scan rs i cs winner = (winner, cs).
Proof.
  revert i. induction cs as [|c cs IH]; intros i H; [done|]. simpl.
  pose proof (H 0%nat ltac:(simpl; lia)) as E. rewrite Nat.add_0_r in E. rewrite decide_True by done.
  rewrite IH; [done|]. intros j Hj. rewrite <- (H (S j)) by (simpl; lia). f_equal. lia.
Qed.

Lemma scan_one rs i cs winner k e :
  (k < length cs)%nat -> e <> CHAN_ERR_WOULDBLOCK ->
  (forall j, (j < length cs)%nat -> rs (i + j)%nat = if decide (j = k) then e else CHAN_ERR_WOULDBLOCK) ->
  scan rs i cs winner = (Some ((i + k)%nat, e), set_result k e cs).
Proof.
  revert i k. induction cs as [|c cs IH]; intros i k Hk He H; [simpl in Hk; lia|]. simpl.
  pose proof (H 0%nat ltac:(simpl; lia)) as E. rewrite Nat.add_0_r in E.
  assert (forall j, (j < length cs)%nat -> rs (S i + j)%nat = if decide (S j = k) then e else CHAN_ERR_WOULDBLOCK) as H'.
  { intros j Hj. rewrite <- (H (S j)) by (simpl; lia). f_equal. lia. }
  destruct k as [|k]; simpl in E.
  - rewrite E, decide_False by done. rewrite scan_none; [by rewrite Nat.add_0_r|].
    intros j Hj. by rewrite H'.
  - rewrite decide_True by done. rewrite (IH (S i) k); [|simpl in Hk; lia|done|].
    + simpl. by rewrite Nat.add_succ_r.
    + intros j Hj. rewrite H' by done. destruct (decide (S j = S k)), (decide (j = k)); try done; lia.
Qed.

Lemma on_queue_wait g p op a : a_wait (on_queue g p op a) = a_wait a.
Proof. done. Qed.

(** A stub is in no queue but that of its case, and not there once it is served. *)
Record stub_ok (f : sel_frame) (rs : nat -> chan_err_t) (i : nat) (c : select_case) (a : aheap) : Prop := {
  so_chan : is_Some (a_chan a !! c_ch c);
  so_live : exists w, a_wait a !! f_stub f i = Some w /\ w_result w = rs i;
  so_only : only_in (c_ch c) (c_op c) a (f_stub f i);
  so_served : rs i <> CHAN_ERR_WOULDBLOCK -> unqueued a (f_stub f i)
}.

Lemma on_queue_elem g p op a p' A' op' x :
  a_chan (on_queue g p op a) !! p' = Some A' -> x ∈ aq op' A' -> (forall q, g q ⊆ q) ->
  exists A, a_chan a !! p' = Some A /\ x ∈ aq op' A.
Proof.
  intros HA Hx Hg. simpl in HA. destruct (decide (p' = p)) as [->|Hne].
  - rewrite lookup_alter_eq in HA. destruct (a_chan a !! p) as [A|]; [|done]. injection HA as <-.
    exists A. split; [done|]. destruct (decide (op' = op)) as [->|Hop].
    + rewrite aq_set_same in Hx. by apply Hg in Hx.
    + by rewrite aq_set_ne in Hx.
  - rewrite lookup_alter_ne in HA by done. eauto.
Qed.

Lemma filter_subseteq (x : ptr) (q : list ptr) : filter (.≠ x) q ⊆ q.
Proof. intros y [_ Hy]%list_elem_of_filter. done. Qed.

Lemma stub_ok_remove f rs i c j d a : stub_ok f rs i c a -> stub_ok f rs i c (remove_stub f j d a).
Proof.
  intros [H1 H2 H3 H4]. split; [by apply on_queue_live|done| |].
  - intros p A op HA Hin. destruct (on_queue_elem _ _ _ _ _ _ _ _ HA Hin (filter_subseteq _)) as (A0 & HA0 & Hin0). eauto.
  - intros Hr p A op HA Hin. destruct (on_queue_elem _ _ _ _ _ _ _ _ HA Hin (filter_subseteq _)) as (A0 & HA0 & Hin0).
    by eapply (H4 Hr).
Qed.

Lemma remove_unqueued f i c a : unqueued a (f_stub f i) -> remove_stub f i c a = a.
Proof.
  intros Hu. unfold remove_stub, on_queue. rewrite alter_id; [by destruct a|].
  intros A HA. rewrite filter_notin by (by eapply Hu). by destruct (c_op c), A.
Qed.

Lemma awp_collect_stubs f rs i cs winner a (Q : option (nat * chan_err_t) * list select_case -> aheap -> Prop) :
  (forall j c, cs !! j = Some c -> stub_ok f rs (i + j) c a) ->
  Q (scan rs i cs winner) (remove_stubs f i cs a) -> awp (collect_stubs f i cs winner) a Q.
Proof.
  revert i winner a Q. induction cs as [|c cs IH]; intros i winner a Q Hs HQ; simpl; [by apply awp_ret|].
  pose proof (Hs 0%nat c eq_refl) as H0. rewrite Nat.add_0_r in H0. pose proof H0 as [[A HA] (w & Hw & Er) Ho Hu].
  assert (forall j c', cs !! j = Some c' -> stub_ok f rs (S i + j) c' (remove_stub f i c a)) as Hrest.
  { intros j c' Hj. apply stub_ok_remove. replace (S i + j)%nat with (i + S j)%nat by lia. by apply Hs. }
  awp_soft. simpl in HQ. rewrite Er. case_bool_decide as Ew; simpl.
  - rewrite decide_True in HQ by done. apply awp_bind.
    assert (awp (collect_stubs f (S i) cs winner ≫= fun '(w0, cs0) => mret (w0, c :: cs0)) (remove_stub f i c a) Q) as Hgo.
    { apply awp_bind, IH; [done|]. destruct (scan rs (S i) cs winner). by apply awp_ret. }
    eapply awp_waitq_remove; [done|..].
    + intros Hn. rewrite remove_unqueued in Hgo; [exact Hgo|]. by eapply unqueued_of.
    + intros l1 l2 E [Hn1 Hn2]%not_elem_of_app _. unfold remove_stub in Hgo.
      rewrite (on_queue_known _ _ _ A), E, filter_middle in Hgo by done. exact Hgo.
  - rewrite decide_False in HQ by done. apply awp_bind. rewrite remove_unqueued in HQ, Hrest by auto.
    apply IH; [done|]. destruct (scan rs (S i) cs (Some (i, rs i))). by apply awp_ret.
Qed.

Lemma scan_channels rs i cs winner : c_ch <$> (scan rs i cs winner).2 = c_ch <$> cs.
Proof.
  revert i winner. induction cs as [|c cs IH]; intros i winner; [done|]. simpl.
  case_decide; simpl; by rewrite IH.
Qed.

Lemma ordered_channels_ext cs cs' order : c_ch <$> cs' = c_ch <$> cs -> ordered_channels cs' order = ordered_channels cs order.
Proof.
  intros E. apply list_fmap_ext. intros _ i _. unfold case_addr.
  pose proof (f_equal (.!! i) E) as Ei. simpl in Ei. rewrite !list_lookup_fmap in Ei.
  by destruct (cs' !! i), (cs !! i); simplify_eq/=.
Qed.

Lemma stub_ok_locks b chs f rs i c a : stub_ok f rs i c a -> stub_ok f rs i c (alocks b chs a).
Proof.
  intros [[A0 HA0] H2 H3 H4].
  assert (forall p A op x, a_chan (alocks b chs a) !! p = Some A -> x ∈ aq op A ->
    exists A', a_chan a !! p = Some A' /\ x ∈ aq op A') as Hold.
  { intros p A op x HA Hin. rewrite alocks_lookup in HA. case_decide; [|by eauto].
    destruct (a_chan a !! p) as [A'|]; [|done]. injection HA as <-. exists A'. by destruct op. }
  split; [|done|..].
  - rewrite alocks_lookup, HA0. case_decide; by eexists.
  - intros p A op HA Hin. destruct (Hold _ _ _ _ HA Hin) as (? & ? & ?). eauto.
  - intros Hr p A op HA Hin. destruct (Hold _ _ _ _ HA Hin) as (? & ? & ?). by eapply (H4 Hr).
Qed.

Lemma alocks_remove_stubs b chs f i cs a : alocks b chs (remove_stubs f i cs a) = remove_stubs f i cs (alocks b chs a).
Proof.
  revert i a. induction cs as [|c cs IH]; intros i a; [done|]. simpl. rewrite IH. f_equal. apply alocks_on_queue.
Qed.

Lemma remove_stubs_locked f i cs a p A :
  a_chan a !! p = Some A -> exists A', a_chan (remove_stubs f i cs a) !! p = Some A' /\ a_locked A' = a_locked A.
Proof.
  revert i a A. induction cs as [|c cs IH]; intros i a A HA; [by eauto|]. simpl.
  destruct (decide (c_ch c = p)) as [<-|Hne].
  - destruct (IH (S i) (remove_stub f i c a) (set_aq (c_op c) (filter (.≠ f_stub f i) (aq (c_op c) A)) A)) as (A' & HA' & E).
    + simpl. by rewrite lookup_alter_eq, HA.
    + exists A'. split; [done|]. rewrite E. by destruct (c_op c).
  - apply (IH (S i) (remove_stub f i c a) A). simpl. by rewrite lookup_alter_ne.
Qed.

Lemma unqueued_remove f j d a x : unqueued a x -> unqueued (remove_stub f j d a) x.
Proof.
  intros Hu p A op HA Hin. destruct (on_queue_elem _ _ _ _ _ _ _ _ HA Hin (filter_subseteq _)) as (? & ? & ?).
  by eapply Hu.
Qed.
Lemma unqueued_removes f i cs a x : unqueued a x -> unqueued (remove_stubs f i cs a) x.
Proof. revert i a. induction cs as [|c cs IH]; intros i a Hu; [done|]. by apply IH, unqueued_remove. Qed.

Lemma removed_unqueued f rs i cs a :
  (forall j c, cs !! j = Some c -> stub_ok f rs (i + j) c a) ->
  forall j, (j < length cs)%nat -> unqueued (remove_stubs f i cs a) (f_stub f (i + j)).
Proof.
  revert i a. induction cs as [|c cs IH]; intros i a Hs j Hj; [simpl in Hj; lia|]. simpl. destruct j as [|j].
  - rewrite Nat.add_0_r. apply unqueued_removes.
    pose proof (Hs 0%nat c eq_refl) as H0. rewrite Nat.add_0_r in H0. destruct H0 as [[A HA] _ Ho _].
    unfold remove_stub. rewrite (on_queue_known _ _ _ A) by done. apply (only_in_left _ (c_op c)); [done|].
    apply (not_queued (c_ch c) _ _ A a); [done|done|apply filter_self].
  - replace (i + S j)%nat with (S i + j)%nat by lia. apply IH; [|simpl in Hj; lia].
    intros k c' Hk. apply stub_ok_remove. replace (S i + k)%nat with (i + S k)%nat by lia. by apply Hs.
Qed.

Lemma awp_end_frames f idxs a (Q : unit -> aheap -> Prop) :
  (forall i, i ∈ idxs -> unqueued a (f_stub f i)) ->
  Q tt (foldl (fun a i => drop_wait (f_stub f i) a) a idxs) -> awp (end_frames f idxs) a Q.
Proof.
  revert a. induction idxs as [|i idxs IH]; intros a Hu HQ; simpl; [by apply awp_ret|].
  apply awp_bind, awp_end_frame; [apply Hu; left|]. apply IH; [|done]. intros j Hj. apply (Hu j). by right.
Qed.

Lemma awp_end_state p a (Q : unit -> aheap -> Prop) : Q tt (drop_state p a) -> awp (end_state p) a Q.
Proof.
  intros HQ h R. eapply wp_eval; [done|]. eexists. split; [|exact HQ].
  unfold drop_state. rewrite (r_state _ _ R). by apply repr_state.
Qed.

(** The answer after the wait. *)
Definition select_answer (cases : list select_case) (t : tls) (woken : bool)
  (found : option (nat * chan_err_t) * list select_case) : Z * list select_case * tls :=
  match found.1 with
  | Some (w, _) => if woken then (Z.of_nat w, found.2, t) else (-1, set_c_result CHAN_ERR_TIMEOUT <$> cases, t)
  | None => (-1, set_c_result CHAN_ERR_TIMEOUT <$> cases, t)
  end.

Lemma scan_timeout rs i cs winner :
  set_c_result CHAN_ERR_TIMEOUT <$> (scan rs i cs winner).2 = set_c_result CHAN_ERR_TIMEOUT <$> cs.
Proof.
  revert i winner. induction cs as [|c cs IH]; intros i winner; [done|]. simpl. case_decide; simpl; by rewrite IH.
Qed.

Lemma awp_select_woken f rs cases t woken a (Q : flow (Z * list select_case * tls) -> aheap -> Prop) :
  (forall i c, cases !! i = Some c -> stub_ok f rs i c a) ->
  (forall c A, c ∈ cases -> a_chan a !! c_ch c = Some A -> a_locked A = false) ->
  Q (Done (select_answer cases t woken (scan rs 0 cases None))) (released f cases a) ->
  awp (select_woken f (select_order cases) cases t woken) a Q.
Proof.
  intros Hs Hl HQ. destruct (select_order_ok cases) as [Ho Hp]. unfold select_woken.
  assert (forall c, c ∈ cases -> exists A, a_chan a !! c_ch c = Some A /\ a_locked A = false) as Hc.
  { intros c Hc. pose proof Hc as [i Hi]%list_elem_of_lookup_1. destruct (so_chan _ _ _ _ _ (Hs i c Hi)) as [A HA]. eauto. }
  apply awp_lock_section; [done..|]. set (chs := ordered_channels cases (select_order cases)).
  apply awp_bind. eapply (awp_collect_stubs f rs); [intros j c Hj; by apply stub_ok_locks, Hs|].
  rewrite <- alocks_remove_stubs. set (found := scan rs 0 cases None) in *.
  pose proof (scan_channels rs 0 cases None) as Hch. fold found in Hch.
  assert (set_c_result CHAN_ERR_TIMEOUT <$> found.2 = set_c_result CHAN_ERR_TIMEOUT <$> cases) as Hto by apply scan_timeout.
  assert (length found.2 = length cases) as Hlen by (by rewrite <- (length_fmap c_ch), Hch, length_fmap).
  destruct found as [winner cases']. simpl in *.
  apply awp_bind. unfold unlock_all. rewrite (ordered_channels_ext _ _ _ Hch).
  fold (unlock_all (select_order cases) cases).
  apply awp_unlock_all; [done..| |].
  { intros c Hin. destruct (Hc c Hin) as (A & HA & _).
    destruct (remove_stubs_locked f 0 cases a _ _ HA) as (A' & HA' & _).
    exists (set_a_locked true A'). split; [|done]. apply locked_lookup; [|done]. apply ordered_elem; eauto. }
  fold chs. rewrite alocks_back.
  2: { intros x A Hx HA. apply ordered_elem in Hx as (c & Hin & <-); [|done]. destruct (Hc c Hin) as (A0 & HA0 & HL).
       destruct (remove_stubs_locked f 0 cases a _ _ HA0) as (A' & HA' & E). congruence. }
  apply awp_bind, awp_waiter_destroy, awp_bind, awp_end_frames.
  { intros i Hi%elem_of_seq. apply (removed_unqueued f rs 0 cases a Hs i). lia. }
  apply awp_bind, awp_end_state. rewrite Hlen. fold (released f cases a).
  unfold select_answer in HQ. simpl in HQ. rewrite Hto. destruct winner as [[w e]|]; [|by apply awp_ret].
  destruct woken; by apply awp_ret.
Qed.

(** ** A select that is served *)

Lemma filter_out_none (s q : list ptr) : (forall x, x ∈ q -> x ∉ s) -> filter (.∉ s) q = q.
Proof.
  induction q as [|x q IH]; intros H; [done|]. rewrite filter_cons_True by (apply H; left).
  f_equal. apply IH. intros y Hy. apply H. by right.
Qed.
Lemma filter_out_all (s q : list ptr) : (forall x, x ∈ q -> x ∈ s) -> filter (.∉ s) q = [].
Proof.
  induction q as [|x q IH]; intros H; [done|]. rewrite filter_cons_False by (intros Hn; apply Hn, H; left).
  apply IH. intros y Hy. apply H. by right.
Qed.

(** The stubs of the select in the queue [op] of the channel [p], in order. *)
Fixpoint stubs_of (f : sel_frame) (i : nat) (cs : list select_case) (p : ptr) (op : chan_op_t) : list ptr :=
  match cs with
  | [] => []
  | c :: cs => (if decide (c_ch c = p /\ c_op c = op) then [f_stub f i] else []) ++ stubs_of f (S i) cs p op
  end.

Definition with_queues (g : chan_op_t -> list ptr -> list ptr) (A : achan) : achan :=
  set_a_sq (g CHAN_OP_SEND (a_sq A)) (set_a_rq (g CHAN_OP_RECV (a_rq A)) A).

Lemma with_queues_id g A : (forall op, g op (aq op A) = aq op A) -> with_queues g A = A.
Proof.
  intros E. unfold with_queues. pose proof (E CHAN_OP_SEND) as Es. pose proof (E CHAN_OP_RECV) as Er. simpl in *.
  rewrite Es, Er. by destruct A.
Qed.
Lemma with_queues_twice g g' A : with_queues g (with_queues g' A) = with_queues (fun op q => g op (g' op q)) A.
Proof. done. Qed.
Lemma with_queues_ext g g' A : (forall op, g op (aq op A) = g' op (aq op A)) -> with_queues g A = with_queues g' A.
Proof. intros E. unfold with_queues. f_equal; [apply (E CHAN_OP_SEND)|f_equal; apply (E CHAN_OP_RECV)]. Qed.

Lemma on_queue_chan g p op a x :
  a_chan (on_queue g p op a) !! x
  = with_queues (fun op' q => if decide (p = x /\ op = op') then g q else q) <$> a_chan a !! x.
Proof.
  simpl. destruct (decide (x = p)) as [->|Hne].
  - rewrite lookup_alter_eq. destruct (a_chan a !! p) as [A|]; [|done]. simpl. f_equal.
    unfold with_queues. destruct op; repeat case_decide; try naive_solver; by destruct A.
  - rewrite lookup_alter_ne by done. destruct (a_chan a !! x) as [A|]; [|done]. simpl. f_equal. symmetry.
    apply with_queues_id. intros op'. rewrite decide_False; naive_solver.
Qed.

Lemma add_stubs_chan f i cs a p :
  a_chan (add_stubs f i cs a) !! p = with_queues (fun op q => q ++ stubs_of f i cs p op) <$> a_chan a !! p.
Proof.
  revert i a. induction cs as [|c cs IH]; intros i a; simpl.
  - destruct (a_chan a !! p); [|done]. simpl. f_equal. symmetry. apply with_queues_id. intros op. apply app_nil_r.
  - rewrite IH. unfold add_stub. rewrite on_queue_chan. simpl. destruct (a_chan a !! p) as [A|]; [|done]. simpl. f_equal.
    rewrite with_queues_twice. apply with_queues_ext. intros op. case_decide; simpl; [|done]. by rewrite <- app_assoc.
Qed.

Lemma remove_stubs_chan f i cs a p :
  a_chan (remove_stubs f i cs a) !! p
  = with_queues (fun op q => filter (.∉ stubs_of f i cs p op) q) <$> a_chan a !! p.
Proof.
  revert i a. induction cs as [|c cs IH]; intros i a; simpl.
  - destruct (a_chan a !! p); [|done]. simpl. f_equal. symmetry. apply with_queues_id. intros op.
    apply filter_out_none. set_solver.
  - rewrite IH. unfold remove_stub. rewrite on_queue_chan. destruct (a_chan a !! p) as [A|]; [|done]. simpl. f_equal.
    rewrite with_queues_twice. apply with_queues_ext. intros op. case_decide; simpl; [|done].
    rewrite list_filter_filter. apply list_filter_iff. intros x. set_solver.
Qed.

Lemma stubs_of_elem f i cs p op x :
  x ∈ stubs_of f i cs p op <-> exists j c, cs !! j = Some c /\ c_ch c = p /\ c_op c = op /\ x = f_stub f (i + j).
Proof.
  revert i. induction cs as [|c cs IH]; intros i; simpl.
  - split; [set_solver|]. by intros (j & c & Hj & _).
  - rewrite elem_of_app, IH. split.
    + intros [Hx|(j & c' & Hj & H)].
      * case_decide as Hd; [|set_solver]. apply list_elem_of_singleton in Hx as ->.
        exists 0%nat, c. rewrite Nat.add_0_r. naive_solver.
      * exists (S j), c'. by rewrite Nat.add_succ_r.
    + intros ([|j] & c' & Hj & Hp & Hop & ->); simpl in Hj.
      * left. simplify_eq. rewrite decide_True by done. rewrite Nat.add_0_r. by apply list_elem_of_singleton.
      * right. exists j, c'. rewrite Nat.add_succ_r. done.
Qed.

Lemma add_stubs_wait_ne f i cs a x :
  (forall j, (j < length cs)%nat -> x <> f_stub f (i + j)) -> a_wait (add_stubs f i cs a) !! x = a_wait a !! x.
Proof.
  revert i a. induction cs as [|c cs IH]; intros i a Hx; [done|]. simpl. rewrite IH.
  - simpl. apply lookup_insert_ne. intros <-. apply (Hx 0%nat); [simpl; lia|]. by rewrite Nat.add_0_r.
  - intros j Hj. replace (S i + j)%nat with (i + S j)%nat by lia. apply Hx. simpl. lia.
Qed.

Lemma add_stubs_wait f i cs a j c :
  (forall j k, (j < length cs)%nat -> (k < length cs)%nat -> f_stub f (i + j) = f_stub f (i + k) -> j = k) ->
  cs !! j = Some c -> a_wait (add_stubs f i cs a) !! f_stub f (i + j) = Some (stub f (i + j) c).
Proof.
  revert i a j. induction cs as [|c0 cs IH]; intros i a j Hi Hj; [done|]. simpl. destruct j as [|j]; simpl in Hj.
  - simplify_eq. rewrite Nat.add_0_r, add_stubs_wait_ne; [simpl; by rewrite lookup_insert_eq|].
    intros j Hj E. specialize (Hi 0%nat (S j)). rewrite Nat.add_0_r, Nat.add_succ_r in Hi.
    specialize (Hi ltac:(simpl; lia) ltac:(simpl; lia) E). lia.
  - rewrite Nat.add_succ_r. apply (IH (S i)); [|done]. intros k l Hk Hl E.
    specialize (Hi (S k) (S l) ltac:(simpl; lia) ltac:(simpl; lia)). rewrite !Nat.add_succ_r in Hi. specialize (Hi E). lia.
Qed.

Lemma add_stubs_other f i cs a :
  a_park (add_stubs f i cs a) = a_park a /\ a_state (add_stubs f i cs a) = a_state a /\ a_mem (add_stubs f i cs a) = a_mem a.
Proof. revert i a. induction cs as [|c cs IH]; intros i a; [done|]. simpl. by destruct (IH (S i) (add_stub f i c a)) as (-> & -> & ->). Qed.
Lemma remove_stubs_other f i cs a :
  a_wait (remove_stubs f i cs a) = a_wait a /\ a_park (remove_stubs f i cs a) = a_park a /\
  a_state (remove_stubs f i cs a) = a_state a /\ a_mem (remove_stubs f i cs a) = a_mem a.
Proof. revert i a. induction cs as [|c cs IH]; intros i a; [done|]. simpl. by destruct (IH (S i) (remove_stub f i c a)) as (-> & -> & -> & ->). Qed.

Lemma drop_waits f idxs a :
  let a' := foldl (fun a i => drop_wait (f_stub f i) a) a idxs in
  a_chan a' = a_chan a /\ a_park a' = a_park a /\ a_state a' = a_state a /\ a_mem a' = a_mem a /\
  forall x, a_wait a' !! x = if decide (x ∈ f_stub f <$> idxs) then None else a_wait a !! x.
Proof.
  revert a. induction idxs as [|i idxs IH]; intros a; simpl; [done|].
  destruct (IH (drop_wait (f_stub f i) a)) as (-> & -> & -> & -> & Hw). do 4 (split; [done|]).
  intros x. rewrite Hw. simpl. destruct (decide (x = f_stub f i)) as [->|Hne].
  - rewrite lookup_delete_eq. rewrite (decide_True (P := _ ∈ _ :: _)) by left. by case_decide.
  - rewrite lookup_delete_ne by done. repeat case_decide; try done; set_solver.
Qed.

Lemma awp_claim_stub x w v a (Q : bool -> aheap -> Prop) :
  a_wait a !! x = Some w -> w_select_state w <> NULL -> a_state a !! w_select_state w = Some v ->
  (if v =? WAITER_WAITING then Q true (on_state (w_select_state w) WAITER_WOKEN a) else Q false a) ->
  awp (waiter_try_claim x) a Q.
Proof.
  intros Hw Hn Hv HQ h R. destruct (repr_waiter _ _ _ _ R Hw) as (w' & Hw' & ->). simpl in *.
  pose proof Hv as Hv'. rewrite (r_state _ _ R) in Hv'. unfold waiter_try_claim. wp_go.
  rewrite (proj2 (Z.eqb_neq _ _) Hn). wp_go. destruct (v =? WAITER_WAITING); [|apply wp_ret; by eauto].
  wp_go. eexists. split; [|exact HQ]. unfold on_state. rewrite (r_state _ _ R). by apply repr_state.
Qed.

(** The head of the queue is a stub whose select nobody has claimed yet. *)
Lemma awp_pop_stub fuel p op A x w l a (Q : ptr -> aheap -> Prop) :
  a_chan a !! p = Some A -> aq op A = x :: l -> (0 < fuel)%nat -> x <> NULL ->
  a_wait a !! x = Some w -> w_select_state w <> NULL -> a_state a !! w_select_state w = Some WAITER_WAITING ->
  Q x (on_state (w_select_state w) WAITER_WOKEN (on_chan p (set_aq op l A) a)) ->
  awp (waitq_pop_claimable fuel (p, op)) a Q.
Proof.
  intros HA E Hf Hx Hw Hn Hs HQ h R. destruct (repr_lookup _ _ _ _ R HA) as (c & Hc & Hr).
  destruct fuel as [|fuel]; [lia|]. simpl. apply wp_bind. eapply wp_load_q; [done|]. simpl.
  destruct (cr_q _ _ _ Hr op) as [_ Hseg _]. rewrite E in Hseg. simpl in Hseg. destruct Hseg as (-> & _ & _).
  rewrite (proj2 (Z.eqb_neq x NULL) Hx). refine ((_ : awp _ a Q) h R). clear h R Hc Hr.
  apply awp_bind, (awp_waitq_pop _ _ A); [done|]. rewrite E. intros _.
  apply awp_bind. eapply awp_claim_stub; [done|done|done|]. simpl. by apply awp_ret.
Qed.

Lemma on_state_chan x v p A a : on_state x v (on_chan p A a) = on_chan p A (on_state x v a).
Proof. done. Qed.
#[local] Hint Rewrite on_state_chan : abs_rw.

(** A send on an unbuffered channel whose first receiver is such a stub. *)
Lemma awp_send_to_stub ch data ns self A x w l o b a (Q : flow chan_err_t -> aheap -> Prop) :
  ch <> NULL -> data <> NULL -> a_chan a !! ch = Some A -> a_cap A = 0 -> a_spsc A = false -> a_closed A = false ->
  a_locked A = false -> 0 < a_es A -> a_rq A = x :: l -> x <> NULL -> a_wait a !! x = Some w ->
  w_select_state w <> NULL -> a_state a !! w_select_state w = Some WAITER_WAITING -> is_Some (a_park a !! w_wake_park w) ->
  a_mem a !! w_data w = Some o -> a_es A <= zlen o -> a_mem a !! data = Some b -> a_es A <= zlen b ->
  Q (Done CHAN_OK) (finish x CHAN_OK (on_mem (w_data w) (overlay (a_es A) (message (a_es A) b) o)
    (on_state (w_select_state w) WAITER_WOKEN (on_chan ch (set_a_rq l A) a)))) ->
  awp (chan_send_impl ch data ns self) a Q.
Proof.
  intros Hch Hd HA Hc Hsp Hcl HL He Er Hx Hw Hn Hs Hp Ho Hol Hb Hbl HQ. unfold chan_send_impl, send_slow.
  rewrite (proj2 (Z.eqb_neq _ _) Hch), (proj2 (Z.eqb_neq _ _) Hd). cbn [orb]. awp_soft. rewrite Hsp, Hc. simpl. awp_soft.
  simpl. rewrite Hcl. awp_soft. simpl. rewrite Hc. simpl. unfold send_slow_unbuffered.
  apply awp_bind. unfold waitq_pop_receiver. apply awp_bind. intros h R. apply wp_gets. eexists. split; [done|].
  eapply (awp_pop_stub _ _ _ _ x w l); [alive|simpl; done|unfold loop_fuel; lia|done|done|done|done|].
  rewrite (proj2 (Z.eqb_neq _ _) Hx). simpl. awp_soft. simpl.
  eapply awp_mem_copy; [alive|alive|lia|done|done|]. awp_soft.
  rewrite (finish_known _ w) in HQ by done. settle HQ.
Qed.

(** The memory [a2] is [a'] with the stubs of a select, one of them served: case [k]
    with the result [e]; [left] are the stubs still queued. *)
Record served_select (f : sel_frame) (cases : list select_case) (k : nat) (e : chan_err_t)
    (left : ptr -> chan_op_t -> list ptr) (a' a2 : aheap) : Prop := {
  sv_chan : forall p, a_chan a2 !! p = with_queues (fun op q => q ++ left p op) <$> a_chan a' !! p;
  sv_left : forall p op x, x ∈ left p op -> x ∈ stubs_of f 0 cases p op /\ forall i, (i < length cases)%nat -> x = f_stub f i -> i <> k;
  sv_free : forall i, (i < length cases)%nat -> a_wait a' !! f_stub f i = None /\ unqueued a' (f_stub f i);
  sv_inj : forall i j, (i < length cases)%nat -> (j < length cases)%nat -> f_stub f i = f_stub f j -> i = j;
  sv_wait : forall i c, cases !! i = Some c ->
    a_wait a2 !! f_stub f i = Some (if decide (i = k) then set_w_result e (stub f i c) else stub f i c);
  sv_wait_ne : forall x, (forall i, (i < length cases)%nat -> x <> f_stub f i) -> a_wait a2 !! x = a_wait a' !! x;
  sv_park : delete (f_park f) (a_park a2) = a_park a';
  sv_state : delete (f_state f) (a_state a2) = a_state a';
  sv_mem : a_mem a2 = a_mem a'
}.

Lemma released_served f cases k e left a' a2 : served_select f cases k e left a' a2 -> released f cases a2 = a'.
Proof.
  intros [Hc Hl Hf Hi Hw Hwn Hp Hs Hm]. unfold released.
  set (a3 := drop_park (f_park f) (remove_stubs f 0 cases a2)).
  destruct (drop_waits f (seq 0 (length cases)) a3) as (E1 & E2 & E3 & E4 & E5). unfold drop_state.
  rewrite E1, E2, E3, E4. unfold a3. simpl. destruct (remove_stubs_other f 0 cases a2) as (Rw & Rp & Rs & Rm).
  rewrite Rp, Rs, Rm, Hp, Hs, Hm. replace (a_chan (remove_stubs f 0 cases a2)) with (a_chan a').
  - replace (a_wait (foldl _ a3 _)) with (a_wait a'); [by destruct a'|]. apply map_eq. intros x. rewrite E5. simpl. rewrite Rw.
    case_decide as Hx.
    + apply list_elem_of_fmap in Hx as (i & -> & Hin%elem_of_seq). apply Hf. lia.
    + symmetry. apply Hwn. intros i Hlt ->. apply Hx, list_elem_of_fmap. exists i. split; [done|]. apply elem_of_seq. lia.
  - apply map_eq. intros p. rewrite remove_stubs_chan, Hc. destruct (a_chan a' !! p) as [A|] eqn:HA; [|done]. simpl.
    f_equal. rewrite with_queues_twice. symmetry. apply with_queues_id. intros op. rewrite filter_app.
    rewrite filter_out_none, filter_out_all; [apply app_nil_r| |].
    + intros x Hx. by apply Hl.
    + intros x Hx (j & c & Hj & _ & _ & ->)%stubs_of_elem. eapply Hf; [|exact HA|exact Hx].
      by eapply lookup_lt_Some.
Qed.

Lemma served_stub_ok f cases k e left a' a2 i c :
  served_select f cases k e left a' a2 -> cases !! i = Some c -> is_Some (a_chan a' !! c_ch c) ->
  stub_ok f (fun j => if decide (j = k) then e else CHAN_ERR_WOULDBLOCK) i c a2.
Proof.
  intros [Hc Hl Hf Hi Hw Hwn Hp Hs Hm] Hic [A HA]. pose proof (lookup_lt_Some _ _ _ Hic) as Hlt.
  assert (forall p A2 op, a_chan a2 !! p = Some A2 -> f_stub f i ∈ aq op A2 ->
    p = c_ch c /\ op = c_op c /\ i <> k) as Hq.
  { intros p A2 op HA2 Hin. rewrite Hc in HA2. destruct (a_chan a' !! p) as [A'|] eqn:HA'; [|done].
    simpl in HA2. injection HA2 as <-.
    assert (f_stub f i ∈ aq op A' ++ left p op) as [Hin'|Hin']%elem_of_app by (by destruct op).
    - exfalso. by eapply Hf.
    - destruct (Hl _ _ _ Hin') as [(j & c' & Hj & <- & <- & E)%stubs_of_elem Hne].
      simpl in E. apply Hi in E; [|done|by eapply lookup_lt_Some]. simplify_eq. split; [done|]. split; [done|]. by apply Hne. }
  split.
  - rewrite Hc, HA. by eexists.
  - rewrite (Hw i c Hic). case_decide; eauto.
  - intros p A2 op HA2 Hin. destruct (Hq _ _ _ HA2 Hin) as (-> & -> & _). done.
  - intros Hne p A2 op HA2 Hin. destruct (Hq _ _ _ HA2 Hin) as (_ & _ & Hik). by rewrite decide_False in Hne.
Qed.

(** What follows the wait of a select one of whose stubs was served. *)
Lemma awp_select_served f cases k e left a' a2 t (Q : flow (Z * list select_case * tls) -> aheap -> Prop) :
  served_select f cases k e left a' a2 -> (k < length cases)%nat -> e <> CHAN_ERR_WOULDBLOCK ->
  (forall c, c ∈ cases -> exists A, a_chan a' !! c_ch c = Some A /\ a_locked A = false) ->
  Q (Done (Z.of_nat k, set_result k e cases, t)) a' ->
  awp (select_woken f (select_order cases) cases t true) a2 Q.
Proof.
  intros Hs Hk He Hc HQ. eapply (awp_select_woken f (fun j => if decide (j = k) then e else CHAN_ERR_WOULDBLOCK)).
  - intros i c Hi. eapply served_stub_ok; [done|done|].
    destruct (Hc c) as (A & HA & _); [by eapply list_elem_of_lookup_2|]. by eexists.
  - intros c A Hin HA. destruct (Hc c Hin) as (A' & HA' & HL). rewrite (sv_chan _ _ _ _ _ _ _ Hs), HA' in HA.
    by injection HA as <-.
  - rewrite (released_served _ _ _ _ _ _ _ Hs). rewrite (scan_one _ 0 cases None k e); [exact HQ|done|done|done].
Qed.

(** What a select that waits on nothing but its own stubs is built from. *)
Record select_setup (f : sel_frame) (cases : list select_case) (a : aheap) : Prop := {
  ss_ok : Forall (has_ok a) cases;
  ss_none : forall c e a', c ∈ cases -> ~ proceeds a c e a';
  ss_open : forall c A, c ∈ cases -> a_chan a !! c_ch c = Some A -> a_closed A = false;
  ss_frame : frame_fresh f (length cases) a;
  ss_park : a_park a !! f_park f = None;
  ss_state : a_state a !! f_state f = None;
  ss_null : f_state f <> NULL;
  ss_order : f_malloc_order f = true;
  ss_ready : f_malloc_ready f = true;
  ss_stubs : f_malloc_stubs f = true
}.

Section served.
Context (f : sel_frame) (cases : list select_case) (a : aheap) (k : nat) (c : select_case) (A : achan) (o : list byte).
Hypothesis HS : select_setup f cases a.
Hypothesis Hfree : forall i, (i < length cases)%nat -> unqueued a (f_stub f i).
Hypothesis Hk : cases !! k = Some c.
Hypothesis Hco : case_ok a c A o.

Let ap := parked f cases a.

Lemma parked_wait i ci : cases !! i = Some ci -> a_wait ap !! f_stub f i = Some (stub f i ci).
Proof using HS. intros Hi. apply (add_stubs_wait f 0 cases); [|done]. intros ? ? ? ?. by apply (ff_inj _ _ _ (ss_frame _ _ _ HS)). Qed.

Lemma parked_chan p : a_chan ap !! p = with_queues (fun op q => q ++ stubs_of f 0 cases p op) <$> a_chan a !! p.
Proof using. exact (add_stubs_chan f 0 cases _ p). Qed.

Lemma parked_other :
  a_park ap = <[f_park f := 0]> (a_park a) /\ a_state ap = <[f_state f := WAITER_WAITING]> (a_state a) /\ a_mem ap = a_mem a.
Proof using. exact (add_stubs_other f 0 cases _). Qed.

(** The parked memory with the stub of case [k] taken from its queue, its result
    [e] stored, its channel now [B] and the user memory [mem]. *)
Lemma served_by e B B' mem left a2 :
  (forall x, x ∈ left -> x ∈ stubs_of f 0 cases (c_ch c) (c_op c) /\ x <> f_stub f k) ->
  B' = with_queues (fun op q => q ++ (if decide (op = c_op c) then left else stubs_of f 0 cases (c_ch c) op)) B ->
  (forall op, aq op B = aq op A) ->
  a_chan a2 = <[c_ch c := B']> (a_chan ap) -> a_wait a2 = alter (set_w_result e) (f_stub f k) (a_wait ap) ->
  a_park a2 = <[f_park f := 1]> (a_park ap) -> a_state a2 = <[f_state f := WAITER_WOKEN]> (a_state ap) -> a_mem a2 = mem ->
  served_select f cases k e
    (fun p op => if decide (p = c_ch c /\ op = c_op c) then left else stubs_of f 0 cases p op)
    (mk_aheap (<[c_ch c := B]> (a_chan a)) (a_wait a) (a_park a) (a_state a) mem) a2.
Proof using HS Hfree Hk Hco.
  intros Hleft HB HBq E1 E2 E3 E4 E5. pose proof HS as [_ _ _ [Hn Hi] Hp Hs _ _ _ _].
  destruct parked_other as (Ep & Es & Em). pose proof (lookup_lt_Some _ _ _ Hk) as Hlt. split; simpl.
  - intros p. rewrite E1. destruct (decide (p = c_ch c)) as [->|Hne].
    + rewrite !lookup_insert_eq. simpl. rewrite HB. f_equal. apply with_queues_ext. intros op. repeat case_decide; naive_solver.
    + rewrite !lookup_insert_ne, parked_chan by done. destruct (a_chan a !! p); [|done]. simpl. f_equal.
      apply with_queues_ext. intros op. rewrite decide_False; naive_solver.
  - intros p op x. case_decide as Hd.
    { destruct Hd as [-> ->]. intros Hx. destruct (Hleft x Hx) as [? Hne]. split; [done|]. intros i _ -> ->. done. }
    intros Hx. split; [done|]. intros i _ -> ->.
    apply stubs_of_elem in Hx as (j & cj & Hj & <- & <- & E). simpl in E. apply Hi in E; [|done|by eapply lookup_lt_Some].
    simplify_eq. naive_solver.
  - intros i Hil. split; [by apply Hn|]. intros p A' op HA' Hin. simpl in HA'.
    apply lookup_insert_Some in HA' as [(<- & <-)|(_ & HA')]; [|by eapply Hfree].
    rewrite HBq in Hin. eapply Hfree; [done|apply Hco|done].
  - done.
  - intros i ci Hci. rewrite E2. case_decide as Hik.
    + subst i. rewrite lookup_alter_eq, (parked_wait k ci) by done. done.
    + rewrite lookup_alter_ne, (parked_wait i ci) by (done || (intros E; apply Hik; symmetry; apply Hi; [done|by eapply lookup_lt_Some|done])).
      done.
  - intros x Hx. rewrite E2, lookup_alter_ne by (intros <-; by eapply Hx).
    exact (add_stubs_wait_ne f 0 cases _ x Hx).
  - rewrite E3, Ep, !delete_insert_eq. by apply delete_id.
  - rewrite E4, Es, !delete_insert_eq. by apply delete_id.
  - done.
Qed.

Lemma stubs_of_first :
  (forall j cj, (j < k)%nat -> cases !! j = Some cj -> ~ (c_ch cj = c_ch c /\ c_op cj = c_op c)) ->
  exists l, stubs_of f 0 cases (c_ch c) (c_op c) = f_stub f k :: l /\
    forall x, x ∈ l -> x ∈ stubs_of f 0 cases (c_ch c) (c_op c) /\ x <> f_stub f k.
Proof using HS Hk.
  intros Hfirst. pose proof (ff_inj _ _ _ (ss_frame _ _ _ HS)) as Hi.
  assert (forall i cs, (forall j cj, (i + j < k)%nat -> cs !! j = Some cj -> ~ (c_ch cj = c_ch c /\ c_op cj = c_op c)) ->
    (i <= k)%nat -> cs !! (k - i)%nat = Some c -> exists l,
    stubs_of f i cs (c_ch c) (c_op c) = f_stub f k :: l /\
    forall x, x ∈ l -> exists j, (k < j < i + length cs)%nat /\ x = f_stub f j) as Hgen.
  { intros i cs. revert i. induction cs as [|c0 cs IH]; intros i Hf Hle Hki; [done|]. simpl.
    destruct (decide (i = k)) as [->|Hne].
    - rewrite Nat.sub_diag in Hki. simpl in Hki. simplify_eq. rewrite decide_True by done. eexists. split; [done|].
      intros x (j & cj & Hj & _ & _ & ->)%stubs_of_elem. exists (S k + j)%nat. split; [|done]. apply lookup_lt_Some in Hj. lia.
    - rewrite decide_False by (apply (Hf 0%nat c0); [lia|done]). destruct (IH (S i)) as (l & -> & Hl).
      + intros j cj Hj Hcj. apply (Hf (S j) cj); [lia|done].
      + lia.
      + destruct (k - i)%nat as [|m] eqn:E; [lia|]. simpl in Hki. by replace (k - S i)%nat with m by lia.
      + exists l. split; [done|]. intros x Hx. destruct (Hl x Hx) as (j & Hj & ->). exists j. split; [lia|done]. }
  destruct (Hgen 0%nat cases) as (l & E & Hl); [done|lia|by rewrite Nat.sub_0_r|].
  exists l. split; [done|]. intros x Hx. split; [rewrite E; by right|].
  destruct (Hl x Hx) as (j & Hj & ->). intros Ej. apply Hi in Ej; [lia|lia|by eapply lookup_lt_Some].
Qed.

Lemma stubs_of_alone :
  (forall j cj, cases !! j = Some cj -> c_ch cj = c_ch c -> j = k) ->
  stubs_of f 0 cases (c_ch c) (c_op c) = [f_stub f k] /\
  forall op, op <> c_op c -> stubs_of f 0 cases (c_ch c) op = [].
Proof using HS Hk.
  intros Honly. split.
  - destruct stubs_of_first as (l & El & Hl).
    { intros j cj Hj Hcj [E _]. specialize (Honly j cj Hcj E). lia. }
    rewrite El. destruct l as [|x l]; [done|]. destruct (Hl x ltac:(left)) as [(j & cj & Hj & E & _ & ->)%stubs_of_elem Hne].
    by rewrite (Honly j cj Hj E) in Hne.
  - intros op Hop. destruct (stubs_of f 0 cases (c_ch c) op) as [|x l] eqn:E; [done|].
    assert (x ∈ stubs_of f 0 cases (c_ch c) op) as (j & cj & Hj & Hc & Hcop & _)%stubs_of_elem by (rewrite E; left).
    assert (j = k) as -> by eauto. simplify_eq.
Qed.
End served.

(** A close of a channel on which nobody waits but the first stub of a select,
    to receive. *)
Lemma awp_close_stub ch A x w a (Q : chan_err_t -> aheap -> Prop) :
  ch <> NULL -> a_chan a !! ch = Some A -> a_cap A = 0 -> a_closed A = false -> a_locked A = false ->
  a_sq A = [] -> a_rq A = [x] -> x <> NULL -> a_wait a !! x = Some w ->
  w_select_state w <> NULL -> a_state a !! w_select_state w = Some WAITER_WAITING -> is_Some (a_park a !! w_wake_park w) ->
  Q CHAN_OK (finish x CHAN_ERR_CLOSED (on_state (w_select_state w) WAITER_WOKEN
    (on_chan ch (set_a_rq [] (set_a_closed true A)) a))) ->
  awp (chan_close ch) a Q.
Proof.
  intros Hch HA Hc Hcl HL Es Er Hx Hw Hn Hs Hp HQ. unfold chan_close. rewrite (proj2 (Z.eqb_neq _ _) Hch).
  awp_soft. simpl. rewrite Hcl. awp_soft. eapply awp_close_all; [alive|simpl; rewrite Es; set_solver|]. simpl. rewrite Es. simpl.
  apply awp_bind, awp_loop_fuel. intros fuel Hf. specialize (Hf ch _ CHAN_OP_RECV (lookup_insert_eq _ _ _)). simpl in Hf.
  rewrite Er in Hf. simpl in Hf. destruct fuel as [|[|fuel]]; [lia|lia|]. apply awp_bind. cbn [close_receivers_loop].
  apply awp_bind. eapply awp_waitq_pop; [alive|]. simpl. rewrite Er. intros _. rewrite (proj2 (Z.eqb_neq _ _) Hx).
  apply awp_bind. eapply awp_claim_stub; [done|done|done|]. simpl. awp_soft. simpl. rewrite Hc. simpl. awp_soft. unfold complete.
  awp_soft. eapply awp_waitq_pop; [alive|]. simpl. awp_soft. rewrite (finish_known _ w) in HQ by done.
  settle HQ.
Qed.

Lemma frame_unqueued h f n a :
  repr h a -> frame_fresh f n a -> forall i, (i < n)%nat -> unqueued a (f_stub f i).
Proof.
  intros R [Hn _] i Hi p A op HA Hin. destruct (Hn i Hi) as [Hx _].
  destruct (repr_queued _ _ _ _ _ _ R HA Hin) as [_ [w Hw]].
  rewrite (r_wait _ _ R) in Hx. unfold unlinked in Hx. by rewrite lookup_fmap, Hw in Hx.
Qed.

(** A setup whose cases are on channels that are live and unlocked, also after an
    update of the channel of one case. *)
Lemma setup_live f cases a c A o B :
  select_setup f cases a -> case_ok a c A o -> a_locked B = a_locked A ->
  forall c', c' ∈ cases -> exists A', <[c_ch c := B]> (a_chan a) !! c_ch c' = Some A' /\ a_locked A' = false.
Proof.
  intros [Hok _ _ _ _ _ _ _ _ _] Hco HB c' Hc'. destruct (proj1 (Forall_forall _ _) Hok c' Hc') as (A' & o' & [HA' Ho' _ _ _]).
  destruct (decide (c_ch c' = c_ch c)) as [->|Hne].
  - exists B. rewrite lookup_insert_eq, HB. split; [done|apply Hco].
  - exists A'. rewrite lookup_insert_ne by done. split; [done|apply Ho'].
Qed.

Lemma ready_proceeds a c A e a' :
  a_chan a !! c_ch c = Some A -> ready c A = false -> (c_op c = CHAN_OP_SEND -> a_closed A = false) -> ~ proceeds a c e a'.
Proof.
  intros HA Hr Hcl (A' & b & [HA' _ _ _ _] & E & He). simplify_eq. unfold ready, case_spec in *.
  destruct (c_op c).
  - unfold send_spec in E. rewrite Hcl in * by done. simpl in Hr.
    apply orb_false_iff in Hr as [Hr1 Hr2%negb_false_iff%bool_decide_eq_true].
    rewrite Hr1, Hr2 in E. simpl in E. congruence.
  - unfold recv_spec in E. apply orb_false_iff in Hr as [[Hr1%negb_false_iff%bool_decide_eq_true Hr2%negb_false_iff%bool_decide_eq_true]%orb_false_iff Hr3].
    rewrite Hr1, Hr2, Hr3 in E. simpl in E. congruence.
Qed.

Lemma found_none a cases :
  Forall (has_ok a) cases -> none_ready a cases -> (forall c, c ∈ cases -> none_refused a c) -> none_proceeds a cases.
Proof.
  intros Hok Hn Hr c Hc. destruct (proj1 (Forall_forall _ _) Hok c Hc) as (A & b & [HA _ _ _ _]).
  destruct (decide (c_op c = CHAN_OP_SEND /\ a_closed A = true)) as [[Hop Hcl]|Hno].
  - right. split; [done|]. exists A. split; [done|]. split; [done|]. by eapply Hr.
  - left. intros e a'. apply (ready_proceeds a c A); [done|by apply Hn|]. intros Hop. destruct (a_closed A); naive_solver.
Qed.

(** The three ways a call of select can go, started in the memory [a]: it ends in [a']. *)
Inductive select_outcome (f : sel_frame) (cases : list select_case) (timeout_ns : Z) (a : aheap)
  : flow (Z * list select_case * tls) -> aheap -> Prop :=
| Proceeded i c e a' t :
    cases !! i = Some c -> proceeds a c e a' ->
    select_outcome f cases timeout_ns a (Done (Z.of_nat i, set_result i e cases, t)) a'
| NothingReady t :
    none_proceeds a cases -> timeout_ns = 0 ->
    select_outcome f cases timeout_ns a (Done (-1, set_c_result CHAN_ERR_WOULDBLOCK <$> cases, t)) a
| Waits t :
    none_proceeds a cases -> timeout_ns <> 0 ->
    select_outcome f cases timeout_ns a
      (Park (f_park f) timeout_ns (select_woken f (select_order cases) cases t)) (parked f cases a).

Lemma setup_parks f self_id timeout_ns cases t a h :
  repr h a -> cases <> [] -> select_setup f cases a -> timeout_ns <> 0 ->
  exists t' h1, chan_select_impl f self_id (Some cases) timeout_ns t h
      = Ret (Park (f_park f) timeout_ns (select_woken f (select_order cases) cases t'), h1) /\ repr h1 (parked f cases a).
Proof.
  intros R Hne [Hok Hnone Hopen Hff Hp Hs Hnull Hmo Hmr Hms] Ht.
  destruct (awp_run _ _ _ h (awp_select_impl f self_id timeout_ns cases a Hok Hmo Hmr Hms (fun _ => Hff) t
    (fun r a' => exists t', r = Park (f_park f) timeout_ns (select_woken f (select_order cases) cases t') /\ a' = parked f cases a)
    Hne ltac:(intros i c e a' t' Hi Hpr; by destruct (Hnone c e a' (list_elem_of_lookup_2 _ _ _ Hi)))
    ltac:(done) ltac:(intros _ _ _ t'; by exists t')) R) as (r & h' & a' & E & R' & t' & -> & ->). eauto.
Qed.

(** Waking the select after the stub of case [k] got the result [e]: [a2] is the
    parked memory with that stub taken from its queue. *)
Lemma resume_served f cases a k c A o e B B' left a2 h2 t :
  select_setup f cases a -> (forall i, (i < length cases)%nat -> unqueued a (f_stub f i)) ->
  cases !! k = Some c -> case_ok a c A o -> e <> CHAN_ERR_WOULDBLOCK ->
  (forall x, x ∈ left -> x ∈ stubs_of f 0 cases (c_ch c) (c_op c) /\ x <> f_stub f k) ->
  B' = with_queues (fun op q => q ++ (if decide (op = c_op c) then left else stubs_of f 0 cases (c_ch c) op)) B ->
  (forall op, aq op B = aq op A) -> a_locked B = a_locked A ->
  (exists mem, a2 = finish (f_stub f k) e (on_state (f_state f) WAITER_WOKEN
     (on_chan (c_ch c) B' (mk_aheap (a_chan (parked f cases a)) (a_wait (parked f cases a)) (a_park (parked f cases a))
       (a_state (parked f cases a)) mem)))) ->
  repr h2 a2 ->
  h_park h2 !! f_park f = Some 1 /\
  exists h3, select_woken f (select_order cases) cases t true h2 = Ret (Done (Z.of_nat k, set_result k e cases, t), h3) /\
    repr h3 (mk_aheap (<[c_ch c := B]> (a_chan a)) (a_wait a) (a_park a) (a_state a) (a_mem a2)).
Proof.
  intros HS Hfree Hk Hco He Hleft HB HBq HBl [mem Ea2] R2. pose proof (parked_wait f cases a HS k c Hk) as Hw.
  assert (a_park a2 = <[f_park f := 1]> (a_park (parked f cases a))) as Ep2 by (rewrite Ea2; simpl; by rewrite Hw).
  split; [by rewrite <- (r_park _ _ R2), Ep2, lookup_insert_eq|].
  set (a' := mk_aheap (<[c_ch c := B]> (a_chan a)) (a_wait a) (a_park a) (a_state a) (a_mem a2)).
  assert (served_select f cases k e
    (fun p op => if decide (p = c_ch c /\ op = c_op c) then left else stubs_of f 0 cases p op) a' a2) as Hsv.
  { eapply (served_by f cases a k c A o HS Hfree Hk Hco e B B'); try done; by rewrite Ea2. }
  destruct (awp_run _ _ _ h2 (awp_select_served f cases k e _ a' _ t
    (fun r a3 => r = Done (Z.of_nat k, set_result k e cases, t) /\ a3 = a') Hsv (lookup_lt_Some _ _ _ Hk) He
    (setup_live f cases a c A o B HS Hco HBl) ltac:(done)) R2) as (r3 & h3 & a3 & E3 & R3 & -> & ->). eauto.
Qed.

(** The parked memory itself: nobody was served. *)
Lemma parked_unserved f cases a :
  select_setup f cases a -> (forall i, (i < length cases)%nat -> unqueued a (f_stub f i)) ->
  served_select f cases (length cases) CHAN_OK (stubs_of f 0 cases) a (parked f cases a).
Proof.
  intros HS Hfree. pose proof HS as [_ _ _ [Hn Hi] Hp Hs _ _ _ _]. destruct (parked_other f cases a) as (Ep & Es & Em).
  split; try done.
  - apply parked_chan.
  - intros p op x Hx. split; [done|lia].
  - intros i Hlt. split; [by apply Hn|by apply Hfree].
  - intros i c Hc. rewrite (parked_wait f cases a HS i c Hc), decide_False; [done|]. apply lookup_lt_Some in Hc. lia.
  - intros x Hx. exact (add_stubs_wait_ne f 0 cases _ x Hx).
  - rewrite Ep, delete_insert_eq. by apply delete_id.
  - rewrite Es, delete_insert_eq. by apply delete_id.
Qed.

(** ** Theorems *)

(** C19: A select over cases on quiescent channels, in any memory, either carries
    out one of its cases, with exactly the answer and the effect a non-blocking send
    or receive on that channel would have, every other channel untouched and every
    lock released; or no case can proceed and it answers -1 with every case marked
    CHAN_ERR_WOULDBLOCK and the memory unchanged (no timeout), or parks with one
    stub per case at the end of that case's queue.  That no case can proceed means
    that a non-blocking send or receive of each would answer CHAN_ERR_WOULDBLOCK,
    with one exception, where the code departs from the contract: a send on a closed
    channel that is unbuffered or has a non-zero waiter count is overlooked, and a
    select whose only cases that could answer are such sends waits or reports
    CHAN_ERR_WOULDBLOCK ([select_send_closed_parks]). *)
Theorem select_spec f self_id timeout_ns cases t a h
    (R : repr h a) (Hne : cases <> []) (Hlen : Z.of_nat (length cases) < 2 ^ 63) (Hok : Forall (has_ok a) cases)
    (Hmo : f_malloc_order f = true) (Hmr : f_malloc_ready f = true) (Hms : f_malloc_stubs f = true)
    (Hff : timeout_ns <> 0 -> frame_fresh f (length cases) a) :
  exists r h' a', chan_select_impl f self_id (Some cases) timeout_ns t h = Ret (r, h') /\ repr h' a' /\
    select_outcome f cases timeout_ns a r a'.
Proof.
  assert (none_ready a cases -> (forall c, c ∈ cases -> Z.of_nat (length cases) < 2 ^ 63 -> none_refused a c) ->
    none_proceeds a cases) as Hnone by (intros Hn Hr; apply found_none; [done|done|]; auto).
  destruct (awp_run _ _ _ h (awp_select_impl f self_id timeout_ns cases a Hok Hmo Hmr Hms Hff t
    (select_outcome f cases timeout_ns a) Hne (Proceeded f cases timeout_ns a)
    (fun Hn Hr Ht t' => NothingReady f cases timeout_ns a t' (Hnone Hn Hr) Ht)
    (fun Hn Hr Ht t' => Waits f cases timeout_ns a t' (Hnone Hn Hr) Ht)) R) as (r & h' & a' & E & R' & HQ).
  by exists r, h', a'.
Qed.

(** A message waits in 100; 101 has only a waiting receiver. *)
Definition cases_win : list select_case := [mk_case 101 CHAN_OP_RECV 201 CHAN_OK; mk_case 100 CHAN_OP_RECV 201 CHAN_OK].

Lemma select_spec_witness :
  exists r h' a', chan_select_impl frame_ex 7 (Some cases_win) 0 (mk_tls 0 0) heap_ex = Ret (r, h') /\ repr h' a' /\
    select_outcome frame_ex cases_win 0 aheap_ex r a'.
Proof.
  apply (select_spec frame_ex 7 0 cases_win (mk_tls 0 0) aheap_ex heap_ex heap_ex_repr); [done|done| |done..].
  repeat apply Forall_cons_2; [| |apply Forall_nil_2].
  - exists chan_ex0, [x00]. split; [done|by apply (heap_ex_ok 101)|exact chan_ex0_quiescent|done|done].
  - exists chan_ex, [x00]. split; [done|by apply (heap_ex_ok 100)|exact chan_ex_quiescent|done|done].
Defined.

(** C20: A select that waits is served by a send: while it is parked on cases of which
    none could proceed, another thread sends on the unbuffered channel of its
    receive case [k] (the first on that channel).  The send succeeds and wakes the
    select, which reports case [k] with CHAN_OK; the message is in that case's
    buffer, and every channel, queue, waiter and park is as it was before the
    select: the stubs of all the other cases are gone. *)
Theorem select_rendezvous f self_id timeout_ns cases t k c A o data b ns self a h
    (R : repr h a) (HS : select_setup f cases a) (Ht : timeout_ns <> 0)
    (Hk : cases !! k = Some c) (Hop : c_op c = CHAN_OP_RECV) (Hco : case_ok a c A o)
    (Hcap : a_cap A = 0) (Hsp : a_spsc A = false) (Hrq : a_rq A = []) (Hch : c_ch c <> NULL)
    (Hfirst : forall j cj, (j < k)%nat -> cases !! j = Some cj -> ~ (c_ch cj = c_ch c /\ c_op cj = c_op c))
    (Hd : data <> NULL) (Hb : a_mem a !! data = Some b) (Hbl : a_es A <= zlen b) :
  exists t' h1 h2 h3,
    chan_select_impl f self_id (Some cases) timeout_ns t h
      = Ret (Park (f_park f) timeout_ns (select_woken f (select_order cases) cases t'), h1) /\
    chan_send_impl (c_ch c) data ns self h1 = Ret (Done CHAN_OK, h2) /\ h_park h2 !! f_park f = Some 1 /\
    select_woken f (select_order cases) cases t' true h2
      = Ret (Done (Z.of_nat k, set_result k CHAN_OK cases, t'), h3) /\
    repr h3 (on_mem (c_data c) (overlay (a_es A) (message (a_es A) b) o) a).
Proof.
  pose proof HS as [_ _ Hopen Hff Hp Hs Hnull _ _ _]. pose proof Hco as [HA Hc _ Ho Hol].
  pose proof (lookup_lt_Some _ _ _ Hk) as Hlt. pose proof (frame_unqueued _ _ _ _ R Hff) as Hfree.
  pose proof (Hopen c A (list_elem_of_lookup_2 _ _ _ Hk) HA) as Hcl.
  destruct (setup_parks f self_id timeout_ns cases t a h R ltac:(intros ->; done) HS Ht) as (t' & h1 & E1 & R1).
  destruct (stubs_of_first f cases a k c HS Hk Hfirst) as (l & El & Hl). rewrite Hop in El, Hl.
  destruct (parked_other f cases a) as (Ep & Es & Em).
  set (B' := with_queues (fun op q => q ++ stubs_of f 0 cases (c_ch c) op) A).
  assert (a_chan (parked f cases a) !! c_ch c = Some B') as HB by (by rewrite parked_chan, HA).
  assert (a_rq B' = f_stub f k :: l) as Erq by (unfold B'; simpl; by rewrite Hrq, El).
  pose proof (parked_wait f cases a HS k c Hk) as Hw.
  destruct (awp_run _ _ _ h1 (awp_send_to_stub (c_ch c) data ns self B' (f_stub f k) (stub f k c) l o b (parked f cases a)
    (fun r a2 => r = Done CHAN_OK /\ a2 = finish (f_stub f k) CHAN_OK (on_mem (c_data c) (overlay (a_es A) (message (a_es A) b) o)
      (on_state (f_state f) WAITER_WOKEN (on_chan (c_ch c) (set_a_rq l B') (parked f cases a)))))
    Hch Hd HB Hcap Hsp Hcl (ok_unlocked _ _ Hc) (ok_es _ _ Hc) Erq (proj2 (ff_new _ _ _ Hff k Hlt)) Hw Hnull
    ltac:(simpl; by rewrite Es, lookup_insert_eq) ltac:(simpl; rewrite Ep, lookup_insert_eq; by eexists)
    ltac:(simpl; by rewrite Em) Hol ltac:(by rewrite Em) Hbl ltac:(done)) R1) as (r2 & h2 & a2 & E2 & R2 & -> & Ea2).
  destruct (resume_served f cases a k c A o CHAN_OK A (set_a_rq l B') l a2 h2 t' HS Hfree Hk Hco) as (Ep2 & h3 & E3 & R3);
    [done|by rewrite Hop| |done|done|rewrite Ea2; by eexists|done|].
  { unfold B', with_queues. simpl. rewrite Hop. simpl. by rewrite Hrq. }
  exists t', h1, h2, h3. do 4 (split; [done|]).
  rewrite insert_id in R3 by done. rewrite Ea2 in R3. simpl in R3. by rewrite Em in R3.
Qed.

(** A select that waits notices a close: while it is parked on cases of which none
    could proceed, another thread closes the unbuffered channel of its receive case
    [k], on which nobody else waits.  The close succeeds and wakes the select,
    which reports case [k] with CHAN_ERR_CLOSED; apart from the closed flag every
    channel, queue, waiter, park and buffer is as it was before the select. *)
Theorem select_stopped f self_id timeout_ns cases t k c A o a h
    (R : repr h a) (HS : select_setup f cases a) (Ht : timeout_ns <> 0)
    (Hk : cases !! k = Some c) (Hop : c_op c = CHAN_OP_RECV) (Hco : case_ok a c A o)
    (Hcap : a_cap A = 0) (Hsq : a_sq A = []) (Hrq : a_rq A = []) (Hch : c_ch c <> NULL)
    (Honly : forall j cj, cases !! j = Some cj -> c_ch cj = c_ch c -> j = k) :
  exists t' h1 h2 h3,
    chan_select_impl f self_id (Some cases) timeout_ns t h
      = Ret (Park (f_park f) timeout_ns (select_woken f (select_order cases) cases t'), h1) /\
    chan_close (c_ch c) h1 = Ret (CHAN_OK, h2) /\ h_park h2 !! f_park f = Some 1 /\
    select_woken f (select_order cases) cases t' true h2
      = Ret (Done (Z.of_nat k, set_result k CHAN_ERR_CLOSED cases, t'), h3) /\
    repr h3 (on_chan (c_ch c) (set_a_closed true A) a).
Proof.
  pose proof HS as [_ _ Hopen Hff Hp Hs Hnull _ _ _]. pose proof Hco as [HA Hc _ Ho Hol].
  pose proof (lookup_lt_Some _ _ _ Hk) as Hlt. pose proof (frame_unqueued _ _ _ _ R Hff) as Hfree.
  pose proof (Hopen c A (list_elem_of_lookup_2 _ _ _ Hk) HA) as Hcl.
  destruct (setup_parks f self_id timeout_ns cases t a h R ltac:(intros ->; done) HS Ht) as (t' & h1 & E1 & R1).
  destruct (parked_other f cases a) as (Ep & Es & Em).
  destruct (stubs_of_alone f cases a k c HS Hk Honly) as [Er Eo]. rewrite Hop in Er. 
  set (B' := with_queues (fun op q => q ++ stubs_of f 0 cases (c_ch c) op) A).
  assert (a_chan (parked f cases a) !! c_ch c = Some B') as HB by (by rewrite parked_chan, HA).
  assert (a_sq B' = []) as Esq by (unfold B'; simpl; by rewrite Hsq, Eo by (by rewrite Hop)).
  assert (a_rq B' = [f_stub f k]) as Erq by (unfold B'; simpl; by rewrite Hrq, Er).
  destruct (awp_run _ _ _ h1 (awp_close_stub (c_ch c) B' (f_stub f k) (stub f k c) (parked f cases a)
    (fun r a2 => r = CHAN_OK /\ a2 = finish (f_stub f k) CHAN_ERR_CLOSED
      (on_state (f_state f) WAITER_WOKEN (on_chan (c_ch c) (set_a_rq [] (set_a_closed true B')) (parked f cases a))))
    Hch HB Hcap Hcl (ok_unlocked _ _ Hc) Esq Erq (proj2 (ff_new _ _ _ Hff k Hlt)) (parked_wait f cases a HS k c Hk) Hnull
    ltac:(simpl; by rewrite Es, lookup_insert_eq) ltac:(simpl; rewrite Ep, lookup_insert_eq; by eexists)
    ltac:(done)) R1) as (r2 & h2 & a2 & E2 & R2 & -> & Ea2).
  destruct (resume_served f cases a k c A o CHAN_ERR_CLOSED (set_a_closed true A) (set_a_rq [] (set_a_closed true B')) [] a2 h2 t'
    HS Hfree Hk Hco) as (Ep2 & h3 & E3 & R3); [done|set_solver| |by intros []|done| |done|].
  { unfold B', with_queues. simpl. rewrite Hop. simpl. by rewrite Hrq. }
  { exists (a_mem a). rewrite Ea2, <- Em. by destruct (parked f cases a). }
  exists t', h1, h2, h3. do 4 (split; [done|]). rewrite Ea2 in R3. simpl in R3. by rewrite Em in R3.
Qed.

(** A select whose wait ends without a wake-up while nobody has served it answers -1
    with every case marked CHAN_ERR_TIMEOUT, and the memory is as it was before the
    call. *)
Theorem select_timed_out f self_id timeout_ns cases t a h
    (R : repr h a) (Hne : cases <> []) (HS : select_setup f cases a) (Ht : timeout_ns <> 0) :
  exists t' h1 h2,
    chan_select_impl f self_id (Some cases) timeout_ns t h
      = Ret (Park (f_park f) timeout_ns (select_woken f (select_order cases) cases t'), h1) /\
    select_woken f (select_order cases) cases t' false h1
      = Ret (Done (-1, set_c_result CHAN_ERR_TIMEOUT <$> cases, t'), h2) /\ repr h2 a.
Proof.
  pose proof (frame_unqueued _ _ _ _ R (ss_frame _ _ _ HS)) as Hfree. pose proof (ss_ok _ _ _ HS) as Hok.
  destruct (setup_parks f self_id timeout_ns cases t a h R Hne HS Ht) as (t' & h1 & E1 & R1).
  pose proof (parked_unserved f cases a HS Hfree) as Hsv.
  assert (forall c, c ∈ cases -> exists A, a_chan a !! c_ch c = Some A /\ a_locked A = false) as Hl.
  { intros c Hc. destruct (proj1 (Forall_forall _ _) Hok c Hc) as (A & o & [HA Ho _ _ _]). exists A. split; [done|apply Ho]. }
  destruct (awp_run _ _ _ h1 (awp_select_woken f (fun j => if decide (j = length cases) then CHAN_OK else CHAN_ERR_WOULDBLOCK)
    cases t' false (parked f cases a)
    (fun r a2 => r = Done (-1, set_c_result CHAN_ERR_TIMEOUT <$> cases, t') /\ a2 = a)
    (fun i c Hi => served_stub_ok f cases (length cases) CHAN_OK _ a _ i c Hsv Hi
      ltac:(destruct (Hl c (list_elem_of_lookup_2 _ _ _ Hi)) as (A & -> & _); by eexists))
    ltac:(intros c A Hc HA; destruct (Hl c Hc) as (A' & HA' & HL); rewrite parked_chan, HA' in HA; by injection HA as <-)
    ltac:(rewrite (released_served _ _ _ _ _ _ _ Hsv), scan_none; [done|];
          intros j Hj; simpl; rewrite decide_False; [done|lia])) R1) as (r & h2 & a2 & E2 & R2 & -> & ->). eauto 8.
Qed.

(** ** A concrete wait: receive from 100 or from 101, both unbuffered and idle *)

Definition chan_two : chan := mk_chan 1 0 false false (ch_ring zero_chan) 0 0 (mk_waitq NULL NULL) (mk_waitq NULL NULL) false 1.
Definition achan_two : achan := mk_achan 1 0 false false 0 [] 0 0 [] [] false 1.
Definition heap_two : heap := mk_heap (<[100 := chan_two]> {[101 := chan_two]}) ∅ ∅ ∅ (h_mem heap_sel) [].
Definition aheap_two : aheap := mk_aheap (<[100 := achan_two]> {[101 := achan_two]}) ∅ ∅ ∅ (h_mem heap_sel).
Definition cases_two : list select_case := [mk_case 100 CHAN_OP_RECV 201 CHAN_OK; mk_case 101 CHAN_OP_RECV 202 CHAN_OK].

Lemma heap_two_chan p A : a_chan aheap_two !! p = Some A -> A = achan_two.
Proof. simpl. rewrite lookup_insert_Some, lookup_singleton_Some. naive_solver. Qed.

Lemma heap_two_repr : repr heap_two aheap_two.
Proof.
  split; try done; simpl.
  - repeat apply map_Forall2_insert_2; [| |apply map_Forall2_empty];
      (split; [done|done|]; intros []; apply queue_rep_nil).
  - intros p p' A A' op op' x HA%heap_two_chan _ Hx _. subst A. destruct op; simpl in Hx; set_solver.
Qed.

Lemma heap_two_ok : chan_ok aheap_two achan_two /\ quiescent achan_two.
Proof. split; [|by split]. split; try done. intros [] x; simpl; set_solver. Qed.

Lemma cases_two_ok c : c ∈ cases_two -> exists o, case_ok aheap_two c achan_two o.
Proof.
  intros Hc. destruct heap_two_ok as [Hok Hqu].
  repeat (apply elem_of_cons in Hc as [->|Hc]; [eexists; by split|]). set_solver.
Qed.

Lemma setup_two : select_setup frame_ex cases_two aheap_two.
Proof.
  split; try done.
  - apply Forall_forall. intros c [o Hc]%cases_two_ok. by exists achan_two, o.
  - intros c e a' Hc. destruct (cases_two_ok c Hc) as [o [HA _ _ _ _]]. apply (ready_proceeds _ _ achan_two); [done| |done].
    repeat (apply elem_of_cons in Hc as [->|Hc]; [done|]). set_solver.
  - intros c A _ HA%heap_two_chan. by subst A.
  - split; simpl; intros i; intros; [split; [done|unfold NULL; lia]|lia].
Qed.

Lemma select_rendezvous_witness :
  exists t' h1 h2 h3,
    chan_select_impl frame_ex 7 (Some cases_two) (-1) (mk_tls 0 0) heap_two
      = Ret (Park 401 (-1) (select_woken frame_ex (select_order cases_two) cases_two t'), h1) /\
    chan_send_impl 101 200 0 301 h1 = Ret (Done CHAN_OK, h2) /\ h_park h2 !! 401 = Some 1 /\
    select_woken frame_ex (select_order cases_two) cases_two t' true h2
      = Ret (Done (1, set_result 1 CHAN_OK cases_two, t'), h3) /\
    repr h3 (on_mem 202 (overlay 1 (message 1 [x41]) [x00]) aheap_two).
Proof.
  apply (select_rendezvous frame_ex 7 (-1) cases_two (mk_tls 0 0) 1 (mk_case 101 CHAN_OP_RECV 202 CHAN_OK)
    achan_two [x00] 200 [x41] 0 301 aheap_two heap_two heap_two_repr setup_two); try done.
  - destruct heap_two_ok. by split.
  - intros [|j] cj Hj Hcj; [|lia]. injection Hcj as <-. by intros [? _].
Defined.

Lemma select_stopped_witness :
  exists t' h1 h2 h3,
    chan_select_impl frame_ex 7 (Some cases_two) (-1) (mk_tls 0 0) heap_two
      = Ret (Park 401 (-1) (select_woken frame_ex (select_order cases_two) cases_two t'), h1) /\
    chan_close 100 h1 = Ret (CHAN_OK, h2) /\ h_park h2 !! 401 = Some 1 /\
    select_woken frame_ex (select_order cases_two) cases_two t' true h2
      = Ret (Done (0, set_result 0 CHAN_ERR_CLOSED cases_two, t'), h3) /\
    repr h3 (on_chan 100 (set_a_closed true achan_two) aheap_two).
Proof.
  apply (select_stopped frame_ex 7 (-1) cases_two (mk_tls 0 0) 0 (mk_case 100 CHAN_OP_RECV 201 CHAN_OK)
    achan_two [x42] aheap_two heap_two heap_two_repr setup_two); try done.
  - destruct heap_two_ok. by split.
  - intros [|[|j]] cj Hcj E; [done|injection Hcj as <-; done|done].
Defined.

Lemma select_timed_out_witness :
  exists t' h1 h2,
    chan_select_impl frame_ex 7 (Some cases_two) 1000 (mk_tls 0 0) heap_two
      = Ret (Park 401 1000 (select_woken frame_ex (select_order cases_two) cases_two t'), h1) /\
    select_woken frame_ex (select_order cases_two) cases_two t' false h1
      = Ret (Done (-1, set_c_result CHAN_ERR_TIMEOUT <$> cases_two, t'), h2) /\ repr h2 aheap_two.
Proof.
  apply (select_timed_out frame_ex 7 1000 cases_two (mk_tls 0 0) aheap_two heap_two heap_two_repr); [done|exact setup_two|done].
Defined.
