(* ===== verification/Layout.v ===== *)
(** * What the library leaves alone

    Between its creation and its end a channel keeps its element size, its capacity
    and its kind, and a caller's variable keeps its size, whatever calls are made.
    [keeps] says so of a piece of the library; it goes through every function that
    [chan_send], [chan_recv] and [chan_close] run. *)

From S2P Require Import Prelude RingLf RingSpsc Heap WaitQ Chan ChanSend ChanRecv.
#[local] Open Scope Z_scope.

Definition shape (c : chan) : Z * Z * bool := (ch_elem_size c, ch_capacity c, ch_spsc c).

Record static (h h' : heap) : Prop := {
  st_shape : shape <$> h_chan h' = shape <$> h_chan h;
  st_size : zlen <$> h_mem h' = zlen <$> h_mem h
}.

#[export] Instance static_preorder : PreOrder static.
Proof. split; [done|]. intros h1 h2 h3 [? ?] [? ?]. split; congruence. Qed.

Definition keeps {A} (m : M A) : Prop := forall h a h', m h = Ret (a, h') -> static h h'.

(** ** The primitives *)

Lemma keeps_ret {A} (a : A) : keeps (mret a).
Proof. by intros h b h' [= _ <-]. Qed.
Lemma keeps_bind {A B} (m : M A) (k : A -> M B) : keeps m -> (forall a, keeps (k a)) -> keeps (m ≫= k).
Proof.
  intros Hm Hk h b h'. unfold mbind, M_bind. destruct (m h) as [[a h1]| |] eqn:E; [|done..]. intros E'.
  transitivity h1; [by eapply Hm|by eapply Hk].
Qed.
Lemma keeps_if {A} (b : bool) (m k : M A) : keeps m -> keeps k -> keeps (if b then m else k).
Proof. by destruct b. Qed.
Lemma keeps_hang {A} : keeps (@hang A).
Proof. by intros h a h'. Qed.
Lemma keeps_undef {A} : keeps (@undef A).
Proof. by intros h a h'. Qed.
Lemma keeps_gets {A} (f : heap -> A) : keeps (gets f).
Proof. by intros h a h' [= _ <-]. Qed.
Lemma keeps_lift {A} (m : res A) : keeps (lift m).
Proof. intros h a h'. unfold lift. destruct m; [|done..]. by intros [= _ <-]. Qed.
Lemma keeps_load_chan p : keeps (load_chan p).
Proof. intros h a h'. unfold load_chan. destruct (h_chan h !! p); [|done]. by intros [= _ <-]. Qed.
Lemma keeps_load_waiter p : keeps (load_waiter p).
Proof. intros h a h'. unfold load_waiter. destruct (h_wait h !! p); [|done]. by intros [= _ <-]. Qed.
Lemma keeps_load_state p : keeps (load_state p).
Proof. intros h a h'. unfold load_state. destruct (h_state h !! p); [|done]. by intros [= _ <-]. Qed.
Lemma keeps_load_mem p : keeps (load_mem p).
Proof. intros h a h'. unfold load_mem. destruct (h_mem h !! p); [|done]. by intros [= _ <-]. Qed.
Lemma keeps_modify_chan p f : (forall c, shape (f c) = shape c) -> keeps (modify_chan p f).
Proof.
  intros Hf h a h'. unfold modify_chan. destruct (h_chan h !! p) as [c|] eqn:E; [|done]. intros [= _ <-]. split; [|done]. simpl.
  rewrite fmap_insert, Hf. apply insert_id. by rewrite lookup_fmap, E.
Qed.
Lemma keeps_modify_waiter p f : keeps (modify_waiter p f).
Proof. intros h a h'. unfold modify_waiter. destruct (h_wait h !! p); [|done]. by intros [= _ <-]. Qed.
Lemma keeps_store_state p v : keeps (store_state p v).
Proof. intros h a h'. unfold store_state. destruct (h_state h !! p); [|done]. by intros [= _ <-]. Qed.
Lemma keeps_store_park p v : keeps (store_park p v).
Proof. intros h a h'. unfold store_park. destruct (h_park h !! p); [|done]. by intros [= _ <-]. Qed.
Lemma keeps_new_waiter p w : keeps (new_waiter p w).
Proof. by intros h a h' [= _ <-]. Qed.
Lemma keeps_park_init p : keeps (chan_park_init p).
Proof. by intros h a h' [= _ <-]. Qed.
Lemma keeps_waiter_destroy p : keeps (waiter_destroy p).
Proof. by intros h a h' [= _ <-]. Qed.
Lemma keeps_end_frame p : keeps (end_frame p).
Proof. by intros h a h' [= _ <-]. Qed.

(** A variable is overwritten by as many bytes. *)
Lemma static_store p b b' h : h_mem h !! p = Some b -> zlen b' = zlen b -> static h (set_h_mem (<[p := b']> (h_mem h)) h).
Proof. intros E Hl. split; [done|]. simpl. rewrite fmap_insert, Hl. apply insert_id. by rewrite lookup_fmap, E. Qed.

Lemma read_slot_length r ch out o : read_slot r ch out = Ret o -> zlen o = zlen out.
Proof. unfold read_slot. destruct (slots r); [|done]. apply memcpy_length. Qed.
Lemma ring_lf_pop_length r o b o' r' : ring_lf_pop r o = Ret (b, o', r') -> zlen o' = zlen o.
Proof.
  unfold ring_lf_pop. case_match; [by intros [= <- <- <-]|]. destruct (read_slot _ _ o) eqn:E; simpl; [|done..].
  apply read_slot_length in E. case_match; [|done]. by intros [= <- <- <-].
Qed.
Lemma spsc_load_length r ch o b o' r' : spsc_load r ch o = Ret (b, o', r') -> zlen o' = zlen o.
Proof. unfold spsc_load. destruct (read_slot r ch o) eqn:E; simpl; [|done..]. apply read_slot_length in E. by intros [= <- <- <-]. Qed.
Lemma ring_spsc_pop_length r o b o' r' : ring_spsc_pop r o = Ret (b, o', r') -> zlen o' = zlen o.
Proof. unfold ring_spsc_pop. repeat case_match; try apply spsc_load_length. by intros [= <- <- <-]. Qed.

(** A variable is read, and what [f] makes of it stored. *)
Lemma keeps_store {A B} (f : list byte -> res A) p (k : A -> M B) :
  (forall o x, f o = Ret x -> exists b m, zlen b = zlen o /\ keeps m /\ forall h, k x h = (store_mem p b;; m) h) ->
  keeps (o ← load_mem p; x ← lift (f o); k x).
Proof.
  intros Hf h a h'. unfold mbind, M_bind, load_mem, lift. destruct (h_mem h !! p) as [o|] eqn:E; [|done]. simpl.
  destruct (f o) as [x| |] eqn:Ef; [|done..]. simpl. destruct (Hf o x Ef) as (b & m & Hb & Hm & ->).
  unfold mbind, M_bind, store_mem. rewrite E. simpl. intros E'. etrans; [by eapply static_store|]. by eapply Hm.
Qed.

Lemma keeps_mem_copy dst src n : keeps (mem_copy dst src n).
Proof.
  unfold mem_copy. apply keeps_bind; [apply keeps_load_mem|]. intros s.
  apply (keeps_store (fun d => memcpy d 0 s 0 n)). intros o x Ex. exists x, (mret tt).
  split; [by eapply memcpy_length|]. split; [apply keeps_ret|]. intros h. unfold mbind, M_bind, store_mem. by destruct (h_mem h !! dst).
Qed.

(** ** The functions *)

(** A function keeps what its steps keep. *)
Ltac keeps_step :=
  lazymatch goal with
  | |- keeps (mbind _ _) => apply keeps_bind; [|intros ?]
  | |- keeps (mret _) => apply keeps_ret
  | |- keeps (if _ then _ else _) => apply keeps_if
  | |- keeps (match ?x with _ => _ end) => destruct x
  | |- keeps (let _ := _ in _) => cbv zeta
  | |- keeps hang => apply keeps_hang
  | |- keeps undef => apply keeps_undef
  | |- keeps (gets _) => apply keeps_gets
  | |- keeps (lift _) => apply keeps_lift
  | |- keeps (load_chan _) => apply keeps_load_chan
  | |- keeps (load_waiter _) => apply keeps_load_waiter
  | |- keeps (load_state _) => apply keeps_load_state
  | |- keeps (load_mem _) => apply keeps_load_mem
  | |- keeps (modify_chan _ _) => apply keeps_modify_chan; first [done | by intros c; destruct c | by intros ?; case_match]
  | |- keeps (modify_waiter _ _) => apply keeps_modify_waiter
  | |- keeps (store_state _ _) => apply keeps_store_state
  | |- keeps (store_park _ _) => apply keeps_store_park
  | |- keeps (chan_park_wake _) => apply keeps_store_park
  | |- keeps (new_waiter _ _) => apply keeps_new_waiter
  | |- keeps (chan_park_init _) => apply keeps_park_init
  | |- keeps (waiter_destroy _) => apply keeps_waiter_destroy
  | |- keeps (end_frame _) => apply keeps_end_frame
  | |- keeps (mem_copy _ _ _) => apply keeps_mem_copy
  | |- keeps (field _ _) => unfold field
  | |- keeps (wfield _ _) => unfold wfield
  | |- keeps _ => solve [auto with keeps]
  end.
Ltac keeps_go := repeat keeps_step.
Create HintDb keeps.

Lemma keeps_ring_pop ch out : keeps (ring_pop ch out).
Proof.
  unfold ring_pop. keeps_step; [keeps_go|]. apply (keeps_store (fun o => ring_lf_pop (ch_ring _) o)). intros o [[b o'] r] E.
  apply ring_lf_pop_length in E. exists o', (modify_chan ch (set_ch_ring r);; mret b). split; [done|]. split; [|done]. keeps_go.
Qed.
Lemma keeps_chan_spsc_pop ch out : keeps (chan_spsc_pop ch out).
Proof.
  unfold chan_spsc_pop. keeps_step; [keeps_go|]. apply (keeps_store (fun o => ring_spsc_pop (ch_ring _) o)). intros o [[b o'] r] E.
  apply ring_spsc_pop_length in E. exists o', (modify_chan ch (set_ch_ring r);; mret b). split; [done|]. split; [|done]. keeps_go.
Qed.
Lemma keeps_ring_push ch data : keeps (ring_push ch data).
Proof. unfold ring_push. keeps_go. Qed.
Lemma keeps_chan_spsc_push ch data : keeps (chan_spsc_push ch data).
Proof. unfold chan_spsc_push. keeps_go. Qed.
#[export] Hint Resolve keeps_ring_pop keeps_chan_spsc_pop keeps_ring_push keeps_chan_spsc_push : keeps.

Lemma keeps_chan_lock ch : keeps (chan_lock ch).
Proof. unfold chan_lock. keeps_go. Qed.
Lemma keeps_chan_unlock ch : keeps (chan_unlock ch).
Proof. unfold chan_unlock. keeps_go. Qed.
Lemma keeps_ring_empty ch : keeps (chan_ring_empty ch).
Proof. unfold chan_ring_empty. keeps_go. Qed.
Lemma keeps_ring_full ch : keeps (chan_ring_full ch).
Proof. unfold chan_ring_full. keeps_go. Qed.
#[export] Hint Resolve keeps_chan_lock keeps_chan_unlock keeps_ring_empty keeps_ring_full : keeps.

Lemma shape_set_waitq op v c : shape (set_waitq op v c) = shape c.
Proof. by destruct op. Qed.
Lemma keeps_set_q_head q v : keeps (set_q_head q v).
Proof. apply keeps_modify_chan. intros c. apply shape_set_waitq. Qed.
Lemma keeps_set_q_tail q v : keeps (set_q_tail q v).
Proof. apply keeps_modify_chan. intros c. apply shape_set_waitq. Qed.
Lemma keeps_load_q q : keeps (load_q q).
Proof. unfold load_q. keeps_go. Qed.
#[export] Hint Resolve keeps_set_q_head keeps_set_q_tail keeps_load_q : keeps.

Lemma keeps_waitq_push q w : keeps (waitq_push q w).
Proof. unfold waitq_push. keeps_go. Qed.
Lemma keeps_waitq_push_front q w : keeps (waitq_push_front q w).
Proof. unfold waitq_push_front. keeps_go. Qed.
Lemma keeps_waitq_pop q : keeps (waitq_pop q).
Proof. unfold waitq_pop. keeps_go. Qed.
Lemma keeps_waitq_remove_loop fuel q target prev cur : keeps (waitq_remove_loop fuel q target prev cur).
Proof. revert prev cur. induction fuel as [|fuel IH]; intros prev cur; simpl; keeps_go. Qed.
Lemma keeps_waitq_remove q target : keeps (waitq_remove q target).
Proof. unfold waitq_remove. keeps_go. apply keeps_waitq_remove_loop. Qed.
Lemma keeps_waiter_init w data op : keeps (waiter_init w data op).
Proof. unfold waiter_init. keeps_go. Qed.
Lemma keeps_waiter_try_claim w : keeps (waiter_try_claim w).
Proof. unfold waiter_try_claim. keeps_go. Qed.
#[export] Hint Resolve keeps_waitq_push keeps_waitq_push_front keeps_waitq_pop keeps_waitq_remove keeps_waiter_init keeps_waiter_try_claim : keeps.

Lemma keeps_pop_claimable fuel q : keeps (waitq_pop_claimable fuel q).
Proof. induction fuel as [|fuel IH]; simpl; keeps_go. Qed.
Lemma keeps_pop_sender ch : keeps (waitq_pop_sender ch).
Proof. unfold waitq_pop_sender. keeps_go. apply keeps_pop_claimable. Qed.
Lemma keeps_pop_receiver ch : keeps (waitq_pop_receiver ch).
Proof. unfold waitq_pop_receiver. keeps_go. apply keeps_pop_claimable. Qed.
Lemma keeps_complete w e : keeps (complete w e).
Proof. unfold complete. keeps_go. Qed.
#[export] Hint Resolve keeps_pop_sender keeps_pop_receiver keeps_complete : keeps.

Lemma keeps_close_all q : keeps (waitq_close_all q).
Proof. unfold waitq_close_all. keeps_step; [keeps_go|]. induction a as [|fuel IH]; simpl; keeps_go. Qed.
Lemma keeps_deliver ch : keeps (chan_deliver_ring_to_receivers_locked ch).
Proof. unfold chan_deliver_ring_to_receivers_locked. keeps_step; [keeps_go|]. induction a as [|fuel IH]; simpl; keeps_go. Qed.
Lemma keeps_admit_loop fuel ch : keeps (admit_loop fuel ch).
Proof. induction fuel as [|fuel IH]; simpl; keeps_go. Qed.
Lemma keeps_close_receivers fuel ch : keeps (close_receivers_loop fuel ch).
Proof. induction fuel as [|fuel IH]; simpl; keeps_go. Qed.
#[export] Hint Resolve keeps_close_all keeps_deliver keeps_admit_loop keeps_close_receivers : keeps.

Lemma keeps_wake_receivers ch : keeps (wake_receivers ch).
Proof. unfold wake_receivers, chan_deliver_ring_to_receivers. keeps_go. Qed.
Lemma keeps_admit_senders ch : keeps (admit_senders ch).
Proof. unfold admit_senders, chan_admit_senders_to_ring. keeps_go. Qed.
Lemma keeps_send_unregister ch self : keeps (send_unregister ch self).
Proof. unfold send_unregister. keeps_go. Qed.
Lemma keeps_recv_unregister ch self : keeps (recv_unregister ch self).
Proof. unfold recv_unregister. keeps_go. Qed.
Lemma keeps_return_result self : keeps (return_result self).
Proof. unfold return_result. keeps_go. Qed.
Lemma keeps_return_code self e : keeps (return_code self e).
Proof. unfold return_code. keeps_go. Qed.
#[export] Hint Resolve keeps_wake_receivers keeps_admit_senders keeps_send_unregister keeps_recv_unregister keeps_return_result keeps_return_code : keeps.

Lemma keeps_send_fast n ch data : keeps (send_fast n ch data).
Proof. induction n as [|n IH]; simpl; keeps_go. Qed.
Lemma keeps_send_fast_spsc n ch data : keeps (send_fast_spsc n ch data).
Proof. induction n as [|n IH]; simpl; keeps_go. Qed.
Lemma keeps_recv_fast n ch out : keeps (recv_fast n ch out).
Proof. induction n as [|n IH]; simpl; keeps_go. Qed.
Lemma keeps_recv_fast_spsc n ch out : keeps (recv_fast_spsc n ch out).
Proof. induction n as [|n IH]; simpl; keeps_go. Qed.
#[export] Hint Resolve keeps_send_fast keeps_send_fast_spsc keeps_recv_fast keeps_recv_fast_spsc : keeps.

(** ** The calls *)

Lemma keeps_chan_send ch data t self : keeps (chan_send_impl ch data t self).
Proof. unfold chan_send_impl, send_slow, send_slow_unbuffered, send_slow_buffered. keeps_go. Qed.
Lemma keeps_chan_recv ch out t self : keeps (chan_recv_impl ch out t self).
Proof. unfold chan_recv_impl, recv_slow, recv_slow_unbuffered, recv_slow_buffered, take_from_sender. keeps_go. Qed.
Lemma keeps_chan_close ch : keeps (chan_close ch).
Proof. unfold chan_close. keeps_go. Qed.
Lemma keeps_send_woken unbuffered ch self woken :
  keeps ((if unbuffered : bool then send_woken_unbuffered else send_woken_buffered) ch self woken).
Proof. destruct unbuffered; unfold send_woken_unbuffered, send_woken_buffered; keeps_go. Qed.
Lemma keeps_recv_woken unbuffered ch self woken :
  keeps ((if unbuffered : bool then recv_woken_unbuffered else recv_woken_buffered) ch self woken).
Proof. destruct unbuffered; unfold recv_woken_unbuffered, recv_woken_buffered; keeps_go. Qed.
