(* ===== verification/Net.v ===== *)
(** * Programs over channels

    The examples are sets of threads that meet at channels.  A thread is a state
    and the call it makes next ([action]); a program runs here in two ways:
    [snet_step] over the contract of the library ([ChanSpec]), where a call may
    block and is resumed later, and [net_step] over plain bounded queues, where a
    call that cannot be answered is a step that is not enabled.  The second is the
    one to reason about; [program_follows] shows that the first does nothing else, and
    neither stops nor runs on where the second does not.  [NetHeap] runs programs on the
    code of the library. *)

From S2P Require Import Prelude Heap ChanSpec.
From stdpp Require Import list.
#[local] Open Scope Z_scope.

(** What [chan_try_recv] answers. *)
Inductive poll_answer (M : Type) := Got (m : M) | Empty | Over.
Arguments Got {M} m.
Arguments Empty {M}.
Arguments Over {M}.

(** The next call of a thread: [chan_send] (was it CHAN_OK), [chan_recv] (the
    message of a CHAN_OK), [chan_try_recv], [chan_close], [pthread_join] of another
    thread; or it has returned. *)
Inductive action (M S : Type) :=
| ASend (c : nat) (m : M) (k : bool -> S)
| ARecv (c : nat) (k : option M -> S)
| APoll (c : nat) (k : poll_answer M -> S)
| AClose (c : nat) (k : S)
| AJoin (t : nat) (k : S)
| AHalt.
Arguments ASend {M S} c m k.
Arguments ARecv {M S} c k.
Arguments APoll {M S} c k.
Arguments AClose {M S} c k.
Arguments AJoin {M S} t k.
Arguments AHalt {M S}.

(** A program: the code of its threads, the room of its channels (0: unbuffered). *)
Class Program (M S : Type) := {
  act : nat -> S -> action M S;
  room : nat -> Z
}.

(** A queue. *)
Record queue (M : Type) := mk_queue { q_buf : list M; q_closed : bool }.
Arguments mk_queue {M} q_buf q_closed.
Arguments q_buf {M} q.
Arguments q_closed {M} q.

Section net.
Context {M S : Type} `{Program M S}.

(** ** Over queues *)

Record net := mk_net { n_chan : list (queue M); n_thread : list S }.

Definition advance (t : nat) (s : S) (n : net) : net := mk_net (n_chan n) (<[t := s]> (n_thread n)).
Definition set_queue (c : nat) (q : queue M) (n : net) : net := mk_net (<[c := q]> (n_chan n)) (n_thread n).

Definition halted (t : nat) (s : S) : bool := match act t s with AHalt => true | _ => false end.

(** A call of the thread [t], or the meeting of a sender and a receiver on an
    unbuffered channel. *)
Inductive label := Go (t : nat) | Meet (t u : nat).

Definition send_to (t c : nat) (m : M) (k : bool -> S) (q : queue M) (n : net) : option net :=
  if q_closed q then Some (advance t (k false) n)
  else if zlen (q_buf q) <? room c then Some (advance t (k true) (set_queue c (mk_queue (q_buf q ++ [m]) false) n))
  else None.

Definition recv_from (t c : nat) (k : option M -> S) (q : queue M) (n : net) : option net :=
  match q_buf q with
  | m :: b => Some (advance t (k (Some m)) (set_queue c (mk_queue b (q_closed q)) n))
  | [] => if q_closed q then Some (advance t (k None) n) else None
  end.

Definition poll_from (t c : nat) (k : poll_answer M -> S) (q : queue M) (n : net) : net :=
  match q_buf q with
  | m :: b => advance t (k (Got m)) (set_queue c (mk_queue b (q_closed q)) n)
  | [] => advance t (k (if q_closed q then Over else Empty)) n
  end.

Definition net_go (t : nat) (a : action M S) (n : net) : option net :=
  match a with
  | ASend c m k => q ← n_chan n !! c; send_to t c m k q n
  | ARecv c k => q ← n_chan n !! c; recv_from t c k q n
  | APoll c k => q ← n_chan n !! c; Some (poll_from t c k q n)
  | AClose c k => q ← n_chan n !! c; Some (advance t k (set_queue c (mk_queue (q_buf q) true) n))
  | AJoin u k => s ← n_thread n !! u; if halted u s then Some (advance t k n) else None
  | AHalt => None
  end.

(** What the receiver of a meeting goes on with, and on which channel it waits. *)
Definition accepts (a : action M S) : option (nat * (M -> S)) :=
  match a with
  | ARecv c k => Some (c, fun m => k (Some m))
  | APoll c k => Some (c, fun m => k (Got m))
  | _ => None
  end.

Definition net_meet (t u : nat) (n : net) : option net :=
  s ← n_thread n !! t; r ← n_thread n !! u;
  match act t s, accepts (act u r) with
  | ASend c m k, Some (c', k') =>
      q ← n_chan n !! c;
      if bool_decide (t <> u /\ c = c' /\ room c = 0) && negb (q_closed q)
      then Some (advance u (k' m) (advance t (k true) n)) else None
  | _, _ => None
  end.

Definition net_step (l : label) (n : net) : option net :=
  match l with
  | Go t => s ← n_thread n !! t; net_go t (act t s) n
  | Meet t u => net_meet t u n
  end.

Fixpoint net_run (ls : list label) (n : net) : option net :=
  match ls with [] => Some n | l :: ls => n ← net_step l n; net_run ls n end.

Lemma net_run_app ls ks n n1 n2 : net_run ls n = Some n1 -> net_run ks n1 = Some n2 -> net_run (ls ++ ks) n = Some n2.
Proof.
  revert n. induction ls as [|l ls IH]; intros n E1 E2; simpl in *; [by simplify_eq|].
  destruct (net_step l n) as [n'|]; [|done]. simpl in *. by apply IH.
Qed.

(** A schedule that takes [f i] to [f (i + 1)], again and again. *)
Definition again (k : nat) (ls : list label) : list label := concat (replicate k ls).
Lemma net_run_again (f : Z -> net) ls lo k :
  (forall i, lo <= i < lo + Z.of_nat k -> net_run ls (f i) = Some (f (i + 1))) ->
  net_run (again k ls) (f lo) = Some (f (lo + Z.of_nat k)).
Proof.
  revert lo. induction k as [|k IH]; intros lo Hf; [simpl; do 2 f_equal; lia|]. unfold again. simpl.
  eapply net_run_app; [apply Hf; lia|]. replace (lo + Z.of_nat (Datatypes.S k)) with (lo + 1 + Z.of_nat k) by lia.
  apply IH. intros i Hi. apply Hf. lia.
Qed.
Lemma length_again k ls : length (again k ls) = (k * length ls)%nat.
Proof. unfold again. induction k as [|k IH]; [done|]. simpl. rewrite length_app, IH. done. Qed.

Lemma no_meeting : (forall c, 0 < room c) -> forall t u n, net_meet t u n = None.
Proof.
  intros Hpos t u n. unfold net_meet. destruct (n_thread n !! t) as [s|]; [|done]. destruct (n_thread n !! u) as [r|]; [|done]. simpl.
  destruct (act t s) as [c m k| | | | |]; try done. destruct (accepts (act u r)) as [[c' k']|]; [|done].
  destruct (n_chan n !! c); [|done]. simpl. rewrite bool_decide_false; [done|]. intros (_ & _ & Hz). specialize (Hpos c). lia.
Qed.

(** An invariant of the steps holds along runs. *)
Lemma net_run_inv (P : net -> Prop) ls n n' :
  (forall l n n', P n -> net_step l n = Some n' -> P n') -> P n -> net_run ls n = Some n' -> P n'.
Proof.
  intros Hs. revert n. induction ls as [|l ls IH]; intros n Hn E; simpl in E; [by simplify_eq|].
  destruct (net_step l n) as [n1|] eqn:E1; [|done]. simpl in E. eapply IH; [|done]. by eapply Hs.
Qed.

(** A measure that every step lowers bounds the length of the runs. *)
Lemma net_run_bound (P : net -> Prop) (mu : net -> Z) ls n n' :
  (forall l n n', P n -> net_step l n = Some n' -> P n' /\ mu n' < mu n) -> (forall n, P n -> 0 <= mu n) ->
  P n -> net_run ls n = Some n' -> zlen ls <= mu n.
Proof.
  intros Hs Hpos. revert n. induction ls as [|l ls IH]; intros n Hn E; simpl in E; [by apply Hpos|].
  destruct (net_step l n) as [n1|] eqn:E1; [|done]. simpl in E. destruct (Hs _ _ _ Hn E1) as [H1 H2].
  specialize (IH n1 H1 E). rewrite zlen_cons. lia.
Qed.

(** ** Over the contract of the library *)

(** Messages are bytes in the channels. *)
Context (enc : M -> list byte) (dec : list byte -> option M).

(** Threads with their calls; [true]: the call is blocked. *)
Record snet := mk_snet { sn_sys : gsys; sn_thread : list (S * bool) }.

Definition chan_ptr (c : nat) : ptr := Z.of_nat c + 1.
Definition thread_ptr (t : nat) : ptr := Z.of_nat t + 1.

(** The state in which a thread goes on after its call [a] was answered [r]. *)
Definition answered (a : action M S) (r : reply) : option S :=
  match a, r with
  | ASend _ _ k, Returned _ _ e _ => Some (k (bool_decide (e = CHAN_OK)))
  | ARecv _ k, Returned _ _ CHAN_OK b => m ← dec b; Some (k (Some m))
  | ARecv _ k, Returned _ _ _ _ => Some (k None)
  | APoll _ k, Returned _ _ CHAN_OK b => m ← dec b; Some (k (Got m))
  | APoll _ k, Returned _ _ CHAN_ERR_CLOSED _ => Some (k Over)
  | APoll _ k, Returned _ _ _ _ => Some (k Empty)
  | AClose _ k, ClosedWith _ _ => Some k
  | _, _ => None
  end.

(** The call of the library a thread makes. *)
Definition call_of (t : nat) (a : action M S) : option glabel :=
  match a with
  | ASend c m _ => Some (GSend (chan_ptr c) (enc m) (-1) (thread_ptr t))
  | ARecv c _ => Some (GRecv (chan_ptr c) (-1) (thread_ptr t))
  | APoll c _ => Some (GRecv (chan_ptr c) 0 (thread_ptr t))
  | AClose c _ => Some (GClose (chan_ptr c))
  | _ => None
  end.

Inductive slabel := Call (t : nat) | Resume (t : nat).

(** The call [a] of [t], in the state [s], was answered [r]. *)
Definition settle (t : nat) (s : S) (r : reply) (g : gsys) (n : snet) : option snet :=
  match r with
  | Blocked => Some (mk_snet g (<[t := (s, true)]> (sn_thread n)))
  | _ => s' ← answered (act t s) r; Some (mk_snet g (<[t := (s', false)]> (sn_thread n)))
  end.

Definition snet_step (l : slabel) (n : snet) : option snet :=
  match l with
  | Call t =>
      '(s, b) ← sn_thread n !! t;
      if (b : bool) then None
      else match act t s with
      | AJoin u k =>
          '(s', b') ← sn_thread n !! u;
          if negb b' && halted u s' then Some (mk_snet (sn_sys n) (<[t := (k, false)]> (sn_thread n))) else None
      | a => l ← call_of t a; '(r, g) ← gstep l (sn_sys n); settle t s r g n
      end
  | Resume t =>
      '(s, b) ← sn_thread n !! t;
      if (b : bool) then '(r, g) ← gstep (GWake (thread_ptr t)) (sn_sys n); settle t s r g n
      else None
  end.

Fixpoint snet_run (ls : list slabel) (n : snet) : option snet :=
  match ls with [] => Some n | l :: ls => n ← snet_step l n; snet_run ls n end.

(** Fresh channels and threads. *)
Definition net_start (chans : nat) (ss : list S) : net := mk_net (replicate chans (mk_queue [] false)) ss.
Definition snet_start (chans : nat) (ss : list S) : snet :=
  mk_snet (mk_gsys (list_to_map ((fun c => (chan_ptr c, mk_gchan (room c) [] [] [] false [] [])) <$> seq 0 chans)) ∅)
          ((., false) <$> ss).
End net.

(** Both sides of a permutation are the same lists appended in some order. *)
Lemma perm_end {A} (l k : list A) : l ++ [] ≡ₚ k ++ [] -> l ≡ₚ k.
Proof. by rewrite !app_nil_r. Qed.
Lemma perm_rotate {A} (l a k : list A) : l ≡ₚ k ++ a ++ [] -> l ≡ₚ a ++ k.
Proof. rewrite app_nil_r. intros ->. apply Permutation_app_comm. Qed.
Ltac perm_cons :=
  repeat match goal with |- context [?x :: ?l] => lazymatch l with [] => fail | _ => change (x :: l) with ([x] ++ l) end end.
Ltac perm_norm := rewrite <- ?app_assoc, ?app_nil_l.
Ltac perm_find n :=
  lazymatch goal with
  | |- ?a ++ _ ≡ₚ ?a ++ _ => apply Permutation_app_head
  | |- _ ≡ₚ _ ++ _ => lazymatch n with S ?n => apply perm_rotate; perm_norm; perm_find n end
  end.
Ltac perm := apply perm_end; perm_cons; perm_norm; repeat perm_find 12%nat; reflexivity.

(** What the threads hold together, when one of them changes. *)
Lemma bind_update {A B} (f : A -> list B) l t s : l !! t = Some s ->
  exists rest, l ≫= f ≡ₚ f s ++ rest /\ forall s', <[t := s']> l ≫= f ≡ₚ f s' ++ rest.
Proof.
  revert t. induction l as [|x l IH]; intros [|t] Ht; simplify_eq/=; [by exists (l ≫= f)|].
  destruct (IH t Ht) as (rest & H1 & H2). exists (f x ++ rest). split; [|intros s'].
  - rewrite H1. apply Permutation_app_swap_app.
  - rewrite H2. apply Permutation_app_swap_app.
Qed.

Definition sum_with {A} (f : A -> Z) (l : list A) : Z := foldr (fun x k => f x + k) 0 l.
Lemma sum_update {A} (f : A -> Z) l t s s' : l !! t = Some s -> sum_with f (<[t := s']> l) = sum_with f l - f s + f s'.
Proof.
  revert t. induction l as [|x l IH]; intros [|t] Ht; simplify_eq/=; [lia|]. rewrite (IH t Ht). lia.
Qed.
Lemma sum_nonneg {A} (f : A -> Z) l : (forall x, x ∈ l -> 0 <= f x) -> 0 <= sum_with f l.
Proof. induction l as [|x l IH]; intros Hf; simpl; [lia|]. pose proof (Hf x ltac:(left)). pose proof (IH ltac:(intros; apply Hf; by right)). lia. Qed.
Lemma sum_app {A} (f : A -> Z) l k : sum_with f (l ++ k) = sum_with f l + sum_with f k.
Proof. induction l as [|x l IH]; simpl; [done|]. lia. Qed.
#[export] Instance sum_perm {A} (f : A -> Z) : Proper ((≡ₚ) ==> (=)) (sum_with f).
Proof. induction 1; simpl; lia. Qed.

(** ** Measures

    The weight of a program: that of its threads and that of the messages in its
    channels.  A program whose calls lower it ends. *)

Section weights.
Context {M S : Type} `{Program M S} (wt : S -> Z) (wc : nat -> Z).

Fixpoint chan_weight (c : nat) (qs : list (queue M)) : Z :=
  match qs with [] => 0 | q :: qs => wc c * zlen (q_buf q) + chan_weight (Datatypes.S c) qs end.
Definition net_weight (n : @net M S) : Z := sum_with wt (n_thread n) + chan_weight 0 (n_chan n).

(** Whatever the call is answered, the weight goes down. *)
Definition lowers (s : S) (a : action M S) : Prop :=
  match a with
  | ASend c m k => wt (k true) + wc c < wt s /\ wt (k false) < wt s
  | ARecv c k => (forall m, wt (k (Some m)) < wt s + wc c) /\ wt (k None) < wt s
  | APoll c k => (forall m, wt (k (Got m)) < wt s + wc c) /\ wt (k Empty) < wt s /\ wt (k Over) < wt s
  | AClose _ k | AJoin _ k => wt k < wt s
  | AHalt => True
  end.

Lemma chan_weight_update d qs c q q' : qs !! c = Some q ->
  chan_weight d (<[c := q']> qs) = chan_weight d qs + wc (d + c) * (zlen (q_buf q') - zlen (q_buf q)).
Proof.
  revert d c. induction qs as [|x qs IH]; intros d [|c] Hc; simplify_eq/=; [rewrite Nat.add_0_r; lia|].
  rewrite (IH (Datatypes.S d) c Hc). replace (d + Datatypes.S c)%nat with (Datatypes.S d + c)%nat by lia. lia.
Qed.

Lemma chan_weight_nonneg d qs : (forall c, 0 <= wc c) -> 0 <= chan_weight d qs.
Proof.
  intros Hw. revert d. induction qs as [|q qs IH]; intros d; simpl; [lia|].
  specialize (IH (Datatypes.S d)). specialize (Hw d). pose proof (zlen_nonneg (q_buf q)). nia.
Qed.
Lemma weight_advance t s s' n : n_thread n !! t = Some s -> net_weight (advance t s' n) = net_weight n - wt s + wt s'.
Proof. intros Hs. unfold net_weight. simpl. rewrite (sum_update _ _ _ _ _ Hs). lia. Qed.
Lemma weight_queue c q q' (n : @net M S) : n_chan n !! c = Some q ->
  net_weight (set_queue c q' n) = net_weight n + wc c * (zlen (q_buf q') - zlen (q_buf q)).
Proof. intros Hq. unfold net_weight. simpl. rewrite (chan_weight_update 0 _ _ _ _ Hq). simpl. lia. Qed.

Lemma weight_go t s n n' :
  n_thread n !! t = Some s -> lowers s (act t s) -> net_go t (act t s) n = Some n' -> net_weight n' < net_weight n.
Proof.
  intros Hs Hl E. destruct (act t s) as [c m k|c k|c k|c k|u k|]; simpl in *; [..|done].
  - destruct (n_chan n !! c) as [q|] eqn:Hq; [|done]. simpl in E. unfold send_to in E. repeat case_match; simplify_eq/=.
    + rewrite (weight_advance _ s) by done. lia.
    + rewrite (weight_advance _ s), (weight_queue _ q) by done. simpl. rewrite zlen_app. change (zlen [m]) with 1. lia.
  - destruct (n_chan n !! c) as [q|] eqn:Hq; [|done]. simpl in E. unfold recv_from in E.
    destruct (q_buf q) as [|m b] eqn:Eb; [destruct (q_closed q)|]; simplify_eq/=; rewrite (weight_advance _ s) by done; [lia|].
    rewrite (weight_queue _ q) by done. rewrite Eb, zlen_cons. simpl. destruct Hl as [Hl _]. specialize (Hl m). lia.
  - destruct (n_chan n !! c) as [q|] eqn:Hq; [|done]. simpl in E. unfold poll_from in E.
    destruct (q_buf q) as [|m b] eqn:Eb; simplify_eq/=; rewrite (weight_advance _ s) by done.
    + destruct (q_closed q); lia.
    + rewrite (weight_queue _ q) by done. rewrite Eb, zlen_cons. simpl. destruct Hl as [Hl _]. specialize (Hl m). lia.
  - destruct (n_chan n !! c) as [q|] eqn:Hq; [|done]. simplify_eq/=. rewrite (weight_advance _ s), (weight_queue _ q) by done. simpl. lia.
  - destruct (n_thread n !! u) as [su|]; [|done]. simpl in E. destruct (halted u su); [|done]. simplify_eq.
    rewrite (weight_advance _ s) by done. lia.
Qed.

Lemma weight_step l n n' :
  (forall t s, n_thread n !! t = Some s -> lowers s (act t s)) -> net_step l n = Some n' -> net_weight n' < net_weight n.
Proof.
  intros Hl E. destruct l as [t|t u]; simpl in E.
  - destruct (n_thread n !! t) as [s|] eqn:Hs; [|done]. simpl in E. eapply weight_go; eauto.
  - unfold net_meet in E. destruct (n_thread n !! t) as [s|] eqn:Hs; [|done]. destruct (n_thread n !! u) as [r|] eqn:Hr; [|done].
    simpl in E. pose proof (Hl _ _ Hs) as Hls. pose proof (Hl _ _ Hr) as Hlr. destruct (act t s) as [c m k| | | | |]; try done.
    destruct (accepts (act u r)) as [[c' k']|] eqn:Ha; [|done]. destruct (n_chan n !! c) as [q|]; [|done]. simpl in E.
    destruct (bool_decide _ && _) eqn:Hb; [|done]. apply andb_true_iff in Hb as [(Hne & <- & _)%bool_decide_eq_true _].
    injection E as <-. rewrite (weight_advance u r), (weight_advance t s) by (simpl; rewrite ?list_lookup_insert_ne by done; done).
    assert (wt (k' m) < wt r + wc c); [|simpl in Hls; lia].
    destruct (act u r); simplify_eq/=; destruct Hlr as [Hlr _]; apply Hlr.
Qed.
End weights.

(** ** Local invariants

    What each thread makes sure of by itself, given the messages it can be sent. *)

Section local.
Context {M S : Type} `{Program M S} (okt : nat -> S -> Prop) (okm : nat -> M -> Prop).

Definition obeys (t : nat) (a : action M S) : Prop :=
  match a with
  | ASend c m k => okm c m /\ forall b, okt t (k b)
  | ARecv c k => okt t (k None) /\ forall m, okm c m -> okt t (k (Some m))
  | APoll c k => okt t (k Empty) /\ okt t (k Over) /\ forall m, okm c m -> okt t (k (Got m))
  | AClose _ k | AJoin _ k => okt t k
  | AHalt => True
  end.

Record locally (n : @net M S) : Prop := {
  lc_thread : forall t s, n_thread n !! t = Some s -> okt t s;
  lc_chan : forall c q, n_chan n !! c = Some q -> Forall (okm c) (q_buf q)
}.

Hypothesis obeyed : forall t s, okt t s -> obeys t (act t s).

Lemma locally_advance t s n : locally n -> okt t s -> locally (advance t s n).
Proof.
  intros [Ht Hc] Hs. split; [|done]. intros u r Hu. simpl in Hu. destruct (decide (t = u)) as [<-|Hne].
  - apply list_lookup_insert_Some in Hu as [(_ & -> & _)|[? _]]; done.
  - rewrite list_lookup_insert_ne in Hu by done. by apply Ht.
Qed.
Lemma locally_queue c q n : locally n -> Forall (okm c) (q_buf q) -> locally (set_queue c q n).
Proof.
  intros [Ht Hc] Hq. split; [done|]. intros d p Hd. simpl in Hd. destruct (decide (c = d)) as [<-|Hne].
  - apply list_lookup_insert_Some in Hd as [(_ & -> & _)|[? _]]; done.
  - rewrite list_lookup_insert_ne in Hd by done. by apply Hc.
Qed.

Lemma locally_step l n n' : locally n -> net_step l n = Some n' -> locally n'.
Proof.
  intros Hl E. destruct l as [t|t u]; simpl in E.
  - destruct (n_thread n !! t) as [s|] eqn:Hs; [|done]. simpl in E. pose proof (obeyed _ _ (lc_thread _ Hl _ _ Hs)) as Ho.
    destruct (act t s) as [c m k|c k|c k|c k|u k|]; simpl in *; [| | | | |done].
    + destruct (n_chan n !! c) as [q|] eqn:Hq; [|done]. simpl in E. unfold send_to in E. pose proof (lc_chan _ Hl _ _ Hq) as Hf.
      destruct Ho as [Hm Hk]. repeat case_match; simplify_eq; repeat apply locally_advance; try apply Hk; try done.
      apply locally_queue; [done|]. apply Forall_app. by split; [|constructor].
    + destruct (n_chan n !! c) as [q|] eqn:Hq; [|done]. simpl in E. unfold recv_from in E. pose proof (lc_chan _ Hl _ _ Hq) as Hf. destruct Ho as [H1 H2].
      destruct (q_buf q) as [|m b]; [destruct (q_closed q); [|done]; injection E as <-; by apply locally_advance|].
      apply Forall_cons in Hf as [Hm Hb]. injection E as <-. apply locally_advance; [by apply locally_queue|by apply H2].
    + destruct (n_chan n !! c) as [q|] eqn:Hq; [|done]. simpl in E. unfold poll_from in E. pose proof (lc_chan _ Hl _ _ Hq) as Hf. destruct Ho as (H1 & H2 & H3).
      destruct (q_buf q) as [|m b]; [injection E as <-; apply locally_advance; [done|by destruct (q_closed q)]|].
      apply Forall_cons in Hf as [Hm Hb]. injection E as <-. apply locally_advance; [by apply locally_queue|by apply H3].
    + destruct (n_chan n !! c) as [q|] eqn:Hq; [|done]. simplify_eq/=. apply locally_advance; [|done].
      apply locally_queue; [done|]. exact (lc_chan _ Hl _ _ Hq).
    + destruct (n_thread n !! u) as [su|]; [|done]. simpl in E. destruct (halted u su); [|done]. simplify_eq. by apply locally_advance.
  - unfold net_meet in E. destruct (n_thread n !! t) as [s|] eqn:Hs; [|done]. destruct (n_thread n !! u) as [r|] eqn:Hr; [|done]. simpl in E.
    pose proof (obeyed _ _ (lc_thread _ Hl _ _ Hs)) as Hos. pose proof (obeyed _ _ (lc_thread _ Hl _ _ Hr)) as Hor.
    destruct (act t s) as [c m k| | | | |]; try done. destruct Hos as [Hm Hk].
    destruct (accepts (act u r)) as [[c' k']|] eqn:Ha; [|done]. destruct (n_chan n !! c); [|done]. simpl in E.
    destruct (bool_decide _ && _) eqn:Hb; [|done]. apply andb_true_iff in Hb as [(_ & <- & _)%bool_decide_eq_true _]. injection E as <-.
    apply locally_advance; [by apply locally_advance|]. destruct (act u r); simplify_eq/=; apply Hor; done.
Qed.

Lemma locally_start chans ss : (forall t s, ss !! t = Some s -> okt t s) -> locally (net_start chans ss).
Proof. intros Hs. split; [done|]. intros c q Hq. simpl in Hq. by apply lookup_replicate in Hq as [-> _]. Qed.
End local.

(** ** Simulation *)

(** The sum of [f] below [k]. *)
Fixpoint total (f : nat -> nat) (k : nat) : nat := match k with O => 0 | S k => f k + total f k end.

Lemma total_lt f f' t k : (t < k)%nat -> (f' t < f t)%nat -> (forall u, u <> t -> f' u = f u) -> (total f' k < total f k)%nat.
Proof.
  intros Htk Hlt Hne. assert (forall j, (j <= t)%nat -> total f' j = total f j) as Heq.
  { induction j as [|j IH]; intros Hj; simpl; [done|]. rewrite Hne, IH by lia. done. }
  induction k as [|k IH]; [lia|]. simpl. destruct (decide (k = t)) as [->|Hk].
  - rewrite Heq by lia. lia.
  - rewrite Hne by done. specialize (IH ltac:(lia)). lia.
Qed.
Lemma total_bound f k b : (forall t, (f t <= b)%nat) -> (total f k <= b * k)%nat.
Proof. intros Hf. induction k as [|k IH]; simpl; [lia|]. specialize (Hf k). lia. Qed.


Section simulation.
Context {M S : Type} `{Program M S} (enc : M -> list byte) (dec : list byte -> option M).
Hypothesis room_nonneg : forall c, 0 <= room c.
#[local] Notation net := (@net M S).
#[local] Notation snet := (@snet S).

(** The message [m] survives the copy into and out of a channel. *)
Definition copied (m : M) : Prop := dec (enc m) = Some m.
Definition sends_copied (n : net) : Prop :=
  forall t s c m k, n_thread n !! t = Some s -> act t s = ASend c m k -> copied m.

(** A channel of the contract and its queue. *)
Definition chan_sim (c : nat) (q : queue M) (G : gchan) : Prop :=
  g_buf G = enc <$> q_buf q /\ g_closed G = q_closed q /\ g_room G = room c /\ Forall copied (q_buf q).
Definition chans_sim (g : gsys) (qs : list (queue M)) : Prop :=
  forall c, match qs !! c with
  | Some q => exists G, g_chans g !! chan_ptr c = Some G /\ chan_sim c q G
  | None => g_chans g !! chan_ptr c = None
  end.

(** The blocked call [T] is the call [a]. *)
Definition waits_for (T : gthread) (a : action M S) : Prop :=
  gt_timed T = false /\
  match a with
  | ASend c m _ => gt_ch T = chan_ptr c /\ gt_op T = CHAN_OP_SEND /\ (gt_status T = Waiting -> gt_msg T = enc m)
  | ARecv c _ => gt_ch T = chan_ptr c /\ gt_op T = CHAN_OP_RECV
  | _ => False
  end.

(** A thread with a call that is settled but has not returned has gone on over the
    queues. *)
Definition thread_sim (thr : gmap ptr gthread) (t : nat) (s : S) (b : bool) (s' : S) : Prop :=
  if b then exists T, thr !! thread_ptr t = Some T /\ waits_for T (act t s) /\
         if decide (gt_status T = Waiting) then s' = s else answered dec (act t s) (answer T) = Some s'
  else s' = s /\ thr !! thread_ptr t = None.

Record threads_sim (thr : gmap ptr gthread) (sts : list (S * bool)) (ss : list S) : Prop := {
  ts_each : forall t s b, sts !! t = Some (s, b) -> exists s', ss !! t = Some s' /\ thread_sim thr t s b s';
  ts_length : length ss = length sts;
  ts_owner : forall x T, thr !! x = Some T -> exists t s, x = thread_ptr t /\ sts !! t = Some (s, true)
}.

Record net_sim (n : snet) (n' : net) : Prop := {
  sm_inv : ginv (sn_sys n);
  sm_chans : chans_sim (sn_sys n) (n_chan n');
  sm_threads : threads_sim (g_threads (sn_sys n)) (sn_thread n) (n_thread n')
}.

Lemma thread_ptr_inj t u : thread_ptr t = thread_ptr u -> t = u.
Proof. unfold thread_ptr. lia. Qed.

(** Another thread changes. *)
Lemma thread_sim_frame thr thr' t s b s' : thr' !! thread_ptr t = thr !! thread_ptr t -> thread_sim thr t s b s' -> thread_sim thr' t s b s'.
Proof. unfold thread_sim. by intros ->. Qed.

Lemma threads_sim_update thr thr' sts ss t s1 b1 s2 b2 s2' :
  threads_sim thr sts ss -> sts !! t = Some (s1, b1) ->
  (forall x, x <> thread_ptr t -> thr' !! x = thr !! x) ->
  thread_sim thr' t s2 b2 s2' -> (is_Some (thr' !! thread_ptr t) -> b2 = true) ->
  threads_sim thr' (<[t := (s2, b2)]> sts) (<[t := s2']> ss).
Proof.
  intros [He Hl Ho] Ht Hthr Hs Hb. pose proof (lookup_lt_Some _ _ _ Ht) as Hlt. split.
  - intros u s b Hu; apply list_lookup_insert_Some in Hu as [(<- & [= <- <-] & _)|(Hne & Hu)].
    + exists s2'. rewrite list_lookup_insert_eq by (rewrite Hl; done). done.
    + destruct (He _ _ _ Hu) as (s' & Hs' & Hsim). exists s'. rewrite list_lookup_insert_ne by done. split; [done|].
      eapply thread_sim_frame; [|done]. apply Hthr. intros E. by apply Hne, thread_ptr_inj.
  - by rewrite !length_insert.
  - intros x T HT. destruct (decide (x = thread_ptr t)) as [->|Hne].
    + exists t, s2. rewrite list_lookup_insert_eq by done. rewrite <- Hb by eauto. done.
    + rewrite Hthr in HT by done. destruct (Ho _ _ HT) as (u & s & -> & Hu). exists u, s. split; [done|].
      rewrite list_lookup_insert_ne; [done|]. by intros ->.
Qed.

(** A thread outside of a call. *)
Lemma sim_idle thr sts ss t s :
  threads_sim thr sts ss -> sts !! t = Some (s, false) -> ss !! t = Some s /\ thr !! thread_ptr t = None.
Proof. intros [He _ _] Ht. by destruct (He _ _ _ Ht) as (s' & Hs & -> & Hn). Qed.

Lemma sim_advance thr sts ss t s s' :
  threads_sim thr sts ss -> sts !! t = Some (s, false) -> threads_sim thr (<[t := (s', false)]> sts) (<[t := s']> ss).
Proof.
  intros Hsim Ht. destruct (sim_idle _ _ _ _ _ Hsim Ht) as [Hs Hn].
  apply threads_sim_update with thr s false; [done|done|done|by split|]. rewrite Hn. by intros [? ?].
Qed.

Lemma sim_block thr sts ss t s T :
  threads_sim thr sts ss -> sts !! t = Some (s, false) -> waits_for T (act t s) -> gt_status T = Waiting ->
  threads_sim (<[thread_ptr t := T]> thr) (<[t := (s, true)]> sts) ss.
Proof.
  intros Hsim Ht Hw HW. destruct (sim_idle _ _ _ _ _ Hsim Ht) as [Hs Hn].
  rewrite <- (list_insert_id ss t s) by done. apply threads_sim_update with thr s false; [done|done| | |done].
  - intros x Hx. by rewrite lookup_insert_ne.
  - exists T. rewrite lookup_insert_eq, decide_True by done. done.
Qed.

(** A blocked thread, and how it goes on when its call is settled. *)
Lemma sim_waiting thr sts ss x T :
  threads_sim thr sts ss -> thr !! x = Some T -> gt_status T = Waiting ->
  exists t s, x = thread_ptr t /\ sts !! t = Some (s, true) /\ ss !! t = Some s /\ waits_for T (act t s) /\
    forall T' s', waits_for T' (act t s) -> gt_status T' <> Waiting -> answered dec (act t s) (answer T') = Some s' ->
      threads_sim (<[x := T']> thr) sts (<[t := s']> ss).
Proof.
  intros Hsim HT HW. destruct (ts_owner _ _ _ Hsim _ _ HT) as (t & s & -> & Ht). exists t, s.
  destruct (ts_each _ _ _ Hsim _ _ _ Ht) as (s1 & Hs1 & T1 & HT1 & Hw & Hd). simplify_eq. rewrite decide_True in Hd by done. subst s1.
  do 4 (split; [done|]). intros T' s' Hw' HW' Ha. rewrite <- (list_insert_id sts t (s, true)) by done.
  apply threads_sim_update with thr s true; [done|done| | |done].
  - intros x Hx. by rewrite lookup_insert_ne.
  - exists T'. rewrite lookup_insert_eq, decide_False by done. done.
Qed.

Lemma sim_resume thr sts ss t s T :
  threads_sim thr sts ss -> sts !! t = Some (s, true) -> thr !! thread_ptr t = Some T -> gt_status T <> Waiting ->
  exists s', answered dec (act t s) (answer T) = Some s' /\ threads_sim (delete (thread_ptr t) thr) (<[t := (s', false)]> sts) ss.
Proof.
  intros Hsim Ht HT HW. destruct (ts_each _ _ _ Hsim _ _ _ Ht) as (s' & Hs & T1 & HT1 & Hw & Hd). simplify_eq.
  rewrite decide_False in Hd by done. exists s'. split; [done|]. rewrite <- (list_insert_id ss t s') by done.
  apply threads_sim_update with thr s true; [done|done| | |].
  - intros x Hx. by rewrite lookup_delete_ne.
  - split; [done|]. by rewrite lookup_delete_eq.
  - rewrite lookup_delete_eq. by intros [? ?].
Qed.

(** The queue of a channel. *)
Lemma chans_lookup g qs c q : chans_sim g qs -> qs !! c = Some q ->
  exists G, g_chans g !! chan_ptr c = Some G /\ chan_sim c q G.
Proof. intros Hs Hq. specialize (Hs c). by rewrite Hq in Hs. Qed.

Lemma chans_lookup_G g qs c G : chans_sim g qs -> g_chans g !! chan_ptr c = Some G ->
  exists q, qs !! c = Some q /\ chan_sim c q G.
Proof. intros Hs HG. specialize (Hs c). destruct (qs !! c) as [q|]; [|congruence]. destruct Hs as (G' & ? & ?). simplify_eq. eauto. Qed.

(** A channel and its queue change together. *)
Lemma chans_update g g' qs c q G :
  chans_sim g qs -> is_Some (qs !! c) -> g_chans g' = <[chan_ptr c := G]> (g_chans g) ->
  g_buf G = enc <$> q_buf q -> g_closed G = q_closed q -> g_room G = room c -> Forall copied (q_buf q) ->
  chans_sim g' (<[c := q]> qs).
Proof.
  intros Hs [q0 Hq] Hg H1 H2 H3 H4 d. rewrite Hg. destruct (decide (d = c)) as [->|Hne].
  - rewrite list_lookup_insert_eq by (by eapply lookup_lt_Some). exists G. by rewrite lookup_insert_eq.
  - rewrite list_lookup_insert_ne by done. rewrite lookup_insert_ne by (unfold chan_ptr; lia). apply Hs.
Qed.

Lemma chans_same g g' qs c G G' :
  chans_sim g qs -> g_chans g !! chan_ptr c = Some G -> g_chans g' = <[chan_ptr c := G']> (g_chans g) ->
  g_buf G' = g_buf G -> g_closed G' = g_closed G -> g_room G' = g_room G -> chans_sim g' qs.
Proof.
  intros Hs HG Hg H1 H2 H3. destruct (chans_lookup_G _ _ _ _ Hs HG) as (q & Hq & ? & ? & ? & ?).
  rewrite <- (list_insert_id qs c q) by done. apply chans_update with g G'; [done|by eexists|done|congruence..|done].
Qed.

Lemma alter_insert_T (f : gthread -> gthread) x T (thr : gmap ptr gthread) : thr !! x = Some T -> alter f x thr = <[x := f T]> thr.
Proof.
  intros HT. apply map_eq. intros y. destruct (decide (y = x)) as [->|Hne].
  - by rewrite lookup_alter_eq, lookup_insert_eq, HT.
  - by rewrite lookup_alter_ne, lookup_insert_ne.
Qed.

(** A step of the contract, answered [r], is followed over the queues; only a call
    that blocks needs no step there. *)
Definition follows (t : nat) (s : S) (r : reply) (g : gsys) (n : snet) (n' : net) : Prop :=
  exists n1 ls n1', settle dec t s r g n = Some n1 /\ net_run ls n' = Some n1' /\ net_sim n1 n1' /\ (r = Blocked \/ ls <> []).

Lemma follow_return t s r g n n' s' ls n1' :
  r <> Blocked -> answered dec (act t s) r = Some s' ->
  net_run ls n' = Some n1' -> ls <> [] -> net_sim (mk_snet g (<[t := (s', false)]> (sn_thread n))) n1' -> follows t s r g n n'.
Proof.
  intros Hr Ha Hls Hne Hsim. exists (mk_snet g (<[t := (s', false)]> (sn_thread n))), ls, n1'. split; [|by auto]. unfold settle. destruct r; [done|by rewrite Ha|by rewrite Ha].
Qed.

Lemma follow_block t s g n n' :
  net_sim (mk_snet g (<[t := (s, true)]> (sn_thread n))) n' -> follows t s Blocked g n n'.
Proof. intros Hsim. exists (mk_snet g (<[t := (s, true)]> (sn_thread n))), [], n'. by auto. Qed.

Lemma recv_waits T t s : waits_for T (act t s) -> gt_op T = CHAN_OP_RECV ->
  exists c k, act t s = ARecv c k /\ gt_ch T = chan_ptr c.
Proof.
  intros [_ Hw] Hop. destruct (act t s) as [c m k|c k|c k|c k|u k|]; try done; [|by exists c, k; split; [|apply Hw]].
  destruct Hw as (_ & Ho & _). congruence.
Qed.
Lemma send_waits T t s : waits_for T (act t s) -> gt_op T = CHAN_OP_SEND -> gt_status T = Waiting ->
  exists c m k, act t s = ASend c m k /\ gt_ch T = chan_ptr c /\ gt_msg T = enc m.
Proof.
  intros [_ Hw] Hop HW. destruct (act t s) as [c m k|c k|c k|c k|u k|]; try done; [|destruct Hw; congruence].
  exists c, m, k. destruct Hw as (? & ? & ?). auto.
Qed.

Lemma chan_ptr_inj c d : chan_ptr c = chan_ptr d -> c = d.
Proof. unfold chan_ptr. lia. Qed.

Lemma sim_send t s c m k n n' r g' :
  net_sim n n' -> sends_copied n' -> sn_thread n !! t = Some (s, false) -> act t s = ASend c m k ->
  gstep (GSend (chan_ptr c) (enc m) (-1) (thread_ptr t)) (sn_sys n) = Some (r, g') -> follows t s r g' n n'.
Proof.
  intros [I Hc Ht] Hok Hs Ha E. pose proof E as Hstep. destruct n as [g sts], n' as [qs ss]. cbn [sn_sys sn_thread n_chan n_thread] in *.
  destruct (sim_idle _ _ _ _ _ Ht Hs) as [Hss Hn]. pose proof (Hok _ _ _ _ _ Hss Ha) as Hm.
  apply gstep_inv in Hstep; [|done|simpl; by rewrite bool_decide_true]. simpl in E.
  destruct (g_chans g !! chan_ptr c) as [G|] eqn:HG; [|done]. simpl in E. injection E as E.
  destruct (chans_lookup_G _ _ _ _ Hc HG) as (q & Hq & Hb & Hcl & Hroom & Hcp).
  pose proof (gi_chan _ I _ _ HG) as [Gr _ Grq Gsq Gcl]. unfold gsend in E. rewrite Hcl in E.
  assert (forall x : S, <[t:=x]> ss !! t = Some x) as Hget by (intros x; apply list_lookup_insert_eq; by eapply lookup_lt_Some).
  destruct (q_closed q) eqn:Eq.
  { injection E as <- <-. eapply (follow_return t s _ _ _ _ (k false) [Go t]); [done|by rewrite Ha| |done|].
    - simpl. rewrite Hss. simpl. rewrite Ha. simpl. rewrite Hq. simpl. unfold send_to. rewrite Eq. done.
    - split; [done|done|]. simpl. by eapply sim_advance. }
  destruct (g_recvq G) as [|x rq] eqn:Erq.
  - rewrite Hroom, Hb in E. unfold zlen in E. rewrite length_fmap in E. fold (zlen (q_buf q)) in E.
    destruct (Z.ltb_spec (zlen (q_buf q)) (room c)) as [Hlt|Hge]; injection E as <- <-.
    + eapply (follow_return t s _ _ _ _ (k true) [Go t]); [done|by rewrite Ha| |done|].
      * simpl. rewrite Hss. simpl. rewrite Ha. simpl. rewrite Hq. simpl. unfold send_to.
        rewrite Eq, (proj2 (Z.ltb_lt _ _)) by done. done.
      * split; [done| |by eapply sim_advance]. eapply chans_update; [done|by eexists|done| | | |]; simpl; [|congruence|done|apply Forall_app; by split; [|constructor]].
        by rewrite Hb, fmap_app.
    + apply follow_block. split; [done| |].
      * eapply chans_same; [done|exact HG|done|..]; done.
      * simpl. eapply sim_block; [done|done| |done]. rewrite Ha. by split.
  - injection E as <- <-. destruct (Grq ltac:(done)) as [Eb Esq].
    assert (q_buf q = []) as Eqb by (rewrite Eb in Hb; by destruct (q_buf q)).
    assert (x ∈ gq CHAN_OP_RECV G) as Hx by (simpl; rewrite Erq; left).
    apply (gl_q _ (gi_link _ I) _ _ _ _ HG) in Hx as (T & HT & Tc & To & TW).
    destruct (sim_waiting _ _ _ _ _ Ht HT TW) as (u & su & -> & Hsu & Hssu & Hw & Hset).
    destruct (recv_waits _ _ _ Hw To) as (d & ku & Hau & Hd). assert (d = c) as -> by (apply chan_ptr_inj; congruence).
    assert (u <> t) as Hut by (intros ->; congruence).
    assert (threads_sim (<[thread_ptr u := set_status Passed (enc m) T]> (g_threads g)) (<[t := (k true, false)]> sts)
      (<[t := k true]> (<[u := ku (Some m)]> ss))) as Ht'.
    { eapply sim_advance; [|done]. apply Hset.
      - rewrite Hau. by destruct Hw.
      - done.
      - rewrite Hau. simpl. by rewrite Hm. }
    assert (g_threads g !! thread_ptr u = Some T) as HTu by done.
    destruct (Z.eq_dec (room c) 0) as [Hz|Hz].
    + eapply (follow_return t s _ _ _ _ (k true) [Meet t u]); [done|by rewrite Ha| |done|].
      * simpl. unfold net_meet. simpl. rewrite Hss, Hssu. simpl. rewrite Ha, Hau. simpl. rewrite Hq. simpl. rewrite Eq.
        rewrite bool_decide_true by auto. done.
      * split; [done| |].
        -- simpl. eapply chans_same; [done|exact HG|done|..]; simpl; rewrite ?Eb; done.
        -- simpl. rewrite (alter_insert_T _ _ T) by done. by rewrite list_insert_insert_ne.
    + eapply (follow_return t s _ _ _ _ (k true) [Go t; Go u]); [done|by rewrite Ha| |done|].
      * cbn [net_run net_step n_thread]. rewrite Hss. simpl. rewrite Ha. simpl. rewrite Hq. simpl. unfold send_to. rewrite Eq, Eqb.
        pose proof (room_nonneg c). rewrite (proj2 (Z.ltb_lt _ _)) by (unfold zlen; simpl; lia). simpl.
        rewrite list_lookup_insert_ne, Hssu by done. simpl. rewrite Hau. simpl.
        rewrite list_lookup_insert_eq by (by eapply lookup_lt_Some). simpl. done.
      * split; [done| |].
        -- simpl. rewrite list_insert_insert_eq. eapply chans_update; [done|by eexists|done| | | |]; simpl; rewrite ?Eb; done.
        -- simpl. rewrite (alter_insert_T _ _ T) by done. by rewrite list_insert_insert_ne.
Qed.

(** The two ways to receive. *)
Definition reads (a : action M S) (c : nat) (timeout_ns : Z) : Prop :=
  (exists k, a = ARecv c k /\ timeout_ns = -1) \/ (exists k, a = APoll c k /\ timeout_ns = 0).

Lemma reads_message a c tm : reads a c tm -> exists k, accepts a = Some (c, k) /\
  (forall p o m, copied m -> answered dec a (Returned p o CHAN_OK (enc m)) = Some (k m)) /\
  (forall t n q m b, n_chan n !! c = Some q -> q_buf q = m :: b ->
     net_go t a n = Some (advance t (k m) (set_queue c (mk_queue b (q_closed q)) n))).
Proof.
  intros [(k & -> & _)|(k & -> & _)]; eexists; (split; [done|split]).
  - intros p o m Hm. simpl. by rewrite Hm.
  - intros t n q m b Hq Hb. simpl. rewrite Hq. simpl. unfold recv_from. by rewrite Hb.
  - intros p o m Hm. simpl. by rewrite Hm.
  - intros t n q m b Hq Hb. simpl. rewrite Hq. simpl. unfold poll_from. by rewrite Hb.
Qed.

(** A receive on an empty channel that need not wait. *)
Lemma reads_nothing a c tm n q t : reads a c tm -> n_chan n !! c = Some q -> q_buf q = [] -> q_closed q = true \/ tm = 0 ->
  exists s', (forall p o, answered dec a (Returned p o (if q_closed q then CHAN_ERR_CLOSED else CHAN_ERR_WOULDBLOCK) []) = Some s') /\
    net_go t a n = Some (advance t s' n).
Proof.
  intros Hr Hq Hb Hor. destruct Hr as [(k & -> & ->)|(k & -> & ->)]; simpl; rewrite Hq; simpl.
  - destruct Hor as [Hc|]; [|done]. rewrite Hc. unfold recv_from. rewrite Hb, Hc. eauto.
  - unfold poll_from. rewrite Hb. destruct (q_closed q); eauto.
Qed.

Lemma sim_recv_served t s c tm n n' G x sq :
  net_sim n n' -> sends_copied n' -> sn_thread n !! t = Some (s, false) -> reads (act t s) c tm ->
  g_chans (sn_sys n) !! chan_ptr c = Some G -> g_sendq G = x :: sq ->
  forall r g', grecv (chan_ptr c) tm (thread_ptr t) G (sn_sys n) = (r, g') -> ginv g' -> follows t s r g' n n'.
Proof.
  intros [I Hc Ht] Hok Hs Hr HG Esq r g' E Hinv. destruct n as [g sts], n' as [qs ss]. cbn [sn_sys sn_thread n_chan n_thread] in *.
  destruct (sim_idle _ _ _ _ _ Ht Hs) as [Hss Hn]. destruct (chans_lookup_G _ _ _ _ Hc HG) as (q & Hq & Hb & Hcl & Hroom & Hcp).
  pose proof (gi_chan _ I _ _ HG) as [Gr _ Grq Gsq Gcl]. specialize (Gsq ltac:(by rewrite Esq)).
  assert (g_closed G = false) as Eq by (destruct (g_closed G); [|done]; destruct Gcl; congruence). rewrite Eq in Hcl.
  assert (x ∈ gq CHAN_OP_SEND G) as Hx by (simpl; rewrite Esq; left).
  apply (gl_q _ (gi_link _ I) _ _ _ _ HG) in Hx as (T & HT & Tc & To & TW).
  destruct (sim_waiting _ _ _ _ _ Ht HT TW) as (u & su & -> & Hsu & Hssu & Hw & Hset).
  destruct (send_waits _ _ _ Hw To TW) as (d & m & ku & Hau & Hd & Hm). assert (d = c) as -> by (apply chan_ptr_inj; congruence).
  assert (u <> t) as Hut by (intros ->; congruence). pose proof (Hok _ _ _ _ _ Hssu Hau) as Hcm.
  destruct (reads_message _ _ _ Hr) as (k & Hacc & Hans & Hgo).
  assert (offered (thread_ptr u) g = enc m) as Hoff by (unfold offered; rewrite HT; simpl; by rewrite Hm).
  assert (forall v, threads_sim (<[thread_ptr u := set_status Passed (enc m) T]> (g_threads g)) (<[t := (v, false)]> sts)
    (<[t := v]> (<[u := ku true]> ss))) as Ht'.
  { intros v. eapply sim_advance; [|done]. apply Hset; [|done|by rewrite Hau]. rewrite Hau. destruct Hw as [Htm Hw].
    rewrite Hau in Hw. destruct Hw as (? & ? & ?). by split. }
  unfold grecv in E. rewrite Esq in E. destruct (g_buf G) as [|e buf] eqn:Eb; injection E as <- <-; rewrite Hoff in *.
  - assert (q_buf q = []) as Eqb by (by destruct (q_buf q)). pose proof (room_nonneg c).
    eapply (follow_return t s _ _ _ _ (k m) [Meet u t]); [done|by apply Hans| |done|].
    + simpl. unfold net_meet. simpl. rewrite Hss, Hssu. simpl. rewrite Hau, Hacc. simpl. rewrite Hq. simpl. rewrite <- Hcl.
      rewrite bool_decide_true by (unfold zlen in Gsq; simpl in Gsq; split; [done|split; [done|lia]]). done.
    + split; [done| |].
      * simpl. eapply chans_same; [done|exact HG|done|..]; simpl; rewrite ?Eb; done.
      * simpl. rewrite (alter_insert_T _ _ T) by done. apply Ht'.
  - destruct (q_buf q) as [|e0 b0] eqn:Eqb; [done|]. rewrite fmap_cons in Hb. injection Hb as -> ->. apply Forall_cons in Hcp as [Hce Hcp].
    eapply (follow_return t s _ _ _ _ (k e0) [Go t; Go u]); [done|by apply Hans| |done|].
    + cbn [net_run net_step n_thread]. rewrite Hss. simpl. erewrite Hgo by (simpl; done). simpl.
      rewrite list_lookup_insert_ne, Hssu by done. simpl. rewrite Hau. simpl.
      rewrite list_lookup_insert_eq by (by eapply lookup_lt_Some). simpl. unfold send_to. simpl. rewrite <- Hcl.
      rewrite (proj2 (Z.ltb_lt _ _)); [done|]. rewrite zlen_cons in Gr. unfold zlen in *. rewrite length_fmap in Gr. lia.
    + split; [done| |].
      * simpl. rewrite list_insert_insert_eq. eapply chans_update; [done|by eexists|done| | | |]; simpl; rewrite ?Eb; try done.
        -- by rewrite fmap_app.
        -- apply Forall_app. by split; [|constructor].
      * simpl. rewrite (alter_insert_T _ _ T) by done. rewrite list_insert_insert_ne by done. apply Ht'.
Qed.

Lemma sim_recv t s c tm n n' r g' :
  net_sim n n' -> sends_copied n' -> sn_thread n !! t = Some (s, false) -> reads (act t s) c tm ->
  gstep (GRecv (chan_ptr c) tm (thread_ptr t)) (sn_sys n) = Some (r, g') -> follows t s r g' n n'.
Proof.
  intros Hsim Hok Hs Hr E. pose proof E as Hstep. pose proof Hsim as [I Hc Ht]. destruct (sim_idle _ _ _ _ _ Ht Hs) as [Hss Hn].
  apply gstep_inv in Hstep; [|done|simpl; by rewrite bool_decide_true]. simpl in E.
  destruct (g_chans (sn_sys n) !! chan_ptr c) as [G|] eqn:HG; [|done]. simpl in E. injection E as E.
  destruct (g_sendq G) as [|x sq] eqn:Esq; [|by eapply sim_recv_served].
  destruct (chans_lookup_G _ _ _ _ Hc HG) as (q & Hq & Hb & Hcl & Hroom & Hcp). unfold grecv in E. rewrite Esq, Hcl in E.
  destruct (g_buf G) as [|e buf] eqn:Eb.
  - assert (q_buf q = []) as Eqb by (by destruct (q_buf q)).
    destruct (q_closed q || (tm =? 0)) eqn:Hor.
    + rewrite orb_true_iff, Z.eqb_eq in Hor. destruct (reads_nothing _ _ _ n' q t Hr Hq Eqb Hor) as (s' & Hans & Hgo).
      assert (r = Returned (chan_ptr c) CHAN_OP_RECV (if q_closed q then CHAN_ERR_CLOSED else CHAN_ERR_WOULDBLOCK) [] /\ g' = sn_sys n) as [-> ->].
      { destruct (q_closed q); [by injection E as <- <-|]. destruct Hor as [?| ->]; [done|]. by injection E as <- <-. }
      eapply (follow_return t s _ _ _ _ s' [Go t]); [done|apply Hans| |done|].
      * simpl. rewrite Hss. simpl. by rewrite Hgo.
      * split; [done|done|]. simpl. by eapply sim_advance.
    + apply orb_false_iff in Hor as [H1 H2]. rewrite H1, H2 in E. injection E as <- <-. apply follow_block. split; [done| |].
      * eapply chans_same; [done|exact HG|done|..]; done.
      * simpl. eapply sim_block; [done|done| |done]. destruct Hr as [(k & -> & ->)|(k & -> & ->)]; [by split|done].
  - injection E as <- <-. destruct (q_buf q) as [|e0 b0] eqn:Eqb; [done|]. rewrite fmap_cons in Hb. injection Hb as -> ->. apply Forall_cons in Hcp as [Hce Hcp].
    destruct (reads_message _ _ _ Hr) as (k & Hacc & Hans & Hgo).
    eapply (follow_return t s _ _ _ _ (k e0) [Go t]); [done|by apply Hans| |done|].
    + simpl. rewrite Hss. simpl. by erewrite Hgo.
    + split; [done| |by eapply sim_advance]. simpl. eapply chans_update; [done|by eexists|done| | | |]; simpl; rewrite ?Eb; done.
Qed.

(** The calls blocked on a channel that has been closed are answered. *)
Lemma sim_refuse_all l c q g sts (n' : net) :
  n_chan n' !! c = Some q -> q_closed q = true -> NoDup l -> threads_sim (g_threads g) sts (n_thread n') ->
  (forall x, x ∈ l -> exists T, g_threads g !! x = Some T /\ gt_ch T = chan_ptr c /\ gt_status T = Waiting /\
     (gt_op T = CHAN_OP_RECV -> q_buf q = [])) ->
  exists ls n1', net_run ls n' = Some n1' /\ n_chan n1' = n_chan n' /\ threads_sim (g_threads (refuse_all l g)) sts (n_thread n1').
Proof.
  intros Hq Hcl. revert g n' Hq. induction l as [|x l IH]; intros g n' Hq Hnd Ht Hl; [by exists [], n'|].
  apply NoDup_cons in Hnd as [Hx Hnd]. destruct (Hl x ltac:(left)) as (T & HT & Tc & TW & Tb).
  destruct (sim_waiting _ _ _ _ _ Ht HT TW) as (u & su & -> & Hsu & Hssu & Hw & Hset).
  pose (T' := set_status Refused (gt_msg T) T).
  assert (exists s', answered dec (act u su) (answer T') = Some s' /\ net_step (Go u) n' = Some (advance u s' n')) as (s' & Hans & Hgo).
  { simpl. rewrite Hssu. simpl. destruct Hw as [_ Hw]. destruct (act u su) as [d m k|d k|d k|d k|v k|]; try done.
    - destruct Hw as (Hd & _ & _). assert (d = c) as -> by (apply chan_ptr_inj; congruence).
      exists (k false). split; [done|]. simpl. rewrite Hq. simpl. unfold send_to. by rewrite Hcl.
    - destruct Hw as (Hd & Ho). assert (d = c) as -> by (apply chan_ptr_inj; congruence).
      exists (k None). split; [done|]. simpl. rewrite Hq. simpl. unfold recv_from. by rewrite (Tb Ho), Hcl. }
  assert (waits_for T' (act u su)) as Hw'.
  { destruct Hw as [Htm Hw]. split; [done|]. destruct (act u su); try done. destruct Hw as (? & ? & _). by repeat split. }
  destruct (IH (refuse (thread_ptr u) g) (advance u s' n') Hq Hnd) as (ls & n1 & Hls & Hc1 & Ht1).
  - simpl. rewrite (alter_insert_T _ _ T) by done. by apply Hset.
  - intros y Hy. destruct (Hl y ltac:(by right)) as (Ty & HTy & ?). exists Ty. simpl.
    rewrite lookup_alter_ne by (intros <-; done). done.
  - exists (Go u :: ls), n1. cbn [net_run]. rewrite Hgo. done.
Qed.

Lemma sim_close t s c k n n' r g' :
  net_sim n n' -> sn_thread n !! t = Some (s, false) -> act t s = AClose c k ->
  gstep (GClose (chan_ptr c)) (sn_sys n) = Some (r, g') -> follows t s r g' n n'.
Proof.
  intros [I Hc Ht] Hs Ha E. pose proof (gstep_inv (GClose (chan_ptr c)) _ _ _ I eq_refl E) as Hinv. simpl in E.
  destruct (sim_idle _ _ _ _ _ Ht Hs) as [Hss Hn].
  destruct (g_chans (sn_sys n) !! chan_ptr c) as [G|] eqn:HG; [|done]. simpl in E. injection E as E.
  destruct (chans_lookup_G _ _ _ _ Hc HG) as (q & Hq & Hb & Hcl & Hroom & Hcp). unfold gclose in E.
  set (n1 := advance t k (set_queue c (mk_queue (q_buf q) true) n')).
  assert (net_step (Go t) n' = Some n1) as Hgo by (simpl; rewrite Hss; simpl; rewrite Ha; simpl; by rewrite Hq).
  destruct (g_closed G) eqn:Ecl.
  { injection E as <- <-. eapply (follow_return t s _ _ _ _ k [Go t]); [done|by rewrite Ha| |done|].
    - cbn [net_run]. by rewrite Hgo.
    - split; [done| |by eapply sim_advance]. simpl. rewrite list_insert_id; [done|]. rewrite Hq. by destruct q as [b cl]; simplify_eq/=. }
  pose proof (gi_chan _ I _ _ HG) as [_ _ Grq _ _]. pose proof (gi_link _ I) as L. injection E as <- <-.
  destruct (sim_refuse_all (g_sendq G ++ g_recvq G) c (mk_queue (q_buf q) true)
    (on_gchan (chan_ptr c) (set_gq CHAN_OP_SEND [] (set_gq CHAN_OP_RECV [] (set_g_closed G))) (sn_sys n))
    (<[t := (k, false)]> (sn_thread n)) n1) as (ls & n2 & Hls & Hc2 & Ht2).
  - simpl. apply list_lookup_insert_eq. by eapply lookup_lt_Some.
  - done.
  - apply NoDup_app. split; [apply (gl_nodup _ L _ _ CHAN_OP_SEND HG)|]. split; [|apply (gl_nodup _ L _ _ CHAN_OP_RECV HG)].
    intros x Hx Hx'. destruct Grq as [_ E]; [by intros E; rewrite E in Hx'; set_solver|]. rewrite E in Hx. set_solver.
  - simpl. by eapply sim_advance.
  - intros x Hx. assert (exists op, x ∈ gq op G) as [op Hop] by (apply elem_of_app in Hx as [?|?]; [by exists CHAN_OP_SEND|by exists CHAN_OP_RECV]).
    pose proof Hop as Hw. apply (gl_q _ L _ _ _ _ HG) in Hw as (T & HT & Tc & To & TW). exists T. do 3 (split; [done|]).
    intros Ho. simpl. destruct op; [congruence|]. destruct Grq as [E _]; [by intros E; simpl in Hop; rewrite E in Hop; set_solver|].
    rewrite E in Hb. by destruct (q_buf q).
  - eapply (follow_return t s _ _ _ _ k (Go t :: ls)); [done|by rewrite Ha| |done|].
    + cbn [net_run]. rewrite Hgo. exact Hls.
    + split; [done| |done]. rewrite Hc2. simpl. eapply chans_update; [done|by eexists| | | | |].
      * rewrite refuse_all_chans. done.
      * done.
      * done.
      * done.
      * done.
Qed.

(** ** Runs *)

(** Every call is followed over the queues. *)
Lemma call_follows t s l n n' r g :
  net_sim n n' -> sends_copied n' -> sn_thread n !! t = Some (s, false) -> call_of enc t (act t s) = Some l ->
  gstep l (sn_sys n) = Some (r, g) -> follows t s r g n n'.
Proof.
  intros Hsim Hok Hs Hl E. destruct (act t s) as [c m k|c k|c k|c k|u k|] eqn:Ha; try done; injection Hl as <-.
  - by eapply sim_send.
  - eapply sim_recv; try done. rewrite Ha. left. eauto.
  - eapply sim_recv; try done. rewrite Ha. right. eauto.
  - by eapply sim_close.
Qed.

(** How many steps a thread can take without one over the queues: return, block. *)
Definition slack (n : snet) (t : nat) : nat :=
  match sn_thread n !! t with
  | Some (_, true) =>
      match g_threads (sn_sys n) !! thread_ptr t with
      | Some T => if decide (gt_status T = Waiting) then 0 else 2
      | None => 0
      end
  | Some (_, false) => 1
  | None => 0
  end.
Definition slacks (n : snet) : nat := total (slack n) (length (sn_thread n)).

Lemma slacks_bound n : (slacks n <= 2 * length (sn_thread n))%nat.
Proof. apply total_bound. intros t. unfold slack. repeat case_match; lia. Qed.

(** One thread changes, and has less slack. *)
Lemma slacks_update n n1 t p : sn_thread n1 = <[t := p]> (sn_thread n) -> (t < length (sn_thread n))%nat ->
  (forall x, x <> thread_ptr t -> g_threads (sn_sys n1) !! x = g_threads (sn_sys n) !! x) ->
  (slack n1 t < slack n t)%nat -> (slacks n1 < slacks n)%nat.
Proof.
  intros E Hlt Hthr Hs. unfold slacks. rewrite E, length_insert. apply total_lt with t; [done|done|].
  intros u Hu. unfold slack. rewrite E, list_lookup_insert_ne by done. rewrite Hthr; [done|]. intros Hp. by apply Hu, thread_ptr_inj.
Qed.

Lemma blocked_thread t (a : action M S) l g g' : call_of enc t a = Some l -> gstep l g = Some (Blocked, g') ->
  exists T, g_threads g' = <[thread_ptr t := T]> (g_threads g) /\ gt_status T = Waiting.
Proof.
  intros Hl E. destruct a as [c m k|c k|c k|c k|u k|]; try done; injection Hl as <-; simpl in E;
    destruct (g_chans g !! chan_ptr c) as [G|]; try done; simpl in E; injection E as E.
  - unfold gsend in E. repeat case_match; simplify_eq. by eexists.
  - unfold grecv in E. repeat case_match; simplify_eq. by eexists.
  - unfold grecv in E. repeat case_match; simplify_eq.
  - unfold gclose in E. repeat case_match; simplify_eq.
Qed.

(** Every step over the contract is followed over the queues, by a step at least
    unless it uses up slack. *)
Lemma snet_step_follows l n n' n1 :
  net_sim n n' -> sends_copied n' -> snet_step enc dec l n = Some n1 ->
  exists ls n1', net_run ls n' = Some n1' /\ net_sim n1 n1' /\ length (sn_thread n1) = length (sn_thread n) /\
    (ls <> [] \/ (slacks n1 < slacks n)%nat).
Proof.
  intros Hsim Hok E. pose proof Hsim as [I Hc Ht].
  destruct l as [t|t]; cbn [snet_step] in E; destruct (sn_thread n !! t) as [[s b]|] eqn:Hs; try done; cbn [mbind option_bind] in E;
    destruct b; try done; pose proof (lookup_lt_Some _ _ _ Hs) as Hlt.
  - destruct (sim_idle _ _ _ _ _ Ht Hs) as [Hss Hn]. destruct (call_of enc t (act t s)) as [l|] eqn:Hl.
    + assert (('(r, g) ← gstep l (sn_sys n); settle dec t s r g n) = Some n1) as E'.
      { destruct (act t s); simpl in *; try done; by injection Hl as <-. }
      clear E. destruct (gstep l (sn_sys n)) as [[r g]|] eqn:Eg; [|done]. cbn [mbind option_bind] in E'.
      destruct (call_follows _ _ _ _ _ _ _ Hsim Hok Hs Hl Eg) as (n2 & ls & n1' & H1 & H2 & H3 & H4).
      assert (n2 = n1) as -> by congruence. exists ls, n1'. split; [done|]. split; [done|].
      assert (exists p, sn_thread n1 = <[t := p]> (sn_thread n) /\ sn_sys n1 = g /\ (r = Blocked -> p = (s, true))) as (p & Ep & <- & Hp).
      { unfold settle in H1. destruct r; [injection H1 as <-; by eexists|destruct (answered _ _ _); [|done]; injection H1 as <-; by eexists..]. }
      split; [by rewrite Ep, length_insert|]. destruct H4 as [->|]; [|by left]. right.
      destruct (blocked_thread _ _ _ _ _ Hl Eg) as (T & ET & TW). eapply slacks_update; [done|done| |].
      * intros x Hx. by rewrite ET, lookup_insert_ne.
      * unfold slack. rewrite Ep, list_lookup_insert_eq, Hs, (Hp eq_refl), ET, lookup_insert_eq, decide_True by done. lia.
    + destruct (act t s) as [c m k|c k|c k|c k|u k|] eqn:Ha; try done.
      destruct (sn_thread n !! u) as [[su bu]|] eqn:Hu; [|done]. cbn [mbind option_bind] in E.
      destruct bu; [done|]. cbn [negb andb] in E. destruct (halted u su) eqn:Hh; [|done]. injection E as <-.
      destruct (sim_idle _ _ _ _ _ Ht Hu) as [Hssu _]. exists [Go t], (advance t k n'). split; [|split; [|split; [|by left]]].
      * simpl. rewrite Hss. simpl. rewrite Ha. simpl. rewrite Hssu. simpl. by rewrite Hh.
      * split; [done|done|]. simpl. by eapply sim_advance.
      * simpl. by rewrite length_insert.
  - destruct (g_threads (sn_sys n) !! thread_ptr t) as [T|] eqn:HT; [|simpl in E; by rewrite HT in E].
    cbn [gstep] in E. rewrite HT in E. cbn [mbind option_bind] in E. destruct (decide (gt_status T = Waiting)) as [|HW]; [done|].
    destruct (sim_resume _ _ _ _ _ _ Ht Hs HT HW) as (s' & Ha & Ht'). unfold answer in E. cbn [mbind option_bind] in E.
    assert (n1 = mk_snet (drop_thread (thread_ptr t) (sn_sys n)) (<[t := (s', false)]> (sn_thread n))) as ->.
    { unfold settle, answer in *. destruct (gt_status T); [done|rewrite Ha in E; by injection E as <-..]. }
    exists [], n'. split; [done|]. split; [|split; [simpl; by rewrite length_insert|]].
    + split; [|done|done]. split; [apply I|]. apply glink_drop; [apply I|]. intros T1 HT1. congruence.
    + right. eapply slacks_update; [done|done| |].
      * intros x Hx. simpl. by rewrite lookup_delete_ne.
      * unfold slack. simpl. rewrite list_lookup_insert_eq, Hs, HT, decide_False by done. lia.
Qed.

(** ** Progress *)

Definition chan_of (a : action M S) : option nat :=
  match a with ASend c _ _ | ARecv c _ | APoll c _ | AClose c _ => Some c | _ => None end.

(** A thread outside of a call can make its next one. *)
Lemma call_enabled n n' t s c q :
  net_sim n n' -> sends_copied n' -> sn_thread n !! t = Some (s, false) -> chan_of (act t s) = Some c -> n_chan n' !! c = Some q ->
  exists n1, snet_step enc dec (Call t) n = Some n1.
Proof.
  intros Hsim Hok Hs Hc Hq. destruct (chans_lookup _ _ _ _ (sm_chans _ _ Hsim) Hq) as (G & HG & _).
  assert (exists l r g, call_of enc t (act t s) = Some l /\ gstep l (sn_sys n) = Some (r, g)) as (l & r & g & Hl & Eg).
  { destruct (act t s); simplify_eq/=; eexists _; simpl; eexists _, _; (split; [done|]); simpl; rewrite HG; simpl; by rewrite <- surjective_pairing. }
  destruct (call_follows _ _ _ _ _ _ _ Hsim Hok Hs Hl Eg) as (n1 & _ & _ & Hset & _). exists n1.
  cbn [snet_step]. rewrite Hs. cbn [mbind option_bind]. destruct (act t s); try done; rewrite Hl; cbn [mbind option_bind]; rewrite Eg; done.
Qed.

(** A blocked thread can return, or it waits. *)
Lemma resume_enabled n n' t s :
  net_sim n n' -> sn_thread n !! t = Some (s, true) ->
  (exists n1, snet_step enc dec (Resume t) n = Some n1) \/
  (n_thread n' !! t = Some s /\ exists c G q op, chan_of (act t s) = Some c /\ n_chan n' !! c = Some q /\
     g_chans (sn_sys n) !! chan_ptr c = Some G /\ gq op G <> [] /\ net_go t (act t s) n' = None /\
     op = match act t s with ASend _ _ _ => CHAN_OP_SEND | _ => CHAN_OP_RECV end).
Proof.
  intros Hsim Hs. pose proof Hsim as [I Hc Ht]. destruct (ts_each _ _ _ Ht _ _ _ Hs) as (s' & Hss & T & HT & Hw & Hd).
  destruct (decide (gt_status T = Waiting)) as [HW|HW].
  2: { left. destruct (sim_resume _ _ _ _ _ _ Ht Hs HT HW) as (s1 & Ha & _). cbn [snet_step]. rewrite Hs. cbn [mbind option_bind gstep].
       rewrite HT. cbn [mbind option_bind]. rewrite decide_False by done. cbn [mbind option_bind]. unfold settle, answer in *.
       destruct (gt_status T); [done|rewrite Ha; by eexists..]. }
  right. subst s'. split; [done|]. destruct (gl_live _ (gi_link _ I) _ _ HT) as [G HG].
  assert (thread_ptr t ∈ gq (gt_op T) G) as Hin by (apply (gl_q _ (gi_link _ I) _ _ _ _ HG); by exists T).
  assert (gq (gt_op T) G <> []) as Hne by (intros E; rewrite E in Hin; set_solver).
  pose proof (gi_chan _ I _ _ HG) as [_ _ Grq Gsq Gcl]. destruct Hw as [_ Hw].
  destruct (act t s) as [c m k|c k|c k|c k|u k|] eqn:Ha; try done; pose proof (proj1 Hw) as Hch; pose proof (proj2 Hw) as Ho; [apply proj1 in Ho|]; rewrite Hch, Ho in *;
    destruct (chans_lookup_G _ _ _ _ Hc HG) as (q & Hq & Hb & Hcl & Hroom & Hcp); exists c, G, q;
    (eexists; do 4 (split; [done|]); split; [|done]); simpl in *; rewrite Hq; simpl.
  - specialize (Gsq Hne). unfold send_to. assert (q_closed q = false) as ->.
    { rewrite <- Hcl. destruct (g_closed G); [|done]. by destruct Gcl. }
    rewrite (proj2 (Z.ltb_ge _ _)); [done|]. rewrite Hb, Hroom in Gsq. unfold zlen in *. by rewrite length_fmap in Gsq.
  - destruct (Grq Hne) as [Eb _]. unfold recv_from. assert (q_buf q = []) as -> by (rewrite Eb in Hb; by destruct (q_buf q)).
    assert (q_closed q = false) as ->; [|done]. rewrite <- Hcl. destruct (g_closed G); [|done]. by destruct Gcl.
Qed.

(** A thread whose call is on a channel: it can move, or it waits. *)
Lemma thread_enabled n n' t s s' c q :
  net_sim n n' -> sends_copied n' -> n_thread n' !! t = Some s' -> chan_of (act t s') = Some c -> n_chan n' !! c = Some q ->
  sn_thread n !! t = Some s ->
  (exists l n1, snet_step enc dec l n = Some n1) \/
  (net_go t (act t s') n' = None /\ exists G, g_chans (sn_sys n) !! chan_ptr c = Some G /\
     gq (match act t s' with ASend _ _ _ => CHAN_OP_SEND | _ => CHAN_OP_RECV end) G <> []).
Proof.
  intros Hsim Hok Hss Hc Hq Hs. destruct s as [s [|]].
  - destruct (resume_enabled _ _ _ _ Hsim Hs) as [[n1 H1]|(Hs1 & d & G & q' & op & Hd & _ & HG & Hne & Hgo & ->)]; [left; eauto|].
    assert (s' = s) as -> by congruence. assert (d = c) as -> by congruence. right. split; [done|]. eauto.
  - left. destruct (sim_idle _ _ _ _ _ (sm_threads _ _ Hsim) Hs) as [Hs1 _]. assert (s' = s) as -> by congruence.
    destruct (call_enabled _ _ _ _ _ _ Hsim Hok Hs Hc Hq). eauto.
Qed.

(** If the program can go on over the queues, it can over the contract. *)
Lemma step_enabled l n n' n1' :
  net_sim n n' -> sends_copied n' -> net_step l n' = Some n1' -> exists l' n1, snet_step enc dec l' n = Some n1.
Proof.
  intros Hsim Hok E. pose proof (sm_threads _ _ Hsim) as Ht.
  assert (forall t s', n_thread n' !! t = Some s' -> exists s, sn_thread n !! t = Some s) as Hlook.
  { intros t s' Hs'. apply lookup_lt_is_Some. rewrite <- (ts_length _ _ _ Ht). by eapply lookup_lt_Some. }
  destruct l as [t|t u]; cbn [net_step] in E.
  - destruct (n_thread n' !! t) as [s'|] eqn:Hss; [|done]. cbn [mbind option_bind] in E. destruct (Hlook _ _ Hss) as [s Hs].
    destruct (chan_of (act t s')) as [c|] eqn:Hc.
    + assert (exists q, n_chan n' !! c = Some q) as [q Hq].
      { destruct (act t s'); simplify_eq/=; destruct (n_chan n' !! c); eauto; done. }
      destruct (thread_enabled _ _ _ _ _ _ _ Hsim Hok Hss Hc Hq Hs) as [?|[Hgo _]]; [done|]. congruence.
    + destruct (act t s') as [| | | |u k|] eqn:Ha; simplify_eq/=. destruct (n_thread n' !! u) as [su'|] eqn:Hu; [|done]. simpl in E.
      destruct (halted u su') eqn:Hh; [|done]. destruct (Hlook _ _ Hu) as [[su [|]] Hsu].
      * destruct (resume_enabled _ _ _ _ Hsim Hsu) as [[n1 H1]|(Hs1 & d & G & q' & op & Hd & _)]; [eauto|].
        assert (su' = su) as -> by congruence. unfold halted in Hh. by destruct (act u su).
      * destruct (sim_idle _ _ _ _ _ Ht Hsu) as [Hs1 _]. assert (su' = su) as -> by congruence. destruct s as [s [|]].
        -- destruct (resume_enabled _ _ _ _ Hsim Hs) as [[n1 H1]|(Hs2 & d & G & q' & op & Hd & _)]; [eauto|].
           assert (s' = s) as -> by congruence. by rewrite Ha in Hd.
        -- destruct (sim_idle _ _ _ _ _ Ht Hs) as [Hs2 _]. assert (s' = s) as -> by congruence.
           exists (Call t). cbn [snet_step]. rewrite Hs. cbn [mbind option_bind]. rewrite Ha, Hsu. cbn [mbind option_bind].
           rewrite Hh. simpl. by eexists.
  - unfold net_meet in E. destruct (n_thread n' !! t) as [st|] eqn:Hst; [|done]. destruct (n_thread n' !! u) as [su|] eqn:Hsu; [|done].
    cbn [mbind option_bind] in E. destruct (act t st) as [c m k| | | | |] eqn:Hat; try done.
    destruct (accepts (act u su)) as [[c' k']|] eqn:Hau; [|done]. destruct (n_chan n' !! c) as [q|] eqn:Hq; [|done].
    cbn [mbind option_bind] in E. destruct (bool_decide _ && _) eqn:Hb; [|done].
    apply andb_true_iff in Hb as [(Hne & <- & Hz)%bool_decide_eq_true _].
    destruct (Hlook _ _ Hst) as [s1 Hs1]. destruct (Hlook _ _ Hsu) as [s2 Hs2].
    destruct (thread_enabled _ _ _ _ _ c q Hsim Hok Hst ltac:(by rewrite Hat) Hq Hs1) as [?|(_ & G & HG & Hg)]; [done|].
    assert (chan_of (act u su) = Some c) as Hcu by (by destruct (act u su); simplify_eq/=).
    destruct (thread_enabled _ _ _ _ _ c q Hsim Hok Hsu Hcu Hq Hs2) as [?|(_ & G' & HG' & Hg')]; [done|]. exfalso.
    assert (G' = G) as -> by congruence. rewrite Hat in Hg. pose proof (gi_chan _ (sm_inv _ _ Hsim) _ _ HG) as [_ _ Grq _ _].
    destruct (act u su); simplify_eq/=; by destruct (Grq Hg') as [_ ?].
Qed.

(** ** The start *)

(** The channels of the contract at the start. *)
Definition fresh_chan (c : nat) : gchan := mk_gchan (room c) [] [] [] false [] [].
Lemma start_chan chans ss c : (c < chans)%nat -> g_chans (sn_sys (snet_start chans ss)) !! chan_ptr c = Some (fresh_chan c).
Proof.
  intros Hc. simpl. apply elem_of_list_to_map.
  - rewrite <- list_fmap_compose. apply NoDup_fmap_2; [|apply NoDup_seq]. intros a b E. simpl in E. by apply chan_ptr_inj.
  - apply list_elem_of_fmap. exists c. split; [done|]. apply elem_of_seq. lia.
Qed.
Lemma start_chan_inv chans ss p G : g_chans (sn_sys (snet_start chans ss)) !! p = Some G ->
  exists c, (c < chans)%nat /\ p = chan_ptr c /\ G = fresh_chan c.
Proof.
  intros HG. apply elem_of_list_to_map_2, list_elem_of_fmap in HG as (c & E & Hc%elem_of_seq).
  injection E as -> ->. exists c. split; [lia|done].
Qed.

Lemma start_sim chans ss : net_sim (snet_start chans ss) (net_start chans ss).
Proof.
  pose proof (start_chan chans ss) as Hin. pose proof (start_chan_inv chans ss) as Hout.
  split.
  - split.
    + intros p G HG. destruct (Hout _ _ HG) as (c & _ & _ & ->). split; simpl; done.
    + split.
      * intros p G op x HG. destruct (Hout _ _ HG) as (c & _ & _ & ->). split; [by destruct op; set_solver|].
        intros (T & HT & _). simpl in HT. done.
      * intros p G op HG. destruct (Hout _ _ HG) as (c & _ & _ & ->). destruct op; constructor.
      * intros x T HT. done.
  - intros c. simpl. destruct (decide (c < chans)%nat) as [Hc|Hc].
    + rewrite lookup_replicate_2 by done. eexists. split; [by apply Hin|done].
    + rewrite lookup_ge_None_2 by (rewrite length_replicate; lia). destruct (list_to_map _ !! chan_ptr c) as [G|] eqn:HG; [|done].
      destruct (Hout _ _ HG) as (d & Hd & E & _). apply chan_ptr_inj in E. lia.
  - simpl. split; [|by rewrite length_fmap|done]. intros t s b Hs. rewrite list_lookup_fmap in Hs.
    destruct (ss !! t) as [s'|] eqn:Es; [|done]. injection Hs as -> <-. by exists s.
Qed.

(** ** Whole runs *)

(** An invariant of the program over queues, under which its messages survive. *)
Context (P : net -> Prop).
Hypothesis P_step : forall l n n', P n -> net_step l n = Some n' -> P n'.
Hypothesis P_copied : forall n, P n -> sends_copied n.

Lemma run_follows ls n n' n1 :
  net_sim n n' -> P n' -> snet_run enc dec ls n = Some n1 ->
  exists ks n1', net_run ks n' = Some n1' /\ P n1' /\ net_sim n1 n1' /\ length (sn_thread n1) = length (sn_thread n) /\
    (length ls + slacks n1 <= length ks * (2 * length (sn_thread n) + 1) + slacks n)%nat.
Proof.
  revert n n'. induction ls as [|l ls IH]; intros n n' Hsim HP E; simpl in E; [simplify_eq; exists [], n'; simpl; auto with lia|].
  destruct (snet_step enc dec l n) as [n2|] eqn:E2; [|done]. simpl in E.
  destruct (snet_step_follows _ _ _ _ Hsim (P_copied _ HP) E2) as (k1 & n2' & H1 & Hsim2 & Hlen & Hs).
  pose proof (net_run_inv P _ _ _ P_step HP H1) as HP2.
  destruct (IH _ _ Hsim2 HP2 E) as (k2 & n1' & H2 & HP1 & Hsim1 & Hlen2 & Hb). exists (k1 ++ k2), n1'.
  split; [by eapply net_run_app|]. do 2 (split; [done|]). split; [congruence|].
  rewrite length_app, Hlen in *. pose proof (slacks_bound n2) as Hsl. rewrite Hlen in Hsl. simpl length.
  destruct Hs as [Hne|Hlt]; [destruct k1; [done|]; simpl length in *; lia|lia].
Qed.

(** The threads that are not inside a call are in the same state. *)
Definition agree (n : snet) (n' : net) : Prop :=
  forall t s, sn_thread n !! t = Some (s, false) -> n_thread n' !! t = Some s.

Lemma sim_agree n n' : net_sim n n' -> agree n n'.
Proof. intros Hsim t s Hs. eapply sim_idle; [|done]. apply Hsim. Qed.

(** Where nothing moves over the contract, nothing moves over the queues, and the
    threads are in the same states, inside a call only if they have not returned. *)
Definition stuck (n : snet) : Prop := forall l, snet_step enc dec l n = None.
Definition ends_as (n : snet) (n' : net) : Prop :=
  (forall l, net_step l n' = None) /\ n_thread n' = (sn_thread n).*1 /\
  (forall t s, sn_thread n !! t = Some (s, true) -> halted t s = false).

Lemma ends_halted n n' : ends_as n n' -> (forall t s, n_thread n' !! t = Some s -> halted t s = true) ->
  sn_thread n = (., false) <$> n_thread n'.
Proof.
  intros (_ & E & Hb) Hh. rewrite E in *. rewrite <- list_fmap_compose. rewrite <- (list_fmap_id (sn_thread n)) at 1.
  apply list_fmap_ext. intros t [s b] Hs. destruct b; [|done]. exfalso. pose proof (Hb _ _ Hs) as Hf.
  rewrite (Hh t s) in Hf; [done|]. by rewrite list_lookup_fmap, Hs.
Qed.

Lemma stuck_ends n n' : net_sim n n' -> sends_copied n' -> stuck n -> ends_as n n'.
Proof.
  intros Hsim Hok Hst. split; [|split].
  - intros l. destruct (net_step l n') as [n1|] eqn:E; [|done].
    destruct (step_enabled _ _ _ _ Hsim Hok E) as (l' & n2 & E'). by rewrite Hst in E'.
  - apply list_eq. intros t. rewrite list_lookup_fmap. pose proof (ts_length _ _ _ (sm_threads _ _ Hsim)) as Hl.
    destruct (sn_thread n !! t) as [[s [|]]|] eqn:Hs; simpl.
    + destruct (resume_enabled _ _ _ _ Hsim Hs) as [[n1 H1]|[H1 _]]; [by rewrite Hst in H1|done].
    + by eapply sim_idle; [apply Hsim|].
    + apply lookup_ge_None in Hs. apply lookup_ge_None. lia.
  - intros t s Hs. destruct (resume_enabled _ _ _ _ Hsim Hs) as [[n1 H1]|(_ & c & _ & _ & _ & Hc & _)]; [by rewrite Hst in H1|].
    unfold halted. by destruct (act t s).
Qed.

(** A run over the contract, as one over the queues that agrees with it, is not
    much shorter, and stops where it does. *)
Lemma program_follows chans ss ls n :
  P (net_start chans ss) -> snet_run enc dec ls (snet_start chans ss) = Some n ->
  exists ks n', net_run ks (net_start chans ss) = Some n' /\ P n' /\ agree n n' /\ length (n_thread n') = length (sn_thread n) /\
    (length ls <= (length ks + 1) * (2 * length ss + 1))%nat /\
    (stuck n -> ends_as n n').
Proof.
  intros HP E. destruct (run_follows _ _ _ _ (start_sim chans ss) HP E) as (ks & n' & H1 & HP' & Hsim & Hlen & Hb). exists ks, n'.
  do 2 (split; [done|]). split; [by apply sim_agree|]. split; [apply Hsim|]. split.
  - pose proof (slacks_bound (snet_start chans ss)) as Hsl. simpl sn_thread in *. rewrite length_fmap in *. lia.
  - apply stuck_ends; [done|by apply P_copied].
Qed.
End simulation.

(** ** Integers in messages *)

Definition byte_of (z : Z) : byte := default x00 (Byte.of_N (Z.to_N (z mod 256))).
Definition byte_val (b : byte) : Z := Z.of_N (Byte.to_N b).

Lemma byte_val_of z : byte_val (byte_of z) = z mod 256.
Proof.
  unfold byte_val, byte_of. pose proof (Z.mod_pos_bound z 256 ltac:(lia)).
  destruct (Byte.of_N (Z.to_N (z mod 256))) as [b|] eqn:E.
  - simpl. rewrite (Byte.to_of_N _ E). lia.
  - apply Byte.of_N_None_iff in E. lia.
Qed.

(** An [int] in memory, least significant byte first. *)
Definition enc_int (z : Z) : list byte := [byte_of z; byte_of (z / 256); byte_of (z / 65536); byte_of (z / 16777216)].
Definition dec_int (l : list byte) : option Z :=
  match l with
  | [a; b; c; d] => Some (i32 (byte_val a + 256 * byte_val b + 65536 * byte_val c + 16777216 * byte_val d))
  | _ => None
  end.
Definition is_int (z : Z) : Prop := -2147483648 <= z < 2147483648.

Lemma dec_enc_int z : is_int z -> dec_int (enc_int z) = Some z.
Proof.
  intros Hz. unfold is_int in Hz. simpl. f_equal. rewrite !byte_val_of.
  assert (z mod 256 + 256 * ((z / 256) mod 256) + 65536 * ((z / 65536) mod 256) + 16777216 * ((z / 16777216) mod 256) = z mod two32) as ->.
  { unfold two32. assert (z / 65536 = z / 256 / 256) as -> by (by rewrite Z.div_div by lia).
    assert (z / 16777216 = z / 256 / 256 / 256) as -> by (by rewrite !Z.div_div by lia).
    pose proof (Z.div_mod z 256). pose proof (Z.div_mod (z / 256) 256). pose proof (Z.div_mod (z / 256 / 256) 256).
    pose proof (Z.div_mod (z / 256 / 256 / 256) 256). pose proof (Z.div_mod z 4294967296).
    pose proof (Z.mod_pos_bound z 256). pose proof (Z.mod_pos_bound (z / 256) 256). pose proof (Z.mod_pos_bound (z / 256 / 256) 256).
    pose proof (Z.mod_pos_bound (z / 256 / 256 / 256) 256). pose proof (Z.mod_pos_bound z 4294967296). lia. }
  unfold i32, u32. rewrite Z.mod_mod by done. pose proof (Z.mod_pos_bound z two32 ltac:(done)).
  pose proof (Z.div_mod z two32). unfold two32 in *. destruct (Z.ltb_spec (z mod 4294967296) 2147483648); lia.
Qed.
