(* ===== verification/NetHeap.v ===== *)
(** * Programs on the memory of the library

    A program of [Net] runs here on the functions of the library themselves: its
    channels are made by [chan_create] in memory, a send copies the message from a
    variable of its thread, a receive into one, a call that blocks leaves the
    thread in [chan_park_wait].  [net_on_code] shows that such a run has no
    undefined behaviour and no hang, and is a run over the contract of the library
    step by step. *)

From S2P Require Import Prelude RingLf Heap WaitQ Abs Chan ChanSend ChanRecv ChanSpec ChanSys Layout Net.
From stdpp Require Import countable list.
#[local] Open Scope Z_scope.

Section net_heap.
Context {M S : Type} `{Program M S} (enc : M -> list byte) (dec : list byte -> option M).

(** The size and capacity each channel is created with. *)
Context (elem cap : nat -> Z).

(** ** The program in memory *)

(** The variable of [t] that its calls on [c] pass. *)
Definition var (t c : nat) : ptr := Zpos (encode (t, c)).

Record cnet := mk_cnet { cn_sys : sys; cn_thread : list (S * bool) }.

(** An assignment to a variable. *)
Definition assign (p : ptr) (b : list byte) (y : sys) : res sys :=
  let! _ := deref (h_mem (s_heap y) !! p) in Ret (mk_sys (set_h_mem (<[p := b]> (h_mem (s_heap y))) (s_heap y)) (s_blocked y)).

(** The call of the library a thread makes; [None]: it makes none. *)
Definition code_of (t : nat) (a : action M S) (y : sys) : option (res (reply * sys)) :=
  match a with
  | ASend c m _ =>
      match assign (var t c) (enc m) y with
      | Ret y => sys_step (Send (chan_ptr c) (var t c) (-1) (thread_ptr t)) y
      | _ => Some Undef
      end
  | ARecv c _ => sys_step (Recv (chan_ptr c) (var t c) (-1) (thread_ptr t)) y
  | APoll c _ => sys_step (Recv (chan_ptr c) (var t c) 0 (thread_ptr t)) y
  | AClose c _ => sys_step (Close (chan_ptr c)) y
  | AJoin _ _ | AHalt => None
  end.

(** A thread whose call answered bytes that are no message has read what nobody
    wrote. *)
Definition csettle (t : nat) (s : S) (r : reply) (y : sys) (n : cnet) : res cnet :=
  match r with
  | Blocked => Ret (mk_cnet y (<[t := (s, true)]> (cn_thread n)))
  | _ => let! s' := deref (answered dec (act t s) r) in Ret (mk_cnet y (<[t := (s', false)]> (cn_thread n)))
  end.

Definition cnet_step (l : slabel) (n : cnet) : option (res cnet) :=
  match l with
  | Call t =>
      '(s, b) ← cn_thread n !! t;
      if (b : bool) then None
      else match act t s with
      | AJoin u k =>
          '(s', b') ← cn_thread n !! u;
          if negb b' && halted u s' then Some (Ret (mk_cnet (cn_sys n) (<[t := (k, false)]> (cn_thread n)))) else None
      | a => o ← code_of t a (cn_sys n); Some (let! (r, y) := o in csettle t s r y n)
      end
  | Resume t =>
      '(s, b) ← cn_thread n !! t;
      if (b : bool) then o ← sys_step (Wake (thread_ptr t)) (cn_sys n); Some (let! (r, y) := o in csettle t s r y n)
      else None
  end.

Fixpoint cnet_run (ls : list slabel) (n : cnet) : option (res cnet) :=
  match ls with
  | [] => Some (Ret n)
  | l :: ls => o ← cnet_step l n; match o with Ret n => cnet_run ls n | Undef => Some Undef | Hang => Some Hang end
  end.

(** [main] creates the channels and starts the threads. *)
Fixpoint create_chans `{Malloc} (cs : list nat) : Heap.M (list ptr) :=
  match cs with
  | [] => mret []
  | c :: cs => p ← chan_create (Some (chan_ptr c)) (elem c) (cap c); ps ← create_chans cs; mret (p :: ps)
  end.

Definition vars (chans : nat) (ss : list S) : heap :=
  mk_heap ∅ ∅ ∅ ∅ (list_to_map (t ← seq 0 (length ss); (fun c => (var t c, replicate (Z.to_nat (elem c)) x00)) <$> seq 0 chans)) [].
Definition cnet_start `{Malloc} (chans : nat) (ss : list S) : res cnet :=
  let! (_, h) := create_chans (seq 0 chans) (vars chans ss) in Ret (mk_cnet (mk_sys h ∅) ((., false) <$> ss)).
End net_heap.

(** ** The run of a call *)

(** A call that ran leaves shapes and sizes; its thread is blocked with the
    variable it passed, or on no list any more. *)
Definition registered (x buf : ptr) (r : reply) (Bs Bs' : gmap ptr blocked) : Prop :=
  match r with
  | Blocked => exists B, b_buf B = buf /\ Bs' = <[x := B]> Bs
  | _ => Bs' = delete x Bs
  end.

Lemma ran_keeps self ch op buf (m : Heap.M (flow chan_err_t)) y r y' :
  keeps m -> ran self ch op buf (m (s_heap y)) y = Ret (r, y') ->
  static (s_heap y) (s_heap y') /\
  registered self buf r (s_blocked y) (s_blocked y').
Proof.
  intros Hm. unfold ran. destruct (m (s_heap y)) as [[f h]| |] eqn:E; [|done..]. simpl. apply Hm in E.
  destruct f as [e|pk tm k]; intros [= <- <-]; (split; [done|]); [done|simpl; eexists; split; [|reflexivity]; done].
Qed.

Lemma resume_keeps op u ch x woken : keeps (resume op u ch x woken).
Proof. destruct op; simpl; [apply keeps_send_woken|apply keeps_recv_woken]. Qed.

Lemma wake_keeps x y g r y' B :
  ChanSys.sim y g -> s_blocked y !! x = Some B -> sys_step (Wake x) y = Some (Ret (r, y')) ->
  static (s_heap y) (s_heap y') /\
  registered x (b_buf B) r (s_blocked y) (s_blocked y').
Proof.
  intros (_ & _ & a & R & Mt) HB E. simpl in E. rewrite HB in E. simpl in E.
  destruct (h_park (s_heap y) !! b_park B) as [v|]; [|done]. destruct (v =? 0); [done|]. injection E as E.
  destruct (match_resume _ _ _ _ _ Mt HB) as (A & G & T & w & v' & b & _ & _ & _ & _ & TS).
  unfold resumed in E. apply ran_keeps in E; [done|]. rewrite (ts_k _ _ _ _ _ _ _ _ _ TS). apply resume_keeps.
Qed.

Lemma close_keeps ch y r y' : sys_step (Close ch) y = Some (Ret (r, y')) ->
  static (s_heap y) (s_heap y') /\ s_blocked y' = s_blocked y /\ r <> Blocked.
Proof.
  simpl. destruct (chan_close ch (s_heap y)) as [[e h]| |] eqn:E; simpl; intros [= <- <-]. split; [|done].
  by apply (keeps_chan_close ch) in E.
Qed.

(** A thread that is settled can be resumed. *)
Lemma wake_enabled x y g r g' : ChanSys.sim y g -> gstep (GWake x) g = Some (r, g') -> exists o, sys_step (Wake x) y = Some o.
Proof.
  intros (_ & _ & a & R & Mt) E. simpl in E. destruct (g_threads g !! x) as [T|] eqn:HT; [|done]. simpl in E.
  destruct (decide (gt_status T = Waiting)) as [|HW]; [done|].
  destruct (match_thread _ _ _ Mt _ _ HT) as (B & w & v & es & cp & b & HB & TS). simpl. rewrite HB. simpl.
  rewrite <- (r_park _ _ R), (ts_park _ _ _ _ _ _ _ _ _ TS), (ts_word _ _ _ _ _ _ _ _ _ TS).
  assert (v <> 0) as Hv by (pose proof (ts_status _ _ _ _ _ _ _ _ _ TS) as St; unfold settled in St; by destruct (gt_status T); [|lia..]).
  rewrite (proj2 (Z.eqb_neq _ _) Hv). eauto.
Qed.

(** Shapes and sizes through a call. *)
Lemma static_chan h h' p c : static h h' -> h_chan h !! p = Some c -> exists c', h_chan h' !! p = Some c' /\ shape c' = shape c.
Proof.
  intros [E _] Hc. assert ((shape <$> h_chan h') !! p = Some (shape c)) as Hf by (by rewrite E, lookup_fmap, Hc).
  rewrite lookup_fmap in Hf. destruct (h_chan h' !! p) as [c'|]; [|done]. apply (inj Some) in Hf. by exists c'.
Qed.
Lemma static_mem h h' p b : static h h' -> h_mem h !! p = Some b -> exists b', h_mem h' !! p = Some b' /\ zlen b' = zlen b.
Proof.
  intros [_ E] Hb. assert ((zlen <$> h_mem h') !! p = Some (zlen b)) as Hf by (by rewrite E, lookup_fmap, Hb).
  rewrite lookup_fmap in Hf. destruct (h_mem h' !! p) as [b'|]; [|done]. apply (inj Some) in Hf. by exists b'.
Qed.

Lemma var_inj t c t' c' : var t c = var t' c' -> t = t' /\ c = c'.
Proof. unfold var. intros E. assert (encode (t, c) = encode (t', c')) as E' by congruence. apply (inj encode) in E'. by simplify_eq. Qed.

Lemma size_bounded (Bs : gmap ptr blocked) k :
  (forall x B, Bs !! x = Some B -> exists t, (t < k)%nat /\ x = thread_ptr t) -> (size Bs <= k)%nat.
Proof.
  intros Hk. rewrite <- size_dom. transitivity (size (list_to_set (thread_ptr <$> seq 0 k) : gset ptr)).
  - apply subseteq_size. intros x [B HB]%elem_of_dom. destruct (Hk _ _ HB) as (t & Ht & ->).
    apply elem_of_list_to_set, list_elem_of_fmap. exists t. split; [done|]. apply elem_of_seq. lia.
  - rewrite size_list_to_set, length_fmap, length_seq; [done|]. apply NoDup_fmap_2; [|apply NoDup_seq]. intros t u. apply thread_ptr_inj.
Qed.

(** ** Simulation *)

Section simulated.
Context {M S : Type} `{Program M S} (enc : M -> list byte) (dec : list byte -> option M) (elem cap : nat -> Z).
Context (chans threads : nat) (h0 : heap).
Hypothesis room_nonneg : forall c, 0 <= Net.room c.
Hypothesis placed_chan : forall c, (c < chans)%nat -> exists ch, h_chan h0 !! chan_ptr c = Some ch /\ shape ch = (elem c, cap c, false).
Hypothesis placed_var : forall t c, (t < threads)%nat -> (c < chans)%nat -> exists b, h_mem h0 !! var t c = Some b /\ zlen b = elem c.
Hypothesis few_threads : Z.of_nat threads < 2147483647.
#[local] Notation cnet := (@cnet S).
#[local] Notation snet := (@snet S).
#[local] Notation net := (@net M S).

(** The calls of the threads name the channels there are and pass messages of
    their size. *)
Definition call_fits (a : action M S) : Prop :=
  match a with
  | ASend c m _ => (c < chans)%nat /\ zlen (enc m) = elem c
  | ARecv c _ | APoll c _ | AClose c _ => (c < chans)%nat
  | AJoin _ _ | AHalt => True
  end.
Definition calls_fit (n : net) : Prop := forall t s, n_thread n !! t = Some s -> call_fits (act t s).

(** A blocked thread waits with the variable of its call. *)
Definition blocked_own (Bs : gmap ptr blocked) (ths : list (S * bool)) : Prop :=
  forall x B, Bs !! x = Some B -> exists t s c, x = thread_ptr t /\ ths !! t = Some (s, true) /\
    chan_of (act t s) = Some c /\ b_buf B = var t c.

Record csim (n : cnet) (sn : snet) : Prop := {
  cm_sys : ChanSys.sim (cn_sys n) (sn_sys sn);
  cm_thread : cn_thread n = sn_thread sn;
  cm_static : static h0 (s_heap (cn_sys n));
  cm_length : length (cn_thread n) = threads;
  cm_blocked : blocked_own (s_blocked (cn_sys n)) (cn_thread n)
}.

Section at_rest.
Context (n : cnet) (sn : snet) (t : nat) (s : S).
Hypothesis Hsim : csim n sn.
Hypothesis Hs : cn_thread n !! t = Some (s, false).

Lemma idle_frame : s_blocked (cn_sys n) !! thread_ptr t = None.
Proof.
  destruct (s_blocked (cn_sys n) !! thread_ptr t) as [B|] eqn:HB; [|done].
  destruct (cm_blocked _ _ Hsim _ _ HB) as (u & s' & c & E%thread_ptr_inj & Hu & _). subst u. congruence.
Qed.

Lemma idle_var c x B : s_blocked (cn_sys n) !! x = Some B -> b_buf B <> var t c.
Proof.
  intros HB E. destruct (cm_blocked _ _ Hsim _ _ HB) as (u & s' & d & -> & Hu & _ & Eb). rewrite E in Eb.
  apply var_inj in Eb as [-> _]. congruence.
Qed.

Lemma idle_frame_ok y : s_blocked y = s_blocked (cn_sys n) -> frame_ok (thread_ptr t) y = true.
Proof.
  intros E. unfold frame_ok. rewrite E, bool_decide_true by apply idle_frame. simpl.
  assert (thread_ptr t <> NULL) as Hne by (unfold thread_ptr, NULL; lia). rewrite (proj2 (Z.eqb_neq _ _) Hne). simpl. apply Z.ltb_lt.
  assert (size (s_blocked (cn_sys n)) <= threads)%nat; [|lia]. apply size_bounded. intros x B HB.
  destruct (cm_blocked _ _ Hsim _ _ HB) as (u & s' & c & -> & Hu & _). exists u. split; [|done].
  rewrite <- (cm_length _ _ Hsim). by eapply lookup_lt_Some.
Qed.

Lemma chan_usable c y : (c < chans)%nat -> static h0 (s_heap y) -> usable (chan_ptr c) y = true.
Proof.
  intros Hc Hst. destruct (placed_chan c Hc) as (ch & H1 & H2). destruct (static_chan _ _ _ _ Hst H1) as (ch' & H3 & H4).
  rewrite H2 in H4. unfold usable, shape in *. rewrite H3. injection H4 as _ _ ->. simpl. apply negb_true_iff, Z.eqb_neq.
  unfold chan_ptr, NULL. lia.
Qed.

Lemma chan_size c y ch : (c < chans)%nat -> static h0 (s_heap y) -> h_chan (s_heap y) !! chan_ptr c = Some ch -> ch_elem_size ch = elem c.
Proof.
  intros Hc Hst Hch. destruct (placed_chan c Hc) as (ch0 & H1 & H2). destruct (static_chan _ _ _ _ Hst H1) as (ch' & H3 & H4).
  unfold shape in *. congruence.
Qed.

Lemma var_there c : (c < chans)%nat -> exists b, h_mem (s_heap (cn_sys n)) !! var t c = Some b /\ zlen b = elem c.
Proof.
  intros Hc. destruct (placed_var t c) as (b & H1 & H2); [rewrite <- (cm_length _ _ Hsim); by eapply lookup_lt_Some|done|].
  destruct (static_mem _ _ _ _ (cm_static _ _ Hsim) H1) as (b' & H3 & H4). exists b'. split; [done|congruence].
Qed.

Lemma var_buffer_ok c y b : (c < chans)%nat -> static h0 (s_heap y) -> h_mem (s_heap y) !! var t c = Some b -> zlen b = elem c ->
  buffer_ok (chan_ptr c) (var t c) y = true.
Proof.
  intros Hc Hst Hb Hl. pose proof (chan_usable c y Hc Hst) as Hu. unfold usable in Hu. unfold buffer_ok. rewrite Hb.
  destruct (h_chan (s_heap y) !! chan_ptr c) as [ch|] eqn:Hch; [|done]. rewrite (chan_size c y ch Hc Hst Hch), Hl, Z.leb_refl. done.
Qed.
End at_rest.

(** The thread that called is blocked with its variable, or off the list. *)
Lemma blocked_own_update Bs Bs' ths t s b c r s' :
  blocked_own Bs ths -> ths !! t = Some (s, b) -> chan_of (act t s) = Some c -> registered (thread_ptr t) (var t c) r Bs Bs' ->
  blocked_own Bs' (<[t := match r with Blocked => (s, true) | _ => (s', false) end]> ths).
Proof.
  intros Hb Hs Hc Hr x B HB. destruct (decide (x = thread_ptr t)) as [->|Hne].
  - destruct r; simpl in Hr; [|subst Bs'; by rewrite lookup_delete_eq in HB..].
    destruct Hr as (B' & HB' & ->). rewrite lookup_insert_eq in HB. simplify_eq. exists t, s, c. split; [done|].
    split; [|done]. apply list_lookup_insert_eq. by eapply lookup_lt_Some.
  - assert (Bs !! x = Some B) as HB'.
    { destruct r; simpl in Hr; [destruct Hr as (B' & _ & ->); by rewrite lookup_insert_ne in HB|subst Bs'; by rewrite lookup_delete_ne in HB..]. }
    destruct (Hb _ _ HB') as (u & su & d & -> & Hu & Hd). exists u, su, d. split; [done|]. split; [|done].
    rewrite list_lookup_insert_ne; [done|]. by intros ->.
Qed.

Lemma settle_same t s r g y n sn sn1 :
  cn_thread n = sn_thread sn -> settle dec t s r g sn = Some sn1 ->
  exists s', csettle dec t s r y n = Ret (mk_cnet y (sn_thread sn1)) /\ sn_sys sn1 = g /\
    sn_thread sn1 = <[t := match r with Blocked => (s, true) | _ => (s', false) end]> (cn_thread n).
Proof.
  intros E Hset. unfold settle in Hset. unfold csettle. rewrite E. destruct r; [injection Hset as <-; by exists s|..];
    (destruct (answered dec (act t s) _) as [s'|]; [|done]; injection Hset as <-; by exists s').
Qed.

(** What a call or a wake-up leads to. *)
Lemma csim_next n sn t s b c r y g sn1 :
  csim n sn -> cn_thread n !! t = Some (s, b) -> chan_of (act t s) = Some c ->
  ChanSys.sim y g -> settle dec t s r g sn = Some sn1 -> static h0 (s_heap y) ->
  registered (thread_ptr t) (var t c) r (s_blocked (cn_sys n)) (s_blocked y) ->
  exists n1, csettle dec t s r y n = Ret n1 /\ csim n1 sn1.
Proof.
  intros Hsim Hs Hc Hy Hset Hst Hreg. destruct (settle_same t s r g y n sn sn1 (cm_thread _ _ Hsim) Hset) as (s' & H1 & H2 & H3).
  eexists. split; [exact H1|]. split; simpl; [by rewrite H2|done|done| |].
  - rewrite H3, length_insert. apply Hsim.
  - rewrite H3. eapply blocked_own_update; [apply Hsim|done|done|done].
Qed.

(** A variable of a thread outside of a call is assigned. *)
Lemma assign_sim n sn t s c b :
  csim n sn -> cn_thread n !! t = Some (s, false) -> (c < chans)%nat -> zlen b = elem c ->
  exists y, assign (var t c) b (cn_sys n) = Ret y /\ ChanSys.sim y (sn_sys sn) /\ s_blocked y = s_blocked (cn_sys n) /\
    static h0 (s_heap y) /\ h_mem (s_heap y) !! var t c = Some b.
Proof.
  intros Hsim Hs Hc Hb. destruct (var_there _ _ _ _ Hsim Hs c Hc) as (b0 & H1 & H2). unfold assign. rewrite H1. simpl.
  eexists. split; [done|]. split; [|split; [done|split]].
  - destruct (cm_sys _ _ Hsim) as (I & Hz & a & R & Mt). split; [done|]. split; [done|]. exists (on_mem (var t c) b a). split.
    + unfold on_mem. rewrite (r_mem _ _ R). by apply repr_mem.
    + apply match_on_mem; [done|]. intros x B HB. by eapply idle_var.
  - simpl. transitivity (s_heap (cn_sys n)); [apply Hsim|]. eapply static_store; [done|congruence].
  - simpl. apply lookup_insert_eq.
Qed.

(** A legal call runs, and the contract answers the same. *)
Lemma call_runs n sn t s c l y :
  csim n sn -> cn_thread n !! t = Some (s, false) -> ChanSys.sim y (sn_sys sn) -> s_blocked y = s_blocked (cn_sys n) ->
  static h0 (s_heap y) -> legal l y = true ->
  (exists tm, l = Send (chan_ptr c) (var t c) tm (thread_ptr t)) \/ (exists tm, l = Recv (chan_ptr c) (var t c) tm (thread_ptr t)) \/
    l = Close (chan_ptr c) ->
  exists r y' g, sys_step l y = Some (Ret (r, y')) /\ gstep (abs_label l y) (sn_sys sn) = Some (r, g) /\ ChanSys.sim y' g /\
    static h0 (s_heap y') /\ registered (thread_ptr t) (var t c) r (s_blocked (cn_sys n)) (s_blocked y').
Proof.
  intros Hsim Hs Hy Eb Hst Hl Hcase. assert (exists o, sys_step l y = Some o) as [o Ho].
  { destruct Hcase as [[tm ->]|[[tm ->]| ->]]; simpl; eauto. }
  destruct (step_follows l y _ o Hy Hl Ho) as (r & y' & g & -> & Hg & Hy'). exists r, y', g. do 3 (split; [done|]). rewrite <- Eb.
  destruct Hcase as [[tm ->]|[[tm ->]| ->]].
  - injection Ho as Ho. apply ran_keeps in Ho as [H1 H2]; [|apply keeps_chan_send]. split; [|done]. by transitivity (s_heap y).
  - injection Ho as Ho. apply ran_keeps in Ho as [H1 H2]; [|apply keeps_chan_recv]. split; [|done]. by transitivity (s_heap y).
  - apply close_keeps in Ho as (H1 & -> & Hr). split; [by transitivity (s_heap y)|]. rewrite Eb.
    assert (delete (thread_ptr t) (s_blocked (cn_sys n)) = s_blocked (cn_sys n)) as Hd
      by (apply delete_id; eapply idle_frame; eauto). unfold registered. by destruct r.
Qed.

Lemma call_code n sn t s c :
  csim n sn -> cn_thread n !! t = Some (s, false) -> call_fits (act t s) -> chan_of (act t s) = Some c ->
  exists l r y g, call_of enc t (act t s) = Some l /\ code_of enc t (act t s) (cn_sys n) = Some (Ret (r, y)) /\
    gstep l (sn_sys sn) = Some (r, g) /\ ChanSys.sim y g /\ static h0 (s_heap y) /\
    registered (thread_ptr t) (var t c) r (s_blocked (cn_sys n)) (s_blocked y).
Proof.
  intros Hsim Hs Hfit Hc. pose proof (cm_static _ _ Hsim) as Hst.
  assert (forall y, s_blocked y = s_blocked (cn_sys n) -> static h0 (s_heap y) -> (c < chans)%nat ->
    (exists b, h_mem (s_heap y) !! var t c = Some b /\ zlen b = elem c) ->
    usable (chan_ptr c) y && buffer_ok (chan_ptr c) (var t c) y && frame_ok (thread_ptr t) y = true) as Hok.
  { intros y Ey Hy Hlt (b & Hb & Hlen). rewrite (chan_usable c y), (var_buffer_ok t c y b), (idle_frame_ok n sn t s Hsim Hs y) by done. done. }
  assert (forall tm, (c < chans)%nat -> legal (Recv (chan_ptr c) (var t c) tm (thread_ptr t)) (cn_sys n) = true) as Hrecv.
  { intros tm Hlt. cbn [legal]. rewrite Hok; [|done|done|done|by eapply var_there]. apply bool_decide_eq_true. intros x B HB. by eapply idle_var. }
  destruct (act t s) as [d m k|d k|d k|d k|u k|] eqn:Ha; simplify_eq/=.
  - destruct Hfit as [Hlt Hlen]. destruct (assign_sim _ _ _ _ c (enc m) Hsim Hs Hlt Hlen) as (y & Ey & Hy & Eb & Hsty & Hmem).
    destruct (call_runs n sn t s c (Send (chan_ptr c) (var t c) (-1) (thread_ptr t)) y Hsim Hs Hy Eb Hsty) as (r & y' & g & H1 & H2 & H3 & H4 & H5).
    + cbn [legal]. rewrite Hok by eauto. apply bool_decide_eq_true. intros x B HB. right. rewrite Eb in HB. by eapply idle_var.
    + by left; exists (-1).
    + exists (GSend (chan_ptr c) (enc m) (-1) (thread_ptr t)), r, y', g. split; [done|]. rewrite Ey. split; [done|]. split; [|done].
      rewrite <- H2. cbn [abs_label]. f_equal. f_equal. unfold held. rewrite Hmem.
      destruct (placed_chan c Hlt) as (ch0 & Hp & _). destruct (static_chan _ _ _ _ Hsty Hp) as (ch & Hch & _). rewrite Hch.
      rewrite (chan_size c y ch Hlt Hsty Hch), <- Hlen. unfold message, zlen. by rewrite Nat2Z.id, take_ge.
  - destruct (call_runs n sn t s c (Recv (chan_ptr c) (var t c) (-1) (thread_ptr t)) (cn_sys n) Hsim Hs (cm_sys _ _ Hsim) eq_refl Hst (Hrecv 0 Hfit))
      as (r & y' & g & H1 & H2 & H3 & H4 & H5); [right; left; by exists (-1)|]. by exists (GRecv (chan_ptr c) (-1) (thread_ptr t)), r, y', g.
  - destruct (call_runs n sn t s c (Recv (chan_ptr c) (var t c) 0 (thread_ptr t)) (cn_sys n) Hsim Hs (cm_sys _ _ Hsim) eq_refl Hst (Hrecv 0 Hfit))
      as (r & y' & g & H1 & H2 & H3 & H4 & H5); [right; left; by exists 0|]. by exists (GRecv (chan_ptr c) 0 (thread_ptr t)), r, y', g.
  - destruct (call_runs n sn t s c (Close (chan_ptr c)) (cn_sys n) Hsim Hs (cm_sys _ _ Hsim) eq_refl Hst (chan_usable c _ Hfit Hst))
      as (r & y' & g & H1 & H2 & H3 & H4 & H5); [by right; right|]. by exists (GClose (chan_ptr c)), r, y', g.
Qed.

(** A step of the program in memory is defined, and is its step over the contract. *)
Lemma call_step n sn n' t s c :
  csim n sn -> net_sim enc dec sn n' -> sends_copied enc dec n' -> calls_fit n' -> cn_thread n !! t = Some (s, false) ->
  chan_of (act t s) = Some c ->
  exists n1 sn1, cnet_step enc dec (Call t) n = Some (Ret n1) /\ snet_step enc dec (Call t) sn = Some sn1 /\ csim n1 sn1.
Proof.
  intros Hsim Hns Hok Hfit Hs Hc. pose proof Hs as Hs'. rewrite (cm_thread _ _ Hsim) in Hs'.
  destruct (sim_idle _ _ _ _ _ _ _ (sm_threads _ _ _ _ Hns) Hs') as [Hss _].
  destruct (call_code _ _ _ _ c Hsim Hs (Hfit _ _ Hss) Hc) as (l & r & y & g & Hl & Hcode & Hg & Hy & Hst & Hreg).
  destruct (call_follows _ _ room_nonneg _ _ _ _ _ _ _ Hns Hok Hs' Hl Hg) as (sn1 & _ & _ & Hset & _).
  destruct (csim_next _ _ _ _ _ _ _ _ _ _ Hsim Hs Hc Hy Hset Hst Hreg) as (n1 & Hset' & Hsim1). exists n1, sn1.
  cbn [cnet_step snet_step]. rewrite Hs, Hs'. cbn [mbind option_bind].
  destruct (act t s); try done; rewrite Hl, Hcode; cbn [mbind option_bind]; rewrite Hg; by rewrite <- Hset'.
Qed.

Lemma resume_step n sn n' t s o :
  csim n sn -> net_sim enc dec sn n' -> cn_thread n !! t = Some (s, true) -> sys_step (Wake (thread_ptr t)) (cn_sys n) = Some o ->
  exists n1 sn1, cnet_step enc dec (Resume t) n = Some (Ret n1) /\ snet_step enc dec (Resume t) sn = Some sn1 /\ csim n1 sn1.
Proof.
  intros Hsim Hns Hs Ho. pose proof Hs as Hs'. rewrite (cm_thread _ _ Hsim) in Hs'.
  destruct (step_follows (Wake (thread_ptr t)) _ _ _ (cm_sys _ _ Hsim) eq_refl Ho) as (r & y & g & -> & Hg & Hy). cbn [abs_label] in Hg.
  assert (exists B, s_blocked (cn_sys n) !! thread_ptr t = Some B) as [B HB].
  { simpl in Ho. destruct (s_blocked (cn_sys n) !! thread_ptr t); [eauto|done]. }
  destruct (cm_blocked _ _ Hsim _ _ HB) as (u & s' & c & E%thread_ptr_inj & Hu & Hc & Eb). subst u. rewrite Hs in Hu. injection Hu as <-.
  destruct (wake_keeps _ _ _ _ _ _ (cm_sys _ _ Hsim) HB Ho) as [Hst Hreg]. rewrite Eb in Hreg.
  assert (exists sn1, settle dec t s r g sn = Some sn1) as [sn1 Hset].
  { simpl in Hg. destruct (g_threads (sn_sys sn) !! thread_ptr t) as [T|] eqn:HT; [|done]. simpl in Hg.
    destruct (decide (gt_status T = Waiting)) as [|HW]; [done|]. injection Hg as <- <-.
    destruct (sim_resume _ _ _ _ _ _ _ _ (sm_threads _ _ _ _ Hns) Hs' HT HW) as (s1 & Ha & _).
    unfold settle, answer in *. destruct (gt_status T); [done|rewrite Ha; by eexists..]. }
  assert (static h0 (s_heap y)) as Hst' by (transitivity (s_heap (cn_sys n)); [apply Hsim|done]).
  destruct (csim_next _ _ _ _ _ _ _ _ _ _ Hsim Hs Hc Hy Hset Hst' Hreg) as (n1 & Hset' & Hsim1). exists n1, sn1.
  cbn [cnet_step snet_step]. rewrite Hs, Hs'. cbn [mbind option_bind]. rewrite Ho, Hg. cbn [mbind option_bind]. by rewrite <- Hset'.
Qed.

Lemma join_step n sn t s u k :
  csim n sn -> cn_thread n !! t = Some (s, false) -> act t s = AJoin u k -> forall o, cnet_step enc dec (Call t) n = Some o ->
  exists n1 sn1, o = Ret n1 /\ snet_step enc dec (Call t) sn = Some sn1 /\ csim n1 sn1.
Proof.
  intros Hsim Hs Ha o E. cbn [cnet_step snet_step] in *. rewrite <- (cm_thread _ _ Hsim). rewrite Hs in *. cbn [mbind option_bind] in *.
  rewrite Ha in *. destruct (cn_thread n !! u) as [[s' b']|]; [|done]. cbn [mbind option_bind] in *.
  destruct (negb b' && halted u s'); [|done]. injection E as <-. eexists _, _. split; [done|]. split; [done|].
  destruct Hsim as [H1 H2 H3 H4 H5]. split; simpl; [done|done|done|by rewrite length_insert|].
  intros x B HB. destruct (H5 _ _ HB) as (v & sv & d & -> & Hv & Hd). exists v, sv, d. split; [done|]. split; [|done].
  rewrite list_lookup_insert_ne; [done|]. intros ->. congruence.
Qed.

Lemma cnet_follows l n sn n' o :
  csim n sn -> net_sim enc dec sn n' -> sends_copied enc dec n' -> calls_fit n' -> cnet_step enc dec l n = Some o ->
  exists n1 sn1, o = Ret n1 /\ snet_step enc dec l sn = Some sn1 /\ csim n1 sn1.
Proof.
  intros Hsim Hns Hok Hfit E.
  assert (forall n1 sn1, cnet_step enc dec l n = Some (Ret n1) /\ snet_step enc dec l sn = Some sn1 /\ csim n1 sn1 ->
    exists n1 sn1, o = Ret n1 /\ snet_step enc dec l sn = Some sn1 /\ csim n1 sn1) as Hdone.
  { intros n1 sn1 (H1 & H2 & H3). exists n1, sn1. split; [congruence|done]. }
  destruct l as [t|t].
  - destruct (cn_thread n !! t) as [[s b]|] eqn:Hs; [|simpl in E; by rewrite Hs in E].
    destruct b; [simpl in E; by rewrite Hs in E|]. destruct (chan_of (act t s)) as [c|] eqn:Hc.
    + destruct (call_step _ _ _ _ _ _ Hsim Hns Hok Hfit Hs Hc) as (n1 & sn1 & H1). eauto.
    + destruct (act t s) as [| | | |u k|] eqn:Ha; try done; [by eapply join_step|]. simpl in E. rewrite Hs in E. simpl in E. by rewrite Ha in E.
  - destruct (cn_thread n !! t) as [[s b]|] eqn:Hs; [|simpl in E; by rewrite Hs in E]. destruct b; [|simpl in E; by rewrite Hs in E].
    assert (exists o', sys_step (Wake (thread_ptr t)) (cn_sys n) = Some o') as [o' Ho].
    { cbn [cnet_step] in E. rewrite Hs in E. cbn [mbind option_bind] in E. destruct (sys_step _ _); [eauto|done]. }
    destruct (resume_step _ _ _ _ _ _ Hsim Hns Hs Ho) as (n1 & sn1 & H1). eauto.
Qed.

(** Where the program in memory stops, it stops over the contract. *)
Definition cstuck (n : cnet) : Prop := forall l, cnet_step enc dec l n = None.

Lemma cstuck_stuck n sn n' :
  csim n sn -> net_sim enc dec sn n' -> sends_copied enc dec n' -> calls_fit n' -> cstuck n -> stuck enc dec sn.
Proof.
  intros Hsim Hns Hok Hfit Hst l. destruct (snet_step enc dec l sn) as [sn1|] eqn:E; [|done]. exfalso.
  specialize (Hst l). destruct l as [t|t]; cbn [snet_step] in E; rewrite <- (cm_thread _ _ Hsim) in E;
    destruct (cn_thread n !! t) as [[s b]|] eqn:Hs; try done; cbn [mbind option_bind] in E; destruct b; try done.
  - destruct (chan_of (act t s)) as [c|] eqn:Hc.
    + destruct (call_step _ _ _ _ _ _ Hsim Hns Hok Hfit Hs Hc) as (n1 & _ & H1 & _). congruence.
    + cbn [cnet_step] in Hst. rewrite Hs in Hst. cbn [mbind option_bind] in Hst. destruct (act t s) as [| | | |u k|] eqn:Ha; try done.
      destruct (cn_thread n !! u) as [[s' b']|]; [|done]. cbn [mbind option_bind] in *. by destruct (negb b' && halted u s').
  - destruct (gstep (GWake (thread_ptr t)) (sn_sys sn)) as [[r g]|] eqn:Hg; [|done].
    destruct (wake_enabled _ _ _ _ _ (cm_sys _ _ Hsim) Hg) as [o Ho].
    destruct (resume_step _ _ _ _ _ _ Hsim Hns Hs Ho) as (n1 & _ & H1 & _). congruence.
Qed.

(** ** Runs *)

Context (P : net -> Prop).
Hypothesis P_step : forall l n n', P n -> net_step l n = Some n' -> P n'.
Hypothesis P_copied : forall n, P n -> sends_copied enc dec n.
Hypothesis P_fits : forall n, P n -> calls_fit n.

Lemma cnet_run_follows ls n sn n' o :
  csim n sn -> net_sim enc dec sn n' -> P n' -> cnet_run enc dec ls n = Some o ->
  exists n1 sn1, o = Ret n1 /\ snet_run enc dec ls sn = Some sn1 /\ cn_thread n1 = sn_thread sn1 /\
    (cstuck n1 -> stuck enc dec sn1).
Proof.
  revert n sn n'. induction ls as [|l ls IH]; intros n sn n' Hsim Hns HP E; cbn [cnet_run snet_run] in *.
  - injection E as <-. exists n, sn. do 2 (split; [done|]). split; [apply Hsim|]. eapply cstuck_stuck; eauto.
  - destruct (cnet_step enc dec l n) as [o1|] eqn:E1; [|done]. cbn [mbind option_bind] in E.
    destruct (cnet_follows _ _ _ _ _ Hsim Hns (P_copied _ HP) (P_fits _ HP) E1) as (n1 & sn1 & -> & E2 & Hsim1).
    destruct (snet_step_follows _ _ room_nonneg _ _ _ _ Hns (P_copied _ HP) E2) as (k1 & n1' & H1 & Hns1 & _).
    rewrite E2. cbn [mbind option_bind]. eapply IH; [done|done| |done]. by eapply net_run_inv.
Qed.
End simulated.

(** ** The start *)

Section start.
Context {M S : Type} `{Program M S} `{Malloc} (enc : M -> list byte) (dec : list byte -> option M) (elem cap : nat -> Z).

(** A channel is created with sizes the library takes and memory it is granted,
    and holds as many messages as its ring has slots. *)
Record sized (c : nat) : Prop := {
  sz_elem : 0 < elem c;
  sz_cap : 0 <= cap c <= 2147483648;
  sz_fits : next_pow2 (cap c) * elem c < two64;
  sz_room : Net.room c = if cap c =? 0 then 0 else next_pow2 (cap c);
  sz_malloc : 0 < cap c -> malloc (next_pow2 (cap c) * elem c) <> None
}.

Definition new_chan (c : nat) : achan := new_achan (elem c) (cap c) false (Net.room c).
Definition with_chans (cs : list nat) (a : aheap) : aheap := foldl (fun a c => on_chan (chan_ptr c) (new_chan c) a) a cs.

Lemma with_chans_lookup cs a p A : a_chan (with_chans cs a) !! p = Some A ->
  a_chan a !! p = Some A \/ exists c, c ∈ cs /\ p = chan_ptr c /\ A = new_chan c.
Proof.
  revert a. induction cs as [|c cs IH]; intros a HA; [by left|]. destruct (IH _ HA) as [Hl|(d & ? & ? & ?)].
  - simpl in Hl. destruct (decide (p = chan_ptr c)) as [->|Hne].
    + rewrite lookup_insert_eq in Hl. simplify_eq. right. exists c. split; [by left|done].
    + rewrite lookup_insert_ne in Hl by done. by left.
  - right. exists d. split; [by right|done].
Qed.
Lemma with_chans_kept cs a p A : a_chan a !! p = Some A -> (forall c, c ∈ cs -> p <> chan_ptr c) -> a_chan (with_chans cs a) !! p = Some A.
Proof.
  revert a. induction cs as [|c cs IH]; intros a HA Hp; [done|]. apply IH; [|intros d Hd; apply Hp; by right].
  simpl. rewrite lookup_insert_ne; [done|]. intros E. eapply Hp; [by left|done].
Qed.
Lemma with_chans_new cs a c : NoDup cs -> c ∈ cs -> a_chan (with_chans cs a) !! chan_ptr c = Some (new_chan c).
Proof.
  revert a. induction cs as [|d cs IH]; intros a Hnd Hc; [by apply elem_of_nil in Hc|]. apply list.NoDup_cons in Hnd as [Hd Hnd].
  apply elem_of_cons in Hc as [->|Hc]; [|by apply IH]. apply (with_chans_kept cs (on_chan (chan_ptr d) (new_chan d) a)).
  - simpl. apply lookup_insert_eq.
  - intros c Hc E%chan_ptr_inj. by subst.
Qed.
Lemma with_chans_rest cs a : a_wait (with_chans cs a) = a_wait a /\ a_mem (with_chans cs a) = a_mem a.
Proof. revert a. induction cs as [|c cs IH]; intros a; [done|]. simpl. by rewrite !(proj1 (IH _)), !(proj2 (IH _)). Qed.

Lemma create_chans_awp cs a :
  Forall sized cs -> NoDup cs -> (forall c, c ∈ cs -> a_chan a !! chan_ptr c = None) ->
  awp (create_chans elem cap cs) a (fun _ a' => a' = with_chans cs a).
Proof.
  intros Hs. revert a. induction Hs as [|c cs [H1 H2 H3 H4 H5] Hs IH]; intros a Hnd Hfr; simpl.
  - by apply awp_ret.
  - apply list.NoDup_cons in Hnd as [Hc Hnd]. apply awp_bind.
    assert (awp (create_chans elem cap cs) (on_chan (chan_ptr c) (new_chan c) a) (fun _ a' => a' = with_chans (c :: cs) a)) as Hcs.
    { apply IH; [done|]. intros d Hd. simpl. rewrite lookup_insert_ne; [apply Hfr; by right|]. intros E%chan_ptr_inj. by subst. }
    assert (forall p, awp (ps ← create_chans elem cap cs; mret (p :: ps)) (on_chan (chan_ptr c) (new_chan c) a)
      (fun _ a' => a' = with_chans (c :: cs) a)) as Hk.
    { intros p. apply awp_bind. eapply awp_mono; [exact Hcs|]. intros ps a' ->. by apply awp_ret. }
    apply create_awp; [apply Hfr; by left|done|done|done| | |].
    + intros E. unfold new_chan in Hk. rewrite H4, E in Hk. rewrite E. apply Hk.
    + intros slots Hpos _ ->. unfold new_chan in Hk. rewrite H4, (proj2 (Z.eqb_neq _ _)) in Hk by lia. apply Hk.
    + intros Hpos Hn. by destruct (H5 Hpos).
Qed.

Lemma vars_lookup chans (ss : list S) t c : (t < length ss)%nat -> (c < chans)%nat ->
  h_mem (vars elem chans ss) !! var t c = Some (replicate (Z.to_nat (elem c)) x00).
Proof.
  intros Ht Hc. simpl. apply elem_of_list_to_map_1'.
  - intros b (u & Hb & _)%list_elem_of_bind. apply list_elem_of_fmap in Hb as (d & E & _).
    pose proof (f_equal fst E) as E1. change (var t c = var u d) in E1. apply var_inj in E1 as [<- <-]. by injection E.
  - apply list_elem_of_bind. exists t. split; [|apply elem_of_seq; lia]. apply list_elem_of_fmap. exists c. split; [done|]. apply elem_of_seq. lia.
Qed.

Lemma vars_repr chans (ss : list S) : repr (vars elem chans ss) (mk_aheap ∅ ∅ ∅ ∅ (h_mem (vars elem chans ss))).
Proof. split; try done. apply map_Forall2_empty. Qed.

(** The channels are created, and the program is as over fresh channels of the
    contract. *)
Lemma created chans (ss : list S) :
  (forall c, (c < chans)%nat -> sized c) ->
  exists ps h, create_chans elem cap (seq 0 chans) (vars elem chans ss) = Ret (ps, h) /\
    (forall c, (c < chans)%nat -> exists ch, h_chan h !! chan_ptr c = Some ch /\ shape ch = (elem c, cap c, false)) /\
    (forall t c, (t < length ss)%nat -> (c < chans)%nat -> exists b, h_mem h !! var t c = Some b /\ zlen b = elem c) /\
    ChanSys.sim (mk_sys h ∅) (sn_sys (snet_start chans ss)).
Proof.
  intros Hs. set (a0 := mk_aheap ∅ ∅ ∅ ∅ (h_mem (vars elem chans ss))).
  destruct (awp_run _ _ _ _ (create_chans_awp (seq 0 chans) a0
    ltac:(apply Forall_forall; intros c Hc%elem_of_seq; apply Hs; lia) ltac:(apply NoDup_seq) ltac:(done)) (vars_repr chans ss))
    as (ps & h & a & E & R & ->). destruct (with_chans_rest (seq 0 chans) a0) as [Ew Em].
  assert (forall c, (c < chans)%nat -> a_chan (with_chans (seq 0 chans) a0) !! chan_ptr c = Some (new_chan c)) as Hin.
  { intros c Hc. apply with_chans_new; [apply NoDup_seq|apply elem_of_seq; lia]. }
  assert (forall p A, a_chan (with_chans (seq 0 chans) a0) !! p = Some A -> exists c, (c < chans)%nat /\ p = chan_ptr c /\ A = new_chan c) as Hout.
  { intros p A [HA|(c & Hc%elem_of_seq & -> & ->)]%with_chans_lookup; [done|]. exists c. split; [lia|done]. }
  exists ps, h. split; [done|]. split; [|split].
  - intros c Hc. destruct (repr_lookup _ _ _ _ R (Hin c Hc)) as (ch & Hch & Hr). exists ch. split; [done|]. unfold shape.
    rewrite (rep_member ch_elem_size a_es _ _ _ Hr), (rep_member ch_capacity a_cap _ _ _ Hr), (rep_member ch_spsc a_spsc _ _ _ Hr). done.
  - intros t c Ht Hc. rewrite <- (r_mem _ _ R), Em. exists (replicate (Z.to_nat (elem c)) x00). split; [by apply vars_lookup|].
    unfold zlen. rewrite length_replicate. pose proof (sz_elem _ (Hs c Hc)). lia.
  - assert (sn_sys (snet_start chans ss) = spec_of (with_chans (seq 0 chans) a0)) as ->.
    { unfold spec_of, snet_start. simpl. f_equal. apply map_eq. intros p. rewrite lookup_fmap.
      destruct (a_chan (with_chans (seq 0 chans) a0) !! p) as [A|] eqn:HA; simpl.
      - destruct (Hout _ _ HA) as (c & Hc & -> & ->). etrans; [exact (start_chan chans ss c Hc)|].
        unfold fresh_chan, new_chan, Chan.room. simpl. destruct (Hs c Hc) as [_ _ _ Hr _]. rewrite Hr. by destruct (cap c =? 0).
      - apply eq_None_not_Some. intros [G HG]. destruct (start_chan_inv chans ss _ _ HG) as (c & Hc & -> & _). by rewrite Hin in HA. }
    apply started_sim. split; [done|done|done|]. intros p A HA. destruct (Hout _ _ HA) as (c & Hc & -> & ->).
    split; [unfold chan_ptr, NULL; lia|]. destruct (Hs c Hc) as [H1 H2 H3 H4 H5]. exists (elem c), (cap c), false, (Net.room c).
    split; [done|]. split; [done|]. split; [lia|]. intros Hpos. rewrite H4, (proj2 (Z.eqb_neq _ _)) by lia.
    destruct (next_pow2_ok (cap c)) as (k & Hk & -> & _); lia.
Qed.

(** A run in memory, as a run over the queues. *)
Context (P : @net M S -> Prop).
Hypothesis P_step : forall l n n', P n -> net_step l n = Some n' -> P n'.
Hypothesis P_copied : forall n, P n -> sends_copied enc dec n.

Lemma program_on_code chans ss :
  (forall c, 0 <= Net.room c) -> (forall c, (c < chans)%nat -> sized c) -> Z.of_nat (length ss) < 2147483647 ->
  (forall n, P n -> calls_fit enc elem chans n) -> P (net_start chans ss) ->
  exists n0, cnet_start elem cap chans ss = Ret n0 /\ forall ls o, cnet_run enc dec ls n0 = Some o ->
  exists n ks n', o = Ret n /\ net_run ks (net_start chans ss) = Some n' /\ P n' /\
    (forall t s, cn_thread n !! t = Some (s, false) -> n_thread n' !! t = Some s) /\ length (n_thread n') = length (cn_thread n) /\
    (length ls <= (length ks + 1) * (2 * length ss + 1))%nat /\
    (cstuck enc dec n -> (forall l, net_step l n' = None) /\ n_thread n' = (cn_thread n).*1 /\
       (forall t s, cn_thread n !! t = Some (s, true) -> halted t s = false)).
Proof.
  intros Hroom Hsz Hfew Hfits HP. destruct (created chans ss Hsz) as (ps & h & Eh & Hch & Hv & Hy).
  unfold cnet_start. rewrite Eh. simpl. eexists. split; [done|]. intros ls o E.
  assert (csim (length ss) h (mk_cnet (mk_sys h ∅) ((., false) <$> ss)) (snet_start chans ss)) as Hsim.
  { split; simpl; [done|done|done|by rewrite length_fmap|]. intros x B HB. by rewrite lookup_empty in HB. }
  destruct (cnet_run_follows enc dec elem cap chans (length ss) h Hroom Hch Hv Hfew P P_step P_copied Hfits ls _ _ _ _ Hsim
    (start_sim enc dec Hroom chans ss) HP E) as (n & sn & -> & Hrun & Hth & Hst).
  destruct (program_follows enc dec Hroom P P_step P_copied chans ss ls sn HP Hrun) as (ks & n' & H1 & H2 & H3 & H4 & H5 & H6).
  exists n, ks, n'. rewrite Hth. do 3 (split; [done|]). split; [exact H3|]. do 2 (split; [done|]). intros Hs. exact (H6 (Hst Hs)).
Qed.
End start.

(** The threads at the end, when the program over queues ends with all of them
    returned. *)
Lemma code_halted {M S} `{Program M S} (n : @cnet S) (n' : @net M S) :
  n_thread n' = (cn_thread n).*1 -> (forall t s, cn_thread n !! t = Some (s, true) -> halted t s = false) ->
  (forall t s, n_thread n' !! t = Some s -> halted t s = true) -> cn_thread n = (., false) <$> n_thread n'.
Proof.
  intros E Hb Hh. rewrite E in *. rewrite <- list_fmap_compose. rewrite <- (list_fmap_id (cn_thread n)) at 1.
  apply list_fmap_ext. intros t [s b] Hs. destruct b; [|done]. exfalso. pose proof (Hb _ _ Hs) as Hf.
  rewrite (Hh t s) in Hf; [done|]. by rewrite list_lookup_fmap, Hs.
Qed.

(** ** Theorem *)

(** C25: A program over channels, on the functions of the library and their memory: the
    channels are created, and then, under every schedule of the calls and wake-ups of
    its threads, no call is undefined or hangs and no thread reads bytes that are no
    message; the run is one of the program over plain bounded queues, with the same state in
    every thread that is not inside a call, and longer by a constant factor at
    most, so it ends if that one does; and where it stops the other stops in the
    same states.  [P] is an invariant of the program over queues under which its
    calls pass messages of the channels' sizes that their bytes represent. *)
Theorem net_on_code {M S} `{Program M S} `{Malloc} (enc : M -> list byte) (dec : list byte -> option M) (elem cap : nat -> Z)
    (P : @net M S -> Prop) chans ss
    (Hroom : forall c, 0 <= Net.room c) (Hsized : forall c, (c < chans)%nat -> sized elem cap c)
    (Hfew : Z.of_nat (length ss) < 2147483647)
    (Hstep : forall l n n', P n -> net_step l n = Some n' -> P n')
    (Hcopied : forall n, P n -> sends_copied enc dec n) (Hfits : forall n, P n -> calls_fit enc elem chans n)
    (Hstart : P (net_start chans ss)) :
  exists n0, cnet_start elem cap chans ss = Ret n0 /\ forall ls o, cnet_run enc dec ls n0 = Some o ->
  exists n ks n', o = Ret n /\ net_run ks (net_start chans ss) = Some n' /\ P n' /\
    (forall t s, cn_thread n !! t = Some (s, false) -> n_thread n' !! t = Some s) /\ length (n_thread n') = length (cn_thread n) /\
    (length ls <= (length ks + 1) * (2 * length ss + 1))%nat /\
    (cstuck enc dec n -> (forall l, net_step l n' = None) /\ n_thread n' = (cn_thread n).*1 /\
       (forall t s, cn_thread n !! t = Some (s, true) -> halted t s = false)).
Proof. by apply program_on_code. Qed.
