(* ===== verification/WorkerPool.v ===== *)
(** * The worker pool: [examples/worker_pool.c]

    The main thread submits jobs over one channel, four workers compute and send
    their results over another, the main thread adds them up.  On the code of the
    library and under every schedule the pool ends, with every job done once and the
    right total. *)

From S2P Require Import Prelude RingLf Heap ChanSpec Net NetHeap.
From Stdlib Require Import ZArith.Znumtheory.
From stdpp Require Import list.
#[local] Open Scope Z_scope.

Definition NWORKERS : nat := 4.
Definition NJOBS : Z := 40.

Record job_t := mk_job { j_id : Z; j_n : Z }.
Record res_t := mk_res { r_job_id : Z; r_worker_id : Z; r_result : Z }.

(** ** The work *)

(** The inner loop from [d] on; [x] rounds are enough. *)
Fixpoint trial (fuel : nat) (d x : Z) : bool :=
  match fuel with
  | O => true
  | S fuel => if d * d <=? x then if Z.rem x d =? 0 then false else trial fuel (d + 1) x else true
  end.
Definition count_primes_below (n : Z) : Z :=
  foldl (fun c x => c + (if trial (Z.to_nat x) 2 x then 1 else 0)) 0 (seqZ 2 (n - 2)).

Lemma small_divisor x : 2 <= x -> ~ prime x -> exists d, 2 <= d /\ d * d <= x /\ (d | x).
Proof.
  intros Hx Hp. destruct (not_prime_divide x ltac:(lia) Hp) as (d & Hd & e & He).
  destruct (Z.le_gt_cases d e).
  - exists d. split; [lia|]. split; [nia|]. by exists e.
  - exists e. assert (0 < e) by nia. assert (e <> 1) by nia. split; [lia|]. split; [nia|]. exists d. lia.
Qed.

Lemma trial_spec fuel d x :
  2 <= d -> 2 <= x -> x < d + Z.of_nat fuel -> (forall c, 2 <= c < d -> ~ (c | x)) -> trial fuel d x = true <-> prime x.
Proof.
  revert d. induction fuel as [|fuel IH]; intros d Hd Hx Hf Hno; cbn [trial].
  - split; [intros _|done]. destruct (prime_dec x) as [|Hp]; [done|]. destruct (small_divisor x Hx Hp) as (c & Hc & Hcx & Hdiv).
    destruct (Hno c); [nia|done].
  - destruct (Z.leb_spec (d * d) x) as [Hle|Hgt].
    + destruct (Z.eqb_spec (Z.rem x d) 0) as [E|E]; rewrite Z.rem_divide in E by lia.
      * split; [done|]. intros Hp. destruct (prime_divisors x Hp d E) as [?|[?|[?|?]]]; nia.
      * apply IH; [lia|done|lia|]. intros c Hc. destruct (decide (c = d)) as [->|]; [done|]. apply Hno. lia.
    + split; [intros _|done]. destruct (prime_dec x) as [|Hp]; [done|]. destruct (small_divisor x Hx Hp) as (c & Hc & Hcx & Hdiv).
      destruct (Hno c); [nia|done].
Qed.

#[export] Instance prime_decision x : Decision (prime x) := prime_dec x.

(** The number of primes below [n]. *)
Definition primes_below (n : Z) : list Z := filter (fun x => prime x) (seqZ 2 (n - 2)).

Lemma count_primes_spec n : count_primes_below n = zlen (primes_below n).
Proof.
  unfold count_primes_below, primes_below.
  assert (forall l c, (forall x, x ∈ l -> 2 <= x) ->
    foldl (fun c x => c + (if trial (Z.to_nat x) 2 x then 1 else 0)) c l = c + zlen (filter (fun x => prime x) l)) as Hl.
  { induction l as [|x l IH]; intros c Hx; [unfold zlen; simpl; lia|]. cbn [foldl]. rewrite IH by (intros; apply Hx; by right).
    specialize (Hx x ltac:(left)). pose proof (trial_spec (Z.to_nat x) 2 x ltac:(lia) ltac:(lia) ltac:(lia) ltac:(intros; lia)) as Ht.
    rewrite filter_cons. destruct (trial _ 2 x); case_decide; rewrite ?zlen_cons; [lia|naive_solver|naive_solver|lia]. }
  rewrite Hl; [lia|]. intros x Hx%elem_of_seqZ. lia.
Qed.

Lemma count_range n : 0 <= count_primes_below n <= Z.max 0 (n - 2).
Proof.
  rewrite count_primes_spec. split; [apply zlen_nonneg|]. unfold zlen, primes_below.
  pose proof (length_filter (fun x => prime x) (seqZ 2 (n - 2))) as Hl. rewrite length_seqZ in Hl. lia.
Qed.

(** ** The threads *)

Inductive pool_msg := MJob (j : job_t) | MRes (r : res_t).

(** The layout of the two structures. *)
Definition enc (m : pool_msg) : list byte :=
  match m with
  | MJob j => enc_int (j_id j) ++ enc_int (j_n j)
  | MRes r => enc_int (r_job_id r) ++ enc_int (r_worker_id r) ++ enc_int (r_result r)
  end.
Definition dec (l : list byte) : option pool_msg :=
  if decide (length l = 8%nat) then
    i ← dec_int (take 4 l); n ← dec_int (drop 4 l); Some (MJob (mk_job i n))
  else
    i ← dec_int (take 4 l); w ← dec_int (take 4 (drop 4 l)); r ← dec_int (drop 8 l); Some (MRes (mk_res i w r)).

(** [main] submits job [i], collects ([seen]: the results it has shown), joins the
    workers, or reads a structure nobody wrote. *)
Inductive main_state :=
| Submit (i : Z)
| Collect (got total : Z) (seen : list res_t)
| Join (i : nat) (total : Z) (seen : list res_t)
| MStray.
Inductive worker_state := WRecv | WSend (r : res_t) | WDone | WStray.
Inductive pool_state := PMain (m : main_state) | PWorker (w : worker_state).

(** Channel 0 is [jobs], channel 1 [results]; thread 0 is [main]. *)
Definition job (i : Z) : job_t := mk_job i (20000 + i * 1500).

Definition main_act (m : main_state) : action pool_msg pool_state :=
  match m with
  | Submit i =>
      if i <? NJOBS then ASend 0 (MJob (job i)) (fun _ => PMain (Submit (i + 1)))
      else AClose 0 (PMain (Collect 0 0 []))
  | Collect got total seen =>
      if got <? NJOBS then
        ARecv 1 (fun m => match m with
                          | Some (MRes r) => PMain (Collect (got + 1) (total + r_result r) (seen ++ [r]))
                          | _ => PMain MStray
                          end)
      else AJoin 1 (PMain (Join 1 total seen))
  | Join i total seen => if (i <? NWORKERS)%nat then AJoin (S i) (PMain (Join (S i) total seen)) else AHalt
  | MStray => AHalt
  end.

Definition worker_act (wid : Z) (w : worker_state) : action pool_msg pool_state :=
  match w with
  | WRecv =>
      ARecv 0 (fun m => match m with
                        | Some (MJob j) => PWorker (WSend (mk_res (j_id j) wid (count_primes_below (j_n j))))
                        | Some (MRes _) => PWorker WStray
                        | None => PWorker WDone
                        end)
  | WSend r => ASend 1 (MRes r) (fun _ => PWorker WRecv)
  | WDone | WStray => AHalt
  end.

#[export] Instance pool : Program pool_msg pool_state := {
  act t s := match s with PMain m => main_act m | PWorker w => worker_act (Z.of_nat t - 1) w end;
  room c := next_pow2 (if (c =? 0)%nat then 8 else NJOBS)
}.

(** [chan_create(sizeof(job_t), 8)] and [chan_create(sizeof(res_t), NJOBS)]. *)
Definition pool_elem (c : nat) : Z := if (c =? 0)%nat then 8 else 12.
Definition pool_cap (c : nat) : Z := if (c =? 0)%nat then 8 else NJOBS.

Definition pool_start : list pool_state := PMain (Submit 0) :: replicate NWORKERS (PWorker WRecv).

(** ** The invariant *)

#[local] Notation net := (@net pool_msg pool_state).

(** The job a thread or a message is about. *)
Definition msg_ids (m : pool_msg) : list Z := match m with MJob j => [j_id j] | MRes r => [r_job_id r] end.
Definition ids (s : pool_state) : list Z :=
  match s with
  | PMain (Submit i) => seqZ i (NJOBS - i)
  | PMain (Collect _ _ seen) | PMain (Join _ _ seen) => r_job_id <$> seen
  | PWorker (WSend r) => [r_job_id r]
  | _ => []
  end.

Definition right (r : res_t) : Prop :=
  0 <= r_job_id r < NJOBS /\ 0 <= r_worker_id r < 4 /\ r_result r = count_primes_below (20000 + r_job_id r * 1500).
Definition right_job (m : pool_msg) : Prop := exists i, 0 <= i < NJOBS /\ m = MJob (job i).
Definition right_res (m : pool_msg) : Prop := exists r, right r /\ m = MRes r.

Definition main_ok (m : main_state) : Prop :=
  match m with
  | Submit i => 0 <= i <= NJOBS
  | Collect got total seen => got = zlen seen /\ total = sum_with r_result seen /\ Forall right seen /\ got <= NJOBS
  | Join i total seen => zlen seen = NJOBS /\ total = sum_with r_result seen /\ Forall right seen /\ (1 <= i <= NWORKERS)%nat
  | MStray => False
  end.
Definition worker_ok (w : worker_state) : Prop := match w with WSend r => right r | WStray => False | _ => True end.
Definition submitted (m : main_state) : bool := match m with Submit _ => false | _ => true end.

Record pool_inv (n : net) (m : main_state) (ws : list worker_state) (jobs results : queue pool_msg) : Prop := {
  pi_chan : n_chan n = [jobs; results];
  pi_thread : n_thread n = PMain m :: (PWorker <$> ws);
  pi_workers : length ws = NWORKERS;
  pi_main : main_ok m;
  pi_ws : Forall worker_ok ws;
  pi_jobs : Forall right_job (q_buf jobs);
  pi_results : Forall right_res (q_buf results);
  pi_closed : q_closed jobs = submitted m;
  pi_open : q_closed results = false;
  pi_done : WDone ∈ ws -> q_closed jobs = true /\ q_buf jobs = [];
  pi_joined : forall i total seen k, m = Join i total seen -> (k < i)%nat -> ws !! k = Some WDone;
  pi_ids : (n_thread n ≫= ids) ++ (q_buf jobs ≫= msg_ids) ++ (q_buf results ≫= msg_ids) ≡ₚ seqZ 0 NJOBS
}.
Definition pool_ok (n : net) : Prop := exists m ws jobs results, pool_inv n m ws jobs results.

Lemma pool_start_ok : pool_ok (net_start 2 pool_start).
Proof.
  exists (Submit 0), (replicate NWORKERS WRecv), (mk_queue [] false), (mk_queue [] false). split; simpl; try done.
  - repeat constructor.
  - set_solver.
Qed.

Lemma room_jobs : room 0 = 8.
Proof. reflexivity. Qed.
Lemma room_results : room 1 = 64.
Proof. reflexivity. Qed.
Lemma room_pos c : 0 < room c.
Proof. simpl. destruct (c =? 0)%nat; vm_compute; reflexivity. Qed.

#[local] Ltac pool_simpl Hc Ht :=
  cbn [n_chan n_thread advance set_queue q_buf q_closed submitted main_ok]; rewrite ?Hc, ?Ht; try done.

Lemma main_step n n' m ws jobs results :
  pool_inv n m ws jobs results -> net_go 0 (main_act m) n = Some n' ->
  exists m' jobs' results', pool_inv n' m' ws jobs' results'.
Proof.
  intros [Hc Ht Hw Hm Hws Hj Hr Hcl Ho Hd Hjn Hi] E. rewrite Ht in Hi. cbn [mbind list_bind] in Hi.
  assert (forall k, submitted m = false -> WDone ∈ ws -> k) as Hno by (intros k Hs Hin; destruct (Hd Hin); congruence).
  assert (WStray ∉ ws) as Hst by (rewrite Forall_forall in Hws; intros Hin; by apply (Hws WStray)).
  destruct m as [i|got total seen|i total seen|]; cbn [main_act] in E; [| | |done].
  - destruct (Z.ltb_spec i NJOBS) as [Hlt|Hge]; cbn [net_go] in E; rewrite Hc in E; cbn [lookup list_lookup mbind option_bind] in E; simpl in Hm.
    + unfold send_to in E. rewrite Hcl in E. cbn [submitted] in E. destruct (_ <? _); [|done]. injection E as <-.
      eexists (Submit (i + 1)), _, results. split; pool_simpl Hc Ht.
      * lia.
      * apply Forall_app. split; [done|]. constructor; [|done]. exists i. split; [lia|done].
      * by apply Hno.
      * etrans; [|exact Hi]. cbn [ids]. rewrite (seqZ_cons i), Z.add_1_r by lia. replace (Z.pred (NJOBS - i)) with (NJOBS - Z.succ i) by lia.
        rewrite bind_app. cbn [mbind list_bind insert list_insert ids msg_ids j_id job]. perm.
    + injection E as <-. eexists (Collect 0 0 []), _, results. split; pool_simpl Hc Ht.
      * by apply Hno.
      * etrans; [|exact Hi]. cbn [ids insert list_insert mbind list_bind fmap list_fmap]. by rewrite seqZ_nil by lia.
  - simpl in Hm. destruct Hm as (Hgot & Htot & Hseen & Hle). destruct (Z.ltb_spec got NJOBS) as [Hlt|Hge]; cbn [net_go] in E.
    + rewrite Hc in E. cbn [lookup list_lookup mbind option_bind] in E. unfold recv_from in E. rewrite Ho in E.
      destruct (q_buf results) as [|r0 b] eqn:Eb; [done|]. apply Forall_cons in Hr as [(r & Hr0 & ->) Hr]. injection E as <-.
      eexists (Collect (got + 1) (total + r_result r) (seen ++ [r])), jobs, _. split; pool_simpl Hc Ht.
      * rewrite zlen_app, sum_app. change (zlen [r]) with 1. simpl. rewrite Hgot, Htot. split; [done|]. split; [lia|]. split; [|lia].
        apply Forall_app. by split; [|constructor].
      * etrans; [|exact Hi]. cbn [ids insert list_insert mbind list_bind msg_ids]. rewrite fmap_app. cbn [fmap list_fmap]. perm.
    + rewrite Ht in E. cbn [lookup list_lookup] in E. destruct ws as [|w ws]; [done|]. cbn in E.
      destruct w; try done; [|set_solver]. injection E as <-.
      eexists (Join 1 total seen), jobs, results. split; pool_simpl Hc Ht.
      * split; [lia|]. split; [done|]. split; [done|]. unfold NWORKERS. lia.
      * intros i t se k [= <- <- <-] Hk. by destruct k; [|lia].
  - simpl in Hm. destruct Hm as (Hgot & Htot & Hseen & Hle). destruct (Nat.ltb_spec i NWORKERS) as [Hlt|Hge]; [|done]. cbn [net_go] in E.
    rewrite Ht, lookup_cons, list_lookup_fmap in E. destruct (ws !! i) as [w|] eqn:Ew; [|done]. cbn in E.
    destruct w; try done; [|by apply list_elem_of_lookup_2 in Ew]. injection E as <-.
    eexists (Join (S i) total seen), jobs, results. split; pool_simpl Hc Ht.
    + split; [lia|]. split; [done|]. split; [done|]. unfold NWORKERS in *. lia.
    + intros j t se k [= <- <- <-] Hk. destruct (decide (k = i)) as [->|]; [done|]. eapply Hjn; [done|lia].
Qed.

(** The [k]-th worker, which has not returned, goes on. *)
Lemma worker_update n m ws jobs results k w w' jobs' results' :
  pool_inv n m ws jobs results -> ws !! k = Some w -> w <> WDone -> worker_ok w' ->
  Forall right_job (q_buf jobs') -> Forall right_res (q_buf results') ->
  q_closed jobs' = q_closed jobs -> q_closed results' = false ->
  (w' = WDone \/ WDone ∈ ws -> q_closed jobs = true /\ q_buf jobs' = []) ->
  ids (PWorker w) ++ (q_buf jobs ≫= msg_ids) ++ (q_buf results ≫= msg_ids) ≡ₚ
    ids (PWorker w') ++ (q_buf jobs' ≫= msg_ids) ++ (q_buf results' ≫= msg_ids) ->
  pool_inv (mk_net [jobs'; results'] (<[S k := PWorker w']> (n_thread n))) m (<[k := w']> ws) jobs' results'.
Proof.
  intros [Hc Ht Hw Hm Hws Hj Hr Hcl Ho Hd Hjn Hi] Hk Hne Hw' Hj' Hr' Hc' Ho' Hdone Hids.
  split; cbn [n_chan n_thread]; try done.
  - rewrite Ht. cbn [insert list_insert]. by rewrite list_fmap_insert.
  - by rewrite length_insert.
  - by apply Forall_insert.
  - congruence.
  - intros Hin. rewrite Hc'. apply Hdone. apply list_elem_of_lookup in Hin as [j Hin].
    apply list_lookup_insert_Some in Hin as [(_ & ? & _)|(_ & Hin)]; [by left|right]. by eapply list_elem_of_lookup_2.
  - intros i t se j Em Hji. rewrite list_lookup_insert_ne; [by eapply Hjn|]. intros ->. specialize (Hjn _ _ _ _ Em Hji). congruence.
  - destruct (bind_update ids (n_thread n) (S k) (PWorker w)) as (rest & H1 & H2).
    { rewrite Ht, lookup_cons, list_lookup_fmap, Hk. done. }
    rewrite H2. etrans; [|exact Hi]. rewrite H1.
    rewrite <- !app_assoc, !(Permutation_app_swap_app _ rest). f_equiv. by symmetry.
Qed.

Lemma worker_step n n' m ws jobs results k w :
  pool_inv n m ws jobs results -> ws !! k = Some w -> net_go (S k) (worker_act (Z.of_nat (S k) - 1) w) n = Some n' ->
  exists w' jobs' results', pool_inv n' m (<[k := w']> ws) jobs' results'.
Proof.
  intros Hinv Hk E. pose proof Hinv as [Hc Ht Hw Hm Hws Hj Hr Hcl Ho Hd Hjn Hi].
  assert (k < 4)%nat as Hlt by (apply lookup_lt_Some in Hk; unfold NWORKERS in Hw; lia).
  destruct w as [|r| |]; cbn [worker_act net_go] in E; try done; rewrite Hc in E; cbn [lookup list_lookup mbind option_bind] in E.
  - unfold recv_from in E. destruct (q_buf jobs) as [|m0 b] eqn:Eb.
    + destruct (q_closed jobs) eqn:Ecl; [|done]. injection E as <-. exists WDone, jobs, results.
      unfold advance. rewrite Hc. eapply worker_update; try done; rewrite ?Eb, ?Ecl; done.
    + apply Forall_cons in Hj as [(i & Hi0 & ->) Hj]. injection E as <-. unfold advance, set_queue. rewrite Hc.
      cbn [n_chan n_thread insert list_insert]. eexists (WSend _), (mk_queue b _), results.
      eapply worker_update; [done|done|done| |done|done|done|done| |].
      * split; [done|]. simpl. split; [lia|done].
      * intros [?|Hin]; [done|]. destruct (Hd Hin). congruence.
      * rewrite Eb. cbn [ids mbind list_bind msg_ids r_job_id]. perm.
  - unfold send_to in E. rewrite Ho in E. destruct (_ <? _); [|done]. injection E as <-. unfold advance, set_queue. rewrite Hc.
    cbn [n_chan n_thread insert list_insert]. eexists WRecv, jobs, (mk_queue _ false).
    assert (worker_ok (WSend r)) as Hr0 by (eapply Forall_lookup_1; [exact Hws|exact Hk]).
    eapply worker_update; [done|done|done|done|done| |done|done| |].
    * apply Forall_app. split; [done|]. constructor; [|done]. by exists r.
    * intros [?|Hin]; [done|]. by apply Hd.
    * cbn [q_buf]. rewrite bind_app. cbn [ids mbind list_bind msg_ids]. perm.
Qed.

(** ** The end *)

(** Every job has four steps, the threads a few more. *)
Definition weight (s : pool_state) : Z :=
  match s with
  | PMain (Submit i) => 4 * (NJOBS - i) + 10
  | PMain (Collect _ _ _) => 6
  | PMain (Join i _ _) => 5 - Z.of_nat i
  | PWorker WRecv => 1
  | PWorker (WSend _) => 3
  | _ => 0
  end.
Definition carried (c : nat) : Z := if (c =? 0)%nat then 3 else 1.
Definition measure : net -> Z := net_weight weight carried.

Lemma pool_measure_nonneg n : pool_ok n -> 0 <= measure n.
Proof.
  intros (m & ws & jobs & results & [Hc Ht Hw Hm Hws Hj Hr Hcl Ho Hd Hjn Hi]). unfold measure, net_weight. rewrite Hc. simpl.
  pose proof (zlen_nonneg (q_buf jobs)). pose proof (zlen_nonneg (q_buf results)).
  assert (0 <= sum_with weight (n_thread n)); [|change (carried 0) with 3; change (carried 1) with 1; lia]. apply sum_nonneg. intros s Hs. rewrite Ht in Hs.
  apply elem_of_cons in Hs as [->|Hs].
  - destruct m; simpl in *; unfold NWORKERS in *; lia.
  - apply list_elem_of_fmap in Hs as (w & -> & _). destruct w; simpl; lia.
Qed.

Lemma pool_lowers n t s : pool_ok n -> n_thread n !! t = Some s -> lowers weight carried s (act t s).
Proof.
  intros (m & ws & jobs & results & [Hc Ht Hw Hm Hws Hj Hr Hcl Ho Hd Hjn Hi]) Hs. rewrite Ht, lookup_cons in Hs. destruct t as [|t].
  - injection Hs as <-. destruct m as [i|got total seen|i total seen|]; cbn [act pool main_act main_ok] in *.
    + unfold NJOBS in *. destruct (Z.ltb_spec i 40); cbn [lowers weight carried Nat.eqb]; unfold NJOBS; lia.
    + destruct (Z.ltb_spec got NJOBS); cbn [lowers weight carried Nat.eqb]; [|lia]. split; [|lia]. intros [j|r]; unfold carried; simpl; lia.
    + destruct (Nat.ltb_spec i NWORKERS); cbn [lowers weight]; [lia|done].
    + done.
  - rewrite list_lookup_fmap in Hs. destruct (ws !! t) as [w|]; [|done]. injection Hs as <-. destruct w; unfold lowers, carried; simpl; try done; try lia.
    split; [|lia]. intros [j|r]; unfold carried; simpl; lia.
Qed.

(** Every step keeps the invariant and lowers the measure. *)
Lemma pool_step l n n' : pool_ok n -> net_step l n = Some n' -> pool_ok n' /\ measure n' < measure n.
Proof.
  intros Hok E. split; [|eapply weight_step; [|done]; intros t s Hs; by apply (pool_lowers n)].
  destruct Hok as (m & ws & jobs & results & Hinv). pose proof (pi_thread _ _ _ _ _ Hinv) as Ht.
  destruct l as [t|t u]; cbn [net_step] in E; [|by rewrite (no_meeting room_pos) in E].
  rewrite Ht, lookup_cons in E. destruct t as [|t]; cbn [mbind option_bind] in E.
  - destruct (main_step _ _ _ _ _ _ Hinv E) as (m' & j' & r' & H'). by exists m', ws, j', r'.
  - rewrite list_lookup_fmap in E. destruct (ws !! t) as [w|] eqn:Ew; [|done]. cbn [fmap option_fmap option_map mbind option_bind] in E.
    destruct (worker_step _ _ _ _ _ _ _ _ Hinv Ew E) as (w' & j' & r' & H'). by exists m, (<[t := w']> ws), j', r'.
Qed.

Lemma ids_length (l : list pool_msg) : length (l ≫= msg_ids) = length l.
Proof. induction l as [|[j|r] l IH]; [done|simpl; f_equal; exact IH..]. Qed.

(** The results that wait are fewer than the channel has room for. *)
Lemma results_fit n m ws jobs results : pool_inv n m ws jobs results -> zlen (q_buf results) < room 1.
Proof.
  intros [_ _ _ _ _ _ _ _ _ _ _ Hi]. apply Permutation_length in Hi. rewrite !length_app, !ids_length, length_seqZ in Hi.
  rewrite room_results. unfold zlen, NJOBS in *. lia.
Qed.

(** Where no worker can go on, those that have not returned wait for a job. *)
Lemma workers_stuck n m ws jobs results :
  pool_inv n m ws jobs results -> (forall l, net_step l n = None) ->
  forall k w, ws !! k = Some w -> w = WDone \/ (w = WRecv /\ q_buf jobs = [] /\ q_closed jobs = false).
Proof.
  intros Hinv Hst k w Hk. pose proof (results_fit _ _ _ _ _ Hinv) as Hfit. pose proof Hinv as [Hc Ht Hw Hm Hws Hj Hr Hcl Ho Hd Hjn Hi].
  specialize (Hst (Go (S k))). cbn [net_step] in Hst. rewrite Ht, lookup_cons, list_lookup_fmap, Hk in Hst.
  cbn [fmap option_fmap option_map mbind option_bind act pool] in Hst.
  destruct w as [|r| |]; cbn [worker_act net_go] in Hst; [| |by left|].
  - right. rewrite Hc in Hst. cbn [lookup list_lookup mbind option_bind] in Hst. unfold recv_from in Hst.
    destruct (q_buf jobs); [|done]. by destruct (q_closed jobs).
  - exfalso. rewrite Hc in Hst. cbn [lookup list_lookup mbind option_bind] in Hst. unfold send_to in Hst.
    rewrite Ho, (proj2 (Z.ltb_lt _ _)) in Hst by done. done.
  - exfalso. rewrite Forall_forall in Hws. apply (Hws WStray). by eapply list_elem_of_lookup_2.
Qed.

(** The program stops only at its end. *)
Lemma pool_stuck n : pool_ok n -> (forall l, net_step l n = None) ->
  exists total seen, n_thread n = PMain (Join NWORKERS total seen) :: replicate NWORKERS (PWorker WDone) /\
    total = sum_with r_result seen /\ Forall right seen /\ r_job_id <$> seen ≡ₚ seqZ 0 NJOBS.
Proof.
  intros (m & ws & jobs & results & Hinv) Hst. pose proof (workers_stuck _ _ _ _ _ Hinv Hst) as Hwk.
  pose proof Hinv as [Hc Ht Hw Hm Hws Hj Hr Hcl Ho Hd Hjn Hi].
  pose proof (Hst (Go 0)) as Hmain. cbn [net_step] in Hmain. rewrite Ht in Hmain. cbn [lookup list_lookup mbind option_bind act pool] in Hmain.
  assert (exists w, ws !! 0%nat = Some w) as [w0 Hw0] by (apply lookup_lt_is_Some; rewrite Hw; unfold NWORKERS; lia).
  assert (submitted m = true -> ws = replicate NWORKERS WDone) as Hall.
  { intros Hs. apply list_eq_same_length with NWORKERS; [by rewrite length_replicate|done|]. intros i x y Hi4 Hx Hy.
    apply lookup_replicate in Hy as [-> _]. destruct (Hwk _ _ Hx) as [?|(_ & _ & ?)]; [done|congruence]. }
  destruct m as [i|got total seen|i total seen|]; cbn [main_act submitted main_ok] in *; [| | |done].
  - exfalso. destruct (Z.ltb_spec i NJOBS); cbn [net_go] in Hmain; rewrite Hc in Hmain; [|done]. cbn [lookup list_lookup mbind option_bind] in Hmain.
    unfold send_to in Hmain. rewrite Hcl in Hmain. destruct (Z.ltb_spec (zlen (q_buf jobs)) (room 0)) as [|Hfull]; [done|].
    rewrite room_jobs in Hfull. assert (q_buf jobs <> []) as Hne by (intros Eb; rewrite Eb in Hfull; unfold zlen in Hfull; simpl in Hfull; lia).
    destruct (Hwk _ _ Hw0) as [->|(_ & ? & _)]; [|done]. apply list_elem_of_lookup_2 in Hw0. by destruct (Hd Hw0).
  - exfalso. rewrite (Hall eq_refl) in *. destruct Hm as (Hgot & _ & _ & Hle). destruct (Z.ltb_spec got NJOBS); cbn [net_go] in Hmain.
    + rewrite Hc in Hmain. cbn [lookup list_lookup mbind option_bind] in Hmain. unfold recv_from in Hmain.
      destruct (q_buf results); [|done]. destruct (Hd ltac:(by left)) as [_ Ej]. rewrite Ej, Ht in Hi. apply Permutation_length in Hi.
      simpl in Hi. rewrite app_nil_r, length_app, length_fmap in Hi. simpl in Hi. unfold zlen, NJOBS in *. lia.
    + rewrite Ht in Hmain. done.
  - destruct Hm as (Hlen & Htot & Hright & Hi4). rewrite (Hall eq_refl) in *. exists total, seen.
    destruct (Nat.ltb_spec i NWORKERS) as [Hlt|Hge]; cbn [net_go] in Hmain.
    { exfalso. rewrite Ht, lookup_cons, list_lookup_fmap, lookup_replicate_2 in Hmain by done. done. }
    assert (i = NWORKERS) as -> by lia. split; [by rewrite Ht, fmap_replicate|]. split; [done|]. split; [done|].
    rewrite Ht in Hi. simpl in Hi. rewrite app_nil_r in Hi. destruct (Hd ltac:(by left)) as [_ Ej]. rewrite Ej in Hi. simpl in Hi.
    assert (q_buf results = []) as Er.
    { apply Permutation_length in Hi. rewrite length_app, length_fmap, ids_length in Hi. apply length_zero_iff_nil.
      unfold zlen, NJOBS in *. simpl in Hi. lia. }
    rewrite Er in Hi. simpl in Hi. by rewrite app_nil_r in Hi.
Qed.

(** ** On the code *)

Lemma pool_copied n : pool_ok n -> sends_copied enc dec n.
Proof.
  intros (m & ws & jobs & results & [Hc Ht Hw Hm Hws Hj Hr Hcl Ho Hd Hjn Hi]) t s c msg k Hs Ha.
  rewrite Ht, lookup_cons in Hs. destruct t as [|t].
  - injection Hs as <-. destruct m as [i|got total seen|i total seen|]; cbn [act pool main_act main_ok] in *; repeat case_match; simplify_eq.
    assert (is_int i /\ is_int (20000 + i * 1500)) as [H1 H2] by (unfold is_int, NJOBS in *; lia).
    unfold copied, enc, dec, job. cbn [j_id j_n]. rewrite decide_True by done.
    change (take 4 (enc_int i ++ ?x)) with (enc_int i). change (drop 4 (enc_int i ++ ?x)) with x.
    rewrite !dec_enc_int by done. done.
  - rewrite list_lookup_fmap in Hs. destruct (ws !! t) as [w|] eqn:Ew; [|done]. injection Hs as <-.
    destruct w as [|r| |]; simplify_eq/=. assert (worker_ok (WSend r)) as (H1 & H2 & H3) by (by eapply Forall_lookup_1).
    pose proof (count_range (20000 + r_job_id r * 1500)). unfold NJOBS in *.
    assert (is_int (r_job_id r) /\ is_int (r_worker_id r) /\ is_int (r_result r)) as (I1 & I2 & I3) by (unfold is_int; lia).
    unfold copied, enc, dec. rewrite decide_False by done. rewrite take_app_length'; [|done].
    change (take 4 (drop 4 (enc_int (r_job_id r) ++ enc_int (r_worker_id r) ++ enc_int (r_result r)))) with (enc_int (r_worker_id r)).
    change (drop 8 (enc_int (r_job_id r) ++ enc_int (r_worker_id r) ++ enc_int (r_result r))) with (enc_int (r_result r)).
    rewrite !dec_enc_int by done. simpl. by destruct r.
Qed.

(** The total [main] prints. *)
Definition primes_total : Z := sum_with (fun i => zlen (primes_below (20000 + i * 1500))) (seqZ 0 NJOBS).

Lemma seen_total seen : Forall right seen -> r_job_id <$> seen ≡ₚ seqZ 0 NJOBS -> sum_with r_result seen = primes_total.
Proof.
  intros Hr Hp. unfold primes_total. rewrite <- Hp. clear Hp. induction Hr as [|r l (_ & _ & E) _ IH]; simpl; [done|].
  by rewrite IH, E, count_primes_spec.
Qed.

Lemma pool_fits n : pool_ok n -> calls_fit enc pool_elem 2 n.
Proof.
  intros (m & ws & jobs & results & Hinv) t s Hs. rewrite (pi_thread _ _ _ _ _ Hinv), lookup_cons in Hs. destruct t as [|t].
  - injection Hs as <-. destruct m; cbn [act pool main_act]; repeat case_match; simpl; auto with lia.
  - rewrite list_lookup_fmap in Hs. destruct (ws !! t) as [w|]; [|done]. injection Hs as <-. destruct w; simpl; auto with lia.
Qed.

Lemma pool_sized `{Malloc} c : malloc 64 <> None -> malloc 768 <> None -> sized pool_elem pool_cap c.
Proof. intros H1 H2. destruct c as [|c]; split; try done; unfold pool_elem, pool_cap, NJOBS; simpl; lia. Qed.

Lemma pool_correct `{Malloc} : malloc 64 <> None -> malloc 768 <> None ->
  exists n0, cnet_start pool_elem pool_cap 2 pool_start = Ret n0 /\ forall ls o, cnet_run enc dec ls n0 = Some o ->
  exists n, o = Ret n /\ (length ls <= 1925)%nat /\
  (cstuck enc dec n -> exists seen,
     cn_thread n = (PMain (Join NWORKERS primes_total seen), false) :: replicate NWORKERS (PWorker WDone, false) /\
     Forall right seen /\ r_job_id <$> seen ≡ₚ seqZ 0 NJOBS).
Proof.
  intros Hm1 Hm2. assert (forall c, 0 <= Net.room c) as Hroom by (intros c; pose proof (room_pos c); lia).
  destruct (program_on_code enc dec pool_elem pool_cap pool_ok (fun l n n' Hn Hs => proj1 (pool_step l n n' Hn Hs)) pool_copied
    2 pool_start Hroom (fun c _ => pool_sized c Hm1 Hm2) ltac:(done) pool_fits pool_start_ok) as (n0 & E0 & Hrun).
  exists n0. split; [done|]. intros ls o E. destruct (Hrun ls o E) as (n & ks & n' & -> & Hks & Hok & Hag & Hlen & Hbound & Hstuck).
  exists n. split; [done|]. split.
  - pose proof (net_run_bound pool_ok measure ks _ n' pool_step pool_measure_nonneg pool_start_ok Hks) as Hm.
    change (measure (net_start 2 pool_start)) with 174 in Hm. unfold zlen in Hm. change (length pool_start) with 5%nat in Hbound. lia.
  - intros Hst. destruct (Hstuck Hst) as (H1 & H2 & H3). destruct (pool_stuck n' Hok H1) as (total & seen & Hth & -> & Hr & Hp).
    exists seen. split; [|done]. rewrite <- (seen_total seen) by done. rewrite (code_halted n n') by (done || (intros t s Hs;
      rewrite Hth, lookup_cons in Hs; destruct t as [|t]; [by injection Hs as <-|]; by apply lookup_replicate in Hs as [-> _])).
    by rewrite Hth.
Qed.

(** ** Theorem *)

(** C31: The worker pool on the functions of the library, from the creation of its two
    channels on and under every schedule: no call is undefined or hangs, every run is
    finite, and a run that cannot go on has finished, each worker returned, every
    job answered exactly once with the number of primes below its bound, and the
    total that [main] prints is their sum.  No job is lost, done twice or answered by
    a structure nobody wrote, and nothing deadlocks. *)
Theorem worker_pool_total `{Malloc} (Hjobs : malloc 64 <> None) (Hresults : malloc 768 <> None) :
  exists n0, cnet_start pool_elem pool_cap 2 pool_start = Ret n0 /\ forall ls o, cnet_run enc dec ls n0 = Some o ->
  exists n, o = Ret n /\ (length ls <= 1925)%nat /\
  (cstuck enc dec n -> exists seen,
     cn_thread n = (PMain (Join NWORKERS primes_total seen), false) :: replicate NWORKERS (PWorker WDone, false) /\
     Forall right seen /\ r_job_id <$> seen ≡ₚ seqZ 0 NJOBS).
Proof. by apply pool_correct. Qed.

(** A worker blocks on the empty channel and is passed the first job. *)
Lemma worker_pool_total_witness :
  match @cnet_start _ pool_elem pool_cap malloc_ex 2 pool_start with
  | Ret n0 => match cnet_run enc dec [Call 1; Call 0] n0 with Some (Ret n) => (cn_thread n).*2 | _ => [] end
  | _ => []
  end = [false; true; false; false; false] /\
  exists n0, @cnet_start _ pool_elem pool_cap malloc_ex 2 pool_start = Ret n0 /\ forall ls o, cnet_run enc dec ls n0 = Some o ->
  exists n, o = Ret n /\ (length ls <= 1925)%nat /\
  (cstuck enc dec n -> exists seen,
     cn_thread n = (PMain (Join NWORKERS primes_total seen), false) :: replicate NWORKERS (PWorker WDone, false) /\
     Forall right seen /\ r_job_id <$> seen ≡ₚ seqZ 0 NJOBS).
Proof.
  split; [vm_compute; reflexivity|].
  apply (@worker_pool_total malloc_ex); vm_compute; discriminate.
Defined.

(** The two channels of the pool satisfy what the refinement asks of a program. *)
Lemma net_on_code_witness :
  exists n0, @cnet_start _ pool_elem pool_cap malloc_ex 2 pool_start = Ret n0 /\ forall ls o, cnet_run enc dec ls n0 = Some o ->
  exists n ks n', o = Ret n /\ net_run ks (net_start 2 pool_start) = Some n' /\ pool_ok n' /\
    (forall t s, cn_thread n !! t = Some (s, false) -> n_thread n' !! t = Some s) /\ length (n_thread n') = length (cn_thread n) /\
    (length ls <= (length ks + 1) * (2 * length pool_start + 1))%nat /\
    (cstuck enc dec n -> (forall l, net_step l n' = None) /\ n_thread n' = (cn_thread n).*1 /\
       (forall t s, cn_thread n !! t = Some (s, true) -> halted t s = false)).
Proof.
  apply (@net_on_code _ _ pool malloc_ex enc dec pool_elem pool_cap pool_ok 2 pool_start).
  - intros c. pose proof (room_pos c). lia.
  - intros c _. apply (@pool_sized malloc_ex); vm_compute; discriminate.
  - reflexivity.
  - intros l n1 n2 H1 H2. apply (pool_step l n1 n2 H1 H2).
  - apply pool_copied.
  - apply pool_fits.
  - apply pool_start_ok.
Defined.
