(* ===== verification/NetDet.v ===== *)
(** * Programs that leave nothing to the schedule

    When every channel has one thread that sends on it and closes it and one that
    receives from it, and no thread polls, two steps that are both possible lead to
    the same state in either order.  Such a program has one outcome: if one schedule
    ends, every schedule does, with the same states of the threads.  So one run over
    the queues decides what the program does on the code of the library. *)

From S2P Require Import Prelude RingLf Heap ChanSpec Net NetHeap.
From stdpp Require Import list.
#[local] Open Scope Z_scope.

#[export] Instance label_eq_dec : EqDecision label.
Proof. solve_decision. Defined.

Section deterministic.
Context {M S : Type} `{Program M S} (sender receiver : nat -> nat).
#[local] Notation net := (@net M S).

(** The call [a] is one that [t] may make. *)
Definition owned (t : nat) (a : action M S) : Prop :=
  match a with
  | ASend c _ _ | AClose c _ => sender c = t
  | ARecv c _ => receiver c = t
  | APoll _ _ => False
  | AJoin _ _ | AHalt => True
  end.
Definition calls_owned (n : net) : Prop := forall t s, n_thread n !! t = Some s -> owned t (act t s).

(** No channel holds more than it has room for. *)
Definition within (n : net) : Prop := forall c q, n_chan n !! c = Some q -> zlen (q_buf q) <= room c.

(** ** One step *)

(** The call [a] on the queue [q]: the state it goes on with, and the queue. *)
Definition on_queue (c : nat) (a : action M S) (q : queue M) : option (S * queue M) :=
  match a with
  | ASend _ m k =>
      if q_closed q then Some (k false, q)
      else if zlen (q_buf q) <? room c then Some (k true, mk_queue (q_buf q ++ [m]) false) else None
  | ARecv _ k =>
      match q_buf q with
      | m :: b => Some (k (Some m), mk_queue b (q_closed q))
      | [] => if q_closed q then Some (k None, q) else None
      end
  | AClose _ k => Some (k, mk_queue (q_buf q) true)
  | _ => None
  end.

Lemma set_queue_id c q (n : net) : n_chan n !! c = Some q -> set_queue c q n = n.
Proof. intros Hq. unfold set_queue. rewrite list_insert_id by done. by destruct n. Qed.

Lemma go_on_queue t a c (n : net) : owned t a -> chan_of a = Some c ->
  net_go t a n = q ← n_chan n !! c; '(s', q') ← on_queue c a q; Some (advance t s' (set_queue c q' n)).
Proof.
  intros Ho Hc. destruct a as [d m k|d k|d k|d k|u k|]; simplify_eq/=; try done; destruct (n_chan n !! c) as [q|] eqn:Hq; try done; simpl.
  - unfold send_to. destruct (q_closed q); simpl; [by rewrite set_queue_id|]. by destruct (_ <? _).
  - unfold recv_from. destruct (q_buf q); [|done]. destruct (q_closed q) eqn:E; [|done]. simpl. by rewrite set_queue_id.
Qed.

(** The two ends of a channel do not disturb each other. *)
Lemma ends_commute c a b q s1 q1 s2 q2 t u :
  t <> u -> owned t a -> owned u b -> chan_of a = Some c -> chan_of b = Some c ->
  on_queue c a q = Some (s1, q1) -> on_queue c b q = Some (s2, q2) ->
  exists q3, on_queue c b q1 = Some (s2, q3) /\ on_queue c a q2 = Some (s1, q3).
Proof.
  intros Hne Ha Hb Hca Hcb E1 E2.
  destruct a as [d m k|d k|d k|d k|v k|], b as [d' m' k'|d' k'|d' k'|d' k'|v' k'|]; simplify_eq/=; try congruence.
  - destruct (q_buf q) as [|x l] eqn:Eb; destruct (q_closed q) eqn:Ec; simplify_eq/=; rewrite ?Eb, ?Ec; simpl; eauto.
    destruct (Z.ltb_spec (zlen (x :: l)) (room c)); simplify_eq/=. rewrite (proj2 (Z.ltb_lt _ _)); [by eauto|].
    rewrite zlen_cons in *. lia.
  - destruct (q_buf q) as [|x l] eqn:Eb; destruct (q_closed q) eqn:Ec; simplify_eq/=; rewrite ?Eb, ?Ec; simpl; eauto.
    destruct (Z.ltb_spec (zlen (x :: l)) (room c)); simplify_eq/=. rewrite (proj2 (Z.ltb_lt _ _)); [by eauto|].
    rewrite zlen_cons in *. lia.
  - destruct (q_buf q) as [|x l] eqn:Eb; destruct (q_closed q) eqn:Ec; simplify_eq/=; rewrite ?Eb, ?Ec; simpl; eauto.
  - destruct (q_buf q) as [|x l] eqn:Eb; destruct (q_closed q) eqn:Ec; simplify_eq/=; rewrite ?Eb, ?Ec; simpl; eauto.
Qed.

(** Changes of different threads and queues in either order. *)
Ltac net_eq :=
  unfold advance, set_queue; simpl; f_equal;
  first [done | by rewrite list_insert_insert_ne by congruence | by rewrite list_insert_insert_eq].
Lemma thread_other t u s (n : net) : t <> u -> n_thread (advance t s n) !! u = n_thread n !! u.
Proof. intros. simpl. by rewrite list_lookup_insert_ne. Qed.
Lemma chan_other c d q (n : net) : c <> d -> n_chan (set_queue c q n) !! d = n_chan n !! d.
Proof. intros. simpl. by rewrite list_lookup_insert_ne. Qed.
Lemma chan_same c q q' (n : net) : n_chan n !! c = Some q -> n_chan (set_queue c q' n) !! c = Some q'.
Proof. intros. simpl. apply list_lookup_insert_eq. by eapply lookup_lt_Some. Qed.

(** A call about a queue, or a join of a thread that has returned. *)
Inductive moved (t : nat) (n : net) : net -> Prop :=
| moved_queue s c q s' q' :
    n_thread n !! t = Some s -> owned t (act t s) -> chan_of (act t s) = Some c -> n_chan n !! c = Some q ->
    on_queue c (act t s) q = Some (s', q') -> moved t n (advance t s' (set_queue c q' n))
| moved_join s u k su :
    n_thread n !! t = Some s -> act t s = AJoin u k -> n_thread n !! u = Some su -> halted u su = true -> moved t n (advance t k n).

Lemma go_moved t n n1 : calls_owned n -> net_step (Go t) n = Some n1 -> moved t n n1.
Proof.
  intros Ho. simpl. destruct (n_thread n !! t) as [s|] eqn:Hs; [|done]. simpl. intros E. pose proof (Ho _ _ Hs) as Hos.
  destruct (chan_of (act t s)) as [c|] eqn:Hc.
  - rewrite (go_on_queue _ _ c) in E by done. destruct (n_chan n !! c) as [q|] eqn:Hq; [|done]. simpl in E.
    destruct (on_queue c (act t s) q) as [[s' q']|] eqn:Eq; [|done]. injection E as <-. by eapply moved_queue.
  - destruct (act t s) as [| | | |u k|] eqn:Ha; try done. simpl in E. destruct (n_thread n !! u) as [su|] eqn:Hu; [|done]. simpl in E.
    destruct (halted u su) eqn:Hh; [|done]. injection E as <-. by eapply moved_join.
Qed.
Lemma moved_go t n n1 : moved t n n1 -> net_step (Go t) n = Some n1.
Proof.
  intros [s c q s' q' Hs Hos Hc Hq Eq|s u k su Hs Ha Hu Hh]; simpl; rewrite Hs; simpl.
  - rewrite (go_on_queue _ _ c) by done. rewrite Hq. simpl. by rewrite Eq.
  - rewrite Ha. simpl. rewrite Hu. simpl. by rewrite Hh.
Qed.

(** A thread that has returned does not move. *)
Lemma moved_not_halted t n n1 s : moved t n n1 -> n_thread n !! t = Some s -> halted t s = false.
Proof.
  intros [s1 c q s' q' Hs Hos Hc Hq Eq|s1 u k su Hs Ha Hu Hh] Hs1; simplify_eq; unfold halted; [by destruct (act t s1)|by rewrite Ha].
Qed.

Lemma moved_queue_eq t n s c q s' q' n' :
  n_thread n !! t = Some s -> owned t (act t s) -> chan_of (act t s) = Some c -> n_chan n !! c = Some q ->
  on_queue c (act t s) q = Some (s', q') -> n' = advance t s' (set_queue c q' n) -> moved t n n'.
Proof. intros. subst n'. by eapply moved_queue. Qed.
Lemma moved_join_eq t n s u k su n' :
  n_thread n !! t = Some s -> act t s = AJoin u k -> n_thread n !! u = Some su -> halted u su = true -> n' = advance t k n -> moved t n n'.
Proof. intros. subst n'. by eapply moved_join. Qed.

Lemma moved_commute t u n n1 n2 : t <> u -> moved t n n1 -> moved u n n2 -> exists n3, moved u n1 n3 /\ moved t n2 n3.
Proof.
  intros Hne M1 M2. pose proof (fun x => moved_not_halted _ _ _ x M1) as Hh1. pose proof (fun x => moved_not_halted _ _ _ x M2) as Hh2.
  destruct M1 as [s c q s' q' Hs Hos Hc Hq Eq|s v k sv Hs Ha Hv Hhv]; destruct M2 as [r d p r' p' Hr Hor Hd Hp Ep|r w j sw Hr Hb Hw Hhw].
  - destruct (decide (c = d)) as [<-|Hcd].
    + simplify_eq. destruct (ends_commute c _ _ q _ _ _ _ t u Hne Hos Hor Hc Hd Eq Ep) as (q3 & E1 & E2).
      exists (advance t s' (advance u r' (set_queue c q3 n))).
      split; [eapply (moved_queue_eq u _ r c q')|eapply (moved_queue_eq t _ s c p')]; rewrite ?thread_other; try done;
        first [by eapply chan_same|net_eq].
    + exists (advance t s' (advance u r' (set_queue c q' (set_queue d p' n)))).
      split; [eapply (moved_queue_eq u _ r d p)|eapply (moved_queue_eq t _ s c q)]; rewrite ?thread_other; try done;
        first [by simpl; rewrite list_lookup_insert_ne|net_eq].
  - assert (t <> w) as Htw by (intros <-; simplify_eq; rewrite Hh1 in Hhw; done).
    exists (advance u j (advance t s' (set_queue c q' n))).
    split; [eapply (moved_join_eq u _ r w)|eapply (moved_queue_eq t _ s c q)]; rewrite ?thread_other; try done; net_eq.
  - assert (u <> v) as Huv by (intros <-; simplify_eq; rewrite Hh2 in Hhv; done).
    exists (advance t k (advance u r' (set_queue d p' n))).
    split; [eapply (moved_queue_eq u _ r d p)|eapply (moved_join_eq t _ s v)]; rewrite ?thread_other; try done; net_eq.
  - assert (t <> w) as Htw by (intros <-; simplify_eq; rewrite Hh1 in Hhw; done).
    assert (u <> v) as Huv by (intros <-; simplify_eq; rewrite Hh2 in Hhv; done).
    exists (advance t k (advance u j n)).
    split; [eapply (moved_join_eq u _ r w)|eapply (moved_join_eq t _ s v)]; rewrite ?thread_other; try done; net_eq.
Qed.

(** A meeting of the two ends of an unbuffered channel. *)
Record met (t u : nat) (n n1 : net) (st su : S) (c : nat) (m : M) (k : bool -> S) (k' : option M -> S) (q : queue M) : Prop := {
  mt_sender : n_thread n !! t = Some st;
  mt_receiver : n_thread n !! u = Some su;
  mt_send : act t st = ASend c m k;
  mt_recv : act u su = ARecv c k';
  mt_own : sender c = t /\ receiver c = u;
  mt_ne : t <> u;
  mt_chan : n_chan n !! c = Some q;
  mt_room : room c = 0;
  mt_open : q_closed q = false;
  mt_next : n1 = advance u (k' (Some m)) (advance t (k true) n)
}.
Definition meets (t u : nat) (n n1 : net) : Prop := exists st su c m k k' q, met t u n n1 st su c m k k' q.

Lemma meet_meets t u n n1 : calls_owned n -> net_step (Net.Meet t u) n = Some n1 -> meets t u n n1.
Proof.
  intros Ho E. simpl in E. unfold net_meet in E. destruct (n_thread n !! t) as [st|] eqn:Ht; [|done]. destruct (n_thread n !! u) as [su|] eqn:Hu; [|done].
  simpl in E. pose proof (Ho _ _ Ht) as Hot. pose proof (Ho _ _ Hu) as Hou. destruct (act t st) as [c m k| | | | |] eqn:Ha; try done.
  destruct (accepts (act u su)) as [[c' k1]|] eqn:Hacc; [|done]. destruct (n_chan n !! c) as [q|] eqn:Hq; [|done]. simpl in E.
  destruct (bool_decide _ && _) eqn:Hb; [|done]. apply andb_true_iff in Hb as [(Hne & <- & Hz)%bool_decide_eq_true Hcl%negb_true_iff].
  injection E as <-. destruct (act u su) as [| |c1 k2| | |] eqn:Hau; simplify_eq/=. by exists st, su, c, m, k, k0, q.
Qed.
Lemma meets_meet t u n n1 : meets t u n n1 -> net_step (Net.Meet t u) n = Some n1.
Proof.
  intros (st & su & c & m & k & k' & q & [H1 H2 H3 H4 H5 H6 H7 H8 H9 ->]). simpl. unfold net_meet. rewrite H1, H2. simpl.
  rewrite H3, H4. simpl. rewrite H7. simpl. by rewrite bool_decide_true, H9 by done.
Qed.

Lemma zlen_nil_inv {A} (l : list A) : zlen l <= 0 -> l = [].
Proof. destruct l as [|x l]; [done|]. rewrite zlen_cons. pose proof (zlen_nonneg l). lia. Qed.

(** Neither end of the channel of a meeting can go alone. *)
Lemma met_waits t u n n1 v n2 : within n -> meets t u n n1 -> moved v n n2 -> v <> t /\ v <> u.
Proof.
  intros Hw (st & su & c & m & k & k' & q & [H1 H2 H3 H4 H5 H6 H7 H8 H9 _]) Hv. pose proof (Hw _ _ H7) as Hz. rewrite H8 in Hz.
  apply zlen_nil_inv in Hz. destruct Hv as [s d p s' p' Hs Hos Hd Hp Ep|s w j sw Hs Hj _ _]; split; intros ->; simplify_eq; try congruence.
  - rewrite H3 in *. simplify_eq/=. rewrite H9, H8, Hz in Ep. done.
  - rewrite H4 in *. simplify_eq/=. rewrite H9, Hz in Ep. done.
Qed.

Lemma met_moved_commute t u n n1 v n2 :
  within n -> meets t u n n1 -> moved v n n2 -> exists n3, moved v n1 n3 /\ meets t u n2 n3.
Proof.
  intros Hw Hm Hv. destruct (met_waits _ _ _ _ _ _ Hw Hm Hv) as [Hvt Hvu].
  destruct Hm as (st & su & c & m & k & k' & q & [H1 H2 H3 H4 H5 H6 H7 H8 H9 ->]).
  destruct Hv as [s d p s' p' Hs Hos Hd Hp Ep|s w j sw Hs Hj Hsw Hh].
  - assert (d <> c) as Hdc by (intros ->; destruct H5; destruct (act v s); simplify_eq/=; congruence).
    exists (advance v s' (set_queue d p' (advance u (k' (Some m)) (advance t (k true) n)))). split.
    + eapply (moved_queue_eq v _ s d p); rewrite ?thread_other; done.
    + exists st, su, c, m, k, k', q. split; rewrite ?thread_other; try done.
      * by rewrite <- H7; apply chan_other.
      * unfold advance, set_queue. simpl. f_equal. rewrite !(list_insert_insert_ne _ v) by congruence. done.
  - assert (w <> t) as Hwt by (intros ->; simplify_eq; unfold halted in Hh; by rewrite H3 in Hh).
    assert (w <> u) as Hwu by (intros ->; simplify_eq; unfold halted in Hh; by rewrite H4 in Hh).
    exists (advance v j (advance u (k' (Some m)) (advance t (k true) n))). split.
    + eapply (moved_join_eq v _ s w); rewrite ?thread_other; done.
    + exists st, su, c, m, k, k', q. split; rewrite ?thread_other; try done.
      unfold advance. simpl. f_equal. rewrite !(list_insert_insert_ne _ v) by congruence. done.
Qed.

Lemma met_met_commute t u t' u' n n1 n2 :
  (t, u) <> (t', u') -> meets t u n n1 -> meets t' u' n n2 -> exists n3, meets t' u' n1 n3 /\ meets t u n2 n3.
Proof.
  intros Hne (st & su & c & m & k & k' & q & [H1 H2 H3 H4 [H5 H5'] H6 H7 H8 H9 ->])
    (st1 & su1 & c1 & m1 & k1 & k1' & q1 & [G1 G2 G3 G4 [G5 G5'] G6 G7 G8 G9 ->]).
  assert (t <> t') as Htt by (intros ->; simplify_eq; rewrite H3 in G3; simplify_eq; done).
  assert (u <> u') as Huu by (intros ->; simplify_eq; rewrite H4 in G4; simplify_eq; done).
  assert (t <> u') as Htu by (intros ->; simplify_eq; congruence). assert (t' <> u) as Hut by (intros ->; simplify_eq; congruence).
  exists (advance u (k' (Some m)) (advance t (k true) (advance u' (k1' (Some m1)) (advance t' (k1 true) n)))). split.
  - exists st1, su1, c1, m1, k1, k1', q1. split; rewrite ?thread_other; try done.
    unfold advance. simpl. f_equal. rewrite (list_insert_insert_ne _ t u'), (list_insert_insert_ne _ u u') by congruence. f_equal.
    by rewrite (list_insert_insert_ne _ t t'), (list_insert_insert_ne _ u t') by congruence.
  - exists st, su, c, m, k, k', q. split; rewrite ?thread_other; done.
Qed.

(** ** The diamond *)

Lemma net_diamond l1 l2 n n1 n2 : calls_owned n -> within n -> l1 <> l2 -> net_step l1 n = Some n1 -> net_step l2 n = Some n2 ->
  exists n3, net_step l2 n1 = Some n3 /\ net_step l1 n2 = Some n3.
Proof.
  intros Ho Hw Hne E1 E2. destruct l1 as [t|t u], l2 as [t'|t' u'];
    repeat match goal with
    | E : net_step (Go _) n = _ |- _ => apply go_moved in E; [|done]
    | E : net_step (Net.Meet _ _) n = _ |- _ => apply meet_meets in E; [|done]
    end.
  - destruct (moved_commute t t' n n1 n2) as (n3 & H1 & H2); [congruence|done..|]. eauto using moved_go.
  - destruct (met_moved_commute t' u' n n2 t n1) as (n3 & H1 & H2); [done..|]. eauto using moved_go, meets_meet.
  - destruct (met_moved_commute t u n n1 t' n2) as (n3 & H1 & H2); [done..|]. eauto using moved_go, meets_meet.
  - destruct (met_met_commute t u t' u' n n1 n2) as (n3 & H1 & H2); [congruence|done..|]. eauto using meets_meet.
Qed.

(** ** Runs *)

Lemma within_step l n n' : within n -> net_step l n = Some n' -> within n'.
Proof.
  intros Hw E. assert (forall c q q', n_chan n !! c = Some q -> zlen (q_buf q') <= room c -> forall t s, within (advance t s (set_queue c q' n))) as Hset.
  { intros c q q' Hq Hle t s d p Hp. simpl in Hp. destruct (decide (c = d)) as [<-|Hne].
    - rewrite list_lookup_insert_eq in Hp by (by eapply lookup_lt_Some). by simplify_eq.
    - rewrite list_lookup_insert_ne in Hp by done. by apply Hw. }
  assert (forall c q m b, n_chan n !! c = Some q -> q_buf q = m :: b -> zlen b <= room c) as Htl.
  { intros c q m b Hq Eb. specialize (Hw _ _ Hq). rewrite Eb, zlen_cons in Hw. lia. }
  destruct l as [t|t u]; simpl in E.
  - destruct (n_thread n !! t) as [s|]; [|done]. simpl in E. destruct (act t s) as [c m k|c k|c k|c k|u k|]; simpl in E; [| | | | |done].
    + destruct (n_chan n !! c) as [q|] eqn:Hq; [|done]. simpl in E. unfold send_to in E. destruct (q_closed q); simplify_eq; [done|].
      destruct (Z.ltb_spec (zlen (q_buf q)) (room c)); simplify_eq. eapply Hset; [done|]. simpl. rewrite zlen_app. change (zlen [m]) with 1. lia.
    + destruct (n_chan n !! c) as [q|] eqn:Hq; [|done]. simpl in E. unfold recv_from in E. destruct (q_buf q) eqn:Eb; [destruct (q_closed q); [by injection E as <-|done]|].
      simplify_eq. eapply Hset; eauto.
    + destruct (n_chan n !! c) as [q|] eqn:Hq; [|done]. simpl in E. unfold poll_from in E. destruct (q_buf q) eqn:Eb; simplify_eq; [done|]. eapply Hset; eauto.
    + destruct (n_chan n !! c) as [q|] eqn:Hq; [|done]. simplify_eq/=. eapply (Hset c q (mk_queue (q_buf q) true)); [done|]. exact (Hw c q Hq).
    + destruct (n_thread n !! u) as [su|]; [|done]. simpl in E. destruct (halted u su); [|done]. by simplify_eq.
  - unfold net_meet in E. destruct (n_thread n !! t); [|done]. destruct (n_thread n !! u); [|done]. simpl in E. repeat case_match; try done.
    destruct (n_chan n !! _) as [q|]; [|done]. simpl in E. case_match; [|done]. by simplify_eq.
Qed.

Lemma within_start chans ss : (forall c, 0 <= room c) -> within (net_start chans ss).
Proof. intros Hr c q Hq. simpl in Hq. apply lookup_replicate in Hq as [-> _]. apply Hr. Qed.

Context (P : net -> Prop).
Hypothesis P_step : forall l n n', P n -> net_step l n = Some n' -> P n'.
Hypothesis P_owned : forall n, P n -> calls_owned n.

(** A run that ends goes through every step that is possible. *)
Lemma run_through ks n nf l n1 :
  P n -> within n -> net_run ks n = Some nf -> (forall l, net_step l nf = None) -> net_step l n = Some n1 ->
  exists ks', net_run ks' n1 = Some nf /\ length ks = Datatypes.S (length ks').
Proof.
  intros HP Hw. revert n n1 HP Hw. induction ks as [|k ks IH]; intros n n1 HP Hw Hr Hst Hl; simpl in Hr; [simplify_eq; by rewrite Hst in Hl|].
  destruct (net_step k n) as [n2|] eqn:Hk; [|done]. simpl in Hr. destruct (label_eq_dec k l) as [->|Hne].
  - simplify_eq. by exists ks.
  - destruct (net_diamond k l n n2 n1 (P_owned _ HP) Hw Hne Hk Hl) as (n3 & H1 & H2).
    destruct (IH n2 n3) as (ks' & H3 & H4); eauto using within_step. exists (k :: ks'). simpl. rewrite H2. simpl. split; [done|]. lia.
Qed.

Lemma run_unique ks ls n nf m :
  P n -> within n -> net_run ks n = Some nf -> (forall l, net_step l nf = None) -> net_run ls n = Some m ->
  exists ks', net_run ks' m = Some nf /\ length ks = (length ls + length ks')%nat.
Proof.
  revert ks n. induction ls as [|l ls IH]; intros ks n HP Hw Hr Hst Hl; simpl in Hl; [simplify_eq; by exists ks|].
  destruct (net_step l n) as [n1|] eqn:E; [|done]. simpl in Hl.
  destruct (run_through ks n nf l n1 HP Hw Hr Hst E) as (k1 & H1 & H2).
  destruct (IH k1 n1) as (k2 & H3 & H4); eauto using within_step. exists k2. split; [done|]. simpl. lia.
Qed.
End deterministic.

Lemma all_halted_stuck {M S} `{Program M S} (n : @net M S) :
  (forall t s, n_thread n !! t = Some s -> halted t s = true) -> forall l, net_step l n = None.
Proof.
  intros Hh l. destruct l as [t|t u]; simpl; [|unfold net_meet]; (destruct (n_thread n !! t) as [s|] eqn:Hs; [|done]; simpl);
    specialize (Hh _ _ Hs); unfold halted in Hh.
  - by destruct (act t s).
  - destruct (n_thread n !! u); [|done]. simpl. by destruct (act t s).
Qed.

(** One run of the program over queues to its end, and every run on the code. *)
Lemma outcome_on_code {M S} `{Program M S} `{Malloc} (enc : M -> list byte) (dec : list byte -> option M) (elem cap : nat -> Z)
    (sender receiver : nat -> nat) (P : @net M S -> Prop) chans ss ks nf :
  (forall c, 0 <= Net.room c) -> (forall c, (c < chans)%nat -> sized elem cap c) -> Z.of_nat (length ss) < 2147483647 ->
  (forall l n n', P n -> net_step l n = Some n' -> P n') -> (forall n, P n -> calls_owned sender receiver n) ->
  (forall n, P n -> sends_copied enc dec n) -> (forall n, P n -> calls_fit enc elem chans n) -> P (net_start chans ss) ->
  net_run ks (net_start chans ss) = Some nf -> (forall t s, n_thread nf !! t = Some s -> halted t s = true) ->
  exists n0, cnet_start elem cap chans ss = Ret n0 /\ forall ls o, cnet_run enc dec ls n0 = Some o ->
  exists n, o = Ret n /\ (length ls <= (length ks + 1) * (2 * length ss + 1))%nat /\
    (cstuck enc dec n -> cn_thread n = (., false) <$> n_thread nf).
Proof.
  intros Hroom Hsz Hfew HPs HPo HPc HPf HP Hks Hend. pose proof (all_halted_stuck nf Hend) as Hst.
  destruct (program_on_code enc dec elem cap P HPs HPc chans ss Hroom Hsz Hfew HPf HP) as (n0 & E0 & Hrun).
  exists n0. split; [done|]. intros ls o E. destruct (Hrun ls o E) as (n & ks1 & n' & -> & Hks1 & Hok & Hag & Hlen & Hb & Hs).
  exists n. split; [done|].
  destruct (run_unique sender receiver P HPs HPo ks ks1 _ nf n' HP (within_start chans ss Hroom) Hks Hst Hks1) as (k2 & H2 & Hl).
  split; [nia|]. intros Hcs. destruct (Hs Hcs) as (S1 & S2 & S3). assert (n' = nf) as ->.
  { destruct k2 as [|k k2]; [by injection H2|]. simpl in H2. by rewrite S1 in H2. }
  by apply code_halted.
Qed.

(** ** Theorem *)

(** C26: A program whose channels each have one sending and one receiving thread has one
    outcome on the code of the library: if one schedule of it over plain queues
    returns from every thread, then under every schedule of calls and wake-ups no
    call is undefined or hangs, the run is at most a constant factor longer than
    that one, and where it stops every thread has returned in the same state. *)
Theorem one_outcome {M S} `{Program M S} `{Malloc} (enc : M -> list byte) (dec : list byte -> option M) (elem cap : nat -> Z)
    (sender receiver : nat -> nat) (P : @net M S -> Prop) chans ss ks nf
    (Hroom : forall c, 0 <= Net.room c) (Hsized : forall c, (c < chans)%nat -> sized elem cap c)
    (Hfew : Z.of_nat (length ss) < 2147483647)
    (Hstep : forall l n n', P n -> net_step l n = Some n' -> P n') (Howned : forall n, P n -> calls_owned sender receiver n)
    (Hcopied : forall n, P n -> sends_copied enc dec n) (Hfits : forall n, P n -> calls_fit enc elem chans n)
    (Hstart : P (net_start chans ss))
    (Hrun : net_run ks (net_start chans ss) = Some nf) (Hend : forall t s, n_thread nf !! t = Some s -> halted t s = true) :
  exists n0, cnet_start elem cap chans ss = Ret n0 /\ forall ls o, cnet_run enc dec ls n0 = Some o ->
  exists n, o = Ret n /\ (length ls <= (length ks + 1) * (2 * length ss + 1))%nat /\
    (cstuck enc dec n -> cn_thread n = (., false) <$> n_thread nf).
Proof. by apply (outcome_on_code enc dec elem cap sender receiver P). Qed.
