(* ===== verification/Pairs.v ===== *)
(** * Two threads: [examples/producer_consumer.c], [ping_pong.c], [ping_pong_buffered.c]

    Each channel of these examples has one sender and one receiver, so one schedule
    decides what they do ([NetDet]): the consumer gets every item in order, and every
    pong is the ping it answers, on rendezvous channels and through a window of
    buffered messages. *)

From S2P Require Import Prelude RingLf Heap ChanSpec Net NetHeap NetDet.
From stdpp Require Import list.
#[local] Open Scope Z_scope.

(** Every channel carries an [int]. *)
Definition int_elem (c : nat) : Z := 4.
Definition ok_int (c : nat) (m : Z) : Prop := is_int m.

Lemma int_sized `{Malloc} {S} `{!Program Z S} cap c :
  0 <= cap c <= 1024 -> Net.room c = (if cap c =? 0 then 0 else next_pow2 (cap c)) -> (0 < cap c -> malloc (next_pow2 (cap c) * 4) <> None) -> sized int_elem cap c.
Proof.
  intros Hc Hr Hm. split; [done|lia| |done|done]. unfold int_elem, two64.
  destruct (Z.eq_dec (cap c) 0) as [->|]; [done|]. destruct (next_pow2_ok (cap c)) as (k & Hk & -> & Hb); lia.
Qed.

(** From the creation of the channels on, under every schedule: no call is undefined
    or hangs, at most [bound] steps are made, and where nothing moves any more the
    threads have returned in the states [final]. *)
Definition always_ends {S} `{Program Z S} `{Malloc} (cap : nat -> Z) (chans : nat) (ss : list S) (bound : Z) (final : list S) : Prop :=
  exists n0, cnet_start int_elem cap chans ss = Ret n0 /\ forall ls o, cnet_run enc_int dec_int ls n0 = Some o ->
  exists n, o = Ret n /\ zlen ls <= bound /\ (cstuck enc_int dec_int n -> cn_thread n = (., false) <$> final).

(** What the threads of such a program keep to, and its outcome. *)
Section int_programs.
Context {S : Type} `{Program Z S} `{Malloc} (okt : nat -> S -> Prop) (sender receiver : nat -> nat) (chans : nat).

Definition keeps_to (t : nat) (s : S) : Prop :=
  obeys okt ok_int t (act t s) /\ owned sender receiver t (act t s) /\ call_fits enc_int int_elem chans (act t s).
Hypothesis kept : forall t s, okt t s -> keeps_to t s.

Lemma ints_copied n : locally okt ok_int n -> sends_copied enc_int dec_int n.
Proof. intros Hl t s c m k Hs Ha. destruct (kept _ _ (lc_thread _ _ _ Hl _ _ Hs)) as [Ho _]. rewrite Ha in Ho. by apply dec_enc_int, Ho. Qed.

Lemma ints_outcome cap ss ks nf :
  (forall c, 0 <= Net.room c) -> (forall c, (c < chans)%nat -> sized int_elem cap c) -> Z.of_nat (length ss) < 2147483647 ->
  (forall t s, ss !! t = Some s -> okt t s) ->
  net_run ks (net_start chans ss) = Some nf -> (forall t s, n_thread nf !! t = Some s -> halted t s = true) ->
  always_ends cap chans ss ((zlen ks + 1) * (2 * zlen ss + 1)) (n_thread nf).
Proof.
  intros Hroom Hsz Hfew Hss Hks Hend.
  destruct (outcome_on_code enc_int dec_int int_elem cap sender receiver (locally okt ok_int) chans ss ks nf) as (n0 & E0 & Hrun); try done.
  - apply locally_step. intros t s Hs. by apply kept.
  - intros n Hl t s Hs. by apply kept, (lc_thread _ _ _ Hl).
  - apply ints_copied.
  - intros n Hl t s Hs. by apply kept, (lc_thread _ _ _ Hl).
  - by apply locally_start.
  - exists n0. split; [done|]. intros ls o E. destruct (Hrun ls o E) as (n & -> & Hl & Hs). exists n. split; [done|]. split; [|done].
    unfold zlen. lia.
Qed.
End int_programs.

(** ** Producer and consumer *)

Module PC.
Definition N_ITEMS : Z := 5.

(** [main] with the items it has printed; [producer]. *)
Inductive pc_state :=
| Consume (got : list Z) | Joining (got : list Z) | Consumed (got : list Z)
| Produce (i : Z) | Produced.

(** Thread 0 is [main], thread 1 [producer]. *)
Definition pc_main (got : list Z) : action Z pc_state :=
  ARecv 0 (fun m => match m with Some v => Consume (got ++ [v]) | None => Joining got end).
Definition producer (i : Z) : action Z pc_state :=
  if i <? N_ITEMS then ASend 0 i (fun _ => Produce (i + 1)) else AClose 0 Produced.

#[global] Instance pc_prog : Program Z pc_state := {
  act t s := match s with
    | Consume got => pc_main got
    | Joining got => AJoin 1 (Consumed got)
    | Produce i => producer i
    | Consumed _ | Produced => AHalt
    end;
  room c := next_pow2 2
}.
Definition pc_cap (c : nat) : Z := 2.
Definition pc_start : list pc_state := [Consume []; Produce 0].

Definition okt (t : nat) (s : pc_state) : Prop :=
  match t, s with
  | 0%nat, (Consume _ | Joining _ | Consumed _) => True
  | 1%nat, Produce i => 0 <= i <= N_ITEMS
  | 1%nat, Produced => True
  | _, _ => False
  end.

Lemma pc_keeps t s : okt t s -> keeps_to okt (fun _ => 1%nat) (fun _ => 0%nat) 1 t s.
Proof.
  unfold keeps_to. destruct t as [|[|t]]; destruct s as [got|got|got|i|]; simpl; try done; intros Hi.
  - split; [done|]. split; [done|lia].
  - unfold producer, N_ITEMS in *. destruct (Z.ltb_spec i 5); simpl; [|auto with lia].
    split; [|by auto with lia]. split; [unfold ok_int, is_int; lia|]. intros _. unfold N_ITEMS. lia.
Qed.

(** The items one at a time. *)
Definition pc_sched : list label := concat (replicate 5 [Go 1; Go 0]) ++ [Go 1; Go 0; Go 0].
Definition pc_end : @net Z pc_state := mk_net [mk_queue [] true] [Consumed [0; 1; 2; 3; 4]; Produced].

Lemma pc_run : net_run pc_sched (net_start 1 pc_start) = Some pc_end.
Proof. vm_compute. reflexivity. Qed.

Lemma pc_correct `{Malloc} : malloc 8 <> None -> always_ends pc_cap 1 pc_start 70 [Consumed [0; 1; 2; 3; 4]; Produced].
Proof.
  intros Hm. apply (ints_outcome okt _ _ _ pc_keeps pc_cap pc_start pc_sched pc_end); try apply pc_run; try done.
  - by intros [|[|t]] s Hs; simplify_eq/=.
  - by intros [|[|t]] s Hs; simplify_eq/=.
Qed.
End PC.

(** ** Ping-pong over rendezvous channels *)

Module PP.
Definition PP_ROUNDS : Z := 200000.

(** [main] before a send and before a receive, with the pongs it has received, and
    at its end; [ponger] before a receive, before a send, and out of its loop. *)
Inductive pp_state :=
| Ping (i v : Z) (pongs : list Z) | Pong (i v : Z) (pongs : list Z) | Finished (pongs : list Z)
| PRecv (i : Z) | PSend (i v : Z) | PBreak.

(** Channel 0 is [ping], channel 1 [pong]. *)
Definition pp_main (s : pp_state) : action Z pp_state :=
  match s with
  | Ping i v pongs => if i <? PP_ROUNDS then ASend 0 v (fun _ => Pong i v pongs) else AJoin 1 (Finished pongs)
  | Pong i v pongs => ARecv 1 (fun m => Ping (i + 1) (v + 1) (pongs ++ option_list m))
  | _ => AHalt
  end.
Definition pp_ponger (s : pp_state) : action Z pp_state :=
  match s with
  | PRecv i => if i <? PP_ROUNDS then ARecv 0 (fun m => match m with Some v => PSend i v | None => PBreak end) else AHalt
  | PSend i v => ASend 1 v (fun _ => PRecv (i + 1))
  | _ => AHalt
  end.

#[global] Instance pp_prog : Program Z pp_state := {
  act t s := if (t =? 0)%nat then pp_main s else pp_ponger s;
  room c := 0
}.
Definition pp_cap (c : nat) : Z := 0.
Definition pp_start : list pp_state := [Ping 0 0 []; PRecv 0].

Definition okt (t : nat) (s : pp_state) : Prop :=
  match t, s with
  | 0%nat, Ping i v _ => v = i /\ 0 <= i <= PP_ROUNDS
  | 0%nat, Pong i v _ => v = i /\ 0 <= i < PP_ROUNDS
  | 0%nat, Finished _ | 1%nat, (PRecv _ | PBreak) => True
  | 1%nat, PSend _ v => is_int v
  | _, _ => False
  end.
Definition sends (c : nat) : nat := c.
Definition receives (c : nat) : nat := (1 - c)%nat.

Lemma pp_keeps t s : okt t s -> keeps_to okt sends receives 2 t s.
Proof.
  unfold keeps_to, PP_ROUNDS. destruct t as [|[|t]]; destruct s as [i v l|i v l|l|i|i v|]; simpl; try done; intros Hi.
  - destruct Hi as [-> Hi]. unfold PP_ROUNDS in *. destruct (Z.ltb_spec i 200000); simpl; [|done].
    split; [|by auto with lia]. split; [unfold ok_int, is_int; lia|]. intros _. unfold PP_ROUNDS. lia.
  - destruct Hi as [-> Hi]. unfold PP_ROUNDS in *. split; [|by auto with lia]. split; [lia|]. intros m _. lia.
  - destruct (i <? PP_ROUNDS); simpl; [|done]. split; [|by auto with lia]. split; [done|]. intros m Hm. done.
  - split; [|by auto with lia]. done.
Qed.

(** A round trip is two meetings. *)
Definition quiet : list (queue Z) := [mk_queue [] false; mk_queue [] false].
Definition at_round (i : Z) : @net Z pp_state := mk_net quiet [Ping i i (seqZ 0 i); PRecv i].
Definition pp_round : list label := [Net.Meet 0 1; Net.Meet 1 0].

Lemma pp_round_run i : 0 <= i < PP_ROUNDS -> net_run pp_round (at_round i) = Some (at_round (i + 1)).
Proof.
  intros Hi. unfold at_round. rewrite (seqZ_app 0 i 1) by lia. cbn [net_run pp_round net_step]. unfold net_meet. cbn [n_thread lookup list_lookup mbind option_bind].
  cbn [act pp_prog Nat.eqb pp_main pp_ponger]. rewrite (proj2 (Z.ltb_lt _ _)) by lia. reflexivity.
Qed.

Definition pp_sched : list label := again (Z.to_nat PP_ROUNDS) pp_round ++ [Go 0].
Definition pp_end : @net Z pp_state := mk_net quiet [Finished (seqZ 0 PP_ROUNDS); PRecv PP_ROUNDS].

Lemma pp_run : net_run pp_sched (net_start 2 pp_start) = Some pp_end.
Proof.
  assert (forall k, 0 <= k <= PP_ROUNDS -> net_run (again (Z.to_nat k) pp_round) (at_round 0) = Some (at_round k)) as Hk.
  { intros k Hk. replace k with (0 + Z.of_nat (Z.to_nat k)) at 2 by lia. apply (net_run_again at_round). intros i Hi. apply pp_round_run. lia. }
  change (net_start 2 pp_start) with (at_round 0). unfold pp_sched. apply (net_run_app _ _ _ (at_round PP_ROUNDS)); [apply Hk; unfold PP_ROUNDS; lia|].
  unfold at_round, pp_end. cbn [net_run net_step n_thread lookup list_lookup mbind option_bind act pp_prog Nat.eqb pp_main].
  rewrite Z.ltb_irrefl. cbn [net_go n_thread lookup list_lookup mbind option_bind]. unfold halted. cbn [act pp_prog Nat.eqb pp_ponger].
  by rewrite Z.ltb_irrefl.
Qed.

Lemma pp_halted t s : n_thread pp_end !! t = Some s -> halted t s = true.
Proof.
  unfold pp_end, halted. cbn [n_thread]. destruct t as [|[|t]]; cbn [lookup list_lookup]; intros Hs; simplify_eq; [done|].
  cbn [act pp_prog Nat.eqb pp_ponger]. by rewrite Z.ltb_irrefl.
Qed.

Lemma pp_correct `{Malloc} : always_ends pp_cap 2 pp_start 2000010 [Finished (seqZ 0 PP_ROUNDS); PRecv PP_ROUNDS].
Proof.
  replace 2000010 with ((zlen pp_sched + 1) * (2 * zlen pp_start + 1)).
  - apply (ints_outcome okt _ _ _ pp_keeps pp_cap pp_start pp_sched pp_end).
    + done.
    + intros c _. by apply int_sized.
    + done.
    + by intros [|[|t]] s Hs; simplify_eq/=.
    + apply pp_run.
    + apply pp_halted.
  - unfold pp_sched, zlen. rewrite length_app, length_again. simpl length. unfold PP_ROUNDS. lia.
Qed.
End PP.

(** ** Ping-pong through a window *)

Module PB.
Definition PB_ROUNDS : Z := 2000000.
Definition WINDOW : Z := 64.

(** [main] filling the window, before a receive and before a send of its loop,
    draining, at its end; [ponger] as above. *)
Inductive pb_state :=
| Fill (i v : Z) | Pong (i v : Z) (pongs : list Z) | Refill (i v : Z) (pongs : list Z) | Drain (i : Z) (pongs : list Z)
| Finished (pongs : list Z)
| PRecv (i : Z) | PSend (i v : Z) | PBreak.

Definition pb_drain (i : Z) (pongs : list Z) : action Z pb_state :=
  if i <? WINDOW then ARecv 1 (fun m => Drain (i + 1) (pongs ++ option_list m)) else AJoin 1 (Finished pongs).
Definition pb_loop (i v : Z) (pongs : list Z) : action Z pb_state :=
  if i <? PB_ROUNDS then ARecv 1 (fun m => Refill i v (pongs ++ option_list m)) else pb_drain 0 pongs.
Definition pb_main (s : pb_state) : action Z pb_state :=
  match s with
  | Fill i v => if i <? WINDOW then ASend 0 v (fun _ => Fill (i + 1) (v + 1)) else pb_loop 0 v []
  | Pong i v pongs => pb_loop i v pongs
  | Refill i v pongs => ASend 0 v (fun _ => Pong (i + 1) (v + 1) pongs)
  | Drain i pongs => pb_drain i pongs
  | _ => AHalt
  end.
Definition pb_ponger (s : pb_state) : action Z pb_state :=
  match s with
  | PRecv i => if i <? PB_ROUNDS + WINDOW then ARecv 0 (fun m => match m with Some v => PSend i v | None => PBreak end) else AHalt
  | PSend i v => ASend 1 v (fun _ => PRecv (i + 1))
  | _ => AHalt
  end.

#[global] Instance pb_prog : Program Z pb_state := {
  act t s := if (t =? 0)%nat then pb_main s else pb_ponger s;
  room c := next_pow2 WINDOW
}.
Definition pb_cap (c : nat) : Z := WINDOW.
Definition pb_start : list pb_state := [Fill 0 0; PRecv 0].

Definition okt (t : nat) (s : pb_state) : Prop :=
  match t, s with
  | 0%nat, Fill i v => v = i /\ 0 <= i <= WINDOW
  | 0%nat, Pong i v _ => v = i + WINDOW /\ 0 <= i <= PB_ROUNDS
  | 0%nat, Refill i v _ => v = i + WINDOW /\ 0 <= i < PB_ROUNDS
  | 0%nat, Drain i _ => 0 <= i
  | 0%nat, Finished _ | 1%nat, (PRecv _ | PBreak) => True
  | 1%nat, PSend _ v => is_int v
  | _, _ => False
  end.

Lemma drain_keeps i l : 0 <= i ->
  obeys okt ok_int 0 (pb_drain i l) /\ owned PP.sends PP.receives 0 (pb_drain i l) /\ call_fits enc_int int_elem 2 (pb_drain i l).
Proof. intros Hi. unfold pb_drain. destruct (i <? WINDOW); simpl; auto with lia. Qed.
Lemma loop_keeps i v l : v = i + WINDOW -> 0 <= i <= PB_ROUNDS ->
  obeys okt ok_int 0 (pb_loop i v l) /\ owned PP.sends PP.receives 0 (pb_loop i v l) /\ call_fits enc_int int_elem 2 (pb_loop i v l).
Proof. intros -> Hi. unfold pb_loop. destruct (Z.ltb_spec i PB_ROUNDS); [simpl; auto 8 with lia|]. by apply drain_keeps. Qed.

Lemma pb_keeps t s : okt t s -> keeps_to okt PP.sends PP.receives 2 t s.
Proof.
  unfold keeps_to. destruct t as [|[|t]]; destruct s as [i v|i v l|i v l|i l|l|i|i v|]; try done; intros Hi; cbn [act pb_prog Nat.eqb pb_main pb_ponger].
  - destruct Hi as [-> Hi]. destruct (Z.ltb_spec i WINDOW); [|apply loop_keeps; unfold PB_ROUNDS; lia].
    split; [|simpl; auto with lia]. split; [unfold ok_int, is_int, WINDOW in *; lia|]. intros _. simpl. lia.
  - destruct Hi. by apply loop_keeps.
  - destruct Hi as [-> Hi]. split; [|simpl; auto with lia]. split; [unfold ok_int, is_int, WINDOW, PB_ROUNDS in *; lia|]. intros _. simpl. lia.
  - by apply drain_keeps.
  - destruct (i <? PB_ROUNDS + WINDOW); simpl; auto with lia.
  - simpl. auto with lia.
Qed.

(** The window is filled; every round has one message answered and one sent; the
    window is drained. *)
Definition filling (i : Z) : @net Z pb_state := mk_net [mk_queue (seqZ 0 i) false; mk_queue [] false] [Fill i i; PRecv 0].
Definition at_round (i : Z) : @net Z pb_state :=
  mk_net [mk_queue (seqZ i WINDOW) false; mk_queue [] false] [Pong i (i + WINDOW) (seqZ 0 i); PRecv i].
Definition draining (i : Z) : @net Z pb_state :=
  mk_net [mk_queue (seqZ (PB_ROUNDS + i) (WINDOW - i)) false; mk_queue [] false] [Drain i (seqZ 0 (PB_ROUNDS + i)); PRecv (PB_ROUNDS + i)].

Lemma fill_run i : 0 <= i < WINDOW -> net_run [Go 0] (filling i) = Some (filling (i + 1)).
Proof.
  intros Hi. unfold filling. cbn [net_run net_step n_thread lookup list_lookup mbind option_bind act pb_prog Nat.eqb pb_main].
  rewrite (proj2 (Z.ltb_lt _ _)) by lia. cbn [net_go n_chan lookup list_lookup mbind option_bind]. unfold send_to. cbn [q_closed q_buf].
  rewrite (proj2 (Z.ltb_lt _ _)).
  - cbn [mbind option_bind]. rewrite (seqZ_app 0 i 1) by lia. reflexivity.
  - unfold zlen. rewrite length_seqZ. change (room 0) with 64. unfold WINDOW in Hi. lia.
Qed.

(** The ponger answers the first message of the window. *)
Lemma echo_run i b m : 0 <= i < PB_ROUNDS + WINDOW ->
  net_run [Go 1; Go 1] (mk_net [mk_queue (i :: b) false; mk_queue [] false] [m; PRecv i]) =
  Some (mk_net [mk_queue b false; mk_queue [i] false] [m; PRecv (i + 1)]).
Proof.
  intros Hi. cbn [net_run net_step n_thread lookup list_lookup mbind option_bind act pb_prog Nat.eqb pb_ponger].
  rewrite (proj2 (Z.ltb_lt _ _)) by lia. reflexivity.
Qed.

Definition round : list label := [Go 1; Go 1] ++ [Go 0; Go 0].
Lemma round_run i m : pb_main m = pb_loop i (i + WINDOW) (seqZ 0 i) -> 0 <= i < PB_ROUNDS ->
  net_run round (mk_net [mk_queue (seqZ i WINDOW) false; mk_queue [] false] [m; PRecv i]) = Some (at_round (i + 1)).
Proof.
  intros Hm Hi. rewrite (seqZ_cons i) by done. eapply net_run_app; [apply echo_run; unfold WINDOW; lia|].
  cbn [net_run net_step n_thread lookup list_lookup mbind option_bind act pb_prog Nat.eqb]. rewrite Hm. unfold pb_loop.
  rewrite (proj2 (Z.ltb_lt _ _)) by lia. cbn [net_go n_chan n_thread lookup list_lookup mbind option_bind recv_from q_buf q_closed advance set_queue
    insert list_insert pb_main]. unfold send_to. cbn [q_closed q_buf]. rewrite (proj2 (Z.ltb_lt _ _)).
  - cbn [option_list]. unfold at_round, advance, set_queue. cbn [n_chan n_thread insert list_insert]. rewrite (seqZ_app 0 i 1) by lia.
    replace (Z.pred WINDOW) with (WINDOW - 1) by lia. replace (seqZ (i + 1) WINDOW) with (seqZ (Z.succ i) (WINDOW - 1) ++ [i + WINDOW]).
    + replace (i + 1 + WINDOW) with (i + WINDOW + 1) by lia. reflexivity.
    + replace WINDOW with (WINDOW - 1 + 1) at 3 by lia. rewrite (seqZ_app (i + 1) (WINDOW - 1) 1) by (unfold WINDOW; lia).
      replace (i + 1 + (WINDOW - 1)) with (i + WINDOW) by lia. done.
  - unfold zlen. rewrite length_seqZ. done.
Qed.

Definition drain : list label := [Go 1; Go 1] ++ [Go 0].
Lemma drain_run i m : pb_main m = pb_drain i (seqZ 0 (PB_ROUNDS + i)) -> 0 <= i < WINDOW ->
  net_run drain (mk_net [mk_queue (seqZ (PB_ROUNDS + i) (WINDOW - i)) false; mk_queue [] false] [m; PRecv (PB_ROUNDS + i)]) = Some (draining (i + 1)).
Proof.
  intros Hm Hi. rewrite (seqZ_cons (PB_ROUNDS + i)) by lia. eapply net_run_app; [apply echo_run; unfold PB_ROUNDS; lia|].
  cbn [net_run net_step n_thread lookup list_lookup mbind option_bind act pb_prog Nat.eqb]. rewrite Hm. unfold pb_drain.
  rewrite (proj2 (Z.ltb_lt _ _)) by lia. cbn [net_go n_chan lookup list_lookup mbind option_bind recv_from q_buf q_closed advance set_queue].
  unfold draining, recv_from, advance, set_queue. cbn [q_buf q_closed n_chan n_thread insert list_insert option_list mbind option_bind].
  replace (Z.pred (WINDOW - i)) with (WINDOW - (i + 1)) by lia. replace (Z.succ (PB_ROUNDS + i)) with (PB_ROUNDS + (i + 1)) by lia.
  replace (PB_ROUNDS + i + 1) with (PB_ROUNDS + (i + 1)) by lia. replace (seqZ 0 (PB_ROUNDS + (i + 1))) with (seqZ 0 (PB_ROUNDS + i) ++ [PB_ROUNDS + i]); [done|].
  rewrite (Z.add_assoc PB_ROUNDS i 1), (seqZ_app 0 (PB_ROUNDS + i) 1) by (unfold PB_ROUNDS; lia). done.
Qed.

Definition pb_sched : list label :=
  again 64 [Go 0] ++ round ++ again (Z.to_nat (PB_ROUNDS - 1)) round ++ drain ++ again 63 drain ++ [Go 0].
Definition pb_end : @net Z pb_state :=
  mk_net [mk_queue [] false; mk_queue [] false] [Finished (seqZ 0 (PB_ROUNDS + WINDOW)); PRecv (PB_ROUNDS + WINDOW)].

Lemma pb_run : net_run pb_sched (net_start 2 pb_start) = Some pb_end.
Proof.
  change (net_start 2 pb_start) with (filling 0). unfold pb_sched.
  apply (net_run_app _ _ _ (filling (0 + Z.of_nat 64))); [apply (net_run_again filling); intros i Hi; apply fill_run; unfold WINDOW; lia|].
  apply (net_run_app _ _ _ (at_round (0 + 1))); [apply (round_run 0 (Fill 64 64)); [done|unfold PB_ROUNDS; lia]|].
  apply (net_run_app _ _ _ (at_round PB_ROUNDS)).
  { assert (forall k, 0 <= k -> 1 + k <= PB_ROUNDS -> net_run (again (Z.to_nat k) round) (at_round 1) = Some (at_round (1 + k))) as Hk.
    { intros k H1 H2. replace (1 + k) with (1 + Z.of_nat (Z.to_nat k)) by lia. apply (net_run_again at_round). intros i Hi. apply (round_run i (Pong i (i + WINDOW) (seqZ 0 i))); [done|lia]. }
    replace PB_ROUNDS with (1 + (PB_ROUNDS - 1)) at 2 by lia. apply Hk; unfold PB_ROUNDS; lia. }
  apply (net_run_app _ _ _ (draining (0 + 1))).
  { assert (at_round PB_ROUNDS = mk_net [mk_queue (seqZ (PB_ROUNDS + 0) (WINDOW - 0)) false; mk_queue [] false]
      [Pong PB_ROUNDS (PB_ROUNDS + WINDOW) (seqZ 0 PB_ROUNDS); PRecv (PB_ROUNDS + 0)]) as -> by (by rewrite Z.add_0_r, Z.sub_0_r).
    apply drain_run; [|unfold WINDOW; lia]. cbn [pb_main]. unfold pb_loop. by rewrite Z.ltb_irrefl, Z.add_0_r. }
  apply (net_run_app _ _ _ (draining (1 + Z.of_nat 63))).
  { apply (net_run_again draining). intros i Hi. apply (drain_run i (Drain i (seqZ 0 (PB_ROUNDS + i)))); [done|unfold WINDOW; lia]. }
  change (1 + Z.of_nat 63) with WINDOW. unfold draining. rewrite Z.sub_diag, seqZ_nil by lia.
  cbn [net_run net_step n_thread lookup list_lookup mbind option_bind act pb_prog Nat.eqb pb_main]. unfold pb_drain. rewrite Z.ltb_irrefl.
  cbn [net_go n_thread lookup list_lookup mbind option_bind]. unfold halted. cbn [act pb_prog Nat.eqb pb_ponger]. by rewrite Z.ltb_irrefl.
Qed.

Lemma pb_halted t s : n_thread pb_end !! t = Some s -> halted t s = true.
Proof.
  unfold pb_end, halted. cbn [n_thread]. destruct t as [|[|t]]; cbn [lookup list_lookup]; intros Hs; simplify_eq; [done|].
  cbn [act pb_prog Nat.eqb pb_ponger]. by rewrite Z.ltb_irrefl.
Qed.

Lemma pb_correct `{Malloc} : malloc 256 <> None ->
  always_ends pb_cap 2 pb_start 40001290 [Finished (seqZ 0 (PB_ROUNDS + WINDOW)); PRecv (PB_ROUNDS + WINDOW)].
Proof.
  intros Hm. replace 40001290 with ((zlen pb_sched + 1) * (2 * zlen pb_start + 1)).
  - apply (ints_outcome okt _ _ _ pb_keeps pb_cap pb_start pb_sched pb_end).
    + done.
    + intros c _. by apply int_sized.
    + done.
    + by intros [|[|t]] s Hs; simplify_eq/=.
    + apply pb_run.
    + apply pb_halted.
  - unfold pb_sched, zlen. rewrite !length_app, !length_again. simpl length. unfold PB_ROUNDS. lia.
Qed.
End PB.

(** ** Theorem *)

(** C27: The examples of two threads on the code of the library, under every schedule:
    nothing is undefined, hangs or deadlocks and every run is finite.  In
    producer_consumer.c the consumer prints the five items in order; in ping_pong.c
    every one of the 200000 pongs is the ping it answers; in ping_pong_buffered.c,
    with 64 messages in flight, so is every one of the 2000064.  Each thread returns. *)
Theorem pairs_outcome `{Malloc} (Hitems : malloc 8 <> None) (Hwindow : malloc 256 <> None) :
  always_ends PC.pc_cap 1 PC.pc_start 70 [PC.Consumed [0; 1; 2; 3; 4]; PC.Produced] /\
  always_ends PP.pp_cap 2 PP.pp_start 2000010 [PP.Finished (seqZ 0 PP.PP_ROUNDS); PP.PRecv PP.PP_ROUNDS] /\
  always_ends PB.pb_cap 2 PB.pb_start 40001290
    [PB.Finished (seqZ 0 (PB.PB_ROUNDS + PB.WINDOW)); PB.PRecv (PB.PB_ROUNDS + PB.WINDOW)].
Proof. split; [by apply PC.pc_correct|]. split; [apply PP.pp_correct|by apply PB.pb_correct]. Qed.

(** A rendezvous of the ping-pong: the ponger blocks, the ping reaches it. *)
Lemma pairs_outcome_witness :
  match @cnet_start _ int_elem PP.pp_cap malloc_ex 2 PP.pp_start with
  | Ret n0 => match cnet_run enc_int dec_int [Call 1; Call 0; Resume 1] n0 with Some (Ret n) => cn_thread n | _ => [] end
  | _ => []
  end = [(PP.Pong 0 0 [], false); (PP.PSend 0 0, false)] /\
  @always_ends _ _ malloc_ex PC.pc_cap 1 PC.pc_start 70 [PC.Consumed [0; 1; 2; 3; 4]; PC.Produced] /\
  @always_ends _ _ malloc_ex PP.pp_cap 2 PP.pp_start 2000010 [PP.Finished (seqZ 0 PP.PP_ROUNDS); PP.PRecv PP.PP_ROUNDS] /\
  @always_ends _ _ malloc_ex PB.pb_cap 2 PB.pb_start 40001290
    [PB.Finished (seqZ 0 (PB.PB_ROUNDS + PB.WINDOW)); PB.PRecv (PB.PB_ROUNDS + PB.WINDOW)].
Proof. split; [vm_compute; reflexivity|]. apply (@pairs_outcome malloc_ex); vm_compute; discriminate. Defined.

(** The producer and the consumer have one outcome. *)
Lemma one_outcome_witness :
  exists n0, @cnet_start _ int_elem PC.pc_cap malloc_ex 1 PC.pc_start = Ret n0 /\ forall ls o, cnet_run enc_int dec_int ls n0 = Some o ->
  exists n, o = Ret n /\ (length ls <= (length PC.pc_sched + 1) * (2 * length PC.pc_start + 1))%nat /\
    (cstuck enc_int dec_int n -> cn_thread n = (., false) <$> n_thread PC.pc_end).
Proof.
  apply (@one_outcome _ _ PC.pc_prog malloc_ex enc_int dec_int int_elem PC.pc_cap (fun _ => 1%nat) (fun _ => 0%nat)
    (locally PC.okt ok_int) 1 PC.pc_start PC.pc_sched PC.pc_end).
  - intros c. vm_compute. discriminate.
  - intros c _. apply (@int_sized malloc_ex); vm_compute; [split; discriminate|reflexivity|discriminate].
  - reflexivity.
  - apply locally_step. intros t s Hs. apply (PC.pc_keeps t s Hs).
  - intros n Hl t s Hs. apply (PC.pc_keeps t s (lc_thread _ _ _ Hl t s Hs)).
  - exact (ints_copied PC.okt _ _ _ PC.pc_keeps).
  - intros n Hl t s Hs. apply (PC.pc_keeps t s (lc_thread _ _ _ Hl t s Hs)).
  - apply locally_start. intros [|[|t]] s Hs; simplify_eq/=; done.
  - reflexivity.
  - intros [|[|t]] s Hs; simplify_eq/=; done.
Defined.
