(* ===== verification/FanIn.v ===== *)
(** * Fan-in: [examples/multi_recv_fanin.c]

    Four sources send over channels of their own; a feeder per source forwards what
    it receives, tagged with the source, to one channel, and an end marker when its
    source closes; [main] receives until it has seen the markers of all.  On the
    code of the library and under every schedule [main] receives from each source
    exactly what it sent, in its order and then its marker, and every thread returns. *)

From S2P Require Import Prelude RingLf Heap ChanSpec Net NetHeap.
From stdpp Require Import list.
#[local] Open Scope Z_scope.

Definition N_SOURCES : nat := 4.
Definition N_PER_SOURCE : Z := 5.

(** An [int], and [msg_t]. *)
Inductive fan_msg := Val (v : Z) | Msg (src val : Z).
#[export] Instance fan_msg_eq_dec : EqDecision fan_msg.
Proof. solve_decision. Defined.

Definition fan_enc (m : fan_msg) : list byte := match m with Val v => enc_int v | Msg s v => enc_int s ++ enc_int v end.
Definition fan_dec (l : list byte) : option fan_msg :=
  if decide (length l = 4%nat) then Val <$> dec_int l
  else s ← dec_int (take 4 l); v ← dec_int (drop 4 l); Some (Msg s v).

(** ** The threads *)

(** [main] in its loop with what it has received, about to close the channel, and
    joining; [MStray]: it read what is no [msg_t]. *)
Inductive fan_main_state :=
| MRecv (closed total : Z) (log : list fan_msg) | MClose (total : Z) (log : list fan_msg)
| MJoin (j : nat) (total : Z) (log : list fan_msg) | MStray.
Inductive source_state := SSend (i : Z) | SDone.
Inductive feeder_state := FRecv | FSend (v : Z) | FEnd | FDone | FStray.
Inductive fan_state := Main (m : fan_main_state) | Source (s : source_state) | Feeder (f : feeder_state).

(** Channel [i] is that of source [i], channel 4 the aggregation channel; thread 0
    is [main], 1 to 4 are the sources, 5 to 8 the feeders. *)
Definition source_sender (id : nat) (s : source_state) : action fan_msg fan_state :=
  match s with
  | SSend i =>
      if i <? N_PER_SOURCE then ASend id (Val (Z.of_nat id * 100 + i)) (fun _ => Source (SSend (i + 1)))
      else AClose id (Source SDone)
  | SDone => AHalt
  end.

Definition feeder (id : nat) (f : feeder_state) : action fan_msg fan_state :=
  match f with
  | FRecv => ARecv id (fun m => match m with
                                | Some (Val v) => Feeder (FSend v)
                                | Some (Msg _ _) => Feeder FStray
                                | None => Feeder FEnd
                                end)
  | FSend v => ASend N_SOURCES (Msg (Z.of_nat id) v) (fun _ => Feeder FRecv)
  | FEnd => ASend N_SOURCES (Msg (-1) (Z.of_nat id)) (fun _ => Feeder FDone)
  | FDone | FStray => AHalt
  end.

(** The loops over the threads join a source and a feeder at a time. *)
Definition joined (j : nat) : nat := if Nat.even j then (1 + j / 2)%nat else (1 + N_SOURCES + j / 2)%nat.
Definition join_act (j : nat) (total : Z) (log : list fan_msg) : action fan_msg fan_state :=
  if (j <? 2 * N_SOURCES)%nat then AJoin (joined j) (Main (MJoin (S j) total log)) else AHalt.

Definition fan_main (m : fan_main_state) : action fan_msg fan_state :=
  match m with
  | MRecv closed total log =>
      if closed <? Z.of_nat N_SOURCES then
        ARecv N_SOURCES (fun m =>
          match m with
          | Some (Msg src val) =>
              let log := log ++ [Msg src val] in
              if src =? -1 then
                if closed + 1 =? Z.of_nat N_SOURCES then Main (MClose total log) else Main (MRecv (closed + 1) total log)
              else Main (MRecv closed (total + 1) log)
          | Some (Val _) => Main MStray
          | None => Main (MJoin 0 total log)
          end)
      else join_act 0 total log
  | MClose total log => AClose N_SOURCES (Main (MJoin 0 total log))
  | MJoin j total log => join_act j total log
  | MStray => AHalt
  end.

#[export] Instance fan_in : Program fan_msg fan_state := {
  act t s := match s with
    | Main m => fan_main m
    | Source s => source_sender (t - 1) s
    | Feeder f => feeder (t - 1 - N_SOURCES) f
    end;
  room c := next_pow2 (if (c <? N_SOURCES)%nat then 4 else 16)
}.
Definition fan_elem (c : nat) : Z := if (c <? N_SOURCES)%nat then 4 else 8.
Definition fan_cap (c : nat) : Z := if (c <? N_SOURCES)%nat then 4 else 16.
Definition fan_start : list fan_state :=
  Main (MRecv 0 0 []) :: replicate N_SOURCES (Source (SSend 0)) ++ replicate N_SOURCES (Feeder FRecv).

(** ** What is received *)

(** The source a message comes from, an end marker, and what source [i] sends. *)
Definition owner (m : fan_msg) : Z := match m with Msg s v => if s =? -1 then v else s | Val _ => -1 end.
Definition is_end (m : fan_msg) : Prop := match m with Msg s _ => s = -1 | Val _ => False end.
#[export] Instance is_end_dec m : Decision (is_end m).
Proof. unfold is_end. destruct m; apply _. Defined.
Definition from (i : nat) (l : list fan_msg) : list fan_msg := filter (fun m => owner m = Z.of_nat i) l.
Definition item (i : nat) (k : Z) : fan_msg := Msg (Z.of_nat i) (Z.of_nat i * 100 + k).
Definition stream (i : nat) : list fan_msg := (item i <$> seqZ 0 N_PER_SOURCE) ++ [Msg (-1) (Z.of_nat i)].

(** ** The invariant *)

#[local] Notation net := (@net fan_msg fan_state).

Definition log_of (m : fan_main_state) : list fan_msg :=
  match m with MRecv _ _ l | MClose _ l | MJoin _ _ l => l | MStray => [] end.

(** Each thread by itself. *)
Definition okm (c : nat) (m : fan_msg) : Prop :=
  if (c <? N_SOURCES)%nat then exists v, m = Val v /\ is_int v
  else exists s v, m = Msg s v /\ is_int s /\ is_int v /\ exists i, (i < N_SOURCES)%nat /\ owner m = Z.of_nat i.
Definition okt (t : nat) (s : fan_state) : Prop :=
  match s with
  | Main m => t = 0%nat /\ m <> MStray /\ Forall (okm N_SOURCES) (log_of m)
  | Source s => (1 <= t <= N_SOURCES)%nat /\ match s with SSend i => 0 <= i <= N_PER_SOURCE | SDone => True end
  | Feeder f => (N_SOURCES < t <= 2 * N_SOURCES)%nat /\ match f with FSend v => is_int v | FStray => False | _ => True end
  end.

(** What has left a source for [main] and the rest of its stream. *)
Definition held (i : nat) (f : feeder_state) : list fan_msg := match f with FSend v => [Msg (Z.of_nat i) v] | _ => [] end.
Definition marker (i : nat) (f : feeder_state) : list fan_msg := match f with FDone => [] | _ => [Msg (-1) (Z.of_nat i)] end.
Definition rest (i : nat) (s : source_state) : list fan_msg :=
  match s with SSend k => item i <$> seqZ k (N_PER_SOURCE - k) | SDone => [] end.
Definition tag (i : nat) (m : fan_msg) : fan_msg := match m with Val v => Msg (Z.of_nat i) v | m => m end.

Record source_inv (i : nat) (pipe : list fan_msg) (s : source_state) (f : feeder_state) (q : queue fan_msg) : Prop := {
  si_stream : from i pipe ++ held i f ++ (tag i <$> q_buf q) ++ rest i s ++ marker i f = stream i;
  si_closed : q_closed q = match s with SDone => true | _ => false end;
  si_end : f = FEnd \/ f = FDone -> q_buf q = [] /\ s = SDone
}.

Definition ends (l : list fan_msg) : Z := zlen (filter is_end l).
Definition items (l : list fan_msg) : Z := zlen (filter (fun m => ~ is_end m) l).

Definition main_inv (m : fan_main_state) (agg : queue fan_msg) : Prop :=
  match m with
  | MRecv closed total log => closed = ends log /\ total = items log /\ closed < Z.of_nat N_SOURCES /\ q_closed agg = false
  | MClose total log => ends log = Z.of_nat N_SOURCES /\ total = items log /\ q_closed agg = false
  | MJoin j total log => ends log = Z.of_nat N_SOURCES /\ total = items log /\ (j <= 2 * N_SOURCES)%nat
  | MStray => False
  end.

Record fan_inv (n : net) (m : fan_main_state) (agg : queue fan_msg) : Prop := {
  fi_main : n_thread n !! 0%nat = Some (Main m);
  fi_agg : n_chan n !! N_SOURCES = Some agg;
  fi_ok : main_inv m agg;
  fi_source : forall i, (i < N_SOURCES)%nat -> exists s f q,
    n_thread n !! (1 + i)%nat = Some (Source s) /\ n_thread n !! (1 + N_SOURCES + i)%nat = Some (Feeder f) /\
    n_chan n !! i = Some q /\ source_inv i (log_of m ++ q_buf agg) s f q
}.
Definition fan_ok (n : net) : Prop := locally okt okm n /\ exists m agg, fan_inv n m agg.

(** ** Counting *)

Lemma from_app i l k : from i (l ++ k) = from i l ++ from i k.
Proof. apply filter_app. Qed.
Lemma from_own i m : owner m = Z.of_nat i -> from i [m] = [m].
Proof. intros E. unfold from. by rewrite filter_cons_True. Qed.
Lemma from_other i j m : owner m = Z.of_nat j -> i <> j -> from i [m] = [].
Proof. intros E Hne. unfold from. rewrite filter_cons_False; [done|]. lia. Qed.

(** A list of messages, source by source. *)
Lemma by_source (Q : fan_msg -> Prop) `{!forall m, Decision (Q m)} l : Forall (okm N_SOURCES) l ->
  zlen (filter Q l) = sum_with (fun i => zlen (filter Q (from i l))) (seq 0 N_SOURCES).
Proof.
  induction 1 as [|m l (_ & _ & _ & _ & _ & i & Hi & Ho) _ IH]; [reflexivity|].
  assert (forall j, from j (m :: l) = if decide (i = j) then m :: from j l else from j l) as Hf.
  { intros j. change (m :: l) with ([m] ++ l). rewrite from_app. destruct (decide (i = j)) as [<-|Hne]; [by rewrite from_own|].
    by rewrite (from_other j i) by auto. }
  assert (zlen (filter Q (m :: l)) = (if decide (Q m) then 1 else 0) + zlen (filter Q l)) as ->.
  { rewrite filter_cons. destruct (decide (Q m)); rewrite ?zlen_cons; lia. }
  rewrite IH. unfold N_SOURCES in *. cbn [seq sum_with foldr]. rewrite !Hf.
  assert (forall j, zlen (filter Q (if decide (i = j) then m :: from j l else from j l)) =
    (if decide (i = j) then if decide (Q m) then 1 else 0 else 0) + zlen (filter Q (from j l))) as Hj.
  { intros j. destruct (decide (i = j)); [|lia]. rewrite filter_cons. destruct (decide (Q m)); rewrite ?zlen_cons; lia. }
  rewrite !Hj. destruct i as [|[|[|[|i]]]]; simpl; lia.
Qed.

Lemma item_not_end i k : ~ is_end (item i k).
Proof. simpl. lia. Qed.
Lemma no_ends i (l : list Z) : filter is_end (item i <$> l) = [].
Proof. induction l as [|k l IH]; [done|]. cbn [fmap list_fmap]. by rewrite filter_cons_False by apply item_not_end. Qed.
Lemma all_items i (l : list Z) : filter (fun m => ~ is_end m) (item i <$> l) = item i <$> l.
Proof. induction l as [|k l IH]; [done|]. cbn [fmap list_fmap]. rewrite filter_cons_True by apply item_not_end. by rewrite IH. Qed.

Lemma stream_counts i : ends (stream i) = 1 /\ items (stream i) = N_PER_SOURCE.
Proof.
  unfold ends, items, stream. rewrite !filter_app, no_ends, all_items. split; [reflexivity|].
  rewrite (filter_cons_False _ (Msg (-1) (Z.of_nat i))) by (simpl; tauto). reflexivity.
Qed.

(** A prefix of the stream with the marker is all of it. *)
Lemma stream_whole i l k : l ++ k = stream i -> 0 < ends l -> l = stream i /\ k = [].
Proof.
  intros E Hl. destruct (decide (k = [])) as [->|Hk]; [by rewrite app_nil_r in E|exfalso].
  destruct (exists_last Hk) as (k' & m & ->). rewrite app_assoc in E. unfold stream in E. apply app_inj_tail in E as [E ->].
  assert (ends l <= 0); [|lia]. unfold ends. pose proof (no_ends i (seqZ 0 N_PER_SOURCE)) as Hn. rewrite <- E, filter_app in Hn.
  apply app_nil in Hn as [-> _]. done.
Qed.

Lemma ends_app l k : ends (l ++ k) = ends l + ends k.
Proof. unfold ends. by rewrite filter_app, zlen_app. Qed.
Lemma items_app l k : items (l ++ k) = items l + items k.
Proof. unfold items. by rewrite filter_app, zlen_app. Qed.
Lemma count_one s v : ends [Msg s v] = (if s =? -1 then 1 else 0) /\ items [Msg s v] = (if s =? -1 then 0 else 1).
Proof.
  unfold ends, items. destruct (Z.eqb_spec s (-1)) as [->|Hne].
  - by rewrite filter_cons_True, filter_cons_False by (simpl; tauto).
  - by rewrite filter_cons_False, filter_cons_True by (simpl; tauto).
Qed.
Lemma ends_nonneg l : 0 <= ends l.
Proof. apply zlen_nonneg. Qed.

(** ** When [main] has seen every marker *)

Lemma source_prefix i log agg s f q : source_inv i (log ++ agg) s f q ->
  from i log ++ (from i agg ++ held i f ++ (tag i <$> q_buf q) ++ rest i s ++ marker i f) = stream i.
Proof. intros [E _ _]. rewrite from_app, <- app_assoc in E. exact E. Qed.

Lemma all_ended n m agg : fan_inv n m agg -> Forall (okm N_SOURCES) (log_of m) -> ends (log_of m) = Z.of_nat N_SOURCES ->
  forall i s f q, (i < N_SOURCES)%nat -> source_inv i (log_of m ++ q_buf agg) s f q ->
  from i (log_of m) = stream i /\ from i (q_buf agg) = [] /\ f = FDone /\ s = SDone.
Proof.
  intros [_ _ _ Hsrc] Hlog Hends.
  assert (forall i, (i < N_SOURCES)%nat -> ends (from i (log_of m)) <= 1) as Hle.
  { intros i Hi. destruct (Hsrc i Hi) as (s & f & q & _ & _ & _ & HS). pose proof (source_prefix _ _ _ _ _ _ HS) as E.
    pose proof (proj1 (stream_counts i)) as Hc. rewrite <- E, ends_app in Hc. pose proof (ends_nonneg (from i (q_buf agg) ++ held i f ++ (tag i <$> q_buf q) ++ rest i s ++ marker i f)). lia. }
  pose proof (by_source is_end _ Hlog) as Hsum. change (zlen (filter is_end (log_of m))) with (ends (log_of m)) in Hsum. rewrite Hends in Hsum.
  intros i s f q Hi HS. assert (0 < ends (from i (log_of m))) as Hpos.
  { unfold N_SOURCES in *. pose proof (Hle 0%nat ltac:(lia)). pose proof (Hle 1%nat ltac:(lia)). pose proof (Hle 2%nat ltac:(lia)). pose proof (Hle 3%nat ltac:(lia)).
    cbn [seq sum_with foldr] in Hsum. unfold ends in *. destruct i as [|[|[|[|i]]]]; lia. }
  destruct (stream_whole _ _ _ (source_prefix _ _ _ _ _ _ HS) Hpos) as [E1 E2]. split; [done|].
  apply app_nil in E2 as [E2 E3]. split; [done|]. apply app_nil in E3 as [_ E3]. apply app_nil in E3 as [_ E3]. apply app_nil in E3 as [_ E3].
  assert (f = FDone) as -> by (by destruct f). split; [done|]. by destruct (si_end _ _ _ _ _ HS (or_intror eq_refl)).
Qed.

(** ** Steps *)

Lemma fan_room c : 0 < room c.
Proof. simpl. destruct (c <? N_SOURCES)%nat; vm_compute; reflexivity. Qed.

Lemma fan_obeys t s : okt t s -> obeys okt okm t (act t s).
Proof.
  destruct s as [m|s|f]; cbn [okt act fan_in].
  - intros (-> & Hm & Hl). assert (forall j total, obeys okt okm 0 (join_act j total (log_of m))) as Hj.
    { intros j total. unfold join_act. destruct (_ <? _)%nat; [|done]. simpl. done. }
    destruct m as [closed total log|total log|j total log|]; cbn [fan_main log_of] in *; [|done|apply Hj|done].
    destruct (closed <? _); [|apply Hj]. split; [done|]. intros m Hmm. pose proof Hmm as (s & v & -> & _).
    assert (Forall (okm N_SOURCES) (log ++ [Msg s v])) by (apply Forall_app; by split; [|constructor]).
    repeat case_match; simpl; done.
  - intros [Ht Hs]. destruct s as [i|]; cbn [source_sender]; [|done]. destruct (Z.ltb_spec i N_PER_SOURCE).
    + split; [|intros _; simpl; lia]. unfold okm. rewrite (proj2 (Nat.ltb_lt _ _)) by lia. eexists. split; [done|].
      unfold is_int, N_SOURCES, N_PER_SOURCE in *. lia.
    + simpl. done.
  - intros [Ht Hf]. assert (forall s v, is_int s -> is_int v -> (s = -1 -> v = Z.of_nat (t - 1 - N_SOURCES)) -> (s <> -1 -> s = Z.of_nat (t - 1 - N_SOURCES)) -> okm N_SOURCES (Msg s v)) as Hokm.
    { intros s v Hs Hv H1 H2. exists s, v. do 3 (split; [done|]). exists (t - 1 - N_SOURCES)%nat. split; [lia|]. simpl. destruct (Z.eqb_spec s (-1)); auto. }
    destruct f as [|v| | |]; cbn [feeder]; try done.
    + split; [done|]. intros m Hm. unfold okm in Hm. rewrite (proj2 (Nat.ltb_lt _ _)) in Hm by lia. destruct Hm as (v & -> & Hv). done.
    + split; [|by intros _]. apply Hokm; unfold is_int in *; unfold N_SOURCES in *; lia.
    + split; [|by intros _]. apply Hokm; unfold is_int in *; unfold N_SOURCES in *; lia.
Qed.

(** The sources depend on what [main] and the channel hold together. *)
Lemma source_pipe i pipe pipe' s f q : from i pipe' = from i pipe -> source_inv i pipe s f q -> source_inv i pipe' s f q.
Proof. intros E [H1 H2 H3]. split; [by rewrite E|done|done]. Qed.

Lemma fan_inv_main n m agg m' agg' : fan_inv n m agg -> main_inv m' agg' -> log_of m' ++ q_buf agg' = log_of m ++ q_buf agg ->
  fan_inv (advance 0 (Main m') (set_queue N_SOURCES agg' n)) m' agg'.
Proof.
  intros [H1 H2 H3 H4] Hm E. split; simpl.
  - apply list_lookup_insert_eq. by eapply lookup_lt_Some.
  - apply list_lookup_insert_eq. by eapply lookup_lt_Some.
  - done.
  - intros i Hi. rewrite E. destruct (H4 i Hi) as (s & f & q & ? & ? & ? & ?). exists s, f, q.
    rewrite !list_lookup_insert_ne by (unfold N_SOURCES in *; lia). done.
Qed.

Lemma fan_inv_at n n' m agg agg' i s f q :
  fan_inv n m agg -> (i < N_SOURCES)%nat -> n_thread n' !! 0%nat = Some (Main m) -> n_chan n' !! N_SOURCES = Some agg' -> main_inv m agg' ->
  n_thread n' !! (1 + i)%nat = Some (Source s) -> n_thread n' !! (1 + N_SOURCES + i)%nat = Some (Feeder f) -> n_chan n' !! i = Some q ->
  source_inv i (log_of m ++ q_buf agg') s f q ->
  (forall j, (j < N_SOURCES)%nat -> j <> i -> n_thread n' !! (1 + j)%nat = n_thread n !! (1 + j)%nat /\
     n_thread n' !! (1 + N_SOURCES + j)%nat = n_thread n !! (1 + N_SOURCES + j)%nat /\ n_chan n' !! j = n_chan n !! j /\
     from j (q_buf agg') = from j (q_buf agg)) ->
  fan_inv n' m agg'.
Proof.
  intros [H1 H2 H3 H4] Hi G1 G2 G3 G4 G5 G6 G7 G8. split; [done|done|done|]. intros j Hj. destruct (decide (j = i)) as [->|Hne]; [by exists s, f, q|].
  destruct (H4 j Hj) as (sj & fj & qj & K1 & K2 & K3 & K4). destruct (G8 j Hj Hne) as (L1 & L2 & L3 & L4). exists sj, fj, qj.
  rewrite L1, L2, L3. do 3 (split; [done|]). eapply source_pipe; [|done]. by rewrite !from_app, L4.
Qed.

Lemma fan_main_step n m agg n' :
  fan_inv n m agg -> Forall (okm N_SOURCES) (q_buf agg) -> net_go 0 (fan_main m) n = Some n' -> exists m' agg', fan_inv n' m' agg'.
Proof.
  intros Hinv Hagg E. pose proof Hinv as [H1 H2 H3 H4].
  assert (forall m', main_inv m' agg -> log_of m' = log_of m -> fan_inv (advance 0 (Main m') n) m' agg) as Hsame.
  { intros m' Hm El.
    assert (advance 0 (Main m') n = advance 0 (Main m') (set_queue N_SOURCES agg n)) as ->.
    { unfold advance, set_queue. simpl. f_equal. by rewrite list_insert_id by exact (fi_agg _ _ _ Hinv). }
    apply (fan_inv_main n m agg); [done|done|by rewrite El]. }
  assert (forall j total n', log_of m = log_of (MJoin j total (log_of m)) -> main_inv (MJoin j total (log_of m)) agg ->
    net_go 0 (join_act j total (log_of m)) n = Some n' -> exists m' agg', fan_inv n' m' agg') as Hjoin.
  { intros j total n1 _ Hm E1. unfold join_act in E1. destruct (Nat.ltb_spec j (2 * N_SOURCES)) as [Hlt|]; [|done]. cbn [net_go] in E1.
    destruct (n_thread n !! joined j) as [su|]; [|done]. simpl in E1. destruct (halted _ su); [|done]. injection E1 as <-.
    exists (MJoin (S j) total (log_of m)), agg. apply Hsame; [|done]. destruct Hm as (? & ? & ?). simpl. auto with lia. }
  destruct m as [closed total log|total log|j total log|]; cbn [fan_main log_of main_inv] in *; [| | |done].
  - destruct H3 as (Hc & Ht & Hlt & Hcl). rewrite (proj2 (Z.ltb_lt _ _)) in E by done. cbn [net_go] in E. rewrite H2 in E. simpl in E.
    unfold recv_from in E. rewrite Hcl in E. destruct (q_buf agg) as [|x b] eqn:Eb; [done|]. injection E as <-.
    apply Forall_cons in Hagg as [(s & v & -> & _) _].
    assert (forall m', log_of m' = log ++ [Msg s v] -> main_inv m' (mk_queue b false) ->
      exists m1 agg1, fan_inv (advance 0 (Main m') (set_queue N_SOURCES (mk_queue b false) n)) m1 agg1) as Hnext.
    { intros m' El Hm. exists m', (mk_queue b false). eapply fan_inv_main; [done|done|]. rewrite El, Eb. simpl. by rewrite <- app_assoc. }
    assert (ends (log ++ [Msg s v]) = closed + (if s =? -1 then 1 else 0) /\ items (log ++ [Msg s v]) = total + (if s =? -1 then 0 else 1)) as [He Hit].
    { rewrite ends_app, items_app, Hc, Ht. by destruct (count_one s v) as [-> ->]. }
    destruct (s =? -1).
    + destruct (Z.eqb_spec (closed + 1) (Z.of_nat N_SOURCES)); apply Hnext; simpl; auto with lia.
    + apply Hnext; simpl; auto with lia.
  - destruct H3 as (He & Ht & Hcl). cbn [net_go] in E. rewrite H2 in E. injection E as <-.
    eexists (MJoin 0 total log), _. eapply fan_inv_main; [done| |done]. simpl. auto with lia.
  - eapply Hjoin; done.
Qed.

Lemma source_step n m agg i s n' :
  fan_inv n m agg -> (i < N_SOURCES)%nat -> n_thread n !! (1 + i)%nat = Some (Source s) ->
  match s with SSend k => 0 <= k <= N_PER_SOURCE | SDone => True end ->
  net_go (1 + i) (source_sender i s) n = Some n' -> exists m' agg', fan_inv n' m' agg'.
Proof.
  intros Hinv Hi Hs Hk E. pose proof Hinv as [H1 H2 H3 H4]. destruct (H4 i Hi) as (s0 & f & q & K1 & K2 & K3 & [S1 S2 S3]).
  rewrite Hs in K1. injection K1 as <-.
  assert (forall s' q', source_inv i (log_of m ++ q_buf agg) s' f q' ->
    fan_inv (advance (1 + i) (Source s') (set_queue i q' n)) m agg) as Hnext.
  { intros s' q' HS. apply (fan_inv_at n _ m agg agg i s' f q'); cbn [n_thread n_chan advance set_queue]; try done.
    - by rewrite list_lookup_insert_ne by lia.
    - by rewrite list_lookup_insert_ne by lia.
    - apply list_lookup_insert_eq. by eapply lookup_lt_Some.
    - rewrite list_lookup_insert_ne by (unfold N_SOURCES in *; lia). done.
    - apply list_lookup_insert_eq. by eapply lookup_lt_Some.
    - intros j Hj Hne. rewrite !list_lookup_insert_ne by (unfold N_SOURCES in *; lia). done. }
  exists m, agg. destruct s as [k|]; cbn [source_sender] in E; [|done]. destruct (Z.ltb_spec k N_PER_SOURCE) as [Hlt|Hge]; cbn [net_go] in E; rewrite K3 in E; simpl in E.
  - unfold send_to in E. rewrite S2 in E. destruct (_ <? _); [|done]. injection E as <-. apply Hnext. split; [|done|].
    + rewrite <- S1. cbn [q_buf rest]. rewrite (seqZ_cons k) by lia. rewrite fmap_app. cbn [fmap list_fmap tag]. rewrite <- !app_assoc.
      replace (Z.pred (N_PER_SOURCE - k)) with (N_PER_SOURCE - (k + 1)) by lia. rewrite <- Z.add_1_r. done.
    + intros Hf. by destruct (S3 Hf).
  - injection E as <-. apply (Hnext SDone). split; [|done|].
    + rewrite <- S1. cbn [q_buf rest]. by rewrite (seqZ_nil k) by lia.
    + intros Hf. by destruct (S3 Hf).
Qed.

Lemma feeder_step n m agg i f n' :
  fan_inv n m agg -> Forall (okm N_SOURCES) (log_of m) -> (i < N_SOURCES)%nat -> n_thread n !! (1 + N_SOURCES + i)%nat = Some (Feeder f) ->
  (forall q x, n_chan n !! i = Some q -> x ∈ q_buf q -> exists v, x = Val v) ->
  net_go (1 + N_SOURCES + i) (feeder i f) n = Some n' -> exists m' agg', fan_inv n' m' agg'.
Proof.
  intros Hinv Hlog Hi Hf Hvals E. pose proof Hinv as [H1 H2 H3 H4]. destruct (H4 i Hi) as (s & f0 & q & K1 & K2 & K3 & HS). pose proof HS as [S1 S2 S3].
  rewrite Hf in K2. injection K2 as <-.
  assert (forall f' q', source_inv i (log_of m ++ q_buf agg) s f' q' ->
    fan_inv (advance (1 + N_SOURCES + i) (Feeder f') (set_queue i q' n)) m agg) as Hrecv.
  { intros f' q' HS'. apply (fan_inv_at n _ m agg agg i s f' q'); cbn [n_thread n_chan advance set_queue]; try done.
    - by rewrite list_lookup_insert_ne by (unfold N_SOURCES in *; lia).
    - by rewrite list_lookup_insert_ne by lia.
    - rewrite list_lookup_insert_ne by (unfold N_SOURCES in *; lia). done.
    - apply list_lookup_insert_eq. by eapply lookup_lt_Some.
    - apply list_lookup_insert_eq. by eapply lookup_lt_Some.
    - intros j Hj Hne. rewrite !list_lookup_insert_ne by (unfold N_SOURCES in *; lia). done. }
  (* The channel is open while a feeder has something to send. *)
  assert (f <> FDone -> q_closed agg = false) as Hopen.
  { intros Hne. destruct m as [c t l|t l|j t l|]; cbn [main_inv] in H3; [apply H3|apply H3| |done]. exfalso. apply Hne.
    destruct (all_ended n _ agg Hinv Hlog ltac:(apply H3) i s f q Hi HS) as (_ & _ & ? & _). done. }
  assert (forall f' x, f <> FDone -> owner x = Z.of_nat i -> source_inv i (log_of m ++ q_buf agg ++ [x]) s f' q ->
    fan_inv (advance (1 + N_SOURCES + i) (Feeder f') (set_queue N_SOURCES (mk_queue (q_buf agg ++ [x]) false) n)) m (mk_queue (q_buf agg ++ [x]) false)) as Hsend.
  { intros f' x Hne Ho HS'. apply (fan_inv_at n _ m agg _ i s f' q); cbn [n_thread n_chan advance set_queue]; try done.
    - by rewrite list_lookup_insert_ne by (unfold N_SOURCES in *; lia).
    - apply list_lookup_insert_eq. by eapply lookup_lt_Some.
    - pose proof (Hopen Hne) as Hcl. destruct m; cbn [main_inv q_closed] in *; rewrite ?Hcl in H3; tauto.
    - rewrite list_lookup_insert_ne by (unfold N_SOURCES in *; lia). done.
    - apply list_lookup_insert_eq. by eapply lookup_lt_Some.
    - by rewrite list_lookup_insert_ne by (unfold N_SOURCES in *; lia).
    - intros j Hj Hne'. rewrite !list_lookup_insert_ne by (unfold N_SOURCES in *; lia). do 3 (split; [done|]). cbn [q_buf].
      rewrite from_app, (from_other j i) by auto. apply app_nil_r. }
  destruct f as [|v| | |]; cbn [feeder net_go] in E; try done.
  - rewrite K3 in E. cbn [mbind option_bind] in E. unfold recv_from in E. exists m, agg. destruct (q_buf q) as [|x b] eqn:Eb.
    + destruct (q_closed q) eqn:Ecl; [|done]. injection E as <-.
      change (fan_inv (advance (1 + N_SOURCES + i) (Feeder FEnd) n) m agg).
      assert (advance (1 + N_SOURCES + i) (Feeder FEnd) n = advance (1 + N_SOURCES + i) (Feeder FEnd) (set_queue i q n)) as ->
        by (unfold advance, set_queue; simpl; by rewrite (list_insert_id (n_chan n) i q)).
      apply Hrecv. split; [by rewrite Eb|by rewrite Ecl|]. intros _. by destruct s.
    + destruct (Hvals q x K3 ltac:(rewrite Eb; left)) as [v ->]. injection E as <-. apply Hrecv. split; [|done|by intros [?|?]].
      rewrite <- S1. done.
  - rewrite H2 in E. cbn [mbind option_bind] in E. unfold send_to in E. rewrite Hopen in E by done. destruct (_ <? _); [|done]. injection E as <-.
    eexists m, _. apply Hsend; [done|simpl; destruct (Z.eqb_spec (Z.of_nat i) (-1)); lia|]. split; [|done|by intros [?|?]].
    rewrite <- S1, (app_assoc (log_of m)), from_app, from_own by (simpl; destruct (Z.eqb_spec (Z.of_nat i) (-1)); lia). simpl. by rewrite <- app_assoc.
  - rewrite H2 in E. cbn [mbind option_bind] in E. unfold send_to in E. rewrite Hopen in E by done. destruct (_ <? _); [|done]. injection E as <-.
    eexists m, _. destruct (S3 ltac:(by left)) as [Eb ->]. apply Hsend; [done|done|]. split; [|done|done].
    rewrite <- S1, (app_assoc (log_of m)), from_app, from_own by done. rewrite Eb. simpl. by rewrite <- app_assoc.
Qed.

Lemma fan_ok_step l n n' : fan_ok n -> net_step l n = Some n' -> fan_ok n'.
Proof.
  intros [Hl (m & agg & Hinv)] E. split; [by eapply locally_step; [exact fan_obeys|..]|].
  destruct l as [t|t u]; cbn [net_step] in E; [|by rewrite (no_meeting fan_room) in E].
  destruct (n_thread n !! t) as [s|] eqn:Hs; [|done]. cbn [mbind option_bind] in E. pose proof (lc_thread _ _ _ Hl _ _ Hs) as Hok.
  pose proof (lc_thread _ _ _ Hl _ _ (fi_main _ _ _ Hinv)) as (_ & _ & Hlog).
  destruct s as [m0|s|f]; cbn [okt act fan_in] in *.
  - destruct Hok as [-> _]. rewrite (fi_main _ _ _ Hinv) in Hs. injection Hs as <-.
    eapply fan_main_step; [done| |done]. exact (lc_chan _ _ _ Hl _ _ (fi_agg _ _ _ Hinv)).
  - destruct Hok as [Ht Hk]. destruct t as [|i]; [lia|]. replace (S i - 1)%nat with i in E by lia. eapply (source_step n m agg i s); [done|lia|done|done|done].
  - destruct Hok as [Ht Hk]. assert (exists i, t = (1 + N_SOURCES + i)%nat /\ (i < N_SOURCES)%nat) as (i & -> & Hi).
    { exists (t - 1 - N_SOURCES)%nat. unfold N_SOURCES in *. lia. }
    replace (1 + N_SOURCES + i - 1 - N_SOURCES)%nat with i in E by (unfold N_SOURCES; lia).
    eapply (feeder_step n m agg i f); [done|done|done|done| |done]. intros q x Hq Hx. pose proof (lc_chan _ _ _ Hl _ _ Hq) as Hf.
    rewrite Forall_forall in Hf. specialize (Hf x Hx). unfold okm in Hf. rewrite (proj2 (Nat.ltb_lt _ _)) in Hf by done. destruct Hf as (v & -> & _). eauto.
Qed.

Lemma fan_start_ok : fan_ok (net_start (S N_SOURCES) fan_start).
Proof.
  split.
  - apply locally_start. intros t s Hs. do 9 (destruct t as [|t]; [simplify_eq/=; unfold N_SOURCES, N_PER_SOURCE; repeat split; try lia; try done; by constructor|]). done.
  - exists (MRecv 0 0 []), (mk_queue [] false). split; [done|done|done|]. intros i Hi. exists (SSend 0), FRecv, (mk_queue [] false).
    unfold N_SOURCES in Hi. do 4 (destruct i as [|i]; [do 3 (split; [done|]); split; [done|done|by intros [?|?]]|]). lia.
Qed.

(** ** The end *)

Definition weight (s : fan_state) : Z :=
  match s with
  | Source (SSend k) => 4 * (N_PER_SOURCE - k) + 1
  | Feeder FRecv => 3
  | Feeder (FSend _) => 5
  | Feeder FEnd => 2
  | Main (MRecv _ _ _) => 20
  | Main (MClose _ _) => 10
  | Main (MJoin j _ _) => 9 - Z.of_nat j
  | _ => 0
  end.
Definition carried (c : nat) : Z := if (c <? N_SOURCES)%nat then 3 else 1.
Definition measure : net -> Z := net_weight weight carried.

Lemma fan_lowers t s : okt t s -> lowers weight carried s (act t s).
Proof.
  intros Hok. assert (forall j total log s, weight s = 20 \/ weight s = 9 - Z.of_nat j -> lowers weight carried s (join_act j total log)) as Hj.
  { intros j total log s' Hs. unfold join_act. destruct (_ <? _)%nat; [|done]. cbn [lowers]. cbn [weight]. lia. }
  destruct s as [m|s|f]; cbn [okt act fan_in] in *.
  - destruct m as [closed total log|total log|j total log|]; cbn [fan_main]; [|cbn [lowers weight]; lia|by apply Hj; right|done].
    destruct (closed <? _); [|apply Hj; by left]. cbn [lowers]. split; [|cbn [weight]; lia].
    intros [v|src v]; unfold carried; simpl; [lia|]. repeat case_match; simpl; lia.
  - destruct Hok as [Ht Hk]. destruct s as [i|]; cbn [source_sender]; [|done]. destruct (Z.ltb_spec i N_PER_SOURCE); cbn [lowers]; cbn [weight] in *; [|lia].
    unfold carried. rewrite (proj2 (Nat.ltb_lt _ _)) by lia. lia.
  - destruct Hok as [Ht Hk]. destruct f as [|v| | |]; cbn [feeder lowers]; try done.
    unfold carried. rewrite (proj2 (Nat.ltb_lt _ _)) by lia. split; [|cbn [weight]; lia]. intros [v|src v]; cbn [weight]; lia.
Qed.

Lemma fan_measure_nonneg n : fan_ok n -> 0 <= measure n.
Proof.
  intros [Hl (m & agg & Hinv)]. unfold measure, net_weight. assert (0 <= sum_with weight (n_thread n)).
  { apply sum_nonneg. intros s (t & Hs)%list_elem_of_lookup_1. pose proof (lc_thread _ _ _ Hl _ _ Hs) as Hok.
    destruct s as [m0|s|f]; cbn [okt] in Hok.
    - destruct Hok as [-> _]. rewrite (fi_main _ _ _ Hinv) in Hs. injection Hs as <-. pose proof (fi_ok _ _ _ Hinv) as Hm.
      destruct m; cbn [weight main_inv] in *; unfold N_SOURCES in *; lia.
    - destruct s; cbn [weight]; lia.
    - destruct f; cbn [weight]; lia. }
  pose proof (chan_weight_nonneg carried 0 (n_chan n) ltac:(intros c; unfold carried; case_match; lia)). lia.
Qed.

Lemma fan_step l n n' : fan_ok n -> net_step l n = Some n' -> fan_ok n' /\ measure n' < measure n.
Proof.
  intros Hok E. split; [by eapply fan_ok_step|]. eapply weight_step; [|done]. intros t s Hs. apply fan_lowers.
  destruct Hok as [Hl _]. by eapply lc_thread.
Qed.

(** A source that has not returned, or its feeder, can go on. *)
Lemma source_goes n m agg i s f q :
  fan_inv n m agg -> q_closed agg = true \/ zlen (q_buf agg) < 16 -> (i < N_SOURCES)%nat ->
  n_thread n !! (1 + i)%nat = Some (Source s) -> n_thread n !! (1 + N_SOURCES + i)%nat = Some (Feeder f) -> n_chan n !! i = Some q ->
  q_closed q = match s with SDone => true | _ => false end -> f <> FStray ->
  (exists l n', net_step l n = Some n') \/ (s = SDone /\ f = FDone).
Proof.
  intros Hinv Hroom Hi Hs Hf Hq Hcl Hst.
  assert (room i = 4) as Hri by (simpl; by rewrite (proj2 (Nat.ltb_lt _ _)) by done).
  assert (forall a n', net_go (1 + i) (source_sender i a) n = Some n' -> s = a -> exists l n', net_step l n = Some n') as HgoS.
  { intros a n' E ->. exists (Go (1 + i)%nat), n'. cbn [net_step]. rewrite Hs. cbn [mbind option_bind act fan_in]. by replace (1 + i - 1)%nat with i by lia. }
  assert (forall a n', net_go (1 + N_SOURCES + i) (feeder i a) n = Some n' -> f = a -> exists l n', net_step l n = Some n') as HgoF.
  { intros a n' E ->. exists (Go (1 + N_SOURCES + i)%nat), n'. cbn [net_step]. rewrite Hf. cbn [mbind option_bind act fan_in].
    by replace (1 + N_SOURCES + i - 1 - N_SOURCES)%nat with i by lia. }
  assert (forall x k, exists n', net_go (1 + N_SOURCES + i) (ASend N_SOURCES x k) n = Some n') as Hagg.
  { intros x k. cbn [net_go]. rewrite (fi_agg _ _ _ Hinv). cbn [mbind option_bind]. unfold send_to. change (room N_SOURCES) with 16.
    destruct Hroom as [->|Hr]; [by eexists|]. destruct (q_closed agg); [by eexists|]. rewrite (proj2 (Z.ltb_lt _ _)) by done. by eexists. }
  destruct f as [|v| | |]; [| | | |done].
  - (* receiving *) destruct (q_buf q) as [|x b] eqn:Eb.
    + destruct s as [k|].
      * left. destruct (Z.ltb_spec k N_PER_SOURCE) as [Hlt|Hge].
        -- eapply (HgoS (SSend k)); [|done]. cbn [source_sender]. rewrite (proj2 (Z.ltb_lt _ _)) by done. cbn [net_go]. rewrite Hq. cbn [mbind option_bind].
           unfold send_to. rewrite Hcl, Eb, Hri. done.
        -- eapply (HgoS (SSend k)); [|done]. cbn [source_sender]. rewrite (proj2 (Z.ltb_ge _ _)) by done. cbn [net_go]. by rewrite Hq.
      * left. eapply (HgoF FRecv); [|done]. cbn [feeder net_go]. rewrite Hq. cbn [mbind option_bind]. unfold recv_from. by rewrite Eb, Hcl.
    + left. eapply (HgoF FRecv); [|done]. cbn [feeder net_go]. rewrite Hq. cbn [mbind option_bind]. unfold recv_from. by rewrite Eb.
  - left. destruct (Hagg (Msg (Z.of_nat i) v) (fun _ => Feeder FRecv)) as [n' E]. by eapply (HgoF (FSend v)).
  - left. destruct (Hagg (Msg (-1) (Z.of_nat i)) (fun _ => Feeder FDone)) as [n' E]. by eapply (HgoF FEnd).
  - destruct s as [k|]; [|by right]. left. destruct (Z.ltb_spec k N_PER_SOURCE) as [Hlt|Hge].
    + exfalso. destruct (fi_source _ _ _ Hinv i Hi) as (s0 & f0 & q0 & K1 & K2 & _ & [_ _ S3]). simplify_eq. by destruct (S3 ltac:(by right)).
    + eapply (HgoS (SSend k)); [|done]. cbn [source_sender]. rewrite (proj2 (Z.ltb_ge _ _)) by done. cbn [net_go]. by rewrite Hq.
Qed.

Lemma fan_counts log : Forall (okm N_SOURCES) log -> (forall i, (i < N_SOURCES)%nat -> from i log = stream i) ->
  ends log = 4 /\ items log = 20.
Proof.
  intros Hl Hf. unfold ends, items. rewrite !by_source by done. unfold N_SOURCES in *. cbn [seq sum_with foldr].
  rewrite !Hf by lia.
  pose proof (stream_counts 0) as [A0 B0]. pose proof (stream_counts 1) as [A1 B1]. pose proof (stream_counts 2) as [A2 B2].
  pose proof (stream_counts 3) as [A3 B3]. unfold ends, items, N_PER_SOURCE in *. lia.
Qed.

(** The threads at the end. *)
Definition fan_final (log : list fan_msg) : list fan_state :=
  Main (MJoin (2 * N_SOURCES) 20 log) :: replicate N_SOURCES (Source SDone) ++ replicate N_SOURCES (Feeder FDone).

Lemma fan_stuck n : fan_ok n -> (forall l, net_step l n = None) ->
  exists log, n_thread n = fan_final log /\ forall i, (i < N_SOURCES)%nat -> from i log = stream i.
Proof.
  intros [Hl (m & agg & Hinv)] Hst. pose proof Hinv as [H1 H2 H3 H4]. pose proof (lc_thread _ _ _ Hl _ _ H1) as (_ & _ & Hlog).
  assert (forall n', net_go 0 (fan_main m) n = Some n' -> False) as Hmain.
  { intros n' E. specialize (Hst (Go 0)). cbn [net_step] in Hst. rewrite H1 in Hst. cbn [mbind option_bind act fan_in] in Hst. congruence. }
  assert (q_closed agg = true \/ zlen (q_buf agg) < 16 -> forall i s f q, (i < N_SOURCES)%nat -> n_thread n !! (1 + i)%nat = Some (Source s) ->
    n_thread n !! (1 + N_SOURCES + i)%nat = Some (Feeder f) -> n_chan n !! i = Some q -> source_inv i (log_of m ++ q_buf agg) s f q -> s = SDone /\ f = FDone) as Hdone.
  { intros Hr i s f q Hi K1 K2 K3 [_ S2 _]. destruct (source_goes n m agg i s f q Hinv Hr Hi K1 K2 K3 S2) as [(l & n' & E)|?]; [|by rewrite Hst in E|done].
    pose proof (lc_thread _ _ _ Hl _ _ K2) as [_ Hf]. by destruct f. }
  destruct m as [closed total log|total log|j total log|]; cbn [fan_main main_inv log_of] in *; [exfalso|exfalso| |done].
  - destruct H3 as (Hc & _ & Hlt & Hcl). rewrite (proj2 (Z.ltb_lt _ _)) in Hmain by done. cbn [net_go] in Hmain. rewrite H2 in Hmain. cbn [mbind option_bind] in Hmain.
    unfold recv_from in Hmain. rewrite Hcl in Hmain. destruct (q_buf agg) as [|x b] eqn:Eb; [|by eapply Hmain].
    assert (ends log = 4) as He; [|unfold N_SOURCES in Hlt; lia]. apply fan_counts; [done|]. intros i Hi.
    destruct (H4 i Hi) as (s & f & q & K1 & K2 & K3 & HS). destruct (Hdone ltac:(right; unfold zlen; simpl; lia) i s f q Hi K1 K2 K3 HS) as [-> ->].
    destruct HS as [S1 _ S3]. destruct (S3 ltac:(by right)) as [Eq _]. rewrite Eq in S1. simpl in S1. by rewrite !app_nil_r in S1.
  - eapply Hmain. cbn [net_go]. by rewrite H2.
  - destruct H3 as (He & Ht & Hj). pose proof (all_ended n _ agg Hinv Hlog He) as Hall. cbn [log_of] in Hall.
    assert (forall i, (i < N_SOURCES)%nat -> n_thread n !! (1 + i)%nat = Some (Source SDone) /\ n_thread n !! (1 + N_SOURCES + i)%nat = Some (Feeder FDone) /\
      from i log = stream i) as Hsrc.
    { intros i Hi. destruct (H4 i Hi) as (s & f & q & K1 & K2 & _ & HS). by destruct (Hall i s f q Hi HS) as (? & _ & -> & ->). }
    assert (forall i, (i < N_SOURCES)%nat -> from i log = stream i) as Hfrom by (intros i Hi; by apply Hsrc).
    assert (j = 2 * N_SOURCES)%nat as ->.
    { destruct (decide (j < 2 * N_SOURCES)%nat) as [Hlt|]; [exfalso|lia]. unfold join_act in Hmain. rewrite (proj2 (Nat.ltb_lt _ _)) in Hmain by done.
      cbn [net_go] in Hmain. pose proof (Nat.Div0.div_lt_upper_bound j 2 N_SOURCES ltac:(lia)) as Hi. destruct (Hsrc (j / 2)%nat Hi) as (K1 & K2 & _).
      unfold joined in Hmain. destruct (Nat.even j); [rewrite K1 in Hmain|rewrite K2 in Hmain]; by eapply Hmain. }
    exists log. split; [|done]. destruct (fan_counts log Hlog Hfrom) as [_ Hit]. rewrite Hit in Ht. subst total.
    destruct (Hsrc 0%nat ltac:(unfold N_SOURCES; lia)) as (A0 & B0 & _). destruct (Hsrc 1%nat ltac:(unfold N_SOURCES; lia)) as (A1 & B1 & _).
    destruct (Hsrc 2%nat ltac:(unfold N_SOURCES; lia)) as (A2 & B2 & _). destruct (Hsrc 3%nat ltac:(unfold N_SOURCES; lia)) as (A3 & B3 & _).
    apply list_eq. intros t. do 9 (destruct t as [|t]; [done|]). rewrite (lookup_ge_None_2 (fan_final log)) by (simpl; lia).
    apply eq_None_not_Some. intros [s Hs]. pose proof (lc_thread _ _ _ Hl _ _ Hs) as Hok.
    destruct s; destruct Hok as [Ht _]; unfold N_SOURCES in Ht; lia.
Qed.

(** ** On the code *)

Lemma fan_dec_enc c m : okm c m -> fan_dec (fan_enc m) = Some m.
Proof.
  unfold okm. destruct (c <? N_SOURCES)%nat.
  - intros (v & -> & Hv). unfold fan_dec, fan_enc. rewrite decide_True by done. by rewrite dec_enc_int.
  - intros (s & v & -> & Hs & Hv & _). unfold fan_dec, fan_enc. rewrite decide_False by done. rewrite take_app_length'; [|done].
    change (drop 4 (enc_int s ++ enc_int v)) with (enc_int v). by rewrite !dec_enc_int.
Qed.

Lemma fan_copied n : fan_ok n -> sends_copied fan_enc fan_dec n.
Proof.
  intros [Hl _] t s c m k Hs Ha. pose proof (fan_obeys _ _ (lc_thread _ _ _ Hl _ _ Hs)) as Ho. rewrite Ha in Ho.
  exact (fan_dec_enc c m (proj1 Ho)).
Qed.

Lemma fan_fits n : fan_ok n -> calls_fit fan_enc fan_elem (S N_SOURCES) n.
Proof.
  intros [Hl _] t s Hs. pose proof (lc_thread _ _ _ Hl _ _ Hs) as Hok. destruct s as [m|s|f]; cbn [okt act fan_in] in *.
  - destruct m; cbn [fan_main]; unfold join_act; repeat case_match; simpl; auto with lia.
  - destruct Hok as [Ht _]. destruct s; cbn [source_sender]; repeat case_match; cbn [call_fits]; try lia; try done.
    split; [lia|]. unfold fan_elem. by rewrite (proj2 (Nat.ltb_lt _ _)) by lia.
  - destruct Hok as [Ht _]. destruct f; cbn [feeder call_fits]; try done; [lia|..]; (split; [lia|done]).
Qed.

Lemma fan_sized `{Malloc} c : malloc 16 <> None -> malloc 128 <> None -> sized fan_elem fan_cap c.
Proof. intros H1 H2. destruct (c <? N_SOURCES)%nat eqn:E; split; unfold fan_elem, fan_cap; simpl; rewrite ?E; try done; lia. Qed.

(** ** Theorem *)

(** C28: Fan-in on the code of the library, under every schedule: no call is undefined or
    hangs, every run is finite, and where nothing moves any more every thread has
    returned and [main] has received from each source its five values in the order
    they were sent and then its end marker, 20 values in all.  In particular no feeder
    sends after the channel is closed, so nothing is lost. *)
Theorem fan_in_complete `{Malloc} (Hsrc : malloc 16 <> None) (Hagg : malloc 128 <> None) :
  exists n0, cnet_start fan_elem fan_cap (S N_SOURCES) fan_start = Ret n0 /\ forall ls o, cnet_run fan_enc fan_dec ls n0 = Some o ->
  exists n, o = Ret n /\ (length ls <= 2223)%nat /\
    (cstuck fan_enc fan_dec n -> exists log, cn_thread n = (., false) <$> fan_final log /\
       forall i, (i < N_SOURCES)%nat -> from i log = stream i).
Proof.
  assert (forall c, 0 <= Net.room c) as Hroom by (intros c; pose proof (fan_room c); lia).
  destruct (program_on_code fan_enc fan_dec fan_elem fan_cap fan_ok fan_ok_step fan_copied (S N_SOURCES) fan_start Hroom
    (fun c _ => fan_sized c Hsrc Hagg) ltac:(done) fan_fits fan_start_ok) as (n0 & E0 & Hrun).
  exists n0. split; [done|]. intros ls o E. destruct (Hrun ls o E) as (n & ks & n' & -> & Hks & Hok & Hag & Hlen & Hb & Hst).
  exists n. split; [done|]. split.
  - pose proof (net_run_bound fan_ok measure ks _ n' fan_step fan_measure_nonneg fan_start_ok Hks) as Hm.
    change (measure (net_start (S N_SOURCES) fan_start)) with 116 in Hm. unfold zlen in Hm. change (length fan_start) with 9%nat in Hb. lia.
  - intros Hs. destruct (Hst Hs) as (H1 & H2 & H3). destruct (fan_stuck n' Hok H1) as (log & Hth & Hlog). exists log. split; [|done].
    rewrite <- Hth. apply code_halted; [done|done|]. rewrite Hth. intros t s Ht. do 9 (destruct t as [|t]; [by simplify_eq/=|]). done.
Qed.

(** The first feeder blocks and is passed the first value of its source. *)
Lemma fan_in_complete_witness :
  match @cnet_start _ fan_elem fan_cap malloc_ex (S N_SOURCES) fan_start with
  | Ret n0 => match cnet_run fan_enc fan_dec [Call 5; Call 1; Resume 5; Call 5; Call 0] n0 with Some (Ret n) => take 1 (cn_thread n) | _ => [] end
  | _ => []
  end = [(Main (MRecv 0 1 [Msg 0 0]), false)] /\
  exists n0, @cnet_start _ fan_elem fan_cap malloc_ex (S N_SOURCES) fan_start = Ret n0 /\ forall ls o, cnet_run fan_enc fan_dec ls n0 = Some o ->
  exists n, o = Ret n /\ (length ls <= 2223)%nat /\
    (cstuck fan_enc fan_dec n -> exists log, cn_thread n = (., false) <$> fan_final log /\
       forall i, (i < N_SOURCES)%nat -> from i log = stream i).
Proof. split; [vm_compute; reflexivity|]. apply (@fan_in_complete malloc_ex); vm_compute; discriminate. Defined.
