(* ===== verification/Spin.v ===== *)
(** * Spin polling: [examples/multi_recv_spin.c]

    Three senders send over channels of their own; [main] polls the channels in turn
    with [chan_try_recv], forgets a channel that is closed and drained, and backs off
    after a round without data.  On the code of the library and under every schedule
    [main] receives what was sent, a run is no longer than a constant and its idle
    rounds, and the loop at the end of [main] destroys no channel: it destroys those
    [main] still knows, and [main] has forgotten all of them. *)

From S2P Require Import Prelude RingLf Heap ChanSpec Net NetHeap.
From stdpp Require Import list.
#[local] Open Scope Z_scope.

Definition N_CHANNELS : nat := 3.
Definition N_PER_CH : Z := 10.

(** What [backoff] does: pause, yield or sleep. *)
Inductive rest_kind := Pause | Yield | Sleep.

(** [known]: which entries of [chs] are not NULL; [received]: what was printed;
    [rests]: what [backoff] did. *)
Record spin_state := mk_spin {
  known : list bool; active : Z; total : Z; spin : Z;
  received : list (nat * Z); rests : list rest_kind
}.

Definition spin_init : spin_state := mk_spin (replicate N_CHANNELS true) (Z.of_nat N_CHANNELS) 0 0 [] [].

Definition backoff (spin : Z) : rest_kind * Z :=
  (if spin <? 40 then Pause else if spin <? 200 then Yield else Sleep, i32 (spin + 1)).

(** The body of the inner loop for the channel [i]: [got_any] and the variables. *)
Definition visit (i : nat) (e : poll_answer Z) (got_any : bool) (st : spin_state) : bool * spin_state :=
  match e with
  | Got v => (true, mk_spin (known st) (active st) (i32 (total st + 1)) 0 (received st ++ [(i, v)]) (rests st))
  | Over => (true, mk_spin (<[i := false]> (known st)) (i32 (active st - 1)) (total st) 0 (received st) (rests st))
  | Net.Empty => (got_any, st)
  end.

(** The end of a round. *)
Definition end_round (got_any : bool) (st : spin_state) : spin_state :=
  if got_any then st
  else let (r, k) := backoff (spin st) in mk_spin (known st) (active st) (total st) k (received st) (rests st ++ [r]).

(** The next channel from [i] that is not skipped. *)
Definition next_known (i : nat) (st : spin_state) : option nat :=
  head (filter (fun j => known st !! j = Some true) (seq i (N_CHANNELS - i))).

(** [main] at a call: polling the channel [i]; rounds without a channel to poll, for
    ever; joining the sender [i], with the channels destroyed before. *)
Inductive spin_main_state :=
| Poll (i : nat) (got_any : bool) (st : spin_state) | Forever (st : spin_state) | Join (i : nat) (destroyed : list nat) (st : spin_state).

(** [main] on to its next call from the channel [i] of a round. *)
Definition settle (i : nat) (got_any : bool) (st : spin_state) : spin_main_state :=
  match next_known i st with
  | Some j => Poll j got_any st
  | None =>
      let st := end_round got_any st in
      if 0 <? active st then match next_known 0 st with Some j => Poll j false st | None => Forever st end
      else Join 0 [] st
  end.

Inductive sender_state := Sending (i : Z) | Sent.
Inductive spin_thread := Main (m : spin_main_state) | Sender (s : sender_state).

Definition spin_main (m : spin_main_state) : action Z spin_thread :=
  match m with
  | Poll i got_any st => APoll i (fun e => let (got_any, st) := visit i e got_any st in Main (settle (S i) got_any st))
  | Forever _ => AHalt
  | Join i destroyed st =>
      if (i <? N_CHANNELS)%nat then
        AJoin (1 + i) (Main (Join (S i) (if decide (known st !! i = Some true) then destroyed ++ [i] else destroyed) st))
      else AHalt
  end.

Definition sender (id : nat) (s : sender_state) : action Z spin_thread :=
  match s with
  | Sending i =>
      if i <? N_PER_CH then ASend id (Z.of_nat id * 100 + i) (fun _ => Sender (Sending (i + 1)))
      else AClose id (Sender Sent)
  | Sent => AHalt
  end.

(** Thread 0 is [main], 1 to 3 are the senders. *)
#[export] Instance spin_prog : Program Z spin_thread := {
  act t s := match s with Main m => spin_main m | Sender s => sender (t - 1) s end;
  room _ := next_pow2 4
}.
Definition spin_start : list spin_thread := Main (settle 0 false spin_init) :: replicate N_CHANNELS (Sender (Sending 0)).

(** ** [active] counts the channels that are known *)

Definition count_true (l : list bool) : Z := zlen (filter (fun b => b = true) l).

Lemma count_forget l i : l !! i = Some true -> count_true (<[i := false]> l) = count_true l - 1.
Proof.
  unfold count_true. revert i. induction l as [|b l IH]; intros [|i] Hi; simplify_eq/=.
  - rewrite filter_cons_False, filter_cons_True by done. rewrite zlen_cons. lia.
  - rewrite !filter_cons. destruct (decide (b = true)); rewrite ?zlen_cons, IH by done; lia.
Qed.
Lemma known_range l : 0 <= count_true l <= zlen l.
Proof. unfold count_true, zlen. pose proof (length_filter (fun b => b = true) l). lia. Qed.
Lemma count_none l : count_true l <= 0 -> forall i, l !! i <> Some true.
Proof.
  intros Hc i Hi. pose proof (count_forget l i Hi). pose proof (known_range (<[i := false]> l)). lia.
Qed.
Lemma count_some l : 0 < count_true l -> exists i, l !! i = Some true.
Proof.
  unfold count_true. induction l as [|b l IH]; [done|]. rewrite filter_cons. destruct b; [by exists 0%nat|].
  rewrite decide_False by done. intros Hc. destruct (IH Hc) as [i Hi]. by exists (S i).
Qed.

(** ** What [main] keeps by itself *)

Record spin_ok (st : spin_state) : Prop := {
  so_length : length (known st) = N_CHANNELS;
  so_active : active st = count_true (known st)
}.

Definition main_ok (m : spin_main_state) : Prop :=
  match m with
  | Poll i _ st => spin_ok st /\ known st !! i = Some true
  | Forever _ => False
  | Join i destroyed st => spin_ok st /\ (i <= N_CHANNELS)%nat /\ destroyed = [] /\ forall i, known st !! i <> Some true
  end.

Lemma next_known_Some i st j : next_known i st = Some j -> (i <= j)%nat /\ known st !! j = Some true.
Proof.
  unfold next_known. intros Hj. apply head_Some_elem_of, list_elem_of_filter in Hj as [Hk Hj]. apply elem_of_seq in Hj. split; [lia|done].
Qed.
Lemma next_known_None st : spin_ok st -> next_known 0 st = None -> forall i, known st !! i <> Some true.
Proof.
  intros [Hl _] Hn i Hi. apply head_None in Hn. pose proof (lookup_lt_Some _ _ _ Hi) as Hlt. rewrite Hl in Hlt.
  assert (i ∈ filter (fun j => known st !! j = Some true) (seq 0 (N_CHANNELS - 0))) as Hin.
  { apply list_elem_of_filter. split; [done|]. apply elem_of_seq. lia. }
  rewrite Hn in Hin. by apply elem_of_nil in Hin.
Qed.

Lemma end_round_ok g st : spin_ok st -> spin_ok (end_round g st).
Proof. intros [H1 H2]. destruct g; by split. Qed.

Lemma settle_ok i g st : spin_ok st -> main_ok (settle i g st).
Proof.
  intros Hok. unfold settle. destruct (next_known i st) as [j|] eqn:E1; [by destruct (next_known_Some _ _ _ E1)|].
  pose proof (end_round_ok g st Hok) as Hok'. cbn zeta. set (st' := end_round g st) in *.
  destruct (Z.ltb_spec 0 (active st')) as [Hlt|Hge].
  - destruct (next_known 0 st') as [j|] eqn:E2; [by destruct (next_known_Some _ _ _ E2)|].
    rewrite (so_active _ Hok') in Hlt. destruct (count_some _ Hlt) as [j Hj]. by destruct (next_known_None _ Hok' E2 j).
  - split; [done|]. split; [lia|]. split; [done|]. apply count_none. by rewrite <- (so_active _ Hok').
Qed.

Lemma visit_ok i e g st : spin_ok st -> known st !! i = Some true -> spin_ok (visit i e g st).2.
Proof.
  intros [H1 H2] Hi. destruct e; [done|done|]. split; simpl; [by rewrite length_insert|].
  pose proof (count_forget _ _ Hi) as Hf. rewrite Hf, H2. pose proof (known_range (known st)) as Hr.
  pose proof (known_range (<[i := false]> (known st))). unfold zlen in Hr. rewrite H1 in Hr. unfold N_CHANNELS in Hr.
  apply i32_small. lia.
Qed.

(** ** The invariant *)

#[local] Notation net := (@net Z spin_thread).

Definition vars (m : spin_main_state) : spin_state := match m with Poll _ _ st | Forever st | Join _ _ st => st end.

(** Each thread by itself. *)
Definition okm (c : nat) (v : Z) : Prop := is_int v.
Definition okt (t : nat) (s : spin_thread) : Prop :=
  match s with
  | Main m => t = 0%nat /\ main_ok m
  | Sender s => (1 <= t <= N_CHANNELS)%nat /\ match s with Sending i => 0 <= i <= N_PER_CH | Sent => True end
  end.

(** What is received from a channel, what its sender sends and has still to send. *)
Definition recv_of (i : nat) (l : list (nat * Z)) : list Z := (filter (fun p => p.1 = i) l).*2.
Definition value (i : nat) (k : Z) : Z := Z.of_nat i * 100 + k.
Definition values (i : nat) : list Z := value i <$> seqZ 0 N_PER_CH.
Definition unsent (i : nat) (s : sender_state) : list Z := match s with Sending k => value i <$> seqZ k (N_PER_CH - k) | Sent => [] end.

Record chan_inv (i : nat) (st : spin_state) (s : sender_state) (q : queue Z) : Prop := {
  ci_values : recv_of i (received st) ++ q_buf q ++ unsent i s = values i;
  ci_closed : q_closed q = match s with Sent => true | _ => false end;
  ci_known : known st !! i = Some false -> q_buf q = [] /\ s = Sent
}.

Record spin_inv (n : net) (m : spin_main_state) : Prop := {
  si_main : n_thread n !! 0%nat = Some (Main m);
  si_total : total (vars m) = i32 (zlen (received (vars m)));
  si_owner : Forall (fun p => (p.1 < N_CHANNELS)%nat) (received (vars m));
  si_chan : forall i, (i < N_CHANNELS)%nat -> exists s q,
    n_thread n !! (1 + i)%nat = Some (Sender s) /\ n_chan n !! i = Some q /\ chan_inv i (vars m) s q
}.
Definition polls_ok (n : net) : Prop := locally okt okm n /\ exists m, spin_inv n m.

(** ** Steps *)

Lemma spin_room c : 0 < room c.
Proof. vm_compute. reflexivity. Qed.

Lemma spin_obeys t s : okt t s -> obeys okt okm t (act t s).
Proof.
  destruct s as [m|s]; cbn [okt act spin_prog].
  - intros [-> Hm]. destruct m as [i g st|st|i d st]; cbn [spin_main main_ok] in *; [|done|].
    + destruct Hm as [Hok Hi]. assert (forall e, okt 0 (let (g, st) := visit i e g st in Main (settle (S i) g st))) as He.
      { intros e. pose proof (visit_ok i e g st Hok Hi) as Hv. destruct (visit i e g st) as [g' st']. split; [done|]. by apply settle_ok. }
      split; [apply (He Net.Empty)|]. split; [apply (He Over)|]. intros m _. apply (He (Got m)).
    + destruct Hm as (Hok & Hi & -> & Hn). destruct (Nat.ltb_spec i N_CHANNELS); [|done]. cbn [obeys okt main_ok].
      rewrite decide_False by done. auto with lia.
  - intros [Ht Hs]. destruct s as [i|]; cbn [sender]; [|done]. destruct (Z.ltb_spec i N_PER_CH); cbn [obeys okt].
    + split; [|intros _; lia]. unfold okm, is_int, N_CHANNELS, N_PER_CH in *. lia.
    + done.
Qed.

(** [settle] changes neither what is known nor what was received. *)
Lemma settle_vars i g st : let st' := vars (settle i g st) in
  known st' = known st /\ received st' = received st /\ total st' = total st.
Proof.
  unfold settle. destruct (next_known i st); [done|]. cbn zeta.
  destruct (0 <? _); [destruct (next_known 0 _)|]; destruct g; done.
Qed.

Lemma chan_inv_vars i st st' s q : known st' !! i = known st !! i -> recv_of i (received st') = recv_of i (received st) ->
  chan_inv i st s q -> chan_inv i st' s q.
Proof. intros E1 E2 [H1 H2 H3]. split; [by rewrite E2|done|by rewrite E1]. Qed.

Lemma recv_of_app i l k : recv_of i (l ++ k) = recv_of i l ++ recv_of i k.
Proof. unfold recv_of. by rewrite filter_app, fmap_app. Qed.
Lemma recv_of_one i j v : recv_of i [(j, v)] = if decide (j = i) then [v] else [].
Proof. unfold recv_of. rewrite filter_cons. simpl. by destruct (decide (j = i)). Qed.

Lemma i32_succ x : i32 (i32 x + 1) = i32 (x + 1).
Proof.
  assert (u32 (i32 x + 1) = u32 (x + 1)) as E; [|unfold i32 at 1; rewrite E; done].
  unfold i32. rewrite <- (u32_add_l x 1). case_match; [done|]. unfold u32, two32. rewrite <- Z_mod_plus_full with (b := 1).
  f_equal. lia.
Qed.

(** A step that moves [main] and one channel. *)
Lemma spin_inv_at n n' m m' i s q :
  spin_inv n m -> (i < N_CHANNELS)%nat -> n_thread n' !! 0%nat = Some (Main m') ->
  total (vars m') = i32 (zlen (received (vars m'))) -> Forall (fun p => (p.1 < N_CHANNELS)%nat) (received (vars m')) ->
  n_thread n' !! (1 + i)%nat = Some (Sender s) -> n_chan n' !! i = Some q -> chan_inv i (vars m') s q ->
  (forall j, (j < N_CHANNELS)%nat -> j <> i -> n_thread n' !! (1 + j)%nat = n_thread n !! (1 + j)%nat /\ n_chan n' !! j = n_chan n !! j /\
     known (vars m') !! j = known (vars m) !! j /\ recv_of j (received (vars m')) = recv_of j (received (vars m))) ->
  spin_inv n' m'.
Proof.
  intros [H1 H2 H3 H4] Hi G1 G2 G3 G4 G5 G6 G7. split; [done|done|done|]. intros j Hj. destruct (decide (j = i)) as [->|Hne]; [by exists s, q|].
  destruct (H4 j Hj) as (sj & qj & K1 & K2 & K3). destruct (G7 j Hj Hne) as (L1 & L2 & L3 & L4). exists sj, qj.
  rewrite L1, L2. do 2 (split; [done|]). by eapply chan_inv_vars.
Qed.

Lemma poll_step n i g st n' :
  spin_inv n (Poll i g st) -> main_ok (Poll i g st) -> net_go 0 (spin_main (Poll i g st)) n = Some n' -> exists m, spin_inv n' m.
Proof.
  intros Hinv [[Hlen _] Hi] E. pose proof (lookup_lt_Some _ _ _ Hi) as Hlt. rewrite Hlen in Hlt.
  pose proof Hinv as [H1 H2 H3 H4]. cbn [vars] in *. destruct (H4 i Hlt) as (s & q & K1 & K2 & [C1 C2 C3]).
  cbn [spin_main net_go] in E. rewrite K2 in E. cbn [mbind option_bind] in E. injection E as <-.
  assert (forall g' st' q', total st' = i32 (zlen (received st')) -> Forall (fun p => (p.1 < N_CHANNELS)%nat) (received st') -> chan_inv i st' s q' ->
    (forall j, j <> i -> known st' !! j = known st !! j /\ recv_of j (received st') = recv_of j (received st)) ->
    exists m, spin_inv (advance 0 (Main (settle (S i) g' st')) (set_queue i q' n)) m) as Hnext.
  { intros g' st' q' Ht Ho Hc Hj. exists (settle (S i) g' st'). destruct (settle_vars (S i) g' st') as (E1 & E2 & E3).
    apply (spin_inv_at n _ (Poll i g st) _ i s q'); cbn [n_thread n_chan advance set_queue vars]; try done.
    - apply list_lookup_insert_eq. by eapply lookup_lt_Some.
    - by rewrite E2, E3.
    - by rewrite E2.
    - by rewrite list_lookup_insert_ne by lia.
    - apply list_lookup_insert_eq. by eapply lookup_lt_Some.
    - eapply chan_inv_vars; [..|exact Hc]; [by rewrite E1|by rewrite E2].
    - intros j _ Hne. rewrite !list_lookup_insert_ne by lia. rewrite E1, E2. auto. }
  assert (forall s', advance 0 s' n = advance 0 s' (set_queue i q n)) as Hsame.
  { intros s'. unfold advance, set_queue. simpl. by rewrite (list_insert_id (n_chan n) i q). }
  unfold poll_from. destruct (q_buf q) as [|v b] eqn:Eb; [destruct (q_closed q) eqn:Ec|]; cbn [visit].
  - rewrite Hsame. apply Hnext; [done|done| |].
    + split; cbn [received known]; [by rewrite Eb|by rewrite Ec|]. intros _. by destruct s.
    + intros j Hne. cbn [received known]. by rewrite list_lookup_insert_ne.
  - rewrite Hsame. apply Hnext; [done|done| |done]. split; [by rewrite Eb|by rewrite Ec|]. intros Hf. by rewrite Hi in Hf.
  - apply Hnext; cbn [received known total].
    + rewrite H2, zlen_app. change (zlen [(i, v)]) with 1. apply i32_succ.
    + apply Forall_app. by split; [|constructor].
    + split; cbn [received known q_buf q_closed]; [|done|by rewrite Hi].
      rewrite <- C1, recv_of_app, recv_of_one, decide_True, <- app_assoc by done. done.
    + intros j Hne. split; [done|]. rewrite recv_of_app, recv_of_one, decide_False by auto. apply app_nil_r.
Qed.

Lemma spin_join_step n i d st n' :
  spin_inv n (Join i d st) -> net_go 0 (spin_main (Join i d st)) n = Some n' -> exists m, spin_inv n' m.
Proof.
  intros [H1 H2 H3 H4] E. cbn [spin_main] in E. destruct (i <? N_CHANNELS)%nat; [|done]. cbn [net_go] in E.
  destruct (n_thread n !! (1 + i)%nat) as [su|]; [|done]. cbn [mbind option_bind] in E. destruct (halted _ su); [|done]. injection E as <-.
  eexists. split; simpl; [apply list_lookup_insert_eq; by eapply lookup_lt_Some|done|done|]. intros j Hj.
  destruct (H4 j Hj) as (s & q & K1 & K2 & K3). exists s, q. by rewrite list_lookup_insert_ne by lia.
Qed.

Lemma sender_step n m i s n' :
  spin_inv n m -> (i < N_CHANNELS)%nat -> n_thread n !! (1 + i)%nat = Some (Sender s) ->
  match s with Sending k => 0 <= k <= N_PER_CH | Sent => True end ->
  net_go (1 + i) (sender i s) n = Some n' -> exists m, spin_inv n' m.
Proof.
  intros Hinv Hi Hs Hk E. pose proof Hinv as [H1 H2 H3 H4]. destruct (H4 i Hi) as (s0 & q & K1 & K2 & [C1 C2 C3]).
  rewrite Hs in K1. injection K1 as <-.
  assert (forall s' q', chan_inv i (vars m) s' q' -> exists m, spin_inv (advance (1 + i) (Sender s') (set_queue i q' n)) m) as Hnext.
  { intros s' q' Hc. exists m. apply (spin_inv_at n _ m m i s' q'); cbn [n_thread n_chan advance set_queue]; try done.
    - by rewrite list_lookup_insert_ne by lia.
    - apply list_lookup_insert_eq. by eapply lookup_lt_Some.
    - apply list_lookup_insert_eq. by eapply lookup_lt_Some.
    - intros j Hj Hne. by rewrite !list_lookup_insert_ne by lia. }
  destruct s as [k|]; cbn [sender] in E; [|done].
  assert (known (vars m) !! i <> Some false) as Hkn by (intros Hf; by destruct (C3 Hf)).
  destruct (Z.ltb_spec k N_PER_CH) as [Hlt|Hge]; cbn [net_go] in E; rewrite K2 in E; cbn [mbind option_bind] in E.
  - unfold send_to in E. rewrite C2 in E. destruct (_ <? _); [|done]. injection E as <-. apply Hnext. split; [|done|done].
    rewrite <- C1. cbn [q_buf unsent]. rewrite (seqZ_cons k) by lia. cbn [fmap list_fmap]. rewrite <- !app_assoc.
    replace (Z.pred (N_PER_CH - k)) with (N_PER_CH - (k + 1)) by lia. rewrite <- Z.add_1_r. done.
  - injection E as <-. apply Hnext. split; [|done|done]. rewrite <- C1. cbn [q_buf unsent]. by rewrite (seqZ_nil k) by lia.
Qed.

Lemma polls_ok_step l n n' : polls_ok n -> net_step l n = Some n' -> polls_ok n'.
Proof.
  intros [Hl (m & Hinv)] E. split; [by eapply locally_step; [exact spin_obeys|..]|].
  destruct l as [t|t u]; cbn [net_step] in E; [|by rewrite (no_meeting spin_room) in E].
  destruct (n_thread n !! t) as [s|] eqn:Hs; [|done]. cbn [mbind option_bind] in E. pose proof (lc_thread _ _ _ Hl _ _ Hs) as Hok.
  destruct s as [m0|s]; cbn [okt act spin_prog] in *.
  - destruct Hok as [-> Hm]. rewrite (si_main _ _ Hinv) in Hs. injection Hs as <-. destruct m; [|done|].
    + by eapply poll_step.
    + by eapply spin_join_step.
  - destruct Hok as [Ht Hk]. destruct t as [|i]; [lia|]. replace (S i - 1)%nat with i in E by lia. eapply (sender_step n m i s); [done|lia|done|done|done].
Qed.

Lemma spin_start_ok : polls_ok (net_start N_CHANNELS spin_start).
Proof.
  split.
  - apply locally_start. intros t s Hs. destruct t as [|t].
    + injection Hs as <-. split; [done|]. by apply settle_ok.
    + do 3 (destruct t as [|t]; [simplify_eq/=; unfold N_CHANNELS, N_PER_CH; lia|]). done.
  - exists (settle 0 false spin_init). split; [done|done|by constructor|]. intros i Hi. exists (Sending 0), (mk_queue [] false).
    unfold N_CHANNELS in Hi. do 3 (destruct i as [|i]; [do 2 (split; [done|]); split; done|]). lia.
Qed.

(** ** The length of a run *)

Definition base (st : spin_state) : Z := 8 * count_true (known st) - 4 * zlen (rests st).
Definition spin_weight (s : spin_thread) : Z :=
  match s with
  | Main (Poll i g st) => base st + (11 - Z.of_nat i) + (if g then 4 else 0)
  | Main (Forever st) => base st
  | Main (Join i _ st) => base st + (4 - Z.of_nat i)
  | Sender (Sending k) => 8 * (N_PER_CH - k) + 1
  | Sender Sent => 0
  end.
Definition spin_carried (c : nat) : Z := 6.
Definition spin_measure : net -> Z := net_weight spin_weight spin_carried.

Lemma settle_weight i g st : (i < N_CHANNELS)%nat ->
  spin_weight (Main (settle (S i) g st)) <= base st + (10 - Z.of_nat i) + (if g then 4 else 0).
Proof.
  intros Hi. unfold N_CHANNELS in Hi. unfold settle. destruct (next_known (S i) st) as [j|] eqn:Ej.
  - apply next_known_Some in Ej as [Hj _]. cbn [spin_weight]. lia.
  - cbn zeta. assert (base (end_round g st) = base st - (if g then 0 else 4)) as Hb.
    { unfold base, end_round, backoff. destruct g; cbn [known rests]; [lia|]. rewrite zlen_app. unfold zlen. simpl. lia. }
    destruct (0 <? _); [destruct (next_known 0 _)|]; cbn [spin_weight]; rewrite Hb; destruct g; lia.
Qed.

Lemma spin_lowers t s : okt t s -> lowers spin_weight spin_carried s (act t s).
Proof.
  destruct s as [m|s]; cbn [okt act spin_prog].
  - intros [-> Hm]. destruct m as [i g st|st|i d st]; cbn [spin_main main_ok] in *; [|done|].
    + destruct Hm as [[Hlen Ha] Hi]. pose proof (lookup_lt_Some _ _ _ Hi) as Hlt. rewrite Hlen in Hlt.
      pose proof (fun g st => settle_weight i g st Hlt) as Hs. cbn [lowers visit]. unfold spin_carried. split; [|split].
      * intros v. eapply Z.le_lt_trans; [apply Hs|]. unfold base. cbn [spin_weight known rests]. unfold base. destruct g; lia.
      * eapply Z.le_lt_trans; [apply Hs|]. cbn [spin_weight]. lia.
      * eapply Z.le_lt_trans; [apply Hs|]. unfold base. cbn [spin_weight known rests]. rewrite count_forget by done. unfold base. destruct g; lia.
    + destruct (i <? _)%nat; [|done]. cbn [lowers spin_weight]. lia.
  - intros [Ht Hs]. destruct s as [k|]; cbn [sender]; [|done]. destruct (Z.ltb_spec k N_PER_CH); cbn [lowers spin_weight]; unfold spin_carried; lia.
Qed.

Lemma spin_spends ls n n' : polls_ok n -> net_run ls n = Some n' -> zlen ls + spin_measure n' <= spin_measure n.
Proof.
  revert n. induction ls as [|l ls IH]; intros n Hn E; cbn [net_run] in E; [simplify_eq; unfold zlen; simpl; lia|].
  destruct (net_step l n) as [n1|] eqn:E1; [|done]. cbn [mbind option_bind] in E. specialize (IH n1 (polls_ok_step _ _ _ Hn E1) E).
  assert (spin_measure n1 < spin_measure n); [|rewrite zlen_cons; lia]. eapply weight_step; [|done].
  intros t s Hs. apply spin_lowers. destruct Hn as [Hl _]. by eapply lc_thread.
Qed.

Lemma spin_measure_low n m : polls_ok n -> n_thread n !! 0%nat = Some (Main m) -> - 4 * zlen (rests (vars m)) <= spin_measure n.
Proof.
  intros [Hl _] Hm. unfold spin_measure, net_weight.
  pose proof (chan_weight_nonneg spin_carried 0 (n_chan n) ltac:(intros c; unfold spin_carried; lia)).
  assert (0 <= sum_with spin_weight (<[0%nat := Sender Sent]> (n_thread n))) as Hothers.
  { apply sum_nonneg. intros s (t & Hs)%list_elem_of_lookup_1. destruct (decide (t = 0)%nat) as [->|Hne].
    - rewrite list_lookup_insert_eq in Hs by (by eapply lookup_lt_Some). by injection Hs as <-.
    - rewrite list_lookup_insert_ne in Hs by done. pose proof (lc_thread _ _ _ Hl _ _ Hs) as Hok.
      destruct s as [m'|s]; [by destruct Hok|]. destruct Hok as [_ Hk]. destruct s; cbn [spin_weight] in *; lia. }
  rewrite (sum_update _ _ _ _ _ Hm) in Hothers. change (spin_weight (Sender Sent)) with 0 in Hothers.
  assert (- 4 * zlen (rests (vars m)) <= spin_weight (Main m)); [|lia].
  destruct (lc_thread _ _ _ Hl _ _ Hm) as [_ Hok]. pose proof (known_range (known (vars m))) as Hc.
  destruct m as [i g st|st|i d st]; cbn [spin_weight main_ok vars] in *; [|done|]; unfold base.
  - destruct Hok as [[Hlen _] Hi]. pose proof (lookup_lt_Some _ _ _ Hi) as Hlt. rewrite Hlen in Hlt. unfold N_CHANNELS in Hlt. destruct g; lia.
  - destruct Hok as (_ & Hi & _). unfold N_CHANNELS in Hi. lia.
Qed.

(** ** The end *)

Definition spin_final (st : spin_state) : list spin_thread := Main (Join N_CHANNELS [] st) :: replicate N_CHANNELS (Sender Sent).

Lemma received_length l : Forall (fun p => (p.1 < N_CHANNELS)%nat) l -> zlen l = sum_with (fun i => zlen (recv_of i l)) (seq 0 N_CHANNELS).
Proof.
  induction 1 as [|[j v] l Hj _ IH]; [reflexivity|]. rewrite zlen_cons, IH. unfold N_CHANNELS in *. cbn [seq sum_with foldr fst] in *.
  assert (forall i, zlen (recv_of i ((j, v) :: l)) = (if decide (j = i) then 1 else 0) + zlen (recv_of i l)) as Hz.
  { intros i. change ((j, v) :: l) with ([(j, v)] ++ l). rewrite recv_of_app, zlen_app, recv_of_one. by destruct (decide (j = i)). }
  rewrite !Hz. destruct j as [|[|[|j]]]; simpl; lia.
Qed.

Lemma spin_stuck n : polls_ok n -> (forall l, net_step l n = None) ->
  exists st, n_thread n = spin_final st /\ known st = replicate N_CHANNELS false /\ total st = 30 /\
    forall i, (i < N_CHANNELS)%nat -> recv_of i (received st) = values i.
Proof.
  intros [Hl (m & Hinv)] Hst. pose proof Hinv as [H1 H2 H3 H4]. destruct (lc_thread _ _ _ Hl _ _ H1) as [_ Hm].
  assert (forall n', net_go 0 (spin_main m) n = Some n' -> False) as Hmain.
  { intros n' E. specialize (Hst (Go 0)). cbn [net_step] in Hst. rewrite H1 in Hst. cbn [mbind option_bind act spin_prog] in Hst. congruence. }
  destruct m as [i g st|st|j d st]; cbn [spin_main main_ok vars] in *; [exfalso|done|].
  - destruct Hm as [[Hlen _] Hi]. pose proof (lookup_lt_Some _ _ _ Hi) as Hlt. rewrite Hlen in Hlt.
    destruct (H4 i Hlt) as (s & q & _ & K2 & _). cbn [net_go] in Hmain. rewrite K2 in Hmain. by eapply Hmain.
  - destruct Hm as ([Hlen _] & Hj & -> & Hn).
    assert (forall i, (i < N_CHANNELS)%nat -> known st !! i = Some false) as Hk.
    { intros i Hi. destruct (lookup_lt_is_Some_2 (known st) i ltac:(lia)) as [[|] Hb]; [by destruct (Hn i)|done]. }
    assert (forall i, (i < N_CHANNELS)%nat -> n_thread n !! (1 + i)%nat = Some (Sender Sent) /\ recv_of i (received st) = values i) as Hs.
    { intros i Hi. destruct (H4 i Hi) as (s & q & K1 & _ & [C1 _ C3]). destruct (C3 (Hk i Hi)) as [Eb ->]. rewrite Eb in C1. simpl in C1. by rewrite app_nil_r in C1. }
    assert (j = N_CHANNELS) as ->.
    { destruct (decide (j < N_CHANNELS)%nat) as [Hlt|]; [exfalso|lia]. rewrite (proj2 (Nat.ltb_lt _ _)) in Hmain by done. cbn [net_go] in Hmain.
      destruct (Hs j Hlt) as [K1 _]. rewrite K1 in Hmain. by eapply Hmain. }
    exists st. assert (zlen (received st) = 30) as Hlen30.
    { rewrite received_length by done. unfold N_CHANNELS in *. cbn [seq sum_with foldr].
      destruct (Hs 0%nat ltac:(lia)) as [_ ->]. destruct (Hs 1%nat ltac:(lia)) as [_ ->]. destruct (Hs 2%nat ltac:(lia)) as [_ ->]. reflexivity. }
    rewrite Hlen30 in H2. split; [|split; [|split; [done|intros i Hi; by apply Hs]]].
    + destruct (Hs 0%nat ltac:(unfold N_CHANNELS; lia)) as [A0 _]. destruct (Hs 1%nat ltac:(unfold N_CHANNELS; lia)) as [A1 _].
      destruct (Hs 2%nat ltac:(unfold N_CHANNELS; lia)) as [A2 _].
      apply list_eq. intros t. do 4 (destruct t as [|t]; [done|]). rewrite (lookup_ge_None_2 (spin_final st)) by (simpl; lia).
      apply eq_None_not_Some. intros [s Hs']. pose proof (lc_thread _ _ _ Hl _ _ Hs') as Hok. destruct s; destruct Hok as [Ht _]; unfold N_CHANNELS in Ht; lia.
    + apply list_eq. intros i. destruct (decide (i < N_CHANNELS)%nat) as [Hi|Hi]; [by rewrite Hk, lookup_replicate_2|].
      rewrite !lookup_ge_None_2; [done|rewrite length_replicate; lia|rewrite Hlen; lia].
Qed.

(** ** On the code *)

Definition spin_elem (c : nat) : Z := 4.
Definition spin_cap (c : nat) : Z := 4.

Lemma spin_copied n : polls_ok n -> sends_copied enc_int dec_int n.
Proof.
  intros [Hl _] t s c m k Hs Ha. pose proof (spin_obeys _ _ (lc_thread _ _ _ Hl _ _ Hs)) as Ho. rewrite Ha in Ho.
  apply dec_enc_int, Ho.
Qed.

Lemma spin_fits n : polls_ok n -> calls_fit enc_int spin_elem N_CHANNELS n.
Proof.
  intros [Hl _] t s Hs. pose proof (lc_thread _ _ _ Hl _ _ Hs) as Hok. destruct s as [m|s]; cbn [okt act spin_prog] in *.
  - destruct Hok as [-> Hok]. destruct m as [i g st| |j d st]; cbn [spin_main main_ok] in *; [|done|by case_match].
    destruct Hok as [[Hlen _] Hi]. pose proof (lookup_lt_Some _ _ _ Hi) as Hlt. cbn [call_fits]. lia.
  - destruct Hok as [Ht _]. destruct s; cbn [sender]; repeat case_match; cbn [call_fits]; try done; try lia. split; [lia|done].
Qed.

(** C29: Spin polling on the code of the library, under every schedule: no call is
    undefined or hangs; a run has at most 36 steps for each round that ended in a
    back-off and 2511 others; and where nothing moves any more every thread has
    returned, [main] has received from each channel the ten values in the order they
    were sent, 30 in all, it knows no channel any more and so has destroyed none. *)
Theorem spin_receives_all `{Malloc} (Hmem : malloc 16 <> None) :
  exists n0, cnet_start spin_elem spin_cap N_CHANNELS spin_start = Ret n0 /\ forall ls o, cnet_run enc_int dec_int ls n0 = Some o ->
  exists n, o = Ret n /\
    (forall m, cn_thread n !! 0%nat = Some (Main m, false) -> Z.of_nat (length ls) <= 2511 + 36 * zlen (rests (vars m))) /\
    (cstuck enc_int dec_int n -> exists st, cn_thread n = (., false) <$> spin_final st /\ known st = replicate N_CHANNELS false /\ total st = 30 /\
       forall i, (i < N_CHANNELS)%nat -> recv_of i (received st) = values i).
Proof.
  assert (forall c, 0 <= Net.room c) as Hroom by (intros c; pose proof (spin_room c); lia).
  destruct (program_on_code enc_int dec_int spin_elem spin_cap polls_ok polls_ok_step spin_copied N_CHANNELS spin_start Hroom
    ltac:(intros c _; split; unfold spin_elem, spin_cap; try done; lia) ltac:(done) spin_fits spin_start_ok) as (n0 & E0 & Hrun).
  exists n0. split; [done|]. intros ls o E. destruct (Hrun ls o E) as (n & ks & n' & -> & Hks & Hok & Hag & Hlen & Hb & Hst).
  exists n. split; [done|]. split.
  - intros m Hm. pose proof (spin_spends ks _ n' spin_start_ok Hks) as Hsp. pose proof (spin_measure_low n' m Hok (Hag _ _ Hm)) as Hlow.
    change (spin_measure (net_start N_CHANNELS spin_start)) with 278 in Hsp. change (length spin_start) with 4%nat in Hb. unfold zlen in *. lia.
  - intros Hs. destruct (Hst Hs) as (H1 & H2 & H3). destruct (spin_stuck n' Hok H1) as (st & Hth & Hst'). exists st. split; [|done].
    rewrite <- Hth. apply code_halted; [done|done|]. rewrite Hth. intros t s Ht. do 4 (destruct t as [|t]; [by simplify_eq/=|]). done.
Qed.

(** A run that ends: every sender in turn, then every channel in turn. *)
Definition in_turn : list slabel :=
  concat (replicate 11 [Call 1; Call 2; Call 3; Call 0; Call 0; Call 0]) ++ [Call 0; Call 0; Call 0].

Lemma spin_receives_all_witness :
  match @cnet_start _ spin_elem spin_cap malloc_ex N_CHANNELS spin_start with
  | Ret n0 => match cnet_run enc_int dec_int in_turn n0 with
              | Some (Ret n) => match cn_thread n with (Main (Join i destroyed st), false) :: _ => Some (i, destroyed, total st) | _ => None end
              | _ => None
              end
  | _ => None
  end = Some (3%nat, [], 30) /\
  exists n0, @cnet_start _ spin_elem spin_cap malloc_ex N_CHANNELS spin_start = Ret n0 /\ forall ls o, cnet_run enc_int dec_int ls n0 = Some o ->
  exists n, o = Ret n /\
    (forall m, cn_thread n !! 0%nat = Some (Main m, false) -> Z.of_nat (length ls) <= 2511 + 36 * zlen (rests (vars m))) /\
    (cstuck enc_int dec_int n -> exists st, cn_thread n = (., false) <$> spin_final st /\ known st = replicate N_CHANNELS false /\ total st = 30 /\
       forall i, (i < N_CHANNELS)%nat -> recv_of i (received st) = values i).
Proof. split; [vm_compute; reflexivity|]. apply (@spin_receives_all malloc_ex). vm_compute. discriminate. Defined.

(** The counter of [backoff] is an [int] that idle rounds raise without bound: past
    its largest value it is negative, and the loop pauses where it slept. *)
Lemma backoff_wraps : let (r, k) := backoff 2147483647 in r = Sleep /\ k = -2147483648 /\ (backoff k).1 = Pause.
Proof. vm_compute. auto. Qed.
