(* ===== verification/Fairness.v ===== *)
(** * Fairness of select: [examples/select_fairness.c]

    One thread keeps three channels non-empty and selects over them, counting which
    case wins.  The documentation promises a uniformly random choice; the code tries
    the cases in turn from a counter of the thread, so the demonstration is exact:
    after [n] selects the counts are [n/3] rounded up or down.  The counter is shared
    by all selects of a thread, so a thread that alternates between two selects can
    starve a case of each for ever ([alternating_selects]). *)

From S2P Require Import Prelude RingLf Heap WaitQ Abs Chan ChanSend ChanRecv Select SelectReady Net NetHeap.
From stdpp Require Import list.
#[local] Open Scope Z_scope.

(** ** The counter decides *)

(** A receive case with a message in its channel and nobody waiting there. *)
Record takes (a : aheap) (c : select_case) (A : achan) (b e : list byte) (buf : list (list byte)) : Prop := {
  tk_case : case_ok a c A b;
  tk_op : c_op c = CHAN_OP_RECV;
  tk_cap : a_cap A <> 0;
  tk_scnt : a_scnt A = 0;
  tk_rcnt : a_rcnt A = 0;
  tk_buf : a_buf A = e :: buf
}.
Definition can_take (a : aheap) (c : select_case) : Prop := exists A b e buf, takes a c A b e buf.

Lemma awp_none_closed i cs a (Q : option nat -> aheap -> Prop) :
  Forall (can_take a) cs -> Q None a -> awp (select_closed i cs) a Q.
Proof.
  intros Hcs HQ. revert i. induction Hcs as [|c cs (A & b & e & buf & [[HA _ _ _ _] Hop _ Hs Hr Hb]) _ IH]; intros i; simpl; [by apply awp_ret|].
  rewrite Hop. awp_go. destruct (a_closed A); simpl; [|apply IH]. awp_go. rewrite Hs. simpl. awp_go. rewrite Hr. simpl.
  apply awp_bind. eapply awp_ring_empty; [done|]. rewrite bool_decide_eq_false_2 by (by rewrite Hb). simpl. apply IH.
Qed.

(** Which case wins: the one at the thread's counter. *)
Definition turn (t : tls) (n : nat) : nat := Z.to_nat (rr t mod Z.of_nat n).
Definition next_turn (t : tls) : tls := mk_tls (u64 (rr t + 1)) (rng_state t).

Lemma rotation_head start n : (0 < n)%nat -> 0 <= start < Z.of_nat n -> Z.of_nat n < two64 -> exists l, rotation start n = Z.to_nat start :: l.
Proof.
  intros Hn Hs Hw. unfold rotation. destruct n as [|n]; [lia|]. cbn [seq fmap list_fmap]. eexists. f_equal.
  rewrite Z.add_0_r, u64_small, Z.mod_small by lia. done.
Qed.

Lemma awp_turn f self_id timeout_ns cases t a c A b e buf (Q : flow (Z * list select_case * tls) -> aheap -> Prop) :
  Forall (can_take a) cases -> Z.of_nat (length cases) < two64 -> cases !! turn t (length cases) = Some c -> takes a c A b e buf ->
  Q (Done (Z.of_nat (turn t (length cases)), set_result (turn t (length cases)) CHAN_OK cases, next_turn t))
    (on_mem (c_data c) (overlay (a_es A) e b) (on_chan (c_ch c) (set_a_buf buf A) a)) ->
  awp (chan_select_impl f self_id (Some cases) timeout_ns t) a Q.
Proof.
  intros Hcs Hw Hc [[HA Hok Hqu Hm Hl] Hop Hcap Hs Hr Hb] HQ. unfold chan_select_impl. destruct cases as [|c0 cs]; [done|].
  apply awp_bind. unfold chan_select_fast. apply awp_bind, awp_none_closed; [done|]. cbn zeta.
  pose proof (Z.mod_pos_bound (rr t) (Z.of_nat (length (c0 :: cs)))) as Hb0.
  destruct (rotation_head (rr t mod Z.of_nat (length (c0 :: cs))) (length (c0 :: cs)) ltac:(simpl; lia) ltac:(apply Hb0; simpl; lia) Hw) as [l ->].
  fold (turn t (length (c0 :: cs))). cbn [select_ring]. rewrite Hc. apply awp_bind, awp_bind.
  intros h R. eapply wp_lift; [done|]. exists a. split; [done|]. cbv beta. awp_soft.
  rewrite (proj2 (Z.eqb_neq _ _) Hcap). awp_soft. rewrite Hs. cbn [Z.eqb negb]. awp_soft. rewrite Hr. cbn [Z.eqb negb].
  rewrite Hop. apply awp_bind. eapply awp_ring_pop; [done..|]. rewrite Hb. awp_soft. exact HQ.
Qed.

(** ** Two selects in turn *)

Section alternating.
Context (f : sel_frame) (self_id timeout_ns : Z).

(** A thread that calls two selects alternately; [hs] is the memory each call finds. *)
Fixpoint alternate (hs : list heap) (cases other : list select_case) (t : tls) : res (list Z) :=
  match hs with
  | [] => Ret []
  | h :: hs =>
      let! (r, _) := chan_select_timeout f self_id (Some cases) timeout_ns t h in
      match r with
      | Done (w, _, t) => let! ws := alternate hs other cases t in Ret (w :: ws)
      | Park _ _ _ => Hang
      end
  end.

(** The winners, when the first of them is [w]. *)
Fixpoint zigzag (w : Z) (n : nat) : list Z := match n with O => [] | S n => w :: zigzag (1 - w) n end.

Definition both_ready (cases other : list select_case) (h : heap) : Prop :=
  exists a, repr h a /\ Forall (can_take a) cases /\ Forall (can_take a) other.

Lemma next_turn_parity t : rr (next_turn t) mod 2 = 1 - rr t mod 2.
Proof.
  unfold next_turn. simpl. unfold u64, two64. rewrite Z.mod_mod_divide by (exists 9223372036854775808; done).
  pose proof (Z.mod_pos_bound (rr t) 2). rewrite Zplus_mod, (Z.mod_small 1) by lia.
  destruct (decide (rr t mod 2 = 0)) as [->|]; [done|]. assert (rr t mod 2 = 1) as -> by lia. done.
Qed.

Lemma turn_result cases t h a : repr h a -> Forall (can_take a) cases -> (0 < length cases)%nat -> Z.of_nat (length cases) < two64 ->
  exists cases' h', chan_select_timeout f self_id (Some cases) timeout_ns t h
    = Ret (Done (Z.of_nat (turn t (length cases)), cases', next_turn t), h').
Proof.
  intros R Hcs Hpos Hw. assert (turn t (length cases) < length cases)%nat as Hlt.
  { unfold turn. pose proof (Z.mod_pos_bound (rr t) (Z.of_nat (length cases))). lia. }
  destruct (lookup_lt_is_Some_2 _ _ Hlt) as [c Hc]. destruct (Forall_lookup_1 _ _ _ _ Hcs Hc) as (A & b & e & buf & Ht).
  destruct (awp_run _ _ (fun r a' => r = Done (Z.of_nat (turn t (length cases)), set_result (turn t (length cases)) CHAN_OK cases, next_turn t))
    h (awp_turn f self_id timeout_ns cases t a c A b e buf _ Hcs Hw Hc Ht eq_refl) R) as (r & h' & a' & E & _ & ->).
  by exists (set_result (turn t (length cases)) CHAN_OK cases), h'.
Qed.

(** A thread that selects over two ready cases, then over two other ready cases, and
    so on, gets the same case of each every time, in whatever memory the calls find:
    the counter of [chan_select_fast] is shared by all selects of a thread.  The other
    case of each is starved, though select is documented to choose at random. *)
Theorem alternating_selects cases other hs t
    (Hc : length cases = 2%nat) (Ho : length other = 2%nat) (Hs : Forall (both_ready cases other) hs) :
  alternate hs cases other t = Ret (zigzag (rr t mod 2) (length hs)).
Proof.
  revert cases other t Hc Ho Hs. induction hs as [|h hs IH]; intros cases other t Hc Ho Hs; [done|].
  apply Forall_cons in Hs as [(a & R & H1 & H2) Hs]. cbn [alternate length zigzag].
  destruct (turn_result cases t h a R H1 ltac:(lia) ltac:(by rewrite Hc)) as (cs' & h' & ->). cbn [res_bind].
  rewrite (IH other cases (next_turn t) Ho Hc); [|eapply Forall_impl; [exact Hs|]; intros x (a' & ? & ? & ?); by exists a'].
  cbn [res_bind]. rewrite next_turn_parity. do 2 f_equal. rewrite Hc. unfold turn. pose proof (Z.mod_pos_bound (rr t) 2). simpl Z.of_nat at 2. lia.
Qed.
End alternating.

(** ** The demonstration *)

Definition N_CH : nat := 3.
Definition TRIALS : nat := Z.to_nat 30000.

Section demo.
Context (f : sel_frame) (self_id : Z) (self v out : ptr).

(** [v] is a variable with the value 0, [self] the waiter of a send. *)
Fixpoint refill (chs : list ptr) : Heap.M unit :=
  match chs with
  | [] => mret tt
  | ch :: chs =>
      n ← chan_len ch;
      (if n =? 0 then
         r ← chan_try_send ch v self;
         match r with Done _ => mret tt | Park _ _ _ => hang end
       else mret tt);;
      refill chs
  end.

Definition fair_cases (chs : list ptr) : list select_case := (fun ch => mk_case ch CHAN_OP_RECV out CHAN_OK) <$> chs.

(** The loop over the trials: exit status 1, or the counts at the end. *)
Fixpoint trials (n : nat) (chs : list ptr) (counts : list Z) (t : tls) : Heap.M (Z + list Z) :=
  match n with
  | O => mret (inr counts)
  | S n =>
      refill chs;;
      r ← chan_select f self_id (Some (fair_cases chs)) t;
      match r with
      | Done (w, _, t) =>
          if (w <? 0) || (Z.of_nat N_CH <=? w) then mret (inl 1)
          else trials n chs (alter (fun c => u32 (c + 1)) (Z.to_nat w) counts) t
      | Park _ _ _ => hang
      end
  end.

Fixpoint finish_chans (chs : list ptr) : Heap.M unit :=
  match chs with [] => mret tt | ch :: chs => _ ← chan_close ch; chan_destroy ch;; finish_chans chs end.

Definition fair_main `{Malloc} (n : nat) (t : tls) : Heap.M (Z + list Z) :=
  chs ← create_chans (fun _ => 4) (fun _ => 4) (seq 0 N_CH);
  refill chs;;
  r ← trials n chs (replicate N_CH 0) t;
  match r with
  | inl e => mret (inl e)
  | inr counts => finish_chans chs;; mret (inr counts)
  end.

(** ** The memory of the demonstration *)

Definition zero : list byte := replicate 4 x00.
Definition demo_chan (buf : list (list byte)) : achan := set_a_buf buf (new_achan 4 4 false 4).

(** The channels hold the messages [bs], and nobody waits. *)
Record demo (a : aheap) (bs : list (list (list byte))) : Prop := {
  dm_chan : forall i, a_chan a !! chan_ptr i = demo_chan <$> bs !! i;
  dm_only : forall p A, a_chan a !! p = Some A -> exists i, p = chan_ptr i;
  dm_wait : a_wait a !! self = None;
  dm_v : a_mem a !! v = Some zero;
  dm_out : exists o, a_mem a !! out = Some o /\ 4 <= zlen o;
  dm_bufs : Forall (fun b => b = [] \/ b = [zero]) bs
}.

Hypothesis Hself : self <> NULL.
Hypothesis Hv : v <> NULL.
Hypothesis Hvout : v <> out.

Lemma demo_set a bs i b : demo a bs -> (i < length bs)%nat -> b = [] \/ b = [zero] ->
  demo (on_chan (chan_ptr i) (demo_chan b) a) (<[i := b]> bs).
Proof.
  intros [H1 H2 H3 H4 H5 H6] Hi Hb. split; simpl; try done.
  - intros j. destruct (decide (j = i)) as [->|Hne]; [by rewrite lookup_insert_eq, list_lookup_insert_eq|].
    rewrite lookup_insert_ne, list_lookup_insert_ne by (try done; intros E%chan_ptr_inj; by subst). apply H1.
  - intros p A [(<- & _)|(_ & HA)]%lookup_insert_Some; [by exists i|by eapply H2].
  - by apply Forall_insert.
Qed.
Lemma demo_out a bs o : demo a bs -> 4 <= zlen o -> demo (on_mem out o a) bs.
Proof.
  intros [H1 H2 H3 H4 H5 H6] Ho. split; simpl; try done; [by rewrite lookup_insert_ne|].
  exists o. by rewrite lookup_insert_eq.
Qed.
Lemma demo_buf a bs i b : demo a bs -> bs !! i = Some b -> b = [] \/ b = [zero].
Proof. intros Hd Hb. exact (Forall_lookup_1 _ _ _ _ (dm_bufs _ _ Hd) Hb). Qed.
Lemma demo_at a bs i b : demo a bs -> bs !! i = Some b -> a_chan a !! chan_ptr i = Some (demo_chan b).
Proof. intros Hd Hb. by rewrite (dm_chan _ _ Hd), Hb. Qed.
Lemma chan_ptr_some i : chan_ptr i <> NULL.
Proof. unfold chan_ptr, NULL. lia. Qed.

Lemma demo_ok a b cl : b = [] \/ b = [zero] -> chan_ok a (set_a_closed cl (demo_chan b)) /\ quiescent (set_a_closed cl (demo_chan b)).
Proof.
  intros Hb. split; [|by split]. split; simpl; try done; try lia.
  - intros _. split; [lia|]. destruct Hb as [->| ->]; unfold zlen; simpl; lia.
  - destruct Hb as [->| ->]; [constructor|]. by constructor.
  - intros [] x; simpl; set_solver.
Qed.

Lemma awp_chan_len p A a (Q : Z -> aheap -> Prop) :
  a_chan a !! p = Some A -> p <> NULL -> a_cap A <> 0 -> Q (zlen (a_buf A)) a -> awp (chan_len p) a Q.
Proof.
  intros HA Hp Hcap HQ. unfold chan_len. rewrite (proj2 (Z.eqb_neq _ _) Hp). awp_go. rewrite (proj2 (Z.eqb_neq _ _) Hcap).
  intros h R. destruct (repr_lookup _ _ _ _ R HA) as (c & Hc & Hr). unfold field. wp_go. exists a. split; [done|].
  destruct (rep_ring _ _ _ Hr Hcap) as ((sl & cc & V) & _ & _). by rewrite (count_view _ _ _ _ V).
Qed.

Lemma awp_refill i bs a (Q : unit -> aheap -> Prop) :
  demo a (replicate i [zero] ++ bs) -> (forall a', demo a' (replicate (i + length bs) [zero]) -> Q tt a') ->
  awp (refill (chan_ptr <$> seq i (length bs))) a Q.
Proof.
  revert i a. induction bs as [|b bs IH]; intros i a Hd HQ; simpl.
  { apply awp_ret, HQ. rewrite Nat.add_0_r. by rewrite app_nil_r in Hd. }
  assert ((replicate i [zero] ++ b :: bs) !! i = Some b) as Hb.
  { rewrite lookup_app_r; rewrite length_replicate; [|done]. by rewrite Nat.sub_diag. }
  pose proof (demo_at _ _ _ _ Hd Hb) as HA. pose proof (demo_buf _ _ _ _ Hd Hb) as Hbuf. destruct (demo_ok a b false Hbuf) as [Hok Hqu].
  assert (forall a', demo a' (replicate i [zero] ++ [zero] :: bs) -> awp (refill (chan_ptr <$> seq (S i) (length bs))) a' Q) as Hnext.
  { intros a' Hd'. apply IH.
    - rewrite replicate_S_end, <- app_assoc. exact Hd'.
    - intros a2 Hd2. apply HQ. by replace (i + length (b :: bs))%nat with (S i + length bs)%nat by (simpl; lia). }
  apply awp_bind. eapply awp_chan_len; [done|apply chan_ptr_some|done|]. simpl a_buf. apply awp_bind.
  destruct Hbuf as [-> | ->]; cbn [zlen length Z.of_nat Z.eqb]; [|by apply awp_ret, Hnext].
  apply awp_bind. eapply (chan_send_awp _ v self 0 (demo_chan []) a zero); try done.
  - by apply dm_v with (bs := replicate i [zero] ++ [] :: bs).
  - by apply dm_wait with (bs := replicate i [zero] ++ [] :: bs).
  - apply chan_ptr_some.
  - change (send_spec (chan_ptr i) v 0 self (message (a_es (demo_chan [])) zero) (demo_chan []) a)
      with (Done CHAN_OK, on_chan (chan_ptr i) (demo_chan [zero]) a). apply awp_ret, Hnext.
    pose proof (demo_set a _ i [zero] Hd ltac:(rewrite length_app, length_replicate; simpl; lia) ltac:(by right)) as Hd'.
    rewrite insert_app_r_alt, length_replicate, Nat.sub_diag in Hd' by (by rewrite length_replicate). exact Hd'.
Qed.

(** ** The trials *)

(** The wins after [j] trials. *)
Definition wins (j : Z) : list Z := [(j + 2) / 3; (j + 1) / 3; j / 3].

Lemma wins_next j : 0 <= j < UINT32_MAX -> alter (fun c => u32 (c + 1)) (Z.to_nat (j mod 3)) (wins j) = wins (j + 1).
Proof.
  intros Hj. unfold UINT32_MAX in Hj. assert (j mod 3 = 0 \/ j mod 3 = 1 \/ j mod 3 = 2) as Hr by (pose proof (Z.mod_pos_bound j 3); lia).
  unfold wins. destruct Hr as [Hr|[Hr|Hr]]; rewrite Hr; simpl; rewrite u32_small by (unfold two32; Z.div_mod_to_equations; lia);
    repeat match goal with |- _ :: _ = _ :: _ => f_equal end; Z.div_mod_to_equations; lia.
Qed.

Lemma fair_takes a b i : demo a (replicate N_CH [zero]) -> (i < N_CH)%nat -> a_mem a !! out = Some b -> 4 <= zlen b ->
  takes a (mk_case (chan_ptr i) CHAN_OP_RECV out CHAN_OK) (demo_chan [zero]) b zero [].
Proof.
  intros Hd Hi Hb Hl. destruct (demo_ok a [zero] false ltac:(by right)) as [Hok Hqu]. split; try done. split; try done. simpl.
  apply (demo_at a (replicate N_CH [zero])); [done|]. by apply lookup_replicate_2.
Qed.

#[local] Notation chs := (chan_ptr <$> seq 0 N_CH).

Lemma awp_trials n t a bs (Q : Z + list Z -> aheap -> Prop) :
  demo a bs -> length bs = N_CH -> 0 <= rr t -> rr t + Z.of_nat n <= UINT32_MAX ->
  (forall a' bs', demo a' bs' -> length bs' = N_CH -> Q (inr (wins (rr t + Z.of_nat n))) a') ->
  awp (trials n chs (wins (rr t)) t) a Q.
Proof.
  revert t a bs. induction n as [|n IH]; intros t a bs Hd Hl Hr Hn HQ; cbn [trials].
  { apply awp_ret. rewrite Z.add_0_r in HQ. by eapply HQ. }
  apply awp_bind. rewrite <- Hl. apply (awp_refill 0 bs); [done|]. intros a1 Hd1. rewrite Hl in *. cbn [Nat.add] in Hd1.
  destruct (dm_out _ _ Hd1) as (o & Ho & Hol).
  assert (turn t N_CH < N_CH)%nat as Hlt.
  { unfold turn, N_CH. pose proof (Z.mod_pos_bound (rr t) 3). lia. }
  pose proof (fair_takes a1 o _ Hd1 Hlt Ho Hol) as Ht.
  assert (length (fair_cases chs) = N_CH) as Elen by done.
  apply awp_bind. eapply awp_turn; [| |rewrite Elen|exact Ht|].
  - apply Forall_fmap, Forall_fmap, Forall_forall. intros i Hi%elem_of_seq. exists (demo_chan [zero]), o, zero, []. apply fair_takes; [done|lia|done|done].
  - done.
  - unfold fair_cases. rewrite !list_lookup_fmap, lookup_seq_lt by done. done.
  - rewrite Elen. cbv beta iota. cbn [c_data c_ch].
    rewrite (proj2 (orb_false_iff _ _)); [|split; [apply Z.ltb_ge; lia|apply Z.leb_gt; lia]].
    rewrite Nat2Z.id. unfold turn at 1. change (Z.of_nat N_CH) with 3. unfold UINT32_MAX in Hn. rewrite wins_next by (unfold UINT32_MAX; lia).
    assert (rr (next_turn t) = rr t + 1) as Er by (unfold next_turn; simpl; apply u64_small; unfold two64; lia). rewrite <- Er.
    assert (demo (on_chan (chan_ptr (turn t N_CH)) (demo_chan []) a1) (<[turn t N_CH := []]> (replicate N_CH [zero]))) as Hd2.
    { apply demo_set; [done|by rewrite length_replicate|by left]. }
    eapply IH.
    + apply demo_out; [exact Hd2|]. apply (zlen_overlay 4 zero o); [lia|done].
    + by rewrite length_insert, length_replicate.
    + lia.
    + unfold UINT32_MAX. lia.
    + rewrite Er. replace (rr t + 1 + Z.of_nat n) with (rr t + Z.of_nat (S n)) by lia. exact HQ.
Qed.

(** ** Creation and end *)

Lemma awp_create `{Malloc} k a (Q : list ptr -> aheap -> Prop) : malloc 16 <> None ->
  forall i, demo a (replicate i []) -> (forall a', demo a' (replicate (i + k) []) -> Q (chan_ptr <$> seq i k) a') ->
  awp (create_chans (fun _ => 4) (fun _ => 4) (seq i k)) a Q.
Proof.
  intros Hmem. revert a Q. induction k as [|k IH]; intros a Q i Hd HQ; cbn [seq create_chans].
  { apply awp_ret. apply HQ. by rewrite Nat.add_0_r. }
  assert (a_chan a !! chan_ptr i = None) as Hfree.
  { rewrite (dm_chan _ _ Hd), lookup_ge_None_2; [done|]. by rewrite length_replicate. }
  apply awp_bind, create_awp; [done|lia|lia|done|done| |intros _ E; by destruct Hmem].
  intros slots _ _ ->. change (next_pow2 4) with 4. apply awp_bind, (IH _ _ (S i)).
  - destruct Hd as [H1 H2 H3 H4 H5 H6]. split; simpl; try done.
    + intros j. destruct (decide (j = i)) as [->|Hne].
      * rewrite lookup_insert_eq. change ([] :: replicate i []) with (replicate (S i) (@nil (list byte))). by rewrite lookup_replicate_2 by lia.
      * rewrite lookup_insert_ne by (intros E%chan_ptr_inj; by subst). rewrite H1. change ([] :: replicate i []) with (replicate (S i) (@nil (list byte))).
        destruct (decide (j < i)%nat); [by rewrite !lookup_replicate_2 by lia|].
        rewrite !lookup_ge_None_2 by (rewrite length_replicate; lia). done.
    + intros p A [(<- & _)|(_ & HA)]%lookup_insert_Some; [by exists i|by eapply H2].
    + constructor; [by left|done].
  - intros a' Hd'. apply awp_ret, (HQ a'). by rewrite Nat.add_succ_r.
Qed.

Lemma awp_finish_chans cs a (Q : unit -> aheap -> Prop) :
  NoDup cs -> (forall c, c ∈ cs -> exists b, (b = [] \/ b = [zero]) /\ a_chan a !! chan_ptr c = Some (demo_chan b)) ->
  (forall p A, a_chan a !! p = Some A -> exists c, c ∈ cs /\ p = chan_ptr c) -> (forall a', a_chan a' = ∅ -> Q tt a') ->
  awp (finish_chans (chan_ptr <$> cs)) a Q.
Proof.
  intros Hnd. revert a. induction Hnd as [|c cs Hc Hnd IH]; intros a Hin Honly HQ; cbn [fmap list_fmap finish_chans].
  { apply awp_ret, HQ. apply map_eq. intros p. rewrite lookup_empty. apply eq_None_not_Some. intros [A HA]. destruct (Honly p A HA) as (c & Hc & _). by apply elem_of_nil in Hc. }
  destruct (Hin c ltac:(left)) as (b & Hb & HA). destruct (demo_ok a b false Hb) as [Hok _].
  apply awp_bind. eapply chan_close_awp; [apply chan_ptr_some|done|done|]. cbn [a_closed demo_chan new_achan set_a_buf].
  assert (close_waiters (demo_chan b) a = a) as -> by (by destruct Hb as [->| ->]).
  apply awp_bind. eapply (chan_destroy_awp _ (closed_chan (demo_chan b))).
  - apply chan_ptr_some.
  - apply lookup_insert_eq.
  - apply (demo_ok _ b true Hb).
  - done.
  - cbn. apply IH; simpl.
    + intros d Hd. destruct (Hin d ltac:(by right)) as (b' & Hb' & HA'). exists b'. split; [done|].
      assert (chan_ptr d <> chan_ptr c) by (intros E%chan_ptr_inj; by subst). rewrite lookup_delete_ne, lookup_insert_ne by auto. exact HA'.
    + intros p A. rewrite delete_insert_eq, lookup_delete_Some. intros [Hne HA']. destruct (Honly p A HA') as (d & Hd & ->).
      apply elem_of_cons in Hd as [->|Hd]; [done|]. by exists d.
    + exact HQ.
Qed.
End demo.

(** ** Theorem *)

(** The memory [main] starts with: its variables. *)
Definition demo_heap (v out : ptr) (o : list byte) : heap := mk_heap ∅ ∅ ∅ ∅ (<[v := zero]> {[out := o]}) [].

Lemma demo_heap_repr v out o : repr (demo_heap v out o) (mk_aheap ∅ ∅ ∅ ∅ (<[v := zero]> {[out := o]})).
Proof. split; try done. apply map_Forall2_empty. Qed.

Lemma no_chan_left h a : repr h a -> a_chan a = ∅ -> h_chan h = ∅.
Proof.
  intros R Ha. apply map_eq. intros p. pose proof (r_chan _ _ R p) as Hp. rewrite Ha, lookup_empty in Hp. rewrite lookup_empty. by inversion Hp.
Qed.

(** C30: The fairness demonstration on the code of the library, for every number of
    trials an [unsigned] holds: no call is undefined, hangs or waits, no select
    reports anything but one of its cases, and the cases win strictly in turn: after
    [n] trials the counts are [n/3] rounded up for the first cases and down for the
    last, 10000 each after the 30000 trials of the program; the state of the random
    generator has no influence.  At the end no channel is left. *)
Theorem select_takes_turns `{Malloc} (Hmem : malloc 16 <> None) f self_id self v out o n rng
    (Hself : self <> NULL) (Hv : v <> NULL) (Hvout : v <> out) (Ho : 4 <= zlen o) (Hn : Z.of_nat n <= UINT32_MAX) :
  exists h', fair_main f self_id self v out n (mk_tls 0 rng) (demo_heap v out o) = Ret (inr (wins (Z.of_nat n)), h') /\ h_chan h' = ∅.
Proof.
  set (a0 := mk_aheap ∅ ∅ ∅ ∅ (<[v := zero]> {[out := o]})).
  assert (demo self v out a0 (replicate 0 [])) as Hd.
  { split; simpl; try done; [apply lookup_insert_eq|]. exists o. rewrite lookup_insert_ne by done. by rewrite lookup_singleton_eq. }
  assert (awp (fair_main f self_id self v out n (mk_tls 0 rng)) a0 (fun r a' => r = inr (wins (Z.of_nat n)) /\ a_chan a' = ∅)) as Hawp.
  { apply awp_bind, (awp_create self v out N_CH a0 _ Hmem 0%nat); [done|]. intros a1 Hd1. cbn [Nat.add] in Hd1.
    apply awp_bind. apply (awp_refill self v out Hself Hv Hvout 0%nat (replicate N_CH [])); [done|]. intros a2 Hd2. cbn [Nat.add length replicate N_CH] in Hd2.
    apply awp_bind. apply (awp_trials f self_id self v out Hself Hv Hvout n (mk_tls 0 rng) a2 (replicate N_CH [zero])); [done|done|done|done|].
    intros a3 bs Hd3 Hl. cbn [rr]. rewrite Z.add_0_l. apply awp_bind, (awp_finish_chans self v out Hself Hv Hvout).
    - apply NoDup_seq.
    - intros c Hc%elem_of_seq. destruct (lookup_lt_is_Some_2 bs c ltac:(lia)) as [b Hb]. exists b.
      split; [by eapply demo_buf|by eapply demo_at].
    - intros p A HA. destruct (dm_only _ _ _ _ _ Hd3 p A HA) as [i ->]. exists i. split; [|done]. apply elem_of_seq.
      rewrite (dm_chan _ _ _ _ _ Hd3) in HA. destruct (bs !! i) eqn:Hi; [|done]. apply lookup_lt_Some in Hi. lia.
    - intros a4 E4. by apply awp_ret. }
  destruct (awp_run _ _ _ _ Hawp (demo_heap_repr v out o)) as (r & h' & a' & E & R & -> & Ha). exists h'. split; [done|]. by eapply no_chan_left.
Qed.

Lemma select_takes_turns_witness :
  exists h', @fair_main frame_ex 7 301 201 202 malloc_ex TRIALS (mk_tls 0 5) (demo_heap 201 202 zero) = Ret (inr [10000; 10000; 10000], h') /\
    h_chan h' = ∅.
Proof.
  assert (wins (Z.of_nat TRIALS) = [10000; 10000; 10000]) as <- by (vm_compute; reflexivity).
  apply (@select_takes_turns malloc_ex); try done; vm_compute; discriminate.
Defined.

(** Two selects, each over two of four channels that are always ready: channel 1 and
    channel 2 never win. *)
Example alternating_starves :
  match (chs ← @create_chans (fun _ => 4) (fun _ => 4) malloc_ex (seq 0 4); refill 301 201 chs;; mret chs) (demo_heap 201 202 zero) with
  | Ret (chs, h) => alternate frame_ex 7 (-1) (replicate 6 h) (fair_cases 202 (take 2 chs)) (fair_cases 202 (drop 2 chs)) (mk_tls 0 5)
  | _ => Undef
  end = Ret [0; 1; 0; 1; 0; 1].
Proof. vm_compute. reflexivity. Qed.
