(* ===== verification/Sieve.v ===== *)
(** * The prime sieve: [examples/sieve_primes.c]

    A thread generates the numbers from 2, every prime found gets a filter thread,
    and channels of one place chain them.  The threads run interleaved: each step
    is one channel operation of one thread, a blocking operation is a step that is
    not enabled.  Under every schedule the program prints exactly the primes up to
    its limit and ends. *)

From S2P Require Import Prelude.
From Stdlib Require Import ZArith.Znumtheory Sorting.Sorted.
From Equations Require Import Equations.
From stdpp Require Import list.
#[local] Open Scope Z_scope.

Definition LIMIT : Z := 541.
Definition MAXSTAGE : Z := 256.

(** ** The threads *)

(** A channel between two threads, as the contract of the library gives it to one
    blocking sender and one blocking receiver. *)
Record link := mk_link { l_buf : list Z; l_closed : bool }.
Definition new_link : link := mk_link [] false.
Definition push (v : Z) (l : link) : link := mk_link (l_buf l ++ [v]) (l_closed l).
Definition close (l : link) : link := mk_link (l_buf l) true.

Section sieve.
Context (room : nat).   (* how many messages a channel holds *)

Inductive send_answer := Sent (l : link) | SendClosed | SendBlocks.
Definition link_send (v : Z) (l : link) : send_answer :=
  if l_closed l then SendClosed
  else if (length (l_buf l) <? room)%nat then Sent (push v l) else SendBlocks.

Inductive recv_answer := Got (v : Z) (l : link) | RecvClosed | RecvBlocks.
Definition link_recv (l : link) : recv_answer :=
  match l_buf l with
  | v :: b => Got v (mk_link b (l_closed l))
  | [] => if l_closed l then RecvClosed else RecvBlocks
  end.

(** [generate]: about to send [i], or over. *)
Inductive gen_state := GenSend (i : Z) | GenDone.

Definition generate (g : gen_state) (out : link) : option (gen_state * link) :=
  match g with
  | GenSend i =>
      if i <=? LIMIT then
        match link_send i out with
        | Sent out => Some (GenSend (i + 1), out)
        | SendClosed => Some (GenDone, close out)
        | SendBlocks => None
        end
      else Some (GenDone, close out)
  | GenDone => None
  end.

(** [filter]: about to receive, to send [i] on, to close its output, or over. *)
Inductive filt_state := FRecv | FSend (i : Z) | FClose | FDone.
Record stage := mk_stage { st_prime : Z; st_state : filt_state; st_out : link }.
Definition set_out (o : link) (s : stage) : stage := mk_stage (st_prime s) (st_state s) o.

Definition filter_step (inp : link) (s : stage) : option (link * stage) :=
  let go inp st out := Some (inp, mk_stage (st_prime s) st out) in
  match st_state s with
  | FRecv =>
      match link_recv inp with
      | Got i inp => go inp (if Z.rem i (st_prime s) =? 0 then FRecv else FSend i) (st_out s)
      | RecvClosed => go inp FClose (st_out s)
      | RecvBlocks => None
      end
  | FSend i =>
      match link_send i (st_out s) with
      | Sent out => go inp FRecv out
      | SendClosed => go inp FClose (st_out s)
      | SendBlocks => None
      end
  | FClose => go inp FDone (close (st_out s))
  | FDone => None
  end.

(** A step of the [k]-th filter of the chain [l], whose first one reads [inp]. *)
Fixpoint stages_step (k : nat) (inp : link) (l : list stage) : option (link * list stage) :=
  match l, k with
  | [], _ => None
  | s :: l, O => '(inp, s) ← filter_step inp s; Some (inp, s :: l)
  | s :: l, S k => '(out, l) ← stages_step k (st_out s) l; Some (inp, set_out out s :: l)
  end.

(** The receive of [main], on the last channel of the chain. *)
Inductive last_answer := LastGot (v : Z) (inp : link) (l : list stage) | LastClosed | LastBlocks.
Fixpoint recv_last (inp : link) (l : list stage) : last_answer :=
  match l with
  | [] => match link_recv inp with Got v inp => LastGot v inp [] | RecvClosed => LastClosed | RecvBlocks => LastBlocks end
  | s :: l =>
      match recv_last (st_out s) l with
      | LastGot v out l => LastGot v inp (set_out out s :: l)
      | r => r
      end
  end.

(** [main]: in its loop, joining the threads, over, or writing outside its arrays. *)
Inductive main_state := MRecv | MJoin | MEnd | MOverrun.

Record sys := mk_sys {
  s_gen : gen_state;
  s_head : link;
  s_stages : list stage;
  s_main : main_state;
  s_printed : list Z
}.

Definition finished (s : sys) : bool :=
  match s_gen s with GenDone => true | _ => false end && forallb (fun t => match st_state t with FDone => true | _ => false end) (s_stages s).

Definition main_step (s : sys) : option sys :=
  match s_main s with
  | MRecv =>
      match recv_last (s_head s) (s_stages s) with
      | LastGot p inp l =>
          (* nth and nch are one more than the number of filters *)
          if 1 + zlen l <? MAXSTAGE
          then Some (mk_sys (s_gen s) inp (l ++ [mk_stage p FRecv new_link]) MRecv (s_printed s ++ [p]))
          else Some (mk_sys (s_gen s) inp l MOverrun (s_printed s ++ [p]))
      | LastClosed => Some (mk_sys (s_gen s) (s_head s) (s_stages s) MJoin (s_printed s))
      | LastBlocks => None
      end
  | MJoin => if finished s then Some (mk_sys (s_gen s) (s_head s) (s_stages s) MEnd (s_printed s)) else None
  | MEnd | MOverrun => None
  end.

Inductive label := LGen | LFilter (k : nat) | LMain.

Definition step (a : label) (s : sys) : option sys :=
  match a with
  | LGen => '(g, h) ← generate (s_gen s) (s_head s); Some (mk_sys g h (s_stages s) (s_main s) (s_printed s))
  | LFilter k => '(h, l) ← stages_step k (s_head s) (s_stages s); Some (mk_sys (s_gen s) h l (s_main s) (s_printed s))
  | LMain => main_step s
  end.

Fixpoint run (ls : list label) (s : sys) : option sys :=
  match ls with [] => Some s | a :: ls => s ← step a s; run ls s end.

Definition start : sys := mk_sys (GenSend 2) new_link [] MRecv [].
End sieve.

(** ** Sieving a list *)

Definition not_multiple (p x : Z) : Prop := Z.rem x p <> 0.
#[export] Instance not_multiple_dec p x : Decision (not_multiple p x).
Proof. unfold not_multiple. apply _. Defined.

(** The first number is kept, its multiples are dropped, and so on. *)
Equations? sieve (l : list Z) : list Z by wf (length l) lt :=
  sieve [] := [];
  sieve (p :: l) := p :: sieve (filter (not_multiple p) l).
Proof. apply le_n_S, length_filter. Qed.

Definition numbers (i : Z) : list Z := seqZ i (LIMIT + 1 - i).

(** The primes that have been found so far are [ps]; the numbers left are those
    below [n] that none of them divides. *)
Record sieved (n : Z) (ps l : list Z) : Prop := {
  sv_primes : Forall Z.prime ps;
  sv_mem : forall x, x ∈ l <-> 2 <= x < n /\ Forall (fun p => ~ (p | x)) ps;
  sv_sorted : StronglySorted Z.lt l
}.

Lemma prime_divisor x : 2 <= x -> exists q, Z.prime q /\ (q | x).
Proof.
  induction x as [x IH] using (well_founded_induction (Z.lt_wf 0)). intros Hx.
  destruct (prime_dec x) as [Hp|Hp].
  - exists x. split; [by apply prime_alt|done].
  - destruct (not_prime_divide x ltac:(lia) Hp) as (d & Hd & Hdx). destruct (IH d ltac:(lia) ltac:(lia)) as (q & Hq & Hqd).
    exists q. split; [done|]. by etrans.
Qed.

Lemma divide_between d x : 2 <= d -> 2 <= x -> (d | x) -> d <= x.
Proof. intros Hd Hx. apply Z.divide_pos_le. lia. Qed.

(** The first number left is prime. *)
Lemma sieved_head n ps p l : sieved n ps (p :: l) -> Z.prime p.
Proof.
  intros [Hps Hm Hs]. destruct (proj1 (Hm p) ltac:(left)) as [Hp Hnd].
  destruct (prime_divisor p ltac:(lia)) as (q & Hq & Hqp). pose proof (Z.prime_ge_2 q Hq).
  pose proof (divide_between q p ltac:(lia) ltac:(lia) Hqp).
  assert (q ∈ p :: l) as [->|Hin]%elem_of_cons; [|done|].
  - apply Hm. split; [lia|]. apply Forall_forall. intros r Hr Hrq.
    rewrite Forall_forall in Hps, Hnd. assert (r = q) as -> by (apply Z.divide_prime_prime; auto). by apply (Hnd q).
  - apply StronglySorted_inv in Hs as [_ Hs]. rewrite Forall_forall in Hs. specialize (Hs q Hin). lia.
Qed.

Lemma not_multiple_iff p x : 2 <= p -> not_multiple p x <-> ~ (p | x).
Proof. intros. unfold not_multiple. rewrite Z.rem_divide by lia. done. Qed.

Lemma sorted_filter (P : Z -> Prop) `{forall x, Decision (P x)} l :
  StronglySorted Z.lt l -> StronglySorted Z.lt (filter P l).
Proof.
  induction 1 as [|x l Hs IH Hx]; [constructor|]. rewrite filter_cons. case_decide; [|done]. constructor; [done|].
  apply Forall_forall. intros y [_ Hy]%list_elem_of_filter. by eapply Forall_forall.
Qed.

Lemma sieved_filter n ps p l : sieved n ps (p :: l) -> sieved n (p :: ps) (filter (not_multiple p) l).
Proof.
  intros Hv. pose proof (sieved_head _ _ _ _ Hv) as Hp. pose proof (Z.prime_ge_2 p Hp). destruct Hv as [Hps Hm Hs].
  apply StronglySorted_inv in Hs as [Hs Hlt]. split; [by constructor| |by apply sorted_filter].
  intros x. rewrite list_elem_of_filter, not_multiple_iff, Forall_cons by lia. specialize (Hm x). rewrite elem_of_cons in Hm.
  split.
  - intros [Hnd Hx]. tauto.
  - intros (Hx & Hnd & Hf). split; [done|]. destruct (proj2 Hm) as [->|?]; [done| |done]. by destruct Hnd.
Qed.

Lemma sieve_spec n l ps :
  sieved n ps l ->
  (forall x, x ∈ sieve l <-> x ∈ l /\ Z.prime x) /\ StronglySorted Z.lt (sieve l).
Proof.
  revert ps. funelim (sieve l); intros ps Hv; simp sieve.
  { split; [set_solver|constructor]. }
  rename H into IH. pose proof (sieved_head _ _ _ _ Hv) as Hp. pose proof (Z.prime_ge_2 p Hp).
  destruct (IH _ _ (sieved_filter _ _ _ _ Hv)) as [Hmem Hsort]. destruct Hv as [_ _ [Hs Hlt]%StronglySorted_inv]. split.
  - intros x. rewrite !elem_of_cons, Hmem, list_elem_of_filter, not_multiple_iff by lia. split.
    + intros [->|((_ & Hx) & Hpx)]; [tauto|tauto].
    + intros [[->|Hx] Hpx]; [by left|]. rewrite Forall_forall in Hlt. specialize (Hlt x Hx).
      right. split; [|done]. split; [|done]. intros Hd. assert (p = x) by (by apply Z.divide_prime_prime). lia.
  - constructor; [done|]. apply Forall_forall. intros x [Hx _]%Hmem. apply list_elem_of_filter in Hx as [_ Hx].
    by eapply Forall_forall.
Qed.

Lemma seqZ_sorted i n : StronglySorted Z.lt (seqZ i n).
Proof.
  destruct (Z.le_gt_cases 0 n) as [Hn|Hn]; [|rewrite seqZ_nil by lia; constructor].
  revert i. pattern n. apply natlike_ind; [|clear n Hn; intros n Hn IH i|done].
  - intros i. constructor.
  - rewrite seqZ_cons by lia. constructor; [by rewrite Z.pred_succ|]. apply Forall_forall. intros x Hx%elem_of_seqZ. lia.
Qed.

(** The sieve of the numbers from 2 is the primes, in ascending order. *)
Lemma sieve_numbers :
  (forall x, x ∈ sieve (numbers 2) <-> Z.prime x /\ x <= LIMIT) /\ StronglySorted Z.lt (sieve (numbers 2)).
Proof.
  destruct (sieve_spec (LIMIT + 1) (numbers 2) []) as [Hm Hs].
  - split; [constructor| |apply seqZ_sorted]. intros x. unfold numbers. rewrite elem_of_seqZ. split; [|intros [? _]; lia].
    intros. split; [lia|constructor].
  - split; [|done]. intros x. rewrite Hm. unfold numbers. rewrite elem_of_seqZ. split; intros [H1 H2]; [split; [done|lia]|].
    pose proof (Z.prime_ge_2 x H1). split; [lia|done].
Qed.

Lemma sieve_count : length (sieve (numbers 2)) = 100%nat.
Proof. vm_compute. reflexivity. Qed.

(** ** The invariant

    What is still to come out of a channel: what it buffers, then what the thread
    that writes it still has or will let through. *)

Definition coming (g : gen_state) : list Z := match g with GenSend i => numbers i | GenDone => [] end.
Definition held (st : filt_state) : list Z := match st with FSend i => [i] | _ => [] end.

(** [up] is all that is still to come out of the input of the chain. *)
Fixpoint pending (up : list Z) (l : list stage) : list Z :=
  match l with
  | [] => up
  | s :: l => pending (l_buf (st_out s) ++ held (st_state s) ++ filter (not_multiple (st_prime s)) up) l
  end.

(** Channels are closed by the thread that writes them, at its end, and a filter
    ends when its input is closed and empty. *)
Fixpoint chain_ok (inp : link) (l : list stage) : Prop :=
  match l with
  | [] => True
  | s :: l =>
      (l_closed (st_out s) = true <-> st_state s = FDone) /\
      (st_state s = FClose \/ st_state s = FDone -> l_closed inp = true /\ l_buf inp = []) /\
      chain_ok (st_out s) l
  end.

Definition over (m : main_state) : Prop := m = MJoin \/ m = MEnd.

(** The last channel of the chain. *)
Fixpoint last_link (inp : link) (l : list stage) : link :=
  match l with [] => inp | s :: l => last_link (st_out s) l end.

Record inv (s : sys) : Prop := {
  i_closed : l_closed (s_head s) = true <-> s_gen s = GenDone;
  i_chain : chain_ok (s_head s) (s_stages s);
  i_sieve : s_printed s ++ sieve (pending (l_buf (s_head s) ++ coming (s_gen s)) (s_stages s)) = sieve (numbers 2);
  i_count : length (s_stages s) = length (s_printed s);
  i_over : over (s_main s) -> l_closed (last_link (s_head s) (s_stages s)) = true /\ l_buf (last_link (s_head s) (s_stages s)) = [];
  i_main : s_main s <> MOverrun
}.

Lemma numbers_cons i : i <= LIMIT -> numbers i = i :: numbers (i + 1).
Proof.
  intros Hi. unfold numbers. rewrite seqZ_cons by lia. f_equal. f_equal; lia.
Qed.
Lemma numbers_nil i : LIMIT < i -> numbers i = [].
Proof. intros. unfold numbers. by rewrite seqZ_nil by lia. Qed.

Section proofs.
Context (room : nat).
Hypothesis Hroom : (0 < room)%nat.

Lemma link_recv_spec l :
  match link_recv l with
  | Got v l' => l_buf l = v :: l_buf l' /\ l_closed l' = l_closed l
  | RecvClosed => l_buf l = [] /\ l_closed l = true
  | RecvBlocks => l_buf l = [] /\ l_closed l = false
  end.
Proof. unfold link_recv. destruct (l_buf l) eqn:E; [destruct (l_closed l) eqn:Ec; done|done]. Qed.

Lemma link_send_spec v l :
  match link_send room v l with
  | Sent l' => l' = push v l /\ l_closed l = false
  | SendClosed => l_closed l = true
  | SendBlocks => (room <= length (l_buf l))%nat
  end.
Proof. unfold link_send. destruct (l_closed l) eqn:E; [done|]. destruct (Nat.ltb_spec (length (l_buf l)) room); done. Qed.

(** A step of a filter: what is to come out of it and beyond does not change. *)
Lemma filter_step_ok inp s inp' s' :
  filter_step room inp s = Some (inp', s') ->
  (l_closed (st_out s) = true <-> st_state s = FDone) ->
  (st_state s = FClose \/ st_state s = FDone -> l_closed inp = true /\ l_buf inp = []) ->
  (forall rest, l_buf (st_out s) ++ held (st_state s) ++ filter (not_multiple (st_prime s)) (l_buf inp ++ rest)
              = l_buf (st_out s') ++ held (st_state s') ++ filter (not_multiple (st_prime s')) (l_buf inp' ++ rest)) /\
  (l_closed (st_out s') = true <-> st_state s' = FDone) /\
  (st_state s' = FClose \/ st_state s' = FDone -> l_closed inp' = true /\ l_buf inp' = []) /\
  l_closed inp' = l_closed inp /\ (exists b, l_buf inp = b ++ l_buf inp') /\
  (l_closed (st_out s) = true -> l_closed (st_out s') = true /\ l_buf (st_out s') = l_buf (st_out s)).
Proof.
  intros E H1 H2. unfold filter_step in E. destruct s as [p st out]. simpl in *. destruct st as [|i| |]; simpl in *.
  - assert (l_closed out <> true) as Ho by (intros Ho; by apply H1 in Ho).
    pose proof (link_recv_spec inp) as Hr. destruct (link_recv inp) as [v l| |]; [|destruct Hr as [Hb Hc]|done].
    + destruct Hr as [Hb Hc]. injection E as <- <-. simpl. rewrite Hb. split.
      { intros rest. simpl. rewrite filter_cons. unfold not_multiple at 1. destruct (Z.eqb_spec (Z.rem v p) 0) as [E0|E0].
        - by rewrite decide_False by (intros Hn; by apply Hn).
        - by rewrite decide_True by done. }
      split; [by destruct (_ =? _)|]. split; [by destruct (_ =? _); intros [?|?]|]. split; [done|]. split; [by exists [v]|done].
    + injection E as <- <-. simpl. split; [done|]. split; [done|]. split; [done|]. split; [done|]. split; [by exists []|done].
  - pose proof (link_send_spec i out) as Hs. destruct (link_send room i out) as [l| |]; [|by apply H1 in Hs|done].
    destruct Hs as [-> Hc]. injection E as <- <-. simpl. split; [intros rest; by rewrite <- app_assoc|].
    split; [by rewrite Hc|]. split; [by intros [?|?]|]. split; [done|]. split; [by exists []|congruence].
  - injection E as <- <-. simpl. split; [done|]. split; [done|]. split; [intros _; apply H2; by left|]. split; [done|].
    split; [by exists []|done].
  - done.
Qed.

(** The same of a step anywhere in the chain. *)
Lemma stages_step_ok k inp l inp' l' :
  stages_step room k inp l = Some (inp', l') -> chain_ok inp l ->
  (forall rest, pending (l_buf inp ++ rest) l = pending (l_buf inp' ++ rest) l') /\ chain_ok inp' l' /\
  l_closed inp' = l_closed inp /\ (exists b, l_buf inp = b ++ l_buf inp') /\ length l' = length l /\
  (l <> [] -> l_closed (last_link inp l) = true ->
     l_closed (last_link inp' l') = true /\ l_buf (last_link inp' l') = l_buf (last_link inp l)).
Proof.
  revert k inp inp' l'. induction l as [|s l IH]; intros k inp inp' l' E Hok; [by destruct k|].
  simpl in Hok. destruct Hok as (H1 & H2 & H3). destruct k as [|k]; simpl in E.
  - destruct (filter_step room inp s) as [[i1 s1]|] eqn:Ef; [|done]. injection E as <- <-.
    destruct (filter_step_ok _ _ _ _ Ef H1 H2) as (Hp & H1' & H2' & Hc & Hb & Ho). simpl. split; [|split; [|split; [|split; [|split]]]].
    + intros rest. by rewrite Hp.
    + split; [done|]. split; [done|]. destruct l as [|t l]; [done|]. simpl in *. destruct H3 as (H4 & H5 & H6).
      split; [done|]. split; [|done]. intros Ht. destruct (H5 Ht) as [H7 H8]. destruct (Ho H7) as [-> ->]. done.
    + done.
    + done.
    + done.
    + intros _ Hl. destruct l as [|t l]; [by apply Ho|done].
  - destruct (stages_step room k (st_out s) l) as [[o1 l1]|] eqn:Es; [|done]. injection E as <- <-.
    destruct (IH _ _ _ _ Es H3) as (Hp & Hok & Hc & Hb & Hlen & Hl). simpl. split; [|split; [|split; [|split; [|split]]]].
    + intros rest. destruct s as [p st out]. simpl in *. apply Hp.
    + split; [by rewrite Hc|]. split; [done|done].
    + done.
    + by exists [].
    + by rewrite Hlen.
    + intros _ Hll. destruct l as [|t l]; [by destruct k|]. by apply Hl.
Qed.

(** The receive of [main]: the next number that comes out of the chain. *)
Lemma recv_last_ok inp l :
  chain_ok inp l ->
  match recv_last inp l with
  | LastGot v inp' l' =>
      (forall rest, pending (l_buf inp ++ rest) l = v :: pending (l_buf inp' ++ rest) l') /\ chain_ok inp' l' /\
      l_closed inp' = l_closed inp /\ (exists b, l_buf inp = b ++ l_buf inp') /\ length l' = length l
  | LastClosed => l_closed (last_link inp l) = true /\ l_buf (last_link inp l) = []
  | LastBlocks => l_closed (last_link inp l) = false /\ l_buf (last_link inp l) = []
  end.
Proof.
  revert inp. induction l as [|s l IH]; intros inp Hok; simpl in *.
  - pose proof (link_recv_spec inp) as Hr. destruct (link_recv inp) as [v i1| |]; [|tauto|tauto].
    destruct Hr as [Hb Hc]. rewrite Hb. split; [done|]. split; [done|]. split; [done|]. split; [by exists [v]|done].
  - destruct Hok as (H1 & H2 & H3). specialize (IH (st_out s) H3).
    destruct (recv_last (st_out s) l) as [v o1 l1| |]; [|done|done].
    destruct IH as (Hp & Hok & Hc & (b & Hb) & Hlen). split; [|split; [|split; [|split]]].
    + intros rest. destruct s as [p st out]. simpl in *. apply Hp.
    + simpl. rewrite Hc. done.
    + done.
    + by exists [].
    + simpl. by rewrite Hlen.
Qed.

Lemma pending_snoc up l p : pending up (l ++ [mk_stage p FRecv new_link]) = filter (not_multiple p) (pending up l).
Proof. revert up. induction l as [|s l IH]; intros up; [done|]. apply IH. Qed.
Lemma last_link_snoc inp l s : last_link inp (l ++ [s]) = st_out s.
Proof. revert inp. induction l as [|t l IH]; intros inp; [done|]. apply IH. Qed.
Lemma chain_ok_snoc inp l p : chain_ok inp l -> chain_ok inp (l ++ [mk_stage p FRecv new_link]).
Proof.
  revert inp. induction l as [|t l IH]; intros inp; simpl.
  - intros _. split; [done|]. split; [by intros [?|?]|done].
  - intros (H1 & H2 & H3). auto.
Qed.

(** A closed and empty last channel: everything before it is over. *)
Lemma chain_drained inp l up :
  chain_ok inp l -> l <> [] -> l_closed (last_link inp l) = true -> l_buf (last_link inp l) = [] ->
  l_closed inp = true /\ l_buf inp = [] /\ Forall (fun s => st_state s = FDone) l /\ (up = [] -> pending up l = []).
Proof.
  revert inp up. induction l as [|s l IH]; intros inp up Hok Hne Hc Hb; [done|]. simpl in *. destruct Hok as (H1 & H2 & H3).
  destruct l as [|t l].
  - simpl in *. pose proof (proj1 H1 Hc) as Hd. destruct (H2 (or_intror Hd)) as [Hi Hbi]. rewrite Hd, Hb.
    split; [done|]. split; [done|]. split; [by constructor|]. by intros ->.
  - destruct (IH (st_out s) (l_buf (st_out s) ++ held (st_state s) ++ filter (not_multiple (st_prime s)) up) H3 ltac:(done) Hc Hb)
      as (Ho & Hbo & Hd & Hp).
    pose proof (proj1 H1 Ho) as Hds. destruct (H2 (or_intror Hds)) as [Hi Hbi].
    split; [done|]. split; [done|]. split; [by constructor|]. intros ->. apply Hp. by rewrite Hbo, Hds.
Qed.

(** The input of the chain changes while it is open. *)
Lemma chain_ok_open inp inp' l : l_closed inp = false -> chain_ok inp l -> chain_ok inp' l.
Proof.
  destruct l as [|s l]; [done|]. simpl. intros Hc (H1 & H2 & H3). split; [done|]. split; [|done].
  intros Hs. destruct (H2 Hs) as [? _]. congruence.
Qed.

Lemma generate_ok g h g' h' :
  generate room g h = Some (g', h') -> (l_closed h = true <-> g = GenDone) ->
  l_closed h = false /\ (l_closed h' = true <-> g' = GenDone) /\ l_buf h ++ coming g = l_buf h' ++ coming g'.
Proof.
  intros E Hc. unfold generate in E. destruct g as [i|]; [|done].
  assert (l_closed h = false) as Hcl by (destruct (l_closed h); [discriminate (proj1 Hc eq_refl)|done]).
  split; [done|]. destruct (Z.leb_spec i LIMIT) as [Hi|Hi].
  - pose proof (link_send_spec i h) as Hs. destruct (link_send room i h) as [l| |]; [|congruence|done].
    destruct Hs as [-> _]. injection E as <- <-. simpl. rewrite Hcl. split; [done|].
    by rewrite numbers_cons, <- app_assoc by done.
  - injection E as <- <-. simpl. split; [done|]. by rewrite numbers_nil by lia.
Qed.

Lemma sieve_step_inv a s s' : inv s -> step room a s = Some s' -> inv s'.
Proof.
  intros [Hc Hch Hs Hn Ho Hm] E. destruct a as [|k|]; simpl in E.
  - destruct (generate room (s_gen s) (s_head s)) as [[g h]|] eqn:Eg; [|done]. injection E as <-.
    destruct (generate_ok _ _ _ _ Eg Hc) as (Hcl & Hc' & Hp). split; simpl; try done.
    + by eapply chain_ok_open.
    + by rewrite <- Hp.
    + intros Hov. destruct (Ho Hov) as [H1 H2]. destruct (s_stages s) as [|t l]; [simpl in *; congruence|done].
  - destruct (stages_step room k (s_head s) (s_stages s)) as [[h l]|] eqn:Es; [|done]. injection E as <-.
    destruct (stages_step_ok _ _ _ _ _ Es Hch) as (Hp & Hok & Hcl & _ & Hlen & Hll). split; simpl; try done.
    + by rewrite Hcl.
    + by rewrite <- Hp.
    + by rewrite Hlen.
    + intros Hov. destruct (Ho Hov) as [H1 H2]. destruct (Hll ltac:(intros En; rewrite En in Es; by destruct k) H1) as [? ->]. done.
  - unfold main_step in E. destruct (s_main s) eqn:Em; try done.
    + pose proof (recv_last_ok (s_head s) (s_stages s) Hch) as Hr.
      destruct (recv_last (s_head s) (s_stages s)) as [p h l| |]; [|injection E as <-; by split|done].
      destruct Hr as (Hp & Hok & Hcl & _ & Hlen). rewrite Hp in Hs. simp sieve in Hs.
      assert (length (s_printed s) < 100)%nat as Hlt.
      { pose proof sieve_count as Hn'. rewrite <- Hs, length_app in Hn'. simpl in Hn'. lia. }
      assert (1 + zlen l <? MAXSTAGE = true) as Hb.
      { apply Z.ltb_lt. unfold zlen, MAXSTAGE. rewrite Hlen, Hn. lia. }
      rewrite Hb in E. injection E as <-. split; simpl; try done.
      * by rewrite Hcl.
      * by apply chain_ok_snoc.
      * rewrite pending_snoc, <- app_assoc. exact Hs.
      * rewrite !length_app, Hlen, Hn. done.
      * by intros [?|?].
    + destruct (finished s); [|done]. injection E as <-. split; simpl; try done. intros _. apply Ho. by left.
Qed.

Lemma start_inv : inv start.
Proof. split; simpl; try done. by intros [?|?]. Qed.

Lemma run_inv ls s s' : inv s -> run room ls s = Some s' -> inv s'.
Proof.
  revert s. induction ls as [|a ls IH]; intros s Hi E; simpl in E; [by simplify_eq|].
  destruct (step room a s) as [s1|] eqn:E1; [|done]. simpl in E. eapply IH; [|done]. by eapply sieve_step_inv.
Qed.

(** When [main] has left its loop everything is printed and every thread is over. *)
Lemma over_done s : inv s -> over (s_main s) -> s_printed s = sieve (numbers 2) /\ finished s = true.
Proof.
  intros [Hc Hch Hs Hn Ho Hm] Hov. destruct (Ho Hov) as [H1 H2]. destruct (s_stages s) as [|t l] eqn:El.
  - simpl in *. pose proof (proj1 Hc H1) as Hg. rewrite H2, Hg in Hs. simpl in Hs. simp sieve in Hs.
    rewrite app_nil_r in Hs. split; [done|]. unfold finished. by rewrite Hg, El.
  - destruct (chain_drained _ _ (l_buf (s_head s) ++ coming (s_gen s)) Hch ltac:(done) H1 H2) as (Hi & Hb & Hd & Hp).
    pose proof (proj1 Hc Hi) as Hg. rewrite Hp in Hs by (by rewrite Hb, Hg). simp sieve in Hs. rewrite app_nil_r in Hs.
    split; [done|]. unfold finished. rewrite Hg, El. apply andb_true_iff. split; [done|]. apply forallb_forall.
    intros u Hu. rewrite Forall_forall in Hd. by rewrite (Hd u) by (by apply list_elem_of_In).
Qed.

(** A thread can always go on. *)
Lemma chain_progress inp l :
  chain_ok inp l -> l_closed (last_link inp l) = false -> l_buf (last_link inp l) = [] ->
  (exists k inp' l', stages_step room k inp l = Some (inp', l')) \/ (l_closed inp = false /\ l_buf inp = []).
Proof.
  revert inp. induction l as [|s l IH]; intros inp Hok Hc Hb; simpl in *; [by right|]. destruct Hok as (H1 & H2 & H3).
  destruct (IH (st_out s) H3 Hc Hb) as [(k & o & l' & E)|[Hco Hbo]].
  { left. exists (S k), inp, (set_out o s :: l'). simpl. by rewrite E. }
  assert (forall i1 s1, filter_step room inp s = Some (i1, s1) -> exists k inp' l', stages_step room k inp (s :: l) = Some (inp', l')) as Hgo.
  { intros i1 s1 E. exists 0%nat, i1, (s1 :: l). simpl. by rewrite E. }
  unfold filter_step in Hgo. destruct (st_state s) as [|i| |] eqn:Est.
  - pose proof (link_recv_spec inp) as Hr. destruct (link_recv inp); [left; by eapply Hgo|left; by eapply Hgo|right; tauto].
  - left. pose proof (link_send_spec i (st_out s)) as Hs. destruct (link_send room i (st_out s)); [by eapply Hgo|by eapply Hgo|].
    rewrite Hbo in Hs. simpl in Hs. lia.
  - left. by eapply Hgo.
  - exfalso. assert (l_closed (st_out s) = true) by (by apply H1). congruence.
Qed.

Lemma sys_progress s : inv s -> s_main s <> MEnd -> exists a s', step room a s = Some s'.
Proof.
  intros Hi Hne. pose proof Hi as [Hc Hch Hs Hn Ho Hm]. destruct (s_main s) eqn:Em; try done.
  - pose proof (recv_last_ok (s_head s) (s_stages s) Hch) as Hr.
    destruct (recv_last (s_head s) (s_stages s)) as [p h l| |] eqn:El.
    + exists LMain. simpl. unfold main_step. rewrite Em, El. destruct (_ <? _); by eexists.
    + exists LMain. simpl. unfold main_step. rewrite Em, El. by eexists.
    + destruct Hr as [H1 H2]. destruct (chain_progress _ _ Hch H1 H2) as [(k & h & l & E)|[Hcl Hb]].
      * exists (LFilter k). simpl. rewrite E. by eexists.
      * exists LGen. simpl. destruct (s_gen s) as [i|]; [|by rewrite (proj2 Hc eq_refl) in Hcl]. unfold generate.
        destruct (i <=? LIMIT); [|by eexists]. pose proof (link_send_spec i (s_head s)) as Hsd.
        destruct (link_send room i (s_head s)); [by eexists|by eexists|]. rewrite Hb in Hsd. simpl in Hsd. lia.
  - destruct (over_done s Hi ltac:(rewrite Em; by left)) as [_ Hf]. exists LMain. simpl. unfold main_step. rewrite Em, Hf. by eexists.
Qed.

(** ** Termination

    Every number has a number of hops left: [2 d] in a channel with [d] places
    after it, one less in the hands of the filter that read it there. *)

Definition rank (st : filt_state) : Z := match st with FRecv | FSend _ => 2 | FClose => 1 | FDone => 0 end.
Fixpoint weight (d : Z) (inp : link) (l : list stage) : Z :=
  2 * d * zlen (l_buf inp) +
  match l with
  | [] => 0
  | s :: l => rank (st_state s) + (2 * d - 1) * zlen (held (st_state s)) + weight (d - 1) (st_out s) l
  end.

Definition DEPTH : Z := 200.
Definition gen_weight (g : gen_state) : Z :=
  match g with GenSend i => Z.max 0 (LIMIT + 1 - i) * (2 * DEPTH + 1) + 1 | GenDone => 0 end.
Definition main_rank (m : main_state) : Z := match m with MRecv => 2 | MJoin => 1 | _ => 0 end.
Definition measure (s : sys) : Z := gen_weight (s_gen s) + weight DEPTH (s_head s) (s_stages s) + main_rank (s_main s).

Lemma weight_nonneg d inp l : zlen l <= d -> 0 <= weight d inp l.
Proof.
  revert d inp. induction l as [|s l IH]; intros d inp Hd; simpl; [change (zlen (@nil stage)) with 0 in Hd|rewrite zlen_cons in Hd];
    pose proof (zlen_nonneg (l_buf inp)); [nia|].
  pose proof (zlen_nonneg l). specialize (IH (d - 1) (st_out s) ltac:(lia)). pose proof (zlen_nonneg (held (st_state s))).
  assert (0 <= rank (st_state s)) by (by destruct (st_state s)). nia.
Qed.

Lemma weight_push d out v l : weight d (push v out) l = weight d out l + 2 * d.
Proof. destruct l; simpl; rewrite zlen_app; change (zlen [v]) with 1; lia. Qed.
Lemma weight_close d out l : weight d (close out) l = weight d out l.
Proof. by destruct l. Qed.

Lemma filter_weight d inp s inp' s' l :
  filter_step room inp s = Some (inp', s') -> 1 <= d -> weight d inp' (s' :: l) < weight d inp (s :: l).
Proof.
  intros E Hd. unfold filter_step in E. destruct s as [p st out]. simpl in E. destruct st as [|i| |].
  - pose proof (link_recv_spec inp) as Hr. destruct (link_recv inp) as [v i1| |]; [|injection E as <- <-; simpl; lia|done].
    destruct Hr as [Hb _]. injection E as <- <-. simpl. rewrite Hb, zlen_cons. destruct (_ =? _); simpl; unfold zlen; simpl; lia.
  - pose proof (link_send_spec i out) as Hs. destruct (link_send room i out) as [o| |]; [|injection E as <- <-|done].
    + destruct Hs as [-> _]. injection E as <- <-. simpl weight. rewrite weight_push. unfold zlen. simpl. lia.
    + simpl. change (zlen [i]) with 1. unfold zlen. simpl. lia.
  - injection E as <- <-. simpl. rewrite weight_close. lia.
  - done.
Qed.

Lemma stages_weight k d inp l inp' l' :
  stages_step room k inp l = Some (inp', l') -> zlen l <= d -> weight d inp' l' < weight d inp l.
Proof.
  revert k d inp inp' l'. induction l as [|s l IH]; intros k d inp inp' l' E Hd; [by destruct k|].
  rewrite zlen_cons in Hd. pose proof (zlen_nonneg l). destruct k as [|k]; simpl in E.
  - destruct (filter_step room inp s) as [[i1 s1]|] eqn:Ef; [|done]. injection E as <- <-. apply filter_weight; [done|lia].
  - destruct (stages_step room k (st_out s) l) as [[o1 l1]|] eqn:Es; [|done]. injection E as <- <-.
    specialize (IH k (d - 1) _ _ _ Es ltac:(lia)). destruct s as [p st out]. simpl in *. lia.
Qed.

Lemma recv_last_weight d inp l v inp' l' :
  recv_last inp l = LastGot v inp' l' -> weight d inp' l' = weight d inp l - 2 * (d - zlen l).
Proof.
  revert d inp inp' l'. induction l as [|s l IH]; intros d inp inp' l' E; simpl in E.
  - pose proof (link_recv_spec inp) as Hr. destruct (link_recv inp) as [w i1| |]; [|done|done]. injection E as <- <- <-.
    destruct Hr as [Hb _]. simpl. rewrite Hb, zlen_cons. unfold zlen. simpl. lia.
  - destruct (recv_last (st_out s) l) as [w o1 l1| |] eqn:Er; [|done|done]. injection E as <- <- <-.
    specialize (IH (d - 1) _ _ _ Er). rewrite zlen_cons. destruct s as [p st out]. simpl in *. lia.
Qed.

Lemma weight_snoc d inp l p : weight d inp (l ++ [mk_stage p FRecv new_link]) = weight d inp l + 2.
Proof.
  revert d inp. induction l as [|s l IH]; intros d inp; simpl; [unfold zlen; simpl; lia|]. rewrite IH. lia.
Qed.

Lemma step_measure a s s' : inv s -> step room a s = Some s' -> measure s' < measure s.
Proof.
  intros Hi E. pose proof Hi as [Hc Hch Hs Hn Ho Hm]. unfold measure.
  assert (zlen (s_stages s) <= 100) as Hle.
  { unfold zlen. pose proof sieve_count as Hk. rewrite <- Hs, length_app in Hk. lia. }
  destruct a as [|k|]; simpl in E.
  - destruct (generate room (s_gen s) (s_head s)) as [[g h]|] eqn:Eg; [|done]. injection E as <-. simpl.
    unfold generate in Eg. destruct (s_gen s) as [i|]; [|done]. destruct (Z.leb_spec i LIMIT) as [Hi'|Hi'].
    + pose proof (link_send_spec i (s_head s)) as Hsd. destruct (link_send room i (s_head s)) as [l| |]; [| |done].
      * destruct Hsd as [-> _]. injection Eg as <- <-. rewrite weight_push. unfold gen_weight, DEPTH. lia.
      * injection Eg as <- <-. rewrite weight_close. unfold gen_weight, DEPTH. lia.
    + injection Eg as <- <-. rewrite weight_close. unfold gen_weight, DEPTH. lia.
  - destruct (stages_step room k (s_head s) (s_stages s)) as [[h l]|] eqn:Es; [|done]. injection E as <-. simpl.
    pose proof (stages_weight k DEPTH _ _ _ _ Es ltac:(unfold DEPTH; lia)). lia.
  - unfold main_step in E. destruct (s_main s) eqn:Em; try done.
    + destruct (recv_last (s_head s) (s_stages s)) as [p h l| |] eqn:El; [|injection E as <-; simpl; lia|done].
      pose proof (recv_last_weight DEPTH _ _ _ _ _ El) as Hw. unfold DEPTH in *.
      destruct (_ <? _); injection E as <-; simpl; rewrite ?weight_snoc; lia.
    + destruct (finished s); [|done]. injection E as <-. simpl. lia.
Qed.

Lemma measure_nonneg s : inv s -> 0 <= measure s.
Proof.
  intros [_ _ Hs Hn _ _]. unfold measure.
  assert (zlen (s_stages s) <= 100) as Hle.
  { unfold zlen. pose proof sieve_count as Hk. rewrite <- Hs, length_app in Hk. lia. }
  pose proof (weight_nonneg DEPTH (s_head s) (s_stages s) ltac:(unfold DEPTH; lia)).
  assert (0 <= gen_weight (s_gen s)) by (unfold gen_weight, DEPTH; destruct (s_gen s); lia).
  assert (0 <= main_rank (s_main s)) by (by destruct (s_main s)). lia.
Qed.

Lemma run_measure ls s s' : inv s -> run room ls s = Some s' -> zlen ls + measure s' <= measure s.
Proof.
  revert s. induction ls as [|a ls IH]; intros s Hi E; simpl in E; [simplify_eq; unfold zlen; simpl; lia|].
  destruct (step room a s) as [s1|] eqn:E1; [|done]. simpl in E. rewrite zlen_cons.
  pose proof (step_measure _ _ _ Hi E1). specialize (IH s1 (sieve_step_inv _ _ _ Hi E1) E). lia.
Qed.
End proofs.

(** ** Theorem *)

(** C32: Under every schedule of its threads the program is correct: what it has
    printed is always a prefix of the primes up to LIMIT in ascending order, its
    arrays of MAXSTAGE entries are not overrun, and once [main] returns it has
    printed all of them and every thread has ended.  It also ends: as long as [main]
    has not returned some thread can go on, and no schedule has more than
    [measure start] steps. *)
Theorem sieve_correct room ls s (Hroom : (0 < room)%nat) (E : run room ls start = Some s) :
  s_main s <> MOverrun /\ s_printed s `prefix_of` sieve (numbers 2) /\
  (forall x, x ∈ sieve (numbers 2) <-> Z.prime x /\ x <= LIMIT) /\ StronglySorted Z.lt (sieve (numbers 2)) /\
  (s_main s = MEnd -> s_printed s = sieve (numbers 2) /\ finished s = true) /\
  zlen ls <= measure start /\ (s_main s <> MEnd -> exists a s', step room a s = Some s').
Proof.
  pose proof (run_inv room Hroom ls start s start_inv E) as Hi. split; [apply Hi|]. split.
  { rewrite <- (i_sieve _ Hi). by eexists. }
  destruct sieve_numbers as [H1 H2]. do 2 (split; [done|]). split.
  { intros Em. apply over_done; [done|]. rewrite Em. by right. }
  split; [|by apply sys_progress].
  pose proof (run_measure room Hroom ls start s start_inv E). pose proof (measure_nonneg room Hroom s Hi). lia.
Qed.

(** A schedule with channels of one place: 2 is printed and its filter started. *)
Lemma sieve_correct_witness :
  exists s, run 1 [LGen; LMain; LGen; LFilter 0] start = Some s /\ s_printed s = [2] /\ s_main s <> MOverrun /\
    exists a s', step 1 a s = Some s'.
Proof.
  assert (exists s, run 1 [LGen; LMain; LGen; LFilter 0] start = Some s /\ s_printed s = [2] /\ s_main s = MRecv) as (s & E & Ep & Em)
    by (eexists; vm_compute; repeat split).
  exists s. do 2 (split; [done|]). destruct (sieve_correct 1 _ s ltac:(lia) E) as (H1 & _ & _ & _ & _ & _ & H2).
  split; [done|]. apply H2. by rewrite Em.
Defined.
