(* ===== verification/RequestReply.v ===== *)
(** * Request and reply: [examples/request_reply.c]

    Every request carries an unbuffered channel of its own; the server answers on
    it and destroys it.  The calls run here on the memory of the library, in the
    orders the two threads allow: when the server destroys the channel before the
    client, woken by the send, has left its [chan_recv], the client goes on with
    freed memory. *)

From S2P Require Import Prelude RingLf Heap WaitQ Chan ChanSend ChanRecv ChanSpec Net.
From stdpp Require Import list.
#[local] Open Scope Z_scope.

Definition square (x : Z) : Z := i32 (x * x).

(** The channel of a request: [chan_create(sizeof(int), 0)]; [reply] is what
    [calloc] returns. *)
Definition reply_channel `{Malloc} (reply : ptr) : M ptr := chan_create (Some reply) 4 0.

(** A request: the client in its [chan_recv], the server after its [chan_recv]. *)
Definition client_recv (reply answer frame : ptr) : M (flow chan_err_t) := chan_recv reply answer frame.
Definition server_send (reply answer frame : ptr) : M (flow chan_err_t) := chan_send reply answer frame.
Definition server_destroy (reply : ptr) : M unit := chan_destroy reply.

(** A call that has blocked: its park, and its end when the park returns [woken]. *)
Definition parks {A} (r : res (flow A * heap)) : option (ptr * heap) :=
  match r with Ret (Park pk _ _, h) => Some (pk, h) | _ => None end.
Definition resume {A} (r : res (flow A * heap)) (woken : bool) (h : heap) : res (flow A * heap) :=
  match r with Ret (Park _ _ k, _) => k woken h | _ => Undef end.

(** The server's answer to the request 3 and the client's variable. *)
Definition memory_ex : heap := mk_heap ∅ ∅ ∅ ∅ (<[200 := enc_int (square 3)]> {[201 := enc_int 0]}) [].

(** The client blocks, the server answers.  If the client leaves its call before the
    server destroys the channel, it has the answer and nothing is left of the
    request; if the server destroys the channel first, the client's call goes on
    with the freed channel. *)
Theorem reply_freed_in_use :
  exists h0 h1 h2, @reply_channel malloc_ex 100 memory_ex = Ret (100, h0) /\
    parks (client_recv 100 201 300 h0) = Some (300, h1) /\
    server_send 100 200 301 h1 = Ret (Done CHAN_OK, h2) /\ h_park h2 !! 300 = Some 1 /\
    (exists h3 h4, resume (client_recv 100 201 300 h0) true h2 = Ret (Done CHAN_OK, h3) /\
       (h_mem h3 !! 201 ≫= dec_int) = Some (square 3) /\
       server_destroy 100 h3 = Ret (tt, h4) /\ h_chan h4 = ∅ /\ h_wait h4 = ∅ /\ h_park h4 = ∅) /\
    (exists h3, server_destroy 100 h2 = Ret (tt, h3) /\ resume (client_recv 100 201 300 h0) true h3 = Undef).
Proof.
  eexists _, _, _. split; [vm_compute; reflexivity|]. split; [vm_compute; reflexivity|]. split; [vm_compute; reflexivity|].
  split; [vm_compute; reflexivity|]. split.
  - eexists _, _. split; [vm_compute; reflexivity|]. split; [vm_compute; reflexivity|]. split; [vm_compute; reflexivity|].
    split; [|split]; vm_compute; reflexivity.
  - eexists. split; [vm_compute; reflexivity|]. vm_compute. reflexivity.
Qed.

(** When the server comes first its send blocks until the client takes the answer,
    and its destroy comes after the client's call: the answer arrives and the
    channel is freed. *)
Theorem reply_server_first :
  exists h0 h1 h2 h3, @reply_channel malloc_ex 100 memory_ex = Ret (100, h0) /\
    parks (server_send 100 200 301 h0) = Some (301, h1) /\
    client_recv 100 201 300 h1 = Ret (Done CHAN_OK, h2) /\ (h_mem h2 !! 201 ≫= dec_int) = Some (square 3) /\
    resume (server_send 100 200 301 h0) true h2 = Ret (Done CHAN_OK, h3) /\
    exists h4, server_destroy 100 h3 = Ret (tt, h4) /\ h_chan h4 = ∅.
Proof.
  eexists _, _, _, _. split; [vm_compute; reflexivity|]. split; [vm_compute; reflexivity|]. split; [vm_compute; reflexivity|].
  split; [vm_compute; reflexivity|]. split; [vm_compute; reflexivity|]. eexists. split; [vm_compute; reflexivity|]. vm_compute. reflexivity.
Qed.
