(* ===== verification/Snake.v ===== *)
(** * A game over a channel: [examples/snake_chan.c]

    An input thread decodes key presses into directions and sends them over a
    channel; the game loop polls the channel, moves the snake once per tick and
    draws the field into a fixed buffer.  Keyboard, clock, [rand] and the polls of
    the channel are the environment: lists and streams of what the calls answer.
    The automatic array of cells starts with arbitrary contents. *)

From S2P Require Import Prelude.
From Stdlib Require Import Strings.String.
From stdpp Require Import list.
#[local] Open Scope Z_scope.

Definition W : Z := 44.
Definition H : Z := 24.
Definition TICK_MS : Z := 140.
Definition MAXLEN : Z := W * H.
Definition DRAWBUF : Z := W * H + 256.

Inductive dir_t := DIR_UP | DIR_DOWN | DIR_LEFT | DIR_RIGHT | DIR_NONE.
Record pos_t := mk_pos { x : Z; y : Z }.

#[export] Instance dir_eq_dec : EqDecision dir_t.
Proof. solve_decision. Defined.
#[export] Instance pos_eq_dec : EqDecision pos_t.
Proof. solve_decision. Defined.

(** ** Keys *)

(** What the next calls of [read] give: a byte, or nothing; at the end of the list
    nothing more ever arrives. *)
Definition keys := list (option Z).

Definition read_byte (s : keys) : Z * keys :=
  match s with
  | [] => (-1, [])
  | None :: s => (-1, s)
  | Some c :: s => (c, s)
  end.

(** The final byte of an arrow's sequence. *)
Definition arrow (f : Z) : dir_t :=
  if f =? 65 then DIR_UP else if f =? 66 then DIR_DOWN else if f =? 67 then DIR_RIGHT
  else if f =? 68 then DIR_LEFT else DIR_NONE.

(** After ESC [: parameter bytes up to the final one. *)
Fixpoint csi_loop (s : keys) : dir_t * keys :=
  match s with
  | [] => (DIR_NONE, [])
  | None :: s => (DIR_NONE, s)
  | Some f :: s => if (65 <=? f) && (f <=? 126) then (arrow f, s) else csi_loop s
  end.

Definition read_escape_seq (s : keys) : dir_t * keys :=
  let '(c, s) := read_byte s in
  if c <? 0 then (DIR_NONE, s)
  else if c =? 79 then
    let '(f, s) := read_byte s in
    if f <? 0 then (DIR_NONE, s) else (arrow f, s)
  else if c =? 91 then csi_loop s
  else (DIR_NONE, s).

Definition key_to_dir (c : Z) : dir_t :=
  if (c =? 119) || (c =? 87) then DIR_UP
  else if (c =? 115) || (c =? 83) then DIR_DOWN
  else if c =? 97 then DIR_LEFT
  else if (c =? 100) || (c =? 68) then DIR_RIGHT
  else DIR_NONE.

Definition opposite (a b : dir_t) : bool :=
  match a, b with
  | DIR_UP, DIR_DOWN | DIR_DOWN, DIR_UP | DIR_LEFT, DIR_RIGHT | DIR_RIGHT, DIR_LEFT => true
  | _, _ => false
  end.

(** One round of [input_thread]: sleep, close the channel and stop, send a
    direction, or nothing. *)
Inductive input_act := Nap | Quit | Turn (d : dir_t) | Ignore.

Definition input_round (s : keys) : input_act * keys :=
  let '(c, s) := read_byte s in
  if c <? 0 then (Nap, s)
  else if (c =? 113) || (c =? 81) then (Quit, s)
  else
    let d := key_to_dir c in
    let '(d, s) := if bool_decide (d = DIR_NONE) && (c =? 27) then read_escape_seq s else (d, s) in
    (if bool_decide (d = DIR_NONE) then Ignore else Turn d, s).

(** The thread, for at most [fuel] rounds: what it sent and whether it has ended;
    [s] is left. *)
Fixpoint input_thread (fuel : nat) (s : keys) : list dir_t * bool * keys :=
  match fuel with
  | O => ([], false, s)
  | S fuel =>
      let '(a, s) := input_round s in
      match a with
      | Quit => ([], true, s)
      | Turn d => let '(ds, ended, s) := input_thread fuel s in (d :: ds, ended, s)
      | Nap | Ignore => input_thread fuel s
      end
  end.

(** ** The game *)

(** The cells [snake[0] .. snake[len-1]]. *)
Definition cells (snake : list pos_t) (len : Z) : list pos_t := take (Z.to_nat len) snake.

Definition hit_wall (p : pos_t) : bool :=
  (x p <=? 0) || (x p >=? W - 1) || (y p <=? 0) || (y p >=? H - 1).

Definition hit_self (snake : list pos_t) (len : Z) (head : pos_t) : bool :=
  bool_decide (head ∈ drop 1 (cells snake len)).

(** [rand] answers [rnd 0], [rnd 1], ... *)
Section rand.
Context (rnd : nat -> Z).

Fixpoint place_food_tries (tries : nat) (snake : list pos_t) (len : Z) (food : pos_t) (n : nat) : pos_t * nat :=
  match tries with
  | O => (food, n)
  | S tries =>
      let food := mk_pos (1 + Z.rem (rnd n) (W - 2)) (1 + Z.rem (rnd (S n)) (H - 2)) in
      if bool_decide (food ∈ cells snake len) then place_food_tries tries snake len food (S (S n))
      else (food, S (S n))
  end.
Definition place_food := place_food_tries 1000.

Definition apply_dirs (ds : list dir_t) (cur : dir_t) : dir_t :=
  foldl (fun cur d => if opposite cur d then cur else d) cur ds.

Definition step_head (cur : dir_t) (p : pos_t) : pos_t :=
  match cur with
  | DIR_UP => mk_pos (x p) (y p - 1)
  | DIR_DOWN => mk_pos (x p) (y p + 1)
  | DIR_LEFT => mk_pos (x p - 1) (y p)
  | DIR_RIGHT => mk_pos (x p + 1) (y p)
  | DIR_NONE => p
  end.

(** [memmove(snake + 1, snake, (len - 1) * sizeof(pos_t)); snake[0] = head;] *)
Definition shift_in (head : pos_t) (len : Z) (snake : list pos_t) : list pos_t :=
  head :: take (Z.to_nat (len - 1)) snake ++ drop (Z.to_nat len) snake.

(** The locals of [main]; [g_rand] counts the calls of [rand]. *)
Record game := mk_game {
  g_snake : list pos_t;
  g_len : Z;
  g_cur : dir_t;
  g_food : pos_t;
  g_score : Z;
  g_rand : nat
}.
Definition set_g_cur d g := mk_game (g_snake g) (g_len g) d (g_food g) (g_score g) (g_rand g).

Definition first_cell (snake : list pos_t) : pos_t := default (mk_pos 0 0) (head snake).

(** One tick after the polls: the crash, or the game after the move. *)
Definition tick (g : game) : pos_t + game :=
  let head := step_head (g_cur g) (first_cell (g_snake g)) in
  if hit_wall head || hit_self (g_snake g) (g_len g) head then inl head
  else
    let '(len, food, score, n) :=
      if bool_decide (head = g_food g) then
        let len := if g_len g <? MAXLEN then g_len g + 1 else g_len g in
        let '(food, n) := place_food (g_snake g) len (g_food g) (g_rand g) in
        (len, food, g_score g + 1, n)
      else (g_len g, g_food g, g_score g, g_rand g) in
    inr (mk_game (shift_in head len (g_snake g)) len (g_cur g) food score n).

(** The game before the first poll, over an array with the contents [junk]. *)
Definition new_game (junk : list pos_t) : game :=
  let mid := W / 2 in let midy := H / 2 in
  let snake := [mk_pos mid midy; mk_pos (mid - 1) midy; mk_pos (mid - 2) midy] ++ drop 3 junk in
  let '(food, n) := place_food snake 3 (mk_pos 0 0) 0 in
  mk_game snake 3 DIR_RIGHT food 0 n.
End rand.

(** ** Drawing *)

Definition text (s : string) : list byte := list_byte_of_string s.
Arguments text s%_string.

Definition digit (d : Z) : byte := default x30 (Byte.of_N (Z.to_N (48 + d))).

(** [%d] of a non-negative [int]: ten digits are enough. *)
Fixpoint decimal_digits (fuel : nat) (v : Z) (acc : list byte) : list byte :=
  match fuel with
  | O => acc
  | S fuel => if v <? 10 then digit v :: acc else decimal_digits fuel (v / 10) (digit (v mod 10) :: acc)
  end.
Definition decimal (v : Z) : list byte := decimal_digits 10 v [].

(** [buf[n..] = bs]: outside the array this is undefined. *)
Definition store_at (buf : list byte) (n : Z) (bs : list byte) : res (list byte) :=
  if (0 <=? n) && (n + zlen bs <=? zlen buf)
  then Ret (take (Z.to_nat n) buf ++ bs ++ drop (Z.to_nat (n + zlen bs)) buf)
  else Undef.

(** [n += (size_t)snprintf(buf + n, sizeof(buf) - n, ...)] for the formatted text [s]:
    as much of it as fits with its NUL is written, its full length is returned. *)
Definition snprintf_at (buf : list byte) (n : Z) (s : list byte) : res (list byte * Z) :=
  let avail := u64 (zlen buf - n) in
  let! buf := if avail =? 0 then Ret buf else store_at buf n (take (Z.to_nat (avail - 1)) s ++ [x00]) in
  Ret (buf, u64 (n + zlen s)).

(** The NUL-terminated string at the start of [buf]. *)
Fixpoint c_string (buf : list byte) : list byte :=
  match buf with
  | [] => []
  | b :: buf => if Byte.eqb b x00 then [] else b :: c_string buf
  end.

Section draw.
Context (snake : list pos_t) (len : Z) (food : pos_t) (crash : pos_t) (crashed : bool).

Definition cell (px py : Z) : byte :=
  if (px =? 0) || (px =? W - 1) || (py =? 0) || (py =? H - 1) then x23
  else if crashed && (px =? x crash) && (py =? y crash) then x58
  else if (px =? x food) && (py =? y food) then x2a
  else match list_find (fun p => p = mk_pos px py) (cells snake len) with
       | Some (i, _) => if (i =? 0)%nat && negb crashed then x40 else x6f
       | None => x20
       end.

(** The columns [xs] of the row [py]: stop when only the NUL would fit. *)
Fixpoint draw_cells (xs : list Z) (py : Z) (buf : list byte) (n : Z) : res (list byte * Z) :=
  match xs with
  | [] => Ret (buf, n)
  | px :: xs =>
      if n + 1 >=? zlen buf then Ret (buf, n)
      else let! buf := store_at buf n [cell px py] in draw_cells xs py buf (n + 1)
  end.

Fixpoint draw_rows (ys : list Z) (buf : list byte) (n : Z) : res (list byte * Z) :=
  match ys with
  | [] => Ret (buf, n)
  | py :: ys =>
      let! (buf, n) := draw_cells (seqZ 0 W) py buf n in
      if n + 1 >=? zlen buf then Ret (buf, n)
      else let! buf := store_at buf n [x0a] in draw_rows ys buf (n + 1)
  end.

Definition dir_name (cur : dir_t) : list byte :=
  match cur with
  | DIR_UP => text "UP"
  | DIR_DOWN => text "DOWN"
  | DIR_LEFT => text "LEFT"
  | DIR_RIGHT => text "RIGHT"
  | DIR_NONE => text "-"
  end.

Definition header (score : Z) : list byte :=
  x1b :: text "[Hsnake_chan  score " ++ decimal score ++ text "  WASD/arrows  q=quit  dir: ".

(** What [fputs] prints; [buf] is the automatic array as it happens to be. *)
Definition draw_frame (buf : list byte) (score : Z) (cur : dir_t) (footer : option (list byte)) : res (list byte) :=
  let! (buf, n) := snprintf_at buf 0 (header score) in
  let! (buf, n) := snprintf_at buf n (dir_name cur) in
  let! (buf, n) := snprintf_at buf n [x0a] in
  let! (buf, n) := draw_rows (seqZ 0 H) buf n in
  let! (buf, n) := match footer with
                   | Some f => if n <? zlen buf then snprintf_at buf n (x0a :: f) else Ret (buf, n)
                   | None => Ret (buf, n)
                   end in
  let! buf := store_at buf (if n <? zlen buf then n else zlen buf - 1) [x00] in
  Ret (c_string buf).
End draw.

(** The footer of a lost game, formatted into 64 bytes. *)
Definition game_over_footer (buf : list byte) (score : Z) : res (list byte) :=
  let! (buf, _) := snprintf_at buf 0 (text "*** GAME OVER — score " ++ decimal score ++ text " ***") in
  Ret (c_string buf).

Definition draw (g : game) (buf : list byte) : res (list byte) :=
  draw_frame (g_snake g) (g_len g) (g_food g) (mk_pos 0 0) false buf (g_score g) (g_cur g) None.

(** [wait_any_key] reads until a byte arrives; [None]: it still waits. *)
Fixpoint wait_any_key (s : keys) : option keys :=
  match s with
  | [] => None
  | None :: s => wait_any_key s
  | Some _ :: s => Some s
  end.

(** ** The main loop *)

(** A poll of the channel: the directions [apply_dirs] receives until the channel
    is empty, and what [chan_is_closed] answers after it. *)
Definition poll : Type := list dir_t * bool.

Fixpoint tick_sleep (ms elapsed : Z) (polls : list poll) (cur : dir_t) : dir_t * list poll :=
  if elapsed <? ms then
    match polls with
    | [] => (cur, [])
    | (ds, closed) :: polls =>
        let cur := apply_dirs ds cur in
        if (closed : bool) then (cur, polls) else tick_sleep ms (elapsed + 5) polls cur
    end
  else (cur, polls).

(** Where a run has come to: [polls] are used up, the player has quit, or the snake
    has hit something; the frames drawn are the texts printed. *)
Inductive game_end := Running | Quitted | GameOver (head : pos_t).

(** The automatic buffers hold anything when a frame is drawn: [stack] and
    [stack64], at each point of the run. *)
Section loop.
Context (rnd : nat -> Z) (stack stack64 : list poll -> list byte).

Fixpoint main_loop (fuel : nat) (polls : list poll) (g : game) : res (game * game_end * list (list byte)) :=
  match fuel, polls with
  | O, _ | _, [] => Ret (g, Running, [])
  | S fuel, (ds, closed) :: polls =>
      let g := set_g_cur (apply_dirs ds (g_cur g)) g in
      if (closed : bool) then Ret (g, Quitted, [])
      else match tick rnd g with
      | inl crash =>
          let! footer := game_over_footer (stack64 polls) (g_score g) in
          let! frame := draw_frame (g_snake g) (g_len g) (g_food g) crash true (stack polls) (g_score g) (g_cur g) (Some footer) in
          Ret (g, GameOver crash, [frame])
      | inr g =>
          let! frame := draw g (stack polls) in
          let '(cur, polls) := tick_sleep TICK_MS 0 polls (g_cur g) in
          let! (g, e, frames) := main_loop fuel polls (set_g_cur cur g) in
          Ret (g, e, frame :: frames)
      end
  end.

(** [main] from the first frame on: after [drain_dirs]. *)
Definition snake_main (junk : list pos_t) (polls : list poll) : res (game * game_end * list (list byte)) :=
  let g := new_game rnd junk in
  let! frame := draw g (stack polls) in
  let! (g, e, frames) := main_loop (S (length polls)) polls g in
  Ret (g, e, frame :: frames).
End loop.

(** ** The frame *)

(** The text of a frame, without buffers. *)
Definition rows (snake : list pos_t) (len : Z) (food crash : pos_t) (crashed : bool) (ys : list Z) : list byte :=
  concat ((fun py => ((fun px => cell snake len food crash crashed px py) <$> seqZ 0 W) ++ [x0a]) <$> ys).
Definition frame (snake : list pos_t) (len : Z) (food crash : pos_t) (crashed : bool) (score : Z) (cur : dir_t)
    (footer : option (list byte)) : list byte :=
  header score ++ dir_name cur ++ [x0a] ++ rows snake len food crash crashed (seqZ 0 H) ++
  match footer with Some f => x0a :: f | None => [] end.

(** The first [n] bytes of the buffer are the text [out]. *)
Record holds (out buf : list byte) (n : Z) : Prop := {
  ho_n : n = zlen out;
  ho_le : zlen out <= zlen buf;
  ho_small : zlen buf < two64;
  ho_take : take (Z.to_nat n) buf = out
}.

Lemma store_at_ok out buf n bs :
  holds out buf n -> zlen out + zlen bs <= zlen buf ->
  exists buf', store_at buf n bs = Ret buf' /\ zlen buf' = zlen buf /\ take (Z.to_nat (n + zlen bs)) buf' = out ++ bs.
Proof.
  intros [-> Hle _ Ht] Hfit. unfold store_at. pose proof (zlen_nonneg out).
  rewrite (proj2 (Z.leb_le _ _)), (proj2 (Z.leb_le _ _)) by lia. simpl. eexists. split; [done|]. rewrite Ht.
  unfold zlen in *. split; [rewrite !length_app, length_drop; lia|].
  rewrite app_assoc, take_app_le by (rewrite length_app; lia). rewrite take_ge; [done|]. rewrite length_app. lia.
Qed.

Lemma snprintf_ok out buf n s :
  holds out buf n -> zlen out + zlen s < zlen buf ->
  exists buf' n', snprintf_at buf n s = Ret (buf', n') /\ zlen buf' = zlen buf /\ holds (out ++ s) buf' n' /\
    buf' !! Z.to_nat n' = Some x00.
Proof.
  intros Ho Hfit. pose proof Ho as [En Hle Hs _]. pose proof (zlen_nonneg out). pose proof (zlen_nonneg s).
  unfold snprintf_at. rewrite (u64_small (zlen buf - n)) by lia. rewrite (proj2 (Z.eqb_neq _ _)) by lia.
  assert (take (Z.to_nat (zlen buf - n - 1)) s = s) as -> by (apply take_ge; unfold zlen in *; lia).
  destruct (store_at_ok out buf n (s ++ [x00]) Ho) as (buf' & -> & Hb & Ht).
  { rewrite zlen_app. change (zlen [x00]) with 1. lia. }
  simpl. rewrite u64_small by lia. do 2 eexists. split; [done|]. split; [done|].
  rewrite zlen_app in Ht. change (zlen [x00]) with 1 in Ht. split; [split|].
  - rewrite zlen_app. lia.
  - rewrite zlen_app. lia.
  - lia.
  - apply (f_equal (take (Z.to_nat (n + zlen s)))) in Ht. rewrite take_take, app_assoc in Ht.
    rewrite take_app_le in Ht by (rewrite length_app; unfold zlen in *; lia).
    rewrite (take_ge (out ++ s)) in Ht by (rewrite length_app; unfold zlen in *; lia).
    rewrite <- Ht. f_equal. lia.
  - apply (f_equal (.!! Z.to_nat (n + zlen s))) in Ht. rewrite lookup_take_lt in Ht by lia. rewrite Ht, app_assoc.
    rewrite lookup_app_r by (rewrite length_app; unfold zlen in *; lia).
    replace (_ - _)%nat with 0%nat; [done|]. rewrite length_app. unfold zlen in *. lia.
Qed.

Lemma store_one_ok out buf n b :
  holds out buf n -> zlen out < zlen buf ->
  exists buf', store_at buf n [b] = Ret buf' /\ zlen buf' = zlen buf /\ holds (out ++ [b]) buf' (n + 1).
Proof.
  intros Ho Hlt. pose proof Ho as [En _ Hs _]. destruct (store_at_ok out buf n [b] Ho) as (buf' & -> & Hb & Ht).
  { change (zlen [b]) with 1. lia. }
  exists buf'. split; [done|]. split; [done|]. split; [|rewrite zlen_app; change (zlen [b]) with 1; lia|lia|exact Ht].
  rewrite zlen_app. change (zlen [b]) with 1. lia.
Qed.

Lemma c_string_terminated out buf k : take k buf = out ++ [x00] -> x00 ∉ out -> c_string buf = out.
Proof.
  intros Ht Hn. rewrite <- (take_drop k buf), Ht, <- app_assoc. generalize (drop k buf). intros rest. clear -Hn.
  induction out as [|b out IH]; [done|]. simpl. apply not_elem_of_cons in Hn as [Hb Hn].
  destruct (Byte.eqb b x00) eqn:E; [apply Byte.byte_dec_bl in E; congruence|]. f_equal. by apply IH.
Qed.

Lemma c_string_prefix out buf n :
  holds out buf n -> x00 ∉ out -> buf !! Z.to_nat n = Some x00 -> c_string buf = out.
Proof.
  intros [-> _ _ Ht] Hn Hl. apply take_S_r in Hl. rewrite Ht in Hl. by eapply c_string_terminated.
Qed.

Section frame.
Context (snake : list pos_t) (len : Z) (food crash : pos_t) (crashed : bool).
#[local] Notation cell := (cell snake len food crash crashed).

Lemma draw_cells_ok xs py out buf n :
  holds out buf n -> zlen out + zlen xs + 1 < zlen buf ->
  exists buf' n', draw_cells snake len food crash crashed xs py buf n = Ret (buf', n') /\ zlen buf' = zlen buf /\
    holds (out ++ ((fun px => cell px py) <$> xs)) buf' n'.
Proof.
  revert out buf n. induction xs as [|px xs IH]; intros out buf n Ho Hfit; simpl.
  - rewrite app_nil_r. eauto.
  - rewrite zlen_cons in Hfit. pose proof (zlen_nonneg xs). pose proof (ho_n _ _ _ Ho).
    rewrite Z.geb_leb, (proj2 (Z.leb_gt _ _)) by lia.
    destruct (store_one_ok out buf n (cell px py) Ho) as (buf1 & -> & Hb & Ho1); [lia|]. simpl.
    destruct (IH _ _ _ Ho1) as (buf' & n' & -> & Hb' & Ho').
    { rewrite zlen_app. change (zlen [_]) with 1. lia. }
    do 2 eexists. split; [done|]. split; [congruence|]. by rewrite <- app_assoc in Ho'.
Qed.

Lemma zlen_seqZ a n : 0 <= n -> zlen (seqZ a n) = n.
Proof. intros. unfold zlen. rewrite length_seqZ. lia. Qed.

Definition row (py : Z) : list byte := (fun px => cell px py) <$> seqZ 0 W.

Lemma rows_cons py ys :
  rows snake len food crash crashed (py :: ys) = row py ++ [x0a] ++ rows snake len food crash crashed ys.
Proof. unfold rows. rewrite fmap_cons, app_assoc. reflexivity. Qed.

Lemma zlen_row py : zlen (row py) = W.
Proof. unfold row, zlen. rewrite length_fmap. apply zlen_seqZ. unfold W. lia. Qed.

Lemma draw_rows_ok ys out buf n :
  holds out buf n -> zlen out + (W + 1) * zlen ys + 1 < zlen buf ->
  exists buf' n', draw_rows snake len food crash crashed ys buf n = Ret (buf', n') /\ zlen buf' = zlen buf /\
    holds (out ++ rows snake len food crash crashed ys) buf' n'.
Proof.
  revert out buf n. induction ys as [|py ys IH]; intros out buf n Ho Hfit.
  - cbn [draw_rows]. replace (rows snake len food crash crashed []) with ([] : list byte) by done.
    rewrite app_nil_r. eauto.
  - rewrite zlen_cons in Hfit. pose proof (zlen_nonneg ys). pose proof (zlen_row py) as Hw. cbn [draw_rows].
    destruct (draw_cells_ok (seqZ 0 W) py out buf n Ho) as (buf1 & n1 & E1 & Hb1 & Ho1).
    { rewrite zlen_seqZ by (unfold W; lia). unfold W in *. lia. }
    rewrite E1. cbn [res_bind]. fold (row py) in Ho1. pose proof (ho_n _ _ _ Ho1) as En. rewrite zlen_app in En.
    rewrite Z.geb_leb, (proj2 (Z.leb_gt _ _)) by (unfold W in *; lia).
    destruct (store_one_ok _ _ _ x0a Ho1) as (buf2 & -> & Hb2 & Ho2); [rewrite zlen_app; unfold W in *; lia|].
    cbn [res_bind]. destruct (IH _ _ _ Ho2) as (buf' & n' & -> & Hb' & Ho').
    { rewrite !zlen_app. change (zlen [x0a]) with 1. unfold W in *. lia. }
    do 2 eexists. split; [done|]. split; [congruence|]. by rewrite rows_cons, !app_assoc.
Qed.

Lemma zlen_rows ys : zlen (rows snake len food crash crashed ys) = (W + 1) * zlen ys.
Proof.
  induction ys as [|py ys IH]; [done|]. rewrite rows_cons, !zlen_app, zlen_row, IH, (zlen_cons py).
  change (zlen [x0a]) with 1. unfold W. lia.
Qed.

Lemma cell_printable px py : cell px py <> x00.
Proof.
  unfold Snake.cell. repeat case_match; discriminate.
Qed.

Lemma rows_printable ys : x00 ∉ rows snake len food crash crashed ys.
Proof.
  induction ys as [|py ys IH]; [set_solver|]. rewrite rows_cons, !not_elem_of_app. split; [|split; [set_solver|done]].
  intros (px & E & _)%list_elem_of_fmap. by destruct (cell_printable px py).
Qed.
End frame.

Lemma digit_printable d : 0 <= d < 10 -> digit d <> x00.
Proof.
  intros Hd. assert (d ∈ seqZ 0 10) as Hin by (apply elem_of_seqZ; lia).
  clear Hd. revert d Hin. apply Forall_forall. vm_compute. repeat constructor; discriminate.
Qed.

Lemma decimal_digits_ok fuel v acc :
  0 <= v < 10 ^ Z.of_nat fuel -> x00 ∉ acc ->
  x00 ∉ decimal_digits fuel v acc /\ zlen (decimal_digits fuel v acc) <= Z.of_nat fuel + zlen acc.
Proof.
  revert v acc. induction fuel as [|fuel IH]; intros v acc Hv Ha; simpl; [split; [done|lia]|].
  destruct (Z.ltb_spec v 10) as [Hlt|Hge].
  - split; [apply not_elem_of_cons; split; [|done]; intros E; by apply (digit_printable v); [lia|]|].
    rewrite zlen_cons. lia.
  - pose proof (Z.mod_pos_bound v 10 ltac:(lia)) as Hm.
    destruct (IH (v / 10) (digit (v mod 10) :: acc)) as [H1 H2].
    + rewrite Nat2Z.inj_succ, Z.pow_succ_r in Hv by lia. split; [apply Z.div_pos; lia|]. apply Z.div_lt_upper_bound; lia.
    + apply not_elem_of_cons. split; [|done]. intros E. by apply (digit_printable (v mod 10)).
    + split; [done|]. rewrite zlen_cons in H2. lia.
Qed.

(** An [int] that is not negative. *)
Definition int_ok (v : Z) : Prop := 0 <= v < 2147483648.

Lemma decimal_ok v : int_ok v -> x00 ∉ decimal v /\ zlen (decimal v) <= 10.
Proof. intros Hv. apply (decimal_digits_ok 10 v []); [unfold int_ok in Hv; simpl; lia|set_solver]. Qed.

(** Texts of the program are free of NUL. *)
Ltac printable := intros Hin; vm_compute in Hin; repeat (apply elem_of_cons in Hin as [?|Hin]; [discriminate|]); by apply elem_of_nil in Hin.

Lemma header_ok score : int_ok score -> x00 ∉ header score /\ zlen (header score) <= 62.
Proof.
  intros [Hp Hl]%decimal_ok. unfold header. split.
  - rewrite not_elem_of_cons, !not_elem_of_app. split; [done|]. split; [|split; [done|]]; printable.
  - rewrite zlen_cons, !zlen_app.
    assert (zlen (text "[Hsnake_chan  score ") = 20) as -> by reflexivity.
    assert (zlen (text "  WASD/arrows  q=quit  dir: ") = 28) as -> by reflexivity. lia.
Qed.

Lemma dir_name_ok cur : x00 ∉ dir_name cur /\ zlen (dir_name cur) <= 5.
Proof. split; [destruct cur; printable|by destruct cur]. Qed.

Lemma holds_nil buf : zlen buf < two64 -> holds [] buf 0.
Proof. intros. split; try done. apply zlen_nonneg. Qed.

Lemma footer_ok buf score :
  zlen buf = 64 -> int_ok score ->
  let f := text "*** GAME OVER — score " ++ decimal score ++ text " ***" in
  game_over_footer buf score = Ret f /\ x00 ∉ f /\ zlen f <= 64.
Proof.
  intros Hb Hs f. destruct (decimal_ok score Hs) as [Hp Hl].
  assert (x00 ∉ f) as Hf by (unfold f; rewrite !not_elem_of_app; split; [printable|split; [done|printable]]).
  assert (zlen f <= 40) as Hlf.
  { unfold f. rewrite !zlen_app. assert (zlen (text "*** GAME OVER — score ") = 24) as -> by reflexivity.
    assert (zlen (text " ***") = 4) as -> by reflexivity. lia. }
  split; [|split; [done|lia]]. unfold game_over_footer. fold f.
  destruct (snprintf_ok [] buf 0 f (holds_nil buf ltac:(unfold two64; lia)) ltac:(simpl; change (zlen []) with 0; lia))
    as (buf' & n' & -> & _ & Ho & Hz).
  cbn [res_bind]. f_equal. by apply (c_string_prefix _ _ _ Ho).
Qed.

(** The frame fits: nothing is cut off and nothing is written outside the buffer. *)
Lemma draw_frame_ok snake len food crash crashed buf score cur footer :
  zlen buf = DRAWBUF -> int_ok score ->
  (forall f, footer = Some f -> x00 ∉ f /\ zlen f <= 64) ->
  draw_frame snake len food crash crashed buf score cur footer
  = Ret (frame snake len food crash crashed score cur footer).
Proof.
  intros Hb Hs Hf. unfold draw_frame, frame. destruct (header_ok score Hs) as [Hp1 Hl1].
  destruct (dir_name_ok cur) as [Hp2 Hl2]. change DRAWBUF with 1312 in Hb.
  destruct (snprintf_ok [] buf 0 (header score)) as (b1 & n1 & -> & Hb1 & Ho1 & _);
    [apply holds_nil; unfold two64; lia|change (zlen []) with 0; lia|]. cbn [res_bind].
  destruct (snprintf_ok _ b1 n1 (dir_name cur) Ho1) as (b2 & n2 & -> & Hb2 & Ho2 & _); [simpl; lia|]. cbn [res_bind].
  destruct (snprintf_ok _ b2 n2 [x0a] Ho2) as (b3 & n3 & -> & Hb3 & Ho3 & _).
  { rewrite !zlen_app. change (zlen [x0a]) with 1. change (zlen []) with 0. lia. }
  cbn [res_bind]. set (out3 := (([] ++ header score) ++ dir_name cur) ++ [x0a]) in *.
  assert (zlen out3 <= 68) as Hl3.
  { unfold out3. rewrite !zlen_app. change (zlen [x0a]) with 1. change (zlen []) with 0. lia. }
  assert (zlen (seqZ 0 H) = 24) as Hz by reflexivity.
  destruct (draw_rows_ok snake len food crash crashed (seqZ 0 H) out3 b3 n3 Ho3) as (b4 & n4 & -> & Hb4 & Ho4).
  { rewrite Hz. unfold W. lia. }
  cbn [res_bind]. set (rs := rows _ _ _ _ _ _) in *.
  assert (zlen rs = 1080) as Hlr by (unfold rs; rewrite zlen_rows, Hz; reflexivity).
  set (tl := match footer with Some f => x0a :: f | None => [] end).
  assert (x00 ∉ tl /\ zlen tl <= 65) as [Hp5 Hl5].
  { unfold tl. destruct footer as [f|]; [|split; [set_solver|done]]. destruct (Hf f eq_refl) as [H1 H2].
    rewrite zlen_cons. split; [set_solver|lia]. }
  assert (exists b5 n5, match footer with
     | Some f => if n4 <? zlen b4 then snprintf_at b4 n4 (x0a :: f) else Ret (b4, n4)
     | None => Ret (b4, n4) end = Ret (b5, n5) /\ zlen b5 = 1312 /\ holds ((out3 ++ rs) ++ tl) b5 n5) as (b5 & n5 & -> & Hb5 & Ho5).
  { pose proof (ho_n _ _ _ Ho4) as En4. rewrite zlen_app in En4. unfold tl in *. destruct footer as [f|].
    - rewrite (proj2 (Z.ltb_lt _ _)) by lia.
      destruct (snprintf_ok _ b4 n4 (x0a :: f) Ho4) as (b5 & n5 & -> & Hb5 & Ho5 & _); [rewrite zlen_app; lia|].
      exists b5, n5. split; [done|]. split; [lia|done].
    - exists b4, n4. rewrite app_nil_r. split; [done|]. split; [lia|done]. }
  cbn [res_bind]. pose proof (ho_n _ _ _ Ho5) as En5. rewrite !zlen_app in En5.
  rewrite (proj2 (Z.ltb_lt _ _)) by lia.
  destruct (store_at_ok _ _ _ [x00] Ho5) as (b6 & -> & Hb6 & Ht6); [rewrite !zlen_app; change (zlen [x00]) with 1; lia|].
  cbn [res_bind]. f_equal. rewrite (c_string_terminated _ _ _ Ht6).
  - unfold out3. by rewrite <- !app_assoc.
  - unfold out3. rewrite !not_elem_of_app. pose proof (rows_printable snake len food crash crashed (seqZ 0 H)). set_solver.
Qed.

(** ** The invariant of the game *)

Definition inside (p : pos_t) : Prop := 1 <= x p <= W - 2 /\ 1 <= y p <= H - 2.
Definition adjacent (p q : pos_t) : Prop := Z.abs (x p - x q) + Z.abs (y p - y q) = 1.

(** Each cell next to the one before. *)
Fixpoint linked (l : list pos_t) : Prop :=
  match l with
  | p :: (q :: _) as l' => adjacent p q /\ linked l'
  | _ => True
  end.

Record game_ok (g : game) : Prop := {
  go_array : zlen (g_snake g) = MAXLEN;
  go_len : 3 <= g_len g <= MAXLEN;
  go_score : g_len g = 3 + g_score g;
  go_inside : Forall inside (cells (g_snake g) (g_len g));
  go_nodup : NoDup (cells (g_snake g) (g_len g));
  go_linked : linked (cells (g_snake g) (g_len g));
  go_dir : g_cur g <> DIR_NONE;
  go_food : inside (g_food g)
}.

Lemma hit_wall_inside p : hit_wall p = false <-> inside p.
Proof.
  unfold hit_wall, inside. rewrite !orb_false_iff, !Z.leb_gt, !Z.geb_leb, !Z.leb_gt. lia.
Qed.

(** The cells between the walls. *)
Definition field_cells : list pos_t :=
  py ← seqZ 1 (H - 2); px ← seqZ 1 (W - 2); mret (mk_pos px py).

Lemma inside_field p : inside p -> p ∈ field_cells.
Proof.
  intros [Hx Hy]. unfold field_cells. apply list_elem_of_bind. exists (y p). split; [|apply elem_of_seqZ; lia].
  apply list_elem_of_bind. exists (x p). split; [|apply elem_of_seqZ; lia]. apply list_elem_of_ret. by destruct p.
Qed.

Lemma field_size : length field_cells = 924%nat.
Proof. vm_compute. reflexivity. Qed.

Lemma zlen_cells snake len : 0 <= len <= zlen snake -> zlen (cells snake len) = len.
Proof. intros. unfold cells, zlen in *. rewrite length_take. lia. Qed.

(** A snake has no more cells than the field, so the array is never filled. *)
Lemma snake_fits g : game_ok g -> g_len g <= 924.
Proof.
  intros [Ha Hl _ Hi Hn _ _ _]. rewrite <- (zlen_cells (g_snake g) (g_len g)) by lia. unfold zlen.
  assert (length (cells (g_snake g) (g_len g)) <= length field_cells)%nat as Hle; [|rewrite field_size in Hle; lia].
  apply submseteq_length, NoDup_submseteq; [done|]. intros p Hp. apply inside_field. by eapply Forall_forall.
Qed.

Lemma apply_dirs_ok ds cur : cur <> DIR_NONE -> DIR_NONE ∉ ds -> apply_dirs ds cur <> DIR_NONE.
Proof.
  revert cur. induction ds as [|d ds IH]; intros cur Hc Hd; [done|]. apply not_elem_of_cons in Hd as [Hd1 Hd].
  apply IH; [|done]. by destruct (opposite cur d).
Qed.

Lemma step_head_adjacent cur p : cur <> DIR_NONE -> adjacent (step_head cur p) p.
Proof. unfold adjacent. destruct cur; simpl; intros; [lia..|done]. Qed.

Lemma linked_cons p q l : adjacent p q -> linked (q :: l) -> linked (p :: q :: l).
Proof. done. Qed.

Lemma linked_take l n : linked l -> linked (take n l).
Proof.
  revert n. induction l as [|p l IH]; intros n Hl; [by destruct n|]. destruct n as [|n]; [done|]. simpl.
  destruct l as [|q l]; [by destruct n|]. destruct Hl as [Ha Hl]. destruct n as [|n]; [done|].
  specialize (IH (S n) Hl). simpl in *. done.
Qed.

Lemma cells_shift head len snake :
  1 <= len <= zlen snake -> cells (shift_in head len snake) len = head :: cells snake (len - 1).
Proof.
  intros Hl. unfold cells, shift_in. replace (Z.to_nat len) with (S (Z.to_nat (len - 1))) at 1 by lia.
  rewrite firstn_cons. f_equal. rewrite take_app_le by (rewrite length_take; unfold zlen in Hl; lia).
  rewrite take_take. f_equal. lia.
Qed.

Lemma zlen_shift head len snake : 1 <= len <= zlen snake -> zlen (shift_in head len snake) = zlen snake.
Proof.
  intros Hl. unfold shift_in. rewrite zlen_cons, zlen_app. unfold zlen in *. rewrite length_take, length_drop. lia.
Qed.

(** The cells of a snake that has at least one. *)
Lemma cells_head snake len : 1 <= len <= zlen snake -> cells snake len = first_cell snake :: drop 1 (cells snake len).
Proof.
  intros Hl. destruct snake as [|p snake]; [change (zlen []) with 0 in Hl; lia|]. unfold cells.
  replace (Z.to_nat len) with (S (Z.to_nat (len - 1))) by lia. done.
Qed.

Lemma cells_prefix snake k len : k <= len -> cells snake k = take (Z.to_nat k) (cells snake len).
Proof. intros. unfold cells. rewrite take_take. f_equal. lia. Qed.

Section ticks.
Context (rnd : nat -> Z).
Hypothesis Hrnd : forall n, 0 <= rnd n.

Lemma place_food_inside tries snake len food n :
  inside food \/ (0 < tries)%nat -> inside (place_food_tries rnd tries snake len food n).1.
Proof using Hrnd.
  assert (forall n, inside (mk_pos (1 + Z.rem (rnd n) (W - 2)) (1 + Z.rem (rnd (S n)) (H - 2)))) as Hin.
  { intros m. pose proof (Z.rem_bound_pos (rnd m) (W - 2)). pose proof (Z.rem_bound_pos (rnd (S m)) (H - 2)).
    pose proof (Hrnd m). pose proof (Hrnd (S m)). unfold inside, W, H in *. simpl x. simpl y. lia. }
  revert food n. induction tries as [|tries IH]; intros food n Hf; simpl; [by destruct Hf as [?|?]; [|lia]|].
  case_bool_decide; [|apply Hin]. apply IH. left. apply Hin.
Qed.

(** A food cell that is not on the first [len] cells, if one of the tries hits one. *)
Lemma place_food_free tries snake len food n :
  (exists k, (k < tries)%nat /\
     mk_pos (1 + Z.rem (rnd (n + 2 * k)%nat) (W - 2)) (1 + Z.rem (rnd (S (n + 2 * k))) (H - 2)) ∉ cells snake len) ->
  (place_food_tries rnd tries snake len food n).1 ∉ cells snake len.
Proof using.
  revert food n. induction tries as [|tries IH]; intros food n (k & Hk & Hfree); [lia|]. simpl.
  case_bool_decide as Hon; [|done]. apply IH. destruct k as [|k]; [by rewrite Nat.mul_0_r, Nat.add_0_r in Hfree|].
  exists k. split; [lia|]. replace (S (S n) + 2 * k)%nat with (n + 2 * S k)%nat by lia. done.
Qed.

(** The new cells of a snake that has moved to [head]: the snake with [head] put
    in front of its first [k] cells. *)
Lemma moved_ok g head k :
  game_ok g -> hit_wall head = false -> hit_self (g_snake g) (g_len g) head = false ->
  head = step_head (g_cur g) (first_cell (g_snake g)) -> 1 <= k <= g_len g ->
  let l := head :: cells (g_snake g) k in Forall inside l /\ NoDup l /\ linked l.
Proof using.
  intros [Ha Hl _ Hi Hn Hli Hd _] Hw%hit_wall_inside Hs%bool_decide_eq_false Hh Hk l. unfold l.
  rewrite (cells_prefix _ k (g_len g)) by lia. set (cs := cells (g_snake g) (g_len g)) in *.
  assert (cs = first_cell (g_snake g) :: drop 1 cs) as Ec by (apply cells_head; lia).
  pose proof (step_head_adjacent (g_cur g) (first_cell (g_snake g)) Hd) as Hadj. rewrite <- Hh in Hadj.
  assert (head ∉ cs) as Hnew.
  { rewrite Ec, not_elem_of_cons. split; [|done]. intros E. rewrite E in Hadj. unfold adjacent in Hadj. lia. }
  split; [|split].
  - constructor; [done|]. by apply Forall_take.
  - constructor; [|by eapply sublist_NoDup; [|apply sublist_take]]. intros (i & Hi' & _)%elem_of_take. apply Hnew. by eapply list_elem_of_lookup_2.
  - apply (linked_take cs (Z.to_nat k)) in Hli. destruct (Z.to_nat k) as [|m] eqn:Em; [lia|].
    rewrite Ec in Hli |- *. by apply linked_cons.
Qed.

Lemma tick_ok g g' : game_ok g -> tick rnd g = inr g' -> game_ok g'.
Proof using Hrnd.
  intros Hg E. pose proof (snake_fits g Hg) as Hfit. pose proof Hg as [Ha Hl Hs Hi Hn Hli Hd Hf]. unfold tick in E.
  set (head := step_head _ _) in *. destruct (hit_wall head || _) eqn:Ehit; [done|].
  apply orb_false_iff in Ehit as [Hw Hself].
  assert (forall len food score n, (len = g_len g \/ len = g_len g + 1) -> len = 3 + score -> inside food ->
    game_ok (mk_game (shift_in head len (g_snake g)) len (g_cur g) food score n)) as Hnext.
  { intros len food score n Hlen Hsc Hfo.
    destruct (moved_ok g head (len - 1) Hg Hw Hself eq_refl ltac:(lia)) as (H1 & H2 & H3).
    assert (1 <= len <= zlen (g_snake g)) as Hb by (rewrite Ha; unfold MAXLEN, W, H; lia).
    split; simpl; rewrite ?cells_shift, ?zlen_shift by done; try done; unfold MAXLEN, W, H; lia. }
  case_bool_decide.
  - rewrite (proj2 (Z.ltb_lt _ _)) in E by (unfold MAXLEN, W, H; lia).
    destruct (place_food rnd _ _ _ _) as [food n] eqn:Ef. injection E as <-. apply Hnext; [lia|lia|].
    replace food with (place_food rnd (g_snake g) (g_len g + 1) (g_food g) (g_rand g)).1 by (by rewrite Ef).
    apply place_food_inside. by left.
  - injection E as <-. apply Hnext; [lia|lia|done].
Qed.
End ticks.

Lemma new_game_ok rnd junk :
  (forall n, 0 <= rnd n) -> zlen junk = MAXLEN -> game_ok (new_game rnd junk).
Proof.
  intros Hrnd Hj. unfold new_game. set (snake := _ ++ drop 3 junk).
  destruct (place_food rnd snake 3 (mk_pos 0 0) 0) as [food n] eqn:Ef.
  assert (inside food) as Hf.
  { replace food with (place_food rnd snake 3 (mk_pos 0 0) 0).1 by (by rewrite Ef). apply place_food_inside; [done|right; lia]. }
  assert (cells snake 3 = [mk_pos 22 12; mk_pos 21 12; mk_pos 20 12]) as Ec by reflexivity.
  split; simpl; rewrite ?Ec; try done.
  - unfold snake. rewrite zlen_app. change (zlen [_; _; _]) with 3. unfold zlen in *. rewrite length_drop. unfold MAXLEN, W, H in *. lia.
  - by repeat constructor.
  - repeat constructor; set_solver.
Qed.

Lemma set_cur_ok d g : game_ok g -> d <> DIR_NONE -> game_ok (set_g_cur d g).
Proof. intros []. by split. Qed.

Definition proper_polls (polls : list poll) : Prop := forall ds c, (ds, c) ∈ polls -> DIR_NONE ∉ ds.

Lemma tick_sleep_ok ms elapsed polls cur :
  proper_polls polls -> cur <> DIR_NONE ->
  let '(cur', polls') := tick_sleep ms elapsed polls cur in cur' <> DIR_NONE /\ proper_polls polls' /\ (length polls' <= length polls)%nat.
Proof.
  revert elapsed cur. induction polls as [|[ds c] polls IH]; intros elapsed cur Hp Hc; simpl.
  - by destruct (elapsed <? ms).
  - destruct (elapsed <? ms); [|done].
    assert (apply_dirs ds cur <> DIR_NONE) as Hc' by (apply apply_dirs_ok; [done|]; apply (Hp ds c); left).
    assert (proper_polls polls) as Hp' by (intros ds' c' Hin; apply (Hp ds' c'); by right).
    destruct c; [simpl; split; [done|split; [done|lia]]|].
    specialize (IH (elapsed + 5) (apply_dirs ds cur) Hp' Hc'). destruct (tick_sleep _ _ _ _). simpl. intuition lia.
Qed.

(** The text of the frame of a game, and of the frame that shows where it ended. *)
Definition frame_of (g : game) : list byte :=
  frame (g_snake g) (g_len g) (g_food g) (mk_pos 0 0) false (g_score g) (g_cur g) None.
Definition crash_frame (g : game) (p : pos_t) : list byte :=
  frame (g_snake g) (g_len g) (g_food g) p true (g_score g) (g_cur g)
    (Some (text "*** GAME OVER — score " ++ decimal (g_score g) ++ text " ***")).

Definition crashed_at (g : game) (p : pos_t) : Prop :=
  adjacent p (first_cell (g_snake g)) /\ (~ inside p \/ p ∈ drop 1 (cells (g_snake g) (g_len g))).

(** What a run may have come to. *)
Definition ends_well (g : game) (e : game_end) (frames : list (list byte)) : Prop :=
  game_ok g /\ (forall p, e = GameOver p -> crashed_at g p) /\
  Forall (fun f => exists g', game_ok g' /\ (f = frame_of g' \/ exists p, crashed_at g' p /\ f = crash_frame g' p)) frames.

Lemma score_ok g : game_ok g -> int_ok (g_score g).
Proof. intros Hg. pose proof (snake_fits g Hg). pose proof (go_len g Hg). pose proof (go_score g Hg). unfold int_ok. lia. Qed.

Lemma tick_crash rnd g p : game_ok g -> tick rnd g = inl p -> crashed_at g p.
Proof.
  intros Hg E. unfold tick in E. set (head := step_head _ _) in *. destruct (hit_wall head || _) eqn:Eh.
  - injection E as <-. split; [by apply step_head_adjacent, go_dir|]. apply orb_true_iff in Eh as [Ew|Es].
    + left. rewrite <- hit_wall_inside. congruence.
    + right. by apply bool_decide_eq_true in Es.
  - destruct (if bool_decide _ then _ else _) as [[[? ?] ?] ?]. done.
Qed.

Section runs.
Context (rnd : nat -> Z) (stack stack64 : list poll -> list byte).
Hypothesis Hrnd : forall n, 0 <= rnd n.
Hypothesis Hstack : forall p, zlen (stack p) = DRAWBUF.
Hypothesis Hstack64 : forall p, zlen (stack64 p) = 64.

Lemma draw_ok g p : game_ok g -> draw g (stack p) = Ret (frame_of g).
Proof using Hstack. intros Hg. apply draw_frame_ok; [done|by apply score_ok|done]. Qed.

Lemma main_loop_ok fuel polls g :
  game_ok g -> proper_polls polls ->
  exists g' e frames, main_loop rnd stack stack64 fuel polls g = Ret (g', e, frames) /\ ends_well g' e frames.
Proof using Hrnd Hstack Hstack64.
  revert polls g. induction fuel as [|fuel IH]; intros polls g Hg Hp.
  { exists g, Running, []. split; [done|]. split; [done|]. split; [done|constructor]. }
  destruct polls as [|[ds closed] polls].
  { exists g, Running, []. split; [done|]. split; [done|]. split; [done|constructor]. }
  cbn [main_loop]. set (g1 := set_g_cur _ g).
  assert (game_ok g1) as Hg1.
  { apply set_cur_ok; [done|]. apply apply_dirs_ok; [apply Hg|]. apply (Hp ds closed). left. }
  destruct closed; [exists g1, Quitted, []; split; [done|]; split; [done|]; split; [done|constructor]|].
  destruct (tick rnd g1) as [crash|g2] eqn:Et.
  - destruct (footer_ok (stack64 polls) (g_score g1) (Hstack64 _) (score_ok _ Hg1)) as (-> & Hf1 & Hf2). cbn [res_bind].
    rewrite draw_frame_ok; [|apply Hstack|by apply score_ok|by intros f [= <-]]. cbn [res_bind].
    pose proof (tick_crash _ _ _ Hg1 Et) as Hc. eexists _, _, _. split; [done|]. split; [done|].
    split; [by intros p [= <-]|]. constructor; [|constructor]. exists g1. split; [done|]. right. by exists crash.
  - pose proof (tick_ok rnd Hrnd _ _ Hg1 Et) as Hg2. rewrite draw_ok by done. cbn [res_bind].
    assert (proper_polls polls) as Hp' by (intros ds' c' Hin; apply (Hp ds' c'); by right).
    pose proof (tick_sleep_ok TICK_MS 0 polls (g_cur g2) Hp' (go_dir _ Hg2)) as Hsl.
    destruct (tick_sleep _ _ _ _) as [cur polls']. destruct Hsl as (Hc & Hp2 & _).
    destruct (IH polls' (set_g_cur cur g2)) as (g' & e & frames & -> & Hok & He & Hfr); [by apply set_cur_ok|done|].
    cbn [res_bind]. eexists _, _, _. split; [done|]. split; [done|]. split; [done|]. constructor; [|done]. exists g2. auto.
Qed.
End runs.

(** ** Decoding keys *)

(** The four directions, and how a terminal reports them. *)
Definition lower (d : dir_t) : Z :=
  match d with DIR_UP => 119 | DIR_DOWN => 115 | DIR_LEFT => 97 | DIR_RIGHT => 100 | DIR_NONE => 0 end.
Definition final (d : dir_t) : Z :=
  match d with DIR_UP => 65 | DIR_DOWN => 66 | DIR_LEFT => 68 | DIR_RIGHT => 67 | DIR_NONE => 0 end.

(** What a player does: a letter, an arrow key in either encoding (with the
    parameters of a modifier), a key without meaning, nothing. *)
Inductive press :=
| Letter (d : dir_t)
| ArrowSs3 (d : dir_t)
| ArrowCsi (params : list Z) (d : dir_t)
| Other (c : Z)
| Idle.

Definition press_keys (p : press) : keys :=
  match p with
  | Letter d => [Some (lower d)]
  | ArrowSs3 d => [Some 27; Some 79; Some (final d)]
  | ArrowCsi params d => Some 27 :: Some 91 :: (Some <$> params) ++ [Some (final d)]
  | Other c => [Some c]
  | Idle => [None]
  end.

Definition press_dir (p : press) : list dir_t :=
  match p with Letter d | ArrowSs3 d | ArrowCsi _ d => [d] | Other _ | Idle => [] end.

Definition press_ok (p : press) : Prop :=
  match p with
  | Letter d | ArrowSs3 d => d <> DIR_NONE
  | ArrowCsi params d => d <> DIR_NONE /\ Forall (fun c => 32 <= c < 64) params
  | Other c => 0 <= c < 256 /\ c <> 27 /\ c <> 113 /\ c <> 81 /\ key_to_dir c = DIR_NONE
  | Idle => True
  end.

Lemma arrow_final d : d <> DIR_NONE -> arrow (final d) = d.
Proof. by destruct d. Qed.
Lemma key_to_dir_lower d : d <> DIR_NONE -> key_to_dir (lower d) = d.
Proof. by destruct d. Qed.

Lemma csi_params params d s :
  Forall (fun c => 32 <= c < 64) params -> d <> DIR_NONE ->
  csi_loop (((Some <$> params) ++ [Some (final d)]) ++ s) = (d, s).
Proof.
  intros Hp Hd. induction Hp as [|c params Hc _ IH]; simpl.
  - replace ((65 <=? final d) && (final d <=? 126)) with true by (by destruct d). by rewrite arrow_final.
  - by rewrite (proj2 (Z.leb_gt 65 c)) by lia.
Qed.

(** Each key press is one round of the thread. *)
Lemma input_round_press p s :
  press_ok p ->
  exists a, input_round (press_keys p ++ s) = (a, s) /\
    match press_dir p with [] => a = Nap \/ a = Ignore | d :: _ => a = Turn d end.
Proof.
  intros Hp. destruct p as [d|d|params d|c|]; simpl in *.
  - exists (Turn d). split; [|done]. unfold input_round. simpl. by destruct d.
  - exists (Turn d). split; [|done]. unfold input_round. simpl. by destruct d.
  - destruct Hp as [Hd Hps]. exists (Turn d). split; [|done]. unfold input_round, read_escape_seq. simpl.
    rewrite csi_params by done. rewrite bool_decide_eq_false_2 by done. done.
  - destruct Hp as (Hc & H1 & H2 & H3 & E). exists Ignore. split; [|by right]. unfold input_round. simpl.
    rewrite (proj2 (Z.ltb_ge c 0)), (proj2 (Z.eqb_neq c 113)), (proj2 (Z.eqb_neq c 81)), E by lia. simpl.
    by rewrite (proj2 (Z.eqb_neq c 27)).
  - exists Nap. split; [done|by left].
Qed.

Lemma input_thread_presses ps s :
  Forall press_ok ps ->
  input_thread (S (length ps)) (concat (press_keys <$> ps) ++ Some 113 :: s) = (concat (press_dir <$> ps), true, s).
Proof.
  induction 1 as [|p ps Hp _ IH]; [done|]. rewrite !fmap_cons. simpl concat. rewrite <- app_assoc.
  destruct (input_round_press p (concat (press_keys <$> ps) ++ Some 113 :: s) Hp) as (a & Ea & Ha).
  cbn [input_thread length]. rewrite Ea. destruct (press_dir p) as [|d l] eqn:Ed.
  - destruct Ha as [-> | ->]; exact IH.
  - rewrite Ha. cbn [input_thread length] in IH. rewrite IH. destruct p; simplify_eq/=; done.
Qed.

(** Whatever is typed, the thread sends proper directions only. *)
Lemma input_sends_proper fuel s : DIR_NONE ∉ (input_thread fuel s).1.1.
Proof.
  revert s. induction fuel as [|fuel IH]; intros s; simpl; [set_solver|].
  destruct (input_round s) as [a s'] eqn:E. destruct a as [| |d|]; [apply IH|set_solver| |apply IH].
  specialize (IH s'). destruct (input_thread fuel s') as [[ds e] s'']. simpl in *.
  apply not_elem_of_cons. split; [|done]. intros <-. unfold input_round in E.
  destruct (read_byte s) as [c s1]. repeat case_match; simplify_eq; by case_bool_decide.
Qed.

Lemma read_byte_suffix s : (read_byte s).2 `suffix_of` s.
Proof. destruct s as [|[c|] s]; simpl; [done|by exists [Some c]|by exists [None]]. Qed.
Lemma csi_loop_suffix s : (csi_loop s).2 `suffix_of` s.
Proof.
  induction s as [|[f|] s IH]; simpl; [done| |by exists [None]].
  destruct (_ && _); [by exists [Some f]|]. by apply suffix_cons_r.
Qed.
Lemma read_escape_suffix s : (read_escape_seq s).2 `suffix_of` s.
Proof.
  unfold read_escape_seq. pose proof (read_byte_suffix s) as H1. destruct (read_byte s) as [c s1]. simpl in *.
  destruct (c <? 0); [done|]. destruct (c =? 79).
  - pose proof (read_byte_suffix s1) as H2. destruct (read_byte s1) as [f s2]. simpl in *.
    destruct (f <? 0); simpl; by etrans.
  - destruct (c =? 91); [|done]. etrans; [apply csi_loop_suffix|done].
Qed.
Lemma input_round_suffix s : (input_round s).2 `suffix_of` s.
Proof.
  unfold input_round. pose proof (read_byte_suffix s) as H1. destruct (read_byte s) as [c s1]. simpl in *.
  destruct (c <? 0); [done|]. destruct (_ || _); [done|]. destruct (_ && _); [|done].
  pose proof (read_escape_suffix s1) as H2. destruct (read_escape_seq s1). simpl in *. by etrans.
Qed.
Lemma input_round_quit s s' : input_round s = (Quit, s') -> Some 113 ∉ s /\ Some 81 ∉ s -> False.
Proof.
  intros E [H1 H2]. unfold input_round in E. destruct s as [|[c|] s]; simpl in E; [done| |done].
  destruct (c <? 0); [done|]. destruct (Z.eqb_spec c 113) as [->|]; [set_solver|].
  destruct (Z.eqb_spec c 81) as [->|]; [set_solver|]. simpl in E.
  destruct (if _ && _ then _ else _) as [d s1]. case_bool_decide; done.
Qed.

(** ** Theorems *)

(** C34: The frame fits its buffer: for every position of the snake, any score an
    [int] can hold and any contents of the uninitialised buffer, [draw_frame]
    writes inside its [DRAWBUF] bytes only, and what it prints is the whole frame,
    header, the H rows of W cells and footer, nothing cut off. *)
Theorem draw_frame_complete snake len food crash crashed buf score cur footer
    (Hb : zlen buf = DRAWBUF) (Hs : int_ok score)
    (Hf : forall f, footer = Some f -> x00 ∉ f /\ zlen f <= 64) :
  draw_frame snake len food crash crashed buf score cur footer
  = Ret (frame snake len food crash crashed score cur footer).
Proof. by apply draw_frame_ok. Qed.

Definition snake_ex : list pos_t := [mk_pos 22 12; mk_pos 21 12; mk_pos 20 12] ++ replicate 1053 (mk_pos 0 0).

Lemma draw_frame_complete_witness :
  draw_frame snake_ex 3 (mk_pos 5 5) (mk_pos 0 0) false (replicate 1312 x55) 2147483647 DIR_RIGHT None
  = Ret (frame snake_ex 3 (mk_pos 5 5) (mk_pos 0 0) false 2147483647 DIR_RIGHT None).
Proof. apply draw_frame_complete; [reflexivity|unfold int_ok; lia|discriminate]. Defined.

(** C33: A whole game, for every sequence of keys, every timing of the polls (all that
    the game receives is what the input thread has sent, in order), every answer
    of [rand] and arbitrary contents of the uninitialised arrays: no access is
    undefined; the snake is always a chain of distinct adjacent cells between the
    walls, of length 3 + score, so at most 924 and the array of MAXLEN cells is
    never filled; the food is between the walls; the game ends only by a close or
    because the head is about to hit a wall or the snake; and every frame shows
    such a state. *)
Theorem snake_run_safe rnd stack stack64 junk (s : keys) (fuel : nat) (polls : list poll)
    (Hrnd : forall n, 0 <= rnd n) (Hj : zlen junk = MAXLEN)
    (Hst : forall p, zlen (stack p) = DRAWBUF) (Hst64 : forall p, zlen (stack64 p) = 64)
    (Hp : concat polls.*1 `prefix_of` (input_thread fuel s).1.1) :
  exists g e frames, snake_main rnd stack stack64 junk polls = Ret (g, e, frames) /\
    ends_well g e frames /\ g_len g = 3 + g_score g /\ g_len g <= 924 < MAXLEN.
Proof.
  assert (proper_polls polls) as Hpp.
  { intros ds c Hin Hn. apply (input_sends_proper fuel s). destruct Hp as [k ->]. apply elem_of_app. left.
    apply list_elem_of_In, in_concat. exists ds. rewrite <- !list_elem_of_In. split; [|done].
    apply list_elem_of_fmap. by exists (ds, c). }
  pose proof (new_game_ok rnd junk Hrnd Hj) as Hg. unfold snake_main. rewrite (draw_ok stack Hst) by done. cbn [res_bind].
  destruct (main_loop_ok rnd stack stack64 Hrnd Hst Hst64 (S (length polls)) polls _ Hg Hpp)
    as (g & e & frames & -> & Hok & He & Hfr). cbn [res_bind].
  exists g, e, (frame_of (new_game rnd junk) :: frames). split; [done|]. split.
  - split; [done|]. split; [done|]. constructor; [|done]. eauto.
  - pose proof (snake_fits g Hok). split; [apply Hok|]. unfold MAXLEN, W, H. lia.
Qed.

(** Two polls; the player turns up in the first. *)
Lemma snake_run_safe_witness :
  exists g e frames, snake_main (fun n => Z.of_nat n) (fun _ => replicate 1312 x55) (fun _ => replicate 64 x55)
      (replicate 1056 (mk_pos 0 0)) [([DIR_UP], false); ([], false)] = Ret (g, e, frames) /\
    ends_well g e frames /\ g_len g = 3 + g_score g /\ g_len g <= 924 < MAXLEN.
Proof.
  apply (snake_run_safe _ _ _ _ [Some 119; Some 113] 2); [lia|reflexivity|reflexivity|reflexivity|].
  by exists [].
Defined.

(** The keys a terminal sends for a sequence of turns (letters, arrow keys in
    both encodings and with modifiers, with meaningless keys and pauses in
    between), followed by q: the input thread sends exactly those directions, in
    order, closes the channel and ends. *)
Theorem input_decodes ps s (Hp : Forall press_ok ps) :
  input_thread (S (length ps)) (concat (press_keys <$> ps) ++ Some 113 :: s) = (concat (press_dir <$> ps), true, s).
Proof. by apply input_thread_presses. Qed.

Lemma input_decodes_witness :
  let ps := [Letter DIR_LEFT; Idle; ArrowSs3 DIR_UP; ArrowCsi [49; 59; 53] DIR_RIGHT; Other 120] in
  input_thread (S (length ps)) (concat (press_keys <$> ps) ++ Some 113 :: []) = (concat (press_dir <$> ps), true, []).
Proof. apply (input_decodes _ []). repeat constructor; simpl; try discriminate; lia. Defined.

(** The opposite direction is refused one turn at a time only: from RIGHT, the
    turns UP and LEFT within one poll leave the snake facing its own second cell,
    and the next tick ends the game. *)
Theorem two_turns_crash :
  opposite DIR_RIGHT DIR_LEFT = true /\ apply_dirs [DIR_UP; DIR_LEFT] DIR_RIGHT = DIR_LEFT /\
  forall rnd junk, tick rnd (set_g_cur (apply_dirs [DIR_UP; DIR_LEFT] DIR_RIGHT) (new_game rnd junk)) = inl (mk_pos 21 12).
Proof.
  split; [done|]. split; [done|]. intros rnd junk. unfold new_game. destruct (place_food rnd _ 3 _ 0). reflexivity.
Qed.

(** New food is placed before the snake has moved, so it may be placed under its
    new head. *)
Theorem food_on_new_head :
  exists rnd g g', game_ok g /\ tick rnd g = inr g' /\ g_score g' = 1 /\ g_food g' = first_cell (g_snake g').
Proof.
  exists (fun n => if (n =? 0)%nat then 22 else 11), (mk_game snake_ex 3 DIR_RIGHT (mk_pos 23 12) 0 0). eexists.
  split; [|split; [vm_compute; reflexivity|done]].
  assert (cells snake_ex 3 = [mk_pos 22 12; mk_pos 21 12; mk_pos 20 12]) as Ec by reflexivity.
  split; simpl; rewrite ?Ec; try done; [by repeat constructor|repeat constructor; set_solver].
Qed.

(** A left arrow whose bytes arrive in two parts turns the snake right: the escape
    byte alone is dropped, and the final D is taken for the letter.  A capital A
    is no letter at all. *)
Theorem split_arrow_turns_right :
  input_thread 2 [Some 27; Some 91; Some 68; Some 113] = ([DIR_LEFT], true, []) /\
  input_thread 4 [Some 27; None; Some 91; Some 68; Some 113] = ([DIR_RIGHT], true, []) /\
  (forall s, input_round (Some 65 :: s) = (Ignore, s)).
Proof. done. Qed.

(** The input thread ends on q only: the key that ends [wait_any_key] and however
    many others are pressed after it, [pthread_join] does not return. *)
Theorem any_key_does_not_end fuel c s (Hq : Some 113 ∉ s /\ Some 81 ∉ s) :
  wait_any_key (None :: Some c :: s) = Some s /\ (input_thread fuel s).1.2 = false.
Proof.
  split; [done|].
  assert (forall s1 s2 : keys, s2 `suffix_of` s1 -> (Some 113 ∉ s1 /\ Some 81 ∉ s1) -> (Some 113 ∉ s2 /\ Some 81 ∉ s2)) as Hsuf.
  { intros s1 s2 [k ->]. rewrite !not_elem_of_app. tauto. }
  revert s Hq. induction fuel as [|fuel IH]; intros s Hq; [done|]. simpl.
  destruct (input_round s) as [a s'] eqn:E. pose proof (input_round_suffix s) as Hs. rewrite E in Hs. simpl in Hs.
  specialize (IH s' (Hsuf _ _ Hs Hq)). destruct a as [| |d|]; [done| | |done].
  - exfalso. by eapply input_round_quit.
  - by destruct (input_thread fuel s') as [[? ?] ?].
Qed.

Lemma any_key_does_not_end_witness :
  wait_any_key [None; Some 120; Some 32; None; Some 13] = Some [Some 32; None; Some 13] /\
  (input_thread 10 [Some 32; None; Some 13]).1.2 = false.
Proof. apply (any_key_does_not_end 10 120). set_solver. Defined.
