(* ===== verification/Dplane.v ===== *)
(** * The data-plane examples: what they share

    [examples/dplane_pipeline.c] and [examples/dplane_pipeline_mpsc.c] are two
    versions of one self-test: five node threads forward packets along six paths,
    and a driver injects numbered packets at the sources and collects completion
    messages at the sinks.  They differ in the channels between the threads.

    This file holds the data they share, the programs their threads are written
    in and the idling of a node.  A thread is a program over the channel operations
    it calls, so that the bodies read like the C functions; [DplaneSys] runs them
    interleaved. *)

From S2P Require Import Prelude.
From stdpp Require Import functions list.
#[local] Open Scope Z_scope.

(** ** Data *)

Definition CHAN_CAP : Z := 4096.
Definition DRAIN_SEC : Z := 30.
Definition BLOCK_WAIT_USEC_DEFAULT : Z := 100.

Inductive path_id_t :=
| PATH_TUN_FORWARD_ENC_TUNNEL
| PATH_TUNNEL_ENC_FORWARD_TUN
| PATH_TUNNEL_FORWARD_TUN
| PATH_TUN_FORWARD_TUNNEL
| PATH_TUNNEL_FORWARD_OAM
| PATH_OAM_FORWARD_TUNNEL
| PATH_COUNT.

Record pkt_t := mk_pkt { k_seq : Z; k_path : path_id_t }.

Record done_msg_t := mk_done { d_path : path_id_t; d_seq : Z; d_done_ns : Z }.

Inductive poll_mode_t := POLL_SPIN | POLL_YIELD | POLL_BACKOFF | POLL_BLOCK.

#[export] Instance path_eq_dec : EqDecision path_id_t.
Proof. solve_decision. Defined.
#[export] Instance poll_mode_eq_dec : EqDecision poll_mode_t.
Proof. solve_decision. Defined.

(** The members of [plane_t] that are set before the threads start. *)
Record plane_cfg := mk_cfg { p_mode : poll_mode_t; p_block_wait_usec : Z }.

(** ** Programs *)

(** Ways to let time pass: the pause instruction, [sched_yield], [nanosleep]. *)
Inductive relax := SpinPause | SchedYield | Nanosleep (tv_sec tv_nsec : Z).

(** A program with its next operation and what it does with the answer, over
    packet channels named by [Q] and completion channels named by [D].  A send
    answers true for CHAN_OK, a receive is [chan_try_recv]; [JoinAll] waits for the
    five threads. *)
Inductive io (Q D A : Type) : Type :=
| Fin (a : A)
| TryRecv (p : Q) (k : option pkt_t -> io Q D A)
| TryRecvDone (d : D) (k : option done_msg_t -> io Q D A)
| Send (p : Q) (m : pkt_t) (k : bool -> io Q D A)
| SendDone (d : D) (m : done_msg_t) (k : bool -> io Q D A)
| IsClosed (p : Q) (k : bool -> io Q D A)
| Len (p : Q) (k : Z -> io Q D A)
| ClosePort (p : Q) (k : io Q D A)
| CloseSink (d : D) (k : io Q D A)
| Now (k : Z -> io Q D A)
| Relax (r : relax) (k : io Q D A)
| SetStop (k : io Q D A)
| JoinAll (k : io Q D A)
| Undefined       (* an access outside an array *)
| Overflow        (* an integer computation without a defined value *)
| Unfinished.     (* a timed loop that has not ended within its fuel *)
Arguments Fin {Q D A} a.
Arguments TryRecv {Q D A} p k.
Arguments TryRecvDone {Q D A} d k.
Arguments Send {Q D A} p m k.
Arguments SendDone {Q D A} d m k.
Arguments IsClosed {Q D A} p k.
Arguments Len {Q D A} p k.
Arguments ClosePort {Q D A} p k.
Arguments CloseSink {Q D A} d k.
Arguments Now {Q D A} k.
Arguments Relax {Q D A} r k.
Arguments SetStop {Q D A} k.
Arguments JoinAll {Q D A} k.
Arguments Undefined {Q D A}.
Arguments Overflow {Q D A}.
Arguments Unfinished {Q D A}.

#[export] Instance io_ret Q D : MRet (io Q D) := @Fin Q D.
#[export] Instance io_bind Q D : MBind (io Q D) := fun A B (f : A -> io Q D B) =>
  fix go (m : io Q D A) : io Q D B :=
  match m with
  | Fin a => f a
  | TryRecv p k => TryRecv p (fun x => go (k x))
  | TryRecvDone d k => TryRecvDone d (fun x => go (k x))
  | Send p m k => Send p m (fun x => go (k x))
  | SendDone d m k => SendDone d m (fun x => go (k x))
  | IsClosed p k => IsClosed p (fun x => go (k x))
  | Len p k => Len p (fun x => go (k x))
  | ClosePort p k => ClosePort p (go k)
  | CloseSink d k => CloseSink d (go k)
  | Now k => Now (fun x => go (k x))
  | Relax r k => Relax r (go k)
  | SetStop k => SetStop (go k)
  | JoinAll k => JoinAll (go k)
  | Undefined => Undefined
  | Overflow => Overflow
  | Unfinished => Unfinished
  end.

Section programs.
Context {Q D : Type}.
#[local] Notation prog := (io Q D).

Definition try_recv (p : Q) : prog (option pkt_t) := TryRecv p mret.
Definition is_closed (p : Q) : prog bool := IsClosed p mret.
Definition len (p : Q) : prog Z := Len p mret.
Definition now_ns : prog Z := Now mret.
(** [now_ns() + ns] on [int64_t]; [None] is a conversion to [int64_t] that has no
    defined value. *)
Definition deadline_after (ns : option Z) : prog Z :=
  now ← now_ns;
  match ns with
  | Some d => if (- 2 ^ 63 <=? now + d) && (now + d <? 2 ^ 63) then mret (now + d) else Overflow
  | None => Overflow
  end.
Definition spin_pause : prog unit := Relax SpinPause (mret tt).
Definition sched_yield : prog unit := Relax SchedYield (mret tt).

Definition sleep_usec (usec : Z) : prog unit :=
  if usec =? 0 then mret tt
  else Relax (Nanosleep (usec / 1000000) (usec mod 1000000 * 1000)) (mret tt).

(** ** Idling *)

Context (pl : plane_cfg).

(** The spin counter is an [int]; its increment wraps here, where C leaves the 2^31st
    idle round in a row undefined. *)
Definition poll_idle (idle_spins : Z) : prog Z :=
  match p_mode pl with
  | POLL_SPIN => mret idle_spins
  | POLL_YIELD => sched_yield;; mret idle_spins
  | POLL_BACKOFF =>
      (if idle_spins <? 40 then spin_pause
       else if idle_spins <? 200 then sched_yield
       else sleep_usec 100);;
      mret (i32 (idle_spins + 1))
  | POLL_BLOCK =>
      (if idle_spins <? 40 then spin_pause
       else if idle_spins <? 200 then sched_yield
       else sleep_usec (if p_block_wait_usec pl >? 0 then p_block_wait_usec pl else 1));;
      mret (i32 (idle_spins + 1))
  end.

Fixpoint ports_have_backlog (ports : list Q) : prog bool :=
  match ports with
  | [] => mret false
  | p :: ports => n ← len p; if n >? 0 then mret true else ports_have_backlog ports
  end.

Definition node_idle (ports : list Q) (idle : Z) : prog Z :=
  backlog ← (if decide (p_mode pl = POLL_BLOCK) then ports_have_backlog ports else mret false);
  if (backlog : bool) then spin_pause;; mret idle else poll_idle idle.

(** The first packet on any of the ports, in order ([||] of the receives). *)
Fixpoint try_recv_any (ports : list Q) : prog (option pkt_t) :=
  match ports with
  | [] => mret None
  | p :: ports =>
      r ← try_recv p;
      match r with Some pkt => mret (Some pkt) | None => try_recv_any ports end
  end.
End programs.
