(* ===== verification/DplaneMain.v ===== *)
(** * The data-plane examples: the driver

    The statistics and latency records, the injection and draining of packets
    and the traffic patterns, as the main thread runs them; the text of
    [examples/dplane_pipeline.c] and of [examples/dplane_pipeline_mpsc.c] is the
    same but for the members of [Driver].  Output is left out.  Loops that end at
    a deadline carry fuel. *)

From S2P Require Import Prelude Dplane.
From stdpp Require Import functions list.
#[local] Open Scope Z_scope.

(** ** Records *)

Record path_stat_t := mk_stat {
  s_enabled : bool;
  s_sent : Z;
  s_recv : Z;
  s_dup : Z;
  s_lost : Z;
  s_next_expected : Z
}.

Record run_config_t := mk_run {
  r_path_enabled : path_id_t -> bool;
  r_count : Z;
  r_timed : bool;             (* duration_sec > 0.0 *)
  r_duration_ns : option Z;   (* (int64_t)(duration_sec * 1e9), when that is an int64_t *)
  r_interval_usec : Z;
  r_parallel : bool;
  r_poll_mode : poll_mode_t;
  r_block_wait_usec : Z
}.

(** [send_ts] has [send_cap] cells; [samples] has room for [cap], of which the
    listed ones are filled. *)
Record path_latency_t := mk_lat {
  t_send_ts : list Z;
  t_samples : list Z;
  t_cap : Z;
  t_sum : Z
}.

Definition t_send_cap (lat : path_latency_t) : Z := zlen (t_send_ts lat).
Definition t_n (lat : path_latency_t) : Z := zlen (t_samples lat).

Notation stats_t := (path_id_t -> path_stat_t).
Notation latency_ctx_t := (path_id_t -> path_latency_t).

Definition all_paths : list path_id_t :=
  [PATH_TUN_FORWARD_ENC_TUNNEL; PATH_TUNNEL_ENC_FORWARD_TUN; PATH_TUNNEL_FORWARD_TUN;
   PATH_TUN_FORWARD_TUNNEL; PATH_TUNNEL_FORWARD_OAM; PATH_OAM_FORWARD_TUNNEL].

(** Whether [realloc] and [malloc] grant a block of that many bytes; [calloc]
    also refuses a product that is not a [size_t]. *)
Class Alloc := alloc : Z -> bool.
Definition calloc `{Alloc} (nmemb size : Z) : bool := (nmemb * size <? two64) && alloc (nmemb * size).

(** ** Latency *)

(** [while (new_cap < need) new_cap *= 2] on [uint64_t]; 64 rounds are enough. *)
Fixpoint grow_cap (fuel : nat) (new_cap need : Z) : option Z :=
  match fuel with
  | O => None
  | S fuel => if new_cap <? need then grow_cap fuel (u64 (new_cap * 2)) need else Some new_cap
  end.

(** What depends on the channels of a version: polling the completion channels,
    the channel to inject a path into, and the closing of channels. *)
Class Driver (Q D : Type) := {
  poll_done_try : stats_t -> option latency_ctx_t -> io Q D (bool * stats_t * option latency_ctx_t);
  inject_ch : path_id_t -> option Q;
  close_inject : io Q D unit;
  close_all : io Q D unit
}.

Section records.
Context `{Alloc} {Q D : Type}.
#[local] Notation prog := (io Q D).

Definition latency_grow_send (lat : path_latency_t) (seq : Z) : prog (bool * path_latency_t) :=
  let need := seq + 1 in
  if need <=? t_send_cap lat then mret (true, lat)
  else
    match grow_cap 64 (if t_send_cap lat =? 0 then 4096 else t_send_cap lat) need with
    | None => Undefined
    | Some new_cap =>
        if alloc (u64 (new_cap * 8)) then
          mret (true, mk_lat (t_send_ts lat ++ replicate (Z.to_nat (new_cap - t_send_cap lat)) 0)
                        (t_samples lat) (t_cap lat) (t_sum lat))
        else mret (false, lat)
    end.

Definition latency_push (lat : path_latency_t) (ns : Z) : bool * path_latency_t :=
  let new_cap := if t_cap lat =? 0 then 4096 else u64 (t_cap lat * 2) in
  let full := t_n lat >=? t_cap lat in
  if full && negb (alloc (u64 (new_cap * 8))) then (false, lat)
  else (true, mk_lat (t_send_ts lat) (t_samples lat ++ [ns]) (if full then new_cap else t_cap lat)
                (u64 (t_sum lat + ns))).

(** The two blocks of one enabled path, and the loop over the paths; a refused
    block ends the initialisation. *)
Definition latency_path_init (hint : Z) : option path_latency_t :=
  if calloc hint 8 then
    if alloc (u64 (hint * 8)) then Some (mk_lat (replicate (Z.to_nat hint) 0) [] hint 0) else None
  else None.

Definition latency_ctx_init (stats : stats_t) (cfg : run_config_t) : option latency_ctx_t :=
  let hint := if r_timed cfg then 4096 else if r_count cfg =? 0 then 1 else r_count cfg in
  foldl (fun ctx i =>
      ctx ← ctx;
      if s_enabled (stats i) then lat ← latency_path_init hint; Some (<[i := lat]> ctx) else Some ctx)
    (Some (fun _ => mk_lat [] [] 0 0)) all_paths.

(** [a[i] = v]; outside the array it is undefined. *)
Definition store (l : list Z) (i v : Z) : prog (list Z) :=
  if i <? zlen l then mret (<[Z.to_nat i := v]> l) else Undefined.

Definition latency_on_send (ctx : latency_ctx_t) (path : path_id_t) (seq : Z) : prog latency_ctx_t :=
  '(ok, lat) ← latency_grow_send (ctx path) seq;
  if (ok : bool) then
    now ← now_ns;
    ts ← store (t_send_ts lat) seq now;
    mret (<[path := mk_lat ts (t_samples lat) (t_cap lat) (t_sum lat)]> ctx)
  else mret (<[path := lat]> ctx).

Definition latency_on_recv (ctx : latency_ctx_t) (path : path_id_t) (seq done_ns : Z) : latency_ctx_t :=
  let lat := ctx path in
  match t_send_ts lat !! Z.to_nat seq with
  | None => ctx                              (* seq >= send_cap *)
  | Some t0 =>
      if t0 =? 0 then ctx
      else
        let lat1 := mk_lat (<[Z.to_nat seq := 0]> (t_send_ts lat)) (t_samples lat) (t_cap lat) (t_sum lat) in
        let delta := if done_ns >? t0 then u64 (done_ns - t0) else 1 in
        <[path := (latency_push lat1 delta).2]> ctx
  end.

(** ** Statistics *)

Definition stat_on_recv (stat : path_stat_t) (path : path_id_t) (seq done_ns : Z) (lat : option latency_ctx_t)
  : path_stat_t * option latency_ctx_t :=
  let seen := (fun c => latency_on_recv c path seq done_ns) <$> lat in
  if negb (s_enabled stat) then (stat, lat)
  else if seq <? s_next_expected stat then
    (mk_stat true (s_sent stat) (s_recv stat) (u64 (s_dup stat + 1)) (s_lost stat) (s_next_expected stat), lat)
  else if seq >? s_next_expected stat then
    (mk_stat true (s_sent stat) (u64 (s_recv stat + 1)) (s_dup stat)
       (u64 (s_lost stat + u32 (seq - s_next_expected stat))) (u32 (seq + 1)), seen)
  else
    (mk_stat true (s_sent stat) (u64 (s_recv stat + 1)) (s_dup stat) (s_lost stat)
       (u32 (s_next_expected stat + 1)), seen).

(** [stats[done.path]] for a completion, which must be one of the six paths. *)
Definition account (done : done_msg_t) (stats : stats_t) (lat : option latency_ctx_t)
  : prog (stats_t * option latency_ctx_t) :=
  if decide (d_path done = PATH_COUNT) then Undefined
  else
    let (st, lat) := stat_on_recv (stats (d_path done)) (d_path done) (d_seq done) (d_done_ns done) lat in
    mret (<[d_path done := st]> stats, lat).

(** One of the three receives of [poll_done_try]. *)
Definition poll_sink (d : D) (stats : stats_t) (lat : option latency_ctx_t)
  : prog (bool * stats_t * option latency_ctx_t) :=
  r ← TryRecvDone d mret;
  match r with
  | Some done => '(stats, lat) ← account done stats lat; mret (true, stats, lat)
  | None => mret (false, stats, lat)
  end.

Definition total_sent (stats : stats_t) : Z :=
  foldl (fun n i => if s_enabled (stats i) then u64 (n + s_sent (stats i)) else n) 0 all_paths.

Definition total_recv (stats : stats_t) : Z :=
  foldl (fun n i => if s_enabled (stats i) then u64 (n + s_recv (stats i)) else n) 0 all_paths.

Definition path_drained (stat : path_stat_t) : bool := s_sent stat <=? u64 (s_recv stat + s_dup stat).

Definition all_drained (stats : stats_t) : bool :=
  forallb (fun i => negb (s_enabled (stats i)) || negb (u64 (s_recv (stats i) + s_dup (stats i)) <? s_sent (stats i)))
    all_paths.

Definition enabled_path_count (stats : stats_t) : Z :=
  foldl (fun n i => if s_enabled (stats i) then n + 1 else n) 0 all_paths.

Definition path_ok (stat : path_stat_t) : bool :=
  if negb (s_enabled stat) then true
  else (s_lost stat =? 0) && (s_dup stat =? 0) && (s_recv stat =? s_sent stat).

End records.

(** ** Injecting *)

Section driver.
Context `{Alloc} {Q D : Type} `{Driver Q D}.
#[local] Notation prog := (io Q D).

(** [chan_send(NULL, ...)] answers CHAN_ERR_INVALID. *)
Definition inject_packet (stats : stats_t) (path : path_id_t) (lat : option latency_ctx_t)
  : prog (bool * stats_t * option latency_ctx_t) :=
  let st := stats path in
  let seq := u32 (s_sent st) in
  let pkt := mk_pkt seq path in
  lat ← match lat with Some c => c ← latency_on_send c path seq; mret (Some c) | None => mret None end;
  ok ← match inject_ch path with Some inj => Send inj pkt mret | None => mret false end;
  if (ok : bool) then
    mret (true, <[path := mk_stat (s_enabled st) (u64 (s_sent st + 1)) (s_recv st) (s_dup st) (s_lost st)
                            (s_next_expected st)]> stats, lat)
  else mret (false, stats, lat).

(** ** Draining *)

Definition poll_done_wait (pl : plane_cfg) (stats : stats_t) (lat : option latency_ctx_t) (idle : Z)
  : prog (stats_t * option latency_ctx_t * Z) :=
  '(got, stats, lat) ← poll_done_try stats lat;
  if (got : bool) then mret (stats, lat, 0)
  else idle ← poll_idle pl idle; mret (stats, lat, idle).

Definition world := (stats_t * option latency_ctx_t)%type.

(** [while (now_ns() < deadline) { if (drained) return 0; poll_done_wait(...); } return -1;] *)
Fixpoint drain_loop (fuel : nat) (pl : plane_cfg) (drained : stats_t -> bool) (deadline : Z) (w : world) (idle : Z)
  : prog (Z * world) :=
  match fuel with
  | O => Unfinished
  | S fuel =>
      now ← now_ns;
      if now <? deadline then
        if drained w.1 then mret (0, w)
        else
          '(stats, lat, idle) ← poll_done_wait pl w.1 w.2 idle;
          drain_loop fuel pl drained deadline (stats, lat) idle
      else mret (-1, w)
  end.

Definition drain_remaining (fuel : nat) (pl : plane_cfg) (w : world) (timeout_sec : Z) : prog (Z * world) :=
  deadline ← deadline_after (Some (timeout_sec * 1000000000)); drain_loop fuel pl all_drained deadline w 0.

Definition drain_path (fuel : nat) (pl : plane_cfg) (w : world) (path : path_id_t) (timeout_sec : Z) : prog (Z * world) :=
  deadline ← deadline_after (Some (timeout_sec * 1000000000));
  drain_loop fuel pl (fun stats => path_drained (stats path)) deadline w 0.

(** ** Traffic *)

(** [inject_packet], [poll_done_try], [sleep_usec]: the body of every inner loop. *)
Definition inject_poll (cfg : run_config_t) (path : path_id_t) (w : world) : prog (bool * world) :=
  '(ok, stats, lat) ← inject_packet w.1 path w.2;
  if (ok : bool) then
    '(_, stats, lat) ← poll_done_try stats lat;
    sleep_usec (r_interval_usec cfg);;
    mret (true, (stats, lat))
  else mret (false, (stats, lat)).

Fixpoint round_paths (cfg : run_config_t) (paths : list path_id_t) (w : world) : prog (Z * world) :=
  match paths with
  | [] => mret (0, w)
  | path :: paths =>
      if s_enabled (w.1 path) then
        '(ok, w) ← inject_poll cfg path w;
        if (ok : bool) then round_paths cfg paths w else mret (-1, w)
      else round_paths cfg paths w
  end.
Definition inject_round (cfg : run_config_t) (w : world) : prog (Z * world) := round_paths cfg all_paths w.

(** [while (now_ns() < deadline) { body or return -1 }] and
    [for (n = 0; n < count; n++) { body or return -1 }]. *)
Fixpoint until (fuel : nat) (deadline : Z) (body : world -> prog (Z * world)) (w : world) : prog (Z * world) :=
  match fuel with
  | O => Unfinished
  | S fuel =>
      now ← now_ns;
      if now <? deadline then
        '(rc, w) ← body w;
        if rc =? 0 then until fuel deadline body w else mret (-1, w)
      else mret (0, w)
  end.
Fixpoint times (n : nat) (body : world -> prog (Z * world)) (w : world) : prog (Z * world) :=
  match n with
  | O => mret (0, w)
  | S n =>
      '(rc, w) ← body w;
      if rc =? 0 then times n body w else mret (-1, w)
  end.

Definition run_traffic_parallel (fuel : nat) (cfg : run_config_t) (w : world) : prog (Z * world) :=
  if r_timed cfg then
    deadline ← deadline_after (r_duration_ns cfg); until fuel deadline (inject_round cfg) w
  else times (Z.to_nat (r_count cfg)) (inject_round cfg) w.

(** The two inner loops of the sequential run on one path. *)
Definition inject_one (cfg : run_config_t) (path : path_id_t) (w : world) : prog (Z * world) :=
  '(ok, w) ← inject_poll cfg path w; mret (if (ok : bool) then 0 else -1, w).

Definition feed_path (fuel : nat) (cfg : run_config_t) (path : path_id_t) (w : world) : prog (Z * world) :=
  if r_timed cfg then
    deadline ← deadline_after (r_duration_ns cfg); until fuel deadline (inject_one cfg path) w
  else times (Z.to_nat (r_count cfg)) (inject_one cfg path) w.

Fixpoint sequential (fuel : nat) (pl : plane_cfg) (cfg : run_config_t) (paths : list path_id_t) (w : world)
  : prog (Z * world) :=
  match paths with
  | [] => mret (0, w)
  | path :: paths =>
      if s_enabled (w.1 path) then
        '(rc, w) ← feed_path fuel cfg path w;
        if rc =? 0 then
          '(rc, w) ← drain_path fuel pl w path DRAIN_SEC;
          if rc =? 0 then sequential fuel pl cfg paths w else mret (-1, w)
        else mret (-1, w)
      else sequential fuel pl cfg paths w
  end.
Definition run_traffic_sequential (fuel : nat) (pl : plane_cfg) (cfg : run_config_t) (w : world) : prog (Z * world) :=
  sequential fuel pl cfg all_paths w.

Definition run_traffic (fuel : nat) (pl : plane_cfg) (cfg : run_config_t) (w : world) : prog (Z * world) :=
  '(rc, w) ← (if (enabled_path_count w.1 >? 1) && negb (r_parallel cfg)
              then run_traffic_sequential fuel pl cfg w
              else run_traffic_parallel fuel cfg w);
  if rc =? 0 then close_inject;; drain_remaining fuel pl w DRAIN_SEC else mret (rc, w).

(** The end of [main]: stop and close everything, wait for the threads, and
    judge; the statistics are what it reports. *)
Definition finish (rc : Z) (stats : stats_t) : prog (Z * stats_t) :=
  SetStop (
    close_all;;
    JoinAll (mret (if negb (rc =? 0) then 1
                   else if forallb (fun i => path_ok (stats i)) all_paths then 0 else 1, stats))).

(** [main] from the start of the threads on. *)
Definition main_run (fuel : nat) (pl : plane_cfg) (cfg : run_config_t) (w : world) : prog (Z * stats_t) :=
  t0 ← now_ns;
  '(rc, w) ← run_traffic fuel pl cfg w;
  t1 ← now_ns;
  finish rc w.1.
End driver.
