(* ===== verification/DplaneSys.v ===== *)
(** * The data-plane examples: the threads together

    The five nodes and the driver run interleaved, one channel operation at a
    time, over channels that are bounded queues; what a version of the example
    is made of is a [Topology].  The programs of its nodes are judged by [node_wp],
    and the packets in flight along a path are the ends of the [line] of its
    channels. *)

From S2P Require Import Prelude Dplane DplaneMain.
From stdpp Require Import functions list.
#[local] Open Scope Z_scope.

(** ** The machine *)

(** A channel of the example as its two ends see it. *)
Record link (A : Type) := mk_link { l_buf : list A; l_closed : bool }.
Arguments mk_link {A} l_buf l_closed.
Arguments l_buf {A} l.
Arguments l_closed {A} l.

Inductive node := TUN | FORWARD | ENC | TUNNEL | OAM.
#[export] Instance node_eq_dec : EqDecision node.
Proof. solve_decision. Defined.

(** Who takes a step. *)
Inductive who := Main | Node (n : node).

(** A version of the example: the programs of its nodes, one round of each loop;
    the channels of a path from its source on and its completion channel; the
    node that receives from a channel; the channels the driver closes while the
    nodes run. *)
Class Topology (Q D : Type) := {
  node_body : plane_cfg -> node -> Z -> io Q D (option Z);
  route : path_id_t -> list Q;
  sink_of : path_id_t -> D;
  owner : Q -> node;
  injection : Q -> bool
}.

Section machine.
Context {Q D : Type} `{EqDecision Q, EqDecision D, Topology Q D}.
#[local] Notation prog := (io Q D).

(** A node's thread: at the head of [while (!pl->stop)], inside a round, or gone. *)
Inductive thread := Looping (idle : Z) | Running (p : prog (option Z)) | Exited.

Record plane := mk_plane {
  y_port : Q -> link pkt_t;
  y_sink : D -> link done_msg_t;
  y_stop : bool;
  y_node : node -> thread;
  y_main : prog (Z * stats_t)
}.

Definition set_port (q : Q) (l : link pkt_t) (s : plane) : plane :=
  mk_plane (<[q := l]> (y_port s)) (y_sink s) (y_stop s) (y_node s) (y_main s).
Definition set_sink (d : D) (l : link done_msg_t) (s : plane) : plane :=
  mk_plane (y_port s) (<[d := l]> (y_sink s)) (y_stop s) (y_node s) (y_main s).
Definition set_stop (s : plane) : plane := mk_plane (y_port s) (y_sink s) true (y_node s) (y_main s).
Definition set_node (n : node) (t : thread) (s : plane) : plane :=
  mk_plane (y_port s) (y_sink s) (y_stop s) (<[n := t]> (y_node s)) (y_main s).
Definition set_main (p : prog (Z * stats_t)) (s : plane) : plane :=
  mk_plane (y_port s) (y_sink s) (y_stop s) (y_node s) p.

(** The three operations on a channel of [cap] places: [None] means the
    operation blocks. *)
Definition link_recv {A} (l : link A) : option A * link A :=
  match l_buf l with [] => (None, l) | m :: buf => (Some m, mk_link buf (l_closed l)) end.
Definition link_send {A} (cap : Z) (m : A) (l : link A) : option (bool * link A) :=
  if l_closed l then Some (false, l)
  else if zlen (l_buf l) <? cap then Some (true, mk_link (l_buf l ++ [m]) false)
  else None.
Definition link_close {A} (l : link A) : link A := mk_link (l_buf l) true.

Definition exited (t : thread) : bool := match t with Exited => true | _ => false end.
Definition all_nodes : list node := [TUN; FORWARD; ENC; TUNNEL; OAM].

(** The capacities of the channels. *)
Record caps := mk_caps { c_port : Q -> Z; c_sink : D -> Z }.

(** The next operation of a program; [now] is what the clock shows. *)
Definition exec {A} (cap : caps) (now : Z) (p : prog A) (s : plane) : option (prog A * plane) :=
  match p with
  | Fin _ | Undefined | Overflow | Unfinished => None
  | TryRecv q k => let (r, l) := link_recv (y_port s q) in Some (k r, set_port q l s)
  | TryRecvDone d k => let (r, l) := link_recv (y_sink s d) in Some (k r, set_sink d l s)
  | Send q m k => '(b, l) ← link_send (c_port cap q) m (y_port s q); Some (k b, set_port q l s)
  | SendDone d m k => '(b, l) ← link_send (c_sink cap d) m (y_sink s d); Some (k b, set_sink d l s)
  | IsClosed q k => Some (k (l_closed (y_port s q)), s)
  | Len q k => Some (k (zlen (l_buf (y_port s q))), s)
  | ClosePort q k => Some (k, set_port q (link_close (y_port s q)) s)
  | CloseSink d k => Some (k, set_sink d (link_close (y_sink s d)) s)
  | Now k => Some (k now, s)
  | Relax _ k => Some (k, s)
  | SetStop k => Some (k, set_stop s)
  | JoinAll k => if forallb (fun n => exited (y_node s n)) all_nodes then Some (k, s) else None
  end.

Definition node_step (pl : plane_cfg) (cap : caps) (now : Z) (n : node) (s : plane) : option plane :=
  match y_node s n with
  | Exited => None
  | Looping idle => Some (set_node n (if y_stop s then Exited else Running (node_body pl n idle)) s)
  | Running (Fin (Some idle)) => Some (set_node n (Looping idle) s)
  | Running (Fin None) => Some (set_node n Exited s)
  | Running p => '(p, s) ← exec cap now p s; Some (set_node n (Running p) s)
  end.

Definition step (pl : plane_cfg) (cap : caps) (l : who * Z) (s : plane) : option plane :=
  match l.1 with
  | Main => '(p, s) ← exec cap l.2 (y_main s) s; Some (set_main p s)
  | Node n => node_step pl cap l.2 n s
  end.

(** The state in which [main] has started the threads. *)
Definition started (main : prog (Z * stats_t)) : plane :=
  mk_plane (fun _ => mk_link [] false) (fun _ => mk_link [] false) false (fun _ => Looping 0) main.
End machine.
Arguments thread : clear implicits.
Arguments plane : clear implicits.
Arguments caps : clear implicits.

(** ** Routes *)

(** Where a packet goes next. *)
Inductive place (Q D : Type) := AtPort (q : Q) | AtSink (d : D).
Arguments AtPort {Q D} q.
Arguments AtSink {Q D} d.
#[export] Instance place_eq_dec `{EqDecision Q, EqDecision D} : EqDecision (place Q D).
Proof. solve_decision. Defined.

Section routes.
Context {Q D : Type} `{EqDecision Q, EqDecision D, Topology Q D}.

Fixpoint next_in (qs : list Q) (d : D) (q : Q) : place Q D :=
  match qs with
  | [] => AtSink d
  | q1 :: qs =>
      match qs with
      | [] => AtSink d
      | q2 :: _ => if decide (q1 = q) then AtPort q2 else next_in qs d q
      end
  end.
Definition next (P : path_id_t) (q : Q) : place Q D := next_in (route P) (sink_of P) q.

Lemma next_in_tail qs d q q2 : next_in qs d q = AtPort q2 -> q2 ∈ tail qs.
Proof.
  induction qs as [|q1 [|q3 qs] IH]; simpl; [done|done|]. case_decide; intros E; [simplify_eq; left|].
  apply IH in E. simpl in E. by right.
Qed.
End routes.

(** ** Node programs

    [node_wp n h p Post]: the program [p] of the node [n], which holds the packet
    [h] bound for the given place, receives only from channels of [n] and only
    with empty hands, sends on what it holds as the path of the packet says,
    learns that a channel is closed only of those the driver closes while it
    runs, and ends as [Post] says. *)
Notation hand Q D := (option (place Q D * pkt_t)).

Section node_programs.
Context {Q D : Type} `{EqDecision Q, EqDecision D, Topology Q D}.
#[local] Notation hand := (hand Q D).
#[local] Notation prog := (io Q D).

Fixpoint node_wp {A} (n : node) (h : hand) (p : prog A) (Post : hand -> A -> Prop) : Prop :=
  match p with
  | Fin a => Post h a
  | TryRecv q k =>
      h = None /\ owner q = n /\ node_wp n None (k None) Post /\
      forall m, q ∈ route (k_path m) -> node_wp n (Some (next (k_path m) q, m)) (k (Some m)) Post
  | Send q m k => h = Some (AtPort q, m) /\ forall b, node_wp n None (k b) Post
  | SendDone d m k => h = Some (AtSink d, mk_pkt (d_seq m) (d_path m)) /\ forall b, node_wp n None (k b) Post
  | IsClosed q k => forall b, (b = true -> injection q = true) -> node_wp n h (k b) Post
  | Len q k => forall z, node_wp n h (k z) Post
  | Now k => forall t, node_wp n h (k t) Post
  | Relax r k => node_wp n h k Post
  | _ => False
  end.

Lemma node_wp_bind {A B} n h (m : prog A) (f : A -> prog B) Post :
  node_wp n h m (fun h a => node_wp n h (f a) Post) -> node_wp n h (m ≫= f) Post.
Proof. revert h. induction m; intros h; simpl; naive_solver. Qed.

Lemma node_wp_mono {A} n h (p : prog A) (Post Post' : hand -> A -> Prop) :
  (forall h a, Post h a -> Post' h a) -> node_wp n h p Post -> node_wp n h p Post'.
Proof. intros HP. revert h. induction p; intros h; simpl; naive_solver. Qed.

(** Idling holds on to nothing. *)
Lemma poll_idle_wp pl n h idle : node_wp n h (poll_idle pl idle) (fun h' _ => h' = h).
Proof.
  unfold poll_idle, sleep_usec. destruct (p_mode pl); simpl; try done;
    (destruct (idle <? 40); simpl; [done|]); (destruct (idle <? 200); simpl; [done|]); simpl; try done.
  by destruct (_ =? 0).
Qed.

Lemma backlog_wp n h ports : node_wp n h (ports_have_backlog ports) (fun h' _ => h' = h).
Proof. induction ports as [|q ports IH]; simpl; [done|]. intros z. simpl. by destruct (z >? 0). Qed.

Lemma node_idle_wp pl n h ports idle : node_wp n h (node_idle pl ports idle) (fun h' _ => h' = h).
Proof.
  unfold node_idle. apply node_wp_bind. case_decide.
  - eapply node_wp_mono, backlog_wp. intros h' [] ->; simpl; [done|apply poll_idle_wp].
  - apply poll_idle_wp.
Qed.

(** What a round of the loop leaves behind. *)
Definition round_post (h : hand) (o : option Z) : Prop := h = None /\ o <> None.

Lemma idle_round_wp pl n ports idle :
  node_wp n None (idle ← node_idle pl ports idle; mret (Some idle)) round_post.
Proof. apply node_wp_bind. eapply node_wp_mono, node_idle_wp. intros h' z ->. done. Qed.

End node_programs.

(** What makes a version of the example work: the nodes keep to the routes, a
    route visits each node once, and only its source is closed early. *)
Class TopologyOk (Q D : Type) `{EqDecision Q, EqDecision D, Topology Q D} : Prop := {
  node_body_wp pl n idle : node_wp n None (node_body pl n idle) round_post;
  route_owner P q q' : q ∈ route P -> q' ∈ route P -> owner q = owner q' -> q = q';
  route_nodup P : NoDup (route P);
  route_count : route PATH_COUNT = [];
  route_open P q : q ∈ tail (route P) -> injection q = false
}.

(** ** Packets in flight along a path *)

Section flight.
Context {Q D : Type} `{EqDecision Q, EqDecision D, Topology Q D, !TopologyOk Q D}.
#[local] Notation hand := (hand Q D).

(** [line C E qs]: the sequence numbers in the channels [qs] of a path and in the
    hands of their receivers, given by [C], behind those in the sink, [E], oldest
    first. *)
Fixpoint line (C : Q -> list Z) (E : list Z) (qs : list Q) : list Z :=
  match qs with [] => E | q :: qs => line C E qs ++ C q end.

Lemma line_ext C C' E qs : (forall q, q ∈ qs -> C' q = C q) -> line C' E qs = line C E qs.
Proof.
  induction qs as [|q qs IH]; intros Hq; simpl; [done|]. rewrite Hq by left. f_equal. apply IH. intros. apply Hq. by right.
Qed.

Lemma line_app C E pre qs : line C E (pre ++ qs) = line C (line C E qs) pre.
Proof. induction pre as [|q pre IH]; simpl; [done|]. by rewrite IH. Qed.

(** A number moves from [q] to [q2]. *)
Lemma line_shift C C' E pre q q2 post x :
  NoDup (pre ++ q :: q2 :: post) -> C q = x :: C' q -> C' q2 = C q2 ++ [x] ->
  (forall p, p ∈ pre ++ q :: q2 :: post -> p <> q -> p <> q2 -> C' p = C p) ->
  line C' E (pre ++ q :: q2 :: post) = line C E (pre ++ q :: q2 :: post).
Proof.
  intros Hn E1 E2 Ho. apply NoDup_app in Hn as (_ & Hp & [Hq Hn]%NoDup_cons). apply NoDup_cons in Hn as [Hq2 _].
  rewrite !line_app. simpl. rewrite E1, E2, (line_ext C C' E post); [|intros p Hp'; apply Ho; set_solver].
  rewrite <- !app_assoc. simpl. apply line_ext. intros p Hp'. apply Ho; specialize (Hp p Hp'); set_solver.
Qed.

(** A number moves from the last channel to the sink. *)
Lemma line_exit C C' E pre q x :
  NoDup (pre ++ [q]) -> C q = x :: C' q -> (forall p, p ∈ pre ++ [q] -> p <> q -> C' p = C p) ->
  line C' (E ++ [x]) (pre ++ [q]) = line C E (pre ++ [q]).
Proof.
  intros Hn E1 Ho. apply NoDup_app in Hn as (_ & Hp & _). rewrite !line_app. simpl. rewrite E1, <- app_assoc. simpl.
  apply line_ext. intros p Hp'. specialize (Hp p Hp'). apply Ho; set_solver.
Qed.

Lemma line_pop C E x qs : line C (x :: E) qs = x :: line C E qs.
Proof. induction qs as [|q qs IH]; simpl; [done|]. by rewrite IH. Qed.

(** The numbers of the packets of the path [P] in a buffer, in a sink, in a hand. *)
Definition seqs_of (P : path_id_t) (l : list pkt_t) : list Z := k_seq <$> filter (fun m => k_path m = P) l.
Definition dones_of (P : path_id_t) (l : list done_msg_t) : list Z := d_seq <$> filter (fun m => d_path m = P) l.
Definition hand_of (P : path_id_t) (q : Q) (h : hand) : list Z :=
  match h with
  | Some (dst, m) => if decide (k_path m = P /\ dst = next P q) then [k_seq m] else []
  | None => []
  end.

Definition contents (s : plane Q D) (H : node -> hand) (P : path_id_t) (q : Q) : list Z :=
  hand_of P q (H (owner q)) ++ seqs_of P (l_buf (y_port s q)).
Definition flight (s : plane Q D) (H : node -> hand) (P : path_id_t) : list Z :=
  line (contents s H P) (dones_of P (l_buf (y_sink s (sink_of P)))) (route P).

(** A channel of a path is followed by the next one, or by the sink. *)
Lemma route_split P q : q ∈ route P -> exists pre post, route P = pre ++ q :: post /\
  next P q = match post with [] => AtSink (sink_of P) | q2 :: _ => AtPort q2 end.
Proof.
  intros Hq. pose proof (route_nodup P) as Hn. unfold next. revert Hq Hn. generalize (route P) (sink_of P).
  intros qs d. induction qs as [|q1 qs IH]; intros Hq Hn; [by apply elem_of_nil in Hq|].
  apply NoDup_cons in Hn as [H1 Hn]. apply elem_of_cons in Hq as [<-|Hq].
  - exists [], qs. split; [done|]. simpl. destruct qs; [done|]. by rewrite decide_True.
  - destruct (IH Hq Hn) as (pre & post & -> & E). exists (q1 :: pre), post. split; [done|].
    rewrite <- E. simpl. destruct (pre ++ q :: post) eqn:E'; [by destruct pre|].
    rewrite decide_False; [done|]. intros ->. done.
Qed.

Lemma seqs_app P l k : seqs_of P (l ++ k) = seqs_of P l ++ seqs_of P k.
Proof. unfold seqs_of. by rewrite filter_app, fmap_app. Qed.
Lemma dones_app P l k : dones_of P (l ++ k) = dones_of P l ++ dones_of P k.
Proof. unfold dones_of. by rewrite filter_app, fmap_app. Qed.
Lemma seqs_cons P m l : seqs_of P (m :: l) = (if decide (k_path m = P) then [k_seq m] else []) ++ seqs_of P l.
Proof. unfold seqs_of. rewrite filter_cons. by case_decide. Qed.
Lemma dones_cons P m l : dones_of P (m :: l) = (if decide (d_path m = P) then [d_seq m] else []) ++ dones_of P l.
Proof. unfold dones_of. rewrite filter_cons. by case_decide. Qed.
End flight.

(** ** Automation for the rounds of a version's nodes *)

(** Each case of a packet received where its path leads. *)
Ltac routed :=
  match goal with
  | H : _ ∈ ?r (k_path ?m) |- _ =>
      destruct m as [? []]; simpl in H; rewrite ?elem_of_cons, ?elem_of_nil in H;
      first [exfalso; naive_solver | clear H]
  end; simpl.

(** The closed test at the end of a round. *)
Ltac not_closed :=
  repeat match goal with
  | b : bool, H : ?b = true -> _ |- _ =>
      destruct b; [first [discriminate (H eq_refl) | clear H] | clear H]; simpl; intros
  end;
  try apply idle_round_wp.
