(* ===== verification/DplaneInv.v ===== *)
(** * The data-plane examples: packets stay in order

    The invariant of the running pipeline: along each path the channels, the
    hands of the nodes and the sink hold the consecutive sequence numbers
    between the completions the driver has collected and the packets it has
    injected.  Every step of every node and every well-behaved step of the
    driver keeps it. *)

From S2P Require Import Prelude Dplane DplaneMain DplaneSys.
From stdpp Require Import functions list.
#[local] Open Scope Z_scope.

Notation counts := (path_id_t -> Z).

(** The driver injects a path into its first channel. *)
Class InjectOk (Q D : Type) `{Topology Q D, Driver Q D} : Prop :=
  inject_route P q : inject_ch P = Some q -> exists post, route P = q :: post.

(** ** Updated functions *)

(** A property of every channel or thread, after one of them changed. *)
Lemma insert_all {K V} `{EqDecision K} (f : K -> V) k v (Good : K -> V -> Prop) :
  (forall j, Good j (f j)) -> Good k v -> forall j, Good j ((<[k := v]> f) j).
Proof. intros Hf Hv j. destruct (decide (j = k)) as [->|]; [by rewrite fn_lookup_insert|by rewrite fn_lookup_insert_ne]. Qed.

Lemma insert_true {K} `{EqDecision K} (f g : K -> bool) k :
  (forall j, f j = true -> g j = true) -> forall j, (<[k := true]> f) j = true -> (<[k := true]> g) j = true.
Proof. intros Hg j. destruct (decide (j = k)) as [->|]; [by rewrite !fn_lookup_insert|]. rewrite !fn_lookup_insert_ne by done. auto. Qed.

(** ** How the packets in flight change *)

Section invariant.
Context {Q D : Type} `{EqQ : EqDecision Q, EqD : EqDecision D, Topo : Topology Q D, !TopologyOk Q D}.
#[local] Notation hand := (hand Q D).
#[local] Notation prog := (io Q D).
#[local] Notation plane := (plane Q D).
#[local] Notation thread := (thread Q D).

Lemma contents_ext s s' H H' P q :
  l_buf (y_port s' q) = l_buf (y_port s q) -> hand_of P q (H' (owner q)) = hand_of P q (H (owner q)) ->
  contents s' H' P q = contents s H P q.
Proof. unfold contents. by intros -> ->. Qed.

Lemma hand_of_other P q dst m : k_path m <> P -> hand_of P q (Some (dst, m)) = [].
Proof. intros ?. simpl. rewrite decide_False; [done|tauto]. Qed.

(** A node takes a packet out of one of its channels. *)
Lemma flight_recv s H P q m buf c :
  H (owner q) = None -> l_buf (y_port s q) = m :: buf -> q ∈ route (k_path m) ->
  flight (set_port q (mk_link buf c) s) (<[owner q := Some (next (k_path m) q, m)]> H) P = flight s H P.
Proof.
  intros EH Eb Hq. unfold flight. simpl. apply line_ext. intros q' Hq'. unfold contents. simpl.
  destruct (decide (owner q' = owner q)) as [Eo|No].
  - rewrite Eo, fn_lookup_insert, EH. destruct (decide (k_path m = P)) as [<-|NP].
    + assert (q' = q) as -> by (eapply route_owner; eauto). rewrite fn_lookup_insert, Eb, seqs_cons. simpl.
      by rewrite !decide_True.
    + rewrite hand_of_other by done. simpl. destruct (decide (q' = q)) as [->|].
      * rewrite fn_lookup_insert, Eb, seqs_cons. by rewrite decide_False.
      * by rewrite fn_lookup_insert_ne by done.
  - rewrite fn_lookup_insert_ne by done. rewrite fn_lookup_insert_ne by (by intros ->). done.
Qed.

Lemma next_port P q q2 : q ∈ route P -> next P q = AtPort q2 ->
  exists pre post, route P = pre ++ q :: q2 :: post.
Proof.
  intros Hq En. destruct (route_split P q Hq) as (pre & [|q3 post] & E & E'); rewrite E' in En; simplify_eq. eauto.
Qed.
Lemma next_sink P q d : q ∈ route P -> next P q = AtSink d -> d = sink_of P /\ exists pre, route P = pre ++ [q].
Proof.
  intros Hq En. destruct (route_split P q Hq) as (pre & [|q3 post] & E & E'); rewrite E' in En; simplify_eq. eauto.
Qed.

(** A packet in the hand of the owner of [q] is counted at [q] and nowhere else. *)
Lemma hand_of_own P q m : k_path m = P -> hand_of P q (Some (next P q, m)) = [k_seq m].
Proof. intros <-. simpl. by rewrite decide_True. Qed.

(** It passes the packet on to the next channel. *)
Lemma flight_send s H P q q2 m c :
  H (owner q) = Some (AtPort q2, m) -> q ∈ route (k_path m) -> next (k_path m) q = AtPort q2 ->
  flight (set_port q2 (mk_link (l_buf (y_port s q2) ++ [m]) c) s) (<[owner q := None]> H) P = flight s H P.
Proof.
  intros EH Hq En. unfold flight. simpl. destruct (decide (k_path m = P)) as [<-|NP].
  - destruct (next_port _ _ _ Hq En) as (pre & post & Er). pose proof (route_nodup (k_path m)) as Hn.
    assert (forall p, p ∈ route (k_path m) -> p <> q -> owner p <> owner q) as Ho
      by (intros p Hp Np E; apply Np; eapply route_owner; eauto).
    rewrite Er in Hn |- *. rewrite Er in Ho.
    assert (q2 <> q) as Hne by (apply NoDup_app in Hn as (_ & _ & [Hn _]%NoDup_cons); set_solver).
    apply line_shift with (x := k_seq m); unfold contents; simpl; [done|..].
    + rewrite EH, <- En, hand_of_own, fn_lookup_insert, fn_lookup_insert_ne by done. done.
    + rewrite fn_lookup_insert, fn_lookup_insert_ne by (apply not_eq_sym, Ho; set_solver). simpl.
      rewrite seqs_app, seqs_cons, decide_True by done. by rewrite app_assoc.
    + intros p Hp N1 N2. rewrite !fn_lookup_insert_ne by (done || (apply not_eq_sym, Ho; set_solver)). done.
  - apply line_ext. intros p Hp. unfold contents. simpl. f_equal.
    + destruct (decide (owner p = owner q)) as [->|]; [|by rewrite fn_lookup_insert_ne by done].
      by rewrite fn_lookup_insert, EH, hand_of_other.
    + destruct (decide (p = q2)) as [->|]; [|by rewrite fn_lookup_insert_ne by done].
      rewrite fn_lookup_insert. simpl. rewrite seqs_app, seqs_cons, decide_False by done. by rewrite app_nil_r.
Qed.

(** It reports the packet at the sink of its path. *)
Lemma flight_done s H P q d m c :
  H (owner q) = Some (AtSink d, mk_pkt (d_seq m) (d_path m)) -> q ∈ route (d_path m) -> next (d_path m) q = AtSink d ->
  flight (set_sink d (mk_link (l_buf (y_sink s d) ++ [m]) c) s) (<[owner q := None]> H) P = flight s H P.
Proof.
  intros EH Hq En. unfold flight. simpl. destruct (decide (d_path m = P)) as [<-|NP].
  - destruct (next_sink _ _ _ Hq En) as (Ed & pre & Er). pose proof (route_nodup (d_path m)) as Hn. rewrite <- Ed.
    rewrite fn_lookup_insert. simpl. rewrite dones_app, dones_cons, decide_True by done. simpl.
    assert (forall p, p ∈ route (d_path m) -> p <> q -> owner p <> owner q) as Ho
      by (intros p Hp Np E; apply Np; eapply route_owner; eauto).
    rewrite Er in Hn |- *. rewrite Er in Ho. apply line_exit; unfold contents; simpl; [done|..].
    + rewrite EH, <- En, hand_of_own, fn_lookup_insert by done. done.
    + intros p Hp N1. rewrite fn_lookup_insert_ne by (apply not_eq_sym, Ho; set_solver). done.
  - replace (dones_of P _) with (dones_of P (l_buf (y_sink s (sink_of P)))).
    + apply line_ext. intros p Hp. unfold contents. simpl. f_equal.
      destruct (decide (owner p = owner q)) as [->|]; [|by rewrite fn_lookup_insert_ne by done].
      by rewrite fn_lookup_insert, EH, hand_of_other.
    + destruct (decide (sink_of P = d)) as [<-|]; [|by rewrite fn_lookup_insert_ne by done].
      rewrite fn_lookup_insert. simpl. rewrite dones_app, dones_cons, decide_False by done. by rewrite app_nil_r.
Qed.

Context `{Drv : Driver Q D, !InjectOk Q D}.

(** The driver injects a packet. *)
Lemma flight_inject s H P q m c : inject_ch (k_path m) = Some q ->
  flight (set_port q (mk_link (l_buf (y_port s q) ++ [m]) c) s) H P =
  flight s H P ++ (if decide (k_path m = P) then [k_seq m] else []).
Proof.
  intros Hi. unfold flight. simpl. case_decide as HP.
  - subst P. destruct (inject_route _ _ Hi) as [post Er]. pose proof (route_nodup (k_path m)) as Hn.
    rewrite Er in Hn |- *. apply NoDup_cons in Hn as [Hn _]. simpl. unfold contents at 2 4. simpl.
    rewrite fn_lookup_insert. simpl. rewrite seqs_app, seqs_cons, decide_True by done. simpl.
    rewrite !app_assoc. f_equal. f_equal. f_equal. apply line_ext. intros p Hp. unfold contents. simpl.
    rewrite fn_lookup_insert_ne by (intros ->; done). done.
  - rewrite app_nil_r. apply line_ext. intros p Hp. unfold contents. simpl. f_equal.
    destruct (decide (p = q)) as [->|]; [|by rewrite fn_lookup_insert_ne by done].
    rewrite fn_lookup_insert. simpl. rewrite seqs_app, seqs_cons, decide_False by done. by rewrite app_nil_r.
Qed.

(** The driver collects a completion. *)
Lemma flight_take s H P d m buf c : l_buf (y_sink s d) = m :: buf -> sink_of (d_path m) = d ->
  flight s H P = (if decide (d_path m = P) then [d_seq m] else []) ++ flight (set_sink d (mk_link buf c) s) H P.
Proof.
  intros Eb Ed. unfold flight. simpl. destruct (decide (sink_of P = d)) as [E|N].
  - rewrite E, fn_lookup_insert, Eb, dones_cons. simpl. case_decide; simpl; [by rewrite line_pop|done].
  - rewrite fn_lookup_insert_ne by done. by rewrite decide_False by congruence.
Qed.

(** Closing a channel loses nothing. *)
Lemma flight_close s H P q : flight (set_port q (link_close (y_port s q)) s) H P = flight s H P.
Proof.
  unfold flight. simpl. apply line_ext. intros p Hp. apply contents_ext; [|done]. simpl.
  destruct (decide (p = q)) as [->|]; [by rewrite fn_lookup_insert|by rewrite fn_lookup_insert_ne by done].
Qed.

(** ** The invariant *)

(** A packet in hand came from a channel of the node and goes where its path leads. *)
Definition hand_ok (n : node) (h : hand) : Prop :=
  match h with
  | Some (dst, m) => exists q, q ∈ route (k_path m) /\ owner q = n /\ next (k_path m) q = dst
  | None => True
  end.

Definition node_ok (n : node) (h : hand) (t : thread) : Prop :=
  match t with
  | Looping _ => h = None
  | Running p => node_wp n h p round_post /\ hand_ok n h
  | Exited => False
  end.

(** The numbers of path [P] from [R P] up to [S P]. *)
Definition window (R S : path_id_t -> Z) (P : path_id_t) : list Z := u32 <$> seqZ (R P) (S P - R P).

(** The channels of a running pipeline: only the driver's may be closed, and each
    holds packets of the paths that use it. *)
Definition port_ok (q : Q) (l : link pkt_t) : Prop :=
  (injection q = false -> l_closed l = false) /\ Forall (fun m => q ∈ route (k_path m)) (l_buf l).
Definition sink_ok (d : D) (l : link done_msg_t) : Prop :=
  l_closed l = false /\ Forall (fun m => d_path m <> PATH_COUNT /\ sink_of (d_path m) = d) (l_buf l).

Record plane_ok (R S : path_id_t -> Z) (H : node -> hand) (s : plane) : Prop := {
  po_stop : y_stop s = false;
  po_ports q : port_ok q (y_port s q);
  po_sinks d : sink_ok d (y_sink s d);
  po_nodes n : node_ok n (H n) (y_node s n);
  po_range P : 0 <= R P <= S P;
  po_flight P : flight s H P = window R S P
}.

Lemma plane_ok_main R S H s p : plane_ok R S H s -> plane_ok R S H (set_main p s).
Proof. by intros []. Qed.

(** A node advances without touching the channels. *)
Lemma plane_ok_node R S H s n t : plane_ok R S H s -> node_ok n (H n) t -> plane_ok R S H (set_node n t s).
Proof. intros [] Hn. split; try done. simpl. by apply (insert_all _ _ _ (fun n t => node_ok n (H n) t)). Qed.

(** A node advances and what it holds changes. *)
Lemma plane_ok_hand R S H s s1 n h t :
  plane_ok R S H s -> y_stop s1 = y_stop s -> y_node s1 = y_node s ->
  (forall q, port_ok q (y_port s1 q)) -> (forall d, sink_ok d (y_sink s1 d)) -> node_ok n h t ->
  (forall P, flight s1 (<[n := h]> H) P = flight s H P) -> plane_ok R S (<[n := h]> H) (set_node n t s1).
Proof.
  intros [] E1 E2 Hp Hd Hn Hf. split; simpl; try done; [congruence| |].
  - rewrite E2. intros n'. destruct (decide (n' = n)) as [->|]; [by rewrite !fn_lookup_insert|].
    rewrite !fn_lookup_insert_ne by done. done.
  - intros P. rewrite <- (po_flight0 P), <- Hf. done.
Qed.

Lemma next_open P q q2 : q ∈ route P -> next P q = AtPort q2 -> injection q2 = false /\ q2 ∈ route P.
Proof.
  intros Hq En. split; [by eapply route_open, next_in_tail|].
  destruct (next_port _ _ _ Hq En) as (pre & post & ->). set_solver.
Qed.

(** *** Node steps *)

Lemma port_ok_recv q l m buf : port_ok q l -> l_buf l = m :: buf ->
  port_ok q (mk_link buf (l_closed l)) /\ q ∈ route (k_path m).
Proof. intros [Ho Hf] E. rewrite E in Hf. apply Forall_cons in Hf as [? ?]. done. Qed.

Lemma port_ok_send q l m c : port_ok q l -> c = l_closed l -> q ∈ route (k_path m) -> port_ok q (mk_link (l_buf l ++ [m]) c).
Proof. intros [Ho Hf] -> Hq. split; [done|]. apply Forall_app. split; [done|]. by apply Forall_singleton. Qed.

Lemma sink_ok_send d l m : sink_ok d l -> d_path m <> PATH_COUNT -> sink_of (d_path m) = d ->
  sink_ok d (mk_link (l_buf l ++ [m]) false).
Proof. intros [Ho Hf] ??. split; [done|]. apply Forall_app. split; [done|]. by apply Forall_singleton. Qed.

(** An operation of a node on a channel: the invariant moves on. *)
Lemma exec_node R S H s n p cap now p' s' :
  plane_ok R S H s -> node_wp n (H n) p round_post -> hand_ok n (H n) ->
  exec cap now p s = Some (p', s') -> exists H', plane_ok R S H' (set_node n (Running p') s').
Proof.
  intros HJ Hwp Hh Hex. pose proof (po_ports _ _ _ _ HJ) as Hp. pose proof (po_sinks _ _ _ _ HJ) as Hd.
  destruct p; simpl in Hex, Hwp; try done; simplify_eq.
  - (* TryRecv *)
    destruct Hwp as (EH & <- & Hnone & Hsome). unfold link_recv in Hex.
    destruct (l_buf (y_port s p)) as [|m buf] eqn:Eb; simplify_eq.
    + exists (<[owner p := None]> H). apply plane_ok_hand with s; try done.
      * by apply insert_all.
      * intros P. unfold flight; simpl. apply line_ext. intros q Hq. apply contents_ext; simpl.
        -- destruct (decide (q = p)) as [->|]; [by rewrite fn_lookup_insert|by rewrite fn_lookup_insert_ne].
        -- destruct (decide (owner q = owner p)) as [->|]; [by rewrite fn_lookup_insert, EH|by rewrite fn_lookup_insert_ne].
    + destruct (port_ok_recv _ _ _ _ (Hp p) Eb) as [Hok Hq]. eexists. apply plane_ok_hand with s; try done.
      * by apply insert_all.
      * split; [by apply Hsome|]. simpl. by exists p.
      * intros P. by apply flight_recv.
  - (* Send *)
    destruct Hwp as [EH Hk]. rewrite EH in Hh. destruct Hh as (q & Hq & <- & En).
    destruct (next_open _ _ _ Hq En) as [Hi Hr]. pose proof (Hp p) as [Ho _]. specialize (Ho Hi).
    unfold link_send in Hex. rewrite Ho in Hex. destruct (_ <? _); simplify_eq/=.
    eexists. apply plane_ok_hand with s; try done.
    + apply insert_all; [done|]. by apply port_ok_send.
    + intros P. by apply flight_send.
  - (* SendDone *)
    destruct Hwp as [EH Hk]. rewrite EH in Hh. destruct Hh as (q & Hq & <- & En). simpl in Hq, En.
    destruct (next_sink _ _ _ Hq En) as [Ed _]. pose proof (Hd d) as [Ho _].
    unfold link_send in Hex. rewrite Ho in Hex. destruct (_ <? _); simplify_eq/=.
    eexists. apply plane_ok_hand with s; try done.
    + apply insert_all; [done|]. apply sink_ok_send; [done| |done]. intros E. rewrite E, route_count in Hq. by apply elem_of_nil in Hq.
    + intros P. by apply flight_done.
  - (* IsClosed *)
    exists H. apply plane_ok_node; [done|]. split; [|done]. apply Hwp. intros E.
    destruct (injection p) eqn:Ei; [done|]. pose proof (Hp p) as [Ho _]. rewrite Ho in E; done.
  - exists H. apply plane_ok_node; [done|]. by split.
  - exists H. apply plane_ok_node; [done|]. by split.
  - exists H. apply plane_ok_node; [done|]. by split.
Qed.

Lemma node_step_ok pl cap now n R S H s s' :
  plane_ok R S H s -> node_step pl cap now n s = Some s' -> exists H', plane_ok R S H' s'.
Proof.
  intros HJ Hs. pose proof (po_nodes _ _ _ _ HJ n) as Hn. unfold node_step in Hs.
  destruct (y_node s n) as [idle|p|]; simpl in Hn; [|destruct Hn as [Hwp Hh]|done].
  - rewrite (po_stop _ _ _ _ HJ) in Hs. simplify_eq. exists H. apply plane_ok_node; [done|].
    rewrite Hn. split; [apply node_body_wp|done].
  - destruct p as [[idle|]| | | | | | | | | | | | | | |]; simpl in Hwp;
      try (destruct Hwp as [Hw1 Hw2]; simplify_eq; exists H; by apply plane_ok_node).
    all: destruct (exec _ _ _ _) as [[p' s1]|] eqn:Ex; simpl in Hs; simplify_eq; refine (exec_node _ _ _ _ n _ _ _ _ _ HJ _ Hh Ex); exact Hwp.
Qed.

(** ** Driver programs

    [main_wp R S p Tail Post]: the program [p] of the driver, having collected
    [R P] completions of each path and injected [S P] packets, injects the next
    number of a path at its source, closes only the channels it injects into, and
    ends as [Post] says or, once it has set the stop flag, as [Tail] says.  A
    completion it collects is the next one of its path. *)
Fixpoint main_wp {A} (R S : path_id_t -> Z) (p : prog A) (Tail : (path_id_t -> Z) -> (path_id_t -> Z) -> prog A -> Prop)
    (Post : (path_id_t -> Z) -> (path_id_t -> Z) -> A -> Prop) : Prop :=
  match p with
  | Fin a => Post R S a
  | TryRecvDone d k =>
      main_wp R S (k None) Tail Post /\
      forall m, d_path m <> PATH_COUNT -> sink_of (d_path m) = d -> d_seq m = u32 (R (d_path m)) ->
        0 <= R (d_path m) < S (d_path m) ->
        main_wp (<[d_path m := R (d_path m) + 1]> R) S (k (Some m)) Tail Post
  | Send q m k =>
      inject_ch (k_path m) = Some q /\ k_seq m = u32 (S (k_path m)) /\ main_wp R S (k false) Tail Post /\
      main_wp R (<[k_path m := S (k_path m) + 1]> S) (k true) Tail Post
  | ClosePort q k => injection q = true /\ main_wp R S k Tail Post
  | Now k => forall t, main_wp R S (k t) Tail Post
  | Relax _ k => main_wp R S k Tail Post
  | SetStop k => Tail R S k
  | Overflow | Unfinished => True
  | _ => False
  end.

(** Programs that leave the stop flag alone. *)
#[local] Notation drive_wp R S p Post := (main_wp R S p (fun _ _ _ => False) Post).

Lemma drive_bind {A B} R S (m : prog A) (f : A -> prog B) Tail Post :
  drive_wp R S m (fun R S a => main_wp R S (f a) Tail Post) -> main_wp R S (m ≫= f) Tail Post.
Proof. revert R S. induction m; intros R S; simpl; naive_solver. Qed.

Lemma drive_mono {A} R S (p : prog A) (Post Post' : (path_id_t -> Z) -> (path_id_t -> Z) -> A -> Prop) :
  (forall R S a, Post R S a -> Post' R S a) -> drive_wp R S p Post -> drive_wp R S p Post'.
Proof. intros HP. revert R S. induction p; intros R S; simpl; naive_solver. Qed.

Lemma window_pop R S P x l : 0 <= R P <= S P -> window R S P = x :: l ->
  R P < S P /\ x = u32 (R P) /\ window (<[P := R P + 1]> R) S P = l.
Proof.
  unfold window. intros Hr E. rewrite fn_lookup_insert. assert (0 < S P - R P) as Hpos.
  { destruct (decide (S P - R P = 0)) as [E0|]; [|lia]. rewrite E0 in E. by rewrite seqZ_nil in E. }
  rewrite seqZ_cons in E by lia. simpl in E. simplify_eq. split; [lia|]. split; [done|].
  f_equal. f_equal; lia.
Qed.

Lemma window_push R S P : 0 <= R P <= S P -> window R (<[P := S P + 1]> S) P = window R S P ++ [u32 (S P)].
Proof.
  intros Hr. unfold window. rewrite fn_lookup_insert. replace (S P + 1 - R P) with ((S P - R P) + 1) by lia.
  rewrite seqZ_app by lia. rewrite fmap_app. f_equal. simpl. by replace (R P + (S P - R P)) with (S P) by lia.
Qed.

Lemma window_ext R S R' S' P : R' P = R P -> S' P = S P -> window R' S' P = window R S P.
Proof. unfold window. by intros -> ->. Qed.

(** The driver collects a completion: it is the next of its path. *)
Lemma take_ok R S H s d m buf :
  plane_ok R S H s -> l_buf (y_sink s d) = m :: buf ->
  let P := d_path m in
  P <> PATH_COUNT /\ sink_of P = d /\ d_seq m = u32 (R P) /\ R P < S P /\
  plane_ok (<[P := R P + 1]> R) S H (set_sink d (mk_link buf (l_closed (y_sink s d))) s).
Proof.
  intros HJ Eb P. destruct HJ. pose proof (po_sinks0 d) as [Hc Hf]. rewrite Eb in Hf. apply Forall_cons in Hf as [[H1 H2] Hf].
  assert (forall P', window R S P' = (if decide (P = P') then [d_seq m] else []) ++
    flight (set_sink d (mk_link buf (l_closed (y_sink s d))) s) H P') as Hw
    by (intros P'; rewrite <- po_flight0; by apply flight_take).
  pose proof (Hw P) as HwP. rewrite decide_True in HwP by done. simpl in HwP.
  destruct (window_pop _ _ _ _ _ (po_range0 P) HwP) as (Hlt & -> & Hw'). do 4 (split; [done|]). split; try done; simpl.
  - apply (insert_all _ _ _ sink_ok); [done|]. by split.
  - apply (insert_all _ _ _ (fun P r => 0 <= r <= S P)); [done|]. pose proof (po_range0 P). lia.
  - intros P'. destruct (decide (P = P')) as [<-|NQ]; [by rewrite Hw'|].
    rewrite (window_ext R S) by (by rewrite ?fn_lookup_insert_ne). rewrite Hw, decide_False by done. done.
Qed.

(** The driver injects the next packet of a path. *)
Lemma inject_ok R S H s q m :
  plane_ok R S H s -> l_closed (y_port s q) = false ->
  inject_ch (k_path m) = Some q -> k_seq m = u32 (S (k_path m)) ->
  plane_ok R (<[k_path m := S (k_path m) + 1]> S) H (set_port q (mk_link (l_buf (y_port s q) ++ [m]) false) s).
Proof.
  intros HJ Hc Hi Hs. destruct HJ. split; try done; simpl.
  - apply (insert_all _ _ _ port_ok); [done|]. apply port_ok_send; [done|done|].
    destruct (inject_route _ _ Hi) as [post ->]. left.
  - apply (insert_all _ _ _ (fun P z => 0 <= R P <= z)); [done|]. pose proof (po_range0 (k_path m)). lia.
  - intros P. rewrite flight_inject, po_flight0 by done. case_decide as E.
    + rewrite E in Hs |- *. rewrite Hs, window_push; done.
    + rewrite app_nil_r. apply window_ext; [done|]. by rewrite fn_lookup_insert_ne.
Qed.

Lemma close_ok R S H s q : plane_ok R S H s -> injection q = true ->
  plane_ok R S H (set_port q (link_close (y_port s q)) s).
Proof.
  intros HJ Hi. destruct HJ. split; try done; simpl.
  - apply (insert_all _ _ _ port_ok); [done|]. destruct (po_ports0 q). split; [congruence|done].
  - intros P. by rewrite flight_close.
Qed.

(** A channel operation that found nothing leaves the channel as it is. *)
Lemma same_sink R S H s d l : plane_ok R S H s -> l_buf l = l_buf (y_sink s d) -> l_closed l = l_closed (y_sink s d) ->
  plane_ok R S H (set_sink d l s).
Proof.
  intros HJ Eb Ec. destruct HJ. split; try done; simpl.
  - apply (insert_all _ _ _ sink_ok); [done|]. unfold sink_ok. rewrite Eb, Ec. apply po_sinks0.
  - intros P. rewrite <- po_flight0. unfold flight. simpl. f_equal.
    destruct (decide (sink_of P = d)) as [->|]; [by rewrite fn_lookup_insert, Eb|by rewrite fn_lookup_insert_ne].
Qed.
Lemma same_port R S H s q : plane_ok R S H s -> plane_ok R S H (set_port q (y_port s q) s).
Proof.
  intros HJ. destruct HJ. split; try done; simpl.
  - by apply (insert_all _ _ _ port_ok).
  - intros P. rewrite <- po_flight0. unfold flight. simpl. apply line_ext. intros p _. apply contents_ext; [|done]. simpl.
    destruct (decide (p = q)) as [->|]; [by rewrite fn_lookup_insert|by rewrite fn_lookup_insert_ne].
Qed.

(** The path of the packet that the next operation of a program injects, and of the
    completion that it collects, if it does. *)
Definition injects {A} (cap : caps Q D) (p : prog A) (s : plane) : option path_id_t :=
  match p with
  | Send q m _ => match link_send (c_port cap q) m (y_port s q) with Some (true, _) => Some (k_path m) | _ => None end
  | _ => None
  end.
Definition collects {A} (p : prog A) (s : plane) : option path_id_t :=
  match p with TryRecvDone d _ => d_path <$> head (l_buf (y_sink s d)) | _ => None end.
Definition one (o : option path_id_t) (P : path_id_t) : Z := if decide (o = Some P) then 1 else 0.

Lemma one_none P : one None P = 0.
Proof. done. Qed.
Lemma one_insert (R : counts) P P' : (<[P := R P + 1]> R) P' = R P' + one (Some P) P'.
Proof.
  unfold one. destruct (decide (P' = P)) as [->|]; [by rewrite fn_lookup_insert, decide_True|].
  rewrite fn_lookup_insert_ne, decide_False by congruence. lia.
Qed.

(** A step of the driver keeps the invariant until it sets the stop flag. *)
Lemma exec_main {A} R S H s (p : prog A) Tail cap now p' s' :
  plane_ok R S H s -> main_wp R S p Tail (fun _ _ _ => False) -> exec cap now p s = Some (p', s') ->
  (exists R' S', plane_ok R' S' H s' /\ main_wp R' S' p' Tail (fun _ _ _ => False) /\
     forall P, R' P = R P + one (collects p s) P /\ S' P = S P + one (injects cap p s) P) \/
  (Tail R S p' /\ y_stop s' = true).
Proof.
  intros HJ Hwp Hex. destruct p; simpl in Hex, Hwp; try done; simplify_eq; [..|by right]; left.
  - destruct Hwp as [Hnone Hsome]. unfold link_recv in Hex. simpl.
    destruct (l_buf (y_sink s d)) as [|m buf] eqn:Eb; simplify_eq; simpl.
    + exists R, S. split; [by apply same_sink|]. split; [done|]. intros P. rewrite !one_none. lia.
    + destruct (take_ok _ _ _ _ _ _ _ HJ Eb) as (H1 & H2 & H3 & H4 & HJ'). eexists _, S. split; [exact HJ'|].
      pose proof (po_range _ _ _ _ HJ (d_path m)). split; [apply Hsome; try done; lia|].
      intros P. rewrite one_insert, one_none. lia.
  - destruct Hwp as (Hi & Hs & Hf & Ht). simpl. unfold link_send in *. destruct (l_closed (y_port s p)) eqn:Ec; simplify_eq/=.
    + exists R, S. split; [by apply same_port|]. split; [done|]. intros P. rewrite !one_none. lia.
    + destruct (_ <? _); simplify_eq/=. eexists R, _. split; [by apply inject_ok|]. split; [done|].
      intros P. rewrite one_insert, one_none. lia.
  - destruct Hwp as [Hi Hk]. exists R, S. split; [by apply close_ok|]. split; [done|]. intros P. simpl. rewrite !one_none. lia.
  - exists R, S. split; [done|]. split; [apply Hwp|]. intros P. simpl. rewrite !one_none. lia.
  - exists R, S. split; [done|]. split; [done|]. intros P. simpl. rewrite !one_none. lia.
Qed.

(** ** The whole program *)

(** What is left once the stop flag is set: closing and joining.  [cp] and [cd]
    say which channels are closed already; all are when the driver waits for the
    threads. *)
Fixpoint tail_wp {A} (cp : Q -> bool) (cd : D -> bool) (p : prog A) (Post : A -> Prop) : Prop :=
  match p with
  | Fin a => (forall q, cp q = true) /\ (forall d, cd d = true) /\ Post a
  | ClosePort q k => tail_wp (<[q := true]> cp) cd k Post
  | CloseSink d k => tail_wp cp (<[d := true]> cd) k Post
  | JoinAll k => (forall q, cp q = true) /\ (forall d, cd d = true) /\ tail_wp cp cd k Post
  | _ => False
  end.

Lemma tail_mono {A} (p : prog A) cp cd cp' cd' Post :
  (forall q, cp q = true -> cp' q = true) -> (forall d, cd d = true -> cd' d = true) ->
  tail_wp cp cd p Post -> tail_wp cp' cd' p Post.
Proof.
  revert cp cd cp' cd'. induction p; intros cp cd cp' cd' Hp Hd; simpl; try done.
  - intros (? & ? & ?). auto.
  - apply IHp; [|done]. by apply insert_true.
  - apply IHp; [done|]. by apply insert_true.
  - intros (? & ? & ?). split; [auto|]. split; [auto|]. by eapply IHp.
Qed.

(** The channels closed in a state, and the rest of the driver in it. *)
Definition closed_ports (s : plane) (q : Q) : bool := l_closed (y_port s q).
Definition closed_sinks (s : plane) (d : D) : bool := l_closed (y_sink s d).
Definition tail_ok (Post : Z * stats_t -> Prop) (s : plane) : Prop :=
  tail_wp (closed_ports s) (closed_sinks s) (y_main s) Post.

(** Having set the stop flag, the driver closes everything and ends well. *)
Definition winds_up (Good : counts -> counts -> Z * stats_t -> Prop) (R S : counts) (k : prog (Z * stats_t)) : Prop :=
  tail_wp (fun _ => false) (fun _ => false) k (Good R S).

(** The pipeline runs in order, or the driver is winding up with counts for
    which [Good] holds of its result. *)
Definition plane_inv (Good : counts -> counts -> Z * stats_t -> Prop) (s : plane) : Prop :=
  (exists R S H, plane_ok R S H s /\
     main_wp R S (y_main s) (winds_up Good) (fun _ _ _ => False)) \/
  (exists R S, (forall P, 0 <= R P <= S P) /\ y_stop s = true /\ tail_ok (Good R S) s).

(** No operation reopens a channel, clears the stop flag or moves another thread. *)
Definition later (s s' : plane) : Prop :=
  (forall q, closed_ports s q = true -> closed_ports s' q = true) /\
  (forall d, closed_sinks s d = true -> closed_sinks s' d = true) /\
  (y_stop s = true -> y_stop s' = true).

Lemma later_port s q l : (l_closed (y_port s q) = true -> l_closed l = true) -> later s (set_port q l s).
Proof.
  intros Hl. split; [|done]. intros q'. unfold closed_ports. simpl.
  destruct (decide (q' = q)) as [->|]; [by rewrite fn_lookup_insert|by rewrite fn_lookup_insert_ne].
Qed.
Lemma later_sink s d l : (l_closed (y_sink s d) = true -> l_closed l = true) -> later s (set_sink d l s).
Proof.
  intros Hl. split; [done|]. split; [|done]. intros d'. unfold closed_sinks. simpl.
  destruct (decide (d' = d)) as [->|]; [by rewrite fn_lookup_insert|by rewrite fn_lookup_insert_ne].
Qed.

Lemma exec_keeps {A} cap now (p : prog A) s p' s' : exec cap now p s = Some (p', s') ->
  y_main s' = y_main s /\ y_node s' = y_node s /\ later s s'.
Proof.
  unfold exec, link_recv, link_send. intros Hex.
  destruct p; repeat case_match; simplify_eq/=; (do 2 (split; [done|]));
    try (apply later_port || apply later_sink); simpl; congruence || done.
Qed.

Lemma node_step_main pl cap now n s s' : node_step pl cap now n s = Some s' -> y_main s' = y_main s /\ later s s'.
Proof.
  unfold node_step. intros Hs. destruct (y_node s n) as [|p|]; simplify_eq; [done|].
  destruct p as [[|]| | | | | | | | | | | | | | |]; simplify_eq; try done.
  all: destruct (exec _ _ _ _) as [[p' s1]|] eqn:Ex; simpl in Hs; simplify_eq; by destruct (exec_keeps _ _ _ _ _ _ Ex) as (? & ? & ?).
Qed.

Lemma tail_later Post s s' : later s s' -> y_main s' = y_main s -> tail_ok Post s -> tail_ok Post s'.
Proof. unfold tail_ok. intros (? & ? & _) ->. by apply tail_mono. Qed.

(** The driver's own steps while it winds up. *)
Lemma tail_step Post cap now s p s1 : tail_ok Post s -> exec cap now (y_main s) s = Some (p, s1) -> tail_ok Post (set_main p s1).
Proof.
  unfold tail_ok. intros Ht Ex. destruct (y_main s) as [| | | | | | |q k|d k| | | |k| | |]; simpl in Ex, Ht; try done; simplify_eq.
  - eapply tail_mono, Ht; [|done]. intros q' . unfold closed_ports. simpl.
    destruct (decide (q' = q)) as [->|]; [by rewrite !fn_lookup_insert|by rewrite !fn_lookup_insert_ne].
  - eapply tail_mono, Ht; [done|]. intros d' . unfold closed_sinks. simpl.
    destruct (decide (d' = d)) as [->|]; [by rewrite !fn_lookup_insert|by rewrite !fn_lookup_insert_ne].
  - case_match; simplify_eq. by destruct Ht as (_ & _ & Ht).
Qed.

Lemma step_inv Good pl cap l s s' : plane_inv Good s -> step pl cap l s = Some s' -> plane_inv Good s'.
Proof.
  intros Hinv. destruct l as [[|n] now]; unfold step; simpl; intros Hs.
  - destruct (exec cap now (y_main s) s) as [[p' s1]|] eqn:Ex; simpl in Hs; simplify_eq.
    destruct Hinv as [(R & S & H & HJ & Hwp)|(R & S & Hr & Hst & Ht)].
    + destruct (exec_main _ _ _ _ _ _ _ _ _ _ HJ Hwp Ex) as [(R' & S' & HJ' & Hwp' & _)|[Ht Hst]].
      * left. exists R', S', H. split; [by apply plane_ok_main|done].
      * right. exists R, S. split; [apply HJ|]. split; [done|]. by eapply tail_mono, Ht.
    + right. exists R, S. destruct (exec_keeps _ _ _ _ _ _ Ex) as (_ & _ & _ & _ & Hst'). do 2 (split; [by auto|]).
      by eapply tail_step.
  - destruct (node_step_main _ _ _ _ _ _ Hs) as [Em Hl]. destruct Hinv as [(R & S & H & HJ & Hwp)|(R & S & Hr & Hst & Ht)].
    + left. destruct (node_step_ok _ _ _ _ _ _ _ _ _ HJ Hs) as [H' HJ']. exists R, S, H'. by rewrite Em.
    + right. exists R, S. split; [done|]. split; [by apply Hl|]. by eapply tail_later.
Qed.

(** The threads have just been started. *)
Lemma started_ok main : plane_ok (fun _ => 0) (fun _ => 0) (fun _ => None) (started main).
Proof.
  split; try done. intros P. unfold flight. simpl. induction (route P) as [|q qs IH]; simpl; [done|]. by rewrite IH.
Qed.

Lemma reach_inv Good pl cap ls main s :
  main_wp (fun _ => 0) (fun _ => 0) main (winds_up Good) (fun _ _ _ => False) ->
  run (step pl cap) ls (started main) = Some s -> plane_inv Good s.
Proof.
  intros Hwp. apply run_invariant; [intros; by eapply step_inv|]. left. eexists _, _, _. split; [apply started_ok|done].
Qed.

(** ** What the threads hold, and what the driver has done, in a run *)

(** The packet a program holds: the one it is about to send. *)
Fixpoint holding {A} (p : prog A) : hand :=
  match p with
  | Send q m _ => Some (AtPort q, m)
  | SendDone d m _ => Some (AtSink d, mk_pkt (d_seq m) (d_path m))
  | IsClosed _ k => holding (k false)
  | Len _ k => holding (k 0)
  | Now k => holding (k 0)
  | Relax _ k => holding k
  | _ => None
  end.
Definition hands (s : plane) (n : node) : hand := match y_node s n with Running p => holding p | _ => None end.

Lemma node_wp_holding n h (p : prog (option Z)) : node_wp n h p round_post -> h = holding p.
Proof.
  revert h. induction p as [a| | |q m k IH|d m k IH|q k IH|q k IH| | |k IH|r k IH| | | | |]; intros h Hwp; simpl in *; try done.
  - by destruct Hwp.
  - by destruct Hwp.
  - by destruct Hwp.
  - by destruct Hwp.
  - apply IH, Hwp. done.
  - apply IH, Hwp.
  - apply IH, Hwp.
  - by apply IH.
Qed.

Lemma plane_ok_hands R S H s n : plane_ok R S H s -> H n = hands s n.
Proof.
  intros HJ. pose proof (po_nodes _ _ _ _ HJ n) as Hn. unfold hands. destruct (y_node s n); simpl in Hn; [done| |done].
  destruct Hn as [Hwp _]. by apply node_wp_holding in Hwp.
Qed.

Lemma flight_hands H H' s P : (forall n, H n = H' n) -> flight s H P = flight s H' P.
Proof. intros E. unfold flight. apply line_ext. intros q _. unfold contents. by rewrite E. Qed.

(** How many packets of each path the driver has injected, and how many completions
    collected, in the run of a schedule. *)
Fixpoint injected (pl : plane_cfg) (cap : caps Q D) (ls : list (who * Z)) (s : plane) (P : path_id_t) : Z :=
  match ls with
  | [] => 0
  | l :: ls =>
      (match l.1 with Main => one (injects cap (y_main s) s) P | Node _ => 0 end) +
      match step pl cap l s with Some s => injected pl cap ls s P | None => 0 end
  end.
Fixpoint collected (pl : plane_cfg) (cap : caps Q D) (ls : list (who * Z)) (s : plane) (P : path_id_t) : Z :=
  match ls with
  | [] => 0
  | l :: ls =>
      (match l.1 with Main => one (collects (y_main s) s) P | Node _ => 0 end) +
      match step pl cap l s with Some s => collected pl cap ls s P | None => 0 end
  end.

Lemma step_stop pl cap l s s' : step pl cap l s = Some s' -> y_stop s = true -> y_stop s' = true.
Proof.
  destruct l as [[|n] now]; unfold step; simpl; intros Hs.
  - destruct (exec cap now (y_main s) s) as [[p' s1]|] eqn:Ex; simpl in Hs; simplify_eq.
    by destruct (exec_keeps _ _ _ _ _ _ Ex) as (_ & _ & _ & _ & ?).
  - by destruct (node_step_main _ _ _ _ _ _ Hs) as (_ & _ & _ & ?).
Qed.
Lemma run_stop pl cap ls : forall s s', run (step pl cap) ls s = Some s' -> y_stop s = true -> y_stop s' = true.
Proof.
  induction ls as [|l ls IH]; intros s s'; simpl; [by intros [= <-]|].
  destruct (step pl cap l s) as [s1|] eqn:E; simpl; [|done]. intros Hr Hs. eapply IH; [done|]. by eapply step_stop.
Qed.

(** The invariant with the counts of the run. *)
Lemma run_counts Tail pl cap ls : forall R S H s s', plane_ok R S H s -> main_wp R S (y_main s) Tail (fun _ _ _ => False) ->
  run (step pl cap) ls s = Some s' -> y_stop s' = false ->
  exists R' S' H', plane_ok R' S' H' s' /\
    forall P, R' P = R P + collected pl cap ls s P /\ S' P = S P + injected pl cap ls s P.
Proof.
  induction ls as [|l ls IH]; intros R S H s s' HJ Hwp; simpl.
  - intros [= <-] _. exists R, S, H. split; [done|]. intros P. lia.
  - destruct (step pl cap l s) as [s1|] eqn:E; simpl; [|done]. intros Hr Hst. destruct l as [[|n] now]; unfold step in E; simpl in E |- *.
    + destruct (exec cap now (y_main s) s) as [[p' s2]|] eqn:Ex; simpl in E; simplify_eq.
      destruct (exec_main _ _ _ _ _ _ _ _ _ _ HJ Hwp Ex) as [(R1 & S1 & HJ1 & Hwp1 & Hc)|[_ Hst1]].
      * destruct (IH R1 S1 H (set_main p' s2) s' ltac:(by apply plane_ok_main) Hwp1 Hr Hst) as (R' & S' & H' & HJ' & Hc').
        exists R', S', H'. split; [done|]. intros P. destruct (Hc P), (Hc' P). lia.
      * pose proof (run_stop _ _ _ _ _ Hr Hst1). congruence.
    + destruct (node_step_ok _ _ _ _ _ _ _ _ _ HJ E) as [H1 HJ1]. destruct (node_step_main _ _ _ _ _ _ E) as [Em _].
      rewrite <- Em in Hwp. destruct (IH R S H1 s1 s' HJ1 Hwp Hr Hst) as (R' & S' & H' & HJ' & Hc').
      exists R', S', H'. split; [done|]. intros P. destruct (Hc' P). lia.
Qed.

(** In a running pipeline the packets in flight on a path are those injected and not
    yet collected. *)
Lemma run_flight Tail pl cap ls main s P :
  main_wp (fun _ => 0) (fun _ => 0) main Tail (fun _ _ _ => False) ->
  run (step pl cap) ls (started main) = Some s -> y_stop s = false ->
  let R := collected pl cap ls (started main) P in
  let S := injected pl cap ls (started main) P in
  0 <= R <= S /\ flight s (hands s) P = u32 <$> seqZ R (S - R).
Proof.
  intros Hwp Hr Hst R S.
  destruct (run_counts Tail pl cap ls _ _ _ _ _ (started_ok main) Hwp Hr Hst) as (R' & S' & H' & HJ & Hc).
  destruct (Hc P) as [ER ES]. simpl in ER, ES. fold R in ER. fold S in ES.
  pose proof (po_range _ _ _ _ HJ P). split; [lia|].
  rewrite <- (flight_hands H') by (intros n; by eapply plane_ok_hands). rewrite (po_flight _ _ _ _ HJ). unfold window.
  by rewrite ER, ES.
Qed.
End invariant.

(** Programs that leave the stop flag alone. *)
Notation drive_wp R S p Post := (main_wp R S p (fun _ _ _ => False) Post).
