(* ===== verification/DplaneReport.v ===== *)
(** * The data-plane examples: what the driver reports

    The statistics of the driver agree with the packets injected and collected;
    so, with the order invariant of [DplaneInv], no run of the example counts a
    lost or a duplicated packet, touches memory outside its arrays, or exits with
    status 0 before every packet has come through. *)

From S2P Require Import Prelude Dplane DplaneMain DplaneSys DplaneInv.
From stdpp Require Import functions list.
#[local] Open Scope Z_scope.

(** ** Growing the latency arrays *)

(** The doubling loop ends within its fuel and does not wrap around. *)
Lemma grow_cap_ok k c need :
  0 < c -> need <= 2 ^ 63 -> need <= c * 2 ^ Z.of_nat k ->
  exists c', grow_cap (S k) c need = Some c' /\ need <= c' /\ c <= c' < Z.max (c + 1) (2 * need).
Proof.
  revert c. induction k as [|k IH]; intros c Hc Hn Hk; cbn [grow_cap]; destruct (Z.ltb_spec c need) as [Hlt|Hge];
    try (exists c; split; [done|lia]).
  - simpl in Hk. lia.
  - rewrite u64_small by (unfold two64; lia). destruct (IH (c * 2)) as (c' & E & Hc'); [lia|done| |].
    + replace (Z.of_nat (S k)) with (1 + Z.of_nat k) in Hk by lia. rewrite Z.pow_add_r in Hk by lia. lia.
    + exists c'. split; [done|lia].
Qed.

(** ** Counting *)

Section counting.
Context `{Alloc} {Q D : Type} `{EqQ : EqDecision Q, EqD : EqDecision D, Topo : Topology Q D, Drv : Driver Q D}.
Context (en : path_id_t -> bool).
#[local] Notation prog := (io Q D).

(** The statistics when [S P] packets of path [P] have been injected and [R P]
    completions collected, all in order. *)
Definition agree (R S : counts) (stats : stats_t) : Prop := forall P,
  if en P then stats P = mk_stat true (u64 (S P)) (u64 (R P)) 0 0 (u32 (R P))
  else stats P = mk_stat false 0 0 0 0 0 /\ S P = 0.

Lemma agree_enabled R S stats P : agree R S stats -> s_enabled (stats P) = en P.
Proof. intros Ha. specialize (Ha P). destruct (en P); [by rewrite Ha|by destruct Ha as [-> _]]. Qed.

Lemma agree_insert R S stats P st R' S' :
  agree R S stats -> en P = true -> st = mk_stat true (u64 (S' P)) (u64 (R' P)) 0 0 (u32 (R' P)) ->
  (forall P', P' <> P -> R' P' = R P' /\ S' P' = S P') -> agree R' S' (<[P := st]> stats).
Proof.
  intros Ha He -> Ho P'. destruct (decide (P' = P)) as [->|NQ]; [by rewrite He, fn_lookup_insert|].
  rewrite fn_lookup_insert_ne by done. destruct (Ho P' NQ) as [-> ->]. apply Ha.
Qed.

(** The next completion of a path is counted as received, not as lost nor as a
    duplicate. *)
Lemma account_ok R S stats lat m :
  agree R S stats -> d_path m <> PATH_COUNT -> d_seq m = u32 (R (d_path m)) -> 0 <= R (d_path m) < S (d_path m) ->
  exists stats' lat', account m stats lat = (Fin (stats', lat') : prog _) /\
    agree (<[d_path m := R (d_path m) + 1]> R) S stats'.
Proof.
  intros Ha Hp Hs Hr. set (P := d_path m) in *. assert (en P = true) as He.
  { destruct (en P) eqn:E; [done|]. specialize (Ha P). rewrite E in Ha. destruct Ha. lia. }
  pose proof (Ha P) as HP. rewrite He in HP. unfold account. rewrite decide_False by done. fold P.
  unfold stat_on_recv. rewrite HP, Hs. simpl. rewrite Z.ltb_irrefl, Z.gtb_ltb, Z.ltb_irrefl.
  eexists _, _. split; [done|]. apply agree_insert with R S; [done|done| |].
  - rewrite fn_lookup_insert. f_equal; unfold u64, u32; by rewrite Zplus_mod_idemp_l.
  - intros P' NQ. by rewrite fn_lookup_insert_ne.
Qed.

(** Programs that collect completions and inject nothing. *)
Lemma poll_sink_wp R S d stats lat : agree R S stats ->
  drive_wp R S (poll_sink d stats lat) (fun R' S' r => agree R' S' r.1.2 /\ S' = S).
Proof.
  intros Ha. unfold poll_sink. split; simpl; [done|]. intros m Hp Hd Hs Hr.
  destruct (account_ok R S stats lat m) as (stats' & lat' & -> & Ha'); try done.
Qed.

Lemma now_wp {A} R S (f : Z -> io Q D A) Tail Post :
  (forall t, main_wp R S (f t) Tail Post) -> main_wp R S (now_ns ≫= f) Tail Post.
Proof. done. Qed.

Lemma deadline_wp {A} R S ns (f : Z -> io Q D A) Post :
  (forall t, drive_wp R S (f t) Post) -> drive_wp R S (deadline_after ns ≫= f) Post.
Proof. intros Hf t. destruct ns as [d|]; simpl; [|done]. case_match; simpl; auto. Qed.

Lemma sleep_usec_wp R S n : drive_wp R S (sleep_usec n) (fun R' S' _ => R' = R /\ S' = S).
Proof. unfold sleep_usec. by destruct (n =? 0). Qed.

Lemma poll_idle_drive R S pl idle : drive_wp R S (poll_idle pl idle) (fun R' S' _ => R' = R /\ S' = S).
Proof.
  unfold poll_idle, sleep_usec. destruct (p_mode pl); simpl; try done;
    (destruct (idle <? 40); simpl; [done|]); (destruct (idle <? 200); simpl; [done|]); simpl; try done.
  by destruct (_ =? 0).
Qed.

End counting.

(** What the driver relies on in its version: polling collects completions and
    closing the sources closes nothing else; at the end all channels are closed. *)
Class DriverOk (Q D : Type) `{Alloc, EqDecision Q, EqDecision D, Topology Q D, Driver Q D} : Prop := {
  poll_done_try_wp en R S stats lat : agree en R S stats ->
    drive_wp R S (poll_done_try stats lat) (fun R' S' r => agree en R' S' r.1.2 /\ S' = S);
  close_inject_wp R S : drive_wp R S close_inject (fun R' S' _ => R' = R /\ S' = S);
  close_all_wp : tail_wp (fun _ => false) (fun _ => false) close_all (fun _ => True)
}.

Section report.
Context `{Alc : Alloc} {Q D : Type} `{EqQ : EqDecision Q, EqD : EqDecision D, Topo : Topology Q D, !TopologyOk Q D}.
Context `{Drv : Driver Q D, !InjectOk Q D, !DriverOk Q D} (en : path_id_t -> bool).
Hypothesis en_count : en PATH_COUNT = false.
#[local] Notation prog := (io Q D).
#[local] Notation agree := (agree en).

Lemma poll_done_wait_wp R S pl stats lat idle : agree R S stats ->
  drive_wp R S (poll_done_wait pl stats lat idle) (fun R' S' r => agree R' S' r.1.1 /\ S' = S).
Proof.
  intros Ha. unfold poll_done_wait. apply drive_bind. eapply drive_mono, poll_done_try_wp, Ha.
  intros R1 S1 [[[] st1] lat1] [Ha1 ->]; cbn [fst snd] in *; [done|]. apply drive_bind.
  eapply drive_mono, poll_idle_drive. by intros R2 S2 z [-> ->].
Qed.

(** Draining stops with 0 only when everything has been collected. *)
Lemma drain_loop_wp fuel R S pl drained deadline w idle : agree R S w.1 ->
  drive_wp R S (drain_loop fuel pl drained deadline w idle)
    (fun R' S' r => agree R' S' r.2.1 /\ S' = S /\ (r.1 = 0 -> drained r.2.1 = true)).
Proof.
  revert R w idle. induction fuel as [|fuel IH]; intros R w idle Ha; [done|]. cbn [drain_loop]. apply now_wp. intros t.
  destruct (t <? deadline); [|by split]. destruct (drained w.1) eqn:E; [done|].
  apply drive_bind. eapply drive_mono, poll_done_wait_wp, Ha. intros R1 S1 [[st1 lat1] idle1] [Ha1 ->]. by apply IH.
Qed.

(** Programs that inject. *)
Lemma latency_on_send_wp R S c P seq : 0 <= seq < two32 ->
  drive_wp R S (latency_on_send c P seq) (fun R' S' _ => R' = R /\ S' = S).
Proof.
  unfold two32. intros Hs. unfold latency_on_send. apply drive_bind. unfold latency_grow_send.
  set (lat := c P). assert (forall lat', seq < t_send_cap lat' ->
    drive_wp R S (now ← now_ns; ts ← store (t_send_ts lat') seq now;
      mret (<[P := mk_lat ts (t_samples lat') (t_cap lat') (t_sum lat')]> c)) (fun R' S' _ => R' = R /\ S' = S)) as Hst.
  { intros lat' Hlt. apply now_wp. intros t. unfold store, t_send_cap in *. by rewrite (proj2 (Z.ltb_lt _ _) Hlt). }
  destruct (Z.leb_spec (seq + 1) (t_send_cap lat)); [apply Hst; lia|].
  assert (0 <= t_send_cap lat) as Hpos by apply zlen_nonneg.
  set (c0 := if t_send_cap lat =? 0 then 4096 else t_send_cap lat).
  assert (0 < c0 /\ t_send_cap lat <= c0) as [Hc0 Hle] by (unfold c0; destruct (Z.eqb_spec (t_send_cap lat) 0); lia).
  destruct (grow_cap_ok 63 c0 (seq + 1)) as (c' & -> & Hn & Hc'); [done|lia|simpl; lia|].
  destruct (alloc _); [|done]. apply (Hst (mk_lat _ _ _ _)). unfold t_send_cap in *. simpl.
  rewrite zlen_app. unfold zlen at 2. rewrite length_replicate. lia.
Qed.

Lemma agree_send R S stats P : agree R S stats -> en P = true ->
  agree R (<[P := S P + 1]> S) (<[P := mk_stat (s_enabled (stats P)) (u64 (s_sent (stats P) + 1)) (s_recv (stats P))
    (s_dup (stats P)) (s_lost (stats P)) (s_next_expected (stats P))]> stats).
Proof.
  intros Ha He. pose proof (Ha P) as HP. rewrite He in HP. apply agree_insert with R S; [done|done| |].
  - rewrite HP, fn_lookup_insert. simpl. f_equal. unfold u64. by rewrite Zplus_mod_idemp_l.
  - intros P' NQ. by rewrite fn_lookup_insert_ne.
Qed.

Lemma inject_packet_wp R S stats P lat : agree R S stats -> en P = true ->
  drive_wp R S (inject_packet stats P lat)
    (fun R' S' r => agree R' S' r.1.2 /\ S' = if r.1.1 then <[P := S P + 1]> S else S).
Proof.
  intros Ha He. pose proof (Ha P) as HP. rewrite He in HP.
  assert (u32 (s_sent (stats P)) = u32 (S P)) as Eseq.
  { rewrite HP. simpl. unfold u32, u64, two32, two64. rewrite <- Znumtheory.Zmod_div_mod; [done|lia..|]. by exists 4294967296. }
  unfold inject_packet. apply drive_bind.
  apply drive_mono with (Post := fun R' S' _ => R' = R /\ S' = S).
  - intros R1 S1 lat1 [-> ->]. destruct (inject_ch P) as [q|] eqn:Ei.
    + split; [done|]. split; [exact Eseq|]. split; simpl; [done|]. split; [by apply agree_send|done].
    + done.
  - destruct lat as [c|]; [|done]. apply drive_bind.
    eapply drive_mono, latency_on_send_wp; [|apply u32_range]. done.
Qed.

(** One turn of an inner loop injects one packet of its path. *)
Lemma inject_poll_wp R S cfg P w : agree R S w.1 -> en P = true ->
  drive_wp R S (inject_poll cfg P w)
    (fun R' S' r => agree R' S' r.2.1 /\ (r.1 = true -> S' = <[P := S P + 1]> S)).
Proof.
  intros Ha He. unfold inject_poll. apply drive_bind. eapply drive_mono, inject_packet_wp; [|done|done].
  intros R1 S1 [[[] st1] lat1] [Ha1 ->]; [|done]. cbn [fst snd] in *. apply drive_bind.
  eapply drive_mono, poll_done_try_wp, Ha1. intros R2 S2 [[g st2] lat2] [Ha2 ->]. cbn [fst snd] in *. apply drive_bind.
  eapply drive_mono, sleep_usec_wp. by intros R3 S3 u [-> ->].
Qed.

(** ** Traffic *)

(** A run that ends with 0 has injected [inc P] packets of each path. *)
Definition fed (S inc : counts) (R' S' : counts) (r : Z * world) : Prop :=
  agree R' S' r.2.1 /\ (r.1 = 0 -> forall P, S' P = S P + inc P).

Definition on_paths (paths : list path_id_t) (n : Z) : counts := fun P =>
  if bool_decide (P ∈ paths) && en P then n else 0.

Lemma on_paths_cons P paths n P' : P ∉ paths -> on_paths (P :: paths) n P' = on_paths [P] n P' + on_paths paths n P'.
Proof.
  intros HP. unfold on_paths. destruct (decide (P' = P)) as [->|NQ].
  - rewrite !(bool_decide_eq_true_2 (P ∈ _ :: _)), bool_decide_eq_false_2 by (done || left). simpl. lia.
  - rewrite (bool_decide_eq_false_2 (P' ∈ [P])) by set_solver.
    rewrite (bool_decide_ext (P' ∈ P :: paths) (P' ∈ paths)) by set_solver. done.
Qed.

Lemma on_paths_skip P n P' : en P = false -> on_paths [P] n P' = 0.
Proof. intros He. unfold on_paths. destruct (decide (P' = P)) as [->|]; [by rewrite He, andb_false_r|]. by rewrite bool_decide_eq_false_2 by set_solver. Qed.

Lemma on_paths_one P n (S : counts) P' : en P = true -> (<[P := S P + n]> S) P' = S P' + on_paths [P] n P'.
Proof.
  intros He. unfold on_paths. destruct (decide (P' = P)) as [->|].
  - rewrite fn_lookup_insert, bool_decide_eq_true_2, He by left. done.
  - rewrite fn_lookup_insert_ne by done. rewrite bool_decide_eq_false_2 by set_solver. simpl. lia.
Qed.

Lemma inject_one_wp R S cfg P w : agree R S w.1 -> en P = true ->
  drive_wp R S (inject_one cfg P w) (fed S (on_paths [P] 1)).
Proof.
  intros Ha He. unfold inject_one. apply drive_bind. eapply drive_mono, inject_poll_wp; [|done|done].
  intros R1 S1 [[] w1] [Ha1 HS]; split; simpl in *; try done. intros _ P'. rewrite HS by done. by apply on_paths_one.
Qed.

Lemma round_paths_wp R S cfg paths w : NoDup paths -> agree R S w.1 ->
  drive_wp R S (round_paths cfg paths w) (fed S (on_paths paths 1)).
Proof.
  intros Hn. revert R S w. induction paths as [|P paths IH]; intros R S w Ha.
  - split; [done|]. intros _ P'. unfold on_paths. simpl. lia.
  - apply NoDup_cons in Hn as [HP Hn]. specialize (IH Hn). cbn [round_paths].
    rewrite (agree_enabled _ _ _ _ _ Ha). destruct (en P) eqn:He.
    + apply drive_bind. eapply drive_mono, inject_poll_wp; [|done|done]. intros R1 S1 [[] w1] [Ha1 HS]; [|done].
      eapply drive_mono, IH, Ha1. intros R2 S2 r [Ha2 HS2]. split; [done|]. intros Hr P'. rewrite HS2, HS by done.
      rewrite on_paths_one, (on_paths_cons P paths) by done. lia.
    + eapply drive_mono, IH, Ha. intros R2 S2 r [Ha2 HS2]. split; [done|]. intros Hr P'. rewrite HS2 by done.
      by rewrite (on_paths_cons P paths), on_paths_skip.
Qed.

Lemma times_wp body inc :
  (forall R S w, agree R S w.1 -> drive_wp R S (body w) (fed S inc)) ->
  forall n R S w, agree R S w.1 -> drive_wp R S (times n body w) (fed S (fun P => Z.of_nat n * inc P)).
Proof.
  intros Hb n. induction n as [|n IH]; intros R S w Ha; [by split; [done|intros; lia]|]. cbn [times]. apply drive_bind.
  eapply drive_mono, Hb, Ha. intros R1 S1 [rc w1] [Ha1 HS]. cbn [fst snd] in *. destruct (Z.eqb_spec rc 0); [|by split].
  eapply drive_mono, IH, Ha1. intros R2 S2 r [Ha2 HS2]. split; [done|]. intros Hr P'. rewrite HS2, HS by done. lia.
Qed.

Lemma until_wp body inc :
  (forall R S w, agree R S w.1 -> drive_wp R S (body w) (fed S inc)) ->
  forall fuel deadline R S w, agree R S w.1 -> drive_wp R S (until fuel deadline body w) (fun R' S' r => agree R' S' r.2.1).
Proof.
  intros Hb fuel deadline. induction fuel as [|fuel IH]; intros R S w Ha; [done|]. cbn [until]. apply now_wp. intros t.
  destruct (t <? deadline); [|done]. apply drive_bind. eapply drive_mono, Hb, Ha. intros R1 S1 [rc w1] [Ha1 _].
  destruct (rc =? 0); [by apply IH|done].
Qed.

(** Either kind of loop around an injecting body. *)
Lemma traffic_wp fuel cfg body inc R S w : 0 <= r_count cfg ->
  (forall R S w, agree R S w.1 -> drive_wp R S (body w) (fed S inc)) -> agree R S w.1 ->
  drive_wp R S (if r_timed cfg then deadline ← deadline_after (r_duration_ns cfg); until fuel deadline body w
                else times (Z.to_nat (r_count cfg)) body w)
    (fun R' S' r => agree R' S' r.2.1 /\ (r_timed cfg = false -> r.1 = 0 -> forall P, S' P = S P + r_count cfg * inc P)).
Proof.
  intros Hc Hb Ha. destruct (r_timed cfg).
  - apply deadline_wp. intros t. eapply drive_mono, (until_wp _ inc); done.
  - eapply drive_mono, times_wp; [|done|done]. intros R' S' r [? HS]. split; [done|]. intros _ Hr P.
    rewrite HS by done. by rewrite Z2Nat.id by done.
Qed.

Lemma all_paths_nodup : NoDup all_paths.
Proof. apply (bool_decide_unpack _). vm_compute. exact I. Qed.

(** What a traffic pattern over [paths] does. *)
Definition delivered (cfg : run_config_t) (paths : list path_id_t) (S R' S' : counts) (r : Z * world) : Prop :=
  agree R' S' r.2.1 /\
  (r_timed cfg = false -> r.1 = 0 -> forall P, S' P = S P + on_paths paths (r_count cfg) P).

Lemma on_paths_scale paths n P : n * on_paths paths 1 P = on_paths paths n P.
Proof. unfold on_paths. case_match; lia. Qed.

Lemma sequential_wp fuel pl cfg paths R S w : 0 <= r_count cfg -> NoDup paths -> agree R S w.1 ->
  drive_wp R S (sequential fuel pl cfg paths w) (delivered cfg paths S).
Proof.
  intros Hc Hn. revert R S w. induction paths as [|P paths IH]; intros R S w Ha.
  - split; [done|]. intros _ _ P'. unfold on_paths. simpl. lia.
  - apply NoDup_cons in Hn as [HP Hn]. specialize (IH Hn). cbn [sequential]. rewrite (agree_enabled _ _ _ _ _ Ha).
    destruct (en P) eqn:He.
    + apply drive_bind. unfold feed_path. eapply drive_mono, (traffic_wp _ _ _ (on_paths [P] 1)); [|done| |done].
      2: { intros; by apply inject_one_wp. }
      intros R1 S1 [rc w1] [Ha1 HS1]. cbn [fst snd] in *. destruct (Z.eqb_spec rc 0); [|by split]. apply drive_bind.
      unfold drain_path. apply deadline_wp. intros t. eapply drive_mono, drain_loop_wp, Ha1. intros R2 S2 [rc2 w2] (Ha2 & -> & _).
      cbn [fst snd] in *. destruct (Z.eqb_spec rc2 0); [|by split]. eapply drive_mono, IH, Ha2.
      intros R3 S3 r [Ha3 HS3]. split; [done|]. intros Ht Hr P'. rewrite HS3, HS1, on_paths_scale by done.
      rewrite (on_paths_cons P paths) by done. lia.
    + eapply drive_mono, IH, Ha. intros R3 S3 r [Ha3 HS3]. split; [done|]. intros Ht Hr P'. rewrite HS3 by done.
      by rewrite (on_paths_cons P paths), on_paths_skip.
Qed.

Lemma parallel_wp fuel cfg R S w : 0 <= r_count cfg -> agree R S w.1 ->
  drive_wp R S (run_traffic_parallel fuel cfg w) (delivered cfg all_paths S).
Proof.
  intros Hc Ha. unfold run_traffic_parallel. eapply drive_mono, (traffic_wp _ _ _ (on_paths all_paths 1)); [|done| |done].
  - intros R1 S1 r [Ha1 HS]. split; [done|]. intros Ht Hr P. by rewrite HS, on_paths_scale.
  - intros. apply round_paths_wp; [apply all_paths_nodup|done].
Qed.

Lemma run_traffic_wp fuel pl cfg R S w : 0 <= r_count cfg -> agree R S w.1 ->
  drive_wp R S (run_traffic fuel pl cfg w)
    (fun R' S' r => delivered cfg all_paths S R' S' r /\ (r.1 = 0 -> all_drained r.2.1 = true)).
Proof.
  intros Hc Ha. unfold run_traffic. apply drive_bind. apply drive_mono with (Post := delivered cfg all_paths S).
  - intros R1 S1 [rc w1] [Ha1 HS]. cbn [fst snd] in *. destruct (Z.eqb_spec rc 0) as [->|]; [|by split].
    apply drive_bind. eapply drive_mono, close_inject_wp. intros ? ? _ [-> ->]. unfold drain_remaining. apply deadline_wp. intros t.
    eapply drive_mono, drain_loop_wp, Ha1. intros R2 S2 r (Ha2 & -> & Hd). split; [|done]. split; [done|].
    intros Ht Hr. by apply HS.
  - case_match; [apply sequential_wp; [done|apply all_paths_nodup|done]|by apply parallel_wp].
Qed.
End report.

(** ** The run of the example *)

(** The statistics at the start: [memset] and the enabled paths. *)
Definition start_stats (cfg : run_config_t) : stats_t := fun P =>
  mk_stat (match P with PATH_COUNT => false | _ => r_path_enabled cfg P end) 0 0 0 0 0.

Definition enabled (cfg : run_config_t) (P : path_id_t) : bool := s_enabled (start_stats cfg P).

(** Consecutive sequence numbers, as 32-bit counters show them. *)
Definition consecutive (l : list Z) : Prop := exists a n, l = u32 <$> seqZ a n.

Lemma consecutive_app l k : consecutive (l ++ k) -> consecutive l /\ consecutive k.
Proof.
  intros (a & n & E). assert (Z.of_nat (length l + length k) = Z.max 0 n) as Hl.
  { rewrite <- length_app, E, length_fmap, length_seqZ. lia. }
  destruct (decide (n <= 0)) as [Hn|Hn].
  - assert (length l = 0%nat) as El%nil_length_inv by lia. assert (length k = 0%nat) as Ek%nil_length_inv by lia. subst.
    by split; exists 0, 0.
  - replace n with (zlen l + zlen k) in E by (unfold zlen; lia). rewrite seqZ_app in E by (unfold zlen; lia).
    rewrite fmap_app in E. apply app_inj_1 in E as [El Ek].
    + split; eexists _, _; eauto.
    + rewrite length_fmap, length_seqZ. unfold zlen. lia.
Qed.

Section runs.
Context `{Alc : Alloc} {Q D : Type} `{EqQ : EqDecision Q, EqD : EqDecision D, Topo : Topology Q D, !TopologyOk Q D}.
Context `{Drv : Driver Q D, !InjectOk Q D, !DriverOk Q D}.
Context (fuel : nat) (pl : plane_cfg) (cap : caps Q D) (cfg : run_config_t) (lat : option latency_ctx_t).
#[local] Notation prog := (io Q D).
#[local] Notation plane := (plane Q D).
#[local] Notation enabled := (enabled cfg).
Context (r_count_range : 0 <= r_count cfg < two64).

(** A state that the program reaches under some schedule. *)
Definition reached (s : plane) : Prop :=
  exists ls, run (step pl cap) ls (started (main_run fuel pl cfg (start_stats cfg, lat))) = Some s.

(** The result of a finished run. *)
Definition result_ok (R S : counts) (r : Z * stats_t) : Prop :=
  agree enabled R S r.2 /\ (r.1 = 0 \/ r.1 = 1) /\
  (r.1 = 0 -> forall P, enabled P = true ->
     s_recv (r.2 P) = s_sent (r.2 P) /\ (r_timed cfg = false -> S P = r_count cfg)).

Lemma start_agree : agree enabled (fun _ => 0) (fun _ => 0) (start_stats cfg).
Proof. intros P. unfold enabled, start_stats. simpl. by destruct (match P with PATH_COUNT => _ | _ => _ end). Qed.

Lemma path_ok_spec stats P : forallb (fun i => path_ok (stats i)) all_paths = true -> P <> PATH_COUNT ->
  s_enabled (stats P) = true -> s_recv (stats P) = s_sent (stats P).
Proof.
  rewrite forallb_forall. intros Hf HP He. assert (path_ok (stats P) = true) as Hok
    by (apply Hf; destruct P; simpl; tauto).
  unfold path_ok in Hok. rewrite He in Hok. simpl in Hok. rewrite !andb_true_iff, !Z.eqb_eq in Hok. tauto.
Qed.

Lemma tail_bind {A B} cp cd (m : prog A) (f : A -> prog B) Post :
  tail_wp cp cd m (fun _ => True) ->
  (forall a cp' cd', (forall q, cp' q = true) -> (forall d, cd' d = true) -> tail_wp cp' cd' (f a) Post) ->
  tail_wp cp cd (m ≫= f) Post.
Proof. revert cp cd. induction m; intros cp cd; simpl; try done; [|auto..]; intros (? & ? & ?) Hf; auto. Qed.

Lemma finish_wp R S rc stats :
  agree enabled R S stats -> (rc = 0 -> r_timed cfg = false -> forall P, enabled P = true -> S P = r_count cfg) ->
  main_wp R S (finish rc stats) (winds_up result_ok) (fun _ _ _ => False).
Proof.
  intros Ha HS. unfold finish. cbn [main_wp]. unfold winds_up. apply tail_bind; [apply close_all_wp|].
  intros _ cp cd Hp Hd. destruct (forallb _ _) eqn:Ef; simpl; (do 4 (split; [done|])); (split; [done|]); simpl;
    (destruct (Z.eqb_spec rc 0) as [->|]; simpl; [|split; [by right|done]]); (split; [by auto|]); [|done]. intros _ P He.
  split; [|by auto]. apply path_ok_spec; [done| |]; [by intros ->|]. by rewrite (agree_enabled enabled R S).
Qed.

Lemma main_run_wp :
  main_wp (fun _ => 0) (fun _ => 0) (main_run fuel pl cfg (start_stats cfg, lat))
    (winds_up result_ok) (fun _ _ _ => False).
Proof.
  unfold main_run. apply now_wp. intros t0. apply drive_bind. eapply drive_mono, (run_traffic_wp enabled), start_agree; [|done|lia].
  intros R S [rc w] [[Ha HS] Hd]. cbn [fst snd] in *. apply now_wp. intros t1. apply finish_wp; [done|].
  intros Hr Ht P He. rewrite HS by done. unfold on_paths. rewrite He, andb_true_r.
  rewrite bool_decide_eq_true_2; [done|]. destruct P; try done; unfold all_paths; rewrite !elem_of_cons; tauto.
Qed.

Lemma reached_inv s : reached s -> plane_inv result_ok s.
Proof. intros [ls Hr]. eapply reach_inv; [apply main_run_wp|done]. Qed.

Lemma consecutive_line C E (qs : list Q) : consecutive (line C E qs) -> consecutive E /\ forall q, q ∈ qs -> consecutive (C q).
Proof.
  induction qs as [|q1 qs IH]; simpl; [intros ?; split; [done|]; by intros q ?%elem_of_nil|].
  intros [H1 H2]%consecutive_app. destruct (IH H1) as [HE Hq]. split; [done|]. intros q [->|?]%elem_of_cons; auto.
Qed.

Lemma seqs_of_other P q l : Forall (fun m => q ∈ route (k_path m)) l -> q ∉ route P -> seqs_of P l = [].
Proof.
  intros Hf Hq. induction Hf as [|m l Hm Hf IH]; [done|]. rewrite seqs_cons, IH, decide_False; [done|congruence].
Qed.

Lemma dones_of_other P d l :
  Forall (fun m => d_path m <> PATH_COUNT /\ sink_of (d_path m) = d) l -> sink_of P <> d -> dones_of P l = [].
Proof.
  intros Hf Hd. induction Hf as [|m l [_ Hm] Hf IH]; [done|]. rewrite dones_cons, IH, decide_False; [done|congruence].
Qed.

(** Until the driver stops the pipeline. *)
Lemma reached_in_order s : reached s -> y_stop s = false ->
  (forall P q, consecutive (seqs_of P (l_buf (y_port s q)))) /\
  (forall P d, consecutive (dones_of P (l_buf (y_sink s d)))) /\
  exists (R S : path_id_t -> Z) (Hn : node -> hand Q D), (forall n, hand_ok n (Hn n)) /\
    forall P, 0 <= R P <= S P /\ flight s Hn P = u32 <$> seqZ (R P) (S P - R P).
Proof.
  intros Hr Hst. destruct (reached_inv _ Hr) as [(R & S & Hn & HJ & _)|(R & S & _ & Hst' & _)]; [|congruence].
  destruct HJ. assert (forall P, consecutive (flight s Hn P)) as Hw by (intros P; rewrite po_flight; by eexists _, _).
  split; [|split].
  - intros P q. destruct (decide (q ∈ route P)) as [Hq|Hq].
    + destruct (consecutive_line _ _ _ (Hw P)) as [_ Hl]. by destruct (consecutive_app _ _ (Hl q Hq)).
    + rewrite (seqs_of_other P q); [by exists 0, 0|apply po_ports|done].
  - intros P d. destruct (decide (sink_of P = d)) as [<-|Hd].
    + by destruct (consecutive_line _ _ _ (Hw P)).
    + rewrite (dones_of_other P d); [by exists 0, 0|apply po_sinks|done].
  - exists R, S, Hn. split; [|done]. intros n. specialize (po_nodes n). destruct (y_node s n); simpl in po_nodes; [by rewrite po_nodes|tauto|done].
Qed.

(** What is in flight, by the counts of the run. *)
Lemma run_in_flight ls s P :
  let s0 := started (main_run fuel pl cfg (start_stats cfg, lat)) in
  run (step pl cap) ls s0 = Some s -> y_stop s = false ->
  0 <= collected pl cap ls s0 P <= injected pl cap ls s0 P /\
  flight s (hands s) P = u32 <$> seqZ (collected pl cap ls s0 P) (injected pl cap ls s0 P - collected pl cap ls s0 P).
Proof. intros s0. apply (run_flight _ pl cap ls _ s P main_run_wp). Qed.

(** No thread reads or writes outside an array. *)
Lemma reached_safe s : reached s ->
  y_main s <> Undefined /\
  (y_stop s = false -> forall n, y_node s n <> Running Undefined /\ y_node s n <> Exited).
Proof.
  intros Hr. destruct (reached_inv _ Hr) as [(R & S & Hn & HJ & Hwp)|(R & S & _ & Hst' & Ht)].
  - split; [intros E; by rewrite E in Hwp|]. intros _ n. destruct HJ. specialize (po_nodes n).
    split; intros E; rewrite E in po_nodes; [by destruct po_nodes|done].
  - split; [|congruence]. intros E. unfold tail_ok in Ht. by rewrite E in Ht.
Qed.

(** What the driver has returned. *)
Lemma reached_report s code stats : reached s -> y_main s = Fin (code, stats) ->
  (forall P, s_lost (stats P) = 0 /\ s_dup (stats P) = 0) /\ (code = 0 \/ code = 1) /\
  (code = 0 -> forall P, enabled P = true ->
     s_recv (stats P) = s_sent (stats P) /\ (r_timed cfg = false -> s_recv (stats P) = r_count cfg)).
Proof.
  intros Hr Em. destruct (reached_inv _ Hr) as [(R & S & H' & _ & Hwp)|(R & S & Hrg & _ & Ht)].
  - by rewrite Em in Hwp.
  - unfold tail_ok in Ht. rewrite Em in Ht. destruct Ht as (_ & _ & Ha & Hcode & Hok). simpl in *. split; [|split; [done|]].
    + intros P. specialize (Ha P). destruct (enabled P); [by rewrite Ha|by destruct Ha as [-> _]].
    + intros E P He. destruct (Hok E P He) as [Hrs HS]. split; [done|]. intros Ht.
      rewrite Hrs. specialize (Ha P). rewrite He in Ha. rewrite Ha. simpl. rewrite HS by done. by apply u64_small.
Qed.
End runs.

(** ** A scheduler

    [turns] gives the threads their turns in the order of the list, passing over
    those that are blocked or gone. *)
Section schedule.
Context {Q D : Type} `{EqQ : EqDecision Q, EqD : EqDecision D, Topo : Topology Q D}.
#[local] Notation plane := (plane Q D).

Fixpoint turns (pl : plane_cfg) (cap : caps Q D) (now : Z) (ls : list who) (s : plane) : plane :=
  match ls with
  | [] => s
  | l :: ls => turns pl cap now ls (default s (step pl cap (l, now) s))
  end.

Lemma turns_run pl cap now ls s : exists ks, run (step pl cap) ks s = Some (turns pl cap now ls s).
Proof.
  revert s. induction ls as [|l ls IH]; intros s; simpl; [by exists []|].
  destruct (step pl cap (l, now) s) as [s'|] eqn:E; simpl; [|apply IH].
  destruct (IH s') as [ks Hk]. exists ((l, now) :: ks). simpl. by rewrite E.
Qed.

Definition round_robin (n : nat) : list who :=
  mjoin (replicate n [Main; Node TUN; Node FORWARD; Node ENC; Node TUNNEL; Node OAM]).

(** The result of a driver that has returned. *)
Definition result (s : plane) : option (Z * stats_t) := match y_main s with Fin r => Some r | _ => None end.

Lemma result_Fin s r : result s = Some r -> y_main s = Fin r.
Proof. unfold result. destruct (y_main s); congruence. Qed.

End schedule.
