(* ===== verification/DplaneStop.v ===== *)
(** * The data-plane examples: shutting down

    Once the driver has set the stop flag every run ends, and it ends with the
    five threads joined and a result: the driver closes all the channels, so no
    node stays blocked in a send, and each node leaves its loop at the next test
    of the flag. *)

From S2P Require Import Prelude Dplane DplaneMain DplaneSys DplaneInv DplaneReport.
From Stdlib Require Import Relation_Operators Wellfounded.
From stdpp Require Import functions list.
#[local] Open Scope Z_scope.

(** ** Every run ends *)

Section stop.
Context {Q D : Type} `{EqQ : EqDecision Q, EqD : EqDecision D, Topo : Topology Q D}.
#[local] Notation prog := (io Q D).
#[local] Notation plane := (plane Q D).
#[local] Notation thread := (thread Q D).

(** A program goes on with one of its continuations, which are smaller. *)
Definition continues {A} (p' p : prog A) : Prop := exists cap now s s', exec cap now p s = Some (p', s').

Lemma continues_acc {A} (p : prog A) : Acc continues p.
Proof.
  induction p; constructor; intros p' (cap & now & s & s' & Hex); cbn [exec] in Hex; try discriminate;
    try (destruct (link_recv _)); try (destruct (link_send _ _ _) as [[]|]); try (destruct (forallb _ _));
    simpl in Hex; simplify_eq; auto.
Qed.

(** A node's thread after the stop flag: the rest of its round, the test of the
    flag, gone. *)
Inductive winds_down : thread -> thread -> Prop :=
| down_op p p' : continues p' p -> winds_down (Running p') (Running p)
| down_round idle : winds_down (Looping idle) (Running (Fin (Some idle)))
| down_leave : winds_down Exited (Running (Fin None))
| down_stop idle : winds_down Exited (Looping idle).

Lemma winds_down_acc t : Acc winds_down t.
Proof.
  assert (Acc winds_down Exited) as He by (constructor; intros t' Ht; inversion Ht).
  assert (forall idle, Acc winds_down (Looping idle)) as Hl
    by (intros idle; constructor; intros t' Ht; inversion Ht; by subst).
  destruct t as [idle|p|]; [done| |done]. induction (continues_acc p) as [p _ IH].
  constructor. intros t' Ht. inversion Ht; subst; eauto.
Qed.

(** The six threads. *)
Definition threads (s : plane) :=
  (y_main s, y_node s TUN, y_node s FORWARD, y_node s ENC, y_node s TUNNEL, y_node s OAM).

Definition one_moves := symprod _ _ (symprod _ _ (symprod _ _ (symprod _ _ (symprod _ _
  (continues (A := Z * stats_t)) winds_down) winds_down) winds_down) winds_down) winds_down.

Lemma node_moves pl cap now n s s' : y_stop s = true -> node_step pl cap now n s = Some s' ->
  winds_down (y_node s' n) (y_node s n) /\ forall n', n' <> n -> y_node s' n' = y_node s n'.
Proof.
  intros Hst Hs. unfold node_step in Hs. rewrite Hst in Hs.
  assert (forall t s1, y_node s1 = y_node s -> winds_down t (y_node s n) -> s' = set_node n t s1 ->
    winds_down (y_node s' n) (y_node s n) /\ forall n', n' <> n -> y_node s' n' = y_node s n') as Hset.
  { intros t s1 E1 Ht ->. simpl. rewrite fn_lookup_insert, E1. split; [done|]. intros n' Hn. by rewrite fn_lookup_insert_ne. }
  destruct (y_node s n) as [idle|p|]; simplify_eq; [by eapply Hset; [|constructor|]|].
  destruct p as [[|]| | | | | | | | | | | | | | |]; simplify_eq; try by (eapply Hset; [|constructor|]).
  all: destruct (exec _ _ _ _) as [[p' s1]|] eqn:Ex; simpl in Hs; simplify_eq;
    destruct (exec_keeps _ _ _ _ _ _ Ex) as (_ & En & _); (eapply Hset; [done| |done]); constructor; by eexists _, _, _, _.
Qed.

Lemma step_moves pl cap l s s' : y_stop s = true -> step pl cap l s = Some s' -> one_moves (threads s') (threads s).
Proof.
  intros Hst Hs. destruct l as [[|n] now]; unfold step in Hs; simpl in Hs.
  - destruct (exec _ _ _ _) as [[p' s1]|] eqn:Ex; simpl in Hs; simplify_eq.
    destruct (exec_keeps _ _ _ _ _ _ Ex) as (_ & En & _). unfold threads. simpl. rewrite En.
    do 5 apply left_sym. by eexists _, _, _, _.
  - destruct (node_moves _ _ _ _ _ _ Hst Hs) as [Hn Ho]. destruct (node_step_main _ _ _ _ _ _ Hs) as [Em _].
    unfold threads. rewrite Em. destruct n;
      rewrite ?(Ho TUN), ?(Ho FORWARD), ?(Ho ENC), ?(Ho TUNNEL), ?(Ho OAM) by done;
      repeat first [apply right_sym; exact Hn | apply left_sym].
Qed.

Lemma threads_acc s : Acc one_moves (threads s).
Proof. repeat apply Acc_symprod; apply continues_acc || apply winds_down_acc. Qed.

(** The successors of a state. *)
Definition next_state (pl : plane_cfg) (cap : caps Q D) (s' s : plane) : Prop := exists l, step pl cap l s = Some s'.

Lemma stop_stays pl cap l s s' : y_stop s = true -> step pl cap l s = Some s' -> y_stop s' = true.
Proof.
  intros Hst Hs. destruct l as [[|n] now]; unfold step in Hs; simpl in Hs.
  - destruct (exec _ _ _ _) as [[p' s1]|] eqn:Ex; simpl in Hs; simplify_eq.
    destruct (exec_keeps _ _ _ _ _ _ Ex) as (_ & _ & _ & _ & Hl). by apply Hl.
  - destruct (node_step_main _ _ _ _ _ _ Hs) as [_ (_ & _ & Hl)]. by apply Hl.
Qed.

Lemma stopped_acc pl cap s : y_stop s = true -> Acc (next_state pl cap) s.
Proof.
  assert (forall ts, Acc one_moves ts -> forall s, threads s = ts -> y_stop s = true -> Acc (next_state pl cap) s) as Hts.
  - induction 1 as [ts _ IH]. intros s0 <- Hst. constructor. intros s' [l Hs].
    eapply IH; [by eapply step_moves|done|by eapply stop_stays].
  - intros Hst. by eapply Hts, Hst; [apply threads_acc|].
Qed.

(** ** It ends with a result *)

(** What a node does: channel operations, the clock, idling. *)
Fixpoint plain {A} (p : prog A) : Prop :=
  match p with
  | Fin _ => True
  | TryRecv _ k => forall x, plain (k x)
  | Send _ _ k | SendDone _ _ k | IsClosed _ k => forall b, plain (k b)
  | Len _ k | Now k => forall z, plain (k z)
  | Relax _ k => plain k
  | _ => False
  end.

Lemma plain_bind {A B} (m : prog A) (f : A -> prog B) : plain m -> (forall a, plain (f a)) -> plain (m ≫= f).
Proof. intros Hm Hf. induction m; simpl in *; try done; try (intros x; by apply H, Hm); auto. Qed.

Lemma poll_idle_plain pl idle : plain (poll_idle pl idle).
Proof.
  unfold poll_idle, sleep_usec. destruct (p_mode pl); simpl; try done;
    (destruct (idle <? 40); simpl; [done|]); (destruct (idle <? 200); simpl; [done|]); simpl; try done.
  by destruct (_ =? 0).
Qed.

Lemma idle_plain pl ports idle : plain (idle ← node_idle pl ports idle; mret (Some idle)).
Proof.
  apply plain_bind; [|done]. unfold node_idle. apply plain_bind.
  - case_decide; [|done]. induction ports as [|q ports IH]; simpl; [done|]. intros z. by destruct (z >? 0).
  - intros []; [done|apply poll_idle_plain].
Qed.

Lemma any_plain ports : plain (try_recv_any ports).
Proof. induction ports as [|q ports IH]; simpl; [done|]. by intros []. Qed.

(** The rounds of the nodes are such programs, whatever they are answered. *)
Hypothesis node_body_plain : forall pl n idle, plain (node_body pl n idle).

(** Every node is in the middle of such a program, in every state of every run. *)
Definition nodes_plain (s : plane) : Prop := forall n, match y_node s n with Running p => plain p | _ => True end.

Lemma exec_plain {A} cap now (p : prog A) s p' s' : plain p -> exec cap now p s = Some (p', s') -> plain p'.
Proof.
  intros Hp Hex. destruct p; simpl in Hp; try done; cbn [exec] in Hex;
    try (destruct (link_recv _)); try (destruct (link_send _ _ _) as [[]|]); simpl in Hex; simplify_eq; auto.
Qed.

Lemma nodes_plain_set n t s s1 : nodes_plain s -> y_node s1 = y_node s -> match t with Running p => plain p | _ => True end ->
  nodes_plain (set_node n t s1).
Proof.
  intros Hs E Ht. unfold nodes_plain. simpl. rewrite E.
  by apply (insert_all _ _ _ (fun _ t => match t with Running p => plain p | _ => True end)).
Qed.

Lemma step_plain pl cap l s s' : nodes_plain s -> step pl cap l s = Some s' -> nodes_plain s'.
Proof.
  intros Hp Hs. destruct l as [[|n] now]; unfold step in Hs; simpl in Hs.
  - destruct (exec _ _ _ _) as [[p' s1]|] eqn:Ex; simpl in Hs; simplify_eq.
    destruct (exec_keeps _ _ _ _ _ _ Ex) as (_ & En & _). unfold nodes_plain. simpl. by rewrite En.
  - pose proof (Hp n) as Hn. unfold node_step in Hs. destruct (y_node s n) as [idle|p|]; simplify_eq.
    + apply nodes_plain_set with s; [done|done|]. destruct (y_stop s); [done|apply node_body_plain].
    + destruct p as [[|]| | | | | | | | | | | | | | |]; simplify_eq; try (by apply nodes_plain_set with s).
      all: destruct (exec _ _ _ _) as [[p' s1]|] eqn:Ex; simpl in Hs; simplify_eq.
      all: destruct (exec_keeps _ _ _ _ _ _ Ex) as (_ & En & _); apply nodes_plain_set with s; [done|done|].
      all: refine (exec_plain _ _ _ _ _ _ _ Ex); exact Hn.
Qed.

(** With everything closed a node is never blocked. *)
Lemma exec_closed {A} cap now (p : prog A) s :
  plain p -> (forall q, closed_ports s q = true) -> (forall d, closed_sinks s d = true) ->
  (exists a, p = Fin a) \/ is_Some (exec cap now p s).
Proof.
  unfold closed_ports, closed_sinks. intros Hp Hq Hd. destruct p; simpl in Hp; try done; [by left; eexists|right..];
    simpl; unfold link_send; rewrite ?Hq, ?Hd; try (destruct (link_recv _)); by eexists.
Qed.

Lemma node_closed pl cap now n s :
  nodes_plain s -> (forall q, closed_ports s q = true) -> (forall d, closed_sinks s d = true) ->
  y_node s n = Exited \/ is_Some (node_step pl cap now n s).
Proof.
  intros Hp Hq Hd. specialize (Hp n). unfold node_step. destruct (y_node s n) as [idle|p|]; [by right; eexists| |by left].
  right. destruct (exec_closed cap now p s Hp Hq Hd) as [[[idle|] ->]|[[p' s1] Ex]]; [by eexists|by eexists|].
  destruct p as [a| | | | | | | | | | | | | | |]; [discriminate Ex|..].
  all: rewrite Ex; by eexists.
Qed.

(** Nothing can move: the driver has returned and the threads are gone. *)
Lemma stuck_done pl cap Post s : nodes_plain s -> tail_ok Post s -> (forall l, step pl cap l s = None) ->
  (exists r, y_main s = Fin r /\ Post r) /\ forall n, y_node s n = Exited.
Proof.
  intros Hp Ht Hstuck. unfold tail_ok in Ht. pose proof (Hstuck (Main, 0)) as Hm. unfold step in Hm. simpl in Hm.
  assert (forall n, (forall q, closed_ports s q = true) -> (forall d, closed_sinks s d = true) -> y_node s n = Exited) as Hn.
  { intros n Hq Hd. destruct (node_closed pl cap 0 n s Hp Hq Hd) as [?|[s' Hs]]; [done|].
    specialize (Hstuck (Node n, 0)). unfold step in Hstuck. simpl in Hstuck. congruence. }
  destruct (y_main s) as [r| | | | | | | | | | | |k| | |]; simpl in Ht; try done.
  - destruct Ht as (Hq & Hd & HP). split; [by exists r|auto].
  - destruct Ht as (Hq & Hd & _). cbn [exec] in Hm. unfold all_nodes in Hm. simpl in Hm. rewrite !Hn in Hm by done. done.
Qed.

Lemma run_plain pl cap ls main s : run (step pl cap) ls (started main) = Some s -> nodes_plain s.
Proof. intros Hr. eapply run_invariant, Hr; [intros; by eapply step_plain|]. done. Qed.

Context `{Alc : Alloc, !TopologyOk Q D, Drv : Driver Q D, !InjectOk Q D, !DriverOk Q D}.

(** Once the stop flag is set no run goes on for ever, and a run that cannot go
    on has the driver returned and the five threads gone. *)
Lemma reached_stops fuel pl cap cfg lat s :
  0 <= r_count cfg < two64 -> reached fuel pl cap cfg lat s -> y_stop s = true ->
  Acc (next_state pl cap) s /\
  ((forall l, step pl cap l s = None) ->
     (exists code stats, y_main s = Fin (code, stats)) /\ forall n, y_node s n = Exited).
Proof.
  intros Hc Hr Hst. split; [by apply stopped_acc|]. intros Hstuck.
  destruct (reached_inv _ _ _ _ _ Hc _ Hr) as [(R & S & Hn & HJ & Hwp)|(R & S & _ & _ & Ht)].
  - destruct HJ. congruence.
  - destruct Hr as [ls Hr].
    destruct (stuck_done pl cap _ s (run_plain _ _ _ _ _ Hr) Ht Hstuck) as [([code stats] & Em & _) Hx]. eauto.
Qed.
End stop.

(** The handlers are sends; the rest is case analysis on the answers. *)
Ltac plain_step :=
  match goal with
  | |- plain (idle ← node_idle _ _ _; _) => apply idle_plain
  | |- plain (match ?x with _ => _ end) => destruct x
  | |- plain (_ ≫= _) => apply plain_bind
  | |- plain (if ?b then _ else _) => destruct b
  | |- forall _, _ => intro
  | |- True => exact I
  end.
