(* ===== verification/DplaneArgs.v ===== *)
(** * The data-plane examples: the command line

    The option parser of [examples/dplane_pipeline.c], which is also that of
    [examples/dplane_pipeline_mpsc.c], on C strings (lists of
    characters without the terminating zero), with the number scanners of the C
    library as the standard defines them on 64-bit [long].  [getopt] is the list
    of its answers, and a [double] is what the program asks of one. *)

From S2P Require Import Prelude Dplane DplaneMain.
From Stdlib Require Import Strings.Ascii Strings.String.
From stdpp Require Import functions list.
#[local] Open Scope Z_scope.

Notation cstring := (list ascii).
Definition lit (s : string) : cstring := list_ascii_of_string s.
Arguments lit s%_string.

(** ** Scanning numbers *)

Definition code (a : ascii) : Z := Z.of_N (N_of_ascii a).
Definition isspace (a : ascii) : bool := (code a =? 32) || ((9 <=? code a) && (code a <=? 13)).
Definition isdigit (a : ascii) : bool := (48 <=? code a) && (code a <=? 57).

Fixpoint skip_space (s : cstring) : cstring :=
  match s with a :: s' => if isspace a then skip_space s' else s | [] => [] end.

(** The value of the digits at the head, after [v], and the rest. *)
Fixpoint scan_digits (v : Z) (s : cstring) : Z * cstring :=
  match s with
  | a :: s' => if isdigit a then scan_digits (v * 10 + (code a - 48)) s' else (v, s)
  | [] => (v, [])
  end.

Definition scan_sign (s : cstring) : bool * cstring :=
  match s with
  | a :: s' => if code a =? 45 then (true, s') else if code a =? 43 then (false, s') else (false, s)
  | [] => (false, [])
  end.

(** Sign, magnitude and the rest of the string; [None] when there is no number. *)
Definition scan (s : cstring) : option (bool * Z * cstring) :=
  let (neg, s1) := scan_sign (skip_space s) in
  match s1 with
  | a :: _ => if isdigit a then let (v, rest) := scan_digits 0 s1 in Some (neg, v, rest) else None
  | [] => None
  end.

Definition LONG_MAX : Z := 2 ^ 63 - 1.
Definition LONG_MIN : Z := - 2 ^ 63.
Definition ULONG_MAX : Z := 2 ^ 64 - 1.

(** The value and [*endptr]. *)
Definition strtol (s : cstring) : Z * cstring :=
  match scan s with
  | Some (neg, v, rest) => (Z.max LONG_MIN (Z.min LONG_MAX (if neg then - v else v)), rest)
  | None => (0, s)
  end.
Definition strtoul (s : cstring) : Z * cstring :=
  match scan s with
  | Some (neg, v, rest) => (if v >? ULONG_MAX then ULONG_MAX else if neg then u64 (- v) else v, rest)
  | None => (0, s)
  end.

(** [end == p] for two positions of one string. *)
Definition same_pos (a b : cstring) : bool := Nat.eqb (length a) (length b).

(** ** Poll modes *)

Definition poll_mode_name (mode : poll_mode_t) : cstring :=
  match mode with
  | POLL_SPIN => lit "spin" | POLL_YIELD => lit "yield" | POLL_BACKOFF => lit "backoff" | POLL_BLOCK => lit "block"
  end.

(** [None] is [(poll_mode_t)-1]. *)
Definition parse_poll_mode (s : cstring) : option poll_mode_t :=
  if decide (s = lit "spin") then Some POLL_SPIN
  else if decide (s = lit "yield") then Some POLL_YIELD
  else if decide (s = lit "backoff") then Some POLL_BACKOFF
  else if decide (s = lit "block") then Some POLL_BLOCK
  else None.

(** [strchr(s, ':')]: the text before the first colon and after it. *)
Fixpoint split_colon (s : cstring) : option (cstring * cstring) :=
  match s with
  | [] => None
  | a :: s' =>
      if code a =? 58 then Some ([], s')
      else match split_colon s' with Some (l, r) => Some (a :: l, r) | None => None end
  end.

(** The new mode and wait, or [None] for the return value -1, which changes neither. *)
Definition parse_mode_opt (s : cstring) (block_wait_usec : Z) : option (poll_mode_t * Z) :=
  match split_colon s with
  | Some (name, arg) =>
      let nlen := zlen name in
      if (nlen =? 0) || (nlen >=? 16) then None
      else
        match parse_poll_mode name with
        | Some POLL_BLOCK =>
            let (w, rest) := strtoul arg in
            if same_pos rest arg || negb (Nat.eqb (length rest) 0) || (w =? 0) then None
            else Some (POLL_BLOCK, u32 w)
        | _ => None
        end
  | None =>
      match parse_poll_mode s with
      | Some m => Some (m, block_wait_usec)
      | None => None
      end
  end.

(** ** Path lists *)

Definition path_name (P : path_id_t) : option cstring :=
  match P with
  | PATH_TUN_FORWARD_ENC_TUNNEL => Some (lit "tun->forward->enc->tunnel")
  | PATH_TUNNEL_ENC_FORWARD_TUN => Some (lit "tunnel->enc->forward->tun")
  | PATH_TUNNEL_FORWARD_TUN => Some (lit "tunnel->forward->tun")
  | PATH_TUN_FORWARD_TUNNEL => Some (lit "tun->forward->tunnel")
  | PATH_TUNNEL_FORWARD_OAM => Some (lit "tunnel->forward->oam")
  | PATH_OAM_FORWARD_TUNNEL => Some (lit "oam->forward->tunnel")
  | PATH_COUNT => None
  end.

(** The path with the number [v], from 1. *)
Definition path_at (v : Z) : path_id_t := nth (Z.to_nat (v - 1)) all_paths PATH_COUNT.

(** The loop of [parse_path_list]: the number of paths, or -1, and the array.
    [None] is a loop that has not ended. *)
Fixpoint path_list (fuel : nat) (p : cstring) (enabled : path_id_t -> bool) (n : Z)
  : option (Z * (path_id_t -> bool)) :=
  match fuel with
  | O => None
  | S fuel =>
      match p with
      | [] => Some (n, enabled)
      | _ =>
          let (v, rest) := strtol p in
          if same_pos rest p || (v <? 1) || (v >? 6) then Some (-1, enabled)
          else
            let n := if enabled (path_at v) then n else n + 1 in
            let enabled := <[path_at v := true]> enabled in
            match rest with
            | [] => path_list fuel [] enabled n
            | a :: rest => if code a =? 44 then path_list fuel rest enabled n else Some (-1, enabled)
            end
      end
  end.
Definition parse_path_list (list : cstring) : option (Z * (path_id_t -> bool)) :=
  path_list (S (length list)) list (fun _ => false) 0.

(** ** The options *)

(** What the program asks of the [double] that [strtod] gives it: whether it is
    at most 0, whether it is above 0, and [(int64_t)(d * 1e9)], which is undefined
    ([None]) when the product is not a number or too large for an [int64_t]. *)
Record duration := mk_dur { dur_le0 : bool; dur_gt0 : bool; dur_ns : option Z }.
Class Strtod := strtod : cstring -> duration.

Definition set_paths (en : path_id_t -> bool) (cfg : run_config_t) : run_config_t :=
  mk_run en (r_count cfg) (r_timed cfg) (r_duration_ns cfg) (r_interval_usec cfg) (r_parallel cfg) (r_poll_mode cfg) (r_block_wait_usec cfg).
Definition set_count (n : Z) (cfg : run_config_t) : run_config_t :=
  mk_run (r_path_enabled cfg) n false (Some 0) (r_interval_usec cfg) (r_parallel cfg) (r_poll_mode cfg) (r_block_wait_usec cfg).
Definition set_duration (d : duration) (cfg : run_config_t) : run_config_t :=
  mk_run (r_path_enabled cfg) (r_count cfg) (dur_gt0 d) (dur_ns d) (r_interval_usec cfg) (r_parallel cfg) (r_poll_mode cfg) (r_block_wait_usec cfg).
Definition set_interval (n : Z) (cfg : run_config_t) : run_config_t :=
  mk_run (r_path_enabled cfg) (r_count cfg) (r_timed cfg) (r_duration_ns cfg) n (r_parallel cfg) (r_poll_mode cfg) (r_block_wait_usec cfg).
Definition set_parallel (cfg : run_config_t) : run_config_t :=
  mk_run (r_path_enabled cfg) (r_count cfg) (r_timed cfg) (r_duration_ns cfg) (r_interval_usec cfg) true (r_poll_mode cfg) (r_block_wait_usec cfg).
Definition set_mode (m : poll_mode_t) (w : Z) (cfg : run_config_t) : run_config_t :=
  mk_run (r_path_enabled cfg) (r_count cfg) (r_timed cfg) (r_duration_ns cfg) (r_interval_usec cfg) (r_parallel cfg) m w.

Section options.
Context `{Strtod}.

(** One answer of [getopt], its character and [optarg], on the configuration and
    the [enabled] members of the statistics; [inl] is the value [parse_args]
    returns, 2 standing for a loop that does not end. *)
Definition parse_opt (opt : ascii * cstring) (st : run_config_t * (path_id_t -> bool))
  : Z + run_config_t * (path_id_t -> bool) :=
  let (c, arg) := opt in
  let (cfg, enabled) := st in
  if code c =? 108 (* l *) then
    match parse_path_list arg with
    | None => inl 2
    | Some (n, en) => if n <? 0 then inl (-1) else if n =? 0 then inl (-1) else inr (set_paths en cfg, en)
    end
  else if code c =? 99 (* c *) then
    let n := (strtoul arg).1 in
    if n =? 0 then inl (-1) else inr (set_count n cfg, enabled)
  else if code c =? 116 (* t *) then
    let d := strtod arg in
    if dur_le0 d then inl (-1) else inr (set_duration d cfg, enabled)
  else if code c =? 105 (* i *) then inr (set_interval (u32 (strtoul arg).1) cfg, enabled)
  else if code c =? 80 (* P *) then inr (set_parallel cfg, enabled)
  else if code c =? 109 (* m *) then
    match parse_mode_opt arg (r_block_wait_usec cfg) with
    | None => inl (-1)
    | Some (m, w) =>
        inr (set_mode m (if decide (m = POLL_BLOCK) then if w =? 0 then BLOCK_WAIT_USEC_DEFAULT else w else w) cfg, enabled)
    end
  else if code c =? 104 (* h *) then inl 1
  else inl (-1).

Fixpoint parse_opts (opts : list (ascii * cstring)) (st : run_config_t * (path_id_t -> bool))
  : Z + run_config_t * (path_id_t -> bool) :=
  match opts with
  | [] => inr st
  | opt :: opts => match parse_opt opt st with inl rc => inl rc | inr st => parse_opts opts st end
  end.

(** [inr] is the return value 0. *)
Definition parse_args (opts : list (ascii * cstring)) : Z + run_config_t * (path_id_t -> bool) :=
  parse_opts opts (mk_run (fun _ => true) 1 false (Some 0) 0 false POLL_SPIN 0, fun _ => true).
End options.

(** ** The scanners *)







(** ** Path lists *)

(** How many paths an array enables. *)
Definition path_total (en : path_id_t -> bool) : Z := zlen (filter (fun P => en P = true) all_paths).


Lemma path_total_set en P : P ∈ all_paths ->
  path_total (<[P := true]> en) = if en P then path_total en else path_total en + 1.
Proof.
  intros HP. unfold path_total, all_paths in *. rewrite !filter_cons, !filter_nil.
  destruct (en P) eqn:E; (destruct P; [..|by apply (bool_decide_eq_true_2 _) in HP]);
    repeat first [rewrite fn_lookup_insert | rewrite fn_lookup_insert_ne by done];
    rewrite E; simpl; unfold zlen; repeat case_decide; simpl; lia.
Qed.



(** The text of a path list: the numbers of the paths, separated by commas. *)
Definition path_digit (P : path_id_t) : ascii :=
  match P with
  | PATH_TUN_FORWARD_ENC_TUNNEL => "1" | PATH_TUNNEL_ENC_FORWARD_TUN => "2" | PATH_TUNNEL_FORWARD_TUN => "3"
  | PATH_TUN_FORWARD_TUNNEL => "4" | PATH_TUNNEL_FORWARD_OAM => "5" | PATH_OAM_FORWARD_TUNNEL => "6" | PATH_COUNT => "0"
  end%char.
Fixpoint path_text (ids : list path_id_t) : cstring :=
  match ids with
  | [] => []
  | [P] => [path_digit P]
  | P :: ids => path_digit P :: ","%char :: path_text ids
  end.

Lemma strtol_digit P s : P <> PATH_COUNT -> match s with [] => True | a :: _ => isdigit a = false end ->
  exists v, strtol (path_digit P :: s) = (v, s) /\ 1 <= v <= 6 /\ path_at v = P.
Proof.
  intros HP Hs. assert (forall d, scan_digits d s = (d, s)) as Hd by (intros d; destruct s; simpl; [done|by rewrite Hs]).
  destruct P; try done; unfold strtol, scan; simpl; rewrite Hd; vm_compute; eexists; split; try reflexivity; (split; [lia || (split; congruence)|reflexivity]).
Qed.

(** One number of the list and what follows it. *)
Lemma path_list_step fuel P s en n : P <> PATH_COUNT -> match s with [] => True | a :: _ => isdigit a = false end ->
  path_list (S fuel) (path_digit P :: s) en n =
    match s with
    | [] => path_list fuel [] (<[P := true]> en) (if en P then n else n + 1)
    | a :: s => if code a =? 44 then path_list fuel s (<[P := true]> en) (if en P then n else n + 1)
                else Some (-1, <[P := true]> en)
    end.
Proof.
  intros HP Hs. destruct (strtol_digit P s HP Hs) as (v & Ev & Hv & <-). cbn [path_list]. rewrite Ev.
  unfold same_pos. rewrite (proj2 (Nat.eqb_neq _ _)) by (simpl; lia).
  destruct (Z.ltb_spec v 1); [lia|]. destruct (Z.gtb_spec v 6); [lia|]. done.
Qed.

Lemma path_list_text ids : forall fuel en n, (length (path_text ids) < fuel)%nat -> Forall (.≠ PATH_COUNT) ids ->
  n = path_total en -> exists en', path_list fuel (path_text ids) en n = Some (path_total en', en') /\
    forall P, en' P = en P || bool_decide (P ∈ ids).
Proof.
  assert (forall en P Q (ids : list path_id_t), (<[P := true]> en) Q || bool_decide (Q ∈ ids) =
    en Q || bool_decide (Q ∈ P :: ids)) as Hin.
  { intros en P Q l. destruct (decide (Q = P)) as [->|NQ].
    - rewrite fn_lookup_insert, (bool_decide_eq_true_2 (P ∈ P :: l)) by left. by rewrite orb_true_r.
    - rewrite fn_lookup_insert_ne by done. f_equal. apply bool_decide_ext. rewrite elem_of_cons. tauto. }
  induction ids as [|P ids IH]; intros fuel en n Hl Hf Hn.
  - destruct fuel; [simpl in Hl; lia|]. exists en. simpl. subst n. split; [done|]. intros Q. by rewrite orb_false_r.
  - apply Forall_cons in Hf as [HP Hf]. destruct fuel as [|fuel]; [simpl in Hl; lia|].
    assert (P ∈ all_paths) as Hp by (destruct P; try done; unfold all_paths; rewrite !elem_of_cons; tauto).
    assert ((if en P then n else n + 1) = path_total (<[P := true]> en)) as Hn1 by (by rewrite path_total_set, Hn).
    destruct (IH fuel (<[P := true]> en) (if en P then n else n + 1)) as (en' & E & Hen); [|done|done|].
    + destruct ids; simpl in *; lia.
    + exists en'. split; [|intros Q; by rewrite Hen, Hin]. rewrite <- E.
      destruct ids as [|Q ids]; cbn [path_text]; by rewrite path_list_step.
Qed.

(** C37: Parsing the text of a list of paths enables exactly the paths listed and
    counts each of them once. *)
Theorem path_list_roundtrip ids : Forall (.≠ PATH_COUNT) ids ->
  exists en, parse_path_list (path_text ids) = Some (path_total en, en) /\ forall P, en P = bool_decide (P ∈ ids).
Proof. intros Hf. destruct (path_list_text ids (S (length (path_text ids))) (fun _ => false) 0) as (en & E & Hen); eauto. Qed.

Lemma path_list_roundtrip_witness :
  path_text [PATH_TUNNEL_FORWARD_TUN; PATH_TUN_FORWARD_ENC_TUNNEL; PATH_TUNNEL_FORWARD_TUN] = lit "3,1,3" /\
  exists en, parse_path_list (lit "3,1,3") = Some (path_total en, en) /\ en PATH_TUN_FORWARD_TUNNEL = false.
Proof.
  split; [reflexivity|].
  destruct (path_list_roundtrip [PATH_TUNNEL_FORWARD_TUN; PATH_TUN_FORWARD_ENC_TUNNEL; PATH_TUNNEL_FORWARD_TUN]) as (en & E & Hen);
    [repeat (constructor; [discriminate|]); constructor|].
  exists en. split; [exact E|]. rewrite Hen. reflexivity.
Defined.

(** ** Modes *)

Definition dec_value (ds : cstring) : Z := foldl (fun v a => v * 10 + (code a - 48)) 0 ds.

Lemma scan_digits_all ds : forall v, Forall (fun a => isdigit a = true) ds ->
  scan_digits v ds = (foldl (fun v a => v * 10 + (code a - 48)) v ds, []).
Proof. induction ds as [|a ds IH]; intros v Hf; simpl; [done|]. apply Forall_cons in Hf as [-> Hf]. by apply IH. Qed.

Lemma digit_not_space a : isdigit a = true -> isspace a = false /\ (code a =? 45) = false /\ (code a =? 43) = false.
Proof.
  unfold isdigit, isspace. intros [H1%Z.leb_le H2%Z.leb_le]%andb_true_iff.
  repeat split; [|apply Z.eqb_neq; lia..]. apply orb_false_iff. split; [apply Z.eqb_neq; lia|].
  apply andb_false_iff. right. apply Z.leb_gt. lia.
Qed.

Lemma scan_all ds : ds <> [] -> Forall (fun a => isdigit a = true) ds -> scan ds = Some (false, dec_value ds, []).
Proof.
  intros Hne Hf. destruct ds as [|a ds]; [done|]. pose proof Hf as [Ha _]%Forall_cons.
  destruct (digit_not_space a Ha) as (H1 & H2 & H3). unfold scan. cbn [skip_space]. rewrite H1. cbn [scan_sign].
  rewrite H2, H3, Ha, scan_digits_all by done. done.
Qed.

Lemma strtoul_all ds : ds <> [] -> Forall (fun a => isdigit a = true) ds -> 
  strtoul ds = (Z.min (dec_value ds) ULONG_MAX, []).
Proof.
  intros Hne Hf. unfold strtoul. rewrite scan_all by done. f_equal. destruct (Z.gtb_spec (dec_value ds) ULONG_MAX); lia.
Qed.

Lemma split_colon_app name arg : Forall (fun a => code a <> 58) name -> split_colon (name ++ ":"%char :: arg) = Some (name, arg).
Proof.
  induction name as [|a name IH]; intros Hc; [done|]. apply Forall_cons in Hc as [Ha Hc]. cbn [split_colon app].
  rewrite (proj2 (Z.eqb_neq _ _)) by done. by rewrite IH.
Qed.

Lemma mode_no_colon m : Forall (fun a => code a <> 58) (poll_mode_name m).
Proof. destruct m; repeat (constructor; [by vm_compute|]); constructor. Qed.

Lemma mode_name_parse m : parse_poll_mode (poll_mode_name m) = Some m.
Proof. by destruct m. Qed.

(** The [-m] option: every mode is read back from its name and leaves the wait as
    it was; [block] takes a positive number after a colon, which becomes the wait
    at the width of its member; the other modes take none. *)
Theorem mode_opt_spec w ds m :
  ds <> [] -> Forall (fun a => isdigit a = true) ds ->
  parse_mode_opt (poll_mode_name m) w = Some (m, w) /\
  parse_mode_opt (poll_mode_name m ++ ":"%char :: ds) w =
    (if decide (m = POLL_BLOCK) then
       if dec_value ds =? 0 then None else Some (POLL_BLOCK, u32 (Z.min (dec_value ds) ULONG_MAX))
     else None).
Proof.
  intros Hne Hf. split; [by destruct m|]. unfold parse_mode_opt.
  rewrite split_colon_app, mode_name_parse, strtoul_all by (done || apply mode_no_colon).
  unfold same_pos. rewrite (proj2 (Nat.eqb_neq _ _)) by (destruct ds; simpl; [done|lia]).
  destruct m; [done..|]. cbn [orb negb Nat.eqb length]. unfold ULONG_MAX.
  change (2 ^ 64 - 1) with 18446744073709551615. rewrite decide_True by done. destruct (Z.eqb_spec (dec_value ds) 0) as [->|Hnz]; [done|].
  by rewrite (proj2 (Z.eqb_neq (_ `min` _) _)) by lia.
Qed.

Lemma mode_opt_spec_witness :
  parse_mode_opt (lit "yield") 7 = Some (POLL_YIELD, 7) /\ parse_mode_opt (lit "block:250") 7 = Some (POLL_BLOCK, 250) /\
  parse_mode_opt (lit "yield:250") 7 = None.
Proof.
  assert (Forall (fun a => isdigit a = true) (lit "250")) as Hd by (repeat (constructor; [reflexivity|]); constructor).
  destruct (mode_opt_spec 7 (lit "250") POLL_YIELD) as [H1 H2]; [discriminate|exact Hd|].
  destruct (mode_opt_spec 7 (lit "250") POLL_BLOCK) as [_ H3]; [discriminate|exact Hd|].
  split; [exact H1|]. split; [exact H3|exact H2].
Defined.

(** ** Accepted command lines *)










(** A duration too large for an [int64_t] of nanoseconds (say 1e300, or inf) is
    accepted, and computing the deadline of the first path then has no defined value. *)
Theorem long_duration_overflows `{Strtod} arg (Ha : strtod arg = mk_dur false true None) :
  exists cfg en, parse_args [("t"%char, arg)] = inr (cfg, en) /\
  forall `{Alloc} (Q D : Type) `{Driver Q D} fuel pl (w : world), (forall P, s_enabled (w.1 P) = en P) ->
  exists k0 k1, main_run fuel pl cfg w = Now k0 /\ (forall t0, k0 t0 = Now (k1 t0)) /\ forall t0 t1, k1 t0 t1 = Overflow.
Proof.
  eexists _, _. split; [unfold parse_args; cbn [parse_opts]; unfold parse_opt; cbn; rewrite Ha; reflexivity|].
  intros Alc Q D Drv fuel pl w Hw. do 2 eexists. split; [reflexivity|]. split.
  - intros t0. unfold run_traffic. simpl. unfold enabled_path_count. simpl. rewrite !Hw. simpl.
    unfold run_traffic_sequential, all_paths. cbn [sequential]. rewrite Hw. reflexivity.
  - intros t0 t1. reflexivity.
Qed.

Definition strtod_ex : Strtod := fun _ => mk_dur false true None.
Lemma long_duration_overflows_witness :
  exists cfg en, @parse_args strtod_ex [("t"%char, lit "1e300")] = inr (cfg, en) /\ r_timed cfg = true /\ r_duration_ns cfg = None.
Proof.
  destruct (@long_duration_overflows strtod_ex (lit "1e300") eq_refl) as (cfg & en & E & _).
  exists cfg, en. split; [exact E|]. vm_compute in E. injection E as <- _. split; reflexivity.
Defined.

(** A negative count is not refused: [strtoull] wraps it around. *)
Example negative_count_accepted `{Strtod} :
  exists cfg en, parse_args [("c"%char, lit "-1")] = inr (cfg, en) /\ r_count cfg = 18446744073709551615.
Proof. eexists _, _. split; vm_compute; reflexivity. Qed.
