(* ===== verification/DplaneSpsc.v ===== *)
(** * [examples/dplane_pipeline.c]: one channel per link

    The version of the example in which every pair of neighbouring nodes has its
    own single-producer single-consumer channel: the nodes, the channels of the
    driver, and the theorems for this program. *)

From S2P Require Import Prelude Dplane DplaneMain DplaneSys DplaneInv DplaneReport DplaneStop.
From stdpp Require Import functions list.
#[local] Open Scope Z_scope.

(** ** Channels *)

(** The channels of [links_t], and those of [test_io_t] that carry packets. *)
Inductive port :=
| tun_to_forward | forward_to_enc | enc_to_tunnel | tunnel_to_enc | enc_to_forward
| forward_to_tun | tunnel_to_forward | forward_to_oam | oam_to_forward | forward_to_tunnel
| inj_tun | inj_tunnel | inj_oam.

(** The channels of [test_io_t] that carry completions. *)
Inductive sink := done_tun | done_tunnel | done_oam.

#[export] Instance port_eq_dec : EqDecision port.
Proof. solve_decision. Defined.
#[export] Instance sink_eq_dec : EqDecision sink.
Proof. solve_decision. Defined.

#[local] Notation prog := (io port sink).

(** [spsc_send] on the two kinds of channel. *)
Definition spsc_send (p : port) (m : pkt_t) : prog bool := Send p m mret.
Definition spsc_send_done (d : sink) (m : done_msg_t) : prog bool := SendDone d m mret.

(** ** The nodes

    One round of the loop of each node, entered with the idle counter: [Some]
    is the counter of the next round, [None] leaves the loop. *)

Section nodes.
Context (pl : plane_cfg).

Definition handle_tun_inj (pkt : pkt_t) : prog bool := spsc_send tun_to_forward pkt.

Definition handle_tun_return (pkt : pkt_t) : prog bool :=
  now ← now_ns; spsc_send_done done_tun (mk_done (k_path pkt) (k_seq pkt) now).

Definition tun_closed : prog bool :=
  c ← is_closed inj_tun; if (c : bool) then is_closed forward_to_tun else mret false.

Definition tun_node (idle : Z) : prog (option Z) :=
  r ← try_recv inj_tun;
  match r with
  | Some pkt => handle_tun_inj pkt;; mret (Some 0)
  | None =>
      r ← try_recv forward_to_tun;
      match r with
      | Some pkt => handle_tun_return pkt;; mret (Some 0)
      | None =>
          c ← tun_closed;
          if (c : bool) then mret None
          else idle ← node_idle pl [inj_tun; forward_to_tun] idle; mret (Some idle)
      end
  end.

Definition forward_route (pkt : pkt_t) : prog bool :=
  match k_path pkt with
  | PATH_TUN_FORWARD_ENC_TUNNEL => spsc_send forward_to_enc pkt
  | PATH_TUN_FORWARD_TUNNEL | PATH_OAM_FORWARD_TUNNEL => spsc_send forward_to_tunnel pkt
  | PATH_TUNNEL_ENC_FORWARD_TUN | PATH_TUNNEL_FORWARD_TUN => spsc_send forward_to_tun pkt
  | PATH_TUNNEL_FORWARD_OAM => spsc_send forward_to_oam pkt
  | PATH_COUNT => mret false   (* "unknown path": the packet is dropped *)
  end.

Definition forward_closed : prog bool :=
  c ← is_closed tun_to_forward;
  if (c : bool) then
    c ← is_closed tunnel_to_forward;
    if (c : bool) then
      c ← is_closed oam_to_forward;
      if (c : bool) then is_closed enc_to_forward else mret false
    else mret false
  else mret false.

Definition forward_try_recv : prog bool :=
  r ← try_recv_any [tun_to_forward; tunnel_to_forward; oam_to_forward; enc_to_forward];
  match r with
  | Some pkt => forward_route pkt;; mret true
  | None => mret false
  end.

Definition forward_node (idle : Z) : prog (option Z) :=
  work ← forward_try_recv;
  if (work : bool) then mret (Some 0)
  else
    c ← forward_closed;
    if (c : bool) then mret None
    else idle ← node_idle pl [tun_to_forward; tunnel_to_forward; oam_to_forward; enc_to_forward] idle; mret (Some idle).

Definition handle_enc_pkt (pkt : pkt_t) : prog bool :=
  if decide (k_path pkt = PATH_TUN_FORWARD_ENC_TUNNEL) then spsc_send enc_to_tunnel pkt
  else if decide (k_path pkt = PATH_TUNNEL_ENC_FORWARD_TUN) then spsc_send enc_to_forward pkt
  else mret false.

Definition enc_closed : prog bool :=
  c ← is_closed forward_to_enc; if (c : bool) then is_closed tunnel_to_enc else mret false.

Definition enc_node (idle : Z) : prog (option Z) :=
  r ← try_recv_any [forward_to_enc; tunnel_to_enc];
  match r with
  | Some pkt => handle_enc_pkt pkt;; mret (Some 0)
  | None =>
      c ← enc_closed;
      if (c : bool) then mret None
      else idle ← node_idle pl [forward_to_enc; tunnel_to_enc] idle; mret (Some idle)
  end.

Definition tunnel_outbound (pkt : pkt_t) : prog bool :=
  if decide (k_path pkt = PATH_TUNNEL_ENC_FORWARD_TUN) then spsc_send tunnel_to_enc pkt
  else spsc_send tunnel_to_forward pkt.

Definition handle_tunnel_sink (pkt : pkt_t) : prog bool :=
  now ← now_ns; spsc_send_done done_tunnel (mk_done (k_path pkt) (k_seq pkt) now).

Definition tunnel_closed : prog bool :=
  c ← is_closed inj_tunnel;
  if (c : bool) then
    c ← is_closed enc_to_tunnel;
    if (c : bool) then is_closed forward_to_tunnel else mret false
  else mret false.

Definition tunnel_node (idle : Z) : prog (option Z) :=
  r ← try_recv inj_tunnel;
  match r with
  | Some pkt => tunnel_outbound pkt;; mret (Some 0)
  | None =>
      r ← try_recv_any [enc_to_tunnel; forward_to_tunnel];
      match r with
      | Some pkt => handle_tunnel_sink pkt;; mret (Some 0)
      | None =>
          c ← tunnel_closed;
          if (c : bool) then mret None
          else idle ← node_idle pl [inj_tunnel; enc_to_tunnel; forward_to_tunnel] idle; mret (Some idle)
      end
  end.

Definition handle_oam_inj (pkt : pkt_t) : prog bool := spsc_send oam_to_forward pkt.

Definition handle_oam_return (pkt : pkt_t) : prog bool :=
  now ← now_ns; spsc_send_done done_oam (mk_done (k_path pkt) (k_seq pkt) now).

Definition oam_closed : prog bool :=
  c ← is_closed inj_oam; if (c : bool) then is_closed forward_to_oam else mret false.

Definition oam_node (idle : Z) : prog (option Z) :=
  r ← try_recv inj_oam;
  match r with
  | Some pkt => handle_oam_inj pkt;; mret (Some 0)
  | None =>
      r ← try_recv forward_to_oam;
      match r with
      | Some pkt => handle_oam_return pkt;; mret (Some 0)
      | None =>
          c ← oam_closed;
          if (c : bool) then mret None
          else idle ← node_idle pl [inj_oam; forward_to_oam] idle; mret (Some idle)
      end
  end.
End nodes.

(** ** The driver's channels *)

Definition spsc_poll_done_try `{Alloc} (stats : stats_t) (lat : option latency_ctx_t)
  : prog (bool * stats_t * option latency_ctx_t) :=
  '(g1, stats, lat) ← poll_sink done_tun stats lat;
  '(g2, stats, lat) ← poll_sink done_tunnel stats lat;
  '(g3, stats, lat) ← poll_sink done_oam stats lat;
  mret (g1 || g2 || g3, stats, lat).

Definition spsc_inject_ch (path : path_id_t) : option port :=
  match path with
  | PATH_TUN_FORWARD_ENC_TUNNEL | PATH_TUN_FORWARD_TUNNEL => Some inj_tun
  | PATH_TUNNEL_ENC_FORWARD_TUN | PATH_TUNNEL_FORWARD_TUN | PATH_TUNNEL_FORWARD_OAM => Some inj_tunnel
  | PATH_OAM_FORWARD_TUNNEL => Some inj_oam
  | PATH_COUNT => None
  end.

Definition spsc_close_inject : prog unit :=
  ClosePort inj_tun (ClosePort inj_tunnel (ClosePort inj_oam (mret tt))).

Definition spsc_close_all : prog unit :=
  foldr ClosePort
    (foldr CloseSink (mret tt) [done_tun; done_tunnel; done_oam])
    [tun_to_forward; forward_to_enc; enc_to_tunnel; tunnel_to_enc; enc_to_forward; forward_to_tun;
     tunnel_to_forward; forward_to_oam; oam_to_forward; forward_to_tunnel; inj_tun; inj_tunnel; inj_oam].

#[export] Instance spsc_driver `{Alloc} : Driver port sink := {|
  poll_done_try := spsc_poll_done_try;
  inject_ch := spsc_inject_ch;
  close_inject := spsc_close_inject;
  close_all := spsc_close_all
|}.

(** ** The routes *)

Definition spsc_body (pl : plane_cfg) (n : node) : Z -> prog (option Z) :=
  match n with
  | TUN => tun_node pl | FORWARD => forward_node pl | ENC => enc_node pl
  | TUNNEL => tunnel_node pl | OAM => oam_node pl
  end.

(** The channels of a path, from its source on, and its sink. *)
Definition spsc_route (P : path_id_t) : list port :=
  match P with
  | PATH_TUN_FORWARD_ENC_TUNNEL => [inj_tun; tun_to_forward; forward_to_enc; enc_to_tunnel]
  | PATH_TUNNEL_ENC_FORWARD_TUN => [inj_tunnel; tunnel_to_enc; enc_to_forward; forward_to_tun]
  | PATH_TUNNEL_FORWARD_TUN => [inj_tunnel; tunnel_to_forward; forward_to_tun]
  | PATH_TUN_FORWARD_TUNNEL => [inj_tun; tun_to_forward; forward_to_tunnel]
  | PATH_TUNNEL_FORWARD_OAM => [inj_tunnel; tunnel_to_forward; forward_to_oam]
  | PATH_OAM_FORWARD_TUNNEL => [inj_oam; oam_to_forward; forward_to_tunnel]
  | PATH_COUNT => []
  end.
Definition spsc_sink_of (P : path_id_t) : sink :=
  match P with
  | PATH_TUN_FORWARD_ENC_TUNNEL | PATH_TUN_FORWARD_TUNNEL | PATH_OAM_FORWARD_TUNNEL => done_tunnel
  | PATH_TUNNEL_ENC_FORWARD_TUN | PATH_TUNNEL_FORWARD_TUN => done_tun
  | PATH_TUNNEL_FORWARD_OAM | PATH_COUNT => done_oam
  end.

(** The node that receives from a channel. *)
Definition spsc_owner (q : port) : node :=
  match q with
  | inj_tun | forward_to_tun => TUN
  | tun_to_forward | tunnel_to_forward | oam_to_forward | enc_to_forward => FORWARD
  | forward_to_enc | tunnel_to_enc => ENC
  | inj_tunnel | enc_to_tunnel | forward_to_tunnel => TUNNEL
  | inj_oam | forward_to_oam => OAM
  end.

(** The channels the driver feeds. *)
Definition spsc_injection (q : port) : bool :=
  match q with inj_tun | inj_tunnel | inj_oam => true | _ => false end.

#[export] Instance spsc_topology : Topology port sink := {|
  node_body := spsc_body;
  route := spsc_route;
  sink_of := spsc_sink_of;
  owner := spsc_owner;
  injection := spsc_injection
|}.

Lemma spsc_body_wp pl n idle : node_wp n None (spsc_body pl n idle) round_post.
Proof. destruct n; simpl; repeat split; simpl; intros; try routed; try done; not_closed. Qed.

#[export] Instance spsc_topology_ok : TopologyOk port sink.
Proof.
  split.
  - apply spsc_body_wp.
  - intros P q q'. destruct P; cbn; rewrite ?elem_of_cons, ?elem_of_nil; naive_solver.
  - intros P. destruct P; apply (bool_decide_unpack _); vm_compute; exact I.
  - done.
  - intros P q Hq. destruct P; cbn in Hq; rewrite ?elem_of_cons, ?elem_of_nil in Hq; naive_solver.
Qed.

#[export] Instance spsc_inject_ok `{Alloc} : InjectOk port sink.
Proof. intros P q. destruct P; cbn; intros ?; simplify_eq; eauto. Qed.

Lemma spsc_poll_wp `{Alloc} en R S stats lat : agree en R S stats ->
  drive_wp R S (spsc_poll_done_try stats lat) (fun R' S' r => agree en R' S' r.1.2 /\ S' = S).
Proof.
  intros Ha. unfold spsc_poll_done_try. apply drive_bind.
  eapply drive_mono, poll_sink_wp, Ha. intros R1 S1 [[g1 st1] lat1] [Ha1 ->]. cbn [fst snd] in *. apply drive_bind.
  eapply drive_mono, poll_sink_wp, Ha1. intros R2 S2 [[g2 st2] lat2] [Ha2 ->]. cbn [fst snd] in *. apply drive_bind.
  eapply drive_mono, poll_sink_wp, Ha2. intros R3 S3 [[g3 st3] lat3] [Ha3 ->]. done.
Qed.

#[export] Instance spsc_driver_ok `{Alloc} : DriverOk port sink.
Proof.
  split; [intros; by apply spsc_poll_wp|done|]. cbn. split; [by intros []|]. split; [by intros []|done].
Qed.

Lemma handlers_plain pkt : plain (forward_route pkt) /\ plain (handle_enc_pkt pkt) /\ plain (tunnel_outbound pkt).
Proof. unfold forward_route, handle_enc_pkt, tunnel_outbound. by destruct pkt as [? []]. Qed.

Lemma spsc_body_plain pl n idle : plain (spsc_body pl n idle).
Proof.
  destruct n; cbn [spsc_body]; unfold tun_node, forward_node, enc_node, tunnel_node, oam_node, forward_try_recv,
    tun_closed, forward_closed, enc_closed, tunnel_closed, oam_closed;
    repeat first [plain_step | apply any_plain | apply handlers_plain | done].
Qed.

(** ** A run *)

(** Two packets on the fourth path through channels of one place. *)
#[local] Instance ex_alloc : Alloc := fun _ => true.
Definition ex_pl : plane_cfg := mk_cfg POLL_SPIN 0.
Definition ex_cfg : run_config_t :=
  mk_run (fun P => bool_decide (P = PATH_TUN_FORWARD_TUNNEL)) 2 false (Some 0) 0 false POLL_SPIN 0.
Definition ex_lat : option latency_ctx_t := latency_ctx_init (start_stats ex_cfg) ex_cfg.
Definition ex_caps : caps port sink := mk_caps (fun _ => 1) (fun _ => 1).
Definition ex_state (n : nat) : plane port sink :=
  turns ex_pl ex_caps 5 (round_robin n) (started (main_run 60 ex_pl ex_cfg (start_stats ex_cfg, ex_lat))).

Lemma ex_reached n : reached 60 ex_pl ex_caps ex_cfg ex_lat (ex_state n).
Proof. apply turns_run. Qed.

(** ** Theorems *)

(** C8: Take the state that any schedule [ls] leads to, the driver not having stopped
    the pipeline.  On each path the packets in the sink, in the channels and in the
    hands of the nodes (those their programs are about to send on), from the sink back
    to the source, are numbered consecutively from the number of completions the driver
    has collected in this run up to the number of packets it has injected: none is
    missing, none is there twice, none has overtaken another.  In particular every
    channel holds consecutive packets of every path that uses it and every sink
    consecutive completions. *)
Theorem pipeline_in_order `{Alloc} fuel pl (cap : caps port sink) cfg lat ls s :
  let s0 := started (main_run fuel pl cfg (start_stats cfg, lat)) in
  0 <= r_count cfg < two64 -> run (step pl cap) ls s0 = Some s -> y_stop s = false ->
  (forall P, 0 <= collected pl cap ls s0 P <= injected pl cap ls s0 P /\
     flight s (hands s) P = u32 <$> seqZ (collected pl cap ls s0 P) (injected pl cap ls s0 P - collected pl cap ls s0 P)) /\
  (forall P q, consecutive (seqs_of P (l_buf (y_port s q)))) /\
  (forall P d, consecutive (dones_of P (l_buf (y_sink s d)))).
Proof.
  intros s0 Hc Hr Hst. split; [intros P; by apply run_in_flight|].
  destruct (reached_in_order fuel pl cap cfg lat Hc s (ex_intro _ ls Hr) Hst) as (H1 & H2 & _). by split.
Qed.

(** Two packets injected, none collected: the first is on its way to the node forward,
    the second waits at the source. *)
Lemma pipeline_in_order_witness : exists ls,
  let s0 := started (main_run 60 ex_pl ex_cfg (start_stats ex_cfg, ex_lat)) in
  run (step ex_pl ex_caps) ls s0 = Some (ex_state 8) /\
  injected ex_pl ex_caps ls s0 PATH_TUN_FORWARD_TUNNEL - collected ex_pl ex_caps ls s0 PATH_TUN_FORWARD_TUNNEL = 2 /\
  flight (ex_state 8) (hands (ex_state 8)) PATH_TUN_FORWARD_TUNNEL = [0; 1].
Proof.
  destruct (turns_run ex_pl ex_caps 5 (round_robin 8) (started (main_run 60 ex_pl ex_cfg (start_stats ex_cfg, ex_lat)))) as [ls Hr].
  exists ls. intros s0. split; [exact Hr|].
  destruct (pipeline_in_order 60 ex_pl ex_caps ex_cfg ex_lat ls (ex_state 8)) as [Hf _];
    [vm_compute; split; congruence|exact Hr|vm_compute; reflexivity|].
  destruct (Hf PATH_TUN_FORWARD_TUNNEL) as [Hrg Ef].
  assert (flight (ex_state 8) (hands (ex_state 8)) PATH_TUN_FORWARD_TUNNEL = [0; 1]) as E by (vm_compute; reflexivity).
  split; [|exact E]. rewrite E in Ef. apply (f_equal length) in Ef. rewrite length_fmap, length_seqZ in Ef. simpl in Ef. fold s0 in Ef. lia.
Defined.

(** No thread of a running pipeline reads or writes outside an array: the
    driver never reaches an undefined access (the latency records grow before they
    are written, completions name one of the six paths), and while it runs the
    nodes are in their loops. *)
Theorem pipeline_memory_safe `{Alloc} fuel pl (cap : caps port sink) cfg lat s :
  0 <= r_count cfg < two64 -> reached fuel pl cap cfg lat s ->
  y_main s <> Undefined /\
  (y_stop s = false -> forall n, y_node s n <> Running Undefined /\ y_node s n <> Exited).
Proof. intros. by apply (reached_safe fuel pl cap cfg lat). Qed.

Lemma pipeline_memory_safe_witness : y_main (ex_state 20) <> Undefined.
Proof. apply (pipeline_memory_safe 60 ex_pl ex_caps ex_cfg ex_lat (ex_state 20)); [vm_compute; split; congruence|apply ex_reached]. Defined.

(** C7: No run of the example loses a packet, delivers one twice or reorders a path:
    whatever the schedule, the capacity of the channels and the answers of the
    allocator, the statistics it ends with have no loss and no duplicates, and it
    exits with status 0 only when every enabled path has received what was sent,
    which in a counted run is the count asked for. *)
Theorem pipeline_report `{Alloc} fuel pl (cap : caps port sink) cfg lat s code stats :
  0 <= r_count cfg < two64 -> reached fuel pl cap cfg lat s -> y_main s = Fin (code, stats) ->
  (forall P, s_lost (stats P) = 0 /\ s_dup (stats P) = 0) /\ (code = 0 \/ code = 1) /\
  (code = 0 -> forall P, enabled cfg P = true ->
     s_recv (stats P) = s_sent (stats P) /\ (r_timed cfg = false -> s_recv (stats P) = r_count cfg)).
Proof. intros. by eapply (reached_report fuel pl cap cfg lat). Qed.

Lemma pipeline_report_witness : exists stats, y_main (ex_state 60) = Fin (0, stats) /\
  s_recv (stats PATH_TUN_FORWARD_TUNNEL) = 2.
Proof.
  assert (fst <$> result (ex_state 60) = Some 0) as E by (vm_compute; reflexivity).
  destruct (result (ex_state 60)) as [[code stats]|] eqn:Er; [|discriminate E]. injection E as ->. exists stats.
  apply result_Fin in Er. split; [exact Er|].
  destruct (pipeline_report 60 ex_pl ex_caps ex_cfg ex_lat (ex_state 60) 0 stats) as (_ & _ & Hok);
    [vm_compute; split; congruence|apply ex_reached|exact Er|].
  destruct (Hok eq_refl PATH_TUN_FORWARD_TUNNEL) as [_ Hc]; [vm_compute; reflexivity|]. exact (Hc eq_refl).
Defined.

(** C9: Once the stop flag is set the program ends under every schedule: no run goes
    on for ever, and a run that cannot go on has the driver returned, with a result
    as good as [pipeline_report] says, and the five threads gone; no thread is left
    blocked in a send, whatever the channels held. *)
Theorem shutdown_terminates `{Alloc} fuel pl (cap : caps port sink) cfg lat s :
  0 <= r_count cfg < two64 -> reached fuel pl cap cfg lat s -> y_stop s = true ->
  Acc (next_state pl cap) s /\
  ((forall l, step pl cap l s = None) ->
     (exists code stats, y_main s = Fin (code, stats)) /\ forall n, y_node s n = Exited).
Proof. intros. apply (reached_stops (Topo := spsc_topology) spsc_body_plain fuel pl cap cfg lat); done. Qed.

Lemma shutdown_terminates_witness : y_stop (ex_state 30) = true /\ Acc (next_state ex_pl ex_caps) (ex_state 30).
Proof.
  split; [vm_compute; reflexivity|].
  apply (shutdown_terminates 60 ex_pl ex_caps ex_cfg ex_lat (ex_state 30));
    [vm_compute; split; congruence|apply ex_reached|vm_compute; reflexivity].
Defined.
