(* ===== verification/DplaneMpsc.v ===== *)
(** * [examples/dplane_pipeline_mpsc.c]: one inbox per node

    The version of the example in which every node thread owns one inbox, a
    multi-producer channel that the other threads send to.  The driver, the
    statistics and the command line have the text of [dplane_pipeline.c]; this
    file has the nodes and what the driver does with the inboxes, and the theorems
    for this program. *)

From S2P Require Import Prelude Dplane DplaneMain DplaneSys DplaneInv DplaneReport DplaneStop DplaneArgs.
From stdpp Require Import functions list.
#[local] Open Scope Z_scope.

(** ** Inboxes *)

Definition CHAN_CAP_HOT : Z := CHAN_CAP * 2.

(** The members of [inboxes_t] that carry packets, and the one that carries
    completions. *)
Inductive inbox := in_tun | in_forward | in_enc | in_tunnel | in_oam.
Inductive done_box := in_done.

#[export] Instance inbox_eq_dec : EqDecision inbox.
Proof. solve_decision. Defined.
#[export] Instance done_box_eq_dec : EqDecision done_box.
Proof. solve_decision. Defined.

#[local] Notation prog := (io inbox done_box).

(** The capacities [inboxes_init] asks for. *)
Definition inbox_caps : caps inbox done_box :=
  mk_caps (fun q => match q with in_forward | in_tunnel => CHAN_CAP_HOT | _ => CHAN_CAP end) (fun _ => CHAN_CAP_HOT).

(** [mpsc_send] on the two kinds of channel. *)
Definition mpsc_send (p : inbox) (m : pkt_t) : prog bool := Send p m mret.
Definition mpsc_send_done (d : done_box) (m : done_msg_t) : prog bool := SendDone d m mret.

(** ** Routing *)

Definition send_done (pkt : pkt_t) : prog bool :=
  now ← now_ns; mpsc_send_done in_done (mk_done (k_path pkt) (k_seq pkt) now).

Definition forward_route (pkt : pkt_t) : prog bool :=
  match k_path pkt with
  | PATH_TUN_FORWARD_ENC_TUNNEL => mpsc_send in_enc pkt
  | PATH_TUN_FORWARD_TUNNEL | PATH_OAM_FORWARD_TUNNEL => mpsc_send in_tunnel pkt
  | PATH_TUNNEL_ENC_FORWARD_TUN | PATH_TUNNEL_FORWARD_TUN => mpsc_send in_tun pkt
  | PATH_TUNNEL_FORWARD_OAM => mpsc_send in_oam pkt
  | PATH_COUNT => mret false   (* "unknown path": the packet is dropped *)
  end.

Definition handle_enc_pkt (pkt : pkt_t) : prog bool :=
  if decide (k_path pkt = PATH_TUN_FORWARD_ENC_TUNNEL) then mpsc_send in_tunnel pkt
  else if decide (k_path pkt = PATH_TUNNEL_ENC_FORWARD_TUN) then mpsc_send in_forward pkt
  else mret false.

Definition tunnel_outbound (pkt : pkt_t) : prog bool :=
  if decide (k_path pkt = PATH_TUNNEL_ENC_FORWARD_TUN) then mpsc_send in_enc pkt else mpsc_send in_forward pkt.

Definition tun_pkt_forward (pkt : pkt_t) : bool :=
  bool_decide (k_path pkt = PATH_TUN_FORWARD_ENC_TUNNEL) || bool_decide (k_path pkt = PATH_TUN_FORWARD_TUNNEL).
Definition tun_pkt_sink (pkt : pkt_t) : bool :=
  bool_decide (k_path pkt = PATH_TUNNEL_ENC_FORWARD_TUN) || bool_decide (k_path pkt = PATH_TUNNEL_FORWARD_TUN).
Definition tunnel_pkt_outbound (pkt : pkt_t) : bool :=
  bool_decide (k_path pkt = PATH_TUNNEL_ENC_FORWARD_TUN) || bool_decide (k_path pkt = PATH_TUNNEL_FORWARD_TUN) ||
  bool_decide (k_path pkt = PATH_TUNNEL_FORWARD_OAM).
Definition tunnel_pkt_sink (pkt : pkt_t) : bool :=
  bool_decide (k_path pkt = PATH_TUN_FORWARD_ENC_TUNNEL) || bool_decide (k_path pkt = PATH_TUN_FORWARD_TUNNEL) ||
  bool_decide (k_path pkt = PATH_OAM_FORWARD_TUNNEL).

(** ** The nodes

    One round of each loop, as in [DplaneSpsc]. *)

Section nodes.
Context (pl : plane_cfg).

Definition node_idle_one (box : inbox) (idle : Z) : prog Z :=
  n ← (if decide (p_mode pl = POLL_BLOCK) then len box else mret 0);
  if n >? 0 then spin_pause;; mret idle else poll_idle pl idle.

Definition inbox_done (box : inbox) : prog bool := is_closed box.

(** The end of a round that found nothing: leave if the inbox is closed, else idle. *)
Definition no_packet (box : inbox) (idle : Z) : prog (option Z) :=
  c ← inbox_done box;
  if (c : bool) then mret None else idle ← node_idle_one box idle; mret (Some idle).

Definition tun_node (idle : Z) : prog (option Z) :=
  r ← try_recv in_tun;
  match r with
  | Some pkt =>
      (if tun_pkt_forward pkt then mpsc_send in_forward pkt
       else if tun_pkt_sink pkt then send_done pkt else mret false);;
      mret (Some 0)
  | None => no_packet in_tun idle
  end.

Definition forward_node (idle : Z) : prog (option Z) :=
  r ← try_recv in_forward;
  match r with
  | Some pkt => forward_route pkt;; mret (Some 0)
  | None => no_packet in_forward idle
  end.

Definition enc_node (idle : Z) : prog (option Z) :=
  r ← try_recv in_enc;
  match r with
  | Some pkt => handle_enc_pkt pkt;; mret (Some 0)
  | None => no_packet in_enc idle
  end.

Definition tunnel_node (idle : Z) : prog (option Z) :=
  r ← try_recv in_tunnel;
  match r with
  | Some pkt =>
      (if tunnel_pkt_outbound pkt then tunnel_outbound pkt
       else if tunnel_pkt_sink pkt then send_done pkt else mret false);;
      mret (Some 0)
  | None => no_packet in_tunnel idle
  end.

Definition oam_node (idle : Z) : prog (option Z) :=
  r ← try_recv in_oam;
  match r with
  | Some pkt =>
      (if decide (k_path pkt = PATH_OAM_FORWARD_TUNNEL) then mpsc_send in_forward pkt
       else if decide (k_path pkt = PATH_TUNNEL_FORWARD_OAM) then send_done pkt else mret false);;
      mret (Some 0)
  | None => no_packet in_oam idle
  end.
End nodes.

(** ** The driver's channels *)

Definition mpsc_poll_done_try `{Alloc} (stats : stats_t) (lat : option latency_ctx_t)
  : prog (bool * stats_t * option latency_ctx_t) := poll_sink in_done stats lat.

Definition inject_inbox (path : path_id_t) : option inbox :=
  match path with
  | PATH_TUN_FORWARD_ENC_TUNNEL | PATH_TUN_FORWARD_TUNNEL => Some in_tun
  | PATH_TUNNEL_ENC_FORWARD_TUN | PATH_TUNNEL_FORWARD_TUN | PATH_TUNNEL_FORWARD_OAM => Some in_tunnel
  | PATH_OAM_FORWARD_TUNNEL => Some in_oam
  | PATH_COUNT => None
  end.

Definition mpsc_close_all : prog unit :=
  foldr ClosePort (CloseSink in_done (mret tt)) [in_tun; in_forward; in_enc; in_tunnel; in_oam].

(** Nothing is closed between injecting and draining: the sources are inboxes that
    the nodes use as well. *)
#[export] Instance mpsc_driver `{Alloc} : Driver inbox done_box := {|
  poll_done_try := mpsc_poll_done_try;
  inject_ch := inject_inbox;
  close_inject := mret tt;
  close_all := mpsc_close_all
|}.

(** ** The routes *)

Definition mpsc_body (pl : plane_cfg) (n : node) : Z -> prog (option Z) :=
  match n with
  | TUN => tun_node pl | FORWARD => forward_node pl | ENC => enc_node pl
  | TUNNEL => tunnel_node pl | OAM => oam_node pl
  end.

Definition mpsc_route (P : path_id_t) : list inbox :=
  match P with
  | PATH_TUN_FORWARD_ENC_TUNNEL => [in_tun; in_forward; in_enc; in_tunnel]
  | PATH_TUNNEL_ENC_FORWARD_TUN => [in_tunnel; in_enc; in_forward; in_tun]
  | PATH_TUNNEL_FORWARD_TUN => [in_tunnel; in_forward; in_tun]
  | PATH_TUN_FORWARD_TUNNEL => [in_tun; in_forward; in_tunnel]
  | PATH_TUNNEL_FORWARD_OAM => [in_tunnel; in_forward; in_oam]
  | PATH_OAM_FORWARD_TUNNEL => [in_oam; in_forward; in_tunnel]
  | PATH_COUNT => []
  end.
Definition mpsc_owner (q : inbox) : node :=
  match q with in_tun => TUN | in_forward => FORWARD | in_enc => ENC | in_tunnel => TUNNEL | in_oam => OAM end.

#[export] Instance mpsc_topology : Topology inbox done_box := {|
  node_body := mpsc_body;
  route := mpsc_route;
  sink_of := fun _ => in_done;
  owner := mpsc_owner;
  injection := fun _ => false
|}.

Lemma no_packet_wp pl box idle n : node_wp n None (no_packet pl box idle) round_post.
Proof.
  intros [] Hb; [by specialize (Hb eq_refl)|]. apply node_wp_bind. unfold node_idle_one. apply node_wp_bind.
  assert (forall z, node_wp n None (if z >? 0 then spin_pause;; mret idle else poll_idle pl idle)
    (fun h a => node_wp n h (mret (Some a)) round_post)) as Hz.
  { intros z. destruct (z >? 0); [done|]. eapply node_wp_mono, poll_idle_wp. by intros h a ->. }
  case_decide; [intros z; apply (Hz z)|apply (Hz 0)].
Qed.

Lemma mpsc_body_wp pl n idle : node_wp n None (mpsc_body pl n idle) round_post.
Proof.
  destruct n; (split; [done|]); (split; [done|]); (split; [apply no_packet_wp|]); intros m Hm; routed; done.
Qed.

#[export] Instance mpsc_topology_ok : TopologyOk inbox done_box.
Proof.
  split.
  - apply mpsc_body_wp.
  - intros P q q'. by destruct q, q'.
  - intros P. destruct P; apply (bool_decide_unpack _); vm_compute; exact I.
  - done.
  - done.
Qed.

#[export] Instance mpsc_inject_ok `{Alloc} : InjectOk inbox done_box.
Proof. intros P q. destruct P; cbn; intros ?; simplify_eq; eauto. Qed.

#[export] Instance mpsc_driver_ok `{Alloc} : DriverOk inbox done_box.
Proof.
  split; [intros; by apply poll_sink_wp|done|]. cbn. split; [by intros []|]. split; [by intros []|done].
Qed.

Lemma no_packet_plain pl box idle : plain (no_packet pl box idle).
Proof.
  apply plain_bind; [done|]. intros []; [done|]. apply plain_bind; [|done]. apply plain_bind; [by case_decide|].
  intros z. destruct (z >? 0); [done|apply poll_idle_plain].
Qed.

Lemma mpsc_body_plain pl n idle : plain (mpsc_body pl n idle).
Proof. destruct n; intros [[? []]|]; first [apply no_packet_plain | cbn; done]. Qed.

(** ** The program

    The functions of the driver on the inboxes, and those whose text is that of
    the other version. *)

Section program.
Context `{Alloc}.

Definition latency_grow_send : path_latency_t -> Z -> prog (bool * path_latency_t) := DplaneMain.latency_grow_send.
Definition latency_push : path_latency_t -> Z -> bool * path_latency_t := DplaneMain.latency_push.
Definition latency_ctx_init : stats_t -> run_config_t -> option latency_ctx_t := DplaneMain.latency_ctx_init.
Definition latency_on_send : latency_ctx_t -> path_id_t -> Z -> prog latency_ctx_t := DplaneMain.latency_on_send.
Definition latency_on_recv : latency_ctx_t -> path_id_t -> Z -> Z -> latency_ctx_t := DplaneMain.latency_on_recv.
Definition stat_on_recv : path_stat_t -> path_id_t -> Z -> Z -> option latency_ctx_t -> path_stat_t * option latency_ctx_t :=
  DplaneMain.stat_on_recv.
Definition poll_done_wait : plane_cfg -> stats_t -> option latency_ctx_t -> Z -> prog (stats_t * option latency_ctx_t * Z) :=
  DplaneMain.poll_done_wait.
Definition inject_packet : stats_t -> path_id_t -> option latency_ctx_t -> prog (bool * stats_t * option latency_ctx_t) :=
  DplaneMain.inject_packet.
Definition drain_remaining : nat -> plane_cfg -> world -> Z -> prog (Z * world) := DplaneMain.drain_remaining.
Definition drain_path : nat -> plane_cfg -> world -> path_id_t -> Z -> prog (Z * world) := DplaneMain.drain_path.
Definition inject_round : run_config_t -> world -> prog (Z * world) := DplaneMain.inject_round.
Definition run_traffic_parallel : nat -> run_config_t -> world -> prog (Z * world) := DplaneMain.run_traffic_parallel.
Definition run_traffic_sequential : nat -> plane_cfg -> run_config_t -> world -> prog (Z * world) :=
  DplaneMain.run_traffic_sequential.
Definition run_traffic : nat -> plane_cfg -> run_config_t -> world -> prog (Z * world) := DplaneMain.run_traffic.
Definition main_run : nat -> plane_cfg -> run_config_t -> world -> prog (Z * stats_t) := DplaneMain.main_run.

(** A state that this program reaches under some schedule. *)
Definition inbox_reached (fuel : nat) (pl : plane_cfg) (cap : caps inbox done_box) (cfg : run_config_t)
    (lat : option latency_ctx_t) (s : plane inbox done_box) : Prop :=
  exists ls, run (step pl cap) ls (started (main_run fuel pl cfg (start_stats cfg, lat))) = Some s.
End program.

Definition parse_path_list : cstring -> option (Z * (path_id_t -> bool)) := DplaneArgs.parse_path_list.
Definition parse_mode_opt : cstring -> Z -> option (poll_mode_t * Z) := DplaneArgs.parse_mode_opt.
Definition parse_args `{Strtod} : list (Ascii.ascii * cstring) -> Z + run_config_t * (path_id_t -> bool) := DplaneArgs.parse_args.

(** ** A run *)

(** One packet on the second path, through every node but oam, with the source's
    capacities. *)
#[local] Instance box_alloc : Alloc := fun _ => true.
Definition box_pl : plane_cfg := mk_cfg POLL_BLOCK 100.
Definition box_cfg : run_config_t :=
  mk_run (fun P => bool_decide (P = PATH_TUNNEL_ENC_FORWARD_TUN)) 1 false (Some 0) 0 false POLL_BLOCK 100.
Definition box_lat : option latency_ctx_t := latency_ctx_init (start_stats box_cfg) box_cfg.
Definition box_state (n : nat) : plane inbox done_box :=
  turns box_pl inbox_caps 5 (round_robin n) (started (main_run 60 box_pl box_cfg (start_stats box_cfg, box_lat))).

Lemma box_reached n : inbox_reached 60 box_pl inbox_caps box_cfg box_lat (box_state n).
Proof. apply turns_run. Qed.

(** ** Theorems *)

(** C10: With one inbox per node, too, packets of a path stay in order under every
    schedule: each inbox holds consecutive packets of every path that passes
    through it, though packets of other paths and senders are mixed in, and what is
    in flight on a path lies between what was collected and what was injected. *)
Theorem inbox_in_order `{Alloc} fuel pl (cap : caps inbox done_box) cfg lat s :
  0 <= r_count cfg < two64 -> inbox_reached fuel pl cap cfg lat s -> y_stop s = false ->
  (forall P q, consecutive (seqs_of P (l_buf (y_port s q)))) /\
  (forall P, consecutive (dones_of P (l_buf (y_sink s in_done)))) /\
  exists (R S : path_id_t -> Z) (Hn : node -> hand inbox done_box), (forall n, hand_ok n (Hn n)) /\
    forall P, 0 <= R P <= S P /\ flight s Hn P = u32 <$> seqZ (R P) (S P - R P).
Proof.
  intros Hc Hr Hst. destruct (reached_in_order fuel pl cap cfg lat Hc s Hr Hst) as (H1 & H2 & H3). auto.
Qed.

Lemma inbox_in_order_witness :
  seqs_of PATH_TUNNEL_ENC_FORWARD_TUN (l_buf (y_port (box_state 4) in_tunnel)) = [0] /\
  forall P q, consecutive (seqs_of P (l_buf (y_port (box_state 4) q))).
Proof.
  split; [vm_compute; reflexivity|].
  apply (inbox_in_order 60 box_pl inbox_caps box_cfg box_lat (box_state 4));
    [vm_compute; split; congruence|apply box_reached|vm_compute; reflexivity].
Defined.

(** C11: The report of the inbox version: no loss, no duplicates, no access outside an
    array, and exit status 0 only when every enabled path has received what was
    sent, the count asked for in a counted run. *)
Theorem inbox_report `{Alloc} fuel pl (cap : caps inbox done_box) cfg lat s :
  0 <= r_count cfg < two64 -> inbox_reached fuel pl cap cfg lat s ->
  y_main s <> Undefined /\
  forall code stats, y_main s = Fin (code, stats) ->
    (forall P, s_lost (stats P) = 0 /\ s_dup (stats P) = 0) /\ (code = 0 \/ code = 1) /\
    (code = 0 -> forall P, enabled cfg P = true ->
       s_recv (stats P) = s_sent (stats P) /\ (r_timed cfg = false -> s_recv (stats P) = r_count cfg)).
Proof.
  intros Hc Hr. split; [by eapply (reached_safe fuel pl cap cfg lat)|].
  intros code stats Em. by eapply (reached_report fuel pl cap cfg lat).
Qed.

Lemma inbox_report_witness : exists stats, y_main (box_state 60) = Fin (0, stats) /\
  s_recv (stats PATH_TUNNEL_ENC_FORWARD_TUN) = 1.
Proof.
  assert (fst <$> result (box_state 60) = Some 0) as E by (vm_compute; reflexivity).
  destruct (result (box_state 60)) as [[code stats]|] eqn:Er; [|discriminate E]. injection E as ->. exists stats.
  apply result_Fin in Er. split; [exact Er|].
  destruct (inbox_report 60 box_pl inbox_caps box_cfg box_lat (box_state 60)) as (_ & Hrep);
    [vm_compute; split; congruence|apply box_reached|].
  destruct (Hrep 0 stats Er) as (_ & _ & Hok).
  destruct (Hok eq_refl PATH_TUNNEL_ENC_FORWARD_TUN) as [_ Hc]; [vm_compute; reflexivity|]. exact (Hc eq_refl).
Defined.

(** The inbox version shuts down: after the stop flag no run goes on for ever,
    and one that cannot go on has the driver returned and the threads gone. *)
Theorem inbox_shutdown `{Alloc} fuel pl (cap : caps inbox done_box) cfg lat s :
  0 <= r_count cfg < two64 -> inbox_reached fuel pl cap cfg lat s -> y_stop s = true ->
  Acc (next_state pl cap) s /\
  ((forall l, step pl cap l s = None) ->
     (exists code stats, y_main s = Fin (code, stats)) /\ forall n, y_node s n = Exited).
Proof. intros. apply (reached_stops (Topo := mpsc_topology) mpsc_body_plain fuel pl cap cfg lat); done. Qed.

Lemma inbox_shutdown_witness : y_stop (box_state 36) = true /\ Acc (next_state box_pl inbox_caps) (box_state 36).
Proof.
  split; [vm_compute; reflexivity|].
  apply (inbox_shutdown 60 box_pl inbox_caps box_cfg box_lat (box_state 36));
    [vm_compute; split; congruence|apply box_reached|vm_compute; reflexivity].
Defined.
