(* ===== verification/DplaneHang.v ===== *)
(** * [examples/dplane_pipeline.c]: how the parallel mode wedges

    With [-P] the driver injects into several paths at once, and the tun and
    forward nodes feed each other: tun serves [inj_tun] before [forward_to_tun],
    so forward can fill [forward_to_tun] and wait for tun, while tun fills
    [tun_to_forward] and waits for forward.  When [inj_tun] is full too the driver
    waits in a send without a deadline, and the program never ends.

    [wedged] describes such a state and [wedged_forever] shows that nothing undoes it;
    the rest of the file leads there through channels of any capacity, by following
    the driver and the nodes in turn ([goes], [at_]) and counting what the channels hold. *)

From S2P Require Import Prelude Dplane DplaneMain DplaneSys DplaneInv DplaneReport DplaneArgs DplaneSpsc.
From Stdlib Require Import Strings.Ascii Strings.String.
From stdpp Require Import functions list.
#[local] Open Scope Z_scope.

Section wedge.
Context `{Alloc} (fuel : nat) (pl : plane_cfg) (cap : caps port sink) (cfg : run_config_t) (lat : option latency_ctx_t).
Context (r_count_range : 0 <= r_count cfg < two64).

#[local] Notation prog := (io port sink).
#[local] Notation plane := (plane port sink).

Definition full (s : plane) (q : port) : Prop := l_closed (y_port s q) = false /\ c_port cap q <= zlen (l_buf (y_port s q)).

(** The driver, tun and forward each wait for room in a full channel that only
    one of them would empty. *)
Definition wedged (s : plane) : Prop :=
  y_stop s = false /\
  (exists m k, y_main s = Send inj_tun m k) /\
  (exists m k, y_node s TUN = Running (Send tun_to_forward m k)) /\
  (exists m k, y_node s FORWARD = Running (Send forward_to_tun m k)) /\
  full s inj_tun /\ full s tun_to_forward /\ full s forward_to_tun.

Lemma full_blocks s q m : full s q -> link_send (c_port cap q) m (y_port s q) = None.
Proof. intros [Hc Hl]. unfold link_send. rewrite Hc. by destruct (Z.ltb_spec (zlen (l_buf (y_port s q))) (c_port cap q)); [lia|]. Qed.

Lemma exec_full {A} now q m (k : bool -> prog A) s : full s q -> exec cap now (Send q m k) s = None.
Proof. intros Hf. simpl. by rewrite full_blocks. Qed.

(** A channel of the two nodes, whatever another node does. *)
Definition theirs (q : port) : bool := bool_decide (spsc_owner q = TUN \/ spsc_owner q = FORWARD).

Lemma exec_elsewhere n h p now s p' s' q : node_wp n h p round_post -> n <> TUN -> n <> FORWARD ->
  theirs q = true -> full s q -> exec cap now p s = Some (p', s') -> full s' q.
Proof.
  intros Hwp N1 N2 Hq Hf Hex. apply bool_decide_eq_true in Hq.
  destruct p as [|q0| |q0 m k|d m k| | | | | | | | | | |]; simpl in Hwp, Hex; try done; simplify_eq; try done.
  - destruct Hwp as (_ & Ho & _). destruct (link_recv _) as [r l]. simplify_eq. unfold full. simpl.
    rewrite fn_lookup_insert_ne; [done|]. intros ->. cbn in *. naive_solver.
  - destruct (decide (q0 = q)) as [->|Nq]; [by rewrite full_blocks in Hex|].
    destruct (link_send _ _ _) as [[b l]|]; simpl in Hex; simplify_eq. unfold full. simpl. by rewrite fn_lookup_insert_ne.
  - destruct (link_send _ _ _) as [[b l]|]; simpl in Hex; by simplify_eq.
Qed.

Lemma exec_stop n h p now s p' s' : node_wp n h p round_post -> exec cap now p s = Some (p', s') -> y_stop s' = y_stop s.
Proof.
  intros Hwp Hex. destruct p; simpl in Hwp; try done; cbn [exec] in Hex;
    try (destruct (link_recv _)); try (destruct (link_send _ _ _) as [[]|]); simpl in Hex; by simplify_eq.
Qed.

(** Nothing undoes the wedge. *)
Lemma wedged_step s l s' : reached fuel pl cap cfg lat s -> wedged s -> step pl cap l s = Some s' -> wedged s'.
Proof.
  intros Hr (Hst & (mm & km & Em) & (mt & kt & Et) & (mf & kf & Ef) & F1 & F2 & F3) Hs.
  destruct (reached_inv _ _ _ _ _ r_count_range _ Hr) as [(R & S & Hn & HJ & _)|(R & S & _ & Hst' & _)]; [|congruence].
  destruct l as [[|n] now]; unfold step in Hs; simpl in Hs; [by rewrite Em, exec_full in Hs|].
  assert (n <> TUN /\ n <> FORWARD) as [N1 N2].
  { split; intros ->; unfold node_step in Hs; [rewrite Et in Hs|rewrite Ef in Hs]; by rewrite exec_full in Hs. }
  assert (forall t s1, y_stop s1 = false -> y_main s1 = y_main s -> y_node s1 = y_node s ->
    (forall q, theirs q = true -> full s q -> full s1 q) -> wedged (set_node n t s1)) as Hset.
  { intros t s1 E1 E2 E3 Hq. split; [done|]. simpl. rewrite E2, E3, !fn_lookup_insert_ne by done.
    split; [by eexists _, _|]. split; [by eexists _, _|]. split; [by eexists _, _|]. split; [|split]; by apply Hq. }
  pose proof (po_nodes _ _ _ _ HJ n) as Hok. unfold node_step in Hs.
  destruct (y_node s n) as [idle|p|] eqn:En; simplify_eq; [by apply Hset|]. destruct Hok as [Hwp _].
  assert (forall p' s1, exec cap now p s = Some (p', s1) -> wedged (set_node n (Running p') s1)) as Hex.
  { intros p' s1 Ex. destruct (exec_keeps _ _ _ _ _ _ Ex) as (E2 & E3 & _). apply Hset; [|done|done|].
    - by rewrite (exec_stop _ _ _ _ _ _ _ Hwp Ex).
    - intros q Hq Hf. by eapply exec_elsewhere. }
  destruct p as [[|]| | | | | | | | | | | | | | |]; simplify_eq; try (by apply Hset).
  all: destruct (exec _ _ _ _) as [[p' s1]|] eqn:Ex; simpl in Hs; simplify_eq; by apply Hex.
Qed.

Lemma reached_step s l s' : reached fuel pl cap cfg lat s -> step pl cap l s = Some s' -> reached fuel pl cap cfg lat s'.
Proof. intros [ls Hr] Hs. exists (ls ++ [l]). rewrite (run_app _ _ _ _ _ Hr). simpl. by rewrite Hs. Qed.

Lemma wedged_forever s ls s' : reached fuel pl cap cfg lat s -> wedged s -> run (step pl cap) ls s = Some s' -> wedged s'.
Proof.
  intros Hr Hw Hrun.
  assert (reached fuel pl cap cfg lat s' /\ wedged s') as [_ ?]; [|done].
  eapply (run_invariant _ (fun s => reached fuel pl cap cfg lat s /\ wedged s)); [|by split|exact Hrun].
  intros l a b [Hra Hwa] Hs. split; [by eapply reached_step|by eapply wedged_step].
Qed.
End wedge.

(** ** The way into the wedge

    Programs advancing alone while all channels are open and the sinks empty, on the
    contents [L] of the channels. *)

Section way.
Context `{Alc : Alloc} (pl : plane_cfg) (cap : caps port sink).
#[local] Notation prog := (io port sink).
#[local] Notation plane := (plane port sink).
#[local] Notation buffers := (port -> list pkt_t).

Definition shape (s : plane) (L : buffers) : Prop :=
  (forall q, y_port s q = mk_link (L q) false) /\ (forall d, y_sink s d = mk_link [] false) /\ y_stop s = false.

(** One operation, and some operations, of a program. *)
Definition moves {A} (p : prog A) (L : buffers) (p' : prog A) (L' : buffers) : Prop :=
  (forall a, p <> Fin a) /\ forall s, shape s L -> exists s', exec cap 0 p s = Some (p', s') /\ shape s' L'.
Inductive goes {A} : prog A -> buffers -> prog A -> buffers -> Prop :=
| goes_refl p L : goes p L p L
| goes_step p L p1 L1 p' L' : moves p L p1 L1 -> goes p1 L1 p' L' -> goes p L p' L'.

Lemma goes_trans {A} (p p1 p' : prog A) L L1 L' : goes p L p1 L1 -> goes p1 L1 p' L' -> goes p L p' L'.
Proof. induction 1 as [|p L p2 L2 p1 L1 Hm _ IH]; [done|]. intros Hg. eapply goes_step; [done|by apply IH]. Qed.

Lemma exec_bind {A B} (m : prog A) (f : A -> prog B) s : (forall a, m <> Fin a) ->
  exec cap 0 (m ≫= f) s = '(m', s') ← exec cap 0 m s; Some (m' ≫= f, s').
Proof.
  intros Hm. destruct m; simpl; try done; [by destruct (Hm a)|by destruct (link_recv _)|by destruct (link_recv _)|
    by destruct (link_send _ _ _) as [[]|]|by destruct (link_send _ _ _) as [[]|]|by destruct (_ && _)].
Qed.

Lemma moves_bind {A B} (m m' : prog A) (f : A -> prog B) L L' : moves m L m' L' -> moves (m ≫= f) L (m' ≫= f) L'.
Proof.
  intros [Hm Hex]. split.
  - intros b. by destruct m; simpl; try done; destruct (Hm a).
  - intros s Hs. destruct (Hex s Hs) as (s' & E & Hs'). exists s'. by rewrite exec_bind, E by done.
Qed.
Lemma goes_bind {A B} (m m' : prog A) (f : A -> prog B) L L' : goes m L m' L' -> goes (m ≫= f) L (m' ≫= f) L'.
Proof. induction 1; [constructor|]. eapply goes_step; [by apply moves_bind|done]. Qed.

(** A channel gets new contents. *)
Lemma shape_port s L q l : shape s L -> shape (set_port q (mk_link l false) s) (<[q := l]> L).
Proof.
  intros (Hp & Hd & Hst). split; [|done]. intros q'. simpl.
  destruct (decide (q' = q)) as [->|]; [by rewrite !fn_lookup_insert|by rewrite !fn_lookup_insert_ne].
Qed.

Lemma moves_send {A} q m (k : bool -> prog A) L : zlen (L q) < c_port cap q -> moves (Send q m k) L (k true) (<[q := L q ++ [m]]> L).
Proof.
  intros Hl. split; [done|]. intros s Hs. simpl. rewrite (proj1 Hs). unfold link_send. simpl.
  rewrite (proj2 (Z.ltb_lt _ _) Hl). eexists. split; [done|by apply shape_port].
Qed.
Lemma moves_take {A} q m buf (k : option pkt_t -> prog A) L : L q = m :: buf -> moves (TryRecv q k) L (k (Some m)) (<[q := buf]> L).
Proof.
  intros El. split; [done|]. intros s Hs. simpl. rewrite (proj1 Hs). unfold link_recv. simpl. rewrite El.
  eexists. split; [done|by apply shape_port].
Qed.
Lemma moves_empty {A} q (k : option pkt_t -> prog A) L : L q = [] -> moves (TryRecv q k) L (k None) (<[q := []]> L).
Proof.
  intros El. split; [done|]. intros s Hs. simpl. rewrite (proj1 Hs). unfold link_recv. simpl. rewrite El.
  eexists. split; [done|by apply shape_port].
Qed.
Lemma moves_no_done {A} d (k : option done_msg_t -> prog A) L : moves (TryRecvDone d k) L (k None) L.
Proof.
  split; [done|]. intros s (Hp & Hd & Hst). simpl. rewrite Hd. eexists. split; [done|]. split; [done|]. split; [|done].
  intros d'. simpl. destruct (decide (d' = d)) as [->|]; [by rewrite fn_lookup_insert|by rewrite fn_lookup_insert_ne].
Qed.
Lemma moves_now {A} (k : Z -> prog A) L : moves (Now k) L (k 0) L.
Proof. split; [done|]. intros s Hs. by exists s. Qed.
Lemma moves_relax {A} r (k : prog A) L : moves (Relax r k) L k L.
Proof. split; [done|]. intros s Hs. by exists s. Qed.

(** *** The machine follows *)

Definition steps (s s' : plane) : Prop := exists ls, run (step pl cap) ls s = Some s'.
Lemma steps_refl s : steps s s.
Proof. by exists []. Qed.
Lemma steps_trans s s1 s2 : steps s s1 -> steps s1 s2 -> steps s s2.
Proof. intros [l1 H1] [l2 H2]. exists (l1 ++ l2). by rewrite (run_app _ _ _ _ _ H1). Qed.
Lemma steps_one l s s' : step pl cap l s = Some s' -> steps s s'.
Proof. intros Hs. exists [l]. simpl. by rewrite Hs. Qed.

(** The driver, or the node [n], has taken some steps and nobody else. *)
Definition main_moved (s s' : plane) : Prop := steps s s' /\ y_node s' = y_node s.
Definition node_moved (n : node) (s s' : plane) : Prop :=
  steps s s' /\ y_main s' = y_main s /\ forall j, j <> n -> y_node s' j = y_node s j.

Lemma goes_main p L p' L' : goes p L p' L' -> forall s, shape s L -> y_main s = p ->
  exists s', main_moved s s' /\ shape s' L' /\ y_main s' = p'.
Proof.
  induction 1 as [p L|p L p1 L1 p' L' [_ Hm] _ IH]; intros s Hs Em.
  - exists s. split; [split; [apply steps_refl|done]|done].
  - destruct (Hm s Hs) as (s1 & Ex & Hs1). destruct (exec_keeps _ _ _ _ _ _ Ex) as (_ & En & _).
    destruct (IH (set_main p1 s1) Hs1 eq_refl) as (s' & (Hst & En') & Hs' & Em').
    exists s'. split; [|done]. split; [|by rewrite En'].
    eapply steps_trans, Hst. apply (steps_one (Main, 0)). unfold step. simpl. by rewrite Em, Ex.
Qed.

Lemma goes_node n p L p' L' : goes p L p' L' -> forall s, shape s L -> y_node s n = Running p ->
  exists s', node_moved n s s' /\ shape s' L' /\ y_node s' n = Running p'.
Proof.
  induction 1 as [p L|p L p1 L1 p' L' [Hf Hm] _ IH]; intros s Hs En.
  - exists s. split; [split; [apply steps_refl|done]|done].
  - destruct (Hm s Hs) as (s1 & Ex & Hs1). destruct (exec_keeps _ _ _ _ _ _ Ex) as (Em & En1 & _).
    destruct (IH (set_node n (Running p1) s1) Hs1 ltac:(simpl; by rewrite fn_lookup_insert)) as (s' & (Hst & Em' & Ho) & Hs' & En').
    exists s'. split; [|done]. split; [|split; [by rewrite Em'|]].
    + eapply steps_trans, Hst. apply (steps_one (Node n, 0)). unfold step, node_step. simpl. rewrite En.
      destruct p as [a| | | | | | | | | | | | | | |]; [by destruct (Hf a)|..]; by rewrite Ex.
    + intros j Hj. rewrite Ho by done. simpl. by rewrite fn_lookup_insert_ne, En1.
Qed.

(** A node at the head of its loop, and at the end of a round. *)
Lemma node_enters n i s L p' L' : shape s L -> y_node s n = Looping i -> goes (spsc_body pl n i) L p' L' ->
  exists s', node_moved n s s' /\ shape s' L' /\ y_node s' n = Running p'.
Proof.
  intros Hs En Hg. pose proof Hs as (Hp & Hd & Hst).
  destruct (goes_node n _ _ _ _ Hg (set_node n (Running (spsc_body pl n i)) s) Hs ltac:(simpl; by rewrite fn_lookup_insert))
    as (s' & (Hr & Em & Ho) & Hs' & En').
  exists s'. split; [|done]. split; [|split; [done|]].
  - eapply steps_trans, Hr. apply (steps_one (Node n, 0)). unfold step, node_step. simpl. by rewrite En, Hst.
  - intros j Hj. rewrite Ho by done. simpl. by rewrite fn_lookup_insert_ne.
Qed.
Lemma node_leaves n i s L : shape s L -> y_node s n = Running (Fin (Some i)) ->
  exists s', node_moved n s s' /\ shape s' L /\ y_node s' n = Looping i.
Proof.
  intros Hs En. exists (set_node n (Looping i) s). split; [|split; [done|simpl; by rewrite fn_lookup_insert]].
  split; [|split; [done|]].
  - apply (steps_one (Node n, 0)). unfold step, node_step. simpl. by rewrite En.
  - intros j Hj. simpl. by rewrite fn_lookup_insert_ne.
Qed.
Lemma node_moved_trans n s s1 s2 : node_moved n s s1 -> node_moved n s1 s2 -> node_moved n s s2.
Proof.
  intros (H1 & E1 & O1) (H2 & E2 & O2). split; [by eapply steps_trans|]. split; [congruence|].
  intros j Hj. rewrite O2, O1; done.
Qed.
End way.

(** ** The stages *)

Section stages.
Context `{Alc : Alloc} (pl : plane_cfg) (C : Z) (HC : 1 <= C).
#[local] Notation cap := (mk_caps (fun _ => C) (fun _ => C)).
#[local] Notation prog := (io port sink).
#[local] Notation plane := (plane port sink).
#[local] Notation buffers := (port -> list pkt_t).
#[local] Notation goes := (goes cap).

(** The path whose packets a channel carries when only these two are enabled, and a
    channel's contents by number. *)
Definition path_on (q : port) : path_id_t :=
  match q with inj_tun | tun_to_forward => PATH_TUN_FORWARD_TUNNEL | _ => PATH_TUNNEL_FORWARD_TUN end.
Definition holds (L : buffers) (N : port -> Z) : Prop :=
  forall q, zlen (L q) = N q /\ Forall (fun m => k_path m = path_on q) (L q).
(** How many packets are in [inj_tunnel], [tunnel_to_forward], [forward_to_tun], [inj_tun]
    and [tun_to_forward]. *)
Definition cnt (a b c d e : Z) (q : port) : Z :=
  match q with
  | inj_tunnel => a | tunnel_to_forward => b | forward_to_tun => c | inj_tun => d | tun_to_forward => e | _ => 0
  end.
Definition at_ (s : plane) (N : port -> Z) : Prop := exists L, shape s L /\ holds L N.

Lemma holds_push L N N' q m : holds L N -> k_path m = path_on q -> N' q = N q + 1 -> (forall q', q' <> q -> N' q' = N q') ->
  holds (<[q := L q ++ [m]]> L) N'.
Proof.
  intros HL Hm Hq Ho q'. destruct (decide (q' = q)) as [->|Hne].
  - rewrite fn_lookup_insert, zlen_app, Hq. destruct (HL q) as [-> Hf]. split; [done|]. apply Forall_app. split; [done|].
    by apply Forall_singleton.
  - rewrite fn_lookup_insert_ne, Ho by done. apply HL.
Qed.
Lemma holds_pop L N N' q : holds L N -> 0 < N q -> N' q = N q - 1 -> (forall q', q' <> q -> N' q' = N q') ->
  exists m buf, L q = m :: buf /\ k_path m = path_on q /\ holds (<[q := buf]> L) N'.
Proof.
  intros HL Hp Hq Ho. destruct (HL q) as [Hz Hf]. destruct (L q) as [|m buf]; [unfold zlen in Hz; simpl in Hz; lia|].
  apply Forall_cons in Hf as [Hm Hf]. rewrite zlen_cons in Hz. exists m, buf. split; [done|]. split; [done|].
  intros q'. destruct (decide (q' = q)) as [->|Hne].
  - rewrite fn_lookup_insert, Hq. split; [lia|done].
  - rewrite fn_lookup_insert_ne, Ho by done. apply HL.
Qed.
Lemma holds_none L N q : holds L N -> N q = 0 -> L q = [].
Proof. intros HL Hq. destruct (HL q) as [Hz _]. destruct (L q) as [|m buf]; [done|]. rewrite zlen_cons in Hz. pose proof (zlen_nonneg buf). lia. Qed.
Lemma holds_room L N q n : holds L N -> N q < n -> zlen (L q) < n.
Proof. intros HL. by destruct (HL q) as [-> _]. Qed.
Lemma holds_same L N q : holds L N -> L q = [] -> holds (<[q := []]> L) N.
Proof.
  intros HL E q'. destruct (decide (q' = q)) as [->|]; [rewrite fn_lookup_insert, <- E|rewrite fn_lookup_insert_ne by done]; apply HL.
Qed.

(** One packet from [inj_tunnel] to [tunnel_to_forward]. *)
Lemma tunnel_pass i s a b c d e : at_ s (cnt a b c d e) -> y_node s TUNNEL = Looping i -> 0 < a -> b < C ->
  exists s', node_moved pl cap TUNNEL s s' /\ at_ s' (cnt (a - 1) (b + 1) c d e) /\ y_node s' TUNNEL = Looping 0.
Proof.
  intros (L & Hs & HL) En Ha Hb.
  destruct (holds_pop L _ (cnt (a - 1) b c d e) inj_tunnel HL) as (m & buf & El & Hm & HL1); [done|done|by intros []|].
  set (L1 := <[inj_tunnel := buf]> L) in *.
  assert (goes (spsc_body pl TUNNEL i) L (Fin (Some 0)) (<[tunnel_to_forward := L1 tunnel_to_forward ++ [m]]> L1)) as Hg.
  { eapply goes_step; [by apply moves_take|]. unfold tunnel_outbound. simpl. rewrite decide_False by (by rewrite Hm).
    eapply goes_step; [apply moves_send|constructor]. by apply (holds_room _ _ _ _ HL1). }
  destruct (node_enters pl cap TUNNEL i s L _ _ Hs En Hg) as (s1 & Hm1 & Hs1 & En1).
  destruct (node_leaves pl cap TUNNEL 0 s1 _ Hs1 En1) as (s2 & Hm2 & Hs2 & En2).
  exists s2. split; [by eapply node_moved_trans|]. split; [|done]. eexists. split; [exact Hs2|].
  apply (holds_push _ (cnt (a - 1) b c d e)); [done|done|done|by intros []].
Qed.

(** One packet from [tunnel_to_forward] into the hands of forward. *)
Lemma forward_takes i L a b c d : holds L (cnt a b c d 0) -> 0 < b -> exists m k L',
  goes (spsc_body pl FORWARD i) L (Send forward_to_tun m k) L' /\ holds L' (cnt a (b - 1) c d 0) /\
  k_path m = PATH_TUNNEL_FORWARD_TUN /\ forall r, k r = Fin (Some 0).
Proof.
  intros HL Hb. pose proof (holds_none _ _ tun_to_forward HL eq_refl) as E0. pose proof (holds_same _ _ _ HL E0) as HL0.
  destruct (holds_pop _ _ (cnt a (b - 1) c d 0) tunnel_to_forward HL0) as (m & buf & El & Hm & HL1); [done|done|by intros []|].
  do 3 eexists. split; [|split; [exact HL1|split; [exact Hm|]]].
  - eapply goes_step; [by apply moves_empty|]. eapply goes_step; [by apply moves_take|]. simpl.
    unfold forward_route. rewrite Hm. simpl. apply goes_refl.
  - done.
Qed.

Lemma forward_pass i s a b c d : at_ s (cnt a b c d 0) -> y_node s FORWARD = Looping i -> 0 < b -> c < C ->
  exists s', node_moved pl cap FORWARD s s' /\ at_ s' (cnt a (b - 1) (c + 1) d 0) /\ y_node s' FORWARD = Looping 0.
Proof.
  intros (L & Hs & HL) En Hb Hc. destruct (forward_takes i L a b c d HL Hb) as (m & k & L1 & Hg & HL1 & Hm & Hk).
  assert (goes (spsc_body pl FORWARD i) L (Fin (Some 0)) (<[forward_to_tun := L1 forward_to_tun ++ [m]]> L1)) as Hg'.
  { eapply goes_trans; [exact Hg|]. eapply goes_step; [apply moves_send|rewrite Hk; constructor].
    by apply (holds_room _ _ _ _ HL1). }
  destruct (node_enters pl cap FORWARD i s L _ _ Hs En Hg') as (s1 & Hm1 & Hs1 & En1).
  destruct (node_leaves pl cap FORWARD 0 s1 _ Hs1 En1) as (s2 & Hm2 & Hs2 & En2).
  exists s2. split; [by eapply node_moved_trans|]. split; [|done]. eexists. split; [exact Hs2|].
  apply (holds_push _ (cnt a (b - 1) c d 0)); [done|done|done|by intros []].
Qed.
Lemma forward_sticks i s a b c d : at_ s (cnt a b c d 0) -> y_node s FORWARD = Looping i -> 0 < b ->
  exists s' m k, node_moved pl cap FORWARD s s' /\ at_ s' (cnt a (b - 1) c d 0) /\ y_node s' FORWARD = Running (Send forward_to_tun m k).
Proof.
  intros (L & Hs & HL) En Hb. destruct (forward_takes i L a b c d HL Hb) as (m & k & L1 & Hg & HL1 & Hm & Hk).
  destruct (node_enters pl cap FORWARD i s L _ _ Hs En Hg) as (s1 & Hm1 & Hs1 & En1).
  exists s1, m, k. split; [done|]. split; [|done]. by exists L1.
Qed.

(** tun takes a packet from [inj_tun], and sends it to [tun_to_forward]. *)
Definition tun_holds (s : plane) : Prop :=
  exists m k, y_node s TUN = Running (Send tun_to_forward m k) /\ k_path m = PATH_TUN_FORWARD_TUNNEL /\ forall r, k r = Fin (Some 0).

Lemma tun_takes i s a b c d e : at_ s (cnt a b c d e) -> y_node s TUN = Looping i -> 0 < d ->
  exists s', node_moved pl cap TUN s s' /\ at_ s' (cnt a b c (d - 1) e) /\ tun_holds s'.
Proof.
  intros (L & Hs & HL) En Hd.
  destruct (holds_pop L _ (cnt a b c (d - 1) e) inj_tun HL) as (m & buf & El & Hm & HL1); [done|done|by intros []|].
  edestruct (node_enters pl cap TUN i s L) as (s1 & Hm1 & Hs1 & En1); [exact Hs|exact En| |].
  { eapply goes_step; [by apply moves_take|]. apply goes_refl. }
  exists s1. split; [done|]. split; [by eexists|]. do 2 eexists. split; [exact En1|]. split; [exact Hm|done].
Qed.
Lemma tun_sends s a b c d e : at_ s (cnt a b c d e) -> tun_holds s -> e < C ->
  exists s', node_moved pl cap TUN s s' /\ at_ s' (cnt a b c d (e + 1)) /\ y_node s' TUN = Looping 0.
Proof.
  intros (L & Hs & HL) (m & k & En & Hm & Hk) He.
  assert (goes (Send tun_to_forward m k) L (Fin (Some 0)) (<[tun_to_forward := L tun_to_forward ++ [m]]> L)) as Hg.
  { eapply goes_step; [apply moves_send|rewrite Hk; constructor]. by apply (holds_room _ _ _ _ HL). }
  destruct (goes_node pl cap TUN _ _ _ _ Hg s Hs En) as (s1 & Hm1 & Hs1 & En1).
  destruct (node_leaves pl cap TUN 0 s1 _ Hs1 En1) as (s2 & Hm2 & Hs2 & En2).
  exists s2. split; [by eapply node_moved_trans|]. split; [|done]. eexists. split; [exact Hs2|].
  apply (holds_push _ (cnt a b c d e)); [done|done|done|by intros []].
Qed.
End stages.

(** ** The driver *)

Section driver.
Context `{Alc : Alloc} (pl : plane_cfg) (C : Z) (HC : 1 <= C) (fuel : nat) (cfg : run_config_t).
#[local] Notation cap := (mk_caps (fun _ => C) (fun _ => C)).
#[local] Notation prog := (io port sink).
#[local] Notation plane := (plane port sink).
#[local] Notation buffers := (port -> list pkt_t).
#[local] Notation goes := (goes cap).

Definition two_paths (P : path_id_t) : bool := bool_decide (P = PATH_TUNNEL_FORWARD_TUN \/ P = PATH_TUN_FORWARD_TUNNEL).
Definition good (w : world) : Prop := forall P, s_enabled (w.1 P) = two_paths P.

(** The latency record of a packet about to be sent. *)
Lemma latency_goes c P seq (L : buffers) : 0 <= seq < two32 -> exists c', goes (latency_on_send c P seq) L (Fin c') L.
Proof.
  unfold two32. intros Hs. unfold latency_on_send, latency_grow_send. set (lat := c P).
  assert (forall lat', seq < t_send_cap lat' -> exists c', goes (now ← now_ns; ts ← store (t_send_ts lat') seq now;
    mret (<[P := mk_lat ts (t_samples lat') (t_cap lat') (t_sum lat')]> c)) L (Fin c') L) as Hst.
  { intros lat' Hlt. eexists. eapply goes_step; [apply moves_now|]. simpl. unfold store, t_send_cap in *.
    rewrite (proj2 (Z.ltb_lt _ _) Hlt). apply goes_refl. }
  destruct (Z.leb_spec (seq + 1) (t_send_cap lat)); [apply Hst; lia|].
  assert (0 <= t_send_cap lat) as Hpos by apply zlen_nonneg.
  set (c0 := if t_send_cap lat =? 0 then 4096 else t_send_cap lat).
  assert (0 < c0 /\ t_send_cap lat <= c0) as [Hc0 Hle] by (unfold c0; destruct (Z.eqb_spec (t_send_cap lat) 0); lia).
  destruct (grow_cap_ok 63 c0 (seq + 1)) as (c' & -> & Hn & Hc'); [done|lia|simpl; lia|].
  destruct (alloc _); [|eexists; apply goes_refl]. apply (Hst (mk_lat _ _ _ _)). unfold t_send_cap in *. simpl.
  rewrite zlen_app. unfold zlen at 2. rewrite length_replicate. lia.
Qed.

(** Up to the send of a packet; and what follows the send. *)
Lemma inject_goes w P q (L : buffers) : good w -> spsc_inject_ch P = Some q ->
  exists m k w', goes (inject_poll cfg P w) L (Send q m k) L /\ k_path m = P /\ good w' /\
    forall L', goes (k true) L' (Fin (true, w')) L'.
Proof.
  intros Hw Hq. unfold inject_poll, inject_packet. set (seq := u32 (s_sent (w.1 P))).
  assert (exists lat', goes (match w.2 with Some c => c ← latency_on_send c P seq; mret (Some c) | None => mret None end) L (Fin lat') L)
    as [lat' Hlat].
  { destruct (w.2) as [c|]; [|eexists; apply goes_refl]. destruct (latency_goes c P seq L (u32_range _)) as [c' Hc'].
    eexists. apply (goes_bind cap _ (Fin c') (fun c => mret (Some c)) L L Hc'). }
  do 3 eexists. split.
  { eapply goes_trans; [apply goes_bind, goes_bind, Hlat|]. cbn. rewrite Hq. cbn. apply goes_refl. }
  split; [reflexivity|]. split.
  2: { intros L'. cbn. do 3 (eapply goes_step; [apply moves_no_done|]; cbn). unfold sleep_usec.
       destruct (r_interval_usec cfg =? 0); cbn; [apply goes_refl|]. eapply goes_step; [apply moves_relax|apply goes_refl]. }
  intros P'. simpl. destruct (decide (P' = P)) as [->|]; [rewrite fn_lookup_insert|rewrite fn_lookup_insert_ne by done]; apply Hw.
Qed.

(** A round injects one packet of either path, when there is room. *)
Lemma round_first w L : good w -> zlen (L inj_tunnel) < C ->
  exists m m4 k w', goes (inject_round cfg w) L (Send inj_tun m4 k) (<[inj_tunnel := L inj_tunnel ++ [m]]> L) /\
    k_path m = PATH_TUNNEL_FORWARD_TUN /\ k_path m4 = PATH_TUN_FORWARD_TUNNEL /\ good w' /\
    forall L', goes (k true) L' (Fin (0, w')) L'.
Proof.
  intros Hw Ha. destruct (inject_goes w PATH_TUNNEL_FORWARD_TUN inj_tunnel L Hw eq_refl) as (m & k & w1 & Hg & Hm & Hw1 & Hk).
  set (L1 := <[inj_tunnel := L inj_tunnel ++ [m]]> L).
  destruct (inject_goes w1 PATH_TUN_FORWARD_TUNNEL inj_tun L1 Hw1 eq_refl) as (m4 & k4 & w2 & Hg4 & Hm4 & Hw2 & Hk4).
  unfold inject_round, all_paths. cbn [round_paths]. rewrite !Hw. cbn.
  do 4 eexists. split; [|split; [exact Hm|split; [exact Hm4|split; [exact Hw2|]]]].
  - eapply goes_trans; [apply goes_bind, Hg|]. eapply goes_step; [apply moves_bind, moves_send, Ha|].
    eapply goes_trans; [apply goes_bind, Hk|]. cbn. rewrite Hw1. cbn.
    eapply goes_trans; [apply goes_bind, Hg4|]. apply goes_refl.
  - intros L'. eapply goes_trans; [apply goes_bind, Hk4|]. cbn. rewrite !Hw2. cbn. apply goes_refl.
Qed.

(** The driver with [r] rounds to go. *)
Context (g1 : Z * world -> prog (Z * world)) (g2 : Z * world -> prog (Z * stats_t)).
Definition driving (r : nat) (s : plane) : Prop := exists w, good w /\ y_main s = (times r (inject_round cfg) w ≫= g1) ≫= g2.

Lemma main_sticks r s a b c d e : at_ s (cnt a b c d e) -> driving (S r) s -> a < C ->
  exists s' m k, main_moved pl cap s s' /\ at_ s' (cnt (a + 1) b c d e) /\ y_main s' = Send inj_tun m k.
Proof.
  intros (L & Hs & HL) (w & Hw & Em) Ha. destruct (round_first w L Hw) as (m & m4 & k & w' & Hg & Hm & _ & _ & _).
  { by apply (holds_room _ _ _ _ HL). }
  destruct (goes_main pl cap _ _ _ _ (goes_bind _ _ _ g2 _ _ (goes_bind _ _ _ g1 _ _ (goes_bind _ _ _
    (fun '(rc, w) => if rc =? 0 then times r (inject_round cfg) w else mret (-1, w)) _ _ Hg))) s Hs Em) as (s' & Hmv & Hs' & Em').
  do 3 eexists. split; [exact Hmv|]. split; [|exact Em']. eexists. split; [exact Hs'|].
  apply (holds_push _ (cnt a b c d e)); [done|done|done|by intros []].
Qed.

Lemma main_round r s a b c d e : at_ s (cnt a b c d e) -> driving (S r) s -> a < C -> d < C ->
  exists s', main_moved pl cap s s' /\ at_ s' (cnt (a + 1) b c (d + 1) e) /\ driving r s'.
Proof.
  intros (L & Hs & HL) (w & Hw & Em) Ha Hd. destruct (round_first w L Hw) as (m & m4 & k & w' & Hg & Hm & Hm4 & Hw' & Hk).
  { by apply (holds_room _ _ _ _ HL). }
  set (L1 := <[inj_tunnel := L inj_tunnel ++ [m]]> L) in *.
  assert (holds L1 (cnt (a + 1) b c d e)) as HL1 by (apply (holds_push _ (cnt a b c d e)); [done|done|done|by intros []]).
  set (L2 := <[inj_tun := L1 inj_tun ++ [m4]]> L1).
  assert (goes (inject_round cfg w) L (Fin (0, w')) L2) as Hg2.
  { eapply goes_trans; [exact Hg|]. eapply goes_step; [apply moves_send|apply Hk]. by apply (holds_room _ _ _ _ HL1). }
  destruct (goes_main pl cap _ _ _ _ (goes_bind _ _ _ g2 _ _ (goes_bind _ _ _ g1 _ _ (goes_bind _ _ _
    (fun '(rc, w) => if rc =? 0 then times r (inject_round cfg) w else mret (-1, w)) _ _ Hg2))) s Hs Em) as (s' & Hmv & Hs' & Em').
  exists s'. split; [done|]. split; [|by exists w']. exists L2. split; [done|].
  apply (holds_push _ (cnt (a + 1) b c d e)); [done|done|done|by intros []].
Qed.

(** ** The stages in turn *)

Definition idle (n : node) (s : plane) : Prop := exists i, y_node s n = Looping i.

(** A round of the driver whose packet of the third path goes on to [forward_to_tun]. *)
Lemma feed_forward r s c d : at_ s (cnt 0 0 c d 0) -> driving (S r) s -> idle TUNNEL s -> idle FORWARD s -> c < C -> d < C ->
  exists s', steps pl cap s s' /\ at_ s' (cnt 0 0 (c + 1) (d + 1) 0) /\ driving r s' /\ idle TUNNEL s' /\ idle FORWARD s' /\
    y_node s' TUN = y_node s TUN.
Proof.
  intros Hat Hdr [it Et] [jf Ef] Hc Hd.
  destruct (main_round r s _ _ _ _ _ Hat Hdr) as (s1 & (S1 & N1) & At1 & D1); [lia|done|].
  destruct (tunnel_pass pl C it s1 _ _ _ _ _ At1) as (s2 & (S2 & M2 & N2) & At2 & E2); [by rewrite N1|lia|lia|].
  destruct (forward_pass pl C jf s2 _ _ _ _ At2) as (s3 & (S3 & M3 & N3) & At3 & E3); [by rewrite N2, N1 by done|lia|done|].
  exists s3. split; [by eapply steps_trans, steps_trans|]. split; [exact At3|].
  split; [destruct D1 as (w & Hw & Em); exists w; split; [done|by rewrite M3, M2]|].
  split; [exists 0; by rewrite N3|]. split; [by exists 0|]. by rewrite N3, N2, N1 by done.
Qed.

(** The first round, after which tun takes its packet; [forward_to_tun] fills up. *)
Lemma fill_forward n : forall r s, at_ s (cnt 0 0 0 0 0) -> driving (S n + r) s -> idle TUNNEL s -> idle FORWARD s -> idle TUN s ->
  Z.of_nat (S n) <= C ->
  exists s', steps pl cap s s' /\ at_ s' (cnt 0 0 (Z.of_nat (S n)) (Z.of_nat n) 0) /\ driving r s' /\ idle TUNNEL s' /\ idle FORWARD s' /\
    tun_holds s'.
Proof.
  induction n as [|n IH]; intros r s Hat Hdr Ht Hf [iu Eu] Hn.
  - destruct (feed_forward r s 0 0 Hat Hdr Ht Hf) as (s1 & S1 & At1 & D1 & T1 & F1 & E1); [lia|lia|].
    destruct (tun_takes pl C iu s1 _ _ _ _ _ At1) as (s2 & (S2 & M2 & N2) & At2 & H2); [by rewrite E1|lia|].
    exists s2. split; [by eapply steps_trans|]. split; [exact At2|].
    split; [destruct D1 as (w & Hw & Em); exists w; split; [done|by rewrite M2]|].
    destruct T1 as [i1 E1t], F1 as [j1 E1f]. split; [exists i1; by rewrite N2|]. split; [exists j1; by rewrite N2|done].
  - destruct (IH (S r) s Hat) as (s1 & S1 & At1 & D1 & T1 & F1 & H1); [|done..|by exists iu|lia|].
    { by replace (S n + S r)%nat with (S (S n) + r)%nat by lia. }
    destruct (feed_forward r s1 _ _ At1 D1 T1 F1) as (s2 & S2 & At2 & D2 & T2 & F2 & E2); [lia|lia|].
    exists s2. split; [by eapply steps_trans|]. split; [|split; [done|split; [done|split; [done|]]]].
    + replace (Z.of_nat (S n) + 1) with (Z.of_nat (S (S n))) in At2 by lia.
      by replace (Z.of_nat n + 1) with (Z.of_nat (S n)) in At2 by lia.
    + destruct H1 as (m & k & Em & Hm). exists m, k. by rewrite E2.
Qed.

(** forward gets stuck, tun empties [inj_tun] into [tun_to_forward]. *)
Lemma stick_forward r s : at_ s (cnt 0 0 C (C - 1) 0) -> driving (S r) s -> idle TUNNEL s -> idle FORWARD s -> tun_holds s ->
  exists s', steps pl cap s s' /\ at_ s' (cnt 0 0 C C 0) /\ driving r s' /\ idle TUNNEL s' /\
    (exists m k, y_node s' FORWARD = Running (Send forward_to_tun m k)) /\ tun_holds s'.
Proof using HC.
  intros Hat Hdr [it Et] [jf Ef] Hu.
  destruct (main_round r s _ _ _ _ _ Hat Hdr) as (s1 & (S1 & N1) & At1 & D1); [lia|lia|].
  destruct (tunnel_pass pl C it s1 _ _ _ _ _ At1) as (s2 & (S2 & M2 & N2) & At2 & E2); [by rewrite N1|lia|lia|].
  destruct (forward_sticks pl C jf s2 _ _ _ _ At2) as (s3 & m & k & (S3 & M3 & N3) & At3 & E3); [by rewrite N2, N1 by done|lia|].
  exists s3. split; [by eapply steps_trans, steps_trans|].
  split; [by replace (0 + 1 - 1) with 0 in At3 by lia; replace (C - 1 + 1) with C in At3 by lia|].
  split; [destruct D1 as (w & Hw & Em); exists w; split; [done|by rewrite M3, M2]|].
  split; [exists 0; by rewrite N3|]. split; [by eauto|]. destruct Hu as (mu & ku & Eu & Hu). exists mu, ku. by rewrite N3, N2, N1 by done.
Qed.

Lemma empty_tun (n : nat) : Z.of_nat n <= C -> forall r s, at_ s (cnt 0 0 C C 0) -> driving r s -> tun_holds s ->
  exists s', steps pl cap s s' /\ at_ s' (cnt 0 0 C (C - Z.of_nat n) (Z.of_nat n)) /\ driving r s' /\ tun_holds s' /\
    (forall j, j <> TUN -> y_node s' j = y_node s j).
Proof.
  induction n as [|n IH]; intros Hn r s Hat Hdr Hu.
  - exists s. split; [apply steps_refl|]. by rewrite Z.sub_0_r.
  - destruct (IH ltac:(lia) r s Hat Hdr Hu) as (s1 & S1 & At1 & D1 & H1 & N1).
    destruct (tun_sends pl C s1 _ _ _ _ _ At1 H1) as (s2 & (S2 & M2 & N2) & At2 & E2); [lia|].
    destruct (tun_takes pl C 0 s2 _ _ _ _ _ At2 E2) as (s3 & (S3 & M3 & N3) & At3 & H3); [lia|].
    exists s3. split; [by eapply steps_trans, steps_trans|].
    split; [by replace (Z.of_nat (S n)) with (Z.of_nat n + 1) by lia; replace (C - (Z.of_nat n + 1)) with (C - Z.of_nat n - 1) by lia|].
    split; [destruct D1 as (w & Hw & Em); exists w; split; [done|by rewrite M3, M2]|]. split; [done|].
    intros j Hj. rewrite N3, N2, N1; done.
Qed.

(** The driver fills [inj_tun] and [inj_tunnel] again. *)
Lemma fill_sources (n : nat) : Z.of_nat n <= C -> forall r s, at_ s (cnt 0 0 C 0 C) -> driving (n + r) s ->
  exists s', steps pl cap s s' /\ at_ s' (cnt (Z.of_nat n) 0 C (Z.of_nat n) C) /\ driving r s' /\ y_node s' = y_node s.
Proof.
  induction n as [|n IH]; intros Hn r s Hat Hdr.
  - exists s. split; [apply steps_refl|done].
  - destruct (IH ltac:(lia) (S r) s Hat) as (s1 & S1 & At1 & D1 & N1); [by replace (n + S r)%nat with (S n + r)%nat by lia|].
    destruct (main_round r s1 _ _ _ _ _ At1 D1) as (s2 & (S2 & N2) & At2 & D2); [lia|lia|].
    exists s2. split; [by eapply steps_trans|]. split; [by replace (Z.of_nat (S n)) with (Z.of_nat n + 1) by lia|].
    split; [done|]. congruence.
Qed.

Lemma at_full s N q : at_ s N -> N q = C -> full cap s q.
Proof. intros (L & (Hp & _) & HL) Hq. destruct (HL q) as [Hz _]. split; rewrite Hp; simpl; [done|]. by rewrite Hz, Hq. Qed.

(** All of it: from the first round on, the three end up waiting for one another. *)
Lemma gets_wedged r s : at_ s (cnt 0 0 0 0 0) -> driving (2 * Z.to_nat C + 2 + r) s ->
  idle TUNNEL s -> idle FORWARD s -> idle TUN s -> exists s', steps pl cap s s' /\ wedged cap s'.
Proof using HC.
  intros Hat Hdr Ht Hf Hu. destruct (Z.to_nat C) as [|n] eqn:En; [lia|]. assert (C = Z.of_nat (S n)) as EC by lia.
  destruct (fill_forward n (S (S n + (S r))) s Hat) as (s1 & S1 & At1 & D1 & T1 & F1 & H1); [|done..|lia|].
  { by replace (S n + S (S n + S r))%nat with (2 * S n + 2 + r)%nat by lia. }
  rewrite <- EC in At1. replace (Z.of_nat n) with (C - 1) in At1 by lia.
  destruct (stick_forward _ s1 At1 D1 T1 F1 H1) as (s2 & S2 & At2 & D2 & T2 & (mf & kf & E2) & H2).
  destruct (empty_tun (S n) ltac:(lia) _ s2 At2 D2 H2) as (s3 & S3 & At3 & D3 & H3 & N3).
  rewrite <- EC, Z.sub_diag in At3.
  destruct (fill_sources (S n) ltac:(lia) _ s3 At3 D3) as (s4 & S4 & At4 & D4 & N4). rewrite <- EC in At4.
  destruct T2 as [it Et].
  destruct (tunnel_pass pl C it s4 _ _ _ _ _ At4) as (s5 & (S5 & M5 & N5) & At5 & E5); [by rewrite N4, N3|lia|lia|].
  assert (driving (S r) s5) as D5 by (destruct D4 as (w & Hw & Em); exists w; split; [done|by rewrite M5]).
  destruct (main_sticks r s5 _ _ _ _ _ At5 D5) as (s6 & m & k & (S6 & N6) & At6 & E6); [lia|].
  exists s6. split; [by eapply steps_trans, steps_trans, steps_trans, steps_trans, steps_trans|].
  pose proof At6 as (L & (_ & _ & Hst) & _). split; [done|]. split; [by eauto|].
  destruct H3 as (mu & ku & Eu & _). split; [exists mu, ku; by rewrite N6, N5, N4 by done|].
  split; [exists mf, kf; by rewrite N6, N5, N4, N3 by done|]. split; [|split]; by eapply at_full.
Qed.
End driver.

(** ** Theorem *)

(** The capacities the program creates its channels with. *)
Definition spsc_caps : caps port sink := mk_caps (fun _ => CHAN_CAP) (fun _ => CHAN_CAP).

(** The driver's first step takes it into the rounds. *)
Lemma parallel_start `{Alloc} fuel pl cfg lat s : r_parallel cfg = true -> r_timed cfg = false ->
  s = started (main_run fuel pl cfg (start_stats cfg, lat)) ->
  exists (g1 : Z * world -> io port sink (Z * world)) (g2 : Z * world -> io port sink (Z * stats_t)) s',
    steps pl spsc_caps s s' /\ shape s' (fun _ => []) /\ y_node s' = (fun _ => Looping 0) /\
    y_main s' = (times (Z.to_nat (r_count cfg)) (inject_round cfg) (start_stats cfg, lat) ≫= g1) ≫= g2.
Proof.
  intros Hp Ht ->. eexists _, _, (set_main _ _). split.
  { apply (steps_one _ _ (Main, 0)). unfold step. simpl. unfold run_traffic, run_traffic_parallel. rewrite Hp, Ht, andb_false_r. reflexivity. }
  done.
Qed.

(** C38: The parallel mode can wedge, whatever else is configured: run with [-P] on the
    third and the fourth path, with at least two packets more on each than twice the
    capacity of the channels (4096), a schedule leads to a state in which the driver
    waits, without a deadline, for room in [inj_tun], which tun would make, tun waits for
    room in [tun_to_forward], which forward would make, and forward for room in
    [forward_to_tun], which tun would make; and in every state any schedule leads to from
    there they still wait, none of the three can take a step, and the stop flag is not set. *)
Theorem parallel_mode_wedges `{Alloc} fuel pl cfg lat
  (Hp : r_parallel cfg = true) (Ht : r_timed cfg = false)
  (Hen : forall P, enabled cfg P = bool_decide (P = PATH_TUNNEL_FORWARD_TUN \/ P = PATH_TUN_FORWARD_TUNNEL))
  (Hc : 2 * CHAN_CAP + 2 <= r_count cfg < two64) :
  exists s, reached fuel pl spsc_caps cfg lat s /\
  forall ls s', run (step pl spsc_caps) ls s = Some s' ->
    wedged spsc_caps s' /\ y_stop s' = false /\
    forall t now, t ∈ [Main; Node TUN; Node FORWARD] -> step pl spsc_caps (t, now) s' = None.
Proof.
  destruct (parallel_start fuel pl cfg lat _ Hp Ht eq_refl) as (g1 & g2 & s1 & [l1 R1] & Hs1 & N1 & E1).
  destruct (gets_wedged pl CHAN_CAP ltac:(done) cfg g1 g2 (Z.to_nat (r_count cfg - (2 * CHAN_CAP + 2))) s1) as (s2 & [l2 R2] & Hw).
  - exists (fun _ => []). split; [done|]. by intros [].
  - exists (start_stats cfg, lat). split; [exact Hen|]. rewrite E1.
    replace (2 * Z.to_nat CHAN_CAP + 2 + Z.to_nat (r_count cfg - (2 * CHAN_CAP + 2)))%nat with (Z.to_nat (r_count cfg)); [done|].
    unfold CHAN_CAP in *. lia.
  - exists 0. by rewrite N1.
  - exists 0. by rewrite N1.
  - exists 0. by rewrite N1.
  - assert (reached fuel pl spsc_caps cfg lat s2) as Hr by (exists (l1 ++ l2); by rewrite (run_app _ _ _ _ _ R1)).
    exists s2. split; [done|]. intros ls s' Hrun.
    pose proof (wedged_forever fuel pl _ cfg lat ltac:(unfold CHAN_CAP in *; lia) _ _ _ Hr Hw Hrun) as Hw'.
    split; [done|]. destruct Hw' as (Hst & (m & k & Em) & (mt & kt & Et) & (mf & kf & Ef) & F1 & F2 & F3). split; [done|].
    intros t now Hin. rewrite !elem_of_cons, elem_of_nil in Hin. unfold step. simpl.
    destruct Hin as [->|[->|[->|[]]]]; [by rewrite Em, exec_full|unfold node_step..];
      [rewrite Et|rewrite Ef]; by rewrite exec_full.
Qed.

(** [dplane_pipeline -P -l 3,4 -c 8194]. *)
#[local] Instance par_alloc : Alloc := fun _ => true.
Lemma parallel_mode_wedges_witness :
  exists cfg en, @parse_args strtod_ex [("P"%char, []); ("l"%char, lit "3,4"); ("c"%char, lit "8194")] = inr (cfg, en) /\
  exists s, reached 60 ex_pl spsc_caps cfg (latency_ctx_init (start_stats cfg) cfg) s /\
    wedged spsc_caps s /\ step ex_pl spsc_caps (Main, 0) s = None.
Proof.
  eexists _, _. split; [vm_compute; reflexivity|].
  edestruct (parallel_mode_wedges 60 ex_pl) as (s & Hr & Hs);
    [..|exists s; split; [exact Hr|]; destruct (Hs [] s eq_refl) as (Hw & _ & Hn); split; [exact Hw|apply Hn; left]].
  - reflexivity.
  - reflexivity.
  - intros []; reflexivity.
  - split; vm_compute; congruence.
Defined.
