(* ===== verification/DplaneInit.v ===== *)
(** * The data-plane examples: the memory of the start and the end of [main]

    The start and the end of [main] in both versions, on the channels of [Chan]:
    the channels and the latency arrays are created, whether or not the allocator
    refuses some of them, and given back.  Each call of the allocator has an answer
    of its own.  The theorems say what is left behind: nothing, except that a
    refused latency array leaves those granted before it. *)

From S2P Require Import Prelude RingLf Heap WaitQ Abs Chan Dplane DplaneMain DplaneSys DplaneSpsc DplaneMpsc.
From stdpp Require Import functions list.
#[local] Open Scope Z_scope.

Definition sizeof_pkt_t : Z := 8.
Definition sizeof_done_msg_t : Z := 16.

(** [static void chan_destroy_null(chan_t *ch) { if (ch) chan_destroy(ch); }] *)
Definition chan_destroy_null (ch : ptr) : M unit := if ch =? NULL then mret tt else chan_destroy ch.

(** ** Tables of channels

    A version's channels are the keys [K] of a table of pointers, which [memset]
    has cleared; [create k] is the call that creates the channel [k], with the
    answers of [calloc] for its structure and of [malloc] for its ring. *)
Section tables.
Context {K : Type} `{EqK : EqDecision K} (create : K -> M ptr).

Fixpoint create_all (ks : list K) (tab : K -> ptr) : M (K -> ptr) :=
  match ks with
  | [] => mret tab
  | k :: ks => p ← create k; create_all ks (<[k := p]> tab)
  end.

Definition all_there (ks : list K) (tab : K -> ptr) : bool := forallb (fun k => negb (tab k =? NULL)) ks.

Fixpoint destroy_all (ks : list K) (tab : K -> ptr) : M unit :=
  match ks with
  | [] => mret tt
  | k :: ks => chan_destroy_null (tab k);; destroy_all ks tab
  end.
End tables.

(** ** The latency arrays

    Their blocks are in the memory beside the callers' buffers; their contents
    during a run are in [DplaneMain]. *)

Definition new_block (p : ptr) (b : list byte) : M unit := fun h => Ret (tt, set_h_mem (<[p := b]> (h_mem h)) h).
(** [free(p)]; the pointer is NULL or a block that is live. *)
Definition free_block (p : ptr) : M unit :=
  if p =? NULL then mret tt
  else fun h => let! _ := deref (h_mem h !! p) in Ret (tt, set_h_mem (delete p (h_mem h)) h).

(** [calloc(nmemb, size)], which refuses a product that is not a [size_t]; the block
    [malloc] grants has arbitrary contents. *)
Definition calloc_answer (nmemb size : Z) (answer : option ptr) : option ptr :=
  if nmemb * size <? two64 then answer else None.
Definition calloc_block (nmemb size : Z) (answer : option ptr) : M ptr :=
  match calloc_answer nmemb size answer with
  | None => mret NULL
  | Some p => new_block p (replicate (Z.to_nat (nmemb * size)) x00);; mret p
  end.
Definition malloc_block (bytes : list byte) (answer : option ptr) : M ptr :=
  match answer with None => mret NULL | Some p => new_block p bytes;; mret p end.

(** The pointers [send_ts] and [samples] of the paths. *)
Inductive lat_array := send_ts | samples.
#[export] Instance lat_array_eq_dec : EqDecision lat_array.
Proof. solve_decision. Defined.
Notation lat_ptrs := (path_id_t * lat_array -> ptr) (only parsing).

Section latency.
Context (answer : path_id_t * lat_array -> option ptr) (garbage : path_id_t -> list byte) (enabled : path_id_t -> bool) (hint : Z).

(** The loop of [latency_ctx_init]; false when it returns early. *)
Fixpoint latency_paths_init (ps : list path_id_t) (ctx : lat_ptrs) : M (bool * lat_ptrs) :=
  match ps with
  | [] => mret (true, ctx)
  | i :: ps =>
      if enabled i then
        p ← calloc_block hint 8 (answer (i, send_ts));
        let ctx := <[(i, send_ts) := p]> ctx in
        if p =? NULL then mret (false, ctx)
        else
          q ← malloc_block (garbage i) (answer (i, samples));
          let ctx := <[(i, samples) := q]> ctx in
          if q =? NULL then mret (false, ctx) else latency_paths_init ps ctx
      else latency_paths_init ps ctx
  end.
Definition latency_blocks_init : M (bool * lat_ptrs) := latency_paths_init all_paths (fun _ => NULL).
End latency.

Fixpoint latency_paths_free (ps : list path_id_t) (ctx : lat_ptrs) : M unit :=
  match ps with
  | [] => mret tt
  | i :: ps => free_block (ctx (i, send_ts));; free_block (ctx (i, samples));; latency_paths_free ps ctx
  end.
Definition latency_ctx_free (ctx : lat_ptrs) : M unit := latency_paths_free all_paths ctx.

(** [lat->x = realloc(lat->x, n)], as [latency_grow_send] and [latency_push] do it: a
    refusal leaves the old block, otherwise the block moves. *)
Definition latency_resize (ctx : lat_ptrs) (k : path_id_t * lat_array) (bytes : list byte) (answer : option ptr)
  : M (bool * lat_ptrs) :=
  match answer with
  | None => mret (false, ctx)
  | Some p => free_block (ctx k);; new_block p bytes;; mret (true, <[k := p]> ctx)
  end.

(** [cfg->duration_sec > 0.0 ? 4096 : (cfg->count ? cfg->count : 1)] *)
Definition latency_hint (cfg : run_config_t) : Z :=
  if r_timed cfg then 4096 else if r_count cfg =? 0 then 1 else r_count cfg.

(** ** [dplane_pipeline.c] *)

Section spsc.
Context (mem : place port sink -> Malloc) (calloc : place port sink -> option ptr).

Definition link_ports : list (place port sink) :=
  AtPort <$> [tun_to_forward; forward_to_enc; enc_to_tunnel; tunnel_to_enc; enc_to_forward; forward_to_tun;
              tunnel_to_forward; forward_to_oam; oam_to_forward; forward_to_tunnel].
Definition test_io : list (place port sink) :=
  (AtPort <$> [inj_tun; inj_tunnel; inj_oam]) ++ (AtSink <$> [done_tun; done_tunnel; done_oam]).

Definition spsc_create (k : place port sink) : M ptr :=
  @chan_create_spsc (mem k) (calloc k) (match k with AtPort _ => sizeof_pkt_t | AtSink _ => sizeof_done_msg_t end) CHAN_CAP.

Definition links_init (tab : place port sink -> ptr) : M (bool * (place port sink -> ptr)) :=
  tab ← create_all spsc_create link_ports tab; mret (all_there link_ports tab, tab).
Definition test_io_init (tab : place port sink -> ptr) : M (bool * (place port sink -> ptr)) :=
  tab ← create_all spsc_create test_io tab; mret (all_there test_io tab, tab).
Definition links_destroy (tab : place port sink -> ptr) : M unit := destroy_all link_ports tab.
Definition test_io_destroy (tab : place port sink -> ptr) : M unit := destroy_all test_io tab.

(** Both, as [main] calls them. *)
Definition spsc_teardown (tab : place port sink -> ptr) : M unit := links_destroy tab;; test_io_destroy tab.

(** The start of [main] up to the threads: [None] when it returns 1.  [lat] is the
    call of [latency_ctx_init], which is not undone when it fails. *)
Definition spsc_setup (lat : M (bool * lat_ptrs)) : M (option ((place port sink -> ptr) * lat_ptrs)) :=
  '(ok, tab) ← links_init (fun _ => NULL);
  '(ok, tab) ← (if (ok : bool) then test_io_init tab else mret (false, tab));
  if (ok : bool) then
    '(ok, ctx) ← lat;
    if (ok : bool) then mret (Some (tab, ctx))
    else spsc_teardown tab;; mret None
  else spsc_teardown tab;; mret None.

(** The end of [main], after the report. *)
Definition spsc_end (tab : place port sink -> ptr) (ctx : lat_ptrs) : M unit := spsc_teardown tab;; latency_ctx_free ctx.
End spsc.

(** ** [dplane_pipeline_mpsc.c] *)

Section mpsc.
Context (mem : place inbox done_box -> Malloc) (calloc : place inbox done_box -> option ptr).

Definition boxes : list (place inbox done_box) :=
  (AtPort <$> [in_tun; in_forward; in_enc; in_tunnel; in_oam]) ++ [AtSink in_done].

Definition box_create (k : place inbox done_box) : M ptr :=
  match k with
  | AtPort q => @chan_create (mem k) (calloc k) sizeof_pkt_t (c_port inbox_caps q)
  | AtSink d => @chan_create (mem k) (calloc k) sizeof_done_msg_t (c_sink inbox_caps d)
  end.

Definition inboxes_init (tab : place inbox done_box -> ptr) : M (bool * (place inbox done_box -> ptr)) :=
  tab ← create_all box_create boxes tab; mret (all_there boxes tab, tab).
Definition inboxes_destroy (tab : place inbox done_box -> ptr) : M unit := destroy_all boxes tab.

Definition mpsc_setup (lat : M (bool * lat_ptrs)) : M (option ((place inbox done_box -> ptr) * lat_ptrs)) :=
  '(ok, tab) ← inboxes_init (fun _ => NULL);
  if (ok : bool) then
    '(ok, ctx) ← lat;
    if (ok : bool) then mret (Some (tab, ctx)) else inboxes_destroy tab;; mret None
  else inboxes_destroy tab;; mret None.
Definition mpsc_end (tab : place inbox done_box -> ptr) (ctx : lat_ptrs) : M unit := inboxes_destroy tab;; latency_ctx_free ctx.
End mpsc.

(** ** What is left behind *)

(** A channel as it is created. *)
Definition brand_new (A : achan) : Prop :=
  a_buf A = [] /\ a_closed A = false /\ a_sq A = [] /\ a_rq A = [] /\ a_ref A = 1 /\ forall a, chan_ok a A.
(** A channel nobody is inside of, which only its creator refers to. *)
Definition unused (A : achan) : Prop := a_sq A = [] /\ a_rq A = [] /\ a_ref A = 1 /\ forall a, chan_ok a A.

(** The memory [a] with the channels [m], and with the blocks [m], besides. *)
Definition with_chans (m : gmap ptr achan) (a : aheap) : aheap :=
  mk_aheap (m ∪ a_chan a) (a_wait a) (a_park a) (a_state a) (a_mem a).
Definition with_blocks (m : gmap ptr (list byte)) (a : aheap) : aheap :=
  mk_aheap (a_chan a) (a_wait a) (a_park a) (a_state a) (m ∪ a_mem a).
Definition drop_mem (p : ptr) (a : aheap) : aheap :=
  mk_aheap (a_chan a) (a_wait a) (a_park a) (a_state a) (delete p (a_mem a)).

Lemma with_none a : with_chans ∅ a = a.
Proof. unfold with_chans. rewrite (left_id_L ∅ (∪)). by destruct a. Qed.
Lemma with_no_blocks a : with_blocks ∅ a = a.
Proof. unfold with_blocks. rewrite (left_id_L ∅ (∪)). by destruct a. Qed.
Lemma on_chan_with p A m a : on_chan p A (with_chans m a) = with_chans (<[p := A]> m) a.
Proof. unfold on_chan, with_chans. simpl. by rewrite insert_union_l. Qed.
Lemma on_mem_with p b m a : on_mem p b (with_blocks m a) = with_blocks (<[p := b]> m) a.
Proof. unfold on_mem, with_blocks. simpl. by rewrite insert_union_l. Qed.
Lemma drop_chan_with p m a : a_chan a !! p = None -> drop_chan p (with_chans m a) = with_chans (delete p m) a.
Proof. intros Hp. unfold drop_chan, with_chans. simpl. rewrite delete_union. by rewrite (delete_id (a_chan a)). Qed.
Lemma drop_mem_with p m a : a_mem a !! p = None -> drop_mem p (with_blocks m a) = with_blocks (delete p m) a.
Proof. intros Hp. unfold drop_mem, with_blocks. simpl. rewrite delete_union. by rewrite (delete_id (a_mem a)). Qed.

Lemma awp_new_block p b a (Q : unit -> aheap -> Prop) : Q tt (on_mem p b a) -> awp (new_block p b) a Q.
Proof.
  intros HQ h R. eapply wp_eval; [done|]. eexists. split; [|exact HQ]. unfold on_mem. rewrite (r_mem _ _ R). by apply repr_mem.
Qed.
Lemma awp_free_block p b a (Q : unit -> aheap -> Prop) :
  p <> NULL -> a_mem a !! p = Some b -> Q tt (drop_mem p a) -> awp (free_block p) a Q.
Proof.
  intros Hp Hb HQ h R. unfold free_block. rewrite (proj2 (Z.eqb_neq _ _) Hp). unfold wp.
  rewrite <- (r_mem _ _ R), Hb. simpl. eexists. split; [|exact HQ]. by apply repr_mem.
Qed.

(** The objects [m], all of them [P], are those the table has for the keys [ks], each
    for one key. *)
Record owns {K V} (P : V -> Prop) (tab : K -> ptr) (ks : list K) (m : gmap ptr V) : Prop := {
  ow_dom : forall p, is_Some (m !! p) <-> p <> NULL /\ exists k, k ∈ ks /\ tab k = p;
  ow_each : map_Forall (fun _ => P) m;
  ow_once : forall k k', k ∈ ks -> k' ∈ ks -> tab k = tab k' -> tab k <> NULL -> k = k'
}.

Section owned.
Context {K V : Type} (P : V -> Prop).
Implicit Types (tab : K -> ptr) (m : gmap ptr V).

Lemma owns_nil tab m : owns P tab [] m -> m = ∅.
Proof.
  intros [H1 _ _]. apply map_empty. intros p. apply eq_None_not_Some. rewrite H1. intros (_ & k & Hk & _). by apply elem_of_nil in Hk.
Qed.

(** The first key's object goes, if it has one. *)
Lemma owns_drop_null tab k ks m : owns P tab (k :: ks) m -> tab k = NULL -> owns P tab ks m.
Proof.
  intros [H1 H2 H3] E. split; [|done|intros; apply H3; auto; by right].
  intros p. rewrite H1. split; intros (Hp & j & Hj & Ej); (split; [done|]); exists j; [|set_solver].
  apply elem_of_cons in Hj as [->|]; [congruence|done].
Qed.

Lemma owns_drop tab k ks m : k ∉ ks -> owns P tab (k :: ks) m -> tab k <> NULL -> owns P tab ks (delete (tab k) m).
Proof.
  intros Hk [H1 H2 H3] E. split; [|by apply map_Forall_delete|intros; apply H3; auto; by right].
  intros p. rewrite lookup_delete_is_Some, H1. split.
  - intros (Np & Hp & j & [->|Hj]%elem_of_cons & Ej); [congruence|eauto].
  - intros (Hp & j & Hj & Ej). split; [|split; [done|]; exists j; split; [by right|done]].
    intros Ekp. apply Hk. assert (k = j) as ->; [|done]. apply H3; [left|by right|congruence|done].
Qed.

Lemma owns_at tab k ks m : owns P tab ks m -> k ∈ ks -> tab k <> NULL -> exists A, m !! tab k = Some A /\ P A.
Proof. intros [H1 H2 _] Hk E. destruct (proj2 (H1 (tab k))) as [A HA]; [by eauto|]. exists A. split; [done|]. by apply (H2 _ _ HA). Qed.

(** The same objects in another state. *)
Lemma owns_same (P' : V -> Prop) tab ks m m' : owns P tab ks m -> dom m' = dom m -> map_Forall (fun _ => P') m' -> owns P' tab ks m'.
Proof.
  intros [H1 _ H3] Hd HP. split; [|done|done]. intros p. rewrite <- H1, <- !elem_of_dom. by rewrite Hd.
Qed.

Lemma owns_extend `{EqDecision K} tab ks m k p (A : V) :
  k ∉ ks -> owns P tab ks m -> p <> NULL -> m !! p = None -> P A -> owns P (<[k := p]> tab) (ks ++ [k]) (<[p := A]> m).
Proof.
  intros Hk [H1 H2 H3] Hp Hm HA.
  assert (forall j, j ∈ ks -> (<[k := p]> tab) j = tab j) as Hne
    by (intros j Hj; rewrite fn_lookup_insert_ne; [done|]; by intros ->).
  assert (forall j, j ∈ ks -> tab j <> p) as Hfree.
  { intros j Hj E. assert (is_Some (m !! p)) as [x Hx] by (apply H1; eauto). congruence. }
  split.
  - intros q. rewrite lookup_insert_is_Some, H1. split.
    + intros [<-|[_ (Hq & j & Hj & E)]].
      * split; [done|]. exists k. rewrite fn_lookup_insert. set_solver.
      * split; [done|]. exists j. rewrite Hne by done. set_solver.
    + intros (Hq & j & [Hj| ->%list_elem_of_singleton]%elem_of_app & E).
      * rewrite Hne in E by done. destruct (decide (p = q)); [by left|right]. eauto.
      * rewrite fn_lookup_insert in E. by left.
  - by apply map_Forall_insert_2.
  - intros j j' [Hj| ->%list_elem_of_singleton]%elem_of_app [Hj'| ->%list_elem_of_singleton]%elem_of_app;
      rewrite ?fn_lookup_insert, ?Hne by done; auto.
    + intros E. by destruct (Hfree j).
    + intros E. by destruct (Hfree j').
Qed.

Lemma owns_null `{EqDecision K} tab ks m k : k ∉ ks -> owns P tab ks m -> owns P (<[k := NULL]> tab) (ks ++ [k]) m.
Proof.
  intros Hk [H1 H2 H3].
  assert (forall j, j ∈ ks -> (<[k := NULL]> tab) j = tab j) as Hne
    by (intros j Hj; rewrite fn_lookup_insert_ne; [done|]; by intros ->).
  split; [|done|].
  - intros q. rewrite H1. split.
    + intros (Hq & j & Hj & E). split; [done|]. exists j. rewrite Hne by done. set_solver.
    + intros (Hq & j & [Hj| ->%list_elem_of_singleton]%elem_of_app & E).
      * rewrite Hne in E by done. eauto.
      * by rewrite fn_lookup_insert in E.
  - intros j j' [Hj| ->%list_elem_of_singleton]%elem_of_app [Hj'| ->%list_elem_of_singleton]%elem_of_app;
      rewrite ?fn_lookup_insert, ?Hne by done; auto; [|done]. intros E. by rewrite E.
Qed.

Lemma owns_elem tab ks ks' m : (forall k, k ∈ ks <-> k ∈ ks') -> owns P tab ks m -> owns P tab ks' m.
Proof.
  intros E [H1 H2 H3]. split; [|done|intros k k' Hk Hk'; apply H3; by apply E].
  intros p. rewrite H1. by setoid_rewrite E.
Qed.

(** Keys without an object may be added. *)
Lemma owns_more tab ks ks2 m : owns P tab ks m -> (forall k, k ∈ ks2 -> tab k = NULL) -> owns P tab (ks ++ ks2) m.
Proof.
  intros [H1 H2 H3] Hn. split; [|done|].
  - intros p. rewrite H1. split; intros (Hp & j & Hj & E); (split; [done|]); exists j; [set_solver|].
    apply elem_of_app in Hj as [Hj|Hj]; [done|]. rewrite Hn in E by done. congruence.
  - intros k k' [Hk|Hk]%elem_of_app [Hk'|Hk']%elem_of_app E Ne; try (rewrite Hn in E by done); try (rewrite Hn in Ne by done);
      auto; try done. rewrite E in Ne. by rewrite Hn in Ne.
Qed.
End owned.

(** Each pointer of the table is the allocator's answer for its key. *)
Definition from_answers {K} (answer : K -> option ptr) (tab : K -> ptr) (ks : list K) : Prop :=
  forall k, k ∈ ks -> tab k <> NULL -> answer k = Some (tab k).

(** What the allocator promises: addresses that are not in use, each given out once. *)
Definition fresh_answers {K V} (used : gmap ptr V) (answer : K -> option ptr) : Prop :=
  (forall k p, answer k = Some p -> p <> NULL /\ used !! p = None) /\
  forall k k' p, answer k = Some p -> answer k' = Some p -> k = k'.

Lemma answer_unowned {K V} (P : V -> Prop) (used : gmap ptr V) answer (tab : K -> ptr) ks m k p :
  fresh_answers used answer -> owns P tab ks m -> from_answers answer tab ks -> k ∉ ks -> answer k = Some p ->
  p <> NULL /\ m !! p = None /\ used !! p = None.
Proof.
  intros [Hf Ho] Hm Ha Hk Hp. destruct (Hf _ _ Hp) as [Hp0 Hu]. split; [done|]. split; [|done].
  apply eq_None_not_Some. rewrite (ow_dom _ _ _ _ Hm). intros (_ & j & Hj & E). apply Hk.
  assert (k = j) as ->; [|done]. eapply Ho; [exact Hp|]. subst p. by apply Ha.
Qed.

Lemma from_answers_snoc {K} `{EqDecision K} (answer : K -> option ptr) tab ks k p :
  from_answers answer tab ks -> k ∉ ks -> (p <> NULL -> answer k = Some p) -> from_answers answer (<[k := p]> tab) (ks ++ [k]).
Proof.
  intros Ha Hk Hp j [Hj| ->%list_elem_of_singleton]%elem_of_app.
  - rewrite fn_lookup_insert_ne by (by intros ->). auto.
  - rewrite fn_lookup_insert. done.
Qed.

Section channels.
Context {K : Type} `{EqK : EqDecision K} (a : aheap).

(** Destroying the channels of a list. *)
Lemma destroy_all_awp ks : forall (tab : K -> ptr) (ks2 : list K) (m : gmap ptr achan), NoDup (ks ++ ks2) -> owns unused tab (ks ++ ks2) m ->
  (forall p, is_Some (m !! p) -> a_chan a !! p = None) ->
  awp (destroy_all ks tab) (with_chans m a) (fun _ b => exists m', b = with_chans m' a /\ owns unused tab ks2 m' /\ m' ⊆ m).
Proof.
  induction ks as [|k ks IH]; intros tab ks2 m Hn Hm Hf; simpl; [apply awp_ret; eauto|].
  apply NoDup_cons in Hn as [Hk Hn]. apply awp_bind. unfold chan_destroy_null.
  destruct (Z.eqb_spec (tab k) NULL) as [E|E].
  - apply awp_ret, IH; [done|by eapply owns_drop_null|done].
  - destruct (owns_at _ _ k _ _ Hm ltac:(left) E) as (A & HA & Esq & Erq & Er & Hok).
    eapply chan_destroy_awp; [done|apply lookup_union_Some_l; exact HA|apply Hok|lia|].
    rewrite Er, Esq, Erq. simpl. rewrite drop_chan_with by (apply Hf; eauto).
    eapply awp_mono; [apply (IH tab ks2 (delete (tab k) m)); [done|by apply owns_drop|]|].
    + intros p [B HB]. apply lookup_delete_Some in HB as [_ HB]. apply Hf. eauto.
    + intros _ b (m' & -> & Hm' & Hs). exists m'. split; [done|]. split; [done|]. etrans; [exact Hs|apply delete_subseteq].
Qed.

Context (calloc : K -> option ptr) (create : K -> M ptr) (refused : K -> Prop).
Hypothesis calloc_fresh : fresh_answers (a_chan a) calloc.

(** What creating does: nothing, when memory is refused, or one new channel at the
    address granted. *)
Hypothesis create_one : forall k b,
  (forall p, calloc k = Some p -> a_chan b !! p = None) ->
  awp (create k) b (fun r b' => (r = NULL /\ b' = b /\ refused k) \/
    exists A, calloc k = Some r /\ brand_new A /\ b' = on_chan r A b).

(** Creating the channels of a list. *)
Lemma create_all_awp ks : forall (tab : K -> ptr) (ks0 : list K) (m : gmap ptr achan), NoDup (ks0 ++ ks) -> owns brand_new tab ks0 m -> from_answers calloc tab ks0 ->
  awp (create_all create ks tab) (with_chans m a) (fun tab' b =>
    exists m', b = with_chans m' a /\ owns brand_new tab' (ks0 ++ ks) m' /\ from_answers calloc tab' (ks0 ++ ks) /\
      (forall k, k ∉ ks -> tab' k = tab k) /\ (forall k, k ∈ ks -> tab' k = NULL -> refused k)).
Proof.
  induction ks as [|k ks IH]; intros tab ks0 m Hn Hm Ha; simpl.
  - apply awp_ret. exists m. rewrite app_nil_r. do 4 (split; [done|]). by intros k Hk%elem_of_nil.
  - assert (ks0 ++ k :: ks = (ks0 ++ [k]) ++ ks) as Ea by (by rewrite <- app_assoc). rewrite Ea in Hn |- *. pose proof Hn as (Hn0 & _)%NoDup_app.
    apply NoDup_app in Hn0 as (_ & Hk & _). assert (k ∉ ks0) as Hk0 by (intros Hk'; apply (Hk k Hk'); left).
    apply awp_bind. eapply awp_mono; [apply create_one|].
    + intros p Hp. destruct (answer_unowned _ _ _ _ _ _ _ _ calloc_fresh Hm Ha Hk0 Hp) as (_ & ? & ?). by apply lookup_union_None.
    + intros r b Hr.
      assert (r = NULL -> refused k) as Href.
      { destruct Hr as [(_ & _ & ?)|(A & Hc & _)]; [done|]. intros ->. by destruct (proj1 calloc_fresh _ _ Hc). }
      assert (exists m1, b = with_chans m1 a /\ owns brand_new (<[k := r]> tab) (ks0 ++ [k]) m1 /\
        from_answers calloc (<[k := r]> tab) (ks0 ++ [k])) as (m1 & -> & Hm1 & Ha1).
      { destruct Hr as [(-> & -> & _)|(A & Hc & HA & ->)].
        - exists m. split; [done|]. split; [by apply owns_null|by apply from_answers_snoc].
        - destruct (answer_unowned _ _ _ _ _ _ _ _ calloc_fresh Hm Ha Hk0 Hc) as (? & ? & ?).
          exists (<[r := A]> m). split; [apply on_chan_with|]. split; [by apply owns_extend|by apply from_answers_snoc]. }
      eapply awp_mono; [by apply IH|]. intros tab' b' (m' & -> & Hm' & Ha' & Ho & Hrs). exists m'.
      do 3 (split; [done|]). split.
      * intros j [Nj Hj]%not_elem_of_cons. rewrite Ho by done. by rewrite fn_lookup_insert_ne.
      * intros j [->|Hj]%elem_of_cons; [|by apply Hrs]. rewrite Ho; [by rewrite fn_lookup_insert|].
        pose proof Hn as (_ & Hd & _)%NoDup_app. apply Hd. set_solver.
Qed.
End channels.

(** [chan_create] and [chan_create_spsc] at the sizes the examples use. *)
Lemma create_granted `{Malloc} (c : option ptr) es cap spsc b :
  0 < cap <= 2147483648 -> 0 < es -> next_pow2 cap * es < two64 ->
  (forall p, c = Some p -> p <> NULL /\ a_chan b !! p = None) ->
  awp (chan_create_impl c es cap spsc) b (fun r b' =>
    (r = NULL /\ b' = b /\ (c = None \/ malloc (next_pow2 cap * es) = None)) \/
    exists A, c = Some r /\ brand_new A /\ b' = on_chan r A b).
Proof.
  intros Hcap Hes Hfit Hp. destruct c as [p|].
  - destruct (Hp p eq_refl) as [Hp0 Hf]. apply create_awp; try done; try lia.
    + intros slots _ Hs. right. eexists. split; [done|]. split; [|done]. do 5 (split; [done|]).
      intros b'. apply new_achan_ok; lia.
    + intros _ Hm. left. auto.
  - unfold chan_create_impl. rewrite (proj2 (Z.eqb_neq es 0)) by lia. apply awp_ret. left. auto.
Qed.

(** ** The latency arrays *)

(** The pointers of the arrays, in the order of allocation. *)
Definition lat_keys_of (ps : list path_id_t) : list (path_id_t * lat_array) := ps ≫= fun i => [(i, send_ts); (i, samples)].
Definition lat_keys : list (path_id_t * lat_array) := lat_keys_of all_paths.

Section lat_blocks.
Context (a : aheap).
#[local] Notation owned := (owns (fun _ : list byte => True)) (only parsing).

Lemma free_block_awp {K} (tab : K -> ptr) k ks m (Q : unit -> aheap -> Prop) :
  k ∉ ks -> owned tab (k :: ks) m -> (forall p, is_Some (m !! p) -> a_mem a !! p = None) ->
  (owned tab ks (delete (tab k) m) -> Q tt (with_blocks (delete (tab k) m) a)) -> awp (free_block (tab k)) (with_blocks m a) Q.
Proof.
  intros Hk Hm Hf HQ. destruct (decide (tab k = NULL)) as [E|E].
  - unfold free_block. rewrite (proj2 (Z.eqb_eq _ _) E). apply awp_ret.
    rewrite E, delete_id in HQ; [by apply HQ, (owns_drop_null _ _ k)|].
    apply eq_None_not_Some. rewrite (ow_dom _ _ _ _ Hm). by intros [? _].
  - destruct (owns_at _ _ k _ _ Hm ltac:(left) E) as (b & Hb & _).
    eapply awp_free_block; [done|apply lookup_union_Some_l; exact Hb|]. rewrite drop_mem_with by (apply Hf; eauto).
    apply HQ. by apply owns_drop.
Qed.

Lemma delete_fresh (m : gmap ptr (list byte)) q :
  (forall p, is_Some (m !! p) -> a_mem a !! p = None) -> forall p, is_Some (delete q m !! p) -> a_mem a !! p = None.
Proof. intros Hf p [_ Hp]%lookup_delete_is_Some. auto. Qed.

(** [latency_ctx_free] gives back the blocks of the table. *)
Lemma latency_free_awp ps : forall (tab : lat_ptrs) (m : gmap ptr (list byte)), NoDup (lat_keys_of ps) -> owned tab (lat_keys_of ps) m ->
  (forall p, is_Some (m !! p) -> a_mem a !! p = None) ->
  awp (latency_paths_free ps tab) (with_blocks m a) (fun _ b => b = a).
Proof.
  induction ps as [|i ps IH]; intros tab m Hn Hm Hf.
  - rewrite (owns_nil _ _ _ Hm). apply awp_ret, with_no_blocks.
  - apply NoDup_cons in Hn as [Hk1 Hn]. pose proof Hn as [Hk2 Hn']%NoDup_cons. simpl.
    apply awp_bind. eapply free_block_awp; [exact Hk1|exact Hm|done|]. intros Hm1.
    apply awp_bind. eapply free_block_awp; [exact Hk2|exact Hm1|by apply delete_fresh|]. intros Hm2.
    apply IH; [done|done|]. by do 2 apply delete_fresh.
Qed.

(** A [realloc] leaves the table the owner of its blocks. *)
Lemma latency_resize_awp ctx k bytes p m :
  k ∈ lat_keys -> owned ctx lat_keys m -> (forall q, is_Some (m !! q) -> a_mem a !! q = None) ->
  (forall q, p = Some q -> q <> NULL /\ delete (ctx k) m !! q = None /\ a_mem a !! q = None) ->
  awp (latency_resize ctx k bytes p) (with_blocks m a) (fun r b => exists m', b = with_blocks m' a /\
    owned r.2 lat_keys m' /\ (forall q, is_Some (m' !! q) -> a_mem a !! q = None)).
Proof.
  intros Hk Hm Hf Hp. destruct p as [q|]; [|apply awp_ret; by exists m].
  destruct (Hp q eq_refl) as (Hq0 & Hqm & Hqa).
  assert (k ∉ filter (.≠ k) lat_keys) as Hrest by (by intros [? _]%list_elem_of_filter).
  apply (owns_elem _ _ _ (k :: filter (.≠ k) lat_keys)) in Hm.
  2:{ intros j. rewrite elem_of_cons, list_elem_of_filter. destruct (decide (j = k)) as [->|]; naive_solver. }
  simpl. apply awp_bind. eapply free_block_awp; [exact Hrest|exact Hm|done|]. intros Hm1.
  apply awp_bind, awp_new_block, awp_ret. eexists. split; [apply on_mem_with|]. split; [|].
  - simpl. eapply owns_elem; [|by apply owns_extend].
    intros j. rewrite elem_of_app, list_elem_of_filter, list_elem_of_singleton. destruct (decide (j = k)) as [->|]; naive_solver.
  - intros r [<-|[_ Hr]]%lookup_insert_is_Some; [done|]. eapply delete_fresh; [exact Hf|exact Hr].
Qed.

(** The answers of [calloc] and [malloc] in the order of the calls, if all are made,
    and those granted before the first refusal. *)
Definition lat_answers (answer : path_id_t * lat_array -> option ptr) (enabled : path_id_t -> bool) (hint : Z) (ps : list path_id_t)
  : list (option ptr) :=
  ps ≫= fun i => if enabled i then [calloc_answer hint 8 (answer (i, send_ts)); answer (i, samples)] else [].
Fixpoint granted (l : list (option ptr)) : list ptr :=
  match l with Some p :: l => p :: granted l | _ => [] end.
Definition all_granted (l : list (option ptr)) : bool := forallb (fun x => negb (bool_decide (x = None))) l.

Context (answer : path_id_t * lat_array -> option ptr) (garbage : path_id_t -> list byte) (enabled : path_id_t -> bool) (hint : Z).
Hypothesis Hans : fresh_answers (a_mem a) answer.

(** One allocation for the key [k]. *)
Definition lat_state (ks : list (path_id_t * lat_array)) (ctx : lat_ptrs) (m : gmap ptr (list byte)) : Prop :=
  owned ctx ks m /\ from_answers answer ctx ks /\ (forall p, is_Some (m !! p) -> a_mem a !! p = None).

Lemma lat_state_refused ks ctx m k : k ∉ ks -> lat_state ks ctx m -> lat_state (ks ++ [k]) (<[k := NULL]> ctx) m.
Proof. intros Hk (H1 & H2 & H3). split; [by apply owns_null|]. split; [by apply from_answers_snoc|done]. Qed.

Lemma lat_state_granted ks ctx m k p : k ∉ ks -> lat_state ks ctx m -> answer k = Some p ->
  p <> NULL /\ forall b, lat_state (ks ++ [k]) (<[k := p]> ctx) (<[p := b]> m).
Proof.
  intros Hk (H1 & H2 & H3) Hp. destruct (answer_unowned _ _ _ _ _ _ _ _ Hans H1 H2 Hk Hp) as (Hp0 & Hm & Hu).
  split; [done|]. intros b. split; [by apply owns_extend|]. split; [by apply from_answers_snoc|].
  intros q [<-|[_ Hq]]%lookup_insert_is_Some; auto.
Qed.

Lemma lat_state_more ks ks2 ctx m : lat_state ks ctx m -> (forall k, k ∈ ks2 -> ctx k = NULL) -> lat_state (ks ++ ks2) ctx m.
Proof.
  intros (H1 & H2 & H3) Hn. split; [by apply owns_more|]. split; [|done].
  intros k [Hk|Hk]%elem_of_app E; [by apply H2|]. by rewrite Hn in E.
Qed.

(** [latency_ctx_init]: it owns the blocks granted before the first refusal. *)
Lemma latency_init_awp ps : forall ks ctx m, NoDup (ks ++ lat_keys_of ps) -> lat_state ks ctx m ->
  (forall k, k ∈ lat_keys_of ps -> ctx k = NULL) ->
  awp (latency_paths_init answer garbage enabled hint ps ctx) (with_blocks m a) (fun r b => exists m',
    b = with_blocks m' a /\ lat_state (ks ++ lat_keys_of ps) r.2 m' /\
    dom m' = dom m ∪ list_to_set (granted (lat_answers answer enabled hint ps)) /\
    r.1 = all_granted (lat_answers answer enabled hint ps)).
Proof.
  induction ps as [|i ps IH]; intros ks ctx m Hn Hs Hnull; simpl.
  { apply awp_ret. exists m. rewrite app_nil_r. split; [done|]. split; [done|]. simpl. set_solver. }
  change (lat_keys_of (i :: ps)) with ((i, send_ts) :: (i, samples) :: lat_keys_of ps) in *.
  assert (forall k l, ks ++ k :: l = (ks ++ [k]) ++ l) as Ea by (intros; by rewrite <- app_assoc).
  assert ((i, send_ts) ∉ ks /\ (i, samples) ∉ ks ++ [(i, send_ts)] /\ NoDup (((ks ++ [(i, send_ts)]) ++ [(i, samples)]) ++ lat_keys_of ps) /\
    (forall k, k ∈ lat_keys_of ps -> k <> (i, send_ts) /\ k <> (i, samples))) as (Hk1 & Hk2 & Hn' & Hne).
  { rewrite <- !app_assoc. simpl. apply NoDup_app in Hn as (N1 & N2 & N3). apply NoDup_cons in N3 as [N3 N4]. pose proof N4 as [N5 _]%NoDup_cons.
    split; [intros H; by apply (N2 _ H); left|]. split; [|split].
    - rewrite elem_of_app, list_elem_of_singleton. intros [H|H]; [apply (N2 _ H); set_solver|done].
    - apply NoDup_app. split; [done|]. split; [done|]. by constructor.
    - set_solver. }
  unfold lat_answers. simpl. fold (lat_answers answer enabled hint ps).
  destruct (enabled i).
  - unfold calloc_block. destruct (calloc_answer hint 8 (answer (i, send_ts))) as [p|] eqn:Ep.
    + assert (answer (i, send_ts) = Some p) as Ep' by (unfold calloc_answer in Ep; by destruct (_ <? _)).
      destruct (lat_state_granted ks ctx m (i, send_ts) p Hk1 Hs Ep') as [Hp0 Hs1].
      apply awp_bind, awp_bind, awp_new_block, awp_ret. rewrite on_mem_with. rewrite (proj2 (Z.eqb_neq _ _) Hp0).
      set (b1 := replicate _ _). specialize (Hs1 b1).
      unfold malloc_block. destruct (answer (i, samples)) as [q|] eqn:Eq.
      * destruct (lat_state_granted _ _ _ (i, samples) q Hk2 Hs1 Eq) as [Hq0 Hs2].
        apply awp_bind, awp_bind, awp_new_block, awp_ret. rewrite on_mem_with. rewrite (proj2 (Z.eqb_neq _ _) Hq0).
        eapply awp_mono; [apply (IH _ _ _ Hn' (Hs2 (garbage i)))|].
        -- intros k Hk. destruct (Hne k Hk). rewrite !fn_lookup_insert_ne by done. apply Hnull. set_solver.
        -- intros r b (m' & -> & Hs' & Hd & Hr). exists m'. split; [done|].
           split; [by rewrite Ea, (cons_middle (i, samples)), app_assoc|]. split; [|done]. rewrite Hd, !dom_insert_L. simpl. set_solver.
      * apply awp_bind, awp_ret. simpl. apply awp_ret. eexists. split; [done|]. split; [|split; [|done]].
        -- rewrite Ea, (cons_middle (i, samples)), app_assoc. apply lat_state_more; [by apply lat_state_refused|].
           intros k Hk. destruct (Hne k Hk). simpl. rewrite !fn_lookup_insert_ne by done. apply Hnull. set_solver.
        -- rewrite dom_insert_L. simpl. set_solver.
    + apply awp_bind, awp_ret. simpl. apply awp_ret. exists m. split; [done|]. split; [|split; [simpl; set_solver|done]].
      rewrite Ea. apply lat_state_more; [by apply lat_state_refused|].
      intros k Hk. simpl. destruct (decide (k = (i, send_ts))) as [->|Hk']; [by rewrite fn_lookup_insert|].
      rewrite fn_lookup_insert_ne by done. apply Hnull. set_solver.
  - eapply awp_mono; [apply (IH ((ks ++ [(i, send_ts)]) ++ [(i, samples)]) ctx m Hn')|].
    + do 2 (apply lat_state_more; [|intros k ->%list_elem_of_singleton; apply Hnull; set_solver]). done.
    + intros k Hk. apply Hnull. set_solver.
    + intros r b (m' & -> & Hs' & Hd & Hr). exists m'. split; [done|]. split; [|done].
      by rewrite Ea, (cons_middle (i, samples)), app_assoc.
Qed.
End lat_blocks.

(** ** The start and the end of [main] *)

Lemma brand_new_unused A : brand_new A -> unused A.
Proof. by intros (_ & _ & ? & ? & ? & ?). Qed.
Lemma owns_unused {K} (tab : K -> ptr) keys m : owns brand_new tab keys m -> owns unused tab keys m.
Proof.
  intros Hm. eapply owns_same; [exact Hm|done|]. eapply map_Forall_impl; [apply (ow_each _ _ _ _ Hm)|]. intros p A. apply brand_new_unused.
Qed.

(** How the start of [main] can go, for the channels [keys] and the latency arrays
    whose allocations answer [answers], from the memory [a].
    - A channel is [refused] its memory: it returns 1 and the memory is as before.
    - A latency array is refused: it returns 1, the channels and their rings are gone,
      and the arrays granted before the refusal stay allocated, with nobody left to
      free them.
    - Otherwise there is a brand-new channel for each key and a block for each array
      asked for.  When the run is over, nobody is inside the channels, which may be
      closed and hold messages, and the arrays may have been moved by [realloc]; then
      the end of [main] gives everything back. *)
Definition setup_outcome {K} (keys : list K) (refused : K -> Prop) (answers : list (option ptr)) (a : aheap)
    (finish : (K -> ptr) -> lat_ptrs -> M unit) (r : option ((K -> ptr) * lat_ptrs)) (h' : heap) : Prop :=
  match r with
  | None =>
      (repr h' a /\ exists k, k ∈ keys /\ refused k) \/
      (all_granted answers = false /\ exists bl, dom bl = list_to_set (granted answers) /\ repr h' (with_blocks bl a))
  | Some (tab, ctx) =>
      all_granted answers = true /\
      exists m bl, repr h' (with_chans m (with_blocks bl a)) /\
        owns brand_new tab keys m /\ (forall k, k ∈ keys -> tab k <> NULL) /\
        owns (fun _ => True) ctx lat_keys bl /\ dom bl = list_to_set (granted answers) /\
        forall m1 bl1 ctx1 h1, dom m1 = dom m -> map_Forall (fun _ => unused) m1 ->
          owns (fun _ => True) ctx1 lat_keys bl1 -> (forall p, is_Some (bl1 !! p) -> a_mem a !! p = None) ->
          repr h1 (with_chans m1 (with_blocks bl1 a)) ->
          exists h2, finish tab ctx1 h1 = Ret (tt, h2) /\ repr h2 a
  end.

Lemma all_there_true {K} (ks : list K) tab : all_there ks tab = true <-> forall k, k ∈ ks -> tab k <> NULL.
Proof.
  unfold all_there. rewrite forallb_forall. split; intros H k Hk.
  - apply Z.eqb_neq, negb_true_iff, H, list_elem_of_In, Hk.
  - apply negb_true_iff, Z.eqb_neq, H, list_elem_of_In, Hk.
Qed.
Lemma all_there_false {K} (ks : list K) tab : all_there ks tab = false -> exists k, k ∈ ks /\ tab k = NULL.
Proof.
  unfold all_there. induction ks as [|k ks IH]; simpl; [done|].
  destruct (Z.eqb_spec (tab k) NULL) as [E|E]; simpl; [exists k; split; [left|done]|].
  intros (j & Hj & Ej)%IH. exists j. split; [by right|done].
Qed.

Section setup.
Context (a : aheap) (answer : path_id_t * lat_array -> option ptr) (garbage : path_id_t -> list byte)
  (enabled : path_id_t -> bool) (hint : Z).
Hypothesis Hans : fresh_answers (a_mem a) answer.
#[local] Notation lat := (latency_blocks_init answer garbage enabled hint).
#[local] Notation answers := (lat_answers answer enabled hint all_paths).

Lemma lat_names : NoDup lat_keys.
Proof. apply (bool_decide_unpack _). vm_compute. exact I. Qed.

(** [latency_ctx_init] beside the channels [m]. *)
Lemma latency_ctx_awp m (Q : bool * lat_ptrs -> aheap -> Prop) :
  (forall ctx bl, owns (fun _ => True) ctx lat_keys bl -> (forall p, is_Some (bl !! p) -> a_mem a !! p = None) ->
     dom bl = list_to_set (granted answers) -> Q (all_granted answers, ctx) (with_chans m (with_blocks bl a))) ->
  awp lat (with_chans m a) Q.
Proof.
  intros HQ. rewrite <- (with_no_blocks (with_chans m a)).
  eapply awp_mono; [apply (latency_init_awp (with_chans m a) answer garbage enabled hint Hans all_paths [] (fun _ => NULL) ∅ lat_names)|].
  - split; [|split; [by intros k ?%elem_of_nil|by intros p [? ?]]]. split.
    + intros p. rewrite lookup_empty. split; [by intros []|]. intros (_ & k & Hk & _). by apply elem_of_nil in Hk.
    + apply map_Forall_empty.
    + by intros k k' Hk%elem_of_nil.
  - done.
  - intros [ok ctx] b (bl & -> & (H1 & _ & H3) & Hd & Eok). simpl in Eok. subst ok.
    apply HQ; [exact H1|exact H3|]. rewrite Hd, dom_empty_L. set_solver.
Qed.

(** The end of [main] on a table of channels and the arrays. *)
Lemma finish_awp {K} `{EqDecision K} (keys : list K) (tear : (K -> ptr) -> M unit) tab m m1 bl1 ctx1 h1 :
  (forall m bl, owns unused tab keys m -> (forall p, is_Some (m !! p) -> a_chan a !! p = None) ->
     awp (tear tab) (with_chans m (with_blocks bl a)) (fun _ b => b = with_blocks bl a)) ->
  owns brand_new tab keys m -> (forall p, is_Some (m !! p) -> a_chan a !! p = None) ->
  dom m1 = dom m -> map_Forall (fun _ => unused) m1 ->
  owns (fun _ => True) ctx1 lat_keys bl1 -> (forall p, is_Some (bl1 !! p) -> a_mem a !! p = None) ->
  repr h1 (with_chans m1 (with_blocks bl1 a)) ->
  exists h2, (tear tab;; latency_ctx_free ctx1) h1 = Ret (tt, h2) /\ repr h2 a.
Proof.
  intros Ht Hm Hf Hd Hu Hl Hlf R.
  assert (awp (tear tab;; latency_ctx_free ctx1) (with_chans m1 (with_blocks bl1 a)) (fun _ b => b = a)) as Hw.
  { apply awp_bind. eapply awp_mono; [apply Ht|].
    - by eapply owns_same.
    - intros p Hp. apply Hf. by rewrite <- elem_of_dom, <- Hd, elem_of_dom.
    - intros _ b ->. by apply latency_free_awp; [apply lat_names| |]. }
  destruct (awp_run _ _ _ h1 Hw R) as ([] & h2 & b & E & R2 & ->). eauto.
Qed.

Lemma owns_fresh {K} (P : achan -> Prop) (calloc : K -> option ptr) tab keys m :
  fresh_answers (a_chan a) calloc -> owns P tab keys m -> from_answers calloc tab keys ->
  forall p, is_Some (m !! p) -> a_chan a !! p = None.
Proof.
  intros [Hf _] Hm Ha p Hp. apply (ow_dom _ _ _ _ Hm) in Hp as (Hp & k & Hk & <-). by eapply Hf, Ha.
Qed.

Lemma owns_start {K V} (P : V -> Prop) : owns P (fun _ : K => NULL) [] ∅.
Proof.
  split; [|apply map_Forall_empty|by intros k k' Hk%elem_of_nil].
  intros p. rewrite lookup_empty. split; [by intros []|]. intros (_ & k & Hk & _). by apply elem_of_nil in Hk.
Qed.

Lemma spsc_names : NoDup (link_ports ++ test_io).
Proof. apply (bool_decide_unpack _). vm_compute. exact I. Qed.
Lemma box_names : NoDup boxes.
Proof. apply (bool_decide_unpack _). vm_compute. exact I. Qed.

(** [links_destroy] and [test_io_destroy], and [inboxes_destroy]. *)
Lemma spsc_teardown_awp b tab m : owns unused tab (link_ports ++ test_io) m -> (forall p, is_Some (m !! p) -> a_chan b !! p = None) ->
  awp (spsc_teardown tab) (with_chans m b) (fun _ b' => b' = b).
Proof.
  intros Hm Hf. unfold spsc_teardown. apply awp_bind.
  eapply awp_mono; [by apply (destroy_all_awp b link_ports tab test_io m spsc_names Hm)|].
  intros _ b' (m1 & -> & Hm1 & Hs). pose proof spsc_names as (_ & _ & Hn)%NoDup_app.
  eapply awp_mono; [apply (destroy_all_awp b test_io tab [] m1); rewrite ?app_nil_r; [exact Hn|exact Hm1|]|].
  - intros p [A HA]. apply Hf. exists A. by eapply lookup_weaken.
  - intros _ b' (m2 & -> & Hm2 & _). rewrite (owns_nil _ _ _ Hm2). apply with_none.
Qed.

Lemma inboxes_destroy_awp b tab m : owns unused tab boxes m -> (forall p, is_Some (m !! p) -> a_chan b !! p = None) ->
  awp (inboxes_destroy tab) (with_chans m b) (fun _ b' => b' = b).
Proof.
  intros Hm Hf. eapply awp_mono; [apply (destroy_all_awp b boxes tab [] m); rewrite ?app_nil_r; [apply box_names|done|done]|].
  intros _ b' (m2 & -> & Hm2 & _). rewrite (owns_nil _ _ _ Hm2). apply with_none.
Qed.
End setup.

(** When the creation of a channel fails. *)
Definition spsc_refused (mem : place port sink -> Malloc) (calloc : place port sink -> option ptr) (k : place port sink) : Prop :=
  calloc k = None \/
  @malloc (mem k) (next_pow2 CHAN_CAP * match k with AtPort _ => sizeof_pkt_t | AtSink _ => sizeof_done_msg_t end) = None.
Definition box_refused (mem : place inbox done_box -> Malloc) (calloc : place inbox done_box -> option ptr) (k : place inbox done_box) : Prop :=
  calloc k = None \/
  @malloc (mem k) (match k with
                   | AtPort q => next_pow2 (c_port inbox_caps q) * sizeof_pkt_t
                   | AtSink d => next_pow2 (c_sink inbox_caps d) * sizeof_done_msg_t
                   end) = None.

Section both.
Context (a : aheap) (answer : path_id_t * lat_array -> option ptr) (garbage : path_id_t -> list byte)
  (enabled : path_id_t -> bool) (hint : Z).
Hypothesis Hans : fresh_answers (a_mem a) answer.
#[local] Notation lat := (latency_blocks_init answer garbage enabled hint).
#[local] Notation answers := (lat_answers answer enabled hint all_paths).

Lemma spsc_create_one mem calloc k b : fresh_answers (a_chan a) calloc ->
  (forall p, calloc k = Some p -> a_chan b !! p = None) ->
  awp (spsc_create mem calloc k) b (fun r b' => (r = NULL /\ b' = b /\ spsc_refused mem calloc k) \/
    exists A, calloc k = Some r /\ brand_new A /\ b' = on_chan r A b).
Proof.
  intros [Hf _] Hb. assert (forall p, calloc k = Some p -> p <> NULL /\ a_chan b !! p = None) as Hk
    by (intros p E; split; [by eapply Hf|by apply Hb]).
  destruct k; by apply create_granted.
Qed.

Lemma box_create_one mem calloc k b : fresh_answers (a_chan a) calloc ->
  (forall p, calloc k = Some p -> a_chan b !! p = None) ->
  awp (box_create mem calloc k) b (fun r b' => (r = NULL /\ b' = b /\ box_refused mem calloc k) \/
    exists A, calloc k = Some r /\ brand_new A /\ b' = on_chan r A b).
Proof.
  intros [Hf _] Hb. assert (forall p, calloc k = Some p -> p <> NULL /\ a_chan b !! p = None) as Hk
    by (intros p E; split; [by eapply Hf|by apply Hb]).
  destruct k as [[]|[]]; by apply create_granted.
Qed.

(** The end of the set-up once the channels are there: the arrays, and the way out
    when they are refused. *)
Lemma setup_latency {K} `{EqDecision K} (keys : list K) refused (tear : (K -> ptr) -> M unit) tab m calloc
    (Q : option ((K -> ptr) * lat_ptrs) -> aheap -> Prop) :
  (forall b tab m, owns unused tab keys m -> (forall p, is_Some (m !! p) -> a_chan b !! p = None) ->
     awp (tear tab) (with_chans m b) (fun _ b' => b' = b)) ->
  fresh_answers (a_chan a) calloc -> owns brand_new tab keys m -> from_answers calloc tab keys -> all_there keys tab = true ->
  (forall r b, (forall h', repr h' b -> setup_outcome keys refused answers a (fun tab ctx => tear tab;; latency_ctx_free ctx) r h') -> Q r b) ->
  awp ('(ok, ctx) ← lat; if (ok : bool) then mret (Some (tab, ctx)) else tear tab;; mret None) (with_chans m a) Q.
Proof using Hans.
  intros Ht Hc Hm Ha He HQ. pose proof (owns_fresh a _ _ _ _ _ Hc Hm Ha) as Hf.
  pose proof (owns_unused _ _ _ Hm) as Hu.
  apply awp_bind, (latency_ctx_awp a answer garbage enabled hint Hans m). intros ctx bl Hl Hlf Hd.
  destruct (all_granted answers) eqn:Eg.
  - apply awp_ret, HQ. intros h' R. split; [done|]. exists m, bl. do 2 (split; [done|]). split; [by apply all_there_true|]. do 2 (split; [done|]).
    intros m1 bl1 ctx1 h1 Hd1 Hu1 Hl1 Hf1 R1. eapply (finish_awp a keys tear tab m m1 bl1); try done.
    intros m0 bl0 Hm0 Hf0. by apply (Ht (with_blocks bl0 a)).
  - apply awp_bind. eapply awp_mono; [by apply (Ht (with_blocks bl a) tab m)|]. intros _ b ->. apply awp_ret, HQ.
    intros h' R. right. eauto.
Qed.

Lemma spsc_setup_outcome mem calloc h : repr h a -> fresh_answers (a_chan a) calloc ->
  exists r h', spsc_setup mem calloc lat h = Ret (r, h') /\
    setup_outcome (link_ports ++ test_io) (spsc_refused mem calloc) answers a spsc_end r h'.
Proof using Hans.
  intros R Hc. pose proof spsc_names as Hn.
  set (P := setup_outcome (link_ports ++ test_io) (spsc_refused mem calloc) answers a spsc_end).
  cut (awp (spsc_setup mem calloc lat) a (fun r b => forall h', repr h' b -> P r h')).
  { intros Hw. destruct (awp_run _ _ _ h Hw R) as (r & h' & b & E & R' & HP). eauto. }
  assert (forall tab m k, owns brand_new tab (link_ports ++ test_io) m -> from_answers calloc tab (link_ports ++ test_io) ->
    k ∈ link_ports ++ test_io -> spsc_refused mem calloc k ->
    awp (spsc_teardown tab;; mret None) (with_chans m a) (fun r b => forall h', repr h' b -> P r h')) as Hfail.
  { intros tab m k Hm Ha Hk Hr. apply awp_bind. eapply awp_mono; [apply (spsc_teardown_awp a tab m)|].
    - by apply owns_unused.
    - by eapply owns_fresh.
    - intros _ b ->. apply awp_ret. intros h' R'. left. eauto. }
  unfold spsc_setup, links_init, test_io_init. rewrite <- (with_none a) at 1. apply awp_bind, awp_bind.
  eapply awp_mono; [apply (create_all_awp a calloc (spsc_create mem calloc) (spsc_refused mem calloc) Hc
    (fun k b => spsc_create_one mem calloc k b Hc) link_ports (fun _ => NULL) [] ∅)|].
  { by pose proof Hn as (? & _)%NoDup_app. }
  { apply owns_start. }
  { by intros k ?%elem_of_nil. }
  intros tab b (m & -> & Hm & Ha & Hold & Hrf). apply awp_ret. simpl in Hm, Ha. destruct (all_there link_ports tab) eqn:E1.
  - apply awp_bind, awp_bind. eapply awp_mono; [apply (create_all_awp a calloc (spsc_create mem calloc) (spsc_refused mem calloc) Hc
      (fun k b => spsc_create_one mem calloc k b Hc) test_io tab link_ports m Hn Hm Ha)|].
    intros tab2 b (m2 & -> & Hm2 & Ha2 & Hold2 & Hrf2). apply awp_ret. destruct (all_there test_io tab2) eqn:E2.
    + eapply (setup_latency (link_ports ++ test_io) (spsc_refused mem calloc) spsc_teardown); try done; [apply spsc_teardown_awp|].
      rewrite all_there_true in E1, E2 |- *. intros k [Hk|Hk]%elem_of_app; [|by apply E2]. rewrite Hold2; [by apply E1|].
      intros Hk'. apply NoDup_app in Hn as (_ & Hd & _). by apply (Hd k).
    + apply all_there_false in E2 as (k & Hk & Ek). eapply Hfail; [done|done| |by apply Hrf2]. apply elem_of_app. by right.
  - apply all_there_false in E1 as (k & Hk & Ek). apply awp_bind, awp_ret.
    assert (forall j, j ∈ test_io -> tab j = NULL) as Hj.
    { intros j Hj. rewrite Hold; [done|]. intros Hj'. apply NoDup_app in Hn as (_ & Hd & _). by apply (Hd j). }
    eapply (Hfail _ _ k); [by apply owns_more| |apply elem_of_app; by left|by apply Hrf].
    intros j [?|?]%elem_of_app ?; [by apply Ha|]. by rewrite Hj in *.
Qed.

Lemma mpsc_setup_outcome mem calloc h : repr h a -> fresh_answers (a_chan a) calloc ->
  exists r h', mpsc_setup mem calloc lat h = Ret (r, h') /\
    setup_outcome boxes (box_refused mem calloc) answers a mpsc_end r h'.
Proof using Hans.
  intros R Hc. set (P := setup_outcome boxes (box_refused mem calloc) answers a mpsc_end).
  cut (awp (mpsc_setup mem calloc lat) a (fun r b => forall h', repr h' b -> P r h')).
  { intros Hw. destruct (awp_run _ _ _ h Hw R) as (r & h' & b & E & R' & HP). eauto. }
  unfold mpsc_setup, inboxes_init. rewrite <- (with_none a) at 1. apply awp_bind, awp_bind.
  eapply awp_mono; [apply (create_all_awp a calloc (box_create mem calloc) (box_refused mem calloc) Hc
    (fun k b => box_create_one mem calloc k b Hc) boxes (fun _ => NULL) [] ∅ box_names)|].
  { apply owns_start. }
  { by intros k ?%elem_of_nil. }
  intros tab b (m & -> & Hm & Ha & _ & Hrf). apply awp_ret. simpl in Hm, Ha. destruct (all_there boxes tab) eqn:E.
  - eapply (setup_latency boxes (box_refused mem calloc) inboxes_destroy); try done. apply inboxes_destroy_awp.
  - apply all_there_false in E as (k & Hk & Ek). apply awp_bind. eapply awp_mono; [apply (inboxes_destroy_awp a tab m)|].
    + by apply owns_unused.
    + by eapply owns_fresh.
    + intros _ b ->. apply awp_ret. intros h' R'. left. split; [done|]. exists k. split; [done|]. by apply Hrf.
Qed.
End both.

(** ** Theorems *)


Definition malloc_zero : Malloc.
Proof.
  refine {| malloc := fun n => if n <? 0 then None else Some (replicate (Z.to_nat n) x00) |}.
  intros n b. destruct (Z.ltb_spec n 0); [done|]. intros [= <-]. unfold zlen. rewrite length_replicate. lia.
Defined.
Definition port_addr (k : place port sink) : option ptr :=
  Some (match k with
  | AtPort tun_to_forward => 501 | AtPort forward_to_enc => 502 | AtPort enc_to_tunnel => 503 | AtPort tunnel_to_enc => 504
  | AtPort enc_to_forward => 505 | AtPort forward_to_tun => 506 | AtPort tunnel_to_forward => 507 | AtPort forward_to_oam => 508
  | AtPort oam_to_forward => 509 | AtPort forward_to_tunnel => 510 | AtPort inj_tun => 511 | AtPort inj_tunnel => 512
  | AtPort inj_oam => 513 | AtSink done_tun => 514 | AtSink done_tunnel => 515 | AtSink done_oam => 516
  end).
Definition box_addr (k : place inbox done_box) : option ptr :=
  Some (match k with
  | AtPort in_tun => 601 | AtPort in_forward => 602 | AtPort in_enc => 603 | AtPort in_tunnel => 604 | AtPort in_oam => 605
  | AtSink in_done => 606
  end).
(** The first array of the first path is granted, its second refused. *)
Definition lat_addr (k : path_id_t * lat_array) : option ptr :=
  match k with (PATH_TUN_FORWARD_ENC_TUNNEL, send_ts) => Some 700 | _ => None end.
Definition one_path : stats_t := fun i => mk_stat (bool_decide (i = PATH_TUN_FORWARD_ENC_TUNNEL)) 0 0 0 0 0.
Definition one_packet : run_config_t := mk_run (fun i => s_enabled (one_path i)) 1 false (Some 0) 0 false POLL_SPIN 0.

Lemma port_addr_ok : fresh_answers (a_chan aheap_ex) port_addr.
Proof.
  split.
  - intros [[]|[]] p E; injection E as <-; (split; [discriminate|vm_compute; reflexivity]).
  - intros [[]|[]] [[]|[]] p E E'; unfold port_addr in E, E'; congruence.
Qed.
Lemma box_addr_ok : fresh_answers (a_chan aheap_ex) box_addr.
Proof.
  split.
  - intros [[]|[]] p E; injection E as <-; (split; [discriminate|vm_compute; reflexivity]).
  - intros [[]|[]] [[]|[]] p E E'; unfold box_addr in E, E'; congruence.
Qed.
Lemma lat_addr_ok : fresh_answers (a_mem aheap_ex) lat_addr.
Proof.
  split.
  - intros [[] []] p E; try discriminate E. injection E as <-. split; [discriminate|vm_compute; reflexivity].
  - intros [[] []] [[] []] p E E'; try discriminate E; try discriminate E'; reflexivity.
Qed.


(** When all channels are granted and the second array is refused, the start of [main]
    returns 1 with the first array still allocated. *)
Theorem setup_leaks_latency :
  let lat := latency_blocks_init lat_addr (fun _ => []) (fun i => s_enabled (one_path i)) (latency_hint one_packet) in
  (exists bl h', dom bl = {[700]} /\ repr h' (with_blocks bl aheap_ex) /\
     spsc_setup (fun _ => malloc_zero) port_addr lat heap_ex = Ret (None, h')) /\
  (exists bl h', dom bl = {[700]} /\ repr h' (with_blocks bl aheap_ex) /\
     mpsc_setup (fun _ => malloc_zero) box_addr lat heap_ex = Ret (None, h')).
Proof.
  intros lat. split.
  - destruct (spsc_setup_outcome aheap_ex lat_addr (fun _ => []) (fun i => s_enabled (one_path i)) (latency_hint one_packet) lat_addr_ok
      (fun _ => malloc_zero) port_addr heap_ex heap_ex_repr port_addr_ok) as (r & h' & E & HP).
    destruct r as [[tab ctx]|]; [destruct HP as [Hg _]; discriminate Hg|].
    destruct HP as [[_ (k & _ & [Hr|Hr])]|(_ & bl & Hd & R)]; [done|by destruct k|].
    exists bl, h'. split; [|split; [exact R|exact E]]. rewrite Hd. change (list_to_set [700] = ({[700]} : gset ptr)). set_solver.
  - destruct (mpsc_setup_outcome aheap_ex lat_addr (fun _ => []) (fun i => s_enabled (one_path i)) (latency_hint one_packet) lat_addr_ok
      (fun _ => malloc_zero) box_addr heap_ex heap_ex_repr box_addr_ok) as (r & h' & E & HP).
    destruct r as [[tab ctx]|]; [destruct HP as [Hg _]; discriminate Hg|].
    destruct HP as [[_ (k & _ & [Hr|Hr])]|(_ & bl & Hd & R)]; [done|by destruct k as [[]|[]]|].
    exists bl, h'. split; [|split; [exact R|exact E]]. rewrite Hd. change (list_to_set [700] = ({[700]} : gset ptr)). set_solver.
Qed.
