(* ===== verification/BenchMpmc.v ===== *)
(** * The throughput benchmark: [bench/bench_mpmc.c]

    Producers and consumers count the operations that succeed and add their counts
    to two shared counters when they return; [run_once] resets the counters after a
    warm-up and reads them when every thread has returned.  As nobody returns before
    the channel is closed, the reset finds the counters 0 and the operations of the
    warm-up are counted too ([warmup_counted]).  The channel is what the contract of
    the library makes of it: a call that returns succeeds, or the channel is closed. *)

From S2P Require Import Prelude.
From stdpp Require Import list.
#[local] Open Scope Z_scope.

(** Conversion to [long], 64 bits. *)
Definition i64 (x : Z) : Z := (x + 9223372036854775808) mod two64 - 9223372036854775808.

Inductive role := Prod | Cons.
#[export] Instance role_eq_dec : EqDecision role.
Proof. solve_decision. Defined.

(** [producer_fn], [consumer_fn]: about to read [stop], in the call of the channel,
    about to add [cnt], returned. *)
Inductive worker_pc := AtStop (cnt : Z) | InCall (cnt : Z) | Adding (cnt : Z) | Gone.

(** [run_once]: asleep in the warm-up, between the two resets, asleep in the
    measurement, about to close, joining thread [i], and at the end with [s] and [r]. *)
Inductive once_pc := Warmup | Reset | Measure | Closing | Joining (i : nat) | Over (s r : Z).

(** [sends], [recvs]: the operations that succeeded, for the statements. *)
Record bench := mk_bench {
  stop : bool; b_closed : bool; psent : Z; precvd : Z;
  workers : list (role * worker_pc); once : once_pc;
  sends : Z; recvs : Z
}.

Definition put (t : nat) (r : role) (p : worker_pc) (b : bench) : bench :=
  mk_bench (stop b) (b_closed b) (psent b) (precvd b) (<[t := (r, p)]> (workers b)) (once b) (sends b) (recvs b).
Definition count_ok (r : role) (b : bench) : bench :=
  mk_bench (stop b) (b_closed b) (psent b) (precvd b) (workers b) (once b)
    (sends b + match r with Prod => 1 | Cons => 0 end) (recvs b + match r with Prod => 0 | Cons => 1 end).
Definition add_ops (r : role) (cnt : Z) (b : bench) : bench :=
  mk_bench (stop b) (b_closed b) (match r with Prod => i64 (psent b + cnt) | Cons => psent b end)
    (match r with Prod => precvd b | Cons => i64 (precvd b + cnt) end) (workers b) (once b) (sends b) (recvs b).
Definition put_once (o : once_pc) (b : bench) : bench :=
  mk_bench (stop b) (b_closed b) (psent b) (precvd b) (workers b) o (sends b) (recvs b).

(** The thread [t] takes a step, its call, if it is in one, answered CHAN_OK or not;
    or [run_once] does. *)
Inductive blabel := Worker (t : nat) (ok : bool) | Once.

Definition worker_fn (t : nat) (r : role) (p : worker_pc) (ok : bool) (b : bench) : option bench :=
  match p with
  | AtStop cnt => Some (put t r (if stop b then Adding cnt else InCall cnt) b)
  | InCall cnt =>
      if ok then Some (put t r (AtStop (i64 (cnt + 1))) (count_ok r b))
      else if b_closed b then Some (put t r (Adding cnt) b) else None
  | Adding cnt => Some (put t r Gone (add_ops r cnt b))
  | Gone => None
  end.

Definition run_once (b : bench) : option bench :=
  match once b with
  | Warmup => Some (put_once Reset (mk_bench (stop b) (b_closed b) 0 (precvd b) (workers b) (once b) (sends b) (recvs b)))
  | Reset => Some (put_once Measure (mk_bench (stop b) (b_closed b) (psent b) 0 (workers b) (once b) (sends b) (recvs b)))
  | Measure => Some (put_once Closing (mk_bench true (b_closed b) (psent b) (precvd b) (workers b) (once b) (sends b) (recvs b)))
  | Closing => Some (put_once (Joining 0) (mk_bench (stop b) true (psent b) (precvd b) (workers b) (once b) (sends b) (recvs b)))
  | Joining i =>
      match workers b !! i with
      | Some (_, Gone) => Some (put_once (Joining (S i)) b)
      | Some _ => None
      | None => Some (put_once (Over (psent b) (precvd b)) b)
      end
  | Over _ _ => None
  end.

Definition bench_step (l : blabel) (b : bench) : option bench :=
  match l with
  | Worker t ok => '(r, p) ← workers b !! t; worker_fn t r p ok b
  | Once => run_once b
  end.
Fixpoint bench_run (ls : list blabel) (b : bench) : option bench :=
  match ls with [] => Some b | l :: ls => b ← bench_step l b; bench_run ls b end.

Definition bench_start (np nc : nat) : bench :=
  mk_bench false false 0 0 (replicate np (Prod, AtStop 0) ++ replicate nc (Cons, AtStop 0)) Warmup 0 0.

(** What [run_once] divides by the time measured. *)
Definition pairs (s r : Z) : Z := if s <? r then s else r.

(** ** What the counters hold *)

Lemma i64_i64 x y : i64 (i64 x + y) = i64 (x + y).
Proof.
  unfold i64. replace ((x + 9223372036854775808) mod two64 - 9223372036854775808 + y + 9223372036854775808)
    with ((x + 9223372036854775808) mod two64 + y) by lia.
  rewrite Zplus_mod_idemp_l. do 2 f_equal. lia.
Qed.
Lemma i64_i64_r x y : i64 (x + i64 y) = i64 (x + y).
Proof. rewrite (Z.add_comm x), i64_i64. f_equal. lia. Qed.

(** What the threads of a role have counted and not yet added. *)
Definition pending (r : role) (x : role * worker_pc) : Z :=
  if decide (x.1 = r) then match x.2 with AtStop c | InCall c | Adding c => c | Gone => 0 end else 0.
Fixpoint total_pending (r : role) (ws : list (role * worker_pc)) : Z :=
  match ws with [] => 0 | x :: ws => pending r x + total_pending r ws end.

Lemma pending_put r ws t x y : ws !! t = Some x -> total_pending r (<[t := y]> ws) = total_pending r ws - pending r x + pending r y.
Proof. revert t. induction ws as [|z ws IH]; intros [|t] Ht; simplify_eq/=; [lia|]. rewrite (IH t Ht). lia. Qed.
Lemma pending_gone r ws : Forall (fun x => x.2 = Gone) ws -> total_pending r ws = 0.
Proof. induction 1 as [|[r' p] ws Hp _ IH]; simpl in *; [done|]. rewrite IH, Hp. unfold pending. simpl. by destruct (decide _). Qed.

(** Before [stop] is set nobody has returned or is about to. *)
Definition looping (x : role * worker_pc) : Prop := match x.2 with AtStop _ | InCall _ => True | _ => False end.

Definition once_ok (b : bench) : Prop :=
  match once b with
  | Warmup | Reset | Measure => stop b = false /\ b_closed b = false /\ Forall looping (workers b) /\ psent b = 0 /\ precvd b = 0
  | Closing => stop b = true
  | Joining i => stop b = true /\ b_closed b = true /\ Forall (fun x => x.2 = Gone) (take i (workers b))
  | Over s r => Forall (fun x => x.2 = Gone) (workers b) /\ s = psent b /\ r = precvd b
  end.
(** The counter of a role, and the operations of the role that succeeded. *)
Definition ops (r : role) (b : bench) : Z := match r with Prod => psent b | Cons => precvd b end.
Definition done_ops (r : role) (b : bench) : Z := match r with Prod => sends b | Cons => recvs b end.

Record bench_ok (b : bench) : Prop := {
  bo_count : forall r, i64 (ops r b + total_pending r (workers b)) = i64 (done_ops r b);
  bo_range : forall r, i64 (ops r b) = ops r b;
  bo_once : once_ok b
}.

Lemma taken_put (P : role * worker_pc -> Prop) i t x y ws :
  ws !! t = Some x -> ~ P x -> Forall P (take i ws) -> Forall P (take i (<[t := y]> ws)).
Proof.
  intros Ht Hx HF. destruct (decide (t < i)%nat) as [Hlt|Hge].
  - destruct Hx. eapply (Forall_lookup_1 P); [exact HF|]. by rewrite lookup_take_lt.
  - by rewrite take_insert_ge by lia.
Qed.
Lemma all_put (P : role * worker_pc -> Prop) t y ws : P y -> Forall P ws -> Forall P (<[t := y]> ws).
Proof. intros. by apply Forall_insert. Qed.

Lemma i64_shift x y d : i64 x = i64 y -> i64 (x + d) = i64 (y + d).
Proof. intros E. by rewrite <- (i64_i64 x), E, i64_i64. Qed.
Lemma i64_eq x y : x = y -> i64 x = i64 y.
Proof. by intros ->. Qed.

Lemma i64_idem x : i64 (i64 x) = i64 x.
Proof. rewrite <- (Z.add_0_r x) at 2. by rewrite <- i64_i64, Z.add_0_r. Qed.

(** A worker that goes on from [p] to [p'], where [run_once] stands. *)
Lemma once_put t r p p' b b' : once_ok b -> workers b !! t = Some (r, p) -> p <> Gone ->
  (stop b = false -> b_closed b = false -> looping (r, p) -> looping (r, p') /\ psent b' = psent b /\ precvd b' = precvd b) ->
  stop b' = stop b -> b_closed b' = b_closed b -> once b' = once b -> workers b' = <[t := (r, p')]> (workers b) -> once_ok b'.
Proof.
  unfold once_ok. intros H Ht Hp Hloop -> -> -> ->. destruct (once b); try done.
  1-3: destruct H as (Hs & Hc & HF & H1 & H2); destruct (Hloop Hs Hc (Forall_lookup_1 _ _ _ _ HF Ht)) as (Hl & -> & ->);
    repeat split; try done; by apply Forall_insert.
  - destruct H as (? & ? & ?). repeat split; try done. by eapply taken_put.
  - destruct H as [HF _]. by pose proof (Forall_lookup_1 _ _ _ _ HF Ht).
Qed.

Lemma worker_ok t r p ok b b' : bench_ok b -> workers b !! t = Some (r, p) -> worker_fn t r p ok b = Some b' -> bench_ok b'.
Proof.
  intros [H1 H2 H3] Ht E. pose proof (H2 Prod) as H2p. pose proof (H2 Cons) as H2c. pose proof (fun p' b' => once_put t r p p' b b' H3 Ht) as Honce.
  destruct p as [cnt|cnt|cnt|]; cbn [worker_fn] in E; [|destruct ok| |done].
  - injection E as <-. split; [|by intros []|].
    + intros q. transitivity (i64 (ops q b + total_pending q (workers b))); [|by destruct q; apply H1]. apply i64_eq.
      unfold put. cbn [workers]. rewrite (pending_put _ _ _ _ _ Ht). unfold pending. simpl. destruct q, (decide _), (stop b); simpl; lia.
    + eapply Honce; [done| |reflexivity..]. by intros -> _ _.
  - injection E as <-. split; [|by intros []|eapply Honce; [done| |reflexivity..]; done].
    intros q. unfold put. cbn [workers count_ok]. rewrite (pending_put _ _ _ _ _ Ht). specialize (H1 q). unfold pending. cbn [fst snd].
    destruct (decide (r = q)) as [->|Hr].
    + replace (done_ops q _) with (done_ops q b + 1) by (by destruct q). rewrite <- (i64_shift _ _ 1 H1), Z.add_assoc, i64_i64_r.
      apply i64_eq. destruct q; simpl; lia.
    + replace (done_ops q _) with (done_ops q b) by (destruct q, r; simpl; try done; lia). rewrite <- H1. apply i64_eq. destruct q; simpl; lia.
  - destruct (b_closed b) eqn:Ec; [|done]. injection E as <-. split; [|by intros []|].
    + intros q. transitivity (i64 (ops q b + total_pending q (workers b))); [|by destruct q; apply H1]. apply i64_eq.
      unfold put. cbn [workers]. rewrite (pending_put _ _ _ _ _ Ht). unfold pending. simpl. destruct q, (decide _); simpl; lia.
    + eapply Honce; [done| |done..]. congruence.
  - injection E as <-. split.
    + intros q. unfold put. cbn [workers add_ops]. rewrite (pending_put _ _ _ _ _ Ht). specialize (H1 q). unfold pending. cbn [fst snd].
      transitivity (i64 (ops q b + total_pending q (workers b))); [|by destruct q].
      destruct q, r; simpl; rewrite ?i64_i64; apply i64_eq; lia.
    + intros q. specialize (H2 q). destruct q, r; simpl in *; rewrite ?i64_idem; done.
    + eapply Honce; [done| |reflexivity..]. by intros _ _ [].
Qed.

Lemma once_step_ok b b' : bench_ok b -> run_once b = Some b' -> bench_ok b'.
Proof.
  intros [H1 H2 H3] E. pose proof (H2 Prod) as H2p. pose proof (H2 Cons) as H2c. unfold run_once, once_ok in *. destruct (once b) as [| | | |i|s r] eqn:Eo; [| | | | |done].
  - destruct H3 as (Hs & Hc & HF & Hp & Hr). injection E as <-. split; [|by intros []|by repeat split]. intros []; [|apply (H1 Cons)]. specialize (H1 Prod). simpl in *. by rewrite Hp in H1.
  - destruct H3 as (Hs & Hc & HF & Hp & Hr). injection E as <-. split; [|by intros []; [apply (H2 Prod)|]|by repeat split]. intros []; [apply (H1 Prod)|]. specialize (H1 Cons). simpl in *. by rewrite Hr in H1.
  - injection E as <-. by split; [intros []; [apply (H1 Prod)|apply (H1 Cons)]|intros []; [apply (H2 Prod)|apply (H2 Cons)]|].
  - injection E as <-. by split; [intros []; [apply (H1 Prod)|apply (H1 Cons)]|intros []; [apply (H2 Prod)|apply (H2 Cons)]|].
  - destruct H3 as (Hs & Hc & HF). destruct (workers b !! i) as [[r []]|] eqn:Hi; try done; injection E as <-;
      (split; [intros []; [apply (H1 Prod)|apply (H1 Cons)]|intros []; [apply (H2 Prod)|apply (H2 Cons)]|]).
    + repeat split; try done. simpl. rewrite (take_S_r _ _ _ Hi). apply Forall_app. split; [done|by constructor].
    + unfold once_ok. simpl. rewrite take_ge in HF by (by apply lookup_ge_None). done.
Qed.

Lemma bench_run_ok ls b b' : bench_ok b -> bench_run ls b = Some b' -> bench_ok b'.
Proof.
  revert b. induction ls as [|l ls IH]; intros b Hb E; simpl in E; [by simplify_eq|].
  destruct (bench_step l b) as [b1|] eqn:E1; [|done]. simpl in E. apply (IH b1); [|done]. destruct l as [t ok|]; simpl in E1.
  - destruct (workers b !! t) as [[r p]|] eqn:Ht; [|done]. by eapply worker_ok.
  - by eapply once_step_ok.
Qed.

Lemma bench_start_ok np nc : bench_ok (bench_start np nc).
Proof.
  assert (forall r, total_pending r (workers (bench_start np nc)) = 0) as Hp.
  { intros r. simpl. induction np as [|np IH]; simpl; [|by rewrite IH; destruct r]. induction nc as [|nc IH]; simpl; [done|]. by rewrite IH; destruct r. }
  split; [|by intros []|].
  - intros r. rewrite Hp. by destruct r.
  - unfold once_ok. simpl. repeat split; try done. apply Forall_app. split; by apply Forall_replicate.
Qed.

(** ** Theorem *)

(** C39: When [run_once] ends, whatever the schedule, it has read the number of sends and
    receives that succeeded since the threads were started, those of the warm-up
    included (as [long]s): the reset after the warm-up has no effect.  And it never
    gets stuck before it ends. *)
Theorem warmup_counted np nc ls b (Hrun : bench_run ls (bench_start np nc) = Some b) :
  (forall s r, once b = Over s r -> s = i64 (sends b) /\ r = i64 (recvs b)) /\
  ((forall l, bench_step l b = None) -> exists s r, once b = Over s r).
Proof.
  pose proof (bench_run_ok _ _ _ (bench_start_ok np nc) Hrun) as [H1 H2 H3]. split.
  - intros s r Eo. unfold once_ok in H3. rewrite Eo in H3. destruct H3 as (HF & -> & ->).
    pose proof (H1 Prod) as Hp. pose proof (H1 Cons) as Hc. rewrite (pending_gone _ _ HF), Z.add_0_r in Hp. rewrite (pending_gone _ _ HF), Z.add_0_r in Hc.
    rewrite (H2 Prod) in Hp. rewrite (H2 Cons) in Hc. done.
  - intros Hst. unfold once_ok in H3. pose proof (Hst Once) as Ho. simpl in Ho. unfold run_once in Ho.
    destruct (once b) as [| | | |i|s r]; try done; [|by exists s, r]. destruct H3 as (Hs & Hc & _).
    destruct (workers b !! i) as [[r p]|] eqn:Hi; [|done]. specialize (Hst (Worker i true)). simpl in Hst. rewrite Hi in Hst. by destruct p.
Qed.

(** One producer and one consumer: a pair in the warm-up and nothing in the time
    measured, and one pair is reported. *)
Definition warm_run : list blabel :=
  [Worker 0 true; Worker 0 true; Worker 1 true; Worker 1 true; Worker 0 true; Worker 1 true; Once; Once; Once; Once;
   Worker 0 false; Worker 0 false; Worker 1 false; Worker 1 false; Once; Once; Once].

Definition warm_end : bench := mk_bench true true 1 1 [(Prod, Gone); (Cons, Gone)] (Over 1 1) 1 1.

Lemma warmup_counted_witness :
  bench_run warm_run (bench_start 1 1) = Some warm_end /\ pairs 1 1 = 1 /\
  (forall s r, once warm_end = Over s r -> s = i64 (sends warm_end) /\ r = i64 (recvs warm_end)) /\
  ((forall l, bench_step l warm_end = None) -> exists s r, once warm_end = Over s r).
Proof.
  assert (bench_run warm_run (bench_start 1 1) = Some warm_end) as E by (vm_compute; reflexivity).
  split; [exact E|]. split; [reflexivity|]. exact (warmup_counted 1 1 warm_run warm_end E).
Defined.
